(* ===== verification/_CoqProject ===== *)
-Q . S2P
Prelude.v
Double.v
Libm.v
Rounding.v
Text.v
TranMerc.v
Utm.v
PolarSt.v
Ups.v
Mgrs.v
MgrsFacts.v
NumUtils.v
Model.v
TerrainMap.v
Interpolation.v
SrtmReader.v
SrtmFacts.v
SrtmArea.v
AsciiReader.v
AsciiFacts.v
MorphGraph.v
GraphFacts.v
GraphSpec.v
Connectivity.v
ConnFacts.v
Conditions.v
Production.v
Mesh.v
Break.v
Productions.v
ProductionFacts.v
MeshCheck.v
Generator.v
Euler.v
Writer.v
WriterFacts.v
TerrainGenerator.v
Refine.v
Grammar.v
Conformity.v
ConformityCheck.v
Invariant.v
Config.v
Driver.v
Marking.v
Termination.v
FixedSizeRing.v
Gdeque.v
Worklist.v
TermDetect.v
ForEach.v
InsertBag.v
Conflicts.v
MarkingParallel.v
SpinLock.v
TopoBarrier.v
HwTopo.v
