(* ===== verification/Prelude.v ===== *)
(** * Terrain mesh generator: a verification library

    The program ([src/lonestar/graphgrammar2]) builds a triangular mesh over a terrain.
    It reads heights from SRTM tiles or from an ASCII grid, makes an initial mesh of two
    triangles over an area, and refines it: a pass marks the triangles from which the
    terrain deviates, and a pass of a graph grammar of six productions cuts marked
    triangles and those with broken sides until the work list is empty.  The mesh is a
    graph of the Galois framework ([MorphGraph.h]) whose nodes are vertices and triangle
    interiors ("hyper-edges").  In the names below [src/] stands for
    [src/lonestar/graphgrammar2/src/].

    ** Files

    Foundations.  [Prelude]: outcomes ([result], with undefined behaviour, failed
    assertions, calls of [exit] and exhausted bounds as errors), the state monad [st] and
    the rules for its loops.  [Double]: the type [double] as IEEE 754 binary64, evaluated
    by [SpecFloat].  [Libm]: the elementary functions as a class [Libm], and the functions
    with exact results.  [Rounding]: doubles as rational numbers, and the operations as
    rounding to nearest.  [Text]: numbers printed and read by the C and C++ libraries.

    Coordinates ([src/libmgrs/], [src/utils/Utils.cpp]).  [TranMerc], [Utm], [PolarSt],
    [Ups], [Mgrs]: one file for each C file, the static variables as a record that every
    function takes and returns.  [MgrsFacts]: the strings of polar coordinates.

    Data and readers ([src/utils/utils.h], [src/model/], [src/readers/]).  [NumUtils]: the
    comparisons with a tolerance and the methods of [Utils].  [Model]: [Coordinates],
    [NodeData], [EdgeData].  [TerrainMap]: the map, a matrix whose cells may be unwritten,
    and its two ways to give a height; [Interpolation]: the height at a point of the grid.
    [SrtmReader], [AsciiReader]: the readers over a file system given as a function;
    [SrtmFacts], [AsciiFacts]: what they compute; [SrtmArea]: the SRTM reader on an area
    that spans several tiles.

    The mesh ([MorphGraph.h], [src/utils/ConnectivityManager.h], [src/model/],
    [src/productions/], [src/conditions/]).  [MorphGraph]: the graph with its adjacency
    vectors, stale entries and shared edge data; [GraphFacts]: its invariant [wf];
    [GraphSpec]: its contract, an abstract graph, and the refinement.  [Connectivity],
    [ConnFacts]: the connectivity manager.  [Conditions]: the marking of triangles.
    [Production], [Productions]: the state of a triangle, the base class and the six
    productions.  [Mesh], [Break], [ProductionFacts], [MeshCheck], [Euler]: the mesh
    invariant [mesh_ok], the effect of a cut, of every production, a decision procedure for
    the invariant, and the Euler characteristic.  [Refine], [Grammar]: the operator of the
    refinement pass and the theorems about the grammar.  [Conformity]: the invariant
    [conformal] of a mesh with hanging vertices and its preservation when a triangle is
    replaced by two; [ConformityCheck]: deciding its conditions; [Invariant]: the two kinds
    of cuts, marking and the initial mesh as instances.

    The program around it.  [Generator], [TerrainGenerator]: the graphs of
    [src/utils/GraphGenerator.h].  [Writer], [WriterFacts]: the mesh file.  [Config]: the
    command line.  [Driver]: [src/GraphGrammar.cpp], [main] as a run of visits of work lists.
    [Marking]: its first loop, in any order.  [Termination]: when its second loop ends.

    The runtime ([src/libgalois/include/galois/] of the repository).  [FixedSizeRing]: the
    bounded ring and bag of [FixedSizeRing.h] over arrays of constructed and unconstructed
    elements.  [Gdeque]: the deque of [gdeque.h], a list of blocks in a memory; the interface
    [Container] is what it needs of a block, and the ring implements it.  [Worklist]: the
    chunked work lists of [worklists/Chunk.h] and [WorkListHelpers.h]; a method is a program
    of actions ([prog]), run alone ([exec]) or interleaved with those of other threads
    ([thread_step]), and [wp] says what a thread may rely on while others run.
    [TermDetect]: the token ring of [substrate/Termination.h] with the threads of a loop.
    [ForEach]: the executor of [runtime/Executor_ForEach.h] for one thread, over these.
    [InsertBag]: the bag of [Bag.h] in which a graph keeps its nodes.  [Conflicts]: the locks
    of nodes of [runtime/Context.h] and [substrate/PtrLock.h], with threads that visit items
    at the same time, commit and abort ([step]); what a thread owns is a part of the memory
    ([frag]), and [cwp] says what it may rely on.  [MarkingParallel]: the operator of the
    marking loop as a program of acquisitions, reads and writes, run by the threads of
    [Conflicts].  [SpinLock]: the waiting lock of [PtrLock.h] with arbitrary critical
    sections.  [TopoBarrier]: the barrier of [src/libgalois/src/Barrier_Topo.cpp]; what it
    needs of the machine is the class [TopoLaws].  [HwTopo]: the order of the processors and
    the numbers of threads and sockets of [HWTopoLinux.cpp], which discharge it.

    ** What is shown

    The graph refines its contract, with node removal, reuse of slots and edge data shared
    by both ends ([graph_refines]); whatever permitted operations have built it, it is well
    formed and a simple undirected graph to its clients ([graph_well_typed]).  On a mesh every
    production does what its guard and its
    picture say, on all branches ([P1_correct] to [P6_correct]); at most one applies, so
    their order does not matter; a visit always returns, keeps the mesh invariant and the
    Euler characteristic, and pushes exactly the nodes it made ([refine_node_correct]); and
    it leaves exactly the triangles that need no cut or wait for a neighbour
    ([visit_leaves_iff]).  The initial mesh over a terrain is a mesh.  From it on, whatever
    the order of visits, the mesh stays conformal: two triangles at every edge inside and
    one at the border, a flagged vertex in the middle of every broken side and nowhere else;
    so no assertion of the grammar fails ([visits_conformal], [grammar_never_fails]).
    This needs the positions of nodes to be told apart by the comparisons with a tolerance,
    which is the hypothesis [plain] on the graphs of the run.  A triangle is marked
    exactly when a point of its grid is inside and too far from the plane, and the pass that
    marks does the same in every order ([marking_pass]); the pass that cuts does not
    ([grammar_pass_order_matters]).  The file of the writer has consistent numbers.  The
    readers return the numbers of the files, across tiles ([SrtmReader_read_area], where the
    borders may be off the grid of three seconds by the rounding of decimal fractions), the
    outlier filter equals a reference definition, heights are read in bounds and are the
    cells at the points of the grid.  Polar coordinates survive the way to an MGRS string
    and back, to the digits the string has ([ups_mgrs_roundtrip]).  The
    projections accept exactly the documented parameters, and a conversion does not depend
    on earlier ones.

    The pass that cuts ends: as long as a cut makes the longest side of a triangle shorter in
    the arithmetic of doubles, the number of visits is bounded by a sum over the triangles
    ([grammar_pass_ends]).  The ring and the deque implement sequences ([ring_refines],
    [gdeque_refines]).  However the actions of the threads are interleaved, the work list
    loses no value and hands none out twice ([worklist_conserves]), the loop does not end
    before all work is done ([termination_safe]), and it does end after a bounded number of
    rounds of the token when it is ([termination_detected]).  With one thread, the default
    of the program, the executor with its work list, push buffer and detector is the loop
    over a first-in first-out list that [Driver] uses as one of its runs
    ([for_each_impl_fifo]).  A bag keeps what was put in it, at addresses that do not change,
    and its iterators visit all of it ([bag_refines]).  Visits of several threads,
    interleaved access by access, have the effect of visits one at a time in some order, and
    no thread waits for another, for operators that acquire all that they touch and acquire
    before they write ([visits_serializable], [visit_ends_alone]); for others this fails
    ([abort_keeps_writes]).  The operator of the marking loop is one of the former, so the
    loop by several threads leaves the graph that the loop of [Driver] leaves, and can get to
    its end from every state ([marking_parallel]).  Critical sections under the lock of [PtrLock.h] are atomic
    ([sections_atomic]).  No thread passes the barrier before all have come to it, also when
    the counters wrap around, and it opens when they have ([barrier_safe], [barrier_opens]);
    the numbers of [getHWTopo] are as it needs them when the process may use the first
    hardware thread of some core of every socket in use ([machine_barrier]), and otherwise it
    can fail ([restricted_barrier_fails]).  A few theorems state what goes wrong where the code does not do what
    it means to do; they are named in that way.

    ** Bounds

    Loops of the program that step a [double], search downwards or wait for a work list to
    empty run on fuel and end in [Diverge] without it.  A theorem about such a loop says
    how much fuel is enough, or has the count of its steps as a hypothesis.  [Diverge] is
    an error of its own, so that no statement about a result holds for lack of fuel.

    ** Not modelled

    The acquisitions of nodes by the second loop: in [Driver] its work list is taken in an
    arbitrary order, one visit at a time; its operator is not cautious, since it writes a file
    after every cut.  Interference of two conversions of coordinates: the variables of
    the projection are not protected, and a conversion is taken as one action.  What only the
    deterministic executor uses of [Context.h] and [PtrLock.h], and the list in which an
    aborted item waits.  The start of threads and the text of [/proc/cpuinfo], the allocators and the
    memory model of the machine: accesses of threads are interleaved and blocks are allocated
    at fresh addresses.  [getopt] (a parameter), output for debugging, timers and calls of
    [system], the parts of [MorphGraph.h] that the program does not use, and the rest of
    the framework: other graphs, distributed runtime, other applications, tools. *)
From Stdlib Require Export ZArith Lia.
From stdpp Require Export base list numbers option.

(** ** Outcomes

    A C++ expression of the program either yields a value or ends the run:
    [Exit n] is a call of [exit(n)], [UB] is undefined behaviour (an index out
    of range, a cast of a floating-point number that does not fit), [AssertFail]
    a failed [assert] (the value of an empty [optional] asserts), and [Diverge] is the
    verdict of a bounded loop whose bound was too small. *)
Inductive error :=
  | Exit (code : Z)
  | UB
  | AssertFail
  | Diverge.

#[global] Instance error_eq_dec : EqDecision error.
Proof. solve_decision. Defined.

Inductive result (A : Type) :=
  | Ok (a : A)
  | Err (e : error).
Arguments Ok {A} a.
Arguments Err {A} e.

#[global] Instance result_ret : MRet result := @Ok.
#[global] Instance result_bind : MBind result := λ A B f m,
  match m with Ok a => f a | Err e => Err e end.
#[global] Instance result_fmap : FMap result := λ A B f m,
  match m with Ok a => Ok (f a) | Err e => Err e end.

(** An element of a vector: an index out of range is undefined behaviour. *)
Definition get_opt {A} (o : option A) : result A :=
  match o with Some a => Ok a | None => Err UB end.

(** [galois::optional::get()], which asserts that there is a value. *)
Definition opt_get {A} (o : option A) : result A :=
  match o with Some a => Ok a | None => Err AssertFail end.

(** ** State *)

(** Code that reads and writes a state [S]: explicit state passing, the state
    being lost when the run ends. *)
Definition st (S A : Type) : Type := S → result (A * S).

#[global] Instance st_ret S : MRet (st S) := λ A a s, Ok (a, s).
#[global] Instance st_bind S : MBind (st S) := λ A B f m s,
  match m s with Ok (a, s') => f a s' | Err e => Err e end.

Definition getS {S} : st S S := λ s, Ok (s, s).
Definition gets {S A} (f : S → A) : st S A := λ s, Ok (f s, s).
Definition modify {S} (f : S → S) : st S unit := λ s, Ok (tt, f s).
Definition lift {S A} (r : result A) : st S A := λ s,
  match r with Ok a => Ok (a, s) | Err e => Err e end.
Definition reads {S A} (f : S → result A) : st S A := λ s,
  match f s with Ok a => Ok (a, s) | Err e => Err e end.

(** A loop [for (x : l) body(x)]. *)
Fixpoint for_each_in {S A} (l : list A) (body : A → st S unit) : st S unit :=
  match l with
  | [] => mret tt
  | x :: l' => body x;; for_each_in l' body
  end.

(** ** Reasoning about outcomes *)

Lemma result_bind_Ok {A B} (m : result A) (f : A → result B) (b : B) :
  (m ≫= f) = Ok b ↔ ∃ a, m = Ok a ∧ f a = Ok b.
Proof.
  destruct m as [a|e]; simpl; unfold mbind, result_bind.
  - split; [eauto|]. intros (a' & [= ->] & ?). done.
  - split; [done|]. intros (? & [=] & _).
Qed.

Lemma st_bind_Ok {S A B} (m : st S A) (f : A → st S B) (s : S) r :
  (m ≫= f) s = Ok r ↔ ∃ a s', m s = Ok (a, s') ∧ f a s' = Ok r.
Proof.
  unfold mbind, st_bind. destruct (m s) as [[a s']|e].
  - split; [eauto|]. intros (a' & s'' & [= -> ->] & ?). done.
  - split; [done|]. intros (? & ? & [=] & _).
Qed.

Lemma st_bind_step {S A B} (m : st S A) (f : A → st S B) (s s' : S) a :
  m s = Ok (a, s') → (m ≫= f) s = f a s'.
Proof. intros Hm. unfold mbind, st_bind. by rewrite Hm. Qed.

Lemma reads_Ok {S A} (f : S → result A) (s : S) r :
  reads f s = Ok r ↔ ∃ a, f s = Ok a ∧ r = (a, s).
Proof.
  unfold reads. destruct (f s); split; try naive_solver.
Qed.

(** [inv_ok H] turns an equation on a successful run into the equations of its
    steps. *)
Ltac inv_ok_step H :=
  lazymatch type of H with
  | (_ ≫= _) = Ok _ =>
      let a := fresh "r" in let Ha := fresh "Hr" in
      apply result_bind_Ok in H as (a & Ha & H)
  | (_ ≫= _) _ = Ok _ =>
      let a := fresh "r" in let s := fresh "s" in let Ha := fresh "Hr" in
      apply st_bind_Ok in H as (a & s & Ha & H)
  end.
Ltac inv_ok H := repeat (inv_ok_step H; cbn beta in H).

(** ** Lists *)

Lemma list_filter_ext_in {A} (P Q : A → Prop) `{∀ x, Decision (P x), ∀ x, Decision (Q x)}
    (l : list A) :
  (∀ x, x ∈ l → P x ↔ Q x) → filter P l = filter Q l.
Proof.
  induction l as [|x l IH]; intros H'; [done|]. rewrite !filter_cons.
  rewrite IH by (intros; apply H'; by right).
  specialize (H' x ltac:(by left)). repeat case_decide; tauto.
Qed.

Lemma find_app {A} (f : A → bool) (l l' : list A) :
  List.find f (l ++ l') = match List.find f l with Some x => Some x | None => List.find f l' end.
Proof. induction l as [|x l IH]; simpl; [done|]. by destruct (f x). Qed.

(** A loop keeps an invariant, and runs to its end, when its body does. *)
Lemma for_each_in_inv {S A} (P : S → Prop) (l : list A) (body : A → st S unit) (s : S) :
  (∀ x s, x ∈ l → P s → ∃ s', body x s = Ok (tt, s') ∧ P s') →
  P s → ∃ s', for_each_in l body s = Ok (tt, s') ∧ P s'.
Proof.
  revert s. induction l as [|x l IH]; intros s Hb Hs; [by exists s|].
  destruct (Hb x s) as (s1 & Hr & H1); [by left|done|].
  destruct (IH s1) as (s2 & Hr2 & H2); [intros y s' Hy; apply Hb; by right|done|].
  exists s2. split; [|done]. simpl. unfold mbind, st_bind. by rewrite Hr.
Qed.

(** The same for a loop [for (k = 0; k < n; ++k)], with the index in the invariant. *)
Lemma for_seq_inv {S} (P : nat → S → Prop) (n : nat) (body : nat → st S unit) (s : S) :
  (∀ k s, k < n → P k s → ∃ s', body k s = Ok (tt, s') ∧ P (Datatypes.S k) s') →
  P 0 s → ∃ s', for_each_in (seq 0 n) body s = Ok (tt, s') ∧ P n s'.
Proof.
  intros Hb. assert (∀ m k s, k + m = n → P k s →
    ∃ s', for_each_in (seq k m) body s = Ok (tt, s') ∧ P n s') as H.
  { induction m as [|m IH]; intros k s0 Hk Hs.
    - exists s0. split; [done|]. by replace n with k by lia.
    - destruct (Hb k s0) as (s1 & Hr & H1); [lia|done|].
      destruct (IH (Datatypes.S k) s1) as (s2 & Hr2 & H2); [lia|done|].
      exists s2. split; [|done]. simpl. unfold mbind, st_bind. by rewrite Hr. }
  intros H0. by apply (H n 0 s).
Qed.
