(* ===== verification/Double.v ===== *)
(** * IEEE 754 binary64, the type [double] of the program

    Arithmetic is the Standard Library's [SpecFloat] at precision 53 and
    exponent bound 1024 (round to nearest, ties to even), so every definition
    that uses a [double] can be evaluated.  Comparisons are on the represented
    values.  Casts to an integer type are undefined when the truncated value
    does not fit, as in C++.  The lemmas are the facts the components need:
    comparison is a total order outside NaN, a difference has the sign of the
    comparison, and integers below 2^53 are exact. *)
From Stdlib Require Import SpecFloat.
From S2P Require Import Prelude.

Local Open Scope Z_scope.

Abbreviation double := spec_float.
Abbreviation prec := 53.
Abbreviation emax := 1024.

#[global] Instance double_eq_dec : EqDecision double.
Proof. solve_decision. Defined.

Definition dadd : double → double → double := SFadd prec emax.
Definition dsub : double → double → double := SFsub prec emax.
Definition dmul : double → double → double := SFmul prec emax.
Definition ddiv : double → double → double := SFdiv prec emax.
Definition dsqrt : double → double := SFsqrt prec emax.
Definition dopp : double → double := SFopp.
Definition fabs : double → double := SFabs.

(** Conversion of an integer to [double], rounded to nearest. *)
Definition of_Z (z : Z) : double := binary_normalize prec emax z 0 false.

(** The literal [n/d] of the source, correctly rounded ([1e-4] is [lit 1 10000]). *)
Definition lit (n d : positive) : double :=
  SFdiv prec emax (S754_finite false n 0) (S754_finite false d 0).

(** [pow(x, 2)]. *)
Definition sqr (x : double) : double := dmul x x.

(** ** Comparison of values *)

Definition cond_opp (s : bool) (m : Z) : Z := if s then - m else m.

Definition is_nan (x : double) : bool :=
  match x with S754_nan => true | _ => false end.

(** Compares [m1 * 2^e1] with [m2 * 2^e2]. *)
Definition scaled_compare (m1 e1 m2 e2 : Z) : comparison :=
  let e := Z.min e1 e2 in
  Z.compare (m1 * 2 ^ (e1 - e)) (m2 * 2 ^ (e2 - e)).

(** Finite values as a significand and an exponent. *)
Definition significand (x : double) : Z :=
  match x with S754_finite s m _ => cond_opp s (Zpos m) | _ => 0 end.
Definition exponent (x : double) : Z :=
  match x with S754_finite _ _ e => e | _ => 0 end.

Definition dcompare (x y : double) : option comparison :=
  match x, y with
  | S754_nan, _ | _, S754_nan => None
  | S754_infinity s1, S754_infinity s2 =>
      Some (match s1, s2 with
            | true, false => Lt | false, true => Gt | _, _ => Eq end)
  | S754_infinity s, _ => Some (if s then Lt else Gt)
  | _, S754_infinity s => Some (if s then Gt else Lt)
  | _, _ => Some (scaled_compare (significand x) (exponent x)
                                 (significand y) (exponent y))
  end.

Definition dlt (x y : double) : bool :=
  match dcompare x y with Some Lt => true | _ => false end.
Definition dle (x y : double) : bool :=
  match dcompare x y with Some (Lt | Eq) => true | _ => false end.
Definition dgt (x y : double) : bool := dlt y x.
Definition dge (x y : double) : bool := dle y x.
Definition deq (x y : double) : bool :=
  match dcompare x y with Some Eq => true | _ => false end.

(** ** Casts *)

(** Truncation towards zero, none for infinities and NaN. *)
Definition trunc (x : double) : option Z :=
  match x with
  | S754_zero _ => Some 0
  | S754_finite s m e =>
      Some (cond_opp s (if 0 <=? e then Zpos m * 2 ^ e else Zpos m / 2 ^ (- e)))
  | _ => None
  end.

Definition cast (lo hi : Z) (x : double) : result Z :=
  match trunc x with
  | Some z => if (lo <=? z) && (z <=? hi) then Ok z else Err UB
  | None => Err UB
  end.

Definition INT_MIN : Z := - 2 ^ 31.
Definition INT_MAX : Z := 2 ^ 31 - 1.

(** [(int)x], [(long)x] and the conversion to [size_t]. *)
Definition to_int : double → result Z := cast INT_MIN INT_MAX.
Definition to_long : double → result Z := cast (- 2 ^ 63) (2 ^ 63 - 1).
Definition to_size_t : double → result Z := cast 0 (2 ^ 64 - 1).

(** Arithmetic of [size_t]. *)
Definition wrap64 (z : Z) : Z := z mod 2 ^ 64.

(** [round(x)]: to the nearest integer, halves away from zero. *)
Definition dround (x : double) : double :=
  match x with
  | S754_finite s m e =>
      if 0 <=? e then x
      else
        let q := (2 * Zpos m + 2 ^ (- e)) / 2 ^ (1 - e) in
        if q =? 0 then S754_zero s else of_Z (cond_opp s q)
  | _ => x
  end.

(** ** Comparison is a total order outside NaN *)

Lemma scaled_compare_at e m1 e1 m2 e2 :
  e ≤ e1 → e ≤ e2 →
  scaled_compare m1 e1 m2 e2 = Z.compare (m1 * 2 ^ (e1 - e)) (m2 * 2 ^ (e2 - e)).
Proof.
  intros H1 H2. unfold scaled_compare. set (e0 := Z.min e1 e2).
  replace (e1 - e) with ((e1 - e0) + (e0 - e)) by lia.
  replace (e2 - e) with ((e2 - e0) + (e0 - e)) by lia.
  rewrite !Z.pow_add_r by lia. rewrite !Z.mul_assoc.
  assert (0 < 2 ^ (e0 - e)) as Hp by (apply Z.pow_pos_nonneg; lia).
  apply Zmult_compare_compat_r. lia.
Qed.

Lemma scaled_compare_swap m1 e1 m2 e2 :
  scaled_compare m2 e2 m1 e1 = CompOpp (scaled_compare m1 e1 m2 e2).
Proof. unfold scaled_compare. rewrite (Z.min_comm e2 e1). apply Z.compare_antisym. Qed.

Lemma dcompare_swap x y : dcompare y x = CompOpp <$> dcompare x y.
Proof.
  destruct x as [s|s| |s m e], y as [s'|s'| |s' m' e']; simpl;
    try (destruct s; done); try (destruct s'; done); try (destruct s, s'; done);
    try done; f_equal; apply scaled_compare_swap.
Qed.

Lemma dcompare_nan x y :
  dcompare x y = None ↔ is_nan x = true ∨ is_nan y = true.
Proof. destruct x, y; simpl; split; intros H; try naive_solver. Qed.

(** Finite values brought to a common exponent are integers. *)
Definition at_exp (e : Z) (x : double) : Z := significand x * 2 ^ (exponent x - e).

Definition is_finite (x : double) : bool :=
  match x with S754_zero _ | S754_finite _ _ _ => true | _ => false end.

Lemma dcompare_finite e x y :
  is_finite x = true → is_finite y = true → e ≤ exponent x → e ≤ exponent y →
  dcompare x y = Some (Z.compare (at_exp e x) (at_exp e y)).
Proof.
  intros Hx Hy H1 H2.
  destruct x; try done; destruct y; try done; cbn [dcompare]; f_equal;
    by apply scaled_compare_at.
Qed.

Lemma dcompare_Lt x y : dlt x y = true ↔ dcompare x y = Some Lt.
Proof. unfold dlt. destruct (dcompare x y) as [[]|]; split; done. Qed.
Lemma dcompare_Le x y :
  dle x y = true ↔ dcompare x y = Some Lt ∨ dcompare x y = Some Eq.
Proof. unfold dle. destruct (dcompare x y) as [[]|]; naive_solver. Qed.

Lemma dle_finite e x y :
  is_finite x = true → is_finite y = true → e ≤ exponent x → e ≤ exponent y →
  dle x y = true ↔ at_exp e x ≤ at_exp e y.
Proof.
  intros. unfold dle. rewrite (dcompare_finite e) by done.
  destruct (Z.compare_spec (at_exp e x) (at_exp e y)); split; intros; try done; lia.
Qed.

Lemma dle_trans x y z : dle x y = true → dle y z = true → dle x z = true.
Proof.
  destruct (is_finite x) eqn:Hx, (is_finite y) eqn:Hy, (is_finite z) eqn:Hz.
  1: { set (e := Z.min (exponent x) (Z.min (exponent y) (exponent z))).
       rewrite !(dle_finite e) by (done || lia). lia. }
  all: destruct x as [|[]| |], y as [|[]| |], z as [|[]| |]; done.
Qed.

Lemma dle_refl x : is_nan x = false → dle x x = true.
Proof.
  destruct x as [s|[]| |s m e]; intros; try done;
    apply (dle_finite (exponent (S754_finite s m e))); simpl; done || lia.
Qed.

Lemma dle_total x y :
  is_nan x = false → is_nan y = false → dle x y = true ∨ dle y x = true.
Proof.
  intros Hx Hy. unfold dle. rewrite (dcompare_swap x y).
  destruct (dcompare x y) as [[]|] eqn:E; simpl; eauto.
  apply dcompare_nan in E. naive_solver congruence.
Qed.

Lemma dlt_not_dle x y : dlt x y = true → dle y x = false.
Proof.
  rewrite dcompare_Lt. intros H. unfold dle. rewrite (dcompare_swap x y), H. done.
Qed.

Lemma not_dle_dlt x y :
  is_nan x = false → is_nan y = false → dle x y = false → dlt y x = true.
Proof.
  intros Hx Hy. unfold dle, dlt. rewrite (dcompare_swap x y).
  destruct (dcompare x y) as [[]|] eqn:E; try done.
  apply dcompare_nan in E. naive_solver congruence.
Qed.

Lemma scaled_compare_opp m1 e1 m2 e2 :
  scaled_compare (- m1) e1 (- m2) e2 = scaled_compare m2 e2 m1 e1.
Proof.
  unfold scaled_compare. rewrite (Z.min_comm e2 e1), !Z.mul_opp_l.
  apply Z.compare_opp.
Qed.

Lemma dcompare_dopp x y : dcompare (dopp x) (dopp y) = dcompare y x.
Proof.
  destruct x as [s|s| |s m e], y as [s'|s'| |s' m' e']; try done;
    try (by destruct s); try (by destruct s'); try (by destruct s, s');
    cbn [dcompare dopp SFopp]; f_equal; rewrite <- scaled_compare_opp;
    cbn [significand exponent]; f_equal; destruct s, s'; done.
Qed.

Lemma dopp_involutive x : dopp (dopp x) = x.
Proof. destruct x; simpl; by rewrite ?negb_involutive. Qed.

(** ** The sign of a difference *)

Definition sign_is (s : bool) (x : double) : Prop :=
  match x with
  | S754_zero s' | S754_infinity s' | S754_finite s' _ _ => s' = s
  | S754_nan => True
  end.

Lemma round_aux_sign s m e l : sign_is s (binary_round_aux prec emax s m e l).
Proof.
  unfold binary_round_aux. destruct (shr_fexp _ _ _ _ _) as [mrs e'].
  destruct (shr_fexp _ _ _ _ _) as [mrs' e'']. destruct (shr_m mrs'); simpl; try done.
  by case_match.
Qed.

Lemma round_sign s m e : sign_is s (binary_round prec emax s m e).
Proof. unfold binary_round. destruct (shl_align _ _ _). apply round_aux_sign. Qed.

Lemma round_aux_opp s m e l :
  binary_round_aux prec emax (negb s) m e l = dopp (binary_round_aux prec emax s m e l).
Proof.
  unfold binary_round_aux. destruct (shr_fexp _ _ _ _ _) as [mrs e'].
  destruct (shr_fexp _ _ _ _ _) as [mrs' e'']. destruct (shr_m mrs'); simpl; try done.
  by case_match.
Qed.

Lemma round_opp s m e :
  binary_round prec emax (negb s) m e = dopp (binary_round prec emax s m e).
Proof. unfold binary_round. destruct (shl_align _ _ _). apply round_aux_opp. Qed.

(** Opposite up to the sign of a zero. *)
Definition opposite (x y : double) : Prop :=
  y = dopp x ∨ (∃ s s', x = S754_zero s ∧ y = S754_zero s').

Lemma normalize_opp m e s s' :
  opposite (binary_normalize prec emax m e s) (binary_normalize prec emax (- m) e s').
Proof.
  destruct m as [|p|p]; simpl; unfold opposite.
  - right; eauto.
  - left. apply (round_opp false).
  - left. apply (round_opp true).
Qed.

Lemma dsub_opposite x y : opposite (dsub x y) (dsub y x).
Proof.
  destruct x as [s|s| |s m e], y as [s'|s'| |s' m' e'];
    unfold dsub; cbn -[binary_normalize shl_align];
    try (by left); try (destruct s; by left); try (destruct s'; by left);
    try (destruct s, s'; unfold opposite; naive_solver).
  rewrite (Z.min_comm e' e).
    replace (cond_Zopp s' _ - cond_Zopp s _)
      with (- (cond_Zopp s (Zpos (fst (shl_align m e (Z.min e e')))) -
               cond_Zopp s' (Zpos (fst (shl_align m' e' (Z.min e e')))))) by lia.
    apply normalize_opp.
Qed.

Lemma fabs_dsub_comm x y : fabs (dsub x y) = fabs (dsub y x).
Proof.
  destruct (dsub_opposite x y) as [H|(s & s' & H1 & H2)].
  - rewrite H. by destruct (dsub x y).
  - by rewrite H1, H2.
Qed.

Lemma iter_xO m d : Zpos (Pos.iter xO m d) = Zpos m * 2 ^ Zpos d.
Proof.
  induction d as [|d IH] using Pos.peano_ind; [simpl; lia|].
  rewrite Pos.iter_succ, Pos2Z.inj_succ, Z.pow_succ_r by lia.
  rewrite Pos2Z.inj_xO, IH. lia.
Qed.

Lemma shl_align_val m e e' :
  e' ≤ e → Zpos (fst (shl_align m e e')) = Zpos m * 2 ^ (e - e').
Proof.
  intros H. unfold shl_align. destruct (e' - e) as [|p|p] eqn:E; simpl.
  - replace (e - e') with 0 by lia. lia.
  - lia.
  - rewrite iter_xO. do 2 f_equal. lia.
Qed.

Lemma at_exp_finite e s m e' :
  e ≤ e' → ∃ p, at_exp e (S754_finite s m e') = cond_opp s (Zpos p).
Proof.
  intros He. unfold at_exp. cbn [significand exponent].
  exists (m * Z.to_pos (2 ^ (e' - e)))%positive.
  rewrite Pos2Z.inj_mul, Z2Pos.id by (apply Z.pow_pos_nonneg; lia).
  destruct s; simpl; lia.
Qed.

(** A difference is never negative when the minuend is not below the subtrahend. *)
Definition nonneg (x : double) : bool :=
  match x with S754_infinity true | S754_finite true _ _ => false | _ => true end.

Lemma sign_nonneg x : sign_is false x → nonneg x = true.
Proof. destruct x; simpl; intros; subst; done. Qed.

Lemma dsub_nonneg x y : dle y x = true → nonneg (dsub x y) = true.
Proof.
  intros H. destruct (is_finite x) eqn:Hx, (is_finite y) eqn:Hy.
  2-4: destruct x as [[]|[]| |[]], y as [[]|[]| |[]]; done.
  set (ez := Z.min (exponent x) (exponent y)).
  apply (dle_finite ez) in H; [|done..|lia|lia].
  destruct x as [s|s| |s m e], y as [s'|s'| |s' m' e']; try done.
  - by destruct s, s'.
  - destruct (at_exp_finite ez s' m' e') as [p Hp]; [simpl in *; lia|].
    rewrite Hp in H. by destruct s'.
  - destruct (at_exp_finite ez s m e) as [p Hp]; [simpl in *; lia|].
    rewrite Hp in H. by destruct s.
  - unfold dsub. cbn -[binary_normalize shl_align].
    change (Z.min e e') with ez. rewrite !shl_align_val by (simpl in *; lia).
    unfold at_exp in H. cbn [significand exponent] in H.
    replace (cond_Zopp s (Z.pos m * 2 ^ (e - ez)))
      with (cond_opp s (Z.pos m) * 2 ^ (e - ez)) by (destruct s; simpl; lia).
    replace (cond_Zopp s' (Z.pos m' * 2 ^ (e' - ez)))
      with (cond_opp s' (Z.pos m') * 2 ^ (e' - ez)) by (destruct s'; simpl; lia).
    match goal with |- context [binary_normalize _ _ ?d _ _] =>
      destruct d as [|p|p] eqn:E; [done| |lia] end.
    apply sign_nonneg, round_sign.
Qed.

Lemma nonneg_not_dle x e m :
  nonneg x = true → dle x (S754_finite true m e) = false.
Proof.
  intros H. destruct x as [s|[]| |[] m' e']; try done.
  - unfold dle. rewrite (dcompare_finite (Z.min 0 e)) by (done || simpl; lia).
    destruct (at_exp_finite (Z.min 0 e) true m e) as [p ->]; [lia|done].
  - unfold dle. rewrite (dcompare_finite (Z.min e' e)) by (done || simpl; lia).
    destruct (at_exp_finite (Z.min e' e) true m e) as [p ->]; [lia|].
    destruct (at_exp_finite (Z.min e' e) false m' e') as [q ->]; [lia|done].
Qed.

(** ** Integers below 2^53 are exact *)

(** [x] is finite and its value is the integer [k]. *)
Definition is_int (x : double) (k : Z) : Prop :=
  is_finite x = true ∧
  scaled_compare (significand x) (exponent x) k 0 = Eq.

Lemma is_int_at x k e :
  is_int x k → e ≤ exponent x → e ≤ 0 → at_exp e x = k * 2 ^ (- e).
Proof.
  intros [_ H] ??. rewrite (scaled_compare_at e) in H by lia.
  apply Z.compare_eq_iff in H. unfold at_exp. rewrite H. f_equal. 
Qed.

Lemma is_int_compare x y a b :
  is_int x a → is_int y b → dcompare x y = Some (Z.compare a b).
Proof.
  intros Hx Hy. set (e := Z.min 0 (Z.min (exponent x) (exponent y))).
  rewrite (dcompare_finite e) by (apply Hx || apply Hy || lia).
  rewrite (is_int_at x a e), (is_int_at y b e) by (done || lia).
  f_equal. symmetry. apply Zmult_compare_compat_r.
  pose proof (Z.pow_pos_nonneg 2 (- e)). lia.
Qed.

Lemma is_int_dlt x y a b : is_int x a → is_int y b → dlt x y = (a <? b).
Proof.
  intros Hx Hy. unfold dlt. rewrite (is_int_compare x y a b) by done.
  unfold Z.ltb. by destruct (a ?= b).
Qed.

Lemma is_int_trunc x k : is_int x k → trunc x = Some k.
Proof.
  intros [Hf H]. destruct x as [s|s| |s m e]; try done; unfold scaled_compare in H;
    apply Z.compare_eq_iff in H; cbn -[Z.pow Z.mul Z.div Z.min] in *.
  - f_equal. nia.
  - f_equal. destruct (Z.leb_spec 0 e).
    + rewrite (Z.min_r e 0), !Z.sub_0_r in H by lia. destruct s; simpl in *; lia.
    + rewrite (Z.min_l e 0), Z.sub_diag, Z.sub_0_l in H by lia.
      pose proof (Z.pow_pos_nonneg 2 (- e)).
      destruct s; simpl cond_opp in *.
      * replace (Zpos m) with ((- k) * 2 ^ (- e)) by lia. rewrite Z.div_mul; lia.
      * replace (Zpos m) with (k * 2 ^ (- e)) by lia. rewrite Z.div_mul; lia.
Qed.

Lemma digits_bound p :
  2 ^ (Zpos (digits2_pos p) - 1) ≤ Zpos p < 2 ^ Zpos (digits2_pos p).
Proof.
  induction p as [p IH|p IH|]; simpl digits2_pos; [| |simpl; lia].
  all: rewrite Pos2Z.inj_succ; set (d := Zpos (digits2_pos p)) in *;
    replace (Z.succ d - 1) with (Z.succ (d - 1)) by lia;
    rewrite !Z.pow_succ_r by lia; lia.
Qed.

Lemma digits_unique p d :
  0 < d → 2 ^ (d - 1) ≤ Zpos p < 2 ^ d → Zpos (digits2_pos p) = d.
Proof.
  intros Hd [H1 H2]. destruct (digits_bound p) as [H3 H4].
  set (d' := Zpos (digits2_pos p)) in *.
  destruct (Z.lt_trichotomy d' d) as [?|[?|?]]; [|done|].
  - assert (2 ^ d' ≤ 2 ^ (d - 1)) by (apply Z.pow_le_mono_r; lia). lia.
  - assert (2 ^ d ≤ 2 ^ (d' - 1)) by (apply Z.pow_le_mono_r; lia). lia.
Qed.

Lemma digits_shift p q n :
  0 ≤ n → Zpos q = Zpos p * 2 ^ n → Zpos (digits2_pos q) = Zpos (digits2_pos p) + n.
Proof.
  intros Hn Hq. destruct (digits_bound p). apply digits_unique; [lia|].
  rewrite Hq.
  replace (Zpos (digits2_pos p) + n - 1) with (Zpos (digits2_pos p) - 1 + n) by lia.
  rewrite !Z.pow_add_r by lia. pose proof (Z.pow_pos_nonneg 2 n). nia.
Qed.

Lemma iter_shr_exact n m :
  SpecFloat.iter_pos shr_1 n (Build_shr_record (m * 2 ^ Zpos n) false false) =
  Build_shr_record m false false.
Proof.
  assert (∀ k, 0 ≤ k → ∀ m,
    shr_1 (Build_shr_record (m * 2 ^ Z.succ k) false false) =
    Build_shr_record (m * 2 ^ k) false false) as Hone.
  { intros k Hk m'. rewrite Z.pow_succ_r by lia.
    replace (m' * (2 * 2 ^ k)) with (2 * (m' * 2 ^ k)) by lia.
    by destruct (m' * 2 ^ k). }
  revert m. induction n as [n IH|n IH|]; intros m; cbn [SpecFloat.iter_pos].
  - replace (Zpos n~1) with (Z.succ (Zpos n + Zpos n)) by lia.
    rewrite Hone by lia. rewrite Z.pow_add_r, Z.mul_assoc by lia. by rewrite !IH.
  - replace (Zpos n~0) with (Zpos n + Zpos n) by lia.
    rewrite Z.pow_add_r, Z.mul_assoc by lia. by rewrite !IH.
  - change 1 with (Z.succ 0) at 1. rewrite Hone by lia. by rewrite Z.mul_1_r.
Qed.

(** Rounding [mz * 2^ez] when it is [m * 2^f] with [f] the exponent the format
    prescribes. *)
Lemma round_aux_exact s mz ez m f :
  ez ≤ f → f ≤ 971 → Zpos mz = Zpos m * 2 ^ (f - ez) →
  fexp prec emax (Zpos (digits2_pos m) + f) = f →
  binary_round_aux prec emax s (Zpos mz) ez loc_Exact = S754_finite s m f.
Proof.
  intros Hle Hf Hm Hfexp. unfold binary_round_aux, shr_fexp. simpl Zdigits2.
  rewrite (digits_shift m mz (f - ez)) by (done || lia).
  replace (Z.pos (digits2_pos m) + (f - ez) + ez)
    with (Z.pos (digits2_pos m) + f) by lia.
  rewrite Hfexp. 
  assert (shr (shr_record_of_loc (Zpos mz) loc_Exact) ez (f - ez) =
          (Build_shr_record (Zpos m) false false, f)) as ->.
  { simpl shr_record_of_loc. rewrite Hm. unfold shr.
    destruct (f - ez) as [|n|n] eqn:E.
    - rewrite Z.mul_1_r. f_equal. lia.
    - rewrite iter_shr_exact. f_equal. lia.
    - lia. }
  simpl loc_of_shr_record. simpl round_nearest_even. simpl Zdigits2.
  rewrite Hfexp, Z.sub_diag. cbn [shr shr_m shr_record_of_loc].
  by destruct (Z.leb_spec f (emax - prec)); [|lia].
Qed.

Lemma round_is_int s m e k :
  0 < k < 2 ^ prec → scaled_compare (Zpos m) e k 0 = Eq →
  is_int (binary_round prec emax s m e) (cond_opp s k).
Proof.
  intros Hk Hv. destruct k as [|p|p]; try lia.
  (* D is the number of digits of the integer, f the exponent of its format *)
  set (D := Zpos (digits2_pos p)).
  assert (1 ≤ D ≤ prec) as HD.
  { split; [unfold D; lia|]. destruct (digits_bound p) as [H1 _]. fold D in H1.
    destruct (Z_lt_le_dec prec D) as [Hgt|]; [|done].
    assert (2 ^ prec ≤ 2 ^ (D - 1)) by (apply Z.pow_le_mono_r; lia). lia. }
  assert (Zpos (digits2_pos m) + e = D) as Hdig.
  { unfold scaled_compare in Hv. apply Z.compare_eq_iff in Hv.
    destruct (Z_lt_le_dec e 0).
    - rewrite Z.min_l, Z.sub_diag, Z.mul_1_r in Hv by lia.
      rewrite (digits_shift p m (0 - e)) by lia. lia.
    - rewrite Z.min_r, Z.sub_diag, Z.mul_1_r in Hv by lia.
      rewrite Z.sub_0_r in Hv. unfold D. rewrite (digits_shift m p e) by lia. lia. }
  set (f := D - prec).
  assert (fexp prec emax D = f) as Hf by (unfold fexp, emin, f; lia).
  (* the significand of the result *)
  assert (∃ q, Zpos q = Zpos p * 2 ^ (- f)) as [q Hq].
  { exists (Z.to_pos (Zpos p * 2 ^ (- f))). rewrite Z2Pos.id; [done|].
    pose proof (Z.pow_pos_nonneg 2 (- f)). lia. }
  assert (Zpos (digits2_pos q) + f = D) as Hdq.
  { rewrite (digits_shift p q (- f)) by (lia || unfold f; lia). unfold D. lia. }
  assert (binary_round prec emax s m e = S754_finite s q f) as ->.
  { unfold binary_round. rewrite Hdig, Hf.
    destruct (shl_align m e f) as [mz ez] eqn:Hal.
    assert (ez ≤ f ∧ Zpos mz = Zpos q * 2 ^ (f - ez)) as [Hez Hmz].
    { rewrite (scaled_compare_at (Z.min e f)) in Hv by (unfold f; lia).
      apply Z.compare_eq_iff in Hv.
      destruct (Z_le_gt_dec e f).
      - assert (mz = m ∧ ez = e) as [-> ->].
        { unfold shl_align in Hal. destruct (f - e) eqn:?; try lia; naive_solver. }
        split; [done|]. rewrite Z.min_l, Z.sub_diag, Z.mul_1_r in Hv by lia.
        rewrite Hq, Hv, <- Z.mul_assoc, <- Z.pow_add_r by (unfold f; lia).
        do 2 f_equal. lia.
      - pose proof (shl_align_val m e f ltac:(lia)) as Hsv.
        assert (ez = f) as ->.
        { unfold shl_align in Hal. destruct (f - e) eqn:?; try lia; naive_solver. }
        rewrite Hal in Hsv. simpl in Hsv. split; [done|].
        rewrite Z.sub_diag, Z.mul_1_r, Hsv, Hq.
        rewrite Z.min_r in Hv by lia. rewrite Hv. f_equal. }
    apply round_aux_exact; try done; [unfold f; lia|]. by rewrite Hdq. }
  split; [done|]. rewrite (scaled_compare_at f) by (unfold f; simpl; lia).
  apply Z.compare_eq_iff. cbn [significand exponent].
  rewrite Z.sub_diag, Z.mul_1_r, Z.sub_0_l. destruct s; simpl cond_opp; lia.
Qed.

Lemma normalize_is_int m e sz k :
  - 2 ^ prec < k < 2 ^ prec → scaled_compare m e k 0 = Eq →
  is_int (binary_normalize prec emax m e sz) k.
Proof.
  intros Hk Hv. pose proof Hv as Hv'. unfold scaled_compare in Hv'.
  apply Z.compare_eq_iff in Hv'.
  assert (0 < 2 ^ (e - Z.min e 0) ∧ 0 < 2 ^ (0 - Z.min e 0)) as [Hp1 Hp2]
    by (split; apply Z.pow_pos_nonneg; lia).
  destruct m as [|p|p]; cbn [binary_normalize].
  - assert (k = 0) as -> by nia. split; [done|]. unfold scaled_compare. simpl. done.
  - apply (round_is_int false); [nia|done].
  - replace k with (cond_opp true (- k)) by (simpl; lia).
    apply round_is_int; [nia|]. unfold scaled_compare.
    apply Z.compare_eq_iff. simpl in *. lia.
Qed.

Lemma of_Z_is_int z : - 2 ^ prec < z < 2 ^ prec → is_int (of_Z z) z.
Proof.
  intros. apply normalize_is_int; [done|]. unfold scaled_compare.
  by apply Z.compare_eq_iff.
Qed.

Lemma dadd_is_int x y a b :
  is_int x a → is_int y b → - 2 ^ prec < a + b < 2 ^ prec →
  is_int (dadd x y) (a + b).
Proof.
  intros Hx Hy Hab. pose proof Hx as [Hfx Hvx]. pose proof Hy as [Hfy Hvy].
  destruct x as [s|s| |s m e]; try done; destruct y as [s'|s'| |s' m' e']; try done.
  - apply is_int_trunc in Hx as [= <-]. apply is_int_trunc in Hy as [= <-].
    destruct s, s'; split; done.
  - apply is_int_trunc in Hx as [= <-]. by rewrite Z.add_0_l.
  - apply is_int_trunc in Hy as [= <-]. by rewrite Z.add_0_r.
  - unfold dadd, SFadd. apply normalize_is_int; [done|].
    set (ez := Z.min e e'). rewrite !shl_align_val by lia.
    set (el := Z.min 0 ez).
    pose proof (is_int_at _ _ el Hx ltac:(simpl; lia) ltac:(lia)) as Ha.
    pose proof (is_int_at _ _ el Hy ltac:(simpl; lia) ltac:(lia)) as Hb.
    unfold at_exp in *. cbn [significand exponent] in *.
    rewrite (scaled_compare_at el) by lia. apply Z.compare_eq_iff.
    rewrite Z.sub_0_l, !Z.mul_add_distr_r, <- Ha, <- Hb.
    replace (e - el) with (e - ez + (ez - el)) by lia.
    replace (e' - el) with (e' - ez + (ez - el)) by lia.
    rewrite !Z.pow_add_r by lia. destruct s, s'; simpl; lia.
Qed.

#[global] Arguments dadd : simpl never.
#[global] Arguments dsub : simpl never.
#[global] Arguments dmul : simpl never.
#[global] Arguments ddiv : simpl never.
#[global] Arguments dsqrt : simpl never.
#[global] Arguments sqr : simpl never.
#[global] Arguments of_Z : simpl never.
#[global] Arguments lit : simpl never.
#[global] Arguments dlt : simpl never.
#[global] Arguments dle : simpl never.
#[global] Arguments dgt : simpl never.
#[global] Arguments dge : simpl never.
#[global] Arguments deq : simpl never.
#[global] Arguments to_int : simpl never.
#[global] Arguments to_long : simpl never.
#[global] Arguments to_size_t : simpl never.
