(* ===== verification/Libm.v ===== *)
(** * The C mathematics library and notation for [double] arithmetic

    The elementary functions of [<math.h>] are not fixed by the language, so they
    are the operations of a class; the code that calls them is stated over any
    instance.  The functions with an exact result ([floor], [ceil], [fmod]) are
    defined. *)
From Stdlib Require Import SpecFloat.
From S2P Require Import Prelude Double.

Class Libm := {
  m_sin : double → double;
  m_cos : double → double;
  m_tan : double → double;
  m_atan : double → double;
  m_atan2 : double → double → double;
  m_exp : double → double;
  m_log : double → double;
  m_pow : double → double → double;
}.

(** Powers with a natural exponent, by multiplication. *)
Fixpoint power (x : double) (n : nat) : double :=
  match n with O => of_Z 1 | S n' => dmul x (power x n') end.

(** Instances to evaluate definitions with: the constant [0], and the values
    near [0] to first order, without the linear terms. *)
Definition Libm_zero : Libm := {|
  m_sin := λ _, of_Z 0; m_cos := λ _, of_Z 0; m_tan := λ _, of_Z 0; m_atan := λ _, of_Z 0;
  m_atan2 := λ _ _, of_Z 0; m_exp := λ _, of_Z 0; m_log := λ _, of_Z 0; m_pow := λ _ _, of_Z 0 |}.

Definition Libm_flat : Libm := {|
  m_sin := λ _, of_Z 0; m_cos := λ _, of_Z 1; m_tan := λ _, of_Z 0; m_atan := λ _, of_Z 0;
  m_atan2 := λ _ _, of_Z 0; m_exp := λ _, of_Z 1; m_log := λ _, of_Z 0;
  m_pow := λ x y, match trunc y with Some n => power x (Z.to_nat n) | None => of_Z 0 end |}.

(** ** Notation *)

Declare Scope double_scope.
Delimit Scope double_scope with D.
Infix "+" := dadd : double_scope.
Infix "-" := dsub : double_scope.
Infix "*" := dmul : double_scope.
Infix "/" := ddiv : double_scope.
Notation "- x" := (dopp x) : double_scope.
Infix "<?" := dlt : double_scope.
Infix ">?" := dgt : double_scope.
Infix "<=?" := dle : double_scope.
Infix ">=?" := dge : double_scope.
(** The value of an integer constant. *)
Notation "# n" := (of_Z n) (at level 1, n at level 0, format "# n") : double_scope.

(** ** Functions with an exact result *)

(** [x] as a quotient of integers. *)
Definition as_ratio (x : double) : option (Z * Z) :=
  match x with
  | S754_zero _ => Some (0, 1)%Z
  | S754_finite s m e =>
      Some (if (0 <=? e)%Z then (cond_opp s (Zpos m * 2 ^ e), 1)%Z
            else (cond_opp s (Zpos m), 2 ^ (- e))%Z)
  | _ => None
  end.

Definition m_floor (x : double) : double :=
  match x with
  | S754_finite s _ _ =>
      match as_ratio x with
      | Some (n, d) => binary_normalize prec emax (n / d) 0 s
      | None => x
      end
  | _ => x
  end.

Definition m_ceil (x : double) : double := dopp (m_floor (dopp x)).

(** [fmod(x, y)]: the remainder of the division truncated towards zero, with the
    sign of [x]; exact. *)
Definition m_fmod (x y : double) : double :=
  match x, y with
  | S754_nan, _ | _, S754_nan | S754_infinity _, _ | _, S754_zero _ => S754_nan
  | _, S754_infinity _ => x
  | S754_zero _, _ => x
  | S754_finite sx mx ex, S754_finite sy my ey =>
      let e := Z.min ex ey in
      let r := Z.rem (cond_opp sx (Zpos mx) * 2 ^ (ex - e))%Z (Zpos my * 2 ^ (ey - e))%Z in
      binary_normalize prec emax r e sx
  end.
