(* ===== verification/Rounding.v ===== *)
(** * Rounding to nearest, seen through enclosures

    Every operation of [double] returns the rounding of the exact rational result.  The
    lemmas state the rounding by what a client needs: a bound that is itself
    representable (at most 53 bits, exponent at least -1074) holds for the rounded
    result when it holds for the exact one.  So an exact result that is representable
    is returned, and the result of a chain of operations can be bounded step by step. *)
From Stdlib Require Import Qround SpecFloat QArith Qpower Qabs Lqa.
From S2P Require Import Prelude Double.

Local Open Scope Q_scope.

(** ** Powers of two *)

Definition pw (e : Z) : Q := Qpower 2 e.

Lemma pw_pos e : 0 < pw e.
Proof. apply Qpower_0_lt. reflexivity. Qed.

Lemma pw_add a b : pw (a + b) == pw a * pw b.
Proof. apply Qpower_plus. discriminate. Qed.

Lemma pw_Z n : (0 <= n)%Z → pw n == inject_Z (2 ^ n).
Proof.
  intros Hn. unfold pw. rewrite Zpower_Qpower by done. reflexivity.
Qed.

Lemma pw_shift k q e : (e <= q)%Z → inject_Z k * pw q == inject_Z (k * 2 ^ (q - e)) * pw e.
Proof.
  intros H. rewrite inject_Z_mult, <- pw_Z by lia.
  replace q with ((q - e) + e)%Z at 1 by lia. rewrite pw_add. ring.
Qed.

Lemma scaled_le a b e : inject_Z a * pw e <= inject_Z b * pw e ↔ (a <= b)%Z.
Proof.
  rewrite Zle_Qle. pose proof (pw_pos e). split; intros H1.
  - by apply (Qmult_le_r _ _ _ H).
  - by apply Qmult_le_compat_r; [|apply Qlt_le_weak].
Qed.

Lemma scaled_lt a b e : inject_Z a * pw e < inject_Z b * pw e ↔ (a < b)%Z.
Proof.
  rewrite Zlt_Qlt. pose proof (pw_pos e). split; intros H1.
  - by apply (Qmult_lt_r _ _ _ H).
  - by apply Qmult_lt_compat_r.
Qed.

Lemma pw_le a b : (a <= b)%Z → pw a <= pw b.
Proof.
  intros H. rewrite <- (Qmult_1_l (pw a)), <- (Qmult_1_l (pw b)).
  change 1 with (inject_Z 1). rewrite (pw_shift 1 b a H), scaled_le.
  pose proof (Z.pow_pos_nonneg 2 (b - a)). lia.
Qed.

(** ** The value of a double *)

Definition val (x : double) : Q := inject_Z (significand x) * pw (exponent x).

Lemma val_at e x : (e <= exponent x)%Z → val x == inject_Z (at_exp e x) * pw e.
Proof. intros H. unfold val, at_exp. by apply pw_shift. Qed.

Lemma dcompare_val x y :
  is_finite x = true → is_finite y = true → dcompare x y = Some (val x ?= val y).
Proof.
  intros Hx Hy. set (e := Z.min (exponent x) (exponent y)).
  rewrite (dcompare_finite e) by (done || lia). f_equal.
  rewrite (val_at e x), (val_at e y) by lia.
  destruct (Z.compare_spec (at_exp e x) (at_exp e y)) as [->|H|H]; symmetry.
  - by apply Qeq_alt.
  - apply Qlt_alt. by apply scaled_lt.
  - apply Qgt_alt. by apply scaled_lt.
Qed.

Lemma dle_val x y :
  is_finite x = true → is_finite y = true → dle x y = true ↔ val x <= val y.
Proof.
  intros Hx Hy. unfold dle. rewrite (dcompare_val x y Hx Hy), Qle_alt.
  destruct (val x ?= val y); split; congruence.
Qed.

Lemma dlt_val x y :
  is_finite x = true → is_finite y = true → dlt x y = true ↔ val x < val y.
Proof.
  intros Hx Hy. unfold dlt. rewrite (dcompare_val x y Hx Hy), Qlt_alt.
  destruct (val x ?= val y); split; congruence.
Qed.

Lemma is_int_val x k : is_int x k ↔ is_finite x = true ∧ val x == inject_Z k.
Proof.
  unfold is_int. split; intros [Hf H]; (split; [done|]).
  - unfold scaled_compare in H. apply Z.compare_eq_iff in H. rewrite Z.sub_0_l in H.
    set (e := Z.min (exponent x) 0) in *. rewrite (val_at e) by lia. unfold at_exp. rewrite H.
    rewrite inject_Z_mult, <- pw_Z by lia. rewrite <- Qmult_assoc, <- pw_add.
    replace (- e + e)%Z with 0%Z by lia. change (pw 0) with 1. ring.
  - unfold scaled_compare. apply Z.compare_eq_iff. set (e := Z.min (exponent x) 0) in *.
    rewrite (val_at e) in H by lia. unfold at_exp in H.
    assert (inject_Z k == inject_Z (k * 2 ^ (0 - e)) * pw e) as Hk.
    { rewrite <- (pw_shift k 0 e) by lia. change (pw 0) with 1. ring. }
    rewrite Hk in H. apply Z.le_antisymm; apply (scaled_le _ _ e); rewrite H; apply Qle_refl.
Qed.

(** ** Shifting right keeps the value between two neighbours of the grid *)

Definition inexact (mrs : shr_record) : bool := shr_r mrs || shr_s mrs.

(** [r] lies in [m, m + 1) * 2^e, above [m * 2^e] exactly when a bit was lost. *)
Definition approx (mrs : shr_record) (e : Z) (r : Q) : Prop :=
  (0 <= shr_m mrs)%Z ∧
  r < inject_Z (shr_m mrs + 1) * pw e ∧
  if inexact mrs then inject_Z (shr_m mrs) * pw e < r else r == inject_Z (shr_m mrs) * pw e.

Lemma approx_le mrs e r : approx mrs e r → inject_Z (shr_m mrs) * pw e <= r.
Proof.
  intros (_ & _ & H). destruct (inexact mrs); [by apply Qlt_le_weak|].
  rewrite H. apply Qle_refl.
Qed.

Lemma shr_1_halves m b s : (0 <= m)%Z →
  shr_1 (Build_shr_record m b s) = Build_shr_record (m / 2) (Z.odd m) (b || s).
Proof.
  intros Hm. destruct m as [|[p|p|]|p]; try done; cbn [shr_1 Z.odd]; f_equal.
  - symmetry. rewrite Pos2Z.inj_xI, Z.mul_comm, Z.div_add_l by lia. by rewrite Z.add_0_r.
  - symmetry. rewrite Pos2Z.inj_xO, Z.mul_comm, Z.div_mul by lia. done.
Qed.

Lemma shr_1_approx mrs e r :
  approx mrs e r → approx (shr_1 mrs) (e + 1) r ∧ shr_m (shr_1 mrs) = (shr_m mrs / 2)%Z.
Proof.
  destruct mrs as [m b s]. intros (Hm & Hlt & H). cbn [shr_m] in *.
  rewrite shr_1_halves by done. cbn [shr_m]. split; [|done].
  pose proof (Z.div_mod m 2 ltac:(lia)) as E. pose proof (Z.mod_pos_bound m 2 ltac:(lia)) as Hb.
  rewrite Zmod_odd in E. unfold approx, inexact in *. cbn [shr_m shr_r shr_s] in *.
  assert (∀ k, inject_Z k * pw (e + 1) == inject_Z (2 * k) * pw e) as Hsh.
  { intros k. rewrite (pw_shift k (e + 1) e) by lia.
    replace (e + 1 - e)%Z with 1%Z by lia. rewrite (Z.mul_comm k). reflexivity. }
  split; [apply Z.div_pos; lia|]. rewrite !Hsh. split.
  - eapply Qlt_le_trans; [exact Hlt|]. apply scaled_le. destruct (Z.odd m); lia.
  - destruct (Z.odd m); cbn [orb].
    + rewrite Hsh. apply (Qlt_le_trans _ (inject_Z m * pw e)); [apply scaled_lt; lia|].
      destruct (b || s); [by apply Qlt_le_weak|]. rewrite H. apply Qle_refl.
    + destruct (b || s); rewrite Hsh; by replace (2 * (m / 2))%Z with m by lia.
Qed.

Lemma shr_iter_approx p : ∀ mrs e r,
  approx mrs e r →
  approx (SpecFloat.iter_pos shr_1 p mrs) (e + Zpos p) r ∧
  shr_m (SpecFloat.iter_pos shr_1 p mrs) = (shr_m mrs / 2 ^ Zpos p)%Z.
Proof.
  induction p as [p IH|p IH|]; intros mrs e r H; cbn [SpecFloat.iter_pos].
  - destruct (shr_1_approx _ _ _ H) as [H1 E1]. destruct (IH _ _ _ H1) as [H2 E2].
    destruct (IH _ _ _ H2) as [H3 E3].
    replace (e + Zpos p~1)%Z with (e + 1 + Zpos p + Zpos p)%Z by lia. split; [done|].
    rewrite E3, E2, E1, !Z.div_div by (try apply Z.pow_nonzero; try apply Z.pow_pos_nonneg; lia).
    f_equal. replace (Zpos p~1) with (1 + Zpos p + Zpos p)%Z by lia.
    rewrite !Z.pow_add_r by lia. ring.
  - destruct (IH _ _ _ H) as [H2 E2]. destruct (IH _ _ _ H2) as [H3 E3].
    replace (e + Zpos p~0)%Z with (e + Zpos p + Zpos p)%Z by lia. split; [done|].
    rewrite E3, E2, !Z.div_div by (try apply Z.pow_nonzero; try apply Z.pow_pos_nonneg; lia).
    f_equal. replace (Zpos p~0) with (Zpos p + Zpos p)%Z by lia. by rewrite !Z.pow_add_r by lia.
  - by apply shr_1_approx.
Qed.

Lemma shr_approx mrs e n r :
  approx mrs e r →
  let '(mrs', e') := shr mrs e n in
  approx mrs' e' r ∧ e' = Z.max e (e + n) ∧ shr_m mrs' = (shr_m mrs / 2 ^ (e' - e))%Z.
Proof.
  intros H. assert (approx mrs e r ∧ e = Z.max e e ∧ shr_m mrs = (shr_m mrs / 2 ^ (e - e))%Z).
  { rewrite Z.sub_diag, Z.pow_0_r, Z.div_1_r. split_and!; [done|lia|done]. }
  destruct n as [|p|p]; cbn [shr].
  - by rewrite Z.add_0_r.
  - destruct (shr_iter_approx p mrs e r H) as [H1 E1].
    split_and!; [done|lia|]. by replace (e + Zpos p - e)%Z with (Zpos p) by lia.
  - split_and!; [done|lia|]. apply H0.
Qed.

(** ** Rounding a number to the grid *)

(** [v] respects every representable bound of [r]. *)
Definition nearest (r v : Q) : Prop :=
  ∀ k q, (Z.abs k <= 2 ^ 53)%Z → (-1074 <= q)%Z →
    (inject_Z k * pw q <= r → inject_Z k * pw q <= v) ∧
    (r <= inject_Z k * pw q → v <= inject_Z k * pw q).

(** The grid of exponent [e] has all representable numbers from [m * 2^e] on. *)
Definition grid_ok (m e : Z) : Prop := (e = -1074 ∨ -1074 <= e ∧ 2 ^ 52 <= m)%Z.

Lemma below_grid k q m e :
  grid_ok m e → (k <= 2 ^ 53)%Z → (-1074 <= q < e)%Z →
  inject_Z k * pw q <= inject_Z m * pw e.
Proof.
  intros [->|[He Hm]] Hk Hq; [lia|]. rewrite (pw_shift m e q) by lia. apply scaled_le.
  assert (2 ^ 1 <= 2 ^ (e - q))%Z by (apply Z.pow_le_mono_r; lia).
  change (2 ^ 53)%Z with (2 ^ 52 * 2 ^ 1)%Z in Hk. nia.
Qed.

Lemma grid_nearest mrs e r m' :
  approx mrs e r → grid_ok (shr_m mrs) e →
  (m' = shr_m mrs ∨ inexact mrs = true ∧ m' = shr_m mrs + 1)%Z →
  nearest r (inject_Z m' * pw e).
Proof.
  intros Ha Hg Hm' k q Hk Hq. pose proof (approx_le _ _ _ Ha) as Hle.
  destruct Ha as (Hm & Hlt & Hex). set (m := shr_m mrs) in *.
  assert (inject_Z m * pw e <= inject_Z m' * pw e) as Hv
    by (apply scaled_le; destruct Hm' as [->|[_ ->]]; lia).
  destruct (Z.le_gt_cases e q) as [Heq|Heq].
  - rewrite (pw_shift k q e) by done. set (j := (k * 2 ^ (q - e))%Z). split; intros Hr.
    + apply (Qle_trans _ (inject_Z m * pw e)); [|done]. apply scaled_le.
      assert (j < m + 1)%Z; [|lia]. apply (scaled_lt _ _ e). exact (Qle_lt_trans _ _ _ Hr Hlt).
    + apply scaled_le. destruct Hm' as [->|[Hi ->]].
      * apply (scaled_le _ _ e). exact (Qle_trans _ _ _ Hle Hr).
      * rewrite Hi in Hex. assert (m < j)%Z; [|lia]. apply (scaled_lt _ _ e).
        exact (Qlt_le_trans _ _ _ Hex Hr).
  - pose proof (below_grid k q m e Hg ltac:(lia) ltac:(lia)) as Hb. split; intros Hr.
    + exact (Qle_trans _ _ _ Hb Hv).
    + destruct Hm' as [->|[Hi ->]].
      * exact (Qle_trans _ _ _ Hle Hr).
      * rewrite Hi in Hex. exfalso. apply (Qlt_irrefl r).
        exact (Qle_lt_trans _ _ _ (Qle_trans _ _ _ Hr Hb) Hex).
Qed.

Lemma digits_pos_bound m : (0 < m)%Z → (2 ^ (Zdigits2 m - 1) <= m < 2 ^ Zdigits2 m)%Z.
Proof. destruct m as [|p|p]; [lia| |lia]. intros _. apply digits_bound. Qed.

Lemma fexp_max x : fexp prec emax x = Z.max (x - 53) (-1074).
Proof. reflexivity. Qed.

(** After the first shift the grid is that of the format. *)
Lemma shr_fexp_grid m e l r :
  approx (shr_record_of_loc m l) e r → (e <= fexp prec emax (Zdigits2 m + e))%Z →
  let '(mrs, e') := shr_fexp prec emax m e l in
  approx mrs e' r ∧ grid_ok (shr_m mrs) e' ∧ (shr_m mrs < 2 ^ 53)%Z.
Proof.
  intros Ha He. unfold shr_fexp.
  pose proof (shr_approx _ _ (fexp prec emax (Zdigits2 m + e) - e) _ Ha) as H.
  destruct (shr _ _ _) as [mrs e']. destruct H as (H1 & H2 & H3).
  assert (shr_m (shr_record_of_loc m l) = m) as Em by (by destruct l as [|[]]).
  rewrite Em in H3. rewrite Z.add_sub_assoc, Z.add_simpl_l in H2.
  rewrite Z.max_r in H2 by done. rewrite fexp_max in *.
  destruct Ha as (Hm & _ & _). rewrite Em in Hm.
  destruct (Z.eq_dec m 0%Z) as [->|Hnz].
  { cbn [Zdigits2] in *. rewrite Z.div_0_l in H3 by (apply Z.pow_nonzero; lia).
    rewrite H3. split_and!; [done|left; lia|lia]. }
  pose proof (digits_pos_bound m ltac:(lia)) as [D1 D2]. set (d := Zdigits2 m) in *.
  assert (0 < d)%Z by (destruct (Z.le_gt_cases d 0%Z); [|lia];
    assert (2 ^ d <= 2 ^ 0)%Z by (apply Z.pow_le_mono_r; lia); lia).
  assert (0 < 2 ^ (e' - e))%Z by (apply Z.pow_pos_nonneg; lia).
  split_and!; [done| |].
  - destruct (Z.le_gt_cases (d + e - 53)%Z (-1074)%Z); [left; lia|right]. split; [lia|].
    rewrite H3. apply Z.div_le_lower_bound; [lia|]. rewrite <- Z.pow_add_r by lia.
    etransitivity; [|exact D1]. apply Z.pow_le_mono_r; lia.
  - rewrite H3. apply Z.div_lt_upper_bound; [lia|]. rewrite <- Z.pow_add_r by lia.
    eapply Z.lt_le_trans; [exact D2|]. apply Z.pow_le_mono_r; lia.
Qed.

(** The second shift of [binary_round_aux] only moves a carry. *)
Lemma shr_fexp_carry m e :
  (0 <= m <= 2 ^ 53)%Z → (-1074 <= e)%Z →
  let '(mrs, e') := shr_fexp prec emax m e loc_Exact in
  (0 <= shr_m mrs)%Z ∧ inject_Z (shr_m mrs) * pw e' == inject_Z m * pw e ∧
  (e' <= e ∨ shr_m mrs = 2 ^ 52)%Z ∧ (e <= e')%Z.
Proof.
  intros Hm He. unfold shr_fexp. set (n := (fexp prec emax (Zdigits2 m + e) - e)%Z).
  assert (n <= 0 ∨ m = 2 ^ 53 ∧ n = 1)%Z as [Hn|[-> Hn]].
  { unfold n. rewrite fexp_max. destruct (Z.eq_dec m (2 ^ 53)%Z) as [->|Hne].
    - right. split; [done|]. change (Zdigits2 (2 ^ 53)) with 54%Z. lia.
    - left. destruct (Z.eq_dec m 0%Z) as [->|]; [simpl; lia|].
      destruct (digits_pos_bound m ltac:(lia)) as [D _].
      assert (Zdigits2 m - 1 < 53)%Z; [|lia]. apply (Z.pow_lt_mono_r_iff 2); lia. }
  - unfold shr. destruct n as [|p|p]; [|lia|]; cbn [shr_record_of_loc shr_m];
      (split_and!; [lia|reflexivity|left; lia|lia]).
  - rewrite Hn. cbn [shr]. replace (shr_m _) with (2 ^ 52)%Z by reflexivity.
    split_and!; [done| |by right|lia].
    rewrite (pw_shift (2 ^ 52) (e + 1) e) by lia. replace (e + 1 - e)%Z with 1%Z by lia. reflexivity.
Qed.

Definition signed (s : bool) (r : Q) : Q := if s then - r else r.

#[global] Instance signed_proper s : Proper (Qeq ==> Qeq) (signed s).
Proof. intros r r' H. destruct s; cbn [signed]; [by rewrite H|done]. Qed.

(** The outcome of rounding: finite at [v], or an infinity when [v] is too large. *)
Definition outcome (R : double) (v : Q) : Prop :=
  is_finite R = true ∧ val R == v ∨
  (∃ s, R = S754_infinity s ∧ pw 1023 < signed s v).

Lemma round_aux_outcome s m e l r :
  approx (shr_record_of_loc m l) e r →
  (e <= fexp prec emax (Zdigits2 m + e) ∨ l = loc_Exact ∧ e <= 971)%Z →
  ∃ v, nearest r v ∧ outcome (binary_round_aux prec emax s m e l) (signed s v).
Proof.
  intros Ha He. unfold binary_round_aux.
  assert (let '(mrs, e') := shr_fexp prec emax m e l in
    approx mrs e' r ∧ (-1074 <= e')%Z ∧ (971 < e' → 2 ^ 52 <= shr_m mrs)%Z ∧
    (∀ m', (m' = shr_m mrs ∨ inexact mrs = true ∧ m' = shr_m mrs + 1)%Z →
      nearest r (inject_Z m' * pw e') ∧ (m' <= 2 ^ 53)%Z)) as H.
  { destruct (Z.le_gt_cases e (fexp prec emax (Zdigits2 m + e))) as [Hle|Hgt].
    - pose proof (shr_fexp_grid m e l r Ha Hle) as H. destruct (shr_fexp _ _ _ _ _) as [mrs e'].
      destruct H as (H1 & Hg & Hb). split_and!; [done|destruct Hg; lia|destruct Hg; lia|].
      intros m' Hm'. split; [by eapply grid_nearest|lia].
    - destruct He as [He|[-> He]]; [lia|]. unfold shr_fexp, shr.
      destruct (fexp prec emax (Zdigits2 m + e) - e)%Z eqn:E; [lia|lia|].
      rewrite fexp_max in *. destruct Ha as (Hm & Hlt & Hex). cbn in Hm, Hex.
      split_and!; [done|lia|lia|]. cbn [shr_record_of_loc shr_m]. intros m' [->|[[=] _]].
      split; [intros k q _ _; rewrite Hex; done|].
      destruct (Z.eq_dec m 0%Z) as [->|]; [lia|].
      destruct (digits_pos_bound m ltac:(lia)) as [_ D]. apply Z.lt_le_incl.
      eapply Z.lt_le_trans; [exact D|]. apply Z.pow_le_mono_r; lia. }
  destruct (shr_fexp _ _ _ _ _) as [mrs e']. destruct H as (H1 & He' & Hbig & Hv).
  set (m' := round_nearest_even _ _).
  assert (m' = shr_m mrs ∨ inexact mrs = true ∧ m' = shr_m mrs + 1)%Z as Hm'.
  { unfold m'. destruct mrs as [m1 [] []]; cbn; [by right| |by left|by left].
    destruct (Z.even m1); [by left|by right]. }
  destruct (Hv m' Hm') as [Hn Hb]. exists (inject_Z m' * pw e'). split; [done|].
  destruct H1 as (Hpos & _).
  pose proof (shr_fexp_carry m' e' ltac:(lia) He') as H2.
  destruct (shr_fexp _ _ m' e' _) as [mrs2 e2]. destruct H2 as (H2 & Hval & Hc & Hee).
  destruct (shr_m mrs2) as [|p|p] eqn:E2; [| |lia].
  - left. split; [done|]. transitivity (signed s 0); [by destruct s|].
    assert (inject_Z m' * pw e' == 0) as Hz by (rewrite <- Hval; apply Qmult_0_l).
    destruct s; cbn [signed]; by rewrite Hz.
  - assert (val (S754_finite s p e2) == signed s (inject_Z m' * pw e')) as Hv'.
    { unfold val. cbn [significand exponent]. destruct s; cbn [cond_opp signed]; rewrite <- Hval; [|done].
      rewrite inject_Z_opp. ring. }
    destruct (Z.leb_spec e2 (emax - prec)) as [Hfin|Hinf]; [by left|right]. exists s.
    split; [done|]. apply (Qlt_le_trans _ (inject_Z (2 ^ 52) * pw e2)).
    + rewrite (pw_shift _ e2 971) by lia. rewrite <- (Qmult_1_l (pw 1023)).
      rewrite (pw_shift 1 1023 971) by lia. apply scaled_lt.
      assert (2 ^ 1 <= 2 ^ (e2 - 971))%Z by (apply Z.pow_le_mono_r; lia). lia.
    + assert (signed s (signed s (inject_Z m' * pw e')) == inject_Z m' * pw e') as ->
        by (destruct s; cbn [signed]; ring).
      rewrite <- Hval. apply scaled_le. destruct Hc as [Hc|Hc]; [|lia].
      assert (e2 = e') by lia. subst e2.
      apply (scaled_le _ _ e'). rewrite Hval. apply scaled_le. lia.
Qed.

(** ** The operations *)

(** [R] is the rounding of the exact result [r]. *)
Definition rounds (r : Q) (R : double) : Prop := ∃ v, nearest r v ∧ outcome R v.

#[global] Instance nearest_proper : Proper (Qeq ==> Qeq ==> iff) nearest.
Proof.
  intros r r' Hr v v' Hv. unfold nearest.
  split; intros H k q Hk Hq; [rewrite <- Hr, <- Hv|rewrite Hr, Hv]; by apply H.
Qed.

#[global] Instance rounds_proper : Proper (Qeq ==> eq ==> iff) rounds.
Proof.
  intros r r' Hr R ? <-. unfold rounds.
  split; intros (v & Hn & Ho); exists v; (split; [|done]); [by rewrite <- Hr|by rewrite Hr].
Qed.

Lemma nearest_opp r v : nearest r v → nearest (- r) (- v).
Proof.
  intros H k q Hk Hq. destruct (H (- k)%Z q) as [H1 H2]; [lia|done|].
  rewrite inject_Z_opp in H1, H2.
  assert (- inject_Z k * pw q == - (inject_Z k * pw q)) as E by ring. rewrite E in H1, H2.
  split; intros Hr; [|]; lra.
Qed.

Lemma rounds_opp r R : rounds r R → rounds (- r) (dopp R).
Proof.
  intros (v & Hn & Ho). exists (- v). split; [by apply nearest_opp|].
  destruct Ho as [[Hf Hv]|(s & -> & Hs)]; [left|right].
  - split; [by destruct R|]. destruct R as [| | |s m e]; try done; rewrite <- Hv; [reflexivity|].
    unfold val. cbn [dopp SFopp significand exponent].
    destruct s; cbn [negb cond_opp]; rewrite ?inject_Z_opp; ring.
  - exists (negb s). split; [done|]. destruct s; cbn [signed negb] in *; [|]; lra.
Qed.

Lemma nearest_signed s r v : nearest r v → nearest (signed s r) (signed s v).
Proof. destruct s; [apply nearest_opp|done]. Qed.

Lemma rounds_self x : is_finite x = true → rounds (val x) x.
Proof. intros H. exists (val x). split; [by intros k q _ _|by left]. Qed.

Lemma approx_exact m e : (0 <= m)%Z → approx (shr_record_of_loc m loc_Exact) e (inject_Z m * pw e).
Proof.
  intros Hm. unfold approx. cbn. split_and!; [done|apply scaled_lt; lia|reflexivity].
Qed.

Lemma cond_opp_val s m e :
  inject_Z (cond_opp s m) * pw e == signed s (inject_Z m * pw e).
Proof. destruct s; cbn [cond_opp signed]; [rewrite inject_Z_opp|]; ring. Qed.

Lemma round_rounds s m e :
  rounds (inject_Z (cond_opp s (Zpos m)) * pw e) (binary_round prec emax s m e).
Proof.
  unfold binary_round. set (f := fexp prec emax (Zpos (digits2_pos m) + e)).
  assert (∃ mz ez, shl_align m e f = (mz, ez) ∧ (ez <= f)%Z ∧ (ez <= e)%Z ∧
    Zpos mz = (Zpos m * 2 ^ (e - ez))%Z) as (mz & ez & -> & Hf & He & Hm).
  { unfold shl_align. destruct (f - e)%Z as [|p|p] eqn:E; do 2 eexists; split; try done.
    - rewrite Z.sub_diag. split_and!; lia.
    - rewrite Z.sub_diag. split_and!; lia.
    - split_and!; [lia|lia|]. rewrite iter_xO. do 2 f_equal. lia. }
  destruct (round_aux_outcome s (Zpos mz) ez loc_Exact (inject_Z (Zpos mz) * pw ez)) as (v & Hn & Ho).
  - apply approx_exact. lia.
  - left. cbn [Zdigits2]. rewrite (digits_shift m mz (e - ez)) by (done || lia).
    replace (Zpos (digits2_pos m) + (e - ez) + ez)%Z with (Zpos (digits2_pos m) + e)%Z by lia. done.
  - exists (signed s v). split; [|done]. rewrite cond_opp_val, (pw_shift _ e ez), <- Hm by done.
    by apply nearest_signed.
Qed.

Lemma normalize_rounds m e s :
  rounds (inject_Z m * pw e) (binary_normalize prec emax m e s).
Proof.
  destruct m as [|p|p]; cbn [binary_normalize].
  - exists 0. split; [|by left]. intros k q _ _. by rewrite Qmult_0_l.
  - exact (round_rounds false p e).
  - exact (round_rounds true p e).
Qed.

Lemma of_Z_rounds z : rounds (inject_Z z) (of_Z z).
Proof.
  assert (inject_Z z == inject_Z z * pw 0) as -> by (change (pw 0) with 1; ring).
  apply normalize_rounds.
Qed.

Lemma dadd_rounds x y :
  is_finite x = true → is_finite y = true → rounds (val x + val y) (dadd x y).
Proof.
  intros Hx Hy. destruct x as [sx|sx| |sx mx ex], y as [sy|sy| |sy my ey]; try done;
    cbn [dadd SFadd].
  - assert (val (S754_zero sx) + val (S754_zero sy) == 0) as -> by reflexivity.
    destruct sx, sy; (exists 0; split; [by intros k q _ _|by left]).
  - assert (val (S754_zero sx) + val (S754_finite sy my ey) == val (S754_finite sy my ey)) as ->
      by (unfold val at 1; cbn [significand]; change (inject_Z 0) with 0; ring).
    by apply rounds_self.
  - assert (val (S754_finite sx mx ex) + val (S754_zero sy) == val (S754_finite sx mx ex)) as ->
      by (unfold val at 2; cbn [significand]; change (inject_Z 0) with 0; ring).
    by apply rounds_self.
  - set (e := Z.min ex ey). rewrite (val_at e), (val_at e (S754_finite sy my ey)) by (cbn; lia).
    rewrite <- Qmult_plus_distr_l, <- inject_Z_plus. unfold dadd. cbn [SFadd]. fold e.
    rewrite !shl_align_val by lia. unfold at_exp. cbn [significand exponent].
    replace (cond_Zopp sx _ + cond_Zopp sy _)%Z with
      (cond_opp sx (Zpos mx) * 2 ^ (ex - e) + cond_opp sy (Zpos my) * 2 ^ (ey - e))%Z
      by (destruct sx, sy; cbn [cond_opp cond_Zopp]; lia).
    apply normalize_rounds.
Qed.

Lemma val_dopp x : val (dopp x) == - val x.
Proof.
  destruct x as [| | |s m e]; try reflexivity. unfold val. cbn [dopp SFopp significand exponent].
  destruct s; cbn [negb cond_opp]; rewrite ?inject_Z_opp; ring.
Qed.

Lemma is_finite_dopp x : is_finite (dopp x) = is_finite x.
Proof. by destruct x. Qed.

Lemma dsub_dadd x y :
  is_finite x = true → is_finite y = true → dsub x y = dadd x (dopp y).
Proof.
  intros Hx Hy. destruct x as [sx|sx| |sx mx ex], y as [sy|sy| |sy my ey]; try done;
    unfold dsub, dadd; cbn [SFsub SFadd dopp SFopp].
  - by destruct sx, sy.
  - do 2 f_equal. destruct sy; cbn [negb cond_Zopp]; lia.
Qed.

Lemma dsub_rounds x y :
  is_finite x = true → is_finite y = true → rounds (val x - val y) (dsub x y).
Proof.
  intros Hx Hy. rewrite dsub_dadd by done. unfold Qminus. rewrite <- val_dopp.
  apply dadd_rounds; [done|by rewrite is_finite_dopp].
Qed.

Lemma signed_mul s s' a b : signed s a * signed s' b == signed (xorb s s') (a * b).
Proof. destruct s, s'; cbn [signed xorb]; ring. Qed.

Lemma dmul_rounds x y :
  is_finite x = true → is_finite y = true → (exponent x + exponent y <= 971)%Z →
  rounds (val x * val y) (dmul x y).
Proof.
  intros Hx Hy He. destruct x as [sx|sx| |sx mx ex], y as [sy|sy| |sy my ey]; try done;
    unfold dmul; cbn [SFmul].
  1-3: exists 0; split; [|by left]; unfold val; cbn [significand]; change (inject_Z 0) with 0;
    intros k q _ _; rewrite ?Qmult_0_l, ?Qmult_0_r; done.
  cbn [exponent] in He. unfold val. cbn [significand exponent].
  destruct (round_aux_outcome (xorb sx sy) (Zpos (mx * my)) (ex + ey) loc_Exact
    (inject_Z (Zpos (mx * my)) * pw (ex + ey))) as (v & Hn & Ho).
  - apply approx_exact. lia.
  - by right.
  - exists (signed (xorb sx sy) v). split; [|done]. rewrite !cond_opp_val, signed_mul.
    assert (inject_Z (Zpos mx) * pw ex * (inject_Z (Zpos my) * pw ey) ==
      inject_Z (Zpos (mx * my)) * pw (ex + ey)) as ->
      by (rewrite Pos2Z.inj_mul, inject_Z_mult, pw_add; ring).
    by apply nearest_signed.
Qed.

Lemma new_location_exact m k : (0 <= k < m)%Z →
  inexact (shr_record_of_loc 0 (new_location m k)) = negb (k =? 0)%Z.
Proof.
  intros Hk. unfold new_location, new_location_even, new_location_odd.
  destruct (Z.even m), (Z.eqb_spec k 0%Z); try done;
    [destruct (2 * k ?= m)%Z|destruct (2 * k + 1 ?= m)%Z]; done.
Qed.

Lemma shr_record_of_loc_inexact m l :
  inexact (shr_record_of_loc m l) = inexact (shr_record_of_loc 0 l).
Proof. by destruct l as [|[]]. Qed.

(** The quotient and its location enclose the exact quotient. *)
Lemma div_approx m1 m2 e : (0 <= m1)%Z → (0 < m2)%Z →
  approx (shr_record_of_loc (m1 / m2) (new_location m2 (m1 mod m2))) e
    (inject_Z m1 / inject_Z m2 * pw e).
Proof.
  intros H1 H2. pose proof (Z.div_mod m1 m2 ltac:(lia)) as E.
  pose proof (Z.mod_pos_bound m1 m2 H2) as Hb. set (q := (m1 / m2)%Z) in *.
  set (k := (m1 mod m2)%Z) in *. unfold approx.
  assert (shr_m (shr_record_of_loc q (new_location m2 k)) = q) as ->
    by (by destruct (new_location m2 k) as [|[]]).
  rewrite shr_record_of_loc_inexact, new_location_exact by done.
  assert (0 < inject_Z m2) as Hm2 by (rewrite <- (Zlt_Qlt 0); done).
  assert (∀ z, inject_Z z == inject_Z (z * m2) / inject_Z m2) as Hz
    by (intros z; rewrite inject_Z_mult; field; lra).
  split_and!.
  - apply Z.div_pos; lia.
  - apply Qmult_lt_compat_r; [apply pw_pos|]. rewrite (Hz (q + 1)%Z). unfold Qdiv.
    apply Qmult_lt_compat_r; [by apply Qinv_lt_0_compat|]. rewrite <- Zlt_Qlt. lia.
  - destruct (Z.eqb_spec k 0%Z) as [Hk|Hk]; cbn [negb].
    + rewrite (Hz q). replace (q * m2)%Z with m1 by lia. reflexivity.
    + apply Qmult_lt_compat_r; [apply pw_pos|]. rewrite (Hz q). unfold Qdiv.
      apply Qmult_lt_compat_r; [by apply Qinv_lt_0_compat|]. rewrite <- Zlt_Qlt. lia.
Qed.

Lemma digits_div m1 m2 s : (0 < m1)%Z → (0 < m2)%Z → (0 <= s)%Z →
  (Zdigits2 m1 + s - Zdigits2 m2 <= Zdigits2 (m1 * 2 ^ s / m2))%Z.
Proof.
  intros H1 H2 Hs. destruct (digits_pos_bound m1 H1) as [A1 _].
  destruct (digits_pos_bound m2 H2) as [_ B2]. set (d1 := Zdigits2 m1) in *.
  set (d2 := Zdigits2 m2) in *. set (q := (m1 * 2 ^ s / m2)%Z).
  assert (0 <= d1 ∧ 0 <= d2)%Z as [Hd1 Hd2] by (unfold d1, d2; destruct m1, m2; simpl; lia).
  destruct (Z.le_gt_cases (d1 + s - d2) 0%Z) as [?|Hd].
  { assert (0 <= Zdigits2 q)%Z by (destruct q; simpl; lia). lia. }
  assert (0 < 2 ^ s)%Z by (apply Z.pow_pos_nonneg; lia).
  assert (2 ^ (d1 + s - d2 - 1) <= q)%Z as Hq.
  { apply Z.div_le_lower_bound; [lia|].
    assert (2 ^ (d1 - 1 + s) = 2 ^ d2 * 2 ^ (d1 + s - d2 - 1))%Z as E
      by (rewrite <- Z.pow_add_r by lia; f_equal; lia).
    assert (2 ^ (d1 - 1 + s) = 2 ^ (d1 - 1) * 2 ^ s)%Z as E'.
    { destruct (Z.eq_dec d1 0%Z) as [E0|]; [|by rewrite Z.pow_add_r by lia].
      rewrite E0 in *. destruct m1; simpl in *; lia. }
    assert (0 < 2 ^ (d1 + s - d2 - 1))%Z by (apply Z.pow_pos_nonneg; lia). nia. }
  assert (0 < 2 ^ (d1 + s - d2 - 1))%Z by (apply Z.pow_pos_nonneg; lia).
  destruct (digits_pos_bound q ltac:(lia)) as [_ D]. assert (0 <= Zdigits2 q)%Z by (destruct q; simpl; lia).
  assert (d1 + s - d2 - 1 < Zdigits2 q)%Z; [|lia]. apply (Z.pow_lt_mono_r_iff 2); lia.
Qed.

Lemma ddiv_rounds x y :
  is_finite x = true → is_finite y = true → ~ val y == 0 → rounds (val x / val y) (ddiv x y).
Proof.
  intros Hx Hy Hy0. destruct y as [sy|sy| |sy my ey]; try done.
  destruct x as [sx|sx| |sx mx ex]; try done; unfold ddiv; cbn [SFdiv].
  - exists 0. split; [|by left]. unfold val at 1. cbn [significand]. change (inject_Z 0) with 0.
    unfold Qdiv. intros k q _ _. by rewrite !Qmult_0_l.
  - unfold SFdiv_core_binary. set (e' := Z.min _ _). set (s := (ex - ey - e')%Z).
    assert (0 <= s)%Z as Hs by lia.
    assert (match s with 0 => Zpos mx | Zpos _ => Z.shiftl (Zpos mx) s | Zneg _ => 0 end =
      Zpos mx * 2 ^ s)%Z as ->.
    { destruct s as [|p|p]; [by rewrite Z.mul_1_r|by rewrite Z.shiftl_mul_pow2|lia]. }
    destruct (Z.div_eucl (Zpos mx * 2 ^ s) (Zpos my)) as [q k] eqn:E.
    assert (q = Zpos mx * 2 ^ s / Zpos my ∧ k = (Zpos mx * 2 ^ s) mod Zpos my)%Z as [-> ->]
      by (unfold Z.div, Z.modulo; by rewrite E).
    assert (0 < 2 ^ s)%Z by (apply Z.pow_pos_nonneg; lia).
    destruct (round_aux_outcome (xorb sx sy) _ e' _ _
      (div_approx (Zpos mx * 2 ^ s) (Zpos my) e' ltac:(lia) ltac:(lia))) as (v & Hn & Ho).
    + left. pose proof (digits_div (Zpos mx) (Zpos my) s ltac:(lia) ltac:(lia) Hs) as Hd.
      unfold e' at 1. rewrite !fexp_max. lia.
    + exists (signed (xorb sx sy) v). split; [|exact Ho].
      assert (val (S754_finite sx mx ex) / val (S754_finite sy my ey) ==
        signed (xorb sx sy) (inject_Z (Zpos mx * 2 ^ s) / inject_Z (Zpos my) * pw e')) as ->;
        [|by apply nearest_signed].
      unfold val. cbn [significand exponent]. rewrite !cond_opp_val.
      assert (∀ a b, signed sx a / signed sy b == signed (xorb sx sy) (a / b)) as Hsd.
      { intros a b. unfold Qdiv. assert (/ - b == - / b) as Hi.
        { assert (- b == (-1) * b) as -> by ring. rewrite Qinv_mult_distr.
          change (/ (-1)) with (-1). ring. }
        destruct sx, sy; cbn [signed xorb]; rewrite ?Hi; ring. }
      rewrite Hsd. apply signed_proper. rewrite inject_Z_mult, <- (pw_Z s) by done.
      assert (pw ex == pw s * pw e' * pw ey) as ->
        by (rewrite <- !pw_add; unfold s; replace (ex - ey - e' + e' + ey)%Z with ex by lia; done).
      pose proof (pw_pos ey). assert (0 < inject_Z (Zpos my)) by (by rewrite <- (Zlt_Qlt 0)).
      field. split; lra.
Qed.

(** ** Bounds of a rounded result *)

Lemma nearest_bounds r v : nearest r v → Qabs r <= pw 1023 → Qabs v <= pw 1023.
Proof.
  intros H Hr. apply Qabs_Qle_condition in Hr as [H1 H2]. apply Qabs_Qle_condition.
  destruct (H 1%Z 1023%Z) as [_ Hu]; [lia|lia|]. destruct (H (-1)%Z 1023%Z) as [Hl _]; [lia|lia|].
  change (inject_Z 1) with 1 in Hu. change (inject_Z (-1)) with (-1) in Hl. lra.
Qed.

Lemma rounds_finite r R : rounds r R → Qabs r <= pw 1023 → is_finite R = true ∧ nearest r (val R).
Proof.
  intros (v & Hn & Ho) Hr. pose proof (nearest_bounds r v Hn Hr) as Hv.
  destruct Ho as [[Hf Hval]|(s & -> & Hs)]; [by rewrite Hval|].
  apply Qabs_Qle_condition in Hv. destruct s; cbn [signed] in Hs; lra.
Qed.

(** An exact result that is representable is returned. *)
Lemma rounds_exact r R k q :
  rounds r R → r == inject_Z k * pw q → (Z.abs k <= 2 ^ 53)%Z → (-1074 <= q)%Z →
  Qabs r <= pw 1023 → is_finite R = true ∧ val R == r.
Proof.
  intros HR Hr Hk Hq Hb. destruct (rounds_finite r R HR Hb) as [Hf Hn]. split; [done|].
  destruct (Hn k q Hk Hq) as [H1 H2]. rewrite Hr in *. apply Qle_antisym; [apply H2|apply H1]; lra.
Qed.

Lemma rounds_int r R z :
  rounds r R → r == inject_Z z → (Z.abs z <= 2 ^ 53)%Z → is_int R z.
Proof.
  intros HR Hr Hz. apply is_int_val. rewrite <- Hr.
  apply (rounds_exact r R z 0 HR); [|done|lia|].
  - rewrite Hr. change (pw 0) with 1. ring.
  - rewrite Hr. apply (Qle_trans _ (inject_Z (2 ^ 53))).
    + apply Qabs_Qle_condition. rewrite <- inject_Z_opp, <- !Zle_Qle. lia.
    + change (inject_Z (2 ^ 53)) with (pw 53). apply pw_le. lia.
Qed.

(** A bound by a double, also when the result overflows. *)
Lemma rounds_ge r R b k q :
  rounds r R → is_finite b = true → val b == inject_Z k * pw q → (Z.abs k <= 2 ^ 53)%Z →
  (-1074 <= q)%Z → Qabs (val b) <= pw 1023 → val b <= r → dle b R = true.
Proof.
  intros (v & Hn & Ho) Hb Hv Hk Hq Hbb Hr. destruct (Hn k q Hk Hq) as [H1 _].
  rewrite <- Hv in H1. specialize (H1 Hr). destruct Ho as [[Hf Hval]|(s & -> & Hs)].
  - apply dle_val; [done|done|]. by rewrite Hval.
  - destruct s; [|by destruct b]. apply Qabs_Qle_condition in Hbb. cbn [signed] in Hs. lra.
Qed.

Lemma rounds_le r R b k q :
  rounds r R → is_finite b = true → val b == inject_Z k * pw q → (Z.abs k <= 2 ^ 53)%Z →
  (-1074 <= q)%Z → Qabs (val b) <= pw 1023 → r <= val b → dle R b = true.
Proof.
  intros (v & Hn & Ho) Hb Hv Hk Hq Hbb Hr. destruct (Hn k q Hk Hq) as [_ H1].
  rewrite <- Hv in H1. specialize (H1 Hr). destruct Ho as [[Hf Hval]|(s & -> & Hs)].
  - apply dle_val; [done|done|]. by rewrite Hval.
  - destruct s; [by destruct b|]. apply Qabs_Qle_condition in Hbb. cbn [signed] in Hs. lra.
Qed.

(** ** Truncation *)

Lemma trunc_val x k :
  is_finite x = true → (0 <= k)%Z → inject_Z k <= val x → val x < inject_Z (k + 1) →
  trunc x = Some k.
Proof.
  intros Hf Hk Hl Hu. destruct x as [s|s| |s m e]; try done.
  - unfold val in Hu, Hl. cbn [significand exponent] in *. rewrite Qmult_0_l in *.
    assert (k <= 0)%Z by (by rewrite Zle_Qle). cbn [trunc]. f_equal. lia.
  - unfold val in *. cbn [significand exponent] in *. cbn [trunc]. f_equal.
    destruct s.
    { exfalso. rewrite cond_opp_val in Hl. cbn [signed] in Hl. pose proof (pw_pos e).
      assert (0 < inject_Z (Zpos m)) by (by rewrite <- (Zlt_Qlt 0)).
      assert (0 < inject_Z (Zpos m) * pw e) by (by apply Qmult_lt_0_compat).
      assert (0 <= inject_Z k) by (by rewrite <- (Zle_Qle 0)). lra. }
    cbn [cond_opp] in *. destruct (Z.leb_spec 0 e) as [He|He].
    + rewrite pw_Z, <- inject_Z_mult in Hl, Hu by done. rewrite <- Zle_Qle in Hl.
      rewrite <- Zlt_Qlt in Hu. lia.
    + assert (∀ z, inject_Z z == inject_Z (z * 2 ^ (- e)) * pw e) as Hz.
      { intros z. rewrite inject_Z_mult, <- pw_Z, <- Qmult_assoc, <- pw_add by lia.
        replace (- e + e)%Z with 0%Z by lia. change (pw 0) with 1. ring. }
      rewrite (Hz k) in Hl. rewrite (Hz (k + 1)%Z) in Hu. apply scaled_le in Hl. apply scaled_lt in Hu.
      pose proof (Z.pow_pos_nonneg 2 (- e)).
      symmetry. apply Z.div_unique with (Zpos m - k * 2 ^ (- e))%Z; lia.
Qed.

Lemma trunc_dopp x : trunc (dopp x) = Z.opp <$> trunc x.
Proof. destruct x as [[]| | |[] m e]; try done; cbn; f_equal; lia. Qed.

(** The truncation of a number that is not negative. *)
Lemma trunc_nonneg_val x k :
  trunc x = Some k → 0 <= val x → (0 <= k)%Z ∧ inject_Z k <= val x < inject_Z (k + 1).
Proof.
  intros Ht Hx. set (z := (at_exp (Z.min (exponent x) 0) x / 2 ^ (- Z.min (exponent x) 0))%Z).
  assert (is_finite x = true) as Hf by (by destruct x).
  set (e := Z.min (exponent x) 0%Z) in *.
  assert (val x == inject_Z (at_exp e x) * pw e) as Hv by (apply val_at; lia).
  assert (∀ y, inject_Z y == inject_Z (y * 2 ^ (- e)) * pw e) as Hz.
  { intros y. rewrite inject_Z_mult, <- pw_Z, <- Qmult_assoc, <- pw_add by lia.
    replace (- e + e)%Z with 0%Z by lia. change (pw 0) with 1. ring. }
  assert (0 < 2 ^ (- e))%Z by (apply Z.pow_pos_nonneg; lia).
  assert (0 <= at_exp e x)%Z as Hp.
  { apply (scaled_le _ _ e). rewrite <- Hv. change (inject_Z 0) with 0. by rewrite Qmult_0_l. }
  pose proof (Z.div_mod (at_exp e x) (2 ^ (- e)) ltac:(lia)).
  pose proof (Z.mod_pos_bound (at_exp e x) (2 ^ (- e)) ltac:(lia)). fold z in H0.
  assert (0 <= z)%Z as Hz0 by (apply Z.div_pos; lia).
  assert (inject_Z z <= val x) as H2 by (rewrite Hv, (Hz z); apply scaled_le; lia).
  assert (val x < inject_Z (z + 1)) as H3 by (rewrite Hv, (Hz (z + 1)%Z); apply scaled_lt; lia).
  rewrite (trunc_val x z Hf Hz0 H2 H3) in Ht. by injection Ht as <-.
Qed.

(** ** Signs *)

Lemma nonneg_val x : nonneg x = true → 0 <= val x.
Proof.
  destruct x as [s|s| |s m e]; intros H; try apply Qle_refl. destruct s; [done|].
  unfold val. cbn [significand exponent cond_opp].
  apply Qmult_le_0_compat; [by rewrite <- (Zle_Qle 0)|apply Qlt_le_weak, pw_pos].
Qed.

(** Taking away from an integer does not increase it. *)
Lemma dsub_int_le x y k :
  is_int x k → (Z.abs k <= 2 ^ 53)%Z → is_finite y = true → nonneg y = true → dle (dsub x y) x = true.
Proof.
  intros [Hx Hk]%is_int_val Hb Hy Hn. pose proof (nonneg_val y Hn).
  apply (rounds_le (val x - val y) _ _ k 0); [by apply dsub_rounds|done| |done|lia| |lra].
  - rewrite Hk. change (pw 0) with 1. ring.
  - rewrite Hk. apply (Qle_trans _ (inject_Z (2 ^ 53))).
    + apply Qabs_Qle_condition. rewrite <- inject_Z_opp, <- !Zle_Qle. lia.
    + change (inject_Z (2 ^ 53)) with (pw 53). apply pw_le. lia.
Qed.

(** ** Quotients of integers *)

Lemma is_int_quot_bounds x y : (0 <= x)%Z → (0 < y <= 2 ^ 20)%Z →
  inject_Z (x / y) <= inject_Z x / inject_Z y ∧
  inject_Z x / inject_Z y <= inject_Z ((x / y + 1) * 2 ^ 20 - 1) * pw (-20).
Proof.
  intros Hx Hy. pose proof (Z.div_mod x y ltac:(lia)) as E.
  pose proof (Z.mod_pos_bound x y ltac:(lia)) as Hb. set (j := (x / y)%Z) in *.
  assert (0 < inject_Z y) as Hy0 by (change 0 with (inject_Z 0); rewrite <- Zlt_Qlt; lia).
  split.
  - apply Qle_shift_div_l; [done|]. rewrite <- inject_Z_mult, <- Zle_Qle. lia.
  - apply Qle_shift_div_r; [done|]. change (pw (-20)) with (/ inject_Z (2 ^ 20)).
    rewrite <- Qmult_assoc, (Qmult_comm (/ _)), Qmult_assoc.
    apply Qle_shift_div_l; [reflexivity|]. rewrite <- !inject_Z_mult, <- Zle_Qle. nia.
Qed.

(** The quotient of integers, truncated, is the truncated quotient. *)
Lemma trunc_quot X Y x y :
  is_int X x → is_int Y y → (Z.abs x <= 2 ^ 32)%Z → (0 < y <= 2 ^ 20)%Z →
  trunc (ddiv X Y) = Some (Z.quot x y).
Proof.
  intros [Fx Vx]%is_int_val [Fy Vy]%is_int_val Hx Hy. set (j := (Z.abs x / y)%Z).
  assert (0 <= j <= 2 ^ 32)%Z as Hj.
  { unfold j. split; [apply Z.div_pos; lia|]. apply Z.div_le_upper_bound; nia. }
  destruct (is_int_quot_bounds (Z.abs x) y ltac:(lia) Hy) as [L U]. fold j in L, U.
  assert (~ val Y == 0) as HY.
  { rewrite Vy. change 0 with (inject_Z 0). rewrite inject_Z_injective. lia. }
  pose proof (ddiv_rounds X Y Fx Fy HY) as HR. rewrite Vx, Vy in HR.
  assert (inject_Z j * pw 0 == inject_Z j) as E0 by (change (pw 0) with 1; ring).
  assert (inject_Z ((j + 1) * 2 ^ 20 - 1) * pw (-20) < inject_Z (j + 1)) as Hlt.
  { change (pw (-20)) with (/ inject_Z (2 ^ 20)). apply Qlt_shift_div_r; [reflexivity|].
    rewrite <- inject_Z_mult, <- Zlt_Qlt. lia. }
  assert (inject_Z (j + 1) <= pw 1023) as Hbig.
  { apply (Qle_trans _ (pw 53)); [|apply pw_le; lia]. rewrite pw_Z by lia. rewrite <- Zle_Qle. lia. }
  assert (0 <= inject_Z j) as Hj0 by (change 0 with (inject_Z 0); rewrite <- Zle_Qle; lia).
  set (q := inject_Z (Z.abs x) / inject_Z y) in *. assert (q <= inject_Z (j + 1)) as Hq by lra.
  assert (∀ R, rounds q R → is_finite R = true ∧ inject_Z j <= val R < inject_Z (j + 1)) as H.
  { intros R HRq. assert (Qabs q <= pw 1023) as Hb by (apply Qabs_Qle_condition; lra).
    destruct (rounds_finite _ _ HRq Hb) as [Hf Hn]. split; [done|].
    destruct (Hn j 0%Z) as [H1 _]; [lia|lia|].
    destruct (Hn ((j + 1) * 2 ^ 20 - 1)%Z (-20)%Z) as [_ H2]; [lia|lia|].
    rewrite E0 in H1. specialize (H1 L). specialize (H2 U). lra. }
  destruct (Z_le_gt_dec 0 x) as [Hs|Hs].
  - unfold q in H. rewrite Z.abs_eq in H by lia. destruct (H _ HR) as [Hf Hv].
    replace (Z.quot x y) with j by (unfold j; rewrite Z.abs_eq, Z.quot_div_nonneg by lia; done).
    apply trunc_val; [done|lia|apply Hv..].
  - assert (inject_Z x / inject_Z y == - q) as Eq.
    { unfold q. rewrite Z.abs_neq, inject_Z_opp by lia. field. intros Hz. apply HY. by rewrite Vy. }
    rewrite Eq in HR. apply rounds_opp in HR. rewrite Qopp_involutive in HR.
    destruct (H _ HR) as [Hf Hv].
    pose proof (trunc_val (dopp (ddiv X Y)) j Hf ltac:(lia) (proj1 Hv) (proj2 Hv)) as Ht.
    rewrite trunc_dopp in Ht. destruct (trunc (ddiv X Y)) as [t|]; [|done].
    injection Ht as Ht. f_equal. unfold j in Ht. rewrite Z.abs_neq in Ht by lia.
    rewrite <- (Z.opp_involutive x), Z.quot_opp_l, Z.quot_div_nonneg by lia. lia.
Qed.

(** ** Exact operations on integers *)

Lemma is_int_exponent x k : is_int x k → (Z.abs k <= 2 ^ 53)%Z → (exponent x <= 53)%Z.
Proof.
  intros [Hf Hv]%is_int_val Hk. destruct x as [s|s| |s m e]; cbn [exponent]; try done.
  destruct (Z_le_gt_dec e 53) as [|He]; [done|exfalso].
  unfold val in Hv. cbn [significand exponent] in Hv. rewrite pw_Z in Hv by lia.
  rewrite <- inject_Z_mult, inject_Z_injective in Hv.
  assert (2 ^ 53 < 2 ^ e)%Z by (apply Z.pow_lt_mono_r; lia). destruct s; cbn [cond_opp] in Hv; nia.
Qed.

Lemma dmul_is_int x y a b :
  is_int x a → is_int y b → (Z.abs a <= 2 ^ 53)%Z → (Z.abs b <= 2 ^ 53)%Z → (Z.abs (a * b) <= 2 ^ 53)%Z →
  is_int (dmul x y) (a * b).
Proof.
  intros Hx Hy Ha Hb Hab. pose proof (is_int_exponent _ _ Hx Ha). pose proof (is_int_exponent _ _ Hy Hb).
  apply is_int_val in Hx as [Fx Vx], Hy as [Fy Vy].
  eapply rounds_int; [by apply dmul_rounds; [..|lia]| |done]. by rewrite Vx, Vy, inject_Z_mult.
Qed.

Lemma dsub_is_int x y a b :
  is_int x a → is_int y b → (Z.abs (a - b) <= 2 ^ 53)%Z → is_int (dsub x y) (a - b).
Proof.
  intros [Fx Vx]%is_int_val [Fy Vy]%is_int_val Hab.
  eapply rounds_int; [by apply dsub_rounds| |done].
  rewrite Vx, Vy. unfold Z.sub. rewrite inject_Z_plus, inject_Z_opp. reflexivity.
Qed.

(** ** Moderate numbers are rounded by little *)

Lemma rounds_close r R :
  rounds r R → Qabs r <= pw 12 →
  is_finite R = true ∧ r - pw (-40) <= val R ∧ val R <= r + pw (-40).
Proof.
  intros HR Hr. assert (Qabs r <= pw 1023) as Hb by (eapply Qle_trans; [exact Hr|apply pw_le; lia]).
  destruct (rounds_finite r R HR Hb) as [Hf Hn]. split; [done|].
  apply Qabs_Qle_condition in Hr as [Hl Hu].
  set (k := Qfloor (r * pw 40)).
  assert (inject_Z k <= r * pw 40 ∧ r * pw 40 < inject_Z (k + 1)) as [Hk1 Hk2]
    by (split; [apply Qfloor_le|apply Qlt_floor]).
  assert (pw 12 == inject_Z (2 ^ 12) ∧ pw 40 == inject_Z (2 ^ 40) ∧ pw (-40) == / inject_Z (2 ^ 40))
    as (E12 & E40 & E40') by (split_and!; reflexivity).
  rewrite E12 in Hl, Hu. rewrite E40 in Hk1, Hk2. rewrite E40'.
  assert (- 2 ^ 52 - 1 <= k <= 2 ^ 52)%Z as Hk.
  { split.
    - assert (- 2 ^ 52 < k + 1)%Z; [|lia]. rewrite Zlt_Qlt. eapply Qle_lt_trans; [|exact Hk2].
      change (inject_Z (- 2 ^ 52)) with (- inject_Z (2 ^ 12) * inject_Z (2 ^ 40)).
      apply Qmult_le_compat_r; [lra|discriminate].
    - rewrite Zle_Qle. eapply Qle_trans; [exact Hk1|].
      change (inject_Z (2 ^ 52)) with (inject_Z (2 ^ 12) * inject_Z (2 ^ 40)).
      apply Qmult_le_compat_r; [lra|discriminate]. }
  destruct (Hn k (-40)%Z) as [H1 _]; [lia|lia|]. destruct (Hn (k + 1)%Z (-40)%Z) as [_ H2]; [lia|lia|].
  rewrite E40' in H1, H2. rewrite inject_Z_plus in *. change (inject_Z 1) with 1 in *.
  change (inject_Z (2 ^ 40)) with 1099511627776 in *. change (/ 1099511627776) with (1 # 1099511627776) in *.
  split.
  - specialize (H1 ltac:(lra)). lra.
  - specialize (H2 ltac:(lra)). lra.
Qed.

(** Rounding to an integer. *)
Lemma scaled_quarters m e k :
  (e < 0)%Z → inject_Z k - (1 # 4) <= inject_Z m * pw e → inject_Z m * pw e <= inject_Z k + (1 # 4) →
  ((4 * k - 1) * 2 ^ (- e) <= 4 * m <= (4 * k + 1) * 2 ^ (- e))%Z.
Proof.
  intros He Hl Hu. set (D := (2 ^ (- e))%Z). assert (0 < D)%Z as HD by (apply Z.pow_pos_nonneg; lia).
  assert (inject_Z D * pw e == 1) as ED.
  { unfold D. rewrite <- pw_Z, <- pw_add by lia. by replace (- e + e)%Z with 0%Z by lia. }
  pose proof (pw_pos e) as Hpw.
  split.
  - rewrite <- (scaled_le _ _ e), !inject_Z_mult, <- Qmult_assoc, ED.
    unfold Z.sub. rewrite inject_Z_plus, inject_Z_mult, inject_Z_opp.
    change (inject_Z 4) with 4. change (inject_Z 1) with 1. lra.
  - rewrite <- (scaled_le _ _ e), !inject_Z_mult, <- (Qmult_assoc _ (inject_Z D)), ED.
    rewrite inject_Z_plus, inject_Z_mult. change (inject_Z 4) with 4. change (inject_Z 1) with 1. lra.
Qed.

Lemma dround_close x k :
  is_finite x = true → (0 <= k < 2 ^ 52)%Z → inject_Z k - (1 # 4) <= val x → val x <= inject_Z k + (1 # 4) →
  is_int (dround x) k.
Proof.
  intros Hf Hk Hl Hu. destruct x as [s|s| |s m e]; try done.
  - unfold val in Hl. cbn [significand] in Hl. rewrite Qmult_0_l in Hl.
    assert (k = 0)%Z as ->; [|done]. assert (inject_Z k < inject_Z 1) as Hlt by (change (inject_Z 1) with 1; lra).
    rewrite <- Zlt_Qlt in Hlt. lia.
  - unfold val in Hl, Hu. cbn [significand exponent] in Hl, Hu. cbn [dround].
    destruct (Z.leb_spec 0 e) as [He|He].
    + apply is_int_val. split; [done|]. unfold val. cbn [significand exponent].
      rewrite pw_Z in * by done. rewrite <- inject_Z_mult in *. set (z := (cond_opp s (Zpos m) * 2 ^ e)%Z) in *.
      assert (inject_Z (k - 1) < inject_Z z ∧ inject_Z z < inject_Z (k + 1)) as [H1 H2].
      { unfold Z.sub. rewrite !inject_Z_plus. change (inject_Z 1) with 1. change (inject_Z (-(1))) with (-1). lra. }
      rewrite <- Zlt_Qlt in H1, H2. by replace z with k by lia.
    + pose proof (scaled_quarters _ _ _ He Hl Hu) as Hq. set (D := (2 ^ (- e))%Z) in *.
      assert (0 < D)%Z as HD by (apply Z.pow_pos_nonneg; lia).
      replace (2 ^ (1 - e))%Z with (2 * D)%Z by (unfold D; rewrite <- Z.pow_succ_r by lia; f_equal; lia).
      destruct s; cbn [cond_opp] in *.
      * assert (k = 0)%Z as -> by nia. rewrite Z.div_small by lia. done.
      * replace ((2 * Zpos m + D) / (2 * D))%Z with k
          by (apply (Z.div_unique_pos _ _ _ (2 * Zpos m + D - 2 * D * k)); nia).
        destruct (Z.eqb_spec k 0) as [->|]; [done|]. apply of_Z_is_int. change prec with 53%Z. lia.
Qed.
