(* ===== verification/Text.v ===== *)
(** * Numbers as text

    What the C and C++ libraries print for a number and read back: [std::to_string],
    [printf] with [%d] and [%.3d], [operator<<] of a [double], and [atoi]. *)
From Stdlib Require Import SpecFloat Ascii String.
From S2P Require Import Prelude Double.

Local Open Scope string_scope.

(** ** Printing *)

(** The decimal digits of a number, [fuel] being more than their count. *)
Fixpoint digits (fuel : nat) (n : N) : string :=
  match fuel with
  | O => EmptyString
  | S fuel' =>
      let d := String (ascii_of_N (48 + n mod 10)) EmptyString in
      if (n <? 10)%N then d else digits fuel' (n / 10) ++ d
  end.

Definition N_to_string (n : N) : string := digits (S (N.to_nat (N.log2 n))) n.

(** [std::to_string(int)] *)
Definition to_string (z : Z) : string :=
  if (z <? 0)%Z then "-" ++ N_to_string (Z.to_N (- z)) else N_to_string (Z.to_N z).

(** The quotient of naturals rounded to nearest, ties to even. *)
Definition round_div (n d : Z) : Z :=
  let q := (n / d)%Z in let r := (n mod d)%Z in
  if (2 * r <? d)%Z then q else if (d <? 2 * r)%Z then (q + 1)%Z
  else if Z.even q then q else (q + 1)%Z.

(** [n / d * 10 ^ k] as a quotient. *)
Definition scale10 (n d k : Z) : Z * Z :=
  if (0 <=? k)%Z then (n * 10 ^ k, d)%Z else (n, d * 10 ^ (- k))%Z.

(** The decimal exponent of [n / d]: the greatest [k] with [10 ^ k <= n / d], found
    from the estimate [k0] upwards. *)
Fixpoint decimal_exponent (fuel : nat) (n d k0 : Z) : Z :=
  match fuel with
  | O => k0
  | S fuel' =>
      let '(a, b) := scale10 n d (- (k0 + 1)) in
      if (b <=? a)%Z then decimal_exponent fuel' n d (k0 + 1) else k0
  end.

(** Removes the zeros at the end of a string of digits, and then a point. *)
Fixpoint strip_zeros_rev (s : list ascii) : list ascii :=
  match s with
  | c :: s' => if Ascii.eqb c "0"%char then strip_zeros_rev s' else s
  | [] => []
  end.
Definition strip_zeros (s : string) : string :=
  let l := strip_zeros_rev (reverse (list_ascii_of_string s)) in
  string_of_list_ascii (reverse (match l with c :: l' => if Ascii.eqb c "."%char then l' else l | [] => [] end)).

Fixpoint zeros (n : nat) : string := match n with O => EmptyString | S n' => "0" ++ zeros n' end.

(** [digs] is the six digits of the mantissa, [k] the decimal exponent. *)
Definition format_g (digs k : Z) : string :=
  let s := to_string digs in
  if ((k <? -4) || (6 <=? k))%Z%bool then
    let e := to_string (Z.abs k) in
    strip_zeros (substring 0 1 s ++ "." ++ substring 1 5 s) ++ "e" ++
    (if (k <? 0)%Z then "-" else "+") ++ (if (Z.abs k <? 10)%Z then "0" ++ e else e)
  else if (0 <=? k)%Z then
    strip_zeros (substring 0 (Z.to_nat (k + 1)) s ++ "." ++
                 substring (Z.to_nat (k + 1)) (Z.to_nat (5 - k)) s)
  else strip_zeros ("0." ++ zeros (Z.to_nat (- k - 1)) ++ s).

(** [file << x] for a [double] *)
Definition print_double (x : double) : string :=
  match x with
  | S754_zero s => if s then "-0" else "0"
  | S754_infinity s => if s then "-inf" else "inf"
  | S754_nan => "nan"
  | S754_finite s m e =>
      let '(n, d) := if (0 <=? e)%Z then (Zpos m * 2 ^ e, 1)%Z else (Zpos m, 2 ^ (- e))%Z in
      let k := decimal_exponent 700 n d (-330) in
      let '(a, b) := scale10 n d (5 - k) in
      let digs := round_div a b in
      let '(digs, k) := if (digs =? 1000000)%Z then (100000, k + 1)%Z else (digs, k) in
      (if s then "-" else EmptyString) ++ format_g digs k
  end.

Definition print_bool (b : bool) : string := if b then "true" else "false".

Definition endl : string := String (ascii_of_nat 10) EmptyString.


(** [printf] with [%.<width>d] *)
Definition padded (width : nat) (z : Z) : string :=
  let s := N_to_string (Z.to_N (Z.abs z)) in
  (if (z <? 0)%Z then "-" else EmptyString) ++ zeros (width - String.length s) ++ s.

(** ** Reading *)

Definition code (c : ascii) : Z := Z.of_N (N_of_ascii c).

Definition is_space (c : ascii) : bool := (code c =? 32)%Z || ((9 <=? code c)%Z && (code c <=? 13)%Z).

(** The value of a digit in a base up to 16. *)
Definition digit_value (base : Z) (c : ascii) : option Z :=
  let k := code c in
  let v := (if (48 <=? k) && (k <=? 57) then k - 48
            else if (97 <=? k) && (k <=? 102) then k - 87
            else if (65 <=? k) && (k <=? 70) then k - 55 else 16)%Z in
  if (v <? base)%Z then Some v else None.

(** Digits from the left: the number read, how many digits, and the rest. *)
Fixpoint read_digits (base acc : Z) (n : nat) (s : list ascii) : Z * nat * list ascii :=
  match s with
  | c :: s' =>
      match digit_value base c with
      | Some v => read_digits base (acc * base + v)%Z (S n) s'
      | None => (acc, n, s)
      end
  | [] => (acc, n, s)
  end.

Fixpoint skip_spaces (s : list ascii) : list ascii :=
  match s with c :: s' => if is_space c then skip_spaces s' else s | [] => [] end.

Definition read_sign (s : list ascii) : bool * list ascii :=
  match s with
  | c :: s' => if Ascii.eqb c "-" then (true, s') else if Ascii.eqb c "+" then (false, s') else (false, s)
  | [] => (false, s)
  end.

(** An exponent after one of two letters; absent when no digit follows. *)
Definition read_exponent (lower upper : ascii) (s : list ascii) : Z * list ascii :=
  match s with
  | c :: s' =>
      if Ascii.eqb c lower || Ascii.eqb c upper then
        let '(neg, s'') := read_sign s' in
        let '(k, n, rest) := read_digits 10 0 0 s'' in
        match n with O => (0%Z, s) | _ => ((if neg then - k else k)%Z, rest) end
      else (0%Z, s)
  | [] => (0%Z, s)
  end.

(** A significand with an optional point: its digits as a number, the count of those
    after the point, and the rest; none without a digit. *)
Definition read_significand (base : Z) (s : list ascii) : option (Z * nat * list ascii) :=
  let '(i, n, rest) := read_digits base 0 0 s in
  match rest with
  | c :: rest' =>
      if Ascii.eqb c "." then
        let '(m, k, rest'') := read_digits base i 0 rest' in
        match (n + k)%nat with O => None | _ => Some (m, k, rest'') end
      else match n with O => None | _ => Some (i, O, rest) end
  | [] => match n with O => None | _ => Some (i, O, rest) end
  end.

(** [m * base^e], rounded to nearest *)
Definition scaled_value (neg : bool) (m base e : Z) : double :=
  match m with
  | Zpos p =>
      if (0 <=? e)%Z then binary_normalize prec emax (cond_opp neg (Zpos p * base ^ e)) 0 neg
      else SFdiv prec emax (S754_finite neg p 0) (S754_finite false (Z.to_pos (base ^ (- e))) 0)
  | _ => S754_zero neg
  end.

(** The words [inf], [infinity] and [nan], in either case; a [nan] with a sequence in
    parentheses is read without it. *)
Definition lower_case (c : ascii) : ascii :=
  if ((65 <=? code c) && (code c <=? 90))%Z then ascii_of_N (Z.to_N (code c + 32)) else c.
Fixpoint read_word (w : string) (s : list ascii) : option (list ascii) :=
  match w, s with
  | EmptyString, _ => Some s
  | String a w', c :: s' => if Ascii.eqb a (lower_case c) then read_word w' s' else None
  | _, _ => None
  end.

(** The number after the sign, and the rest. *)
Definition read_unsigned (neg : bool) (s : list ascii) : option (double * list ascii) :=
  match read_word "infinity" s, read_word "inf" s, read_word "nan" s with
  | Some rest, _, _ | None, Some rest, _ => Some (S754_infinity neg, rest)
  | None, None, Some rest => Some (S754_nan, rest)
  | None, None, None =>
      match (rest ← read_word "0x" s; read_significand 16 rest) with
      | Some (m, k, rest) =>
          let '(e, rest) := read_exponent "p" "P" rest in
          Some (scaled_value neg m 2 (e - 4 * Z.of_nat k), rest)
      | None =>
          match read_significand 10 s with
          | Some (m, k, rest) =>
              let '(e, rest) := read_exponent "e" "E" rest in
              Some (scaled_value neg m 10 (e - Z.of_nat k), rest)
          | None => None
          end
      end
  end.

(** [strtod(s, &p)]: the value and [p - s]; zero and zero without a number *)
Definition strtod (s : list ascii) : double * nat :=
  let '(neg, s') := read_sign (skip_spaces s) in
  match read_unsigned neg s' with
  | Some (x, rest) => (x, (List.length s - List.length rest)%nat)
  | None => (S754_zero false, O)
  end.

(** [strtoimax(s, nullptr, 10)] *)
Definition strtoimax (s : list ascii) : Z :=
  let '(neg, s') := read_sign (skip_spaces s) in
  let '(k, _, _) := read_digits 10 0 0 s' in
  let v := if neg then (- k)%Z else k in
  Z.max (- 2 ^ 63) (Z.min (2 ^ 63 - 1) v).

(** ** Printed integers are read back *)

Lemma list_ascii_app s1 s2 :
  list_ascii_of_string (s1 ++ s2) = (list_ascii_of_string s1 ++ list_ascii_of_string s2)%list.
Proof. induction s1 as [|c s1 IH]; [done|]. simpl. by rewrite IH. Qed.

Lemma digit_value_digit d :
  (d < 10)%N → digit_value 10 (ascii_of_N (48 + d)) = Some (Z.of_N d).
Proof.
  intros Hd. assert (∃ k, (k < 10)%nat ∧ d = N.of_nat k) as (k & Hk & ->)
    by (exists (N.to_nat d); lia).
  do 10 (destruct k as [|k]; [reflexivity|]). lia.
Qed.

Lemma read_digits_printed fuel n acc k rest :
  (n < 10 ^ N.of_nat fuel)%N → (0 < fuel)%nat →
  read_digits 10 acc k (list_ascii_of_string (digits fuel n) ++ rest) =
  read_digits 10 (acc * 10 ^ Z.of_nat (String.length (digits fuel n)) + Z.of_N n)%Z
    (k + String.length (digits fuel n)) rest.
Proof.
  revert n acc k rest. induction fuel as [|fuel IH]; intros n acc k rest Hn Hf; [lia|].
  assert (∀ acc k rest, read_digits 10 acc k (ascii_of_N (48 + n mod 10) :: rest) =
    read_digits 10 (acc * 10 + Z.of_N (n mod 10))%Z (S k) rest) as Hd.
  { intros. cbn [read_digits]. rewrite digit_value_digit; [done|]. apply N.mod_lt. lia. }
  cbn [digits]. destruct (N.ltb_spec n 10) as [Hlt|Hge].
  - cbn [list_ascii_of_string app String.length]. rewrite Hd, N.mod_small by done. f_equal; lia.
  - assert (0 < fuel)%nat as Hf'.
    { destruct fuel; [|lia]. change (N.of_nat 1) with 1%N in Hn. lia. }
    assert (n / 10 < 10 ^ N.of_nat fuel)%N as Hq.
    { apply N.Div0.div_lt_upper_bound. rewrite Nat2N.inj_succ, N.pow_succ_r' in Hn. done. }
    rewrite list_ascii_app, <- app_assoc, IH by done. cbn [list_ascii_of_string app].
    rewrite Hd. set (len := String.length (digits fuel (n / 10))).
    assert (String.length (digits fuel (n / 10) ++ String (ascii_of_N (48 + n mod 10)) EmptyString) = S len) as ->.
    { unfold len. clear. induction (digits fuel (n / 10)) as [|c s IHs]; [done|]. simpl. by rewrite IHs. }
    pose proof (N.div_mod n 10 ltac:(lia)) as E. rewrite Nat2Z.inj_succ, Z.pow_succ_r by lia.
    f_equal; [|lia]. lia.
Qed.

Lemma N_to_string_read n acc k rest :
  read_digits 10 acc k (list_ascii_of_string (N_to_string n) ++ rest) =
  read_digits 10 (acc * 10 ^ Z.of_nat (String.length (N_to_string n)) + Z.of_N n)%Z
    (k + String.length (N_to_string n)) rest.
Proof.
  apply read_digits_printed; [|lia]. destruct (decide (n = 0%N)) as [->|Hn]; [done|].
  rewrite Nat2N.inj_succ, N2Nat.id. pose proof (N.log2_spec n ltac:(lia)) as [_ H].
  eapply N.lt_le_trans; [exact H|]. apply N.pow_le_mono_l. lia.
Qed.

(** The first character of a printed number is a digit. *)
Lemma digits_head fuel n : (0 < fuel)%nat →
  ∃ c s v, list_ascii_of_string (digits fuel n) = c :: s ∧ digit_value 10 c = Some v.
Proof.
  revert n. induction fuel as [|fuel IH]; intros n Hf; [lia|]. cbn [digits].
  assert (n mod 10 < 10)%N by (apply N.mod_lt; lia).
  destruct (N.ltb_spec n 10); [do 3 eexists; split; [done|by apply digit_value_digit]|].
  destruct fuel as [|fuel]; [do 3 eexists; split; [done|by apply digit_value_digit]|].
  destruct (IH (n / 10)%N) as (c & s & v & E & Hv); [lia|]. rewrite list_ascii_app, E.
  by exists c, (s ++ list_ascii_of_string (String (ascii_of_N (48 + n mod 10)) EmptyString))%list, v.
Qed.

Lemma digit_not_special c v :
  digit_value 10 c = Some v → is_space c = false ∧ Ascii.eqb c "-" = false ∧ Ascii.eqb c "+" = false.
Proof. destruct c as [[] [] [] [] [] [] [] []]; vm_compute; naive_solver. Qed.

(** [strtoimax], which reads the options of the command line, gives back every
    number that [std::to_string] prints, whatever follows it that is not a digit. *)
Theorem strtoimax_to_string (z : Z) (rest : list ascii) :
  (- 2 ^ 63 <= z < 2 ^ 63)%Z →
  match rest with c :: _ => digit_value 10 c = None | [] => True end →
  strtoimax (list_ascii_of_string (to_string z) ++ rest) = z.
Proof.
  intros Hz Hrest. unfold strtoimax, to_string.
  assert (∀ n, read_digits 10 0 0 (list_ascii_of_string (N_to_string n) ++ rest) =
    (Z.of_N n, String.length (N_to_string n), rest)) as Hread.
  { intros n. rewrite N_to_string_read. destruct rest as [|c rest']; [done|].
    cbn [read_digits]. rewrite Hrest. done. }
  destruct (Z.ltb_spec z 0) as [Hneg|Hpos].
  - cbn [append list_ascii_of_string app skip_spaces].
    change (is_space "-") with false. cbn [read_sign]. cbn [Ascii.eqb Bool.eqb].
    rewrite Hread. lia.
  - destruct (digits_head (S (N.to_nat (N.log2 (Z.to_N z)))) (Z.to_N z)) as (c & s & v & E & Hv); [lia|].
    destruct (digit_not_special c v Hv) as (H1 & H2 & H3). specialize (Hread (Z.to_N z)).
    unfold N_to_string in *. rewrite E in *. cbn [app skip_spaces]. rewrite H1. cbn [read_sign].
    rewrite H2, H3. cbn [app] in Hread. rewrite Hread. lia.
Qed.
