(* ===== verification/TranMerc.v ===== *)
(** * [src/libmgrs/tranmerc.c]: the Transverse Mercator projection

    The static variables are a record, the functions state passing.  An output
    argument that a call leaves unwritten is [None]. *)
From S2P Require Import Prelude Double Libm.

Local Open Scope double_scope.

Definition TM_PI : double := lit 314159265358979323 100000000000000000.
Definition PI_OVER_2 : double := TM_PI / #2.
Definition TM_MAX_LAT : double := (TM_PI * lit 8999 100) / #180.
Definition MAX_DELTA_LONG : double := (TM_PI * #90) / #180.
Definition MIN_SCALE_FACTOR : double := lit 3 10.
Definition MAX_SCALE_FACTOR : double := #3.

(** Error codes of [tranmerc.h] *)
Definition TRANMERC_NO_ERROR : Z := 0x0000.
Definition TRANMERC_LAT_ERROR : Z := 0x0001.
Definition TRANMERC_LON_ERROR : Z := 0x0002.
Definition TRANMERC_EASTING_ERROR : Z := 0x0004.
Definition TRANMERC_NORTHING_ERROR : Z := 0x0008.
Definition TRANMERC_ORIGIN_LAT_ERROR : Z := 0x0010.
Definition TRANMERC_CENT_MER_ERROR : Z := 0x0020.
Definition TRANMERC_A_ERROR : Z := 0x0040.
Definition TRANMERC_INV_F_ERROR : Z := 0x0080.
Definition TRANMERC_SCALE_FACTOR_ERROR : Z := 0x0100.
Definition TRANMERC_LON_WARNING : Z := 0x0200.

(** [if (c) code |= bit] *)
Definition err_if (c : bool) (bit code : Z) : Z := if c then Z.lor code bit else code.

Record TranMerc := mkTranMerc {
  TranMerc_a : double;
  TranMerc_f : double;
  TranMerc_es : double;
  TranMerc_ebs : double;
  TranMerc_Origin_Lat : double;
  TranMerc_Origin_Long : double;
  TranMerc_False_Northing : double;
  TranMerc_False_Easting : double;
  TranMerc_Scale_Factor : double;
  TranMerc_ap : double;
  TranMerc_bp : double;
  TranMerc_cp : double;
  TranMerc_dp : double;
  TranMerc_ep : double;
  TranMerc_Delta_Easting : double;
  TranMerc_Delta_Northing : double;
}.

(** The initial values, for WGS 84 *)
Definition TranMerc_init : TranMerc := {|
  TranMerc_a := #6378137;
  TranMerc_f := #1 / lit 298257223563 1000000000;
  TranMerc_es := lit 66943799901413800 10000000000000000000;
  TranMerc_ebs := lit 67394967565869 10000000000000000;
  TranMerc_Origin_Lat := #0;
  TranMerc_Origin_Long := #0;
  TranMerc_False_Northing := #0;
  TranMerc_False_Easting := #0;
  TranMerc_Scale_Factor := #1;
  TranMerc_ap := lit 63674491458008 10000000;
  TranMerc_bp := lit 16038508696861 1000000000;
  TranMerc_cp := lit 16832613334334 1000000000000;
  TranMerc_dp := lit 21984404273757 1000000000000000;
  TranMerc_ep := lit 31148371319283 1000000000000000000;
  TranMerc_Delta_Easting := #40000000;
  TranMerc_Delta_Northing := #40000000 |}.

Section TranMerc.
Context `{Libm}.

(** The macros [SPHTMD], [SPHSN], [DENOM] and [SPHSR] *)
Definition SPHTMD (tm : TranMerc) (Latitude : double) : double :=
  TranMerc_ap tm * Latitude - TranMerc_bp tm * m_sin (#2 * Latitude)
  + TranMerc_cp tm * m_sin (#4 * Latitude) - TranMerc_dp tm * m_sin (#6 * Latitude)
  + TranMerc_ep tm * m_sin (#8 * Latitude).

Definition SPHSN (tm : TranMerc) (Latitude : double) : double :=
  TranMerc_a tm / dsqrt (#1 - TranMerc_es tm * m_pow (m_sin Latitude) #2).

Definition DENOM (tm : TranMerc) (Latitude : double) : double :=
  dsqrt (#1 - TranMerc_es tm * m_pow (m_sin Latitude) #2).

Definition SPHSR (tm : TranMerc) (Latitude : double) : double :=
  TranMerc_a tm * (#1 - TranMerc_es tm) / m_pow (DENOM tm Latitude) #3.

(** The error code of [Convert_Geodetic_To_Transverse_Mercator] before the
    computation, for a longitude already brought below [PI]. *)
Definition geodetic_range_code (tm : TranMerc) (Latitude Longitude : double) : Z :=
  let code := err_if ((Latitude <? - TM_MAX_LAT) || (Latitude >? TM_MAX_LAT))
                TRANMERC_LAT_ERROR TRANMERC_NO_ERROR in
  if (Longitude <? TranMerc_Origin_Long tm - MAX_DELTA_LONG)
     || (Longitude >? TranMerc_Origin_Long tm + MAX_DELTA_LONG)
  then
    let temp_Long := if Longitude <? #0 then Longitude + #2 * TM_PI else Longitude in
    let temp_Origin := if TranMerc_Origin_Long tm <? #0
                       then TranMerc_Origin_Long tm + #2 * TM_PI
                       else TranMerc_Origin_Long tm in
    err_if ((temp_Long <? temp_Origin - MAX_DELTA_LONG)
            || (temp_Long >? temp_Origin + MAX_DELTA_LONG)) TRANMERC_LON_ERROR code
  else code.

(** The northing and the easting for the latitude and the difference [dlam] of
    the longitude to the central meridian. *)
Definition geodetic_to_tm (tm : TranMerc) (Latitude dlam : double) : double * double :=
  let k := TranMerc_Scale_Factor tm in
  let s := m_sin Latitude in
  let c := m_cos Latitude in
  let c2 := c * c in
  let c3 := c2 * c in
  let c5 := c3 * c2 in
  let c7 := c5 * c2 in
  let t := m_tan Latitude in
  let tan2 := t * t in
  let tan3 := tan2 * t in
  let tan4 := tan3 * t in
  let tan5 := tan4 * t in
  let tan6 := tan5 * t in
  let eta := TranMerc_ebs tm * c2 in
  let eta2 := eta * eta in
  let eta3 := eta2 * eta in
  let eta4 := eta3 * eta in
  let sn := SPHSN tm Latitude in
  let tmd := SPHTMD tm Latitude in
  let tmdo := SPHTMD tm (TranMerc_Origin_Lat tm) in
  let t1 := (tmd - tmdo) * k in
  let t2 := sn * s * c * k / #2 in
  let t3 := sn * s * c3 * k * (#5 - tan2 + #9 * eta + #4 * eta2) / #24 in
  let t4 := sn * s * c5 * k *
    (#61 - #58 * tan2 + tan4 + #270 * eta - #330 * tan2 * eta + #445 * eta2
     + #324 * eta3 - #680 * tan2 * eta2 + #88 * eta4
     - #600 * tan2 * eta3 - #192 * tan2 * eta4) / #720 in
  let t5 := sn * s * c7 * k * (#1385 - #3111 * tan2 + #543 * tan4 - tan6) / #40320 in
  let Northing := TranMerc_False_Northing tm + t1 + m_pow dlam #2 * t2
    + m_pow dlam #4 * t3 + m_pow dlam #6 * t4 + m_pow dlam #8 * t5 in
  let t6 := sn * c * k in
  let t7 := sn * c3 * k * (#1 - tan2 + eta) / #6 in
  let t8 := sn * c5 * k *
    (#5 - #18 * tan2 + tan4 + #14 * eta - #58 * tan2 * eta + #13 * eta2 + #4 * eta3
     - #64 * tan2 * eta2 - #24 * tan2 * eta3) / #120 in
  let t9 := sn * c7 * k * (#61 - #479 * tan2 + #179 * tan4 - tan6) / #5040 in
  let Easting := TranMerc_False_Easting tm + dlam * t6 + m_pow dlam #3 * t7
    + m_pow dlam #5 * t8 + m_pow dlam #7 * t9 in
  (Easting, Northing).

(** The difference to the central meridian, brought into range. *)
Definition delta_longitude (dlam : double) : double :=
  let dlam := if dlam >? TM_PI then dlam - #2 * TM_PI else dlam in
  let dlam := if dlam <? - TM_PI then dlam + #2 * TM_PI else dlam in
  if fabs dlam <? lit 2 10000000000 then #0 else dlam.

(** Returns the code and, when they are written, [*Easting] and [*Northing]. *)
Definition Convert_Geodetic_To_Transverse_Mercator (tm : TranMerc) (Latitude Longitude : double)
    : Z * option (double * double) :=
  let Longitude := if Longitude >? TM_PI then Longitude - #2 * TM_PI else Longitude in
  let code := geodetic_range_code tm Latitude Longitude in
  if (code =? 0)%Z then
    let dlam := Longitude - TranMerc_Origin_Long tm in
    let code := err_if (fabs dlam >? #9 * TM_PI / #180) TRANMERC_LON_WARNING code in
    (code, Some (geodetic_to_tm tm Latitude (delta_longitude dlam)))
  else (code, None).

(** The error code of [Set_Transverse_Mercator_Parameters]. *)
Definition tm_parameters_code (a f Origin_Latitude Central_Meridian Scale_Factor : double) : Z :=
  let inv_f := #1 / f in
  let code := err_if (a <=? #0) TRANMERC_A_ERROR TRANMERC_NO_ERROR in
  let code := err_if ((inv_f <? #250) || (inv_f >? #350)) TRANMERC_INV_F_ERROR code in
  let code := err_if ((Origin_Latitude <? - PI_OVER_2) || (Origin_Latitude >? PI_OVER_2))
                TRANMERC_ORIGIN_LAT_ERROR code in
  let code := err_if ((Central_Meridian <? - TM_PI) || (Central_Meridian >? #2 * TM_PI))
                TRANMERC_CENT_MER_ERROR code in
  err_if ((Scale_Factor <? MIN_SCALE_FACTOR) || (Scale_Factor >? MAX_SCALE_FACTOR))
    TRANMERC_SCALE_FACTOR_ERROR code.

(** The variables that follow from the ellipsoid, the deltas being those of [tm]. *)
Definition derived_parameters (tm : TranMerc)
    (a f Origin_Latitude Central_Meridian False_Easting False_Northing Scale_Factor : double)
    : TranMerc :=
  let es := #2 * f - f * f in
  let ebs := (#1 / (#1 - es)) - #1 in
  let b := a * (#1 - f) in
  let tn := (a - b) / (a + b) in
  let tn2 := tn * tn in
  let tn3 := tn2 * tn in
  let tn4 := tn3 * tn in
  let tn5 := tn4 * tn in
  {| TranMerc_a := a; TranMerc_f := f; TranMerc_es := es; TranMerc_ebs := ebs;
     TranMerc_Origin_Lat := Origin_Latitude;
     TranMerc_Origin_Long := Central_Meridian;
     TranMerc_False_Northing := False_Northing;
     TranMerc_False_Easting := False_Easting;
     TranMerc_Scale_Factor := Scale_Factor;
     TranMerc_ap := a * (#1 - tn + #5 * (tn2 - tn3) / #4 + #81 * (tn4 - tn5) / #64);
     TranMerc_bp := #3 * a * (tn - tn2 + #7 * (tn3 - tn4) / #8 + #55 * tn5 / #64) / #2;
     TranMerc_cp := #15 * a * (tn2 - tn3 + #3 * (tn4 - tn5) / #4) / #16;
     TranMerc_dp := #35 * a * (tn3 - tn4 + #11 * tn5 / #16) / #48;
     TranMerc_ep := #315 * a * (tn4 - tn5) / #512;
     TranMerc_Delta_Easting := TranMerc_Delta_Easting tm;
     TranMerc_Delta_Northing := TranMerc_Delta_Northing tm |}.

Definition set_deltas (tm : TranMerc) (de dn : double) : TranMerc :=
  {| TranMerc_a := TranMerc_a tm; TranMerc_f := TranMerc_f tm;
     TranMerc_es := TranMerc_es tm; TranMerc_ebs := TranMerc_ebs tm;
     TranMerc_Origin_Lat := TranMerc_Origin_Lat tm;
     TranMerc_Origin_Long := TranMerc_Origin_Long tm;
     TranMerc_False_Northing := TranMerc_False_Northing tm;
     TranMerc_False_Easting := TranMerc_False_Easting tm;
     TranMerc_Scale_Factor := TranMerc_Scale_Factor tm;
     TranMerc_ap := TranMerc_ap tm; TranMerc_bp := TranMerc_bp tm;
     TranMerc_cp := TranMerc_cp tm; TranMerc_dp := TranMerc_dp tm;
     TranMerc_ep := TranMerc_ep tm;
     TranMerc_Delta_Easting := de; TranMerc_Delta_Northing := dn |}.

Definition Set_Transverse_Mercator_Parameters (tm : TranMerc)
    (a f Origin_Latitude Central_Meridian False_Easting False_Northing Scale_Factor : double)
    : Z * TranMerc :=
  let code := tm_parameters_code a f Origin_Latitude Central_Meridian Scale_Factor in
  if (code =? 0)%Z then
    let Central_Meridian :=
      if Central_Meridian >? TM_PI then Central_Meridian - #2 * TM_PI else Central_Meridian in
    let tm1 := derived_parameters tm a f Origin_Latitude Central_Meridian
                 False_Easting False_Northing Scale_Factor in
    let '(_, o1) := Convert_Geodetic_To_Transverse_Mercator tm1 TM_MAX_LAT
                      (MAX_DELTA_LONG + Central_Meridian) in
    let tm2 := match o1 with
               | Some (e, n) => set_deltas tm1 e n
               | None => tm1
               end in
    let '(_, o2) := Convert_Geodetic_To_Transverse_Mercator tm2 #0
                      (MAX_DELTA_LONG + Central_Meridian) in
    let tm3 := match o2 with
               | Some (e, _) => set_deltas tm2 e (TranMerc_Delta_Northing tm2)
               | None => tm2
               end in
    (code, set_deltas tm3 (TranMerc_Delta_Easting tm3 + #1) (TranMerc_Delta_Northing tm3 + #1))
  else (code, tm).

(** [a], [f], the latitude of origin, the central meridian, the false easting and
    northing, and the scale factor. *)
Definition Get_Transverse_Mercator_Parameters (tm : TranMerc)
    : double * double * double * double * double * double * double :=
  (TranMerc_a tm, TranMerc_f tm, TranMerc_Origin_Lat tm, TranMerc_Origin_Long tm,
   TranMerc_False_Easting tm, TranMerc_False_Northing tm, TranMerc_Scale_Factor tm).

(** The loop that refines the footpoint latitude. *)
Fixpoint footpoint (tm : TranMerc) (tmd ftphi : double) (n : nat) : double :=
  match n with
  | O => ftphi
  | S n' =>
      let t10 := SPHTMD tm ftphi in
      let sr := SPHSR tm ftphi in
      footpoint tm tmd (ftphi + (tmd - t10) / sr) n'
  end.

(** The latitude and the difference of the longitude for a footpoint latitude
    and the difference [de] of the easting. *)
Definition tm_to_geodetic (tm : TranMerc) (ftphi de : double) : double * double :=
  let k := TranMerc_Scale_Factor tm in
  let sr := SPHSR tm ftphi in
  let sn := SPHSN tm ftphi in
  let s := m_sin ftphi in
  let c := m_cos ftphi in
  let t := m_tan ftphi in
  let tan2 := t * t in
  let tan4 := tan2 * tan2 in
  let eta := TranMerc_ebs tm * m_pow c #2 in
  let eta2 := eta * eta in
  let eta3 := eta2 * eta in
  let eta4 := eta3 * eta in
  let t10 := t / (#2 * sr * sn * m_pow k #2) in
  let t11 := t * (#5 + #3 * tan2 + eta - #4 * m_pow eta #2 - #9 * tan2 * eta)
    / (#24 * sr * m_pow sn #3 * m_pow k #4) in
  let t12 := t * (#61 + #90 * tan2 + #46 * eta + #45 * tan4 - #252 * tan2 * eta - #3 * eta2
      + #100 * eta3 - #66 * tan2 * eta2 - #90 * tan4 * eta + #88 * eta4 + #225 * tan4 * eta2
      + #84 * tan2 * eta3 - #192 * tan2 * eta4)
    / (#720 * sr * m_pow sn #5 * m_pow k #6) in
  let t13 := t * (#1385 + #3633 * tan2 + #4095 * tan4 + #1575 * m_pow t #6)
    / (#40320 * sr * m_pow sn #7 * m_pow k #8) in
  let Latitude := ftphi - m_pow de #2 * t10 + m_pow de #4 * t11 - m_pow de #6 * t12
    + m_pow de #8 * t13 in
  let t14 := #1 / (sn * c * k) in
  let t15 := (#1 + #2 * tan2 + eta) / (#6 * m_pow sn #3 * c * m_pow k #3) in
  let t16 := (#5 + #6 * eta + #28 * tan2 - #3 * eta2 + #8 * tan2 * eta + #24 * tan4
      - #4 * eta3 + #4 * tan2 * eta2 + #24 * tan2 * eta3)
    / (#120 * m_pow sn #5 * c * m_pow k #5) in
  let t17 := (#61 + #662 * tan2 + #1320 * tan4 + #720 * m_pow t #6)
    / (#5040 * m_pow sn #7 * c * m_pow k #7) in
  let dlam := de * t14 - m_pow de #3 * t15 + m_pow de #5 * t16 - m_pow de #7 * t17 in
  (Latitude, dlam).

(** Returns the code and, when they are written, [*Latitude] and [*Longitude]. *)
Definition Convert_Transverse_Mercator_To_Geodetic (tm : TranMerc) (Easting Northing : double)
    : Z * option (double * double) :=
  let code := err_if ((Easting <? TranMerc_False_Easting tm - TranMerc_Delta_Easting tm)
                      || (Easting >? TranMerc_False_Easting tm + TranMerc_Delta_Easting tm))
                TRANMERC_EASTING_ERROR TRANMERC_NO_ERROR in
  let code := err_if ((Northing <? TranMerc_False_Northing tm - TranMerc_Delta_Northing tm)
                      || (Northing >? TranMerc_False_Northing tm + TranMerc_Delta_Northing tm))
                TRANMERC_NORTHING_ERROR code in
  if (code =? 0)%Z then
    let tmdo := SPHTMD tm (TranMerc_Origin_Lat tm) in
    let tmd := tmdo + (Northing - TranMerc_False_Northing tm) / TranMerc_Scale_Factor tm in
    let ftphi := footpoint tm tmd (tmd / SPHSR tm #0) 5 in
    let de := Easting - TranMerc_False_Easting tm in
    let de := if fabs de <? lit 1 10000 then #0 else de in
    let '(Latitude, dlam) := tm_to_geodetic tm ftphi de in
    let Longitude := TranMerc_Origin_Long tm + dlam in
    let code := err_if (fabs Latitude >? #90 * TM_PI / #180) TRANMERC_NORTHING_ERROR code in
    let '(Longitude, code) :=
      if Longitude >? TM_PI then
        let Longitude := Longitude - #2 * TM_PI in
        (Longitude, err_if (fabs Longitude >? TM_PI) TRANMERC_EASTING_ERROR code)
      else if Longitude <? - TM_PI then
        let Longitude := Longitude + #2 * TM_PI in
        (Longitude, err_if (fabs Longitude >? TM_PI) TRANMERC_EASTING_ERROR code)
      else (Longitude, code) in
    let code := err_if (fabs dlam >? (#9 * TM_PI / #180) * m_cos Latitude)
                  TRANMERC_LON_WARNING code in
    (code, Some (Latitude, Longitude))
  else (code, None).
End TranMerc.

(** ** Parameters *)

Lemma err_if_zero c bit code :
  (bit ≠ 0)%Z → err_if c bit code = 0%Z ↔ c = false ∧ code = 0%Z.
Proof.
  intros Hb. unfold err_if. destruct c; [|by split; [|intros [_ ?]]].
  rewrite Z.lor_eq_0_iff. naive_solver.
Qed.

Lemma Get_set_deltas tm x y :
  Get_Transverse_Mercator_Parameters (set_deltas tm x y) = Get_Transverse_Mercator_Parameters tm.
Proof. reflexivity. Qed.

Lemma tm_parameters_code_zero a f lat0 cm k :
  tm_parameters_code a f lat0 cm k = 0%Z ↔
  (a <=? #0) = false ∧ (#1 / f <? #250) = false ∧ (#1 / f >? #350) = false ∧
  (lat0 <? - PI_OVER_2) = false ∧ (lat0 >? PI_OVER_2) = false ∧
  (cm <? - TM_PI) = false ∧ (cm >? #2 * TM_PI) = false ∧
  (k <? MIN_SCALE_FACTOR) = false ∧ (k >? MAX_SCALE_FACTOR) = false.
Proof.
  unfold tm_parameters_code.
  generalize (a <=? #0), (#1 / f <? #250), (#1 / f >? #350), (lat0 <? - PI_OVER_2),
    (lat0 >? PI_OVER_2), (cm <? - TM_PI), (cm >? #2 * TM_PI),
    (k <? MIN_SCALE_FACTOR), (k >? MAX_SCALE_FACTOR).
  intros. rewrite !err_if_zero, !orb_false_iff by done. unfold TRANMERC_NO_ERROR. tauto.
Qed.

Lemma Set_Transverse_Mercator_Parameters_ok `{Libm} tm a f lat0 cm fe fn k :
  tm_parameters_code a f lat0 cm k = 0%Z →
  Get_Transverse_Mercator_Parameters
    (Set_Transverse_Mercator_Parameters tm a f lat0 cm fe fn k).2 =
    (a, f, lat0, if cm >? TM_PI then cm - #2 * TM_PI else cm, fe, fn, k).
Proof.
  intros Hc. unfold Set_Transverse_Mercator_Parameters. rewrite Hc. cbv zeta. cbn [Z.eqb].
  generalize (if cm >? TM_PI then cm - #2 * TM_PI else cm). intros cm'.
  destruct (Convert_Geodetic_To_Transverse_Mercator _ _ _) as [? [[]|]];
    destruct (Convert_Geodetic_To_Transverse_Mercator _ _ _) as [? [[]|]];
    cbn [snd]; rewrite !Get_set_deltas; reflexivity.
Qed.

Lemma Set_Transverse_Mercator_Parameters_code `{Libm} tm a f lat0 cm fe fn k :
  (Set_Transverse_Mercator_Parameters tm a f lat0 cm fe fn k).1 =
    tm_parameters_code a f lat0 cm k.
Proof.
  unfold Set_Transverse_Mercator_Parameters. cbv zeta.
  destruct (tm_parameters_code a f lat0 cm k =? 0)%Z; [|done].
  destruct (Convert_Geodetic_To_Transverse_Mercator _ _ _) as [? [[]|]];
    destruct (Convert_Geodetic_To_Transverse_Mercator _ _ _) as [? [[]|]]; done.
Qed.

Lemma Set_Transverse_Mercator_Parameters_err `{Libm} tm a f lat0 cm fe fn k :
  tm_parameters_code a f lat0 cm k ≠ 0%Z →
  (Set_Transverse_Mercator_Parameters tm a f lat0 cm fe fn k).2 = tm.
Proof.
  intros Hc. unfold Set_Transverse_Mercator_Parameters.
  by rewrite (proj2 (Z.eqb_neq _ _) Hc).
Qed.

(** [Set_Transverse_Mercator_Parameters] returns [TRANMERC_NO_ERROR] exactly
    when the semi-major axis is not below or equal to zero, the inverse flattening
    is within 250 and 350, the origin is a latitude, the central meridian within
    -PI and 2 PI and the scale factor within 0.3 and 3.  Then
    [Get_Transverse_Mercator_Parameters] returns what was set, the central
    meridian brought below PI; otherwise no variable changes. *)
Theorem tm_parameters_roundtrip `{Libm} (tm : TranMerc) (a f lat0 cm fe fn k : double) :
  let '(code, tm') := Set_Transverse_Mercator_Parameters tm a f lat0 cm fe fn k in
  (code = TRANMERC_NO_ERROR ↔
     (a <=? #0) = false ∧ (#1 / f <? #250) = false ∧ (#1 / f >? #350) = false ∧
     (lat0 <? - PI_OVER_2) = false ∧ (lat0 >? PI_OVER_2) = false ∧
     (cm <? - TM_PI) = false ∧ (cm >? #2 * TM_PI) = false ∧
     (k <? MIN_SCALE_FACTOR) = false ∧ (k >? MAX_SCALE_FACTOR) = false) ∧
  (code = TRANMERC_NO_ERROR →
     Get_Transverse_Mercator_Parameters tm' =
       (a, f, lat0, if cm >? TM_PI then cm - #2 * TM_PI else cm, fe, fn, k)) ∧
  (code ≠ TRANMERC_NO_ERROR → tm' = tm).
Proof.
  pose proof (Set_Transverse_Mercator_Parameters_code tm a f lat0 cm fe fn k) as Hcode.
  pose proof (Set_Transverse_Mercator_Parameters_ok tm a f lat0 cm fe fn k) as Hok.
  pose proof (Set_Transverse_Mercator_Parameters_err tm a f lat0 cm fe fn k) as Herr.
  destruct (Set_Transverse_Mercator_Parameters tm a f lat0 cm fe fn k) as [code tm'].
  cbn [fst snd] in *. unfold TRANMERC_NO_ERROR. rewrite Hcode.
  split_and!; [apply tm_parameters_code_zero|exact Hok|exact Herr].
Qed.

(** ** The variables do not depend on earlier calls *)

(** Variables of which only the central meridian matters. *)
Definition tm_at (o : double) : TranMerc :=
  mkTranMerc #0 #0 #0 #0 #0 o #0 #0 #0 #0 #0 #0 #0 #0 #0 #0.

Lemma geodetic_range_code_at tm lat lon :
  geodetic_range_code tm lat lon = geodetic_range_code (tm_at (TranMerc_Origin_Long tm)) lat lon.
Proof. reflexivity. Qed.

(** Both points that [Set_Transverse_Mercator_Parameters] projects to find the
    deltas are in range of the central meridian [cm]. *)
Definition deltas_in_range (cm : double) : bool :=
  let lon := MAX_DELTA_LONG + cm in
  let lon := if lon >? TM_PI then lon - #2 * TM_PI else lon in
  (geodetic_range_code (tm_at cm) TM_MAX_LAT lon =? 0)%Z &&
  (geodetic_range_code (tm_at cm) #0 lon =? 0)%Z.

Definition normal_meridian (cm : double) : double :=
  if cm >? TM_PI then cm - #2 * TM_PI else cm.

Lemma Convert_in_range `{Libm} tm lat lon :
  Z.eqb (geodetic_range_code (tm_at (TranMerc_Origin_Long tm)) lat
     (if lon >? TM_PI then lon - #2 * TM_PI else lon)) 0 = true →
  ∃ code, Convert_Geodetic_To_Transverse_Mercator tm lat lon =
    (code, Some (geodetic_to_tm tm lat (delta_longitude
       ((if lon >? TM_PI then lon - #2 * TM_PI else lon) - TranMerc_Origin_Long tm)))).
Proof.
  intros Hc. unfold Convert_Geodetic_To_Transverse_Mercator. cbv zeta.
  rewrite geodetic_range_code_at, Hc. by eexists.
Qed.

(** The variables that [geodetic_to_tm] reads do not include the deltas. *)
Lemma geodetic_to_tm_deltas `{Libm} tm e n lat dlam :
  geodetic_to_tm (set_deltas tm e n) lat dlam = geodetic_to_tm tm lat dlam.
Proof. reflexivity. Qed.

Lemma Set_Transverse_Mercator_Parameters_fresh `{Libm} tm tm0 a f lat0 cm fe fn k :
  tm_parameters_code a f lat0 cm k = 0%Z → deltas_in_range (normal_meridian cm) = true →
  Set_Transverse_Mercator_Parameters tm a f lat0 cm fe fn k =
  Set_Transverse_Mercator_Parameters tm0 a f lat0 cm fe fn k.
Proof.
  intros Hc [H1 H2]%andb_prop. unfold Set_Transverse_Mercator_Parameters. rewrite Hc. cbv zeta.
  cbn [Z.eqb]. fold (normal_meridian cm).
  destruct (Convert_in_range (derived_parameters tm a f lat0 (normal_meridian cm) fe fn k) _ _ H1)
    as [c1 E1].
  destruct (Convert_in_range (derived_parameters tm0 a f lat0 (normal_meridian cm) fe fn k) _ _ H1)
    as [c1' E1'].
  rewrite E1, E1'. clear E1 E1' c1 c1'. generalize (normal_meridian cm) H2. intros cm' H2'.
  destruct (geodetic_to_tm (derived_parameters tm _ _ _ _ _ _ _) _ _) as [e n] eqn:Eg.
  destruct (geodetic_to_tm (derived_parameters tm0 _ _ _ _ _ _ _) _ _) as [e' n'] eqn:Eg'.
  assert ((e, n) = (e', n')) as [= -> ->] by (rewrite <- Eg, <- Eg'; reflexivity).
  change (set_deltas (derived_parameters tm a f lat0 cm' fe fn k) e' n') with
    (set_deltas (derived_parameters tm0 a f lat0 cm' fe fn k) e' n').
  reflexivity.
Qed.
