(* ===== verification/Utm.v ===== *)
(** * [src/libmgrs/utm.c]: the UTM projection

    Output arguments are returned; reading one that the callee left unwritten is
    undefined behaviour, as the callers pass uninitialised variables. *)
From Stdlib Require Import Ascii.
From S2P Require Import Prelude Double Libm TranMerc.

Local Open Scope double_scope.

Definition UTM_PI : double := lit 314159265358979323 100000000000000000.
Definition UTM_MIN_LAT : double := (- (lit 805 10) * UTM_PI) / #180.
Definition UTM_MAX_LAT : double := (lit 845 10 * UTM_PI) / #180.
Definition MIN_EASTING : double := #100000.
Definition MAX_EASTING : double := #900000.
Definition MIN_NORTHING : double := #0.
Definition MAX_NORTHING : double := #10000000.

(** Error codes of [utm.h] *)
Definition UTM_NO_ERROR : Z := 0x0000.
Definition UTM_LAT_ERROR : Z := 0x0001.
Definition UTM_LON_ERROR : Z := 0x0002.
Definition UTM_EASTING_ERROR : Z := 0x0004.
Definition UTM_NORTHING_ERROR : Z := 0x0008.
Definition UTM_ZONE_ERROR : Z := 0x0010.
Definition UTM_HEMISPHERE_ERROR : Z := 0x0020.
Definition UTM_ZONE_OVERRIDE_ERROR : Z := 0x0040.
Definition UTM_A_ERROR : Z := 0x0080.
Definition UTM_INV_F_ERROR : Z := 0x0100.

(** The static variables, with those of the Transverse Mercator projection. *)
Record Utm := mkUtm {
  UTM_a : double;
  UTM_f : double;
  UTM_Override : Z;
  utm_tm : TranMerc;
}.

Definition Utm_init : Utm :=
  mkUtm #6378137 (#1 / lit 298257223563 1000000000) 0 TranMerc_init.

Definition Set_UTM_Parameters (u : Utm) (a f : double) (override : Z) : Z * Utm :=
  let inv_f := #1 / f in
  let code := err_if (a <=? #0) UTM_A_ERROR UTM_NO_ERROR in
  let code := err_if ((inv_f <? #250) || (inv_f >? #350)) UTM_INV_F_ERROR code in
  let code := err_if ((override <? 0) || (60 <? override))%Z UTM_ZONE_OVERRIDE_ERROR code in
  if (code =? 0)%Z then (code, mkUtm a f override (utm_tm u)) else (code, u).

Definition Get_UTM_Parameters (u : Utm) : double * double * Z :=
  (UTM_a u, UTM_f u, UTM_Override u).

(** An output argument that is read. *)
Definition written {A} (o : option A) : result A :=
  match o with Some a => Ok a | None => Err UB end.

(** The zone by longitude, with the exceptions of Norway and Svalbard. *)
Definition special_zone (Lat_Degrees Long_Degrees temp_zone : Z) : Z :=
  let between lo hi := (lo <? Long_Degrees)%Z && (Long_Degrees <? hi)%Z in
  let norway := (55 <? Lat_Degrees)%Z && (Lat_Degrees <? 64)%Z in
  let svalbard := (71 <? Lat_Degrees)%Z in
  let z := if norway && between (-1)%Z 3%Z then 31%Z else temp_zone in
  let z := if norway && between 2%Z 12%Z then 32%Z else z in
  let z := if svalbard && between (-1)%Z 9%Z then 31%Z else z in
  let z := if svalbard && between 8%Z 21%Z then 33%Z else z in
  let z := if svalbard && between 20%Z 33%Z then 35%Z else z in
  if svalbard && between 32%Z 42%Z then 37%Z else z.

(** The zone after the override; [None] when the override is refused. *)
Definition override_zone (override Lat_Degrees Long_Degrees temp_zone : Z) : option Z :=
  if (override =? 0)%Z then Some temp_zone
  else if (temp_zone =? 1)%Z && (override =? 60)%Z then Some override
  else if (temp_zone =? 60)%Z && (override =? 1)%Z then Some override
  else if (71 <? Lat_Degrees)%Z && (-1 <? Long_Degrees)%Z && (Long_Degrees <? 42)%Z then
    if (temp_zone - 2 <=? override)%Z && (override <=? temp_zone + 2)%Z
    then Some override else None
  else if (temp_zone - 1 <=? override)%Z && (override <=? temp_zone + 1)%Z
  then Some override else None.

(** The zone of a longitude in [0, 2 PI], and the degrees of the point. *)
Definition utm_zone (Latitude Longitude : double) : result (Z * Z * Z) :=
  Lat_Degrees ← to_long (Latitude * #180 / UTM_PI);
  Long_Degrees ← to_long (Longitude * #180 / UTM_PI);
  temp_zone ← (if Longitude <? UTM_PI
               then to_long (#31 + (Longitude * #180 / UTM_PI) / #6)
               else to_long ((Longitude * #180 / UTM_PI) / #6 - #29));
  let temp_zone := if (60 <? temp_zone)%Z then 1%Z else temp_zone in
  mret (Lat_Degrees, Long_Degrees, special_zone Lat_Degrees Long_Degrees temp_zone).

Definition central_meridian (zone : Z) : double :=
  if (31 <=? zone)%Z then #(6 * zone - 183) * UTM_PI / #180
  else #(6 * zone + 177) * UTM_PI / #180.

Section Utm.
Context `{Libm}.

(** The part of [Convert_Geodetic_To_UTM] for a known zone: the projection and
    the checks of its result. *)
Definition project_to_utm (u : Utm) (Latitude Longitude : double) (zone : Z)
    : result (Z * option (Z * ascii * double * double) * Utm) :=
  let Central_Meridian := central_meridian zone in
  let '(False_Northing, Hemisphere) :=
    if Latitude <? #0 then (#10000000, "S"%char) else (#0, "N"%char) in
  let '(_, tm) := Set_Transverse_Mercator_Parameters (utm_tm u) (UTM_a u) (UTM_f u) #0
                    Central_Meridian #500000 False_Northing (lit 9996 10000) in
  let '(_, out) := Convert_Geodetic_To_Transverse_Mercator tm Latitude Longitude in
  en ← written out;
  let '(Easting, Northing) := en in
  let code := if (Easting <? MIN_EASTING) || (Easting >? MAX_EASTING)
              then UTM_EASTING_ERROR else UTM_NO_ERROR in
  let code := err_if ((Northing <? MIN_NORTHING) || (Northing >? MAX_NORTHING))
                UTM_NORTHING_ERROR code in
  mret (code, Some (zone, Hemisphere, Easting, Northing),
        mkUtm (UTM_a u) (UTM_f u) (UTM_Override u) tm).

(** Returns the code, the outputs if they are written, and the new state. *)
Definition Convert_Geodetic_To_UTM (u : Utm) (Latitude Longitude : double)
    : result (Z * option (Z * ascii * double * double) * Utm) :=
  let code := err_if ((Latitude <? UTM_MIN_LAT) || (Latitude >? UTM_MAX_LAT))
                UTM_LAT_ERROR UTM_NO_ERROR in
  let code := err_if ((Longitude <? - UTM_PI) || (Longitude >? #2 * UTM_PI))
                UTM_LON_ERROR code in
  if (code =? 0)%Z then
    let Latitude :=
      if (Latitude >? - lit 1 1000000000) && (Latitude <? #0) then #0 else Latitude in
    let Longitude :=
      if Longitude <? #0 then Longitude + (#2 * UTM_PI + lit 1 10000000000) else Longitude in
    ddz ← utm_zone Latitude Longitude;
    let '(Lat_Degrees, Long_Degrees, temp_zone) := ddz in
    match override_zone (UTM_Override u) Lat_Degrees Long_Degrees temp_zone with
    | None => mret (UTM_ZONE_OVERRIDE_ERROR, None, u)
    | Some zone => project_to_utm u Latitude Longitude zone
    end
  else mret (code, None, u).

(** Returns the code, [*Latitude] and [*Longitude] if they are written, and the
    new state. *)
Definition Convert_UTM_To_Geodetic (u : Utm) (Zone : Z) (Hemisphere : ascii)
    (Easting Northing : double) : result (Z * option (double * double) * Utm) :=
  let code := err_if ((Zone <? 1) || (60 <? Zone))%Z UTM_ZONE_ERROR UTM_NO_ERROR in
  let code := err_if (negb (Ascii.eqb Hemisphere "S") && negb (Ascii.eqb Hemisphere "N"))
                UTM_HEMISPHERE_ERROR code in
  let code := err_if ((Easting <? MIN_EASTING) || (Easting >? MAX_EASTING))
                UTM_EASTING_ERROR code in
  let code := err_if ((Northing <? MIN_NORTHING) || (Northing >? MAX_NORTHING))
                UTM_NORTHING_ERROR code in
  if (code =? 0)%Z then
    let False_Northing := if Ascii.eqb Hemisphere "S" then #10000000 else #0 in
    let '(_, tm) := Set_Transverse_Mercator_Parameters (utm_tm u) (UTM_a u) (UTM_f u) #0
                      (central_meridian Zone) #500000 False_Northing (lit 9996 10000) in
    let u' := mkUtm (UTM_a u) (UTM_f u) (UTM_Override u) tm in
    let '(tm_code, out) := Convert_Transverse_Mercator_To_Geodetic tm Easting Northing in
    let code := err_if (negb (Z.land tm_code TRANMERC_EASTING_ERROR =? 0)%Z)
                  UTM_EASTING_ERROR code in
    let code := err_if (negb (Z.land tm_code TRANMERC_NORTHING_ERROR =? 0)%Z)
                  UTM_NORTHING_ERROR code in
    ll ← written out;
    let code := err_if ((ll.1 <? UTM_MIN_LAT) || (ll.1 >? UTM_MAX_LAT))
                  UTM_NORTHING_ERROR code in
    mret (code, Some ll, u')
  else mret (code, None, u).
End Utm.

(** ** What a successful conversion guarantees *)

(** The ellipsoid is one that [Set_UTM_Parameters] accepts. *)
Definition utm_ok (u : Utm) : Prop :=
  (UTM_a u <=? #0) = false ∧ (#1 / UTM_f u <? #250) = false ∧ (#1 / UTM_f u >? #350) = false ∧
  (0 <= UTM_Override u <= 60)%Z.

Lemma zone_in_seq z : (1 <= z <= 60)%Z → z ∈ (Z.of_nat <$> seq 1 60).
Proof.
  intros Hz. apply list_elem_of_fmap. exists (Z.to_nat z). split; [lia|].
  apply elem_of_seq. lia.
Qed.

(** The sixty central meridians. *)
Definition meridian_ok (z : Z) : bool :=
  deltas_in_range (normal_meridian (central_meridian z)) &&
  negb (central_meridian z <? - TM_PI) && negb (central_meridian z >? #2 * TM_PI).

Lemma meridians_ok : forallb meridian_ok (Z.of_nat <$> seq 1 60) = true.
Proof. vm_compute. reflexivity. Qed.

Lemma zone_meridian z : (1 <= z <= 60)%Z → meridian_ok z = true.
Proof.
  intros Hz%zone_in_seq. pose proof meridians_ok as Hall. rewrite forallb_forall in Hall.
  by apply Hall, list_elem_of_In.
Qed.

Lemma utm_projection_ok u z :
  utm_ok u → (1 <= z <= 60)%Z →
  tm_parameters_code (UTM_a u) (UTM_f u) #0 (central_meridian z) (lit 9996 10000) = 0%Z.
Proof.
  intros (Ha & Hf1 & Hf2 & _) Hz. apply zone_meridian in Hz.
  apply andb_prop in Hz as [[_ H1%negb_true_iff]%andb_prop H2%negb_true_iff].
  apply tm_parameters_code_zero. split_and!; try done; vm_compute; reflexivity.
Qed.

Lemma utm_projection_fresh `{Libm} u tm tm0 z fn :
  utm_ok u → (1 <= z <= 60)%Z →
  Set_Transverse_Mercator_Parameters tm (UTM_a u) (UTM_f u) #0 (central_meridian z) #500000 fn
    (lit 9996 10000) =
  Set_Transverse_Mercator_Parameters tm0 (UTM_a u) (UTM_f u) #0 (central_meridian z) #500000 fn
    (lit 9996 10000).
Proof.
  intros Hu Hz. apply Set_Transverse_Mercator_Parameters_fresh; [by apply utm_projection_ok|].
  apply zone_meridian in Hz. by apply andb_prop in Hz as [[? _]%andb_prop _].
Qed.

(** A call of [Convert_UTM_To_Geodetic] does not depend on what earlier
    conversions left in the static variables of the projection: for the same
    ellipsoid and any zone in 1 to 60, the code, the coordinates and the new
    variables are the same whatever the old variables were. *)
Theorem utm_to_geodetic_stateless `{Libm} (u : Utm) (tm0 : TranMerc) (z : Z) (h : ascii)
    (e n : double) :
  utm_ok u → (1 <= z <= 60)%Z →
  Convert_UTM_To_Geodetic u z h e n =
    Convert_UTM_To_Geodetic (mkUtm (UTM_a u) (UTM_f u) (UTM_Override u) tm0) z h e n ∨
  (∃ code, code ≠ UTM_NO_ERROR ∧ Convert_UTM_To_Geodetic u z h e n = Ok (code, None, u)).
Proof.
  intros Hu Hz. unfold Convert_UTM_To_Geodetic. cbn [UTM_a UTM_f UTM_Override utm_tm].
  rewrite (utm_projection_fresh u (utm_tm u) tm0 z) by done.
  cbv zeta. match goal with |- (if Z.eqb ?c 0 then _ else _) = _ ∨ _ => destruct (Z.eqb_spec c 0) as [_|Hc] end;
    [left; reflexivity|right]. eexists. split; [exact Hc|reflexivity].
Qed.

Lemma utm_to_geodetic_stateless_witness :
  let u := Utm_init in
  @Convert_UTM_To_Geodetic Libm_zero u 34 "N" #500000 #5000000 =
    @Convert_UTM_To_Geodetic Libm_zero (mkUtm (UTM_a u) (UTM_f u) (UTM_Override u) (tm_at #3)) 34 "N"
      #500000 #5000000 ∨
  (∃ code, code ≠ UTM_NO_ERROR ∧
     @Convert_UTM_To_Geodetic Libm_zero u 34 "N" #500000 #5000000 = Ok (code, None, u)).
Proof.
  apply (@utm_to_geodetic_stateless Libm_zero Utm_init (tm_at #3) 34 "N" #500000 #5000000).
  - split_and!; vm_compute; reflexivity || discriminate.
  - lia.
Defined.

Lemma override_zone_nonzero ov la lo tz z :
  override_zone ov la lo tz = Some z → ov ≠ 0%Z → z = ov.
Proof.
  unfold override_zone. intros H Hov. rewrite (proj2 (Z.eqb_neq _ _) Hov) in H.
  repeat (case_match; try congruence).
Qed.

Lemma project_to_utm_zone `{Libm} u lat lon z code out u' :
  project_to_utm u lat lon z = Ok (code, out, u') → ∃ h e n, out = Some (z, h, e, n).
Proof.
  unfold project_to_utm. cbv zeta.
  destruct (if lat <? #0 then _ else _) as [fn h].
  destruct (Set_Transverse_Mercator_Parameters _ _ _ _ _ _ _ _) as [c tm].
  destruct (Convert_Geodetic_To_Transverse_Mercator tm lat lon) as [c' [[e n]|]]; [|done].
  cbn [written mbind result_bind mret result_ret]. intros E.
  exists h, e, n. injection E as _ <- _. reflexivity.
Qed.

Lemma project_to_utm_ok `{Libm} u lat lon z out u' :
  utm_ok u → (1 <= z <= 60)%Z → project_to_utm u lat lon z = Ok (UTM_NO_ERROR, out, u') →
  ∃ h e n, out = Some (z, h, e, n) ∧ h = (if lat <? #0 then "S"%char else "N"%char) ∧
    (e <? MIN_EASTING) = false ∧ (e >? MAX_EASTING) = false ∧
    (n <? MIN_NORTHING) = false ∧ (n >? MAX_NORTHING) = false ∧
    UTM_a u' = UTM_a u ∧ UTM_f u' = UTM_f u ∧ UTM_Override u' = UTM_Override u ∧
    ∀ tm0, (Set_Transverse_Mercator_Parameters tm0 (UTM_a u) (UTM_f u) #0 (central_meridian z)
      #500000 (if Ascii.eqb h "S" then #10000000 else #0) (lit 9996 10000)).2 = utm_tm u'.
Proof.
  intros Hu Hz Hr. unfold project_to_utm in Hr. cbv zeta in Hr.
  set (fn := if lat <? #0 then #10000000 else #0). set (h := if lat <? #0 then "S"%char else "N"%char).
  assert ((if lat <? #0 then (#10000000, "S"%char) else (#0, "N"%char)) = (fn, h)) as Efh
    by (unfold fn, h; by destruct (lat <? #0)).
  assert ((if Ascii.eqb h "S" then #10000000 else #0) = fn) as Efn
    by (unfold fn, h; by destruct (lat <? #0)).
  rewrite Efh in Hr. clearbody fn h.
  destruct (Set_Transverse_Mercator_Parameters (utm_tm u) _ _ _ _ _ _ _) as [c tm] eqn:Es.
  destruct (Convert_Geodetic_To_Transverse_Mercator tm lat lon) as [c' [[e n]|]]; [|done].
  cbn [written mbind result_bind mret result_ret] in Hr.
  injection Hr as Hcode <- <-.
  apply err_if_zero in Hcode as [Hn He]; [|done]. apply orb_false_iff in Hn as [Hn1 Hn2].
  destruct ((e <? MIN_EASTING) || (e >? MAX_EASTING)) eqn:Ee; [done|].
  apply orb_false_iff in Ee as [He1 He2].
  exists h, e, n. split_and!; try done. intros tm0. cbn [utm_tm]. rewrite Efn.
  rewrite (utm_projection_fresh u tm0 (utm_tm u) z) by done. by rewrite Es.
Qed.

(** When [Convert_Geodetic_To_UTM] reports no error, the latitude and longitude
    were in range; the zone is the override if one is set; the easting and
    northing are inside the limits that [Convert_UTM_To_Geodetic] checks; and, for
    a zone in 1 to 60, the projection the inverse conversion sets up from the
    returned zone and hemisphere is the one the forward conversion used, whatever
    the static variables hold. *)
Theorem geodetic_to_utm_success `{Libm} (u u' : Utm) (lat lon : double)
    (out : option (Z * ascii * double * double)) :
  utm_ok u → Convert_Geodetic_To_UTM u lat lon = Ok (UTM_NO_ERROR, out, u') →
  (∀ z h e n, out = Some (z, h, e, n) → (1 <= z <= 60)%Z) →
  (lat <? UTM_MIN_LAT) = false ∧ (lat >? UTM_MAX_LAT) = false ∧
  (lon <? - UTM_PI) = false ∧ (lon >? #2 * UTM_PI) = false ∧
  ∃ z h e n, out = Some (z, h, e, n) ∧
    (UTM_Override u ≠ 0%Z → z = UTM_Override u) ∧ (h = "S"%char ∨ h = "N"%char) ∧
    (e <? MIN_EASTING) = false ∧ (e >? MAX_EASTING) = false ∧
    (n <? MIN_NORTHING) = false ∧ (n >? MAX_NORTHING) = false ∧
    ∀ tm0, (Set_Transverse_Mercator_Parameters tm0 (UTM_a u) (UTM_f u) #0 (central_meridian z)
      #500000 (if Ascii.eqb h "S" then #10000000 else #0) (lit 9996 10000)).2 = utm_tm u'.
Proof.
  intros Hu Hr Hz. unfold Convert_Geodetic_To_UTM in Hr. cbv zeta in Hr.
  match type of Hr with (if Z.eqb ?c 0 then _ else _) = _ => destruct (Z.eqb_spec c 0) as [Hc|Hc] end;
    [|injection Hr as E _ _; exfalso; exact (Hc E)].
  rewrite !err_if_zero, !orb_false_iff in Hc by done.
  destruct Hc as [[Hlon1 Hlon2] [[Hlat1 Hlat2] _]].
  split_and!; try done. apply result_bind_Ok in Hr as ([[la lo] tz] & _ & Hr).
  destruct (override_zone _ la lo tz) as [z|] eqn:Ez; [|done].
  assert (1 <= z <= 60)%Z as Hz'.
  { destruct (project_to_utm_zone _ _ _ _ _ _ _ Hr) as (h & e & n & ->). by eapply Hz. }
  destruct (project_to_utm_ok _ _ _ _ _ _ Hu Hz' Hr)
    as (h & e & n & -> & Hh & ? & ? & ? & ? & _ & _ & _ & Hp).
  exists z, h, e, n. split_and!; try done.
  - intros Hov. by apply (override_zone_nonzero _ _ _ _ _ Ez).
  - rewrite Hh. repeat case_match; auto.
Qed.

Lemma geodetic_to_utm_success_witness :
  ∃ u' z h e n,
    @Convert_Geodetic_To_UTM Libm_zero Utm_init (lit 1 2) (lit 1 3) =
      Ok (UTM_NO_ERROR, Some (z, h, e, n), u') ∧
    (e <? MIN_EASTING) = false ∧ (e >? MAX_EASTING) = false ∧ z = 34%Z ∧ h = "N"%char.
Proof.
  destruct (@Convert_Geodetic_To_UTM Libm_zero Utm_init (lit 1 2) (lit 1 3)) as [[[code out] u']|err] eqn:E;
    [|vm_compute in E; discriminate E].
  assert (code = UTM_NO_ERROR) as -> by (vm_compute in E; injection E as <- _ _; reflexivity).
  assert (∀ z h e n, out = Some (z, h, e, n) → z = 34%Z ∧ h = "N"%char) as Hout.
  { intros z h e n ->. vm_compute in E. injection E as <- <- _ _ _. split; reflexivity. }
  destruct (@geodetic_to_utm_success Libm_zero Utm_init u' (lit 1 2) (lit 1 3) out)
    as (_ & _ & _ & _ & z & h & e & n & -> & _ & _ & He1 & He2 & _).
  - split_and!; vm_compute; reflexivity || discriminate.
  - exact E.
  - intros z h e n Ho. destruct (Hout z h e n Ho) as [-> _]. lia.
  - destruct (Hout z h e n eq_refl) as [-> ->].
    exists u', 34%Z, "N"%char, e, n. split_and!; [reflexivity|exact He1|exact He2|reflexivity|reflexivity].
Defined.
