(* ===== verification/PolarSt.v ===== *)
(** * [src/libmgrs/polarst.c]: the polar stereographic projection

    The static variables are a record that the functions pass along; an output
    argument is [None] when it is not written.  The iteration for the latitude has a
    bound, since its convergence is a property of the elementary functions. *)
From Stdlib Require Import SpecFloat.
From S2P Require Import Prelude Double Libm TranMerc Utm.

Local Open Scope double_scope.

Definition PS_PI : double := lit 314159265358979323 100000000000000000.
Definition PS_PI_OVER_2 : double := PS_PI / #2.
Definition TWO_PI : double := #2 * PS_PI.
Definition PI_Over_4 : double := PS_PI / #4.

Definition POLAR_NO_ERROR : Z := 0x0000.
Definition POLAR_LAT_ERROR : Z := 0x0001.
Definition POLAR_LON_ERROR : Z := 0x0002.
Definition POLAR_ORIGIN_LAT_ERROR : Z := 0x0004.
Definition POLAR_ORIGIN_LON_ERROR : Z := 0x0008.
Definition POLAR_EASTING_ERROR : Z := 0x0010.
Definition POLAR_NORTHING_ERROR : Z := 0x0020.
Definition POLAR_A_ERROR : Z := 0x0040.
Definition POLAR_INV_F_ERROR : Z := 0x0080.
Definition POLAR_RADIUS_ERROR : Z := 0x0100.

(** [Southern_Hemisphere] is [1] or [0]. *)
Record Polar := mkPolar {
  Polar_a : double;
  Polar_f : double;
  polar_es : double;
  es_OVER_2 : double;
  Southern_Hemisphere : bool;
  polar_tc : double;
  polar_e4 : double;
  Polar_a_mc : double;
  two_Polar_a : double;
  Polar_Origin_Lat : double;
  Polar_Origin_Long : double;
  Polar_False_Easting : double;
  Polar_False_Northing : double;
  Polar_Delta_Easting : double;
  Polar_Delta_Northing : double;
}.

Definition Polar_init : Polar := {|
  Polar_a := #6378137;
  Polar_f := #1 / lit 298257223563 1000000000;
  polar_es := lit 8181919084262188 100000000000000000;
  es_OVER_2 := lit 40909595421311 1000000000000000;
  Southern_Hemisphere := false;
  polar_tc := #1;
  polar_e4 := lit 10033565552493 10000000000000;
  Polar_a_mc := #6378137;
  two_Polar_a := #12756274;
  Polar_Origin_Lat := PS_PI * #90 / #180;
  Polar_Origin_Long := #0;
  Polar_False_Easting := #0;
  Polar_False_Northing := #0;
  Polar_Delta_Easting := #12713601;
  Polar_Delta_Northing := #12713601;
|}.

(** [1.0e-10] *)
Definition polar_eps : double := lit 1 10000000000.

(** The latitude is not that of a pole: [fabs(fabs(lat) - PI_OVER_2) > 1.0e-10] *)
Definition off_pole (lat : double) : bool := fabs (fabs lat - PS_PI_OVER_2) >? polar_eps.

Section Polar.
Context `{Libm}.

Definition POLAR_POW (es_OVER_2 EsSin : double) : double :=
  m_pow ((#1 - EsSin) / (#1 + EsSin)) es_OVER_2.

(** ** [Convert_Geodetic_To_Polar_Stereographic] *)

Definition polar_range_code (p : Polar) (Latitude Longitude : double) : Z :=
  let code := err_if ((Latitude <? - PS_PI_OVER_2) || (Latitude >? PS_PI_OVER_2))
                POLAR_LAT_ERROR POLAR_NO_ERROR in
  let code := err_if ((Latitude <? #0) && negb (Southern_Hemisphere p)) POLAR_LAT_ERROR code in
  let code := err_if ((Latitude >? #0) && Southern_Hemisphere p) POLAR_LAT_ERROR code in
  err_if ((Longitude <? - PS_PI) || (Longitude >? TWO_PI)) POLAR_LON_ERROR code.

(** The distance from the pole of a latitude in the northern hemisphere. *)
Definition polar_rho (p : Polar) (Latitude : double) : double :=
  let essin := polar_es p * m_sin Latitude in
  let pow_es := POLAR_POW (es_OVER_2 p) essin in
  let t := m_tan (PI_Over_4 - Latitude / #2) / pow_es in
  if off_pole (Polar_Origin_Lat p) then Polar_a_mc p * t / polar_tc p
  else two_Polar_a p * t / polar_e4 p.

Definition Convert_Geodetic_To_Polar_Stereographic (p : Polar) (Latitude Longitude : double)
    : Z * option (double * double) :=
  let code := polar_range_code p Latitude Longitude in
  if (code =? 0)%Z then
    if fabs (fabs Latitude - PS_PI_OVER_2) <? polar_eps
    then (code, Some (Polar_False_Easting p, Polar_False_Northing p))
    else
      let '(Longitude, Latitude) :=
        if Southern_Hemisphere p then (Longitude * - #1, Latitude * - #1)
        else (Longitude, Latitude) in
      let dlam := Longitude - Polar_Origin_Long p in
      let dlam := if dlam >? PS_PI then dlam - TWO_PI else dlam in
      let dlam := if dlam <? - PS_PI then dlam + TWO_PI else dlam in
      let rho := polar_rho p Latitude in
      if Southern_Hemisphere p then
        (code, Some (- (rho * m_sin dlam - Polar_False_Easting p),
                     rho * m_cos dlam + Polar_False_Northing p))
      else
        (code, Some (rho * m_sin dlam + Polar_False_Easting p,
                     - rho * m_cos dlam + Polar_False_Northing p))
  else (code, None).

(** ** [Set_Polar_Stereographic_Parameters] *)

Definition polar_parameters_code (a f Latitude_of_True_Scale Longitude_Down_from_Pole : double)
    : Z :=
  let inv_f := #1 / f in
  let code := err_if (a <=? #0) POLAR_A_ERROR POLAR_NO_ERROR in
  let code := err_if ((inv_f <? #250) || (inv_f >? #350)) POLAR_INV_F_ERROR code in
  let code := err_if ((Latitude_of_True_Scale <? - PS_PI_OVER_2) ||
                      (Latitude_of_True_Scale >? PS_PI_OVER_2)) POLAR_ORIGIN_LAT_ERROR code in
  err_if ((Longitude_Down_from_Pole <? - PS_PI) || (Longitude_Down_from_Pole >? TWO_PI))
    POLAR_ORIGIN_LON_ERROR code.

(** The variables before the radius is computed; [lon] is in [-PI, PI]. *)
Definition polar_derived (p : Polar) (a f lat lon False_Easting False_Northing : double) : Polar :=
  let south := lat <? #0 in
  let origin_lat := if south then - lat else lat in
  let origin_lon := if south then - lon else lon in
  let es2 := #2 * f - f * f in
  let es := dsqrt es2 in
  let es_OVER_2 := es / #2 in
  let '(a_mc, tc, e4) :=
    if off_pole origin_lat then
      let slat := m_sin origin_lat in
      let essin := es * slat in
      let pow_es := POLAR_POW es_OVER_2 essin in
      let clat := m_cos origin_lat in
      let mc := clat / dsqrt (#1 - essin * essin) in
      (a * mc, m_tan (PI_Over_4 - origin_lat / #2) / pow_es, polar_e4 p)
    else
      let one_PLUS_es := #1 + es in
      let one_MINUS_es := #1 - es in
      (Polar_a_mc p, polar_tc p,
       dsqrt (m_pow one_PLUS_es one_PLUS_es * m_pow one_MINUS_es one_MINUS_es)) in
  {| Polar_a := a; Polar_f := f; polar_es := es; es_OVER_2 := es_OVER_2;
     Southern_Hemisphere := south; polar_tc := tc; polar_e4 := e4;
     Polar_a_mc := a_mc; two_Polar_a := #2 * a;
     Polar_Origin_Lat := origin_lat; Polar_Origin_Long := origin_lon;
     Polar_False_Easting := False_Easting; Polar_False_Northing := False_Northing;
     Polar_Delta_Easting := Polar_Delta_Easting p;
     Polar_Delta_Northing := Polar_Delta_Northing p |}.

Definition polar_set_deltas (p : Polar) (d : double) : Polar :=
  {| Polar_a := Polar_a p; Polar_f := Polar_f p; polar_es := polar_es p; es_OVER_2 := es_OVER_2 p;
     Southern_Hemisphere := Southern_Hemisphere p; polar_tc := polar_tc p; polar_e4 := polar_e4 p;
     Polar_a_mc := Polar_a_mc p; two_Polar_a := two_Polar_a p;
     Polar_Origin_Lat := Polar_Origin_Lat p; Polar_Origin_Long := Polar_Origin_Long p;
     Polar_False_Easting := Polar_False_Easting p; Polar_False_Northing := Polar_False_Northing p;
     Polar_Delta_Easting := d; Polar_Delta_Northing := d |}.

Definition Set_Polar_Stereographic_Parameters (p : Polar)
    (a f Latitude_of_True_Scale Longitude_Down_from_Pole False_Easting False_Northing : double)
    : result (Z * Polar) :=
  let code := polar_parameters_code a f Latitude_of_True_Scale Longitude_Down_from_Pole in
  if (code =? 0)%Z then
    let lon := if Longitude_Down_from_Pole >? PS_PI then Longitude_Down_from_Pole - TWO_PI
               else Longitude_Down_from_Pole in
    let p' := polar_derived p a f Latitude_of_True_Scale lon False_Easting False_Northing in
    en ← written (Convert_Geodetic_To_Polar_Stereographic p' #0 lon).2;
    let d := en.2 in
    let d := if deq (Polar_False_Northing p') #0 then d else d - Polar_False_Northing p' in
    let d := if d <? #0 then - d else d in
    let d := d * lit 101 100 in
    mret (code, polar_set_deltas p' d)
  else mret (code, p).

Definition Get_Polar_Stereographic_Parameters (p : Polar)
    : double * double * double * double * double * double :=
  (Polar_a p, Polar_f p, Polar_Origin_Lat p, Polar_Origin_Long p,
   Polar_False_Easting p, Polar_False_Northing p).

(** ** [Convert_Polar_Stereographic_To_Geodetic] *)

(** [while (fabs(PHI - tempPHI) > 1.0e-10)] *)
Fixpoint polar_latitude (fuel : nat) (p : Polar) (t PHI tempPHI : double) : result double :=
  match fuel with
  | O => Err Diverge
  | S fuel' =>
      if fabs (PHI - tempPHI) >? polar_eps then
        let sin_PHI := m_sin PHI in
        let essin := polar_es p * sin_PHI in
        let pow_es := POLAR_POW (es_OVER_2 p) essin in
        polar_latitude fuel' p t (PS_PI_OVER_2 - #2 * m_atan (t * pow_es)) PHI
      else mret PHI
  end.

(** The two comparisons that force a value into [-limit, limit]. *)
Definition forced (limit x : double) : double :=
  if x >? limit then limit else if x <? - limit then - limit else x.

(** A point off the centre, [dx], [dy] away. *)
Definition polar_inverse (fuel : nat) (p : Polar) (rho dx dy : double) : result (double * double) :=
  let '(dy, dx) := if Southern_Hemisphere p then (dy * - #1, dx * - #1) else (dy, dx) in
  let t := if off_pole (Polar_Origin_Lat p) then rho * polar_tc p / Polar_a_mc p
           else rho * polar_e4 p / two_Polar_a p in
  Latitude ← polar_latitude fuel p t (PS_PI_OVER_2 - #2 * m_atan t) #0;
  let Longitude := Polar_Origin_Long p + m_atan2 dx (- dy) in
  let Longitude := if Longitude >? PS_PI then Longitude - TWO_PI
                   else if Longitude <? - PS_PI then Longitude + TWO_PI else Longitude in
  mret (forced PS_PI_OVER_2 Latitude, forced PS_PI Longitude).

Definition Convert_Polar_Stereographic_To_Geodetic (fuel : nat) (p : Polar)
    (Easting Northing : double) : result (Z * option (double * double)) :=
  let min_easting := Polar_False_Easting p - Polar_Delta_Easting p in
  let max_easting := Polar_False_Easting p + Polar_Delta_Easting p in
  let min_northing := Polar_False_Northing p - Polar_Delta_Northing p in
  let max_northing := Polar_False_Northing p + Polar_Delta_Northing p in
  let code := err_if ((Easting >? max_easting) || (Easting <? min_easting))
                POLAR_EASTING_ERROR POLAR_NO_ERROR in
  let code := err_if ((Northing >? max_northing) || (Northing <? min_northing))
                POLAR_NORTHING_ERROR code in
  if (code =? 0)%Z then
    let dy := Northing - Polar_False_Northing p in
    let dx := Easting - Polar_False_Easting p in
    let rho := dsqrt (dx * dx + dy * dy) in
    let delta_radius := dsqrt (Polar_Delta_Easting p * Polar_Delta_Easting p +
                               Polar_Delta_Northing p * Polar_Delta_Northing p) in
    let code := err_if (rho >? delta_radius) POLAR_RADIUS_ERROR code in
    if (code =? 0)%Z then
      ll ← (if deq dy #0 && deq dx #0 then mret (PS_PI_OVER_2, Polar_Origin_Long p)
            else polar_inverse fuel p rho dx dy);
      mret (code, Some (if Southern_Hemisphere p then (ll.1 * - #1, ll.2 * - #1) else ll))
    else mret (code, None)
  else mret (code, None).
End Polar.
