(* ===== verification/Ups.v ===== *)
(** * [src/libmgrs/ups.c]: universal polar stereographic coordinates *)
From Stdlib Require Import SpecFloat Ascii.
From S2P Require Import Prelude Double Libm TranMerc Utm PolarSt.

Local Open Scope double_scope.

Definition UPS_PI : double := lit 314159265358979323 100000000000000000.
Definition UPS_MAX_LAT : double := (UPS_PI * #90) / #180.
Definition MAX_ORIGIN_LAT : double := (lit 81114528 1000000 * UPS_PI) / #180.
Definition MIN_NORTH_LAT : double := lit 835 10 * UPS_PI / #180.
Definition MIN_SOUTH_LAT : double := - (lit 795 10) * UPS_PI / #180.
Definition MIN_EAST_NORTH : double := #0.
Definition MAX_EAST_NORTH : double := #4000000.

Abbreviation UPS_NO_ERROR := 0x0000%Z (only parsing).
Abbreviation UPS_LAT_ERROR := 0x0001%Z (only parsing).
Abbreviation UPS_LON_ERROR := 0x0002%Z (only parsing).
Abbreviation UPS_HEMISPHERE_ERROR := 0x0004%Z (only parsing).
Abbreviation UPS_EASTING_ERROR := 0x0008%Z (only parsing).
Abbreviation UPS_NORTHING_ERROR := 0x0010%Z (only parsing).
Abbreviation UPS_A_ERROR := 0x0020%Z (only parsing).
Abbreviation UPS_INV_F_ERROR := 0x0040%Z (only parsing).

Definition UPS_False_Easting : double := #2000000.
Definition UPS_False_Northing : double := #2000000.
Definition UPS_Origin_Longitude : double := #0.

(** The static variables, with those of [polarst.c] *)
Record Ups := mkUps {
  UPS_a : double;
  UPS_f : double;
  UPS_Origin_Latitude : double;
  ups_polar : Polar;
}.

Definition Ups_init : Ups :=
  mkUps #6378137 (#1 / lit 298257223563 1000000000) MAX_ORIGIN_LAT Polar_init.

Definition Set_UPS_Parameters (u : Ups) (a f : double) : Z * Ups :=
  let inv_f := #1 / f in
  let code := err_if (a <=? #0) UPS_A_ERROR UPS_NO_ERROR in
  let code := err_if ((inv_f <? #250) || (inv_f >? #350)) UPS_INV_F_ERROR code in
  if (code =? 0)%Z then (code, mkUps a f (UPS_Origin_Latitude u) (ups_polar u)) else (code, u).

Definition Get_UPS_Parameters (u : Ups) : double * double := (UPS_a u, UPS_f u).

(** The latitude lies between the two polar regions. *)
Definition outside_caps (Latitude : double) (code : Z) : Z :=
  let code := err_if ((Latitude <? #0) && (Latitude >? MIN_SOUTH_LAT)) UPS_LAT_ERROR code in
  err_if ((Latitude >=? #0) && (Latitude <? MIN_NORTH_LAT)) UPS_LAT_ERROR code.

Section Ups.
Context `{Libm}.

(** The call of [Set_Polar_Stereographic_Parameters] of both conversions; its
    error code is not looked at. *)
Definition ups_set_polar (u : Ups) : result Ups :=
  r ← Set_Polar_Stereographic_Parameters (ups_polar u) (UPS_a u) (UPS_f u)
        (UPS_Origin_Latitude u) UPS_Origin_Longitude UPS_False_Easting UPS_False_Northing;
  mret (mkUps (UPS_a u) (UPS_f u) (UPS_Origin_Latitude u) r.2).

Definition ups_range_code (Latitude Longitude : double) : Z :=
  let code := err_if ((Latitude <? - UPS_MAX_LAT) || (Latitude >? UPS_MAX_LAT))
                UPS_LAT_ERROR UPS_NO_ERROR in
  let code := outside_caps Latitude code in
  err_if ((Longitude <? - UPS_PI) || (Longitude >? #2 * UPS_PI)) UPS_LON_ERROR code.

(** The hemisphere, the easting and the northing are written when there is no error. *)
Definition Convert_Geodetic_To_UPS (u : Ups) (Latitude Longitude : double)
    : result (Z * option (ascii * double * double) * Ups) :=
  let code := ups_range_code Latitude Longitude in
  if (code =? 0)%Z then
    let '(origin, Hemisphere) :=
      if Latitude <? #0 then (- MAX_ORIGIN_LAT, "S"%char) else (MAX_ORIGIN_LAT, "N"%char) in
    u' ← ups_set_polar (mkUps (UPS_a u) (UPS_f u) origin (ups_polar u));
    en ← written (Convert_Geodetic_To_Polar_Stereographic (ups_polar u') Latitude Longitude).2;
    mret (code, Some (Hemisphere, en.1, en.2), u')
  else mret (code, None, u).

Definition ups_hemisphere_origin (Hemisphere : ascii) (before : double) : double :=
  if (Hemisphere =? "N")%char then MAX_ORIGIN_LAT
  else if (Hemisphere =? "S")%char then - MAX_ORIGIN_LAT else before.

Definition ups_coordinates_code (Hemisphere : ascii) (Easting Northing : double) : Z :=
  let code := err_if (negb (Hemisphere =? "N")%char && negb (Hemisphere =? "S")%char)
                UPS_HEMISPHERE_ERROR UPS_NO_ERROR in
  let code := err_if ((Easting <? MIN_EAST_NORTH) || (Easting >? MAX_EAST_NORTH))
                UPS_EASTING_ERROR code in
  err_if ((Northing <? MIN_EAST_NORTH) || (Northing >? MAX_EAST_NORTH)) UPS_NORTHING_ERROR code.

(** [before] holds the values [*Latitude] and [*Longitude] at the call, if they have any:
    the final comparisons read them when the projection did not write them. *)
Definition Convert_UPS_To_Geodetic (fuel : nat) (u : Ups) (Hemisphere : ascii)
    (Easting Northing : double) (before : option (double * double))
    : result (Z * option (double * double) * Ups) :=
  let code := ups_coordinates_code Hemisphere Easting Northing in
  let origin := ups_hemisphere_origin Hemisphere (UPS_Origin_Latitude u) in
  let u := mkUps (UPS_a u) (UPS_f u) origin (ups_polar u) in
  if (code =? 0)%Z then
    u' ← ups_set_polar u;
    r ← Convert_Polar_Stereographic_To_Geodetic fuel (ups_polar u') Easting Northing;
    ll ← written (match r.2 with Some ll => Some ll | None => before end);
    mret (outside_caps ll.1 code, Some ll, u')
  else mret (code, before, u).
End Ups.
