(* ===== verification/Mgrs.v ===== *)
(** * [src/libmgrs/mgrs.c]: military grid reference strings

    A grid reference is an optional zone number, three letters and the digits of an
    easting and a northing inside a square of 100 km.  Strings are lists of characters
    without the final null; an output argument is [None] when it is not written, and an
    index outside a table is undefined behaviour. *)
From Stdlib Require Import SpecFloat Ascii String.
From S2P Require Import Prelude Double Libm Text TranMerc Utm PolarSt Ups.

Local Open Scope double_scope.

Definition DEG_TO_RAD : double := lit 17453292519943295 1000000000000000000.
Definition RAD_TO_DEG : double := lit 5729577951308232087 100000000000000000.

(** The macros of the letters and of the error codes. *)
Abbreviation LETTER_A := 0%Z (only parsing).
Abbreviation LETTER_B := 1%Z (only parsing).
Abbreviation LETTER_C := 2%Z (only parsing).
Abbreviation LETTER_D := 3%Z (only parsing).
Abbreviation LETTER_E := 4%Z (only parsing).
Abbreviation LETTER_F := 5%Z (only parsing).
Abbreviation LETTER_G := 6%Z (only parsing).
Abbreviation LETTER_H := 7%Z (only parsing).
Abbreviation LETTER_I := 8%Z (only parsing).
Abbreviation LETTER_J := 9%Z (only parsing).
Abbreviation LETTER_K := 10%Z (only parsing).
Abbreviation LETTER_L := 11%Z (only parsing).
Abbreviation LETTER_M := 12%Z (only parsing).
Abbreviation LETTER_N := 13%Z (only parsing).
Abbreviation LETTER_O := 14%Z (only parsing).
Abbreviation LETTER_P := 15%Z (only parsing).
Abbreviation LETTER_Q := 16%Z (only parsing).
Abbreviation LETTER_R := 17%Z (only parsing).
Abbreviation LETTER_S := 18%Z (only parsing).
Abbreviation LETTER_T := 19%Z (only parsing).
Abbreviation LETTER_U := 20%Z (only parsing).
Abbreviation LETTER_V := 21%Z (only parsing).
Abbreviation LETTER_W := 22%Z (only parsing).
Abbreviation LETTER_X := 23%Z (only parsing).
Abbreviation LETTER_Y := 24%Z (only parsing).
Abbreviation LETTER_Z := 25%Z (only parsing).

Definition ONEHT : double := #100000.
Definition TWOMIL : double := #2000000.
Definition MGRS_PI : double := lit 314159265358979323 100000000000000000.
Definition MGRS_PI_OVER_2 : double := MGRS_PI / #2.
Definition MAX_PRECISION : Z := 5.
Definition MIN_UTM_LAT : double := (- #80 * MGRS_PI) / #180.
Definition MAX_UTM_LAT : double := (#84 * MGRS_PI) / #180.

Abbreviation MGRS_NO_ERROR := 0x0000%Z (only parsing).
Abbreviation MGRS_LAT_ERROR := 0x0001%Z (only parsing).
Abbreviation MGRS_LON_ERROR := 0x0002%Z (only parsing).
Abbreviation MGRS_STRING_ERROR := 0x0004%Z (only parsing).
Abbreviation MGRS_PRECISION_ERROR := 0x0008%Z (only parsing).
Abbreviation MGRS_A_ERROR := 0x0010%Z (only parsing).
Abbreviation MGRS_INV_F_ERROR := 0x0020%Z (only parsing).
Abbreviation MGRS_EASTING_ERROR := 0x0040%Z (only parsing).
Abbreviation MGRS_NORTHING_ERROR := 0x0080%Z (only parsing).
Abbreviation MGRS_ZONE_ERROR := 0x0100%Z (only parsing).
Abbreviation MGRS_HEMISPHERE_ERROR := 0x0200%Z (only parsing).
Definition MGRS_LAT_WARNING : Z := 0x0400.

(** The global variables, with those of the projections *)
Record Mgrs := mkMgrs {
  MGRS_a : double;
  MGRS_f : double;
  MGRS_Ellipsoid_Code : string;
  mgrs_utm : Utm;
  mgrs_ups : Ups;
}.

Definition Mgrs_init : Mgrs :=
  mkMgrs #6378137 (#1 / lit 298257223563 1000000000) "WE" Utm_init Ups_init.

Definition with_utm (m : Mgrs) (u : Utm) : Mgrs :=
  mkMgrs (MGRS_a m) (MGRS_f m) (MGRS_Ellipsoid_Code m) u (mgrs_ups m).
Definition with_ups (m : Mgrs) (u : Ups) : Mgrs :=
  mkMgrs (MGRS_a m) (MGRS_f m) (MGRS_Ellipsoid_Code m) (mgrs_utm m) u.

Definition CLARKE_1866 : string := "CC".
Definition CLARKE_1880 : string := "CD".
Definition BESSEL_1841 : string := "BR".
Definition BESSEL_1841_NAMIBIA : string := "BN".

(** ** The tables *)

Record Latitude_Band := mkBand {
  band_letter : Z;
  min_northing : double;
  north : double;
  south : double;
  northing_offset : double;
}.

Definition Latitude_Band_Table : list Latitude_Band :=
  [mkBand LETTER_C #1100000 (- #72) (- lit 805 10) #0;
   mkBand LETTER_D #2000000 (- #64) (- #72) #2000000;
   mkBand LETTER_E #2800000 (- #56) (- #64) #2000000;
   mkBand LETTER_F #3700000 (- #48) (- #56) #2000000;
   mkBand LETTER_G #4600000 (- #40) (- #48) #4000000;
   mkBand LETTER_H #5500000 (- #32) (- #40) #4000000;
   mkBand LETTER_J #6400000 (- #24) (- #32) #6000000;
   mkBand LETTER_K #7300000 (- #16) (- #24) #6000000;
   mkBand LETTER_L #8200000 (- #8) (- #16) #8000000;
   mkBand LETTER_M #9100000 #0 (- #8) #8000000;
   mkBand LETTER_N #0 #8 #0 #0;
   mkBand LETTER_P #800000 #16 #8 #0;
   mkBand LETTER_Q #1700000 #24 #16 #0;
   mkBand LETTER_R #2600000 #32 #24 #2000000;
   mkBand LETTER_S #3500000 #40 #32 #2000000;
   mkBand LETTER_T #4400000 #48 #40 #4000000;
   mkBand LETTER_U #5300000 #56 #48 #4000000;
   mkBand LETTER_V #6200000 #64 #56 #6000000;
   mkBand LETTER_W #7000000 #72 #64 #6000000;
   mkBand LETTER_X #7900000 (lit 845 10) #72 #6000000].

Record UPS_Constant := mkConstant {
  constant_letter : Z;
  ltr2_low_value : Z;
  ltr2_high_value : Z;
  ltr3_high_value : Z;
  false_easting : double;
  false_northing : double;
}.

Definition UPS_Constant_Table : list UPS_Constant :=
  [mkConstant LETTER_A LETTER_J LETTER_Z LETTER_Z #800000 #800000;
   mkConstant LETTER_B LETTER_A LETTER_R LETTER_Z #2000000 #800000;
   mkConstant LETTER_Y LETTER_J LETTER_Z LETTER_P #800000 #1300000;
   mkConstant LETTER_Z LETTER_A LETTER_J LETTER_P #2000000 #1300000].

(** [table[i]] *)
Definition table_at {A} (table : list A) (i : Z) : result A :=
  if (i <? 0)%Z then Err UB
  else match table !! Z.to_nat i with Some a => Ok a | None => Err UB end.

(** The entry of a latitude band letter, found by skipping the letters I and O. *)
Definition latitude_band (letter : Z) : result (option Latitude_Band) :=
  if ((LETTER_C <=? letter) && (letter <=? LETTER_H))%Z
  then Some <$> table_at Latitude_Band_Table (letter - 2)
  else if ((LETTER_J <=? letter) && (letter <=? LETTER_N))%Z
  then Some <$> table_at Latitude_Band_Table (letter - 3)
  else if ((LETTER_P <=? letter) && (letter <=? LETTER_X))%Z
  then Some <$> table_at Latitude_Band_Table (letter - 4)
  else Ok None.

Definition Get_Latitude_Band_Min_Northing (letter : Z) : result (Z * option (double * double)) :=
  b ← latitude_band letter;
  mret match b with
       | Some b => (MGRS_NO_ERROR, Some (min_northing b, northing_offset b))
       | None => (MGRS_STRING_ERROR, None)
       end.

Definition Get_Latitude_Range (letter : Z) : result (Z * option (double * double)) :=
  b ← latitude_band letter;
  mret match b with
       | Some b => (MGRS_NO_ERROR, Some (north b * DEG_TO_RAD, south b * DEG_TO_RAD))
       | None => (MGRS_STRING_ERROR, None)
       end.

Definition Get_Latitude_Letter (latitude : double) : result (Z * option Z) :=
  let lat_deg := latitude * RAD_TO_DEG in
  if (lat_deg >=? #72) && (lat_deg <? lit 845 10) then mret (MGRS_NO_ERROR, Some LETTER_X)
  else if (lat_deg >? - lit 805 10) && (lat_deg <? #72) then
    let temp := (latitude + #80 * DEG_TO_RAD) / (#8 * DEG_TO_RAD) + lit 1 1000000000000 in
    i ← to_int temp;
    b ← table_at Latitude_Band_Table i;
    mret (MGRS_NO_ERROR, Some (band_letter b))
  else mret (MGRS_LAT_ERROR, None).

(** ** Strings *)

Definition isdigit (c : ascii) : bool := ((48 <=? code c) && (code c <=? 57))%Z.
Definition isalpha (c : ascii) : bool :=
  ((65 <=? code c) && (code c <=? 90) || (97 <=? code c) && (code c <=? 122))%Z.
Definition toupper (c : ascii) : Z :=
  (if (97 <=? code c) && (code c <=? 122) then code c - 32 else code c)%Z.

(** [while (p(MGRS[i])) i++]: the characters passed over and the rest *)
Fixpoint span (p : ascii → bool) (s : list ascii) : list ascii * list ascii :=
  match s with
  | c :: s' => if p c then let '(a, b) := span p s' in (c :: a, b) else ([], s)
  | [] => ([], [])
  end.

Definition is_blank (c : ascii) : bool := Ascii.eqb c " ".

Definition Check_Zone (MGRS : list ascii) : Z * option bool :=
  let s := (span is_blank MGRS).2 in
  let num_digits := List.length (span isdigit s).1 in
  if (num_digits <=? 2)%nat then (MGRS_NO_ERROR, Some (0 <? num_digits)%nat)
  else (MGRS_STRING_ERROR, None).

(** [sprintf] with [%*.*ld], width and precision being the same: nothing for zero at
    precision zero *)
Definition print_digits (precision : nat) (v : Z) : list ascii :=
  if (precision =? 0)%nat && (v =? 0)%Z then []
  else list_ascii_of_string (padded precision v).

(** The array holds the null at its end too. *)
Definition alphabet : list ascii :=
  list_ascii_of_string "ABCDEFGHIJKLMNOPQRSTUVWXYZ" ++ [ascii_of_nat 0].

Definition letters := (Z * Z * Z)%type.

Section Strings.
Context `{Libm}.

(** The coordinate inside its square, in units of the last digit printed. *)
Definition grid_number (coordinate divisor : double) : result Z :=
  let x := m_fmod coordinate #100000 in
  let x := if x >=? lit 999995 10 then #99999 else x in
  to_long (x / divisor).

(** [Make_MGRS_String]: with zone zero the two blanks written first are overwritten by
    the letters. *)
Definition Make_MGRS_String (Zone : Z) (Letters : letters) (Easting Northing : double)
    (Precision : Z) : result (list ascii) :=
  let zone_digits :=
    if (Zone =? 0)%Z then [] else list_ascii_of_string (padded 2 Zone) in
  let '(l0, l1, l2) := Letters in
  c0 ← table_at alphabet l0;
  c1 ← table_at alphabet l1;
  c2 ← table_at alphabet l2;
  let divisor := m_pow #10 (of_Z (5 - Precision)) in
  east ← grid_number Easting divisor;
  north ← grid_number Northing divisor;
  let p := Z.to_nat Precision in
  mret (zone_digits ++ [c0; c1; c2] ++ print_digits p east ++ print_digits p north).

(** What [Break_MGRS_String] has written when it returns *)
Record Broken := mkBroken {
  broken_zone : option Z;
  broken_letters : option letters;
  broken_coordinates : option (double * double);
  broken_precision : option Z;
}.

Definition break_zone (digits : list ascii) (after : list ascii) : Z * option Z :=
  let num_digits := List.length digits in
  if (num_digits <=? 2)%nat then
    if (0 <? num_digits)%nat then
      let Zone := strtoimax (take 2 (digits ++ after)) in
      (err_if ((Zone <? 1) || (60 <? Zone))%Z MGRS_STRING_ERROR 0, Some Zone)
    else (0%Z, Some 0%Z)
  else (MGRS_STRING_ERROR, None).

Definition is_I_or_O (l : Z) : bool := ((l =? LETTER_I) || (l =? LETTER_O))%Z.

Definition break_letters (ls : list ascii) (code : Z) : Z * option letters :=
  match ls with
  | [c0; c1; c2] =>
      let l0 := (toupper c0 - 65)%Z in
      let l1 := (toupper c1 - 65)%Z in
      let l2 := (toupper c2 - 65)%Z in
      let code := err_if (is_I_or_O l0) MGRS_STRING_ERROR code in
      let code := err_if (is_I_or_O l1) MGRS_STRING_ERROR code in
      let code := err_if (is_I_or_O l2) MGRS_STRING_ERROR code in
      (code, Some (l0, l1, l2))
  | _ => (Z.lor code MGRS_STRING_ERROR, None)
  end.

Definition break_digits (digits : list ascii) (code : Z)
    : Z * option Z * option (double * double) :=
  let num_digits := List.length digits in
  if (num_digits <=? 10)%nat && Nat.even num_digits then
    let n := (num_digits / 2)%nat in
    if (0 <? n)%nat then
      let east := strtoimax (take n digits) in
      let north := strtoimax (take n (drop n digits)) in
      let multiplier := m_pow #10 (of_Z (5 - Z.of_nat n)) in
      (code, Some (Z.of_nat n), Some (of_Z east * multiplier, of_Z north * multiplier))
    else (code, Some 0%Z, Some (#0, #0))
  else (Z.lor code MGRS_STRING_ERROR, None, None).

Definition Break_MGRS_String (MGRS : list ascii) : Z * Broken :=
  let s := (span is_blank MGRS).2 in
  let '(zone_digits, s) := span isdigit s in
  let '(code, zone) := break_zone zone_digits s in
  let '(ls, s) := span isalpha s in
  let '(code, ltrs) := break_letters ls code in
  let '(digits, _) := span isdigit s in
  let '(code, precision, coordinates) := break_digits digits code in
  (code, mkBroken zone ltrs coordinates precision).
End Strings.

(** ** [Get_Grid_Values] *)

Definition aa_pattern (ellipsoid : string) : bool :=
  negb (String.eqb ellipsoid CLARKE_1866 || String.eqb ellipsoid CLARKE_1880 ||
        String.eqb ellipsoid BESSEL_1841 || String.eqb ellipsoid BESSEL_1841_NAMIBIA).

(** The range of the second letter and the pattern offset; a set number outside one to
    six, from a negative zone, leaves the range unwritten. *)
Definition Get_Grid_Values (ellipsoid : string) (zone : Z) : result (Z * Z * double) :=
  let set_number := Z.rem zone 6 in
  let set_number := (if set_number =? 0 then 6 else set_number)%Z in
  let even := (Z.rem set_number 2 =? 0)%Z in
  let pattern_offset :=
    if aa_pattern ellipsoid then (if even then #500000 else #0)
    else if even then #1500000 else #1000000 in
  range ← (if ((set_number =? 1) || (set_number =? 4))%Z then Ok (LETTER_A, LETTER_H)
           else if ((set_number =? 2) || (set_number =? 5))%Z then Ok (LETTER_J, LETTER_R)
           else if ((set_number =? 3) || (set_number =? 6))%Z then Ok (LETTER_S, LETTER_Z)
           else Err UB);
  mret (range, pattern_offset).

(** ** Error codes of the projections *)

(** [if (from & bit) code |= to], for each pair of bits *)
Definition translate (from : Z) (bits : list (Z * Z)) (code : Z) : Z :=
  foldl (λ code '(bit, to), err_if (negb (Z.land from bit =? 0))%Z to code) code bits.

Definition utm_parameter_bits : list (Z * Z) :=
  [(UTM_A_ERROR, MGRS_A_ERROR); (UTM_INV_F_ERROR, MGRS_INV_F_ERROR);
   (UTM_ZONE_OVERRIDE_ERROR, MGRS_ZONE_ERROR)].
Definition utm_forward_bits : list (Z * Z) :=
  [(UTM_LAT_ERROR, MGRS_LAT_ERROR); (UTM_LON_ERROR, MGRS_LON_ERROR);
   (UTM_ZONE_OVERRIDE_ERROR, MGRS_ZONE_ERROR); (UTM_EASTING_ERROR, MGRS_EASTING_ERROR);
   (UTM_NORTHING_ERROR, MGRS_NORTHING_ERROR)].
Definition utm_inverse_bits : list (Z * Z) :=
  [(UTM_ZONE_ERROR, MGRS_STRING_ERROR); (UTM_HEMISPHERE_ERROR, MGRS_STRING_ERROR);
   (UTM_EASTING_ERROR, MGRS_EASTING_ERROR); (UTM_NORTHING_ERROR, MGRS_NORTHING_ERROR)].
Definition ups_parameter_bits : list (Z * Z) :=
  [(UPS_A_ERROR, MGRS_A_ERROR); (UPS_INV_F_ERROR, MGRS_INV_F_ERROR)].
Definition ups_forward_bits : list (Z * Z) :=
  [(UPS_LAT_ERROR, MGRS_LAT_ERROR); (UPS_LON_ERROR, MGRS_LON_ERROR)].
Definition ups_inverse_bits : list (Z * Z) :=
  [(UPS_HEMISPHERE_ERROR, MGRS_STRING_ERROR); (UPS_EASTING_ERROR, MGRS_EASTING_ERROR);
   (UPS_LAT_ERROR, MGRS_NORTHING_ERROR)].

(** ** Parameters *)

(** [strcpy] into an array of three characters *)
Definition Set_MGRS_Parameters (m : Mgrs) (a f : double) (Ellipsoid_Code : string)
    : result (Z * Mgrs) :=
  let inv_f := #1 / f in
  let code := err_if (a <=? #0) MGRS_A_ERROR MGRS_NO_ERROR in
  let code := err_if ((inv_f <? #250) || (inv_f >? #350)) MGRS_INV_F_ERROR code in
  if (code =? 0)%Z then
    if (String.length Ellipsoid_Code <=? 2)%nat
    then mret (code, mkMgrs a f Ellipsoid_Code (mgrs_utm m) (mgrs_ups m))
    else Err UB
  else mret (code, m).

Definition Get_MGRS_Parameters (m : Mgrs) : double * double * string :=
  (MGRS_a m, MGRS_f m, MGRS_Ellipsoid_Code m).

(** ** The letters of a square *)

(** [while (grid_northing >= TWOMIL)]; the callers give at most ten million metres,
    which takes five turns. *)
Fixpoint below_two_million (fuel : nat) (x : double) : result double :=
  match fuel with
  | O => Err Diverge
  | S fuel' => if x >=? TWOMIL then below_two_million fuel' (x - TWOMIL) else mret x
  end.

(** The letter of a count of squares, skipping I and O. *)
Definition skip_I_O (l : Z) : Z :=
  let l := (if LETTER_H <? l then l + 1 else l)%Z in
  (if LETTER_N <? l then l + 1 else l)%Z.

Definition utm_row_letter (Northing pattern_offset : double) : result Z :=
  x ← below_two_million 6 Northing;
  let x := x + pattern_offset in
  let x := if x >=? TWOMIL then x - TWOMIL else x in
  n ← to_long (x / ONEHT);
  mret (skip_I_O n).

Definition utm_column_letter (low : Z) (grid_easting : double) : result Z :=
  n ← to_long (grid_easting / ONEHT);
  let l := (low + (n - 1))%Z in
  mret (if ((low =? LETTER_J) && (LETTER_N <? l)) then l + 1 else l)%Z.

(** The coordinates of the south-west corner of the square of two letters. *)
Definition utm_grid_easting (low l1 : Z) : double :=
  let e := of_Z (l1 - low + 1) * ONEHT in
  if ((low =? LETTER_J) && (LETTER_O <? l1))%Z then e - ONEHT else e.

Definition utm_row_northing (l2 : Z) : double :=
  let r := of_Z l2 * ONEHT in
  let r := if (LETTER_O <? l2)%Z then r - ONEHT else r in
  let r := if (LETTER_I <? l2)%Z then r - ONEHT else r in
  if r >=? TWOMIL then r - TWOMIL else r.

Definition utm_grid_northing (l2 : Z) (pattern_offset northing_offset min_northing : double)
    : double :=
  let g := utm_row_northing l2 - pattern_offset in
  let g := if g <? #0 then g + TWOMIL else g in
  let g := g + northing_offset in
  if g <? min_northing then g + TWOMIL else g.

(** ** Universal polar stereographic *)

Definition ups_row_letter (c : UPS_Constant) (Northing : double) : result Z :=
  n ← to_long ((Northing - false_northing c) / ONEHT);
  mret (skip_I_O n).

Definition ups_column_letter (c : UPS_Constant) (Easting : double) : result Z :=
  n ← to_long ((Easting - false_easting c) / ONEHT);
  let l := (ltr2_low_value c + n)%Z in
  mret (if Easting <? TWOMIL then
          let l := (if LETTER_L <? l then l + 3 else l)%Z in
          (if LETTER_U <? l then l + 2 else l)%Z
        else
          let l := (if LETTER_C <? l then l + 2 else l)%Z in
          let l := (if LETTER_H <? l then l + 1 else l)%Z in
          (if LETTER_L <? l then l + 3 else l)%Z).

Definition ups_grid_northing (c : UPS_Constant) (l2 : Z) : double :=
  let g := of_Z l2 * ONEHT + false_northing c in
  let g := if (LETTER_I <? l2)%Z then g - ONEHT else g in
  if (LETTER_O <? l2)%Z then g - ONEHT else g.

Definition ups_grid_easting (c : UPS_Constant) (l1 : Z) : double :=
  let g := of_Z (l1 - ltr2_low_value c) * ONEHT + false_easting c in
  if negb (ltr2_low_value c =? LETTER_A)%Z then
    let g := if (LETTER_L <? l1)%Z then g - #300000 else g in
    if (LETTER_U <? l1)%Z then g - #200000 else g
  else
    let g := if (LETTER_C <? l1)%Z then g - #200000 else g in
    let g := if (LETTER_I <? l1)%Z then g - ONEHT else g in
    if (LETTER_L <? l1)%Z then g - #300000 else g.

Definition ups_bad_letters (c : UPS_Constant) (l1 l2 : Z) : bool :=
  ((l1 <? ltr2_low_value c) || (ltr2_high_value c <? l1) ||
   ((l1 =? LETTER_D) || (l1 =? LETTER_E) || (l1 =? LETTER_M) || (l1 =? LETTER_N) ||
    (l1 =? LETTER_V) || (l1 =? LETTER_W)) || (ltr3_high_value c <? l2))%Z.

Section Conversions.
Context `{Libm}.

Definition ups_mgrs_code (Hemisphere : ascii) (Easting Northing : double) (Precision : Z) : Z :=
  let code := err_if (negb (Ascii.eqb Hemisphere "N") && negb (Ascii.eqb Hemisphere "S"))
                MGRS_HEMISPHERE_ERROR MGRS_NO_ERROR in
  let code := err_if ((Easting <? MIN_EAST_NORTH) || (Easting >? MAX_EAST_NORTH))
                MGRS_EASTING_ERROR code in
  let code := err_if ((Northing <? MIN_EAST_NORTH) || (Northing >? MAX_EAST_NORTH))
                MGRS_NORTHING_ERROR code in
  err_if ((Precision <? 0) || (MAX_PRECISION <? Precision))%Z MGRS_PRECISION_ERROR code.

(** The first letter and its entry in the table. *)
Definition ups_zone_letter (Hemisphere : ascii) (Easting : double) : Z * Z :=
  if Ascii.eqb Hemisphere "N" then
    let l0 := if Easting >=? TWOMIL then LETTER_Z else LETTER_Y in (l0, l0 - 22)%Z
  else
    let l0 := if Easting >=? TWOMIL then LETTER_B else LETTER_A in (l0, l0).

Definition Convert_UPS_To_MGRS (Hemisphere : ascii) (Easting Northing : double) (Precision : Z)
    : result (Z * option (list ascii)) :=
  let code := ups_mgrs_code Hemisphere Easting Northing Precision in
  if (code =? 0)%Z then
    let '(l0, index) := ups_zone_letter Hemisphere Easting in
    c ← table_at UPS_Constant_Table index;
    l2 ← ups_row_letter c Northing;
    l1 ← ups_column_letter c Easting;
    s ← Make_MGRS_String 0 (l0, l1, l2) Easting Northing Precision;
    mret (code, Some s)
  else mret (code, None).

(** The hemisphere and the coordinates are given when there is no error; a zone that was
    not written, after three or more digits, is read. *)
Definition Convert_MGRS_To_UPS (MGRS : list ascii)
    : result (Z * option (ascii * double * double)) :=
  let '(code, b) := Break_MGRS_String MGRS in
  zone ← written (broken_zone b);
  if negb (zone =? 0)%Z then mret (Z.lor code MGRS_STRING_ERROR, None)
  else if (code =? 0)%Z then
    ls ← written (broken_letters b);
    en ← written (broken_coordinates b);
    let '(l0, l1, l2) := ls in
    let '(Hemisphere, index) :=
      if (LETTER_Y <=? l0)%Z then ("N"%char, l0 - 22)%Z else ("S"%char, l0) in
    c ← table_at UPS_Constant_Table index;
    if ups_bad_letters c l1 l2 then mret (MGRS_STRING_ERROR, None)
    else mret (code, Some (Hemisphere, ups_grid_easting c l1 + en.1,
                           ups_grid_northing c l2 + en.2))
  else mret (code, None).

(** ** Universal transverse Mercator *)

(** The letters and the string, for a point whose zone is final. *)
Definition utm_letters (m : Mgrs) (Zone : Z) (Latitude Easting Northing : double) (Precision : Z)
    : result (Z * option (list ascii)) :=
  let '(Latitude, Northing) :=
    if (Latitude <=? #0) && deq Northing #10000000 then (#0, #0) else (Latitude, Northing) in
  g ← Get_Grid_Values (MGRS_Ellipsoid_Code m) Zone;
  let '(low, _, pattern_offset) := g in
  r ← Get_Latitude_Letter Latitude;
  let '(code, l0) := r in
  if (code =? 0)%Z then
    l0 ← written l0;
    l2 ← utm_row_letter Northing pattern_offset;
    let grid_easting :=
      if ((l0 =? LETTER_V) && (Zone =? 31))%Z && deq Easting #500000
      then Easting - #1 else Easting in
    l1 ← utm_column_letter low grid_easting;
    s ← Make_MGRS_String Zone (l0, l1, l2) grid_easting Northing Precision;
    mret (code, Some s)
  else mret (code, None).

(** The point lies on the truncated eastern edge of zone 31V. *)
Definition edge_of_31V (Zone : Z) (Latitude Longitude Easting : double) : bool :=
  (Zone =? 31)%Z && (((Latitude >=? #56 * DEG_TO_RAD) && (Latitude <? #64 * DEG_TO_RAD)) &&
                     ((Longitude >=? #3 * DEG_TO_RAD) || (Easting >=? #500000))).

Definition UTM_To_MGRS (m : Mgrs) (Zone : Z) (Hemisphere : ascii)
    (Longitude Latitude Easting Northing : double) (Precision : Z)
    : result (Z * option (list ascii) * Mgrs) :=
  if edge_of_31V Zone Latitude Longitude Easting then
    let '(_, u) := Set_UTM_Parameters (mgrs_utm m) (MGRS_a m) (MGRS_f m) 32 in
    r ← Convert_Geodetic_To_UTM u Latitude Longitude;
    let '(temp_error_code, out, u) := r in
    let m := with_utm m u in
    if negb (temp_error_code =? 0)%Z
    then mret (translate temp_error_code utm_forward_bits MGRS_NO_ERROR, None, m)
    else
      zhen ← written out;
      let '(Zone, _, Easting, Northing) := zhen in
      r ← utm_letters m Zone Latitude Easting Northing Precision;
      mret (r, m)
  else
    r ← utm_letters m Zone Latitude Easting Northing Precision;
    mret (r, m).

Definition utm_mgrs_code (Zone : Z) (Hemisphere : ascii) (Easting Northing : double)
    (Precision : Z) : Z :=
  let code := err_if ((Zone <? 1) || (60 <? Zone))%Z MGRS_ZONE_ERROR MGRS_NO_ERROR in
  let code := err_if (negb (Ascii.eqb Hemisphere "S") && negb (Ascii.eqb Hemisphere "N"))
                MGRS_HEMISPHERE_ERROR code in
  let code := err_if ((Easting <? MIN_EASTING) || (Easting >? MAX_EASTING))
                MGRS_EASTING_ERROR code in
  let code := err_if ((Northing <? MIN_NORTHING) || (Northing >? MAX_NORTHING))
                MGRS_NORTHING_ERROR code in
  err_if ((Precision <? 0) || (MAX_PRECISION <? Precision))%Z MGRS_PRECISION_ERROR code.

(** The error code of the inverse projection is translated and then overwritten; the
    latitude is read whether or not it was written. *)
Definition Convert_UTM_To_MGRS (m : Mgrs) (Zone : Z) (Hemisphere : ascii)
    (Easting Northing : double) (Precision : Z) : result (Z * option (list ascii) * Mgrs) :=
  let code := utm_mgrs_code Zone Hemisphere Easting Northing Precision in
  if (code =? 0)%Z then
    let '(_, u) := Set_UTM_Parameters (mgrs_utm m) (MGRS_a m) (MGRS_f m) 0 in
    r ← Convert_UTM_To_Geodetic u Zone Hemisphere Easting Northing;
    let '(_, out, u) := r in
    ll ← written out;
    UTM_To_MGRS (with_utm m u) Zone Hemisphere ll.2 ll.1 Easting Northing Precision
  else mret (code, None, m).

(** The latitude is in the range of the band, up to the precision of the string. *)
Definition in_band (letter : Z) (in_precision : Z) (latitude : double) : result Z :=
  let divisor := m_pow #10 (of_Z in_precision) in
  r ← Get_Latitude_Range letter;
  match r with
  | (code, Some (upper, lower)) =>
      mret (err_if (negb ((lower - DEG_TO_RAD / divisor <=? latitude) &&
                          (latitude <=? upper + DEG_TO_RAD / divisor)))
              MGRS_LAT_WARNING code)
  | (code, None) => mret code
  end.

(** The check of [Convert_MGRS_To_UTM] that the point is within the bounds of its band. *)
Definition check_band (m : Mgrs) (Zone : Z) (Hemisphere : ascii) (Easting Northing : double)
    (letter in_precision : Z) : result (Z * Mgrs) :=
  let '(utm_error_code, u) := Set_UTM_Parameters (mgrs_utm m) (MGRS_a m) (MGRS_f m) 0 in
  if (utm_error_code =? 0)%Z then
    r ← Convert_UTM_To_Geodetic u Zone Hemisphere Easting Northing;
    let '(utm_error_code, out, u) := r in
    if (utm_error_code =? 0)%Z then
      let latitude := match out with Some ll => ll.1 | None => #0 end in
      code ← in_band letter in_precision latitude;
      mret (code, with_utm m u)
    else mret (translate utm_error_code utm_inverse_bits MGRS_NO_ERROR, with_utm m u)
  else mret (translate utm_error_code utm_parameter_bits MGRS_NO_ERROR, with_utm m u).

(** The part after the string is broken up, for three letters and a zone. *)
Definition mgrs_square (m : Mgrs) (Zone : Z) (ls : letters) (en : double * double)
    (in_precision : Z) : result (Z * option (Z * ascii * double * double) * Mgrs) :=
  let '(l0, l1, l2) := ls in
  if ((l0 =? LETTER_X) && ((Zone =? 32) || (Zone =? 34) || (Zone =? 36)))%Z
  then mret (MGRS_STRING_ERROR, None, m)
  else
    let Hemisphere := (if (l0 <? LETTER_N)%Z then "S" else "N")%char in
    g ← Get_Grid_Values (MGRS_Ellipsoid_Code m) Zone;
    let '(low, high, pattern_offset) := g in
    if ((l1 <? low) || (high <? l1) || (LETTER_V <? l2))%Z
    then mret (MGRS_STRING_ERROR, None, m)
    else
      r ← Get_Latitude_Band_Min_Northing l0;
      match r with
      | (code, Some (min_northing, northing_offset)) =>
          let Easting := utm_grid_easting low l1 + en.1 in
          let Northing := utm_grid_northing l2 pattern_offset northing_offset min_northing + en.2 in
          cm ← check_band m Zone Hemisphere Easting Northing l0 in_precision;
          mret (cm.1, Some (Zone, Hemisphere, Easting, Northing), cm.2)
      | (code, None) => mret (code, None, m)
      end.

(** The outputs are those of a string that names a square. *)
Definition Convert_MGRS_To_UTM (m : Mgrs) (MGRS : list ascii)
    : result (Z * option (Z * ascii * double * double) * Mgrs) :=
  let '(code, b) := Break_MGRS_String MGRS in
  Zone ← written (broken_zone b);
  if (Zone =? 0)%Z then mret (Z.lor code MGRS_STRING_ERROR, None, m)
  else if (code =? 0)%Z then
    ls ← written (broken_letters b);
    en ← written (broken_coordinates b);
    in_precision ← written (broken_precision b);
    mgrs_square m Zone ls en in_precision
  else mret (code, None, m).

(** ** Geodetic coordinates *)

Definition geodetic_mgrs_code (Latitude Longitude : double) (Precision : Z) : Z :=
  let code := err_if ((Latitude <? - MGRS_PI_OVER_2) || (Latitude >? MGRS_PI_OVER_2))
                MGRS_LAT_ERROR MGRS_NO_ERROR in
  let code := err_if ((Longitude <? - MGRS_PI) || (Longitude >? #2 * MGRS_PI))
                MGRS_LON_ERROR code in
  err_if ((Precision <? 0) || (MAX_PRECISION <? Precision))%Z MGRS_PRECISION_ERROR code.

Definition polar_to_mgrs (m : Mgrs) (Latitude Longitude : double) (Precision : Z)
    : result (Z * option (list ascii) * Mgrs) :=
  let '(temp_error_code, u) := Set_UPS_Parameters (mgrs_ups m) (MGRS_a m) (MGRS_f m) in
  if (temp_error_code =? 0)%Z then
    r ← Convert_Geodetic_To_UPS u Latitude Longitude;
    let '(temp_error_code, out, u) := r in
    if (temp_error_code =? 0)%Z then
      hen ← written out;
      let '(hemisphere, easting, northing) := hen in
      r ← Convert_UPS_To_MGRS hemisphere easting northing Precision;
      mret (r, with_ups m u)
    else mret (translate temp_error_code ups_forward_bits MGRS_NO_ERROR, None, with_ups m u)
  else mret (translate temp_error_code ups_parameter_bits MGRS_NO_ERROR, None, with_ups m u).

Definition zone_to_mgrs (m : Mgrs) (Latitude Longitude : double) (Precision : Z)
    : result (Z * option (list ascii) * Mgrs) :=
  let '(temp_error_code, u) := Set_UTM_Parameters (mgrs_utm m) (MGRS_a m) (MGRS_f m) 0 in
  if (temp_error_code =? 0)%Z then
    r ← Convert_Geodetic_To_UTM u Latitude Longitude;
    let '(temp_error_code, out, u) := r in
    if (temp_error_code =? 0)%Z then
      zhen ← written out;
      let '(zone, hemisphere, easting, northing) := zhen in
      UTM_To_MGRS (with_utm m u) zone hemisphere Longitude Latitude easting northing Precision
    else mret (translate temp_error_code utm_forward_bits MGRS_NO_ERROR, None, with_utm m u)
  else mret (translate temp_error_code utm_parameter_bits MGRS_NO_ERROR, None, with_utm m u).

Definition Convert_Geodetic_To_MGRS (m : Mgrs) (Latitude Longitude : double) (Precision : Z)
    : result (Z * option (list ascii) * Mgrs) :=
  let code := geodetic_mgrs_code Latitude Longitude Precision in
  if (code =? 0)%Z then
    if (Latitude <? MIN_UTM_LAT) || (Latitude >? MAX_UTM_LAT)
    then polar_to_mgrs m Latitude Longitude Precision
    else zone_to_mgrs m Latitude Longitude Precision
  else mret (code, None, m).

Definition zone_from_mgrs (m : Mgrs) (MGRS : list ascii)
    : result (Z * option (double * double) * Mgrs) :=
  r ← Convert_MGRS_To_UTM m MGRS;
  let '(code, out, m) := r in
  if (code =? 0)%Z || negb (Z.land code MGRS_LAT_WARNING =? 0)%Z then
    let '(temp_error_code, u) := Set_UTM_Parameters (mgrs_utm m) (MGRS_a m) (MGRS_f m) 0 in
    if (temp_error_code =? 0)%Z then
      zhen ← written out;
      let '(zone, hemisphere, easting, northing) := zhen in
      r ← Convert_UTM_To_Geodetic u zone hemisphere easting northing;
      let '(temp_error_code, ll, u) := r in
      mret (translate temp_error_code utm_inverse_bits code, ll, with_utm m u)
    else mret (translate temp_error_code utm_parameter_bits code, None, with_utm m u)
  else mret (code, None, m).

Definition polar_from_mgrs (fuel : nat) (m : Mgrs) (MGRS : list ascii)
    (before : option (double * double)) : result (Z * option (double * double) * Mgrs) :=
  r ← Convert_MGRS_To_UPS MGRS;
  let '(code, out) := r in
  if (code =? 0)%Z then
    let '(temp_error_code, u) := Set_UPS_Parameters (mgrs_ups m) (MGRS_a m) (MGRS_f m) in
    if (temp_error_code =? 0)%Z then
      hen ← written out;
      let '(hemisphere, easting, northing) := hen in
      r ← Convert_UPS_To_Geodetic fuel u hemisphere easting northing before;
      let '(temp_error_code, ll, u) := r in
      mret (translate temp_error_code ups_inverse_bits code, ll, with_ups m u)
    else mret (translate temp_error_code ups_parameter_bits code, before, with_ups m u)
  else mret (code, before, m).

Definition Convert_MGRS_To_Geodetic (fuel : nat) (m : Mgrs) (MGRS : list ascii)
    (before : option (double * double)) : result (Z * option (double * double) * Mgrs) :=
  match Check_Zone MGRS with
  | (code, Some zone_exists) =>
      if zone_exists then zone_from_mgrs m MGRS else polar_from_mgrs fuel m MGRS before
  | (code, None) => mret (code, before, m)
  end.
End Conversions.
