(* ===== verification/MgrsFacts.v ===== *)
(** * Grid references are read back

    What [mgrs.c] writes into a string, [Break_MGRS_String] reads, and the letters of a
    square in the polar regions determine its corner. *)
From Stdlib Require Import SpecFloat Ascii String QArith.
From S2P Require Import Prelude Double Libm Rounding Text TranMerc Utm PolarSt Ups Mgrs.

Local Open Scope double_scope.

(** ** Digits *)

Lemma isdigit_value c : isdigit c = true ↔ is_Some (digit_value 10 c).
Proof. destruct c as [[] [] [] [] [] [] [] []]; vm_compute; split; naive_solver. Qed.

Lemma digits_isdigit fuel n c :
  c ∈ list_ascii_of_string (digits fuel n) → isdigit c = true.
Proof.
  revert n. induction fuel as [|fuel IH]; intros n; cbn [digits]; [by intros ?%elem_of_nil|].
  assert (isdigit (ascii_of_N (48 + n mod 10)) = true) as Hd.
  { apply isdigit_value. rewrite digit_value_digit; [eauto|]. apply N.mod_lt. lia. }
  destruct (n <? 10)%N.
  - by intros ->%list_elem_of_singleton.
  - rewrite list_ascii_app, elem_of_app. intros [H|H]; [by eapply IH|].
    by apply list_elem_of_singleton in H as ->.
Qed.

Lemma string_length_list s : List.length (list_ascii_of_string s) = String.length s.
Proof. induction s as [|c s IH]; [done|]. simpl. by rewrite IH. Qed.

Lemma digits_length fuel n p :
  (n < 10 ^ N.of_nat p)%N → (0 < p)%nat → (String.length (digits fuel n) <= p)%nat.
Proof.
  revert n p. induction fuel as [|fuel IH]; intros n p Hn Hp; cbn [digits]; [simpl; lia|].
  destruct (N.ltb_spec n 10) as [|Hge]; [simpl; lia|].
  destruct p as [|[|p]]; [lia|change (10 ^ N.of_nat 1)%N with 10%N in Hn; lia|].
  rewrite <- string_length_list, list_ascii_app, length_app, string_length_list. simpl.
  assert (String.length (digits fuel (n / 10)) <= S p)%nat; [|lia]. apply IH; [|lia].
  apply N.Div0.div_lt_upper_bound. by rewrite (Nat2N.inj_succ (S p)), N.pow_succ_r' in Hn.
Qed.

Lemma zeros_list k : list_ascii_of_string (zeros k) = replicate k "0"%char.
Proof. induction k as [|k IH]; [done|]. cbn [zeros]. simpl. by rewrite IH. Qed.

Lemma read_zeros k acc n rest :
  read_digits 10 acc n (replicate k "0"%char ++ rest) = read_digits 10 (acc * 10 ^ Z.of_nat k) (n + k) rest.
Proof.
  revert acc n. induction k as [|k IH]; intros acc n.
  - cbn [replicate app]. f_equal; lia.
  - transitivity (read_digits 10 (acc * 10 + 0) (S n) (replicate k "0"%char ++ rest)); [done|].
    rewrite IH. f_equal; [|lia]. rewrite Nat2Z.inj_succ, Z.pow_succ_r by lia. lia.
Qed.

(** A number of at most [p] digits is printed with [p] digits. *)
Section Padded.
Context (p : nat) (v : Z) (Hv : (0 <= v < 10 ^ Z.of_nat p)%Z) (Hp : (0 < p)%nat).
Local Abbreviation l := (list_ascii_of_string (padded p v)).

Lemma padded_list :
  ∃ k, l = replicate k "0"%char ++ list_ascii_of_string (N_to_string (Z.to_N v)) ∧
    (k + String.length (N_to_string (Z.to_N v)) = p)%nat.
Proof.
  unfold padded. rewrite (proj2 (Z.ltb_ge v 0)), Z.abs_eq by lia. cbn [append].
  rewrite list_ascii_app, zeros_list. eexists. split; [reflexivity|].
  assert (String.length (N_to_string (Z.to_N v)) <= p)%nat; [|lia].
  apply digits_length; [|done]. apply N2Z.inj_lt. rewrite N2Z.inj_pow, nat_N_Z, Z2N.id by lia. simpl. lia.
Qed.

Lemma padded_length : List.length l = p.
Proof.
  destruct padded_list as (k & -> & Hk). by rewrite length_app, length_replicate, string_length_list.
Qed.

Lemma padded_digits : Forall (λ c, isdigit c = true) l.
Proof.
  destruct padded_list as (k & -> & _). apply Forall_app. split; [by apply Forall_replicate|].
  apply Forall_forall. intros c Hc%list_elem_of_In. by eapply digits_isdigit.
Qed.

Lemma padded_read : read_digits 10 0 0 l = (v, p, []).
Proof.
  destruct padded_list as (k & -> & Hk). rewrite read_zeros.
  rewrite <- (app_nil_r (list_ascii_of_string _)), N_to_string_read. cbn [read_digits].
  rewrite Z2N.id by lia. repeat f_equal; lia.
Qed.
End Padded.

(** [strtoimax] on digits does not meet blanks or signs. *)
Lemma strtoimax_digits s v n :
  Forall (λ c, isdigit c = true) s → read_digits 10 0 0 s = (v, n, []) →
  (0 <= v < 2 ^ 63)%Z → strtoimax s = v.
Proof.
  intros Hs Hr Hv. unfold strtoimax.
  assert (skip_spaces s = s ∧ read_sign s = (false, s)) as [-> ->].
  { destruct s as [|c s]; [done|]. apply list.Forall_cons in Hs as [[x Hx]%isdigit_value _].
    destruct (digit_not_special c x Hx) as (H1 & H2 & H3). cbn. by rewrite H1, H2, H3. }
  rewrite Hr. lia.
Qed.

Lemma strtoimax_padded p v :
  (0 <= v < 10 ^ Z.of_nat p)%Z → (0 < p <= 18)%nat → strtoimax (list_ascii_of_string (padded p v)) = v.
Proof.
  intros Hv Hp. eapply strtoimax_digits; [apply padded_digits; lia|apply padded_read; lia|].
  assert (10 ^ Z.of_nat p <= 10 ^ 18)%Z by (apply Z.pow_le_mono_r; lia). lia.
Qed.

(** ** Splitting a string *)

Lemma span_app f a b :
  Forall (λ c, f c = true) a → match b with c :: _ => f c = false | [] => True end →
  span f (a ++ b) = (a, b).
Proof.
  intros Ha Hb. induction Ha as [|c a Hc _ IH]; cbn [app span].
  - destruct b as [|c b]; [done|]. cbn. by rewrite Hb.
  - by rewrite Hc, IH.
Qed.

(** ** Coordinates inside a square *)

Lemma scaled_back x e : (e <= 0)%Z → (inject_Z (x * 2 ^ (- e)) * pw e == inject_Z x)%Q.
Proof.
  intros He. rewrite inject_Z_mult, <- pw_Z, <- Qmult_assoc, <- pw_add by lia.
  replace (- e + e)%Z with 0%Z by lia. change (pw 0) with 1%Q. ring.
Qed.

Lemma scaled_inj a b e : (inject_Z a * pw e == inject_Z b * pw e)%Q → a = b.
Proof.
  intros H. apply Z.le_antisymm; apply (scaled_le _ _ e); rewrite H; apply Qle_refl.
Qed.

(** [fmod] by the width of a square is exact. *)
Lemma m_fmod_int X x : is_int X x → is_int (m_fmod X #100000) (Z.rem x 100000).
Proof.
  intros Hx. change (#100000) with (S754_finite false 6871947673600000 (-36)).
  destruct X as [s|s| |s mx ex]; [|by destruct Hx..|].
  { assert (x = 0%Z) as ->; [|done]. apply is_int_trunc in Hx. cbn in Hx. congruence. }
  cbn [m_fmod]. set (e := Z.min ex (-36)).
  assert (cond_opp s (Zpos mx) * 2 ^ (ex - e) = x * 2 ^ (- e))%Z as ->.
  { apply is_int_val in Hx as [_ Hv]. apply (scaled_inj _ _ e). rewrite scaled_back by lia.
    rewrite <- Hv. symmetry. apply (val_at e (S754_finite s mx ex)). cbn. lia. }
  assert (6871947673600000 * 2 ^ (-36 - e) = 100000 * 2 ^ (- e))%Z as ->.
  { change 6871947673600000%Z with (100000 * 2 ^ 36)%Z. rewrite <- Z.mul_assoc, <- Z.pow_add_r by lia.
    do 2 f_equal. lia. }
  assert (0 < 2 ^ (- e))%Z by (apply Z.pow_pos_nonneg; lia).
  rewrite Z.mul_rem_distr_r by lia.
  eapply rounds_int; [apply normalize_rounds|apply scaled_back; lia|].
  pose proof (Z.rem_bound_abs x 100000 ltac:(lia)). lia.
Qed.

Lemma is_int_lt_val X x y : is_int X x → is_finite y = true → (inject_Z x < val y)%Q → dge X y = false.
Proof.
  intros [Hf Hv]%is_int_val Hy Hlt. unfold dge, dle. rewrite dcompare_val by done.
  destruct (val y ?= val X)%Q eqn:E; try done.
  - apply Qeq_alt in E. rewrite Hv in E. rewrite E in Hlt. by apply Qlt_irrefl in Hlt.
  - apply Qlt_alt in E. rewrite Hv in E. pose proof (Qlt_trans _ _ _ E Hlt) as H. by apply Qlt_irrefl in H.
Qed.

Section Grid.
Context `{Libm}.

(** [pow] gives the powers of ten that the code asks for. *)
Definition pow_exact : Prop := ∀ k, (0 <= k <= 5)%Z → is_int (m_pow #10 (of_Z k)) (10 ^ k).

Lemma grid_number_int X D x k :
  is_int X x → is_int D (10 ^ k) → (0 <= k <= 5)%Z → (0 <= x <= 2 ^ 53)%Z →
  grid_number X D = Ok ((x mod 100000) / 10 ^ k)%Z.
Proof.
  intros Hx HD Hk Hb. unfold grid_number. pose proof (m_fmod_int X x Hx) as Hm.
  rewrite Z.rem_mod_nonneg in Hm by lia. pose proof (Z.mod_pos_bound x 100000 ltac:(lia)) as Hr.
  assert (dge (m_fmod X #100000) (lit 999995 10) = false) as ->.
  { eapply is_int_lt_val; [exact Hm|done|]. apply (Qle_lt_trans _ (inject_Z 99999)).
    - rewrite <- Zle_Qle. lia.
    - vm_compute. reflexivity. }
  assert (10 ^ k <= 10 ^ 5)%Z by (apply Z.pow_le_mono_r; lia).
  assert (0 < 10 ^ k)%Z by (apply Z.pow_pos_nonneg; lia).
  unfold to_long, cast. rewrite (trunc_quot _ _ _ _ Hm HD) by lia.
  rewrite Z.quot_div_nonneg by lia.
  assert (0 <= (x mod 100000) / 10 ^ k <= 100000)%Z.
  { split; [apply Z.div_pos; lia|]. apply Z.div_le_upper_bound; nia. }
  rewrite (proj2 (Z.leb_le _ _)), (proj2 (Z.leb_le _ _)) by lia. done.
Qed.
End Grid.

(** ** Strings are read back *)

Definition letter_ok (l : Z) : bool :=
  (0 <=? l)%Z && (l <=? 25)%Z && negb (is_I_or_O l).

Lemma letter_read l : letter_ok l = true →
  ∃ c, table_at alphabet l = Ok c ∧ isalpha c = true ∧ isdigit c = false ∧ is_blank c = false ∧
    (toupper c - 65)%Z = l ∧ is_I_or_O l = false.
Proof.
  intros [[H1%Z.leb_le H2%Z.leb_le]%andb_prop H3%negb_true_iff]%andb_prop.
  assert (∃ k, (k < 26)%nat ∧ l = Z.of_nat k) as (k & Hk & ->) by (exists (Z.to_nat l); lia).
  do 26 (destruct k as [|k]; [eexists; split_and!; [reflexivity..|exact H3]|]). lia.
Qed.

Lemma digit_not_blank c : isdigit c = true → is_blank c = false ∧ isalpha c = false.
Proof. destruct c as [[] [] [] [] [] [] [] []]; vm_compute; naive_solver. Qed.

Section RoundTrip.
Context `{Libm}.

Lemma break_zone_padded z after :
  (1 <= z <= 60)%Z → break_zone (list_ascii_of_string (padded 2 z)) after = (0%Z, Some z).
Proof.
  intros Hz. unfold break_zone. rewrite padded_length by lia. cbn [Nat.leb Nat.ltb].
  rewrite take_app_length' by (by rewrite padded_length by lia).
  rewrite strtoimax_padded by lia. cbv zeta. unfold err_if.
  by rewrite (proj2 (Z.ltb_ge z 1)), (proj2 (Z.ltb_ge 60 z)) by lia.
Qed.

Lemma print_digits_ok p v :
  (0 <= v < 10 ^ Z.of_nat p)%Z →
  List.length (print_digits p v) = p ∧ Forall (λ c, isdigit c = true) (print_digits p v) ∧
  ((0 < p <= 18)%nat → strtoimax (print_digits p v) = v).
Proof.
  intros Hv. unfold print_digits. destruct p as [|p].
  - assert (v = 0%Z) as -> by (change (10 ^ Z.of_nat 0)%Z with 1%Z in Hv; lia).
    cbn. split_and!; [done..|lia].
  - cbn [Nat.eqb andb]. split_and!; [apply padded_length; lia|apply padded_digits; lia|].
    intros Hp. apply strtoimax_padded; lia.
Qed.

Lemma break_digits_ok p a b :
  pow_exact → (0 <= p <= 5)%nat → (0 <= a < 10 ^ Z.of_nat p)%Z → (0 <= b < 10 ^ Z.of_nat p)%Z →
  ∃ E N, break_digits (print_digits p a ++ print_digits p b) 0 = (0%Z, Some (Z.of_nat p), Some (E, N)) ∧
    is_int E (a * 10 ^ (5 - Z.of_nat p)) ∧ is_int N (b * 10 ^ (5 - Z.of_nat p)).
Proof.
  intros Hpow Hp Ha Hb. destruct (print_digits_ok p a Ha) as (La & _ & Ra).
  destruct (print_digits_ok p b Hb) as (Lb & _ & Rb). unfold break_digits.
  rewrite length_app, La, Lb. replace (p + p)%nat with (2 * p)%nat by lia.
  rewrite (proj2 (Nat.leb_le (2 * p) 10)) by lia.
  rewrite (proj2 (Nat.even_spec (2 * p))) by (by exists p). cbn [andb].
  rewrite (Nat.mul_comm 2 p), Nat.div_mul by lia.
  destruct p as [|p].
  - exists #0, #0. split; [done|]. change (10 ^ Z.of_nat 0)%Z with 1%Z in *.
    assert (a = 0%Z) as -> by lia. assert (b = 0%Z) as -> by lia. done.
  - cbn [Nat.ltb Nat.leb]. set (k := (5 - Z.of_nat (S p))%Z).
    rewrite take_app_length', drop_app_length' by done.
    rewrite (firstn_all2 (print_digits (S p) b)) by lia. rewrite Ra, Rb by lia.
    pose proof (Hpow k ltac:(lia)) as Hk.
    assert (10 ^ k * 10 ^ Z.of_nat (S p) = 10 ^ 5)%Z as E by (rewrite <- Z.pow_add_r by lia; f_equal; lia).
    assert (0 < 10 ^ k)%Z by (apply Z.pow_pos_nonneg; lia).
    assert (∀ v, (0 <= v < 10 ^ Z.of_nat (S p))%Z → is_int (of_Z v * m_pow #10 (of_Z k)) (v * 10 ^ k)) as Hv.
    { intros v Hv. assert (v * 10 ^ k <= 10 ^ 5)%Z by nia.
      apply dmul_is_int; [apply of_Z_is_int|done|..]; change (2 ^ prec)%Z with (2 ^ 53)%Z; nia. }
    eexists _, _. split; [reflexivity|]. split; by apply Hv.
Qed.

(** The part of a coordinate that [p] digits hold. *)
Definition held (p x : Z) : Z := (x mod 100000 / 10 ^ (5 - p) * 10 ^ (5 - p))%Z.

Lemma grid_digits p x : (0 <= p <= 5)%Z → (0 <= x mod 100000 / 10 ^ (5 - p) < 10 ^ p)%Z.
Proof.
  intros Hp. pose proof (Z.mod_pos_bound x 100000 ltac:(lia)).
  assert (0 < 10 ^ (5 - p))%Z by (apply Z.pow_pos_nonneg; lia).
  split; [apply Z.div_pos; lia|]. apply Z.div_lt_upper_bound; [done|].
  rewrite <- Z.pow_add_r by lia. replace (5 - p + p)%Z with 5%Z by lia. lia.
Qed.

Lemma span_nil f : span f [] = ([], []).
Proof. done. Qed.

Lemma make_break z l0 l1 l2 E N e n p :
  pow_exact → (0 <= z <= 60)%Z → letter_ok l0 = true → letter_ok l1 = true → letter_ok l2 = true →
  (0 <= p <= 5)%Z → is_int E e → is_int N n → (0 <= e <= 2 ^ 53)%Z → (0 <= n <= 2 ^ 53)%Z →
  ∃ s E' N', Make_MGRS_String z (l0, l1, l2) E N p = Ok s ∧
    Break_MGRS_String s = (0%Z, mkBroken (Some z) (Some (l0, l1, l2)) (Some (E', N')) (Some p)) ∧
    is_int E' (held p e) ∧ is_int N' (held p n).
Proof.
  intros Hpow Hz H0 H1 H2 Hp HE HN He Hn.
  destruct (letter_read l0 H0) as (c0 & T0 & A0 & D0 & B0 & U0 & I0).
  destruct (letter_read l1 H1) as (c1 & T1 & A1 & D1 & B1 & U1 & I1).
  destruct (letter_read l2 H2) as (c2 & T2 & A2 & D2 & B2 & U2 & I2).
  pose proof (Hpow (5 - p)%Z ltac:(lia)) as HD. set (a := (e mod 100000 / 10 ^ (5 - p))%Z).
  set (b := (n mod 100000 / 10 ^ (5 - p))%Z). set (q := Z.to_nat p).
  assert (Z.of_nat q = p) as Eq by (unfold q; lia).
  pose proof (grid_digits p e Hp) as Ha. pose proof (grid_digits p n Hp) as Hb. fold a in Ha. fold b in Hb.
  destruct (break_digits_ok q a b Hpow) as (E' & N' & Hbr & HE' & HN'); [lia|by rewrite Eq..|].
  rewrite Eq in *. set (zd := if (z =? 0)%Z then [] else list_ascii_of_string (padded 2 z)).
  set (ds := print_digits q a ++ print_digits q b) in *.
  assert (Forall (λ c, isdigit c = true) ds) as Hds.
  { apply Forall_app. split; apply print_digits_ok; by rewrite Eq. }
  assert (Forall (λ c, isdigit c = true) zd) as Hzd.
  { unfold zd. destruct (Z.eqb_spec z 0); [done|]. apply padded_digits; lia. }
  exists (zd ++ [c0; c1; c2] ++ ds), E', N'. split_and!; [|..|exact HE'|exact HN'].
  - unfold Make_MGRS_String. rewrite T0, T1, T2. cbn [mbind result_bind]. cbv zeta.
    rewrite (grid_number_int E _ e (5 - p)), (grid_number_int N _ n (5 - p)) by (done || lia).
    cbn [mbind result_bind mret result_ret]. by fold q a b zd.
  - unfold Break_MGRS_String.
    assert (span is_blank (zd ++ [c0; c1; c2] ++ ds) = ([], zd ++ [c0; c1; c2] ++ ds)) as ->.
    { apply (span_app _ []); [done|]. destruct Hzd as [|c zd' Hc _]; [done|]. by apply digit_not_blank. }
    cbn [snd]. rewrite (span_app isdigit zd ([c0; c1; c2] ++ ds)) by done.
    assert (break_zone zd ([c0; c1; c2] ++ ds) = (0%Z, Some z)) as ->.
    { unfold zd. destruct (Z.eqb_spec z 0) as [->|]; [done|]. apply break_zone_padded. lia. }
    rewrite (span_app isalpha [c0; c1; c2] ds); [|by repeat constructor|];
      [|destruct Hds as [|c ds' Hc _]; [done|]; by apply digit_not_blank].
    cbn [break_letters]. rewrite U0, U1, U2, I0, I1, I2. cbn [err_if].
    pose proof (span_app isdigit ds [] Hds I) as Hend. rewrite app_nil_r in Hend. by rewrite Hend, Hbr.
Qed.
End RoundTrip.

(** ** The squares of the polar regions *)

Lemma is_int_dle x y a b : is_int x a → is_int y b → dle x y = (a <=? b)%Z.
Proof.
  intros Hx Hy. unfold dle. rewrite (is_int_compare x y a b) by done.
  unfold Z.leb. by destruct (a ?= b)%Z.
Qed.

Lemma const_int z : (- 2 ^ 53 < z < 2 ^ 53)%Z → is_int (of_Z z) z.
Proof. apply of_Z_is_int. Qed.

(** The number of whole squares between an origin and a coordinate. *)
Lemma squares X O x o :
  is_int X x → is_int O o → (Z.abs x <= 2 ^ 31)%Z → (Z.abs o <= 2 ^ 31)%Z →
  to_long ((X - O) / ONEHT) = Ok (Z.quot (x - o) 100000).
Proof.
  intros HX HO Hx Ho.
  pose proof (dsub_is_int X O x o HX HO ltac:(lia)) as Hd.
  unfold to_long, cast. rewrite (trunc_quot _ ONEHT _ 100000 Hd (const_int 100000 ltac:(lia))) by lia.
  pose proof (Z.quot_le_mono (- 2 ^ 32) (x - o) 100000 ltac:(lia) ltac:(lia)) as H1.
  pose proof (Z.quot_le_mono (x - o) (2 ^ 32) 100000 ltac:(lia) ltac:(lia)) as H2.
  change (Z.quot (- 2 ^ 32) 100000) with (-42949)%Z in H1. change (Z.quot (2 ^ 32) 100000) with 42949%Z in H2.
  by rewrite (proj2 (Z.leb_le _ _)), (proj2 (Z.leb_le _ _)) by lia.
Qed.

(** For an entry of the table with its origin, and the [i]-th column or row of squares
    from there, the letter is a good one and leads back to the square. *)
Definition column_ok (index fe i : Z) : bool :=
  match table_at UPS_Constant_Table index with
  | Ok c =>
      match ups_column_letter c (of_Z (fe + 100000 * i)) with
      | Ok l => letter_ok l && negb (ups_bad_letters c l 0) &&
                bool_decide (ups_grid_easting c l = of_Z (fe + 100000 * i))
      | Err _ => false
      end
  | Err _ => false
  end.

Definition row_ok (index fn i : Z) : bool :=
  match table_at UPS_Constant_Table index with
  | Ok c => let l := skip_I_O i in
            letter_ok l && negb (ltr3_high_value c <? l)%Z &&
            bool_decide (ups_grid_northing c l = of_Z (fn + 100000 * i))
  | Err _ => false
  end.

Definition polar_columns : list (Z * Z * nat) :=
  [(0, 800000, 12%nat); (1, 2000000, 12%nat); (2, 800000, 12%nat); (3, 2000000, 7%nat)]%Z.
Definition polar_rows : list (Z * Z * nat) :=
  [(0, 800000, 24%nat); (1, 800000, 24%nat); (2, 1300000, 14%nat); (3, 1300000, 14%nat)]%Z.

Lemma polar_table :
  forallb (λ '(index, fe, k), forallb (λ i, column_ok index fe (Z.of_nat i)) (seq 0 k)) polar_columns = true ∧
  forallb (λ '(index, fn, k), forallb (λ i, row_ok index fn (Z.of_nat i)) (seq 0 k)) polar_rows = true.
Proof. split; vm_compute; reflexivity. Qed.

Lemma in_polar (f : Z → Z → Z → bool) l index o k i :
  forallb (λ '(index, o, k), forallb (λ i, f index o (Z.of_nat i)) (seq 0 k)) l = true →
  (index, o, k) ∈ l → (0 <= i < Z.of_nat k)%Z → f index o i = true.
Proof.
  intros Hf Hin Hi. rewrite forallb_forall in Hf. apply list_elem_of_In, Hf in Hin.
  rewrite forallb_forall in Hin. specialize (Hin (Z.to_nat i)). rewrite Z2Nat.id in Hin by lia.
  apply Hin, in_seq. lia.
Qed.

Lemma square_corner x o : (o <= x)%Z → (o mod 100000 = 0)%Z →
  (o + 100000 * ((x - o) / 100000) = 100000 * (x / 100000))%Z.
Proof.
  intros Hx Ho. pose proof (Z.div_mod o 100000 ltac:(lia)) as E. rewrite Ho, Z.add_0_r in E.
  rewrite E at 2. replace (x - 100000 * (o / 100000))%Z with (x + (- (o / 100000)) * 100000)%Z by lia.
  rewrite Z.div_add by lia. lia.
Qed.

Lemma square_index x o k : (o <= x < o + 100000 * k)%Z → (0 <= (x - o) / 100000 < k)%Z.
Proof. intros H. split; [apply Z.div_pos; lia|]. apply Z.div_lt_upper_bound; lia. Qed.

Lemma column_letter c index o k E e :
  (index, o, k) ∈ polar_columns → table_at UPS_Constant_Table index = Ok c →
  is_int E e → (o <= e < o + 100000 * Z.of_nat k)%Z →
  ∃ l, ups_column_letter c E = Ok l ∧ letter_ok l = true ∧ ups_bad_letters c l 0 = false ∧
    ups_grid_easting c l = of_Z (100000 * (e / 100000)).
Proof.
  intros Hin Hc HE He. pose proof (square_index _ _ _ He) as Hi. set (i := ((e - o) / 100000)%Z) in *.
  pose proof (in_polar column_ok _ _ _ _ i (proj1 polar_table) Hin Hi) as Hok.
  unfold column_ok in Hok. rewrite Hc in Hok.
  assert (false_easting c = of_Z o ∧ (o mod 100000 = 0)%Z ∧
    (o = 800000 ∧ k = 12%nat ∨ o = 2000000 ∧ (k <= 12)%nat)%Z) as (Hfe & Ho & Hk).
  { unfold polar_columns in Hin. rewrite !elem_of_cons, list.elem_of_nil in Hin.
    destruct Hin as [[= -> -> ->]|[[= -> -> ->]|[[= -> -> ->]|[[= -> -> ->]|[]]]]];
      injection Hc as <-; (split_and!; [reflexivity|reflexivity|]); lia. }
  pose proof (square_corner e o ltac:(lia) Ho) as Hcor. fold i in Hcor. rewrite Hcor in Hok.
  set (e0 := (100000 * (e / 100000))%Z) in *.
  assert (o <= e0 <= e ∧ (e0 - o) / 100000 = i ∧ e0 < o + 100000 * Z.of_nat k)%Z as (He0 & Hi0 & Hu0).
  { pose proof (Z.mul_div_le (e - o) 100000 ltac:(lia)). fold i in H. split; [lia|]. split; [|lia].
    rewrite <- Hcor. replace (o + 100000 * i - o)%Z with (i * 100000)%Z by lia. apply Z.div_mul. lia. }
  assert (ups_column_letter c E = ups_column_letter c (of_Z e0)) as ->.
  { pose proof (const_int e0 ltac:(lia)) as H0. unfold ups_column_letter. rewrite Hfe.
    rewrite (squares E _ e o HE), (squares (of_Z e0) _ e0 o H0) by ((apply const_int; lia) || lia).
    rewrite !Z.quot_div_nonneg, Hi0 by lia. fold i.
    rewrite (is_int_dlt E TWOMIL e 2000000), (is_int_dlt (of_Z e0) TWOMIL e0 2000000)
      by (done || (apply const_int; lia)).
    cbn [mbind result_bind]. destruct (Z.ltb_spec e 2000000), (Z.ltb_spec e0 2000000); try done; lia. }
  destruct (ups_column_letter c (of_Z e0)) as [l|]; [|done].
  apply andb_prop in Hok as [[H1 H2%negb_true_iff]%andb_prop H3%bool_decide_eq_true]. eauto.
Qed.

Lemma row_letter c index o k N n :
  (index, o, k) ∈ polar_rows → table_at UPS_Constant_Table index = Ok c →
  is_int N n → (o <= n < o + 100000 * Z.of_nat k)%Z →
  ∃ l, ups_row_letter c N = Ok l ∧ letter_ok l = true ∧ (ltr3_high_value c <? l)%Z = false ∧
    ups_grid_northing c l = of_Z (100000 * (n / 100000)).
Proof.
  intros Hin Hc HN Hn. pose proof (square_index _ _ _ Hn) as Hi. set (i := ((n - o) / 100000)%Z) in *.
  pose proof (in_polar row_ok _ _ _ _ i (proj2 polar_table) Hin Hi) as Hok.
  unfold row_ok in Hok. rewrite Hc in Hok. cbv zeta in Hok.
  assert (false_northing c = of_Z o ∧ (o mod 100000 = 0)%Z ∧ (800000 <= o <= 1300000)%Z ∧ (k <= 24)%nat)
    as (Hfn & Ho & Hob & Hk).
  { unfold polar_rows in Hin. rewrite !elem_of_cons, list.elem_of_nil in Hin.
    destruct Hin as [[= -> -> ->]|[[= -> -> ->]|[[= -> -> ->]|[[= -> -> ->]|[]]]]];
      injection Hc as <-; (split_and!; [reflexivity|reflexivity|lia..]). }
  pose proof (square_corner n o ltac:(lia) Ho) as Hcor. fold i in Hcor. rewrite Hcor in Hok.
  apply andb_prop in Hok as [[H1 H2%negb_true_iff]%andb_prop H3%bool_decide_eq_true].
  exists (skip_I_O i). split_and!; [|done..]. unfold ups_row_letter. rewrite Hfn.
  rewrite (squares N _ n o HN) by ((apply const_int; lia) || lia).
  by rewrite Z.quot_div_nonneg by lia.
Qed.

(** The easting and the northing lie in the polar region of the hemisphere, and to the
    east of its western limit. *)
Definition polar (h : ascii) (e n : Z) : Prop :=
  (h = "N"%char ∧ 800000 <= e < 2700000 ∧ 1300000 <= n < 2700000 ∨
   h = "S"%char ∧ 800000 <= e < 3200000 ∧ 800000 <= n < 3200000)%Z.

Lemma polar_entry h E e n : polar h e n → is_int E e →
  ∃ l0 index c fe fn kc kr, ups_zone_letter h E = (l0, index) ∧
    table_at UPS_Constant_Table index = Ok c ∧ letter_ok l0 = true ∧
    (if (LETTER_Y <=? l0)%Z then ("N"%char, l0 - 22)%Z else ("S"%char, l0)) = (h, index) ∧
    (index, fe, kc) ∈ polar_columns ∧ (fe <= e < fe + 100000 * Z.of_nat kc)%Z ∧
    (index, fn, kr) ∈ polar_rows ∧ (fn <= n < fn + 100000 * Z.of_nat kr)%Z.
Proof.
  intros Hp HE. unfold ups_zone_letter.
  assert (dge E TWOMIL = (2000000 <=? e)%Z) as -> by (apply is_int_dle; [by apply const_int|done]).
  unfold polar_columns, polar_rows.
  destruct Hp as [(-> & He & Hn)|(-> & He & Hn)]; cbn [Ascii.eqb Bool.eqb];
    destruct (Z.leb_spec 2000000 e).
  - eexists _, _, _, 2000000%Z, 1300000%Z, 7%nat, 14%nat. split_and!; try reflexivity; try lia;
      rewrite !elem_of_cons; tauto.
  - eexists _, _, _, 800000%Z, 1300000%Z, 12%nat, 14%nat. split_and!; try reflexivity; try lia;
      rewrite !elem_of_cons; tauto.
  - eexists _, _, _, 2000000%Z, 800000%Z, 12%nat, 24%nat. split_and!; try reflexivity; try lia;
      rewrite !elem_of_cons; tauto.
  - eexists _, _, _, 800000%Z, 800000%Z, 12%nat, 24%nat. split_and!; try reflexivity; try lia;
      rewrite !elem_of_cons; tauto.
Qed.

Lemma held_corner p x : (0 <= p <= 5)%Z →
  (100000 * (x / 100000) + held p x = x / 10 ^ (5 - p) * 10 ^ (5 - p))%Z.
Proof.
  intros Hp. unfold held. set (d := (10 ^ (5 - p))%Z). assert (0 < d)%Z by (apply Z.pow_pos_nonneg; lia).
  assert (100000 = d * 10 ^ p)%Z as Ed.
  { unfold d. rewrite <- Z.pow_add_r by lia. by replace (5 - p + p)%Z with 5%Z by lia. }
  pose proof (Z.div_mod x 100000 ltac:(lia)) as E. set (q := (x / 100000)%Z) in *.
  set (r := (x mod 100000)%Z) in *.
  assert (x / d = r / d + 10 ^ p * q)%Z as ->.
  { rewrite <- Z.div_add by lia. f_equal. rewrite E, Ed. ring. }
  rewrite Ed. ring.
Qed.

Lemma held_bound p x : (0 <= p <= 5)%Z → (0 <= held p x < 100000)%Z.
Proof.
  intros Hp. unfold held. pose proof (grid_digits p x Hp) as Hd.
  assert (0 < 10 ^ (5 - p))%Z by (apply Z.pow_pos_nonneg; lia).
  pose proof (Z.mod_pos_bound x 100000 ltac:(lia)).
  pose proof (Z.mul_div_le (x mod 100000) (10 ^ (5 - p)) ltac:(lia)). nia.
Qed.

Lemma polar_code h E N e n p :
  (h = "N"%char ∨ h = "S"%char) → is_int E e → is_int N n → (0 <= e <= 4000000)%Z →
  (0 <= n <= 4000000)%Z → (0 <= p <= 5)%Z → ups_mgrs_code h E N p = 0%Z.
Proof.
  intros Hh HE HN He Hn Hp. unfold ups_mgrs_code, dgt, MIN_EAST_NORTH, MAX_EAST_NORTH, MAX_PRECISION.
  rewrite (is_int_dlt E #0 e 0), (is_int_dlt #4000000 E 4000000 e), (is_int_dlt N #0 n 0),
    (is_int_dlt #4000000 N 4000000 n) by (done || (apply const_int; lia)).
  rewrite !(proj2 (Z.ltb_ge _ _)) by lia. destruct Hh as [->| ->]; done.
Qed.

(** C32: grid references of the polar regions are read back.  For whole metres in the
    polar region of a hemisphere and a precision of [p] digits, [Convert_UPS_To_MGRS]
    gives a string without an error, and [Convert_MGRS_To_UPS] gives back from it the
    hemisphere and the coordinates, with the digits beyond the precision set to zero. *)
Theorem ups_mgrs_roundtrip `{Libm} (h : ascii) (E N : double) (e n p : Z) :
  pow_exact → polar h e n → is_int E e → is_int N n → (0 <= p <= 5)%Z →
  ∃ s E' N', Convert_UPS_To_MGRS h E N p = Ok (MGRS_NO_ERROR, Some s) ∧
    Convert_MGRS_To_UPS s = Ok (MGRS_NO_ERROR, Some (h, E', N')) ∧
    is_int E' (e / 10 ^ (5 - p) * 10 ^ (5 - p)) ∧ is_int N' (n / 10 ^ (5 - p) * 10 ^ (5 - p)).
Proof.
  intros Hpow Hpol HE HN Hp.
  destruct (polar_entry h E e n Hpol HE) as (l0 & index & c & fe & fn & kc & kr & Hz & Hc & L0 & Hback & Hcol & He & Hrow & Hn).
  destruct (column_letter c index fe kc E e Hcol Hc HE He) as (l1 & C1 & L1 & B1 & G1).
  destruct (row_letter c index fn kr N n Hrow Hc HN Hn) as (l2 & C2 & L2 & B2 & G2).
  assert (0 <= e < 4000000 ∧ 0 <= n < 4000000)%Z as [He0 Hn0] by (destruct Hpol as [(_ & ? & ?)|(_ & ? & ?)]; lia).
  destruct (make_break 0 l0 l1 l2 E N e n p) as (s & E' & N' & Hmake & Hbreak & HE' & HN');
    [done|lia|done..|lia|lia|].
  exists s, (ups_grid_easting c l1 + E'), (ups_grid_northing c l2 + N').
  pose proof (held_bound p e Hp). pose proof (held_bound p n Hp).
  pose proof (Z.mul_div_le e 100000 ltac:(lia)). pose proof (Z.div_pos e 100000 ltac:(lia) ltac:(lia)).
  pose proof (Z.mul_div_le n 100000 ltac:(lia)). pose proof (Z.div_pos n 100000 ltac:(lia) ltac:(lia)).
  split_and!.
  - unfold Convert_UPS_To_MGRS. rewrite (polar_code h E N e n p); [|destruct Hpol as [[-> _]|[-> _]]; auto|done..|lia|lia|done]. cbn [Z.eqb].
    rewrite Hz, Hc. cbn [mbind result_bind]. rewrite C2. cbn [mbind result_bind]. rewrite C1.
    cbn [mbind result_bind]. by rewrite Hmake.
  - unfold Convert_MGRS_To_UPS. rewrite Hbreak. cbn [broken_zone broken_letters broken_coordinates written mbind result_bind Z.eqb negb].
    rewrite Hback, Hc. cbn [mbind result_bind].
    assert (ups_bad_letters c l1 l2 = false) as ->; [|done].
    unfold ups_bad_letters in *. apply orb_false_iff in B1 as [B1 _]. by rewrite B1, B2.
  - rewrite <- held_corner, G1 by done. apply dadd_is_int; [apply const_int; lia|done|].
    change (2 ^ prec)%Z with (2 ^ 53)%Z. lia.
  - rewrite <- held_corner, G2 by done. apply dadd_is_int; [apply const_int; lia|done|].
    change (2 ^ prec)%Z with (2 ^ 53)%Z. lia.
Qed.

Lemma pow_exact_flat : @pow_exact Libm_flat.
Proof.
  intros k Hk. assert (∃ j, (j < 6)%nat ∧ k = Z.of_nat j) as (j & Hj & ->) by (exists (Z.to_nat k); lia).
  do 6 (destruct j as [|j]; [split; vm_compute; reflexivity|]). lia.
Qed.

Lemma ups_mgrs_roundtrip_witness :
  ∃ s E' N', @Convert_UPS_To_MGRS Libm_flat "N" #2123456 #1987654 3 = Ok (MGRS_NO_ERROR, Some s) ∧
    @Convert_MGRS_To_UPS Libm_flat s = Ok (MGRS_NO_ERROR, Some ("N"%char, E', N')) ∧
    is_int E' 2123400 ∧ is_int N' 1987600.
Proof.
  apply (@ups_mgrs_roundtrip Libm_flat "N" #2123456 #1987654 2123456 1987654 3 pow_exact_flat).
  - left. split_and!; [reflexivity|lia..].
  - apply const_int. lia.
  - apply const_int. lia.
  - lia.
Defined.

Lemma table_at_error {A} (t : list A) i err : table_at t i = Err err → err = UB.
Proof. unfold table_at. destruct (i <? 0)%Z; [congruence|]. destruct (t !! _); congruence. Qed.

Lemma table_at_negative {A} (t : list A) i : (i < 0)%Z → table_at t i = Err UB.
Proof. intros Hi. unfold table_at. by rewrite (proj2 (Z.ltb_lt i 0)). Qed.

(** South of the origin of its table entry [Convert_UPS_To_MGRS] reads outside
    its alphabet.  For the northern hemisphere every northing of at most
    1,200,000 passes the checks of the code, which only ask for 0 to 4,000,000, and
    leads to a negative letter index. *)
Theorem ups_mgrs_below_origin `{Libm} (E N : double) (e n p : Z) :
  is_int E e → is_int N n → (0 <= e <= 4000000)%Z → (0 <= n <= 1200000)%Z → (0 <= p <= 5)%Z →
  ups_mgrs_code "N" E N p = MGRS_NO_ERROR ∧ Convert_UPS_To_MGRS "N" E N p = Err UB.
Proof.
  intros HE HN He Hn Hp.
  assert (ups_mgrs_code "N" E N p = 0%Z) as Hcode by (apply (polar_code _ _ _ e n); [by left|done|done|lia|lia|lia]).
  split; [done|]. unfold Convert_UPS_To_MGRS. rewrite Hcode. cbn [Z.eqb].
  assert (∃ l0 i, ups_zone_letter "N" E = (l0, i) ∧ (i = 2 ∨ i = 3)%Z) as (l0 & i & -> & Hi).
  { unfold ups_zone_letter. cbn. destruct (dge E TWOMIL); eexists _, _; (split; [reflexivity|]); [by right|by left]. }
  assert (∃ c, table_at UPS_Constant_Table i = Ok c ∧ false_northing c = of_Z 1300000 ∧
    ∃ fe, false_easting c = of_Z fe ∧ (0 <= fe <= 2000000)%Z) as (c & -> & Hc & fe & Hfe & Hfeb).
  { destruct Hi as [->| ->]; eexists; (split; [reflexivity|]); (split; [reflexivity|]).
    - exists 800000%Z. split; [reflexivity|lia].
    - exists 2000000%Z. split; [reflexivity|lia]. }
  cbn [mbind result_bind]. unfold ups_row_letter, ups_column_letter. rewrite Hc, Hfe.
  rewrite (squares N _ n 1300000 HN), (squares E _ e fe HE) by ((apply const_int; lia) || lia).
  cbn [mbind result_bind mret result_ret]. unfold Make_MGRS_String.
  assert (Z.quot (n - 1300000) 100000 <= -1)%Z as Hq
    by (apply (Z.quot_le_mono (n - 1300000) (-100000) 100000); lia).
  rewrite (table_at_negative alphabet (skip_I_O _))
    by (unfold skip_I_O; rewrite (proj2 (Z.ltb_ge 7 _)), (proj2 (Z.ltb_ge 13 _)) by lia; lia).
  destruct (table_at alphabet l0) as [c0|err] eqn:E0; [|by apply table_at_error in E0 as ->].
  cbn [mbind result_bind].
  match goal with |- context [table_at alphabet ?l] => destruct (table_at alphabet l) as [c1|err] eqn:E1 end;
    [reflexivity|]. by apply table_at_error in E1 as ->.
Qed.

Lemma ups_mgrs_below_origin_witness :
  @ups_mgrs_code "N" #2000000 #1000000 5 = MGRS_NO_ERROR ∧
  @Convert_UPS_To_MGRS Libm_flat "N" #2000000 #1000000 5 = Err UB.
Proof.
  apply (@ups_mgrs_below_origin Libm_flat #2000000 #1000000 2000000 1000000 5);
    [apply const_int; lia|apply const_int; lia|lia..].
Defined.
