(* ===== verification/NumUtils.v ===== *)
(** * Numeric helpers: [src/utils/utils.h] and the class [Utils]

    The tolerance comparisons and [indexesOfMaxElems] of [utils.h], and the
    static methods of [Utils] (prefix [Utils_]) other than [convertToUtm], which
    is with the UTM conversions. *)
From Stdlib Require Import SpecFloat.
From S2P Require Import Prelude Double.

Local Open Scope Z_scope.

(** ** [utils.h] *)

Definition EPS : double := lit 1 10000.

Definition equals (a b : double) : bool := dlt (fabs (dsub a b)) EPS.
Definition greater (a b : double) : bool := dge (dsub a b) EPS.
Definition less (a b : double) : bool := dle (dsub a b) (dopp EPS).

(** The loop of [indexesOfMaxElems] from index [i] on. *)
Fixpoint indexesOfMaxElems_loop
    (i : nat) (rest : list double) (currentMax : double) (result : list nat) : list nat :=
  match rest with
  | [] => result
  | x :: rest' =>
      if greater x currentMax then
        indexesOfMaxElems_loop (S i) rest' x [i]
      else if equals x currentMax then
        indexesOfMaxElems_loop (S i) rest' currentMax (result ++ [i])
      else indexesOfMaxElems_loop (S i) rest' currentMax result
  end.

Definition indexesOfMaxElems (elems : list double) : list nat :=
  match elems with
  | [] => []
  | x :: rest => indexesOfMaxElems_loop 1 rest x [0%nat]
  end.

(** ** The class [Utils] *)

Definition EPSILON : double := lit 1 1000000.

Definition Utils_is_lesser (a b : double) : bool :=
  dlt (dsub a b) (dmul (of_Z (-2)) EPSILON).
Definition Utils_is_greater (a b : double) : bool :=
  dgt (dsub a b) (dmul (of_Z 2) EPSILON).
Definition Utils_equals (a b : double) : bool := dlt (fabs (dsub a b)) EPSILON.

Definition Utils_floor2 (a : double) : result double :=
  i ← to_int a;
  let b := of_Z i in
  if negb (negb (Utils_is_greater b a) && Utils_is_greater (dadd b (of_Z 1)) a)
  then mret (dadd b (of_Z 1))
  else mret b.

Definition Utils_ceil2 (a : double) : result double :=
  b ← Utils_floor2 a; mret (dadd b (of_Z 1)).

(** [uint16_t] arithmetic: [<<=] drops the bits above 16. *)
Definition Utils_change_bytes_order (v : Z) : Z :=
  let tmp := Z.land (Z.shiftl v 8) 65535 in
  Z.lor (Z.shiftr v 8) tmp.

Definition Utils_swap_if_required (should_be_lower should_be_bigger : double)
    : double * double :=
  if dgt should_be_lower should_be_bigger
  then (should_be_bigger, should_be_lower)
  else (should_be_lower, should_be_bigger).

(** The [do ... while (a != 0)] loop, with a bound on its iterations. *)
Fixpoint Utils_gcd_loop (fuel : nat) (a b : Z) : result Z :=
  match fuel with
  | O => Err Diverge
  | S fuel =>
      let '(a, b) := if b >? a then (b, a) else (a, b) in
      let a := wrap64 (a - b) in
      if negb (a =? 0) then Utils_gcd_loop fuel a b else Ok b
  end.

Definition PI : double := lit 314159265358979323846 100000000000000000000.

Definition Utils_d2r (degrees : double) : double := ddiv (dmul degrees PI) (of_Z 180).
Definition Utils_r2d (radians : double) : double := ddiv (dmul radians (of_Z 180)) PI.

(** [for (i = to; i > from; --i) array[i] = array[i - 1]]; [n] is [to - from]. *)
Fixpoint Utils_shift_loop (n : nat) (i : nat) (array : list Z) : result (list Z) :=
  match n with
  | O => Ok array
  | S n =>
      x ← get_opt (array !! (i - 1)%nat);
      _ ← get_opt (array !! i);
      Utils_shift_loop n (i - 1) (<[i := x]> array)
  end.

Definition Utils_shift (from to : nat) (array : list Z) : result (list Z) :=
  Utils_shift_loop (to - from) to array.

#[global] Arguments equals : simpl never.
#[global] Arguments greater : simpl never.
#[global] Arguments less : simpl never.
#[global] Arguments Utils_is_lesser : simpl never.
#[global] Arguments Utils_is_greater : simpl never.
#[global] Arguments Utils_equals : simpl never.
#[global] Arguments Utils_floor2 : simpl never.
#[global] Arguments Utils_ceil2 : simpl never.

(** ** The tolerance comparisons *)

Lemma EPS_finite : ∃ m e, EPS = S754_finite false m e.
Proof. unfold EPS. vm_compute. eauto. Qed.

Lemma opposite_dle x y c : opposite x y → dle x (dopp c) = dle c y.
Proof.
  intros [->|(s & s' & -> & ->)]; unfold dle.
  - by rewrite <- (dcompare_dopp (dopp x) c), dopp_involutive.
  - rewrite <- (dcompare_dopp (S754_zero s') c). by destruct c.
Qed.

Lemma less_greater a b : less a b = greater b a.
Proof. apply opposite_dle, dsub_opposite. Qed.

Lemma equals_comm a b : equals a b = equals b a.
Proof. unfold equals. by rewrite fabs_dsub_comm. Qed.

Lemma near_cases d m e :
  let E := S754_finite false m e in
  is_nan d = false →
  match dle d (dopp E), dlt (fabs d) E, dle E d with
  | true, false, false | false, true, false | false, false, true => True
  | _, _, _ => False
  end.
Proof.
  intros E Hd. destruct (nonneg d) eqn:Hn.
  - assert (dle d (dopp E) = false) as -> by (by apply nonneg_not_dle).
    assert (dcompare (fabs d) E = dcompare d E) as Hf by (by destruct d as [|[]| |[]]).
    unfold dlt, dle. rewrite Hf, (dcompare_swap d E).
    destruct (dcompare d E) as [[]|] eqn:Hc; simpl; try done.
    apply dcompare_nan in Hc. naive_solver congruence.
  - assert (dcompare (fabs d) E = dcompare (dopp d) E) as Hf by (by destruct d as [|[]| |[]]).
    assert (dle E d = false) as ->.
    { rewrite <- (dopp_involutive d), <- (dopp_involutive E). unfold dle.
      rewrite dcompare_dopp. apply nonneg_not_dle. by destruct d as [|[]| |[]]. }
    unfold dlt, dle. rewrite Hf.
    rewrite <- (dcompare_dopp (dopp E) d), dopp_involutive.
    rewrite (dcompare_swap (dopp d) E).
    destruct (dcompare (dopp d) E) as [[]|] eqn:Hc; simpl; try done.
    apply dcompare_nan in Hc. destruct d; naive_solver.
Qed.

(** The three tolerance tests as a three-way comparison. *)
Definition near_compare (a b : double) : list comparison :=
  (if less a b then [Lt] else []) ++ (if equals a b then [Eq] else []) ++
  (if greater a b then [Gt] else []).

(** [less], [equals] and [greater] partition the pairs of numbers: whenever
    the difference [a - b] is a number, exactly one of the three tests holds,
    and swapping the arguments turns [less] into [greater] and back and leaves
    [equals] as it is. *)
Theorem near_trichotomy (a b : double) :
  is_nan (dsub a b) = false →
  length (near_compare a b) = 1%nat ∧
  less a b = greater b a ∧ equals a b = equals b a.
Proof.
  intros Hd. split; [|auto using less_greater, equals_comm].
  destruct EPS_finite as (m & e & HE).
  pose proof (near_cases (dsub a b) m e Hd) as H. cbv zeta in H. rewrite <- HE in H.
  unfold near_compare, less, equals, greater, dge.
  destruct (dle (dsub a b) (dopp EPS)), (dlt (fabs (dsub a b)) EPS),
    (dle EPS (dsub a b)); done.
Qed.

Lemma near_trichotomy_witness :
  length (near_compare (of_Z 3) (lit 5 2)) = 1%nat ∧
  less (of_Z 3) (lit 5 2) = greater (lit 5 2) (of_Z 3) ∧
  equals (of_Z 3) (lit 5 2) = equals (lit 5 2) (of_Z 3).
Proof. apply (near_trichotomy (of_Z 3) (lit 5 2)). reflexivity. Defined.

Lemma dle_not_less a b : dle b a = true → less a b = false.
Proof.
  intros H. destruct EPS_finite as (m & e & HE).
  unfold less. rewrite HE. by apply nonneg_not_dle, dsub_nonneg.
Qed.

(** ** [indexesOfMaxElems] *)

(** [p] is the index of the running maximum [M], [res] the indices of the
    elements of [l] found near it. *)
Definition near_max (l : list double) (p : nat) (M : double) (res : list nat) : Prop :=
  l !! p = Some M ∧ head res = Some p ∧
  (∀ i, i ∈ res ↔ i = p ∨ (p < i)%nat ∧ ∃ x, l !! i = Some x ∧ equals x M = true) ∧
  (∀ i x, (p < i)%nat → l !! i = Some x → greater x M = false).

Lemma greater_not_equals x M : greater x M = true → equals x M = false.
Proof.
  intros H. destruct (is_nan (dsub x M)) eqn:Hn.
  { unfold equals. by destruct (dsub x M). }
  destruct EPS_finite as (m & e & HE).
  pose proof (near_cases (dsub x M) m e Hn) as Hc. cbv zeta in Hc. rewrite <- HE in Hc.
  unfold greater, dge in H. rewrite H in Hc. unfold equals.
  by destruct (dle (dsub x M) (dopp EPS)), (dlt (fabs (dsub x M)) EPS).
Qed.

Lemma indexesOfMaxElems_loop_spec rest l p M res :
  near_max l p M res →
  ∃ p' M', near_max (l ++ rest) p' M'
             (indexesOfMaxElems_loop (length l) rest M res).
Proof.
  revert l p M res. induction rest as [|x rest IH]; intros l p M res Hn; simpl.
  { rewrite app_nil_r. eauto. }
  replace (S (length l)) with (length (l ++ [x])) by (rewrite length_app; simpl; lia).
  replace (l ++ x :: rest) with ((l ++ [x]) ++ rest) by (by rewrite <- app_assoc).
  assert (∀ i y, (l ++ [x]) !! i = Some y ↔ l !! i = Some y ∨ i = length l ∧ y = x) as Hl.
  { intros i y. rewrite lookup_app_Some, list_lookup_singleton_Some.
    split; [intros [?|(? & ? & ->)]|intros [?|[-> ->]]];
      [by left|right; split; [lia|done]|by left|right; split_and!; [lia|lia|done]]. }
  destruct Hn as (HM & Hhd & Hin & Hgt).
  assert (p < length l)%nat as Hp by (by eapply lookup_lt_Some).
  destruct (greater x M) eqn:Hg; [|destruct (equals x M) eqn:He];
    [apply (IH _ (length l) x)|apply (IH _ p M)|apply (IH _ p M)].
  - split_and!; [by rewrite lookup_app_r, Nat.sub_diag by lia|done| |].
    + intros i. rewrite list_elem_of_singleton. split; [by left|].
      intros [->|(? & y & [Hy|[-> ->]]%Hl & _)]; [done| |lia].
      apply lookup_lt_Some in Hy. lia.
    + intros i y Hi [Hy|[-> ->]]%Hl; [apply lookup_lt_Some in Hy; lia|lia].
  - split_and!; [by rewrite lookup_app_l| | |].
    + by destruct res.
    + intros i. rewrite elem_of_app, list_elem_of_singleton, Hin. setoid_rewrite Hl.
      split; [|intros [->|(? & y & [?|[-> ->]] & ?)]; eauto 8].
      intros [[->|(? & y & ? & ?)]| ->]; [by left|right; eauto 6|].
      right. split; [lia|]. eauto.
    + intros i y Hi [Hy|[-> ->]]%Hl; eauto.
  - split_and!; [by rewrite lookup_app_l|done| |].
    + intros i. rewrite Hin. setoid_rewrite Hl.
      split; [intros [->|(? & y & ? & ?)]; eauto 7|].
      intros [->|(? & y & [?|[-> ->]] & ?)]; [by left|eauto 6|congruence].
    + intros i y Hi [Hy|[-> ->]]%Hl; eauto.
Qed.

(** On a non-empty vector [indexesOfMaxElems] returns a non-empty list whose
    first index [p] holds the running maximum [M]: nothing after [p] is greater
    than [M] beyond the tolerance, and the list holds exactly [p] and the later
    indices whose element equals [M] up to the tolerance. *)
Theorem indexesOfMaxElems_spec (elems : list double) :
  elems ≠ [] → ∃ p M, near_max elems p M (indexesOfMaxElems elems).
Proof.
  destruct elems as [|x rest]; [done|]. intros _.
  destruct (indexesOfMaxElems_loop_spec rest [x] 0 x [0%nat]) as (p & M & H); eauto.
  split_and!; [done|done| |].
  - intros i. rewrite list_elem_of_singleton. split; [by left|].
    intros [->|(? & y & Hy & _)]; [done|]. by apply list_lookup_singleton_Some in Hy as [-> _].
  - intros i y Hi Hy. apply list_lookup_singleton_Some in Hy as [-> _]. lia.
Qed.

Lemma indexesOfMaxElems_spec_witness :
  ∃ p M, near_max [of_Z 1; of_Z 3; of_Z 2; of_Z 3] p M
           (indexesOfMaxElems [of_Z 1; of_Z 3; of_Z 2; of_Z 3]).
Proof. apply indexesOfMaxElems_spec. discriminate. Defined.

(** ** [floor2] and [ceil2] *)

Lemma to_int_Ok a k : to_int a = Ok k → trunc a = Some k ∧ INT_MIN ≤ k ≤ INT_MAX.
Proof.
  unfold to_int, cast. destruct (trunc a) as [z|]; [|done].
  destruct (Z.leb_spec INT_MIN z), (Z.leb_spec z INT_MAX); simpl; naive_solver.
Qed.

Lemma of_int_is_int k : INT_MIN ≤ k ≤ INT_MAX → is_int (of_Z k) k.
Proof. unfold INT_MIN, INT_MAX. intros. apply of_Z_is_int. lia. Qed.

Lemma add1_is_int x k :
  is_int x k → - 2 ^ 52 < k < 2 ^ 52 → is_int (dadd x (of_Z 1)) (k + 1).
Proof. intros. apply dadd_is_int; [done|by apply of_Z_is_int|lia]. Qed.

(** Both are integers next to the truncated argument. *)
Lemma floor2_int a b :
  Utils_floor2 a = Ok b →
  ∃ k j, trunc a = Some k ∧ is_int b j ∧ (j = k ∨ j = k + 1) ∧ INT_MIN ≤ k ≤ INT_MAX.
Proof.
  unfold Utils_floor2. intros H. inv_ok H. apply to_int_Ok in Hr as [Ht Hb].
  pose proof (of_int_is_int r Hb) as Hi. exists r.
  pose proof (add1_is_int _ _ Hi) as Hi1. unfold INT_MIN, INT_MAX in *.
  destruct (negb _) in H; injection H as <-.
  - exists (r + 1). split_and!; [done|apply Hi1; lia|by right|lia|lia].
  - exists r. split_and!; [done|done|by left|lia|lia].
Qed.

Lemma ceil2_int a b :
  Utils_ceil2 a = Ok b →
  ∃ k j, trunc a = Some k ∧ is_int b j ∧ (j = k + 1 ∨ j = k + 2) ∧ INT_MIN ≤ k ≤ INT_MAX.
Proof.
  unfold Utils_ceil2. intros H. inv_ok H. injection H as <-.
  apply floor2_int in Hr as (k & j & Ht & Hi & Hj & Hk). unfold INT_MIN, INT_MAX in *.
  exists k, (j + 1). split_and!; [done|apply add1_is_int; [done|lia]|lia..].
Qed.

Lemma trunc_nonneg_le a k :
  dle (S754_zero false) a = true → trunc a = Some k → 0 ≤ k ∧ dle (of_Z k) a = true ∨ 2 ^ 52 ≤ k.
Proof.
  intros Ha Ht. destruct (Z_lt_le_dec k (2 ^ 52)) as [Hk|]; [left|by right].
  destruct a as [s|s| |s m e]; try done.
  { injection Ht as <-. done. }
  destruct s.
  { exfalso. apply (dle_finite (Z.min 0 e)) in Ha; [|done..|simpl; lia|simpl; lia].
    destruct (at_exp_finite (Z.min 0 e) true m e) as [p Hp]; [lia|].
    rewrite Hp in Ha. done. }
  injection Ht as Ht. simpl in Ht.
  assert (0 ≤ k) as Hk0.
  { rewrite <- Ht. destruct (Z.leb_spec 0 e).
    - apply Z.mul_nonneg_nonneg; [lia|]. apply Z.pow_nonneg. lia.
    - apply Z.div_pos; [lia|]. apply Z.pow_pos_nonneg; lia. }
  split; [done|].
  assert (is_int (of_Z k) k) as Hi by (apply of_Z_is_int; lia).
  set (el := Z.min (Z.min 0 e) (exponent (of_Z k))).
  apply (dle_finite el); [apply Hi|done|lia|simpl; lia|].
  rewrite (is_int_at _ _ el Hi) by lia. unfold at_exp. cbn [significand exponent cond_opp].
  assert (0 < 2 ^ (- el)) by (apply Z.pow_pos_nonneg; lia).
  destruct (Z.leb_spec 0 e).
  - replace (e - el) with (e + (- el)) by lia. rewrite Z.pow_add_r by lia. nia.
  - replace (- el) with (- e + (e - el)) by lia. rewrite Z.pow_add_r by lia.
    assert (0 < 2 ^ (e - el)) by (apply Z.pow_pos_nonneg; lia).
    assert (0 < 2 ^ (- e)) by (apply Z.pow_pos_nonneg; lia).
    pose proof (Z.mul_div_le (Zpos m) (2 ^ (- e))). nia.
Qed.

Lemma nonneg_not_dgt x m e :
  nonneg x = true → dlt x (S754_finite true m e) = false.
Proof.
  intros H. apply (nonneg_not_dle x e m) in H. unfold dle, dlt in *.
  by destruct (dcompare x (S754_finite true m e)) as [[]|].
Qed.

Lemma not_greater_below a b : dle b a = true → Utils_is_greater b a = false.
Proof.
  intros H. unfold Utils_is_greater, dgt.
  assert (∃ m e, dmul (of_Z 2) EPSILON = S754_finite false m e) as (m & e & ->).
  { vm_compute. eauto. }
  destruct (dlt _ _) eqn:Hlt; [|done]. exfalso.
  destruct (dsub_opposite a b) as [Ho|(s & s' & _ & Ho)].
  - apply dcompare_Lt in Hlt. rewrite Ho in Hlt.
    rewrite <- (dcompare_dopp (dopp (dsub a b))), dopp_involutive in Hlt.
    apply dcompare_Lt in Hlt. change (dopp _) with (S754_finite true m e) in Hlt.
    by rewrite nonneg_not_dgt in Hlt by (by apply dsub_nonneg).
  - apply dlt_not_dle in Hlt. rewrite Ho in Hlt. unfold dle in Hlt. simpl in Hlt.
    unfold scaled_compare in Hlt. simpl in Hlt.
    set (q := 2 ^ (e - _)) in *. assert (0 < q) by (apply Z.pow_pos_nonneg; lia).
    destruct q; done.
Qed.

(** For an argument [0 <= a] that fits an [int], [floor2] is the truncation
    [k], except that it is [k + 1] when [a] comes within [2 * EPSILON] of [k + 1];
    both results are exact integers, and [ceil2] is always one more. *)
Theorem floor2_nonneg (a : double) (k : Z) :
  dle (S754_zero false) a = true → to_int a = Ok k →
  ∃ b c j, Utils_floor2 a = Ok b ∧ Utils_ceil2 a = Ok c ∧
    is_int b j ∧ is_int c (j + 1) ∧
    j = if Utils_is_greater (dadd (of_Z k) (of_Z 1)) a then k else k + 1.
Proof.
  intros Ha Hk. destruct (to_int_Ok _ _ Hk) as [Ht Hb].
  destruct (trunc_nonneg_le a k Ha Ht) as [[Hk0 Hle]|]; [|unfold INT_MAX in *; lia].
  pose proof (of_int_is_int k Hb) as Hi. unfold INT_MIN, INT_MAX in *.
  unfold Utils_ceil2, Utils_floor2. rewrite Hk.
  cbv beta iota zeta delta [mbind result_bind mret result_ret].
  rewrite (not_greater_below a (of_Z k) Hle). simpl negb at 2. rewrite andb_true_l.
  destruct (Utils_is_greater _ a); cbn [negb].
  - do 3 eexists. split_and!; [done|done|exact Hi|apply add1_is_int; [exact Hi|lia]|done].
  - do 3 eexists. assert (is_int (dadd (of_Z k) (of_Z 1)) (k + 1))
      by (apply add1_is_int; [done|lia]).
    split_and!; [done|done|done|by apply add1_is_int; [|lia]|done].
Qed.

Lemma floor2_nonneg_witness :
  ∃ b c j, Utils_floor2 (lit 7 2) = Ok b ∧ Utils_ceil2 (lit 7 2) = Ok c ∧
    is_int b j ∧ is_int c (j + 1) ∧
    j = if Utils_is_greater (dadd (of_Z 3) (of_Z 1)) (lit 7 2) then 3 else 3 + 1.
Proof. apply (floor2_nonneg (lit 7 2) 3); vm_compute; reflexivity. Defined.

(** [floor2] is not a floor on negative numbers: the truncation is rounded
    up once more, so [floor2(-0.5)] is 1 and [floor2(-1.5)] is 0. *)
Theorem floor2_negative_rounds_up :
  Utils_floor2 (dopp (lit 1 2)) = Ok (of_Z 1) ∧
  Utils_floor2 (dopp (lit 3 2)) = Ok (S754_zero false).
Proof. split; vm_compute; reflexivity. Qed.

(** ** Byte order, ordering of a pair, greatest common divisor, shift *)

Lemma change_bytes_order_arith v :
  0 ≤ v < 2 ^ 16 → Utils_change_bytes_order v = v mod 256 * 256 + v / 256.
Proof.
  intros Hv. unfold Utils_change_bytes_order.
  change 65535 with (Z.ones 16). rewrite Z.land_ones, Z.shiftl_mul_pow2, Z.shiftr_div_pow2 by lia.
  change (2 ^ 16) with (2 ^ 8 * 2 ^ 8). rewrite Z.mul_mod_distr_r by lia.
  change (2 ^ 8) with 256. rewrite Z.lor_comm.
  assert (0 ≤ v / 256 < 2 ^ 8) as Hd by (split; [apply Z.div_pos|apply Z.div_lt_upper_bound]; lia).
  rewrite Z.add_nocarry_lxor, Z.lxor_lor; [done| |].
  all: apply Z.bits_inj'; intros n Hn; rewrite Z.land_spec, Z.bits_0;
    destruct (Z_lt_le_dec n 8);
    [replace (v mod 256 * 256) with (v mod 256 * 2 ^ 8) by lia;
     rewrite Z.mul_pow2_bits_low by lia; done|].
  all: apply andb_false_intro2; destruct (Z.eq_dec (v / 256) 0) as [->|];
    [apply Z.bits_0|]; apply Z.bits_above_log2; [lia|];
    apply Z.lt_le_trans with 8; [|done]; apply Z.log2_lt_pow2; lia.
Qed.

(** [change_bytes_order] exchanges the two bytes of a 16-bit number, stays
    within 16 bits, and is its own inverse. *)
Theorem change_bytes_order_swaps (v : Z) :
  0 ≤ v < 2 ^ 16 →
  Utils_change_bytes_order v = v mod 256 * 256 + v / 256 ∧
  0 ≤ Utils_change_bytes_order v < 2 ^ 16 ∧
  Utils_change_bytes_order (Utils_change_bytes_order v) = v.
Proof.
  intros Hv. rewrite (change_bytes_order_arith v Hv).
  pose proof (Z.mod_pos_bound v 256). pose proof (Z.div_mod v 256).
  assert (0 ≤ v / 256 < 256) by (split; [apply Z.div_pos|apply Z.div_lt_upper_bound]; lia).
  split_and!; [done|lia|lia|].
  rewrite change_bytes_order_arith by lia.
  rewrite (Z.add_comm (v mod 256 * 256)), Z.mod_add, Z.div_add, (Z.mod_small (v / 256)),
    (Z.div_small (v / 256)) by lia. lia.
Qed.

Lemma change_bytes_order_swaps_witness :
  Utils_change_bytes_order 4660 = 4660 mod 256 * 256 + 4660 / 256 ∧
  0 ≤ Utils_change_bytes_order 4660 < 2 ^ 16 ∧
  Utils_change_bytes_order (Utils_change_bytes_order 4660) = 4660.
Proof. apply (change_bytes_order_swaps 4660). lia. Defined.

Lemma swap_if_required_ordered a b :
  is_nan a = false → is_nan b = false →
  let '(lo, hi) := Utils_swap_if_required a b in
  dle lo hi = true ∧ ((lo, hi) = (a, b) ∨ (lo, hi) = (b, a)).
Proof.
  intros Ha Hb. unfold Utils_swap_if_required, dgt.
  destruct (dlt b a) eqn:H.
  - split; [|by right]. apply dcompare_Lt in H. apply dcompare_Le. by left.
  - split; [|by left]. destruct (dle a b) eqn:H'; [done|].
    by rewrite (not_dle_dlt a b) in H.
Qed.

Lemma gcd_loop_total fuel a b :
  0 < a < 2 ^ 64 → 0 < b < 2 ^ 64 → a + b ≤ Z.of_nat fuel →
  Utils_gcd_loop fuel a b = Ok (Z.gcd a b).
Proof.
  revert a b. induction fuel as [|fuel IH]; intros a b Ha Hb Hf; [lia|].
  assert (∀ x y, 0 < y ≤ x → x < 2 ^ 64 → x + y = a + b →
    (if negb (wrap64 (x - y) =? 0)
     then Utils_gcd_loop fuel (wrap64 (x - y)) y else Ok y) = Ok (Z.gcd x y)) as Hstep.
  { intros x y Hxy Hx Hs. unfold wrap64. rewrite Z.mod_small by lia.
    destruct (Z.eqb_spec (x - y) 0) as [He|Hne]; simpl.
    - f_equal. replace x with y by lia. rewrite Z.gcd_diag. lia.
    - rewrite IH by lia. f_equal.
      rewrite Z.gcd_comm, Z.gcd_sub_diag_r, Z.gcd_comm. done. }
  simpl. destruct (Z.gtb_spec b a); rewrite Hstep by lia; [by rewrite Z.gcd_comm|done].
Qed.

Lemma gcd_loop_stuck fuel a b :
  (0 < a < 2 ^ 64 ∧ b = 0) ∨ (a = 0 ∧ 0 < b < 2 ^ 64) →
  Utils_gcd_loop fuel a b = Err Diverge.
Proof.
  revert a b. induction fuel as [|fuel IH]; intros a b H; [done|]. simpl.
  destruct (Z.gtb_spec b a); unfold wrap64; destruct H as [[? ->]|[-> ?]]; try lia;
    rewrite Z.sub_0_r, Z.mod_small by lia;
    match goal with |- context [?x =? 0] => destruct (Z.eqb_spec x 0); [lia|] end;
    apply IH; lia.
Qed.

(** [Utils::gcd] computes the greatest common divisor of two positive
    [size_t] within [a + b] iterations of its loop, and when exactly one of the
    arguments is zero the loop never ends, whatever the number of iterations. *)
Theorem gcd_terminates_iff_positive (a b : Z) :
  0 < a < 2 ^ 64 → 0 < b < 2 ^ 64 →
  (∀ fuel, a + b ≤ Z.of_nat fuel → Utils_gcd_loop fuel a b = Ok (Z.gcd a b)) ∧
  (∀ fuel, Utils_gcd_loop fuel a 0 = Err Diverge ∧ Utils_gcd_loop fuel 0 b = Err Diverge).
Proof.
  intros Ha Hb. split; [intros; by apply gcd_loop_total|].
  intros fuel. split; apply gcd_loop_stuck; eauto.
Qed.

Lemma gcd_terminates_iff_positive_witness :
  (∀ fuel, 12 + 18 ≤ Z.of_nat fuel → Utils_gcd_loop fuel 12 18 = Ok (Z.gcd 12 18)) ∧
  (∀ fuel, Utils_gcd_loop fuel 12 0 = Err Diverge ∧ Utils_gcd_loop fuel 0 18 = Err Diverge).
Proof. apply (gcd_terminates_iff_positive 12 18); lia. Defined.

Lemma shift_loop_spec n i l :
  (n ≤ i)%nat → (i < length l)%nat →
  ∃ l', Utils_shift_loop n i l = Ok l' ∧ length l' = length l ∧
    ∀ j, l' !! j = if decide (i - n < j ≤ i)%nat then l !! (j - 1)%nat else l !! j.
Proof.
  revert i l. induction n as [|n IH]; intros i l Hn Hi; simpl.
  { exists l. split_and!; [done|done|]. intros j. case_decide; [lia|done]. }
  destruct (lookup_lt_is_Some_2 l (i - 1)) as [x Hx]; [lia|].
  destruct (lookup_lt_is_Some_2 l i) as [y Hy]; [lia|].
  rewrite Hx, Hy. simpl.
  destruct (IH (i - 1)%nat (<[i := x]> l)) as (l' & Hl' & Hlen & Hj);
    [lia|rewrite length_insert; lia|].
  exists l'. rewrite length_insert in Hlen. split_and!; [done|done|].
  intros j. rewrite Hj.
  destruct (decide (j = i)) as [->|].
  - rewrite decide_False, decide_True by lia.
    by rewrite list_lookup_insert_eq by lia.
  - destruct (decide (i - 1 - n < j ≤ i - 1)%nat).
    + rewrite decide_True by lia. by rewrite list_lookup_insert_ne by lia.
    + rewrite decide_False by lia. by rewrite list_lookup_insert_ne by lia.
Qed.
