(* ===== verification/Model.v ===== *)
(** * The mesh data: [src/model/Coordinates.h], [NodeData.h], [EdgeData.h]

    The classes as records, their methods as functions; a setter returns the
    changed record.  The constructors of [Coordinates] that read a height from a
    [Map] are with the map. *)
From Stdlib Require Import SpecFloat.
From S2P Require Import Prelude Double NumUtils.

(** ** [Coordinates] *)

Record Coordinates := mkCoordinates { getX : double; getY : double; getZ : double }.

(** [Coordinates()], value-initialised where the program uses it. *)
Definition Coordinates0 : Coordinates :=
  mkCoordinates (S754_zero false) (S754_zero false) (S754_zero false).

Definition Coordinates2 (x y : double) : Coordinates := mkCoordinates x y (S754_zero false).

Definition setXYZ (x y z : double) (c : Coordinates) : Coordinates := mkCoordinates x y z.

Definition dist3D (c rhs : Coordinates) : double :=
  dsqrt (dadd (dadd (sqr (dsub (getX c) (getX rhs))) (sqr (dsub (getY c) (getY rhs))))
              (sqr (dsub (getZ c) (getZ rhs)))).

Definition dist2D (c rhs : Coordinates) : double :=
  dsqrt (dadd (sqr (dsub (getX c) (getX rhs))) (sqr (dsub (getY c) (getY rhs)))).

Definition dist (c rhs : Coordinates) (version2D : bool) : double :=
  if version2D then dist2D c rhs else dist3D c rhs.

Definition isXYequal (c rhs : Coordinates) : bool :=
  equals (getX c) (getX rhs) && equals (getY c) (getY rhs).

Definition coords_plus (c rhs : Coordinates) : Coordinates :=
  mkCoordinates (dadd (getX c) (getX rhs)) (dadd (getY c) (getY rhs)) (dadd (getZ c) (getZ rhs)).
Definition coords_minus (c rhs : Coordinates) : Coordinates :=
  mkCoordinates (dsub (getX c) (getX rhs)) (dsub (getY c) (getY rhs)) (dsub (getZ c) (getZ rhs)).
Definition coords_times (c : Coordinates) (rhs : double) : Coordinates :=
  mkCoordinates (dmul (getX c) rhs) (dmul (getY c) rhs) (dmul (getZ c) rhs).
Definition coords_div (c : Coordinates) (rhs : double) : Coordinates :=
  mkCoordinates (ddiv (getX c) rhs) (ddiv (getY c) rhs) (ddiv (getZ c) rhs).

Definition coords_eq (c rhs : Coordinates) : bool :=
  equals (getX c) (getX rhs) && equals (getY c) (getY rhs) && equals (getZ c) (getZ rhs).
Definition coords_neq (c rhs : Coordinates) : bool := negb (coords_eq rhs c).

Definition coords_lt (c rhs : Coordinates) : bool :=
  if less (getX c) (getX rhs) then true
  else if less (getX rhs) (getX c) then false
  else if less (getY c) (getY rhs) then true
  else if less (getY rhs) (getY c) then false
  else less (getZ c) (getZ rhs).
Definition coords_gt (c rhs : Coordinates) : bool := coords_lt rhs c.
Definition coords_le (c rhs : Coordinates) : bool := negb (coords_lt rhs c).
Definition coords_ge (c rhs : Coordinates) : bool := negb (coords_lt c rhs).

(** ** [NodeData]: a vertex of the mesh or the interior (hyperedge) of a triangle *)

Record NodeData := mkNodeData {
  isHyperEdge : bool;
  getCoords : Coordinates;
  isToRefine : bool;
  isHanging : bool;
}.

(** [NodeData(isHyperEdge, coords, hanging)] *)
Definition NodeData_vertex (hyper : bool) (coords : Coordinates) (hanging : bool) : NodeData :=
  mkNodeData hyper coords false hanging.
(** [NodeData(isHyperEdge, toRefine)] *)
Definition NodeData_interior (hyper toRefine : bool) : NodeData :=
  mkNodeData hyper Coordinates0 toRefine false.
(** [NodeData(isHyperEdge, toRefine, coords)] *)
Definition NodeData_interior_at (hyper toRefine : bool) (coords : Coordinates) : NodeData :=
  mkNodeData hyper coords toRefine false.

Definition setCoords (c : Coordinates) (n : NodeData) : NodeData :=
  mkNodeData (isHyperEdge n) (setXYZ (getX c) (getY c) (getZ c) (getCoords n))
    (isToRefine n) (isHanging n).
Definition setToRefine (refine : bool) (n : NodeData) : NodeData :=
  mkNodeData (isHyperEdge n) (getCoords n) refine (isHanging n).
Definition setHanging (hangingNode : bool) (n : NodeData) : NodeData :=
  mkNodeData (isHyperEdge n) (getCoords n) (isToRefine n) hangingNode.

Definition node_eq (n rhs : NodeData) : bool :=
  Bool.eqb (isHyperEdge n) (isHyperEdge rhs) && coords_eq (getCoords n) (getCoords rhs) &&
  (if isHyperEdge n then Bool.eqb (isToRefine n) (isToRefine rhs)
   else Bool.eqb (isHanging n) (isHanging rhs)).

(** [<] on [bool]. *)
Definition bool_lt (a b : bool) : bool := negb a && b.

Definition node_lt (n rhs : NodeData) : bool :=
  if bool_lt (isHyperEdge n) (isHyperEdge rhs) then true
  else if bool_lt (isHyperEdge rhs) (isHyperEdge n) then false
  else if coords_lt (getCoords n) (getCoords rhs) then true
  else if coords_lt (getCoords rhs) (getCoords n) then false
  else if isHyperEdge n then bool_lt (isToRefine n) (isToRefine rhs)
  else bool_lt (isHanging n) (isHanging rhs).

(** ** [EdgeData] *)

Record EdgeData := mkEdgeData {
  isBorder : bool;
  getLength : double;
  getMiddlePoint : Coordinates;
}.

(** [EdgeData()] *)
Definition EdgeData0 : EdgeData := mkEdgeData false (of_Z (-1)) Coordinates0.

Definition setBorder (b : bool) (e : EdgeData) : EdgeData :=
  mkEdgeData b (getLength e) (getMiddlePoint e).
Definition setLength (l : double) (e : EdgeData) : EdgeData :=
  mkEdgeData (isBorder e) l (getMiddlePoint e).
Definition setMiddlePoint (c : Coordinates) (e : EdgeData) : EdgeData :=
  mkEdgeData (isBorder e) (getLength e)
    (setXYZ (getX c) (getY c) (getZ c) (getMiddlePoint e)).

#[global] Arguments dist : simpl never.
#[global] Arguments isXYequal : simpl never.
#[global] Arguments coords_plus : simpl never.
#[global] Arguments coords_div : simpl never.
#[global] Arguments coords_eq : simpl never.
#[global] Arguments coords_lt : simpl never.

(** ** The order on coordinates *)

Lemma less_asym a b : less a b = true → less b a = false.
Proof.
  intros H. rewrite less_greater in *.
  destruct (is_nan (dsub a b)) eqn:Hn.
  { rewrite <- less_greater in H. unfold less in H.
    destruct (dsub a b); done. }
  destruct EPS_finite as (m & e & HE).
  pose proof (near_cases (dsub a b) m e Hn) as Hc. cbv zeta in Hc. rewrite <- HE in Hc.
  rewrite <- less_greater in H. unfold less in H. unfold greater, dge.
  rewrite H in Hc. by destruct (dlt (fabs (dsub a b)) EPS), (dle EPS (dsub a b)).
Qed.

Lemma coords_lt_asym c d : coords_lt c d = true → coords_lt d c = false.
Proof.
  unfold coords_lt. intros H.
  destruct (less (getX c) (getX d)) eqn:Hx; [by rewrite (less_asym _ _ Hx)|].
  destruct (less (getX d) (getX c)); [done|].
  destruct (less (getY c) (getY d)) eqn:Hy; [by rewrite (less_asym _ _ Hy)|].
  destruct (less (getY d) (getY c)); [done|]. by apply less_asym.
Qed.

(** Two coordinates whose differences are numbers compare in exactly one of
    the ways [<], [==], [>], and [<=], [>=], [!=] are the negations of [>], [<], [==]. *)
Theorem coords_order_total (c d : Coordinates) :
  is_nan (dsub (getX c) (getX d)) = false → is_nan (dsub (getY c) (getY d)) = false →
  is_nan (dsub (getZ c) (getZ d)) = false →
  match coords_lt c d, coords_eq c d, coords_gt c d with
  | true, false, false | false, true, false | false, false, true => True
  | _, _, _ => False
  end ∧
  coords_le c d = negb (coords_gt c d) ∧ coords_ge c d = negb (coords_lt c d) ∧
  coords_neq c d = negb (coords_eq c d).
Proof.
  intros Hx Hy Hz. split_and!; [|done|done|].
  - unfold coords_gt, coords_lt, coords_eq.
    assert (∀ a b, is_nan (dsub a b) = false →
      match less a b, equals a b, less b a with
      | true, false, false | false, true, false | false, false, true => True
      | _, _, _ => False end) as Htri.
    { intros a b Hn. rewrite (less_greater b a). destruct EPS_finite as (m & e & HE).
      pose proof (near_cases (dsub a b) m e Hn) as Hc. cbv zeta in Hc.
      rewrite <- HE in Hc. unfold less, equals, greater, dge. done. }
    pose proof (Htri _ _ Hx). pose proof (Htri _ _ Hy). pose proof (Htri _ _ Hz).
    destruct (less (getX c) (getX d)), (equals (getX c) (getX d)),
      (less (getX d) (getX c)); try done.
    destruct (less (getY c) (getY d)), (equals (getY c) (getY d)),
      (less (getY d) (getY c)); try done.
  - unfold coords_neq, coords_eq.
    by rewrite (equals_comm (getX d)), (equals_comm (getY d)), (equals_comm (getZ d)).
Qed.

Lemma coords_order_total_witness :
  match coords_lt Coordinates0 (Coordinates2 (of_Z 1) (of_Z 2)),
        coords_eq Coordinates0 (Coordinates2 (of_Z 1) (of_Z 2)),
        coords_gt Coordinates0 (Coordinates2 (of_Z 1) (of_Z 2)) with
  | true, false, false | false, true, false | false, false, true => True
  | _, _, _ => False
  end ∧
  coords_le Coordinates0 (Coordinates2 (of_Z 1) (of_Z 2)) =
    negb (coords_gt Coordinates0 (Coordinates2 (of_Z 1) (of_Z 2))) ∧
  coords_ge Coordinates0 (Coordinates2 (of_Z 1) (of_Z 2)) =
    negb (coords_lt Coordinates0 (Coordinates2 (of_Z 1) (of_Z 2))) ∧
  coords_neq Coordinates0 (Coordinates2 (of_Z 1) (of_Z 2)) =
    negb (coords_eq Coordinates0 (Coordinates2 (of_Z 1) (of_Z 2))).
Proof. apply coords_order_total; vm_compute; reflexivity. Defined.
