(* ===== verification/TerrainMap.v ===== *)
(** * [src/model/Map.h], [Map.cpp], [Utils::convertToUtm] and the constructors of
      [Coordinates] that read a map

    The state of the projection code ([Utm]) is passed along.  The matrix of
    heights is a list of rows; a cell is [None] until it is written. *)
From Stdlib Require Import SpecFloat Ascii.
From S2P Require Import Prelude Double Libm TranMerc Utm NumUtils Model.

Local Open Scope double_scope.

Abbreviation matrix := (list (list (option double))).

(** Fields the constructor leaves uninitialised start as zero here; the program
    sets them before it reads them. *)
Record Map := mkMap {
  map_width : Z;
  map_length : Z;
  cell_width : double;
  cell_length : double;
  map_data : matrix;
  north_border : double;
  west_border : double;
  isUtm : bool;
  map_zone : Z;
  map_hemisphere : ascii;
}.

(** [Map(data, width, length, cellWidth, cellLength)] *)
Definition new_Map (d : matrix) (w l : Z) (cw cl : double) : Map :=
  mkMap w l cw cl d #0 #0 true 0 "000".

Definition setNorthBorder (b : double) (m : Map) : Map :=
  mkMap (map_width m) (map_length m) (cell_width m) (cell_length m) (map_data m) b (west_border m)
    (isUtm m) (map_zone m) (map_hemisphere m).
Definition setWestBorder (b : double) (m : Map) : Map :=
  mkMap (map_width m) (map_length m) (cell_width m) (cell_length m) (map_data m) (north_border m) b
    (isUtm m) (map_zone m) (map_hemisphere m).
Definition setUtm (b : bool) (m : Map) : Map :=
  mkMap (map_width m) (map_length m) (cell_width m) (cell_length m) (map_data m) (north_border m)
    (west_border m) b (map_zone m) (map_hemisphere m).
Definition setZone (z : Z) (m : Map) : Map :=
  mkMap (map_width m) (map_length m) (cell_width m) (cell_length m) (map_data m) (north_border m)
    (west_border m) (isUtm m) z (map_hemisphere m).
Definition setHemisphere (h : ascii) (m : Map) : Map :=
  mkMap (map_width m) (map_length m) (cell_width m) (cell_length m) (map_data m) (north_border m)
    (west_border m) (isUtm m) (map_zone m) h.

(** [init_map_data]: [rows] vectors of [cols] uninitialised cells *)
Definition init_map_data (rows cols : nat) : matrix := replicate rows (replicate cols None).

(** [data[y][x]]: undefined outside the matrix and for a cell never written *)
Definition cell (d : matrix) (y x : Z) : result double :=
  if ((y <? 0) || (x <? 0))%Z then Err UB
  else
    row ← get_opt (d !! Z.to_nat y);
    c ← get_opt (row !! Z.to_nat x);
    get_opt c.

(** [data[y][x] = v] *)
Definition set_cell (d : matrix) (y x : Z) (v : double) : result matrix :=
  if ((y <? 0) || (x <? 0))%Z then Err UB
  else
    row ← get_opt (d !! Z.to_nat y);
    _ ← get_opt (row !! Z.to_nat x);
    mret (<[Z.to_nat y := <[Z.to_nat x := Some v]> row]> d).

(** A matrix with every cell written. *)
Definition written_matrix (d : list (list double)) : matrix := List.map (List.map Some) d.

(** [(int)] of a [size_t] *)
Definition size_to_int (z : Z) : Z :=
  let r := (z mod 2 ^ 32)%Z in if (r <? 2 ^ 31)%Z then r else (r - 2 ^ 32)%Z.

(** The index along one axis: [fun] of the position, clamped to [0, size - 1]. *)
Definition clamped_index (fun_ : double → result double) (pos : double) (size : Z) : result Z :=
  v ← fun_ pos;
  if v >? of_Z (wrap64 (size - 1)) then mret (size_to_int (wrap64 (size - 1)))
  else if v <? #0 then mret 0%Z
  else to_int v.

Definition MINDOUBLE : double := S754_finite false 4503599627370496 (-1074).

(** Corner 1 is top left, 2 top right, 3 bottom right, 4 bottom left. *)
Definition get_height_wo_interpol (m : Map) (lon lat : double) (corner : Z) : result double :=
  let at_ fun1 fun2 :=
    y ← clamped_index fun1 ((north_border m - lat) / cell_length m) (map_length m);
    x ← clamped_index fun2 ((lon - west_border m) / cell_width m) (map_width m);
    cell (map_data m) y x in
  if (corner =? 1)%Z then at_ Utils_floor2 Utils_floor2
  else if (corner =? 2)%Z then at_ Utils_floor2 Utils_ceil2
  else if (corner =? 3)%Z then at_ Utils_ceil2 Utils_ceil2
  else if (corner =? 4)%Z then at_ Utils_ceil2 Utils_floor2
  else mret MINDOUBLE.

(** The bilinear interpolation of [get_height], at a point in map coordinates. *)
Definition interpolate (m : Map) (x y : double) : result double :=
  top_left ← get_height_wo_interpol m x y 1;
  top_right ← get_height_wo_interpol m x y 2;
  bottom_right ← get_height_wo_interpol m x y 3;
  bottom_left ← get_height_wo_interpol m x y 4;
  fx ← Utils_floor2 ((x - west_border m) / cell_width m);
  let x_fract := (x - west_border m) / cell_width m - fx in
  fy ← Utils_floor2 (fabs (y - north_border m) / cell_length m);
  let y_fract := fabs (y - north_border m) / cell_length m - fy in
  let height := #0 in
  let height := height + top_left * (#1 - x_fract) * (#1 - y_fract) in
  let height := height + top_right * x_fract * (#1 - y_fract) in
  let height := height + bottom_right * x_fract * y_fract in
  let height := height + bottom_left * (#1 - x_fract) * y_fract in
  mret height.

Section Map.
Context `{Libm}.

(** [get_height(lon, lat, convert)] *)
Definition get_height_convert (m : Map) (lon lat : double) (convert : bool) : st Utm double :=
  λ u,
  if convert then
    r ← Convert_UTM_To_Geodetic u (map_zone m) (map_hemisphere m) lon lat;
    let '(code, out, u') := r in
    if negb (code =? 0)%Z then Err (Exit 18)
    else
      yx ← written out;
      h ← interpolate m (Utils_r2d yx.2) (Utils_r2d yx.1);
      mret (h, u')
  else
    h ← interpolate m lon lat;
    mret (h, u).

(** [get_height(lon, lat)] *)
Definition get_height (m : Map) (lon lat : double) : st Utm double :=
  get_height_convert m lon lat (isUtm m).

(** [Utils::convertToUtm], which records the zone in the map *)
Definition convertToUtm (latitude longitude : double) : st (Map * Utm) (double * double) :=
  λ mu,
  r ← Convert_Geodetic_To_UTM mu.2 (Utils_d2r latitude) (Utils_d2r longitude);
  let '(code, out, u') := r in
  if negb (code =? 0)%Z then Err (Exit 13)
  else
    o ← written out;
    let '(z, h, easting, northing) := o in
    mret ((easting, northing), (setHemisphere h (setZone z mu.1), u')).

(** [Coordinates(x, y, map)]; [Coordinates(pair, map)] is the same at its components *)
Definition Coordinates_of_map (x y : double) : st (Map * Utm) Coordinates := λ mu,
  r ← get_height mu.1 x y mu.2;
  mret (mkCoordinates x y r.1, (mu.1, r.2)).
End Map.

(** ** Reads of the matrix stay inside *)

(** [length] rows of [width] written cells, with dimensions an [int] can hold. *)
Definition map_ok (m : Map) : Prop :=
  (1 <= map_width m <= 2 ^ 31)%Z ∧ (1 <= map_length m <= 2 ^ 31)%Z ∧
  Z.of_nat (List.length (map_data m)) = map_length m ∧
  ∀ row, row ∈ map_data m → Z.of_nat (List.length row) = map_width m ∧ None ∉ row.

Lemma size_to_int_small z : (0 <= z < 2 ^ 31)%Z → size_to_int z = z.
Proof.
  intros Hz. unfold size_to_int. rewrite Z.mod_small by lia.
  rewrite (proj2 (Z.ltb_lt z (2 ^ 31))) by lia. done.
Qed.

(** An index function returns an integer near its argument. *)
Definition index_fun (f : double → result double) : Prop :=
  ∀ a b, f a = Ok b → ∃ j, is_int b j ∧ (- 2 ^ 40 <= j <= 2 ^ 40)%Z.

Lemma floor2_index : index_fun Utils_floor2.
Proof.
  intros a b (k & j & _ & Hj & Hkj & Hk)%floor2_int. exists j. unfold INT_MIN, INT_MAX in Hk.
  split; [done|lia].
Qed.

Lemma ceil2_index : index_fun Utils_ceil2.
Proof.
  intros a b (k & j & _ & Hj & Hkj & Hk)%ceil2_int. exists j. unfold INT_MIN, INT_MAX in Hk.
  split; [done|lia].
Qed.

Lemma clamped_index_run f pos b size :
  index_fun f → f pos = Ok b → (1 <= size <= 2 ^ 31)%Z →
  ∃ i, clamped_index f pos size = Ok i ∧ (0 <= i < size)%Z.
Proof.
  intros Hf Hb Hs. unfold clamped_index. rewrite Hb. cbn [mbind result_bind].
  destruct (Hf _ _ Hb) as (j & Hj & Hjb).
  assert (wrap64 (size - 1) = (size - 1)%Z) as -> by (unfold wrap64; rewrite Z.mod_small; lia).
  assert (is_int (of_Z (size - 1)) (size - 1)) as Hs1 by (apply of_Z_is_int; lia).
  assert (is_int (of_Z 0) 0) as H0 by (apply of_Z_is_int; lia).
  unfold dgt. rewrite (is_int_dlt _ _ _ _ Hs1 Hj), (is_int_dlt _ _ _ _ Hj H0).
  destruct (Z.ltb_spec (size - 1) j).
  { exists (size - 1)%Z. rewrite size_to_int_small by lia. split; [done|lia]. }
  destruct (Z.ltb_spec j 0); [exists 0%Z; split; [done|lia]|].
  exists j. split; [|lia]. unfold to_int, cast. rewrite (is_int_trunc _ _ Hj).
  unfold INT_MIN, INT_MAX.
  destruct (Z.leb_spec (- 2 ^ 31) j), (Z.leb_spec j (2 ^ 31 - 1)); try lia. done.
Qed.

Lemma cell_run m y x :
  map_ok m → (0 <= y < map_length m)%Z → (0 <= x < map_width m)%Z →
  ∃ h, cell (map_data m) y x = Ok h.
Proof.
  intros (_ & _ & Hl & Hr) Hy Hx. unfold cell.
  destruct (Z.ltb_spec y 0), (Z.ltb_spec x 0); try lia. cbn [orb].
  destruct (lookup_lt_is_Some_2 (map_data m) (Z.to_nat y)) as [row Hrow]; [lia|].
  rewrite Hrow. cbn [get_opt mbind result_bind].
  destruct (Hr row (list_elem_of_lookup_2 _ _ _ Hrow)) as [Hlen Hnone].
  destruct (lookup_lt_is_Some_2 row (Z.to_nat x)) as [[h|] Hh]; [lia|rewrite Hh; by eexists|].
  by apply list_elem_of_lookup_2 in Hh.
Qed.

Lemma floor2_defined a k : to_int a = Ok k → ∃ b, Utils_floor2 a = Ok b.
Proof. intros Ha. unfold Utils_floor2. rewrite Ha. cbn. case_match; by eexists. Qed.

Lemma ceil2_defined a k : to_int a = Ok k → ∃ b, Utils_ceil2 a = Ok b.
Proof. intros [b Hb]%floor2_defined. unfold Utils_ceil2. rewrite Hb. by eexists. Qed.

(** The height of a corner is a cell of the matrix. *)
Lemma corner_run m x y ky kx corner :
  map_ok m → to_int ((north_border m - y) / cell_length m) = Ok ky →
  to_int ((x - west_border m) / cell_width m) = Ok kx →
  (1 <= corner <= 4)%Z → ∃ h, get_height_wo_interpol m x y corner = Ok h.
Proof.
  intros Hm Hy Hx Hc.
  assert (∀ f1 f2 b1 b2, index_fun f1 → index_fun f2 →
    f1 ((north_border m - y) / cell_length m) = Ok b1 →
    f2 ((x - west_border m) / cell_width m) = Ok b2 →
    ∃ h, (y0 ← clamped_index f1 ((north_border m - y) / cell_length m) (map_length m);
          x0 ← clamped_index f2 ((x - west_border m) / cell_width m) (map_width m);
          cell (map_data m) y0 x0) = Ok h) as Hat.
  { intros f1 f2 b1 b2 I1 I2 H1 H2. destruct Hm as (Hw & Hl & Hrest).
    destruct (clamped_index_run _ _ _ _ I1 H1 Hl) as (i & -> & Hi).
    destruct (clamped_index_run _ _ _ _ I2 H2 Hw) as (j & -> & Hj).
    cbn [mbind result_bind]. by apply cell_run. }
  destruct (floor2_defined _ _ Hy), (floor2_defined _ _ Hx),
    (ceil2_defined _ _ Hy), (ceil2_defined _ _ Hx).
  unfold get_height_wo_interpol.
  assert (corner = 1 ∨ corner = 2 ∨ corner = 3 ∨ corner = 4)%Z as [->|[->|[->| ->]]] by lia;
    cbn [Z.eqb Pos.eqb]; eapply Hat; eauto using floor2_index, ceil2_index.
Qed.


(** The map of the first test case: two cells side by side. *)
Definition two_cells : Map := new_Map (written_matrix [[#53; #45]]) 2 1 #1 #1.


(** ** The matrix as a partial function *)

Definition lookup2 (d : matrix) (y x : nat) : option (option double) :=
  row ← d !! y; row !! x.

Lemma cell_lookup2 d (y x : nat) h :
  lookup2 d y x = Some (Some h) → cell d (Z.of_nat y) (Z.of_nat x) = Ok h.
Proof.
  unfold lookup2, cell. destruct (Z.ltb_spec (Z.of_nat y) 0), (Z.ltb_spec (Z.of_nat x) 0); try lia.
  cbn [orb]. rewrite !Nat2Z.id. destruct (d !! y) as [row|]; [|done]. simpl.
  intros Hx. by rewrite Hx.
Qed.

Lemma set_cell_run d (y x : nat) v c :
  lookup2 d y x = Some c →
  ∃ d', set_cell d (Z.of_nat y) (Z.of_nat x) v = Ok d' ∧
    ∀ y' x', lookup2 d' y' x' =
      if decide (y' = y ∧ x' = x) then Some (Some v) else lookup2 d y' x'.
Proof.
  unfold set_cell. destruct (Z.ltb_spec (Z.of_nat y) 0), (Z.ltb_spec (Z.of_nat x) 0); try lia.
  cbn [orb]. rewrite !Nat2Z.id. unfold lookup2 at 1.
  destruct (d !! y) as [row|] eqn:Hy; [|done]. simpl. intros Hx. rewrite Hx. simpl.
  eexists. split; [done|]. intros y' x'. unfold lookup2.
  pose proof (lookup_lt_Some _ _ _ Hy). pose proof (lookup_lt_Some _ _ _ Hx).
  destruct (decide (y' = y)) as [->|Hne].
  - rewrite list_lookup_insert_eq by done. simpl. rewrite Hy. simpl.
    destruct (decide (x' = x)) as [->|Hnx].
    + by rewrite list_lookup_insert_eq, decide_True by done.
    + rewrite list_lookup_insert_ne by done. by rewrite decide_False by naive_solver.
  - rewrite list_lookup_insert_ne by done. by rewrite decide_False by naive_solver.
Qed.

(** [d] holds the heights [h]. *)
Definition holds (length width : nat) (h : nat → nat → double) (d : matrix) : Prop :=
  ∀ y x, (y < length)%nat → (x < width)%nat → lookup2 d y x = Some (Some (h y x)).
