(* ===== verification/Interpolation.v ===== *)
(** * Heights at the points of the grid

    At a point of the grid of a map, whose offsets from the borders are whole numbers of
    cells, the bilinear interpolation of [get_height] gives the cell itself. *)
From Stdlib Require Import QArith Lqa SpecFloat.
From stdpp Require Import list.
From S2P Require Import Prelude Double Rounding NumUtils Model TerrainMap.

Local Open Scope Z_scope.

(** ** Comparisons with a tolerance, on integers *)

Lemma eps_val : is_finite (dmul (of_Z (-2)) EPSILON) = true ∧ is_finite (dmul (of_Z 2) EPSILON) = true ∧
  is_finite EPSILON = true ∧
  (- (1 # 490000) <= val (dmul (of_Z (-2)) EPSILON))%Q ∧ (val (dmul (of_Z (-2)) EPSILON) <= - (1 # 510000))%Q ∧
  (1 # 510000 <= val (dmul (of_Z 2) EPSILON))%Q ∧ (val (dmul (of_Z 2) EPSILON) <= 1 # 490000)%Q ∧
  (1 # 1010000 <= val EPSILON)%Q ∧ (val EPSILON <= 1 # 990000)%Q.
Proof. split_and!; vm_compute; reflexivity || discriminate. Qed.

Lemma inject_le_minus_one z : z <= -1 → (inject_Z z <= - (1 # 1))%Q.
Proof. intros H. change (- (1 # 1))%Q with (inject_Z (-1)). by rewrite <- Zle_Qle. Qed.
Lemma inject_ge_one z : 1 <= z → (1 # 1 <= inject_Z z)%Q.
Proof. intros H. change (1 # 1)%Q with (inject_Z 1). by rewrite <- Zle_Qle. Qed.
Lemma inject_nonneg z : 0 <= z → (0 <= inject_Z z)%Q.
Proof. intros H. change 0%Q with (inject_Z 0). by rewrite <- Zle_Qle. Qed.
Lemma inject_nonpos z : z <= 0 → (inject_Z z <= 0)%Q.
Proof. intros H. change 0%Q with (inject_Z 0). by rewrite <- Zle_Qle. Qed.

Lemma is_int_greater X Y x y : is_int X x → is_int Y y → Z.abs (x - y) <= 2 ^ 53 →
  Utils_is_greater X Y = (y <? x).
Proof.
  intros HX HY Hb. destruct (proj1 (is_int_val _ _) (dsub_is_int X Y x y HX HY Hb)) as [Hf Hv].
  destruct eps_val as (_ & F1 & _ & _ & _ & L1 & L2 & _). unfold Utils_is_greater, dgt.
  destruct (Z.ltb_spec y x).
  - apply dlt_val; [done..|]. rewrite Hv.
    pose proof (inject_ge_one (x - y) ltac:(lia)). lra.
  - apply not_true_is_false. rewrite dlt_val by done. rewrite Hv.
    pose proof (inject_nonpos (x - y) ltac:(lia)). lra.
Qed.

Lemma is_int_to_int A k : is_int A k → INT_MIN <= k <= INT_MAX → to_int A = Ok k.
Proof.
  intros HA Hk. unfold to_int, cast. rewrite (is_int_trunc _ _ HA).
  by rewrite (proj2 (Z.leb_le INT_MIN k)), (proj2 (Z.leb_le k INT_MAX)) by lia.
Qed.

Lemma is_int_floor2 A k : is_int A k → INT_MIN <= k <= INT_MAX → Utils_floor2 A = Ok (of_Z k).
Proof.
  intros HA Hk. unfold Utils_floor2. rewrite (is_int_to_int A k) by done. cbn [mbind result_bind].
  pose proof (of_int_is_int k Hk) as Hi. unfold INT_MIN, INT_MAX in Hk.
  pose proof (add1_is_int _ _ Hi ltac:(lia)) as Hi1.
  rewrite (is_int_greater _ _ _ _ Hi HA), (is_int_greater _ _ _ _ Hi1 HA) by lia.
  by rewrite (proj2 (Z.ltb_ge k k)), (proj2 (Z.ltb_lt k (k + 1))) by lia.
Qed.

(** A cell of the grid is its own index. *)
Lemma is_int_clamped A k size : is_int A k → 0 <= k < size → size <= 2 ^ 31 →
  clamped_index Utils_floor2 A size = Ok k.
Proof.
  intros HA Hk Hs. assert (INT_MIN <= k <= INT_MAX) as Hr by (unfold INT_MIN, INT_MAX; lia).
  unfold clamped_index. rewrite (is_int_floor2 A k HA Hr). cbn [mbind result_bind].
  assert (wrap64 (size - 1) = size - 1) as -> by (unfold wrap64; rewrite Z.mod_small; lia).
  assert (is_int (of_Z (size - 1)) (size - 1)) as Hs1 by (apply of_Z_is_int; change prec with 53; lia).
  assert (is_int (of_Z 0) 0) as H0 by (by apply of_Z_is_int).
  pose proof (of_int_is_int k Hr) as Hi. unfold dgt.
  rewrite (is_int_dlt _ _ _ _ Hs1 Hi), (is_int_dlt _ _ _ _ Hi H0).
  rewrite (proj2 (Z.ltb_ge (size - 1) k)), (proj2 (Z.ltb_ge k 0)) by lia. by apply is_int_to_int.
Qed.

(** Heights that are integers, as both file formats have them in practice. *)
Definition int_heights (m : Map) : Prop :=
  ∀ y x h, cell (map_data m) y x = Ok h → ∃ z, is_int h z ∧ Z.abs z <= 2 ^ 20.

Lemma corner_cell m x y corner h : 1 <= corner <= 4 →
  get_height_wo_interpol m x y corner = Ok h → ∃ i j, cell (map_data m) i j = Ok h.
Proof.
  intros Hc. unfold get_height_wo_interpol.
  assert (corner = 1 ∨ corner = 2 ∨ corner = 3 ∨ corner = 4) as [->|[->|[->| ->]]] by lia;
    cbn [Z.eqb Pos.eqb]; intros H; inv_ok H; by do 2 eexists.
Qed.

(** The weighted sum at a corner of the cell. *)
Lemma weighted_corner tl tr br bl xf yf a b c d :
  is_int tl a → is_int tr b → is_int br c → is_int bl d → is_int xf 0 → is_int yf 0 →
  Z.abs a <= 2 ^ 20 → Z.abs b <= 2 ^ 20 → Z.abs c <= 2 ^ 20 → Z.abs d <= 2 ^ 20 →
  let one_minus v := dsub (of_Z 1) v in
  is_int (dadd (dadd (dadd (dadd (of_Z 0) (dmul (dmul tl (one_minus xf)) (one_minus yf)))
    (dmul (dmul tr xf) (one_minus yf))) (dmul (dmul br xf) yf)) (dmul (dmul bl (one_minus xf)) yf)) a.
Proof.
  intros Ha Hb Hc Hd Hx Hy Ba Bb Bc Bd one_minus.
  assert (is_int (of_Z 0) 0) as H0 by (by apply of_Z_is_int).
  assert (is_int (of_Z 1) 1) as H1 by (by apply of_Z_is_int).
  assert (∀ v, is_int v 0 → is_int (one_minus v) 1) as H1m
    by (intros v Hv; apply (dsub_is_int _ _ 1 0); [done..|lia]).
  replace a with (0 + a * 1 * 1 + b * 0 * 1 + c * 0 * 0 + d * 1 * 0) by lia.
  repeat first [apply dadd_is_int; [| |change prec with 53; lia] | apply dmul_is_int; [| |lia..]];
    auto.
Qed.

(** At a point of the grid, where the offsets from the borders are whole numbers of
    cells inside the map, [get_height] without conversion returns the value of the cell
    at that row and column: the neighbours get the weight zero, and no rounding takes
    place on integer heights. *)
Theorem interpolate_at_grid_point (m : Map) (x y : double) (kx ky : Z) :
  map_ok m → int_heights m →
  is_int (ddiv (dsub x (west_border m)) (cell_width m)) kx →
  is_int (ddiv (dsub (north_border m) y) (cell_length m)) ky →
  is_int (ddiv (fabs (dsub y (north_border m))) (cell_length m)) ky →
  0 <= kx < map_width m → 0 <= ky < map_length m →
  ∃ h h' z, cell (map_data m) ky kx = Ok h ∧ interpolate m x y = Ok h' ∧ is_int h z ∧ is_int h' z.
Proof.
  intros Hm Hh Hx Hy Hd Bx By. pose proof Hm as (Hw & Hl & _).
  assert (INT_MIN <= kx <= INT_MAX ∧ INT_MIN <= ky <= INT_MAX) as [Rx Ry] by (unfold INT_MIN, INT_MAX; lia).
  pose proof (is_int_to_int _ _ Hx Rx) as Ix. pose proof (is_int_to_int _ _ Hy Ry) as Iy.
  destruct (cell_run m ky kx Hm By Bx) as [h Hcell].
  assert (get_height_wo_interpol m x y 1 = Ok h) as Htl.
  { unfold get_height_wo_interpol. cbn [Z.eqb Pos.eqb].
    rewrite (is_int_clamped _ _ _ Hy By), (is_int_clamped _ _ _ Hx Bx) by lia. done. }
  destruct (corner_run m x y ky kx 2 Hm Iy Ix) as [h2 H2]; [lia|].
  destruct (corner_run m x y ky kx 3 Hm Iy Ix) as [h3 H3]; [lia|].
  destruct (corner_run m x y ky kx 4 Hm Iy Ix) as [h4 H4]; [lia|].
  destruct (Hh _ _ _ Hcell) as (z & Hz & Bz).
  destruct (corner_cell m x y 2 h2) as (i2 & j2 & (z2 & Hz2 & Bz2)%Hh); [lia|done|].
  destruct (corner_cell m x y 3 h3) as (i3 & j3 & (z3 & Hz3 & Bz3)%Hh); [lia|done|].
  destruct (corner_cell m x y 4 h4) as (i4 & j4 & (z4 & Hz4 & Bz4)%Hh); [lia|done|].
  unfold interpolate. rewrite Htl, H2, H3, H4. cbn [mbind result_bind].
  rewrite (is_int_floor2 _ _ Hx Rx), (is_int_floor2 _ _ Hd Ry). cbn [mbind result_bind].
  exists h. eexists _, z. split_and!; [done|reflexivity|done|].
  unfold INT_MIN, INT_MAX in *.
  eapply weighted_corner; try eassumption.
  - replace 0 with (kx - kx) by lia. apply dsub_is_int; [done|by apply of_int_is_int|lia].
  - replace 0 with (ky - ky) by lia. apply dsub_is_int; [done|by apply of_int_is_int|lia].
Qed.

Lemma cell_elem d y x h : cell d y x = Ok h → ∃ row, row ∈ d ∧ Some h ∈ row.
Proof.
  unfold cell. destruct (_ || _); [done|]. destruct (d !! Z.to_nat y) as [row|] eqn:Hr; [|done].
  cbn [get_opt mbind result_bind]. destruct (row !! Z.to_nat x) as [[h'|]|] eqn:Hc; [|done..].
  intros [= ->]. exists row. split; by eapply list_elem_of_lookup_2.
Qed.

Lemma interpolate_at_grid_point_witness :
  ∃ h h' z, cell (map_data two_cells) 0 1 = Ok h ∧ interpolate two_cells (of_Z 1) (of_Z 0) = Ok h' ∧
    is_int h z ∧ is_int h' z.
Proof.
  apply interpolate_at_grid_point; [| |by vm_compute..|vm_compute; intuition (discriminate || congruence)
    |vm_compute; intuition (discriminate || congruence)].
  - split_and!; cbn; try lia. intros row ->%list_elem_of_singleton.
    split; [done|]. rewrite !not_elem_of_cons. split_and!; [done..|apply not_elem_of_nil].
  - intros y x h (row & ->%list_elem_of_singleton & Hh)%cell_elem.
    apply list_elem_of_In in Hh as [[= <-]|[[= <-]|[]]]; [exists 53|exists 45]; (split; [by vm_compute|lia]).
Defined.
