(* ===== verification/SrtmReader.v ===== *)
(** * [src/readers/SrtmReader.h] and [SrtmReader.cpp]

    The reader of SRTM tiles: one file per square degree, 1201 rows of 1201
    big-endian 16-bit heights from north to south.  The file system is the
    function [files] from a path to the bytes of the file; a stream is those bytes
    with a position.  The host is little-endian, [malloc] and [fclose] succeed. *)
From Stdlib Require Import SpecFloat Ascii String.
From stdpp Require Import list.
From S2P Require Import Prelude Double Libm Text TranMerc Utm NumUtils Model TerrainMap.

Local Open Scope Z_scope.

Definition RESOLUTION : Z := 3.
Definition PIXEL_SIZE : Z := 2.
Definition VALUES_IN_DEGREE : Z := 60 * 60 / RESOLUTION.

Definition border_to_int (border : double) : result Z :=
  to_int (dround (dmul border (of_Z VALUES_IN_DEGREE))).

(** The difference of two [int]s *)
Definition int_sub (a b : Z) : result Z :=
  if (INT_MIN <=? a - b) && (a - b <=? INT_MAX) then Ok (a - b) else Err UB.

(** ** File names *)

Definition first_long_to_read (west_border_int : Z) : Z :=
  if west_border_int <? 0 then
    if negb (Z.rem west_border_int VALUES_IN_DEGREE =? 0)
    then Z.quot west_border_int VALUES_IN_DEGREE + 1
    else Z.quot west_border_int VALUES_IN_DEGREE
  else Z.quot west_border_int VALUES_IN_DEGREE.

Definition first_lat_to_read (north_border_int : Z) : Z :=
  if north_border_int <? 0 then
    if negb (Z.rem north_border_int VALUES_IN_DEGREE =? 0)
    then Z.quot north_border_int VALUES_IN_DEGREE + 1
    else Z.quot north_border_int VALUES_IN_DEGREE
  else if negb (Z.rem north_border_int VALUES_IN_DEGREE =? 0)
  then Z.quot north_border_int VALUES_IN_DEGREE
  else Z.quot north_border_int VALUES_IN_DEGREE - 1.

(** [sprintf] into an array of 256 characters *)
Definition get_filename (map_dir : string) (west_border_int north_border_int : Z)
    : result string :=
  let lon := first_long_to_read west_border_int in
  let lat := first_lat_to_read north_border_int in
  let filename :=
    (map_dir ++ "/" ++ (if (lat <? 0)%Z then "S" else "N") ++ to_string lat ++
     (if (lon <? 0)%Z then "W" else "E") ++ padded 3 lon ++ ".hgt")%string in
  if Nat.ltb (String.length filename) 256 then Ok filename else Err UB.

(** ** Streams *)

Record Stream := mkStream { s_bytes : list Z; s_pos : Z }.

(** [fseek] to a position, and [exit(1)] when that fails *)
Definition fseek (s : Stream) (pos : Z) : result Stream :=
  if pos <? 0 then Err (Exit 1) else Ok (mkStream (s_bytes s) pos).

(** Bytes as 16-bit numbers of the host; a last odd byte leaves its element
    indeterminate. *)
Fixpoint pixels (bytes : list Z) : list (option Z) :=
  match bytes with
  | [] => []
  | [_] => [None]
  | b0 :: b1 :: rest => Some (b0 + 256 * b1) :: pixels rest
  end.

(** [fread(buffer, PIXEL_SIZE, cols, map_file)]: a short read leaves the rest of
    the buffer as it is *)
Definition fread (buffer : list (option Z)) (s : Stream) : list (option Z) * Stream :=
  let got := take (2 * List.length buffer) (drop (Z.to_nat (s_pos s)) (s_bytes s)) in
  let new := pixels got in
  (new ++ drop (List.length new) buffer,
   mkStream (s_bytes s) (s_pos s + Z.of_nat (List.length got))).

(** [size_t] as [long] *)
Definition to_signed64 (z : Z) : Z :=
  let r := wrap64 z in if r <? 2 ^ 63 then r else r - 2 ^ 64.

(** ** Reading a block of a tile *)

Record Reading := mkReading { r_buffer : list (option Z); r_stream : Stream; r_map : matrix }.

(** The body of the loop over [j]. *)
Definition read_pixel (row first_col : nat) (j : nat) : st Reading unit := λ s,
  c ← get_opt (r_buffer s !! j);
  v ← get_opt c;
  let v := Utils_change_bytes_order v in
  m ← set_cell (r_map s) (Z.of_nat row) (Z.of_nat (first_col + j)) (of_Z v);
  mret (tt, mkReading (<[j := Some v]> (r_buffer s)) (r_stream s) m).

Definition cells_in_degree : Z := VALUES_IN_DEGREE + 1.

(** The body of the loop over [i]. *)
Definition read_row (cols first_row first_col : nat) (i : nat) : st Reading unit := λ s,
  let '(buffer, stream) := fread (r_buffer s) (r_stream s) in
  stream ← fseek stream
    (s_pos stream + to_signed64 (wrap64 (cells_in_degree - Z.of_nat cols) * PIXEL_SIZE));
  for_each_in (seq 0 cols) (read_pixel (first_row + i) first_col)
    (mkReading buffer stream (r_map s)).

(** Where the block starts in the file. *)
Definition block_offset (north_border_int west_border_int : Z) : Z :=
  (Z.rem (VALUES_IN_DEGREE - Z.rem north_border_int VALUES_IN_DEGREE) VALUES_IN_DEGREE
     * cells_in_degree + Z.rem west_border_int VALUES_IN_DEGREE) * PIXEL_SIZE.

Section Reader.
Context (files : string → option (list Z)).

Definition read_from_file (north_border_int west_border_int : Z) (rows cols : nat)
    (first_row first_col : nat) (map_data : matrix) (map_dir : string) : result matrix :=
  file_to_open ← get_filename map_dir west_border_int north_border_int;
  match files file_to_open with
  | None => Err (Exit 1)
  | Some bytes =>
      stream ← fseek (mkStream bytes 0) (block_offset north_border_int west_border_int);
      r ← for_each_in (seq 0 rows) (read_row cols first_row first_col)
            (mkReading (replicate cols None) stream map_data);
      mret (r_map r.2)
  end.

(** ** All tiles of the area *)

(** The loop over the tiles of a row, from west to east. *)
Fixpoint read_tile_row (fuel : nat) (north_ptr_int : Z) (rows_here first_free_row : nat)
    (first_free_col : nat) (west_ptr east_ptr east_border : double) (map_dir : string)
    (map_data : matrix) : result matrix :=
  match fuel with
  | O => Err Diverge
  | S fuel' =>
      if Utils_is_lesser west_ptr east_border then
        west_ptr_int ← border_to_int west_ptr;
        east_ptr_int ← border_to_int east_ptr;
        width ← int_sub east_ptr_int west_ptr_int;
        let cols_here := Z.to_nat (Z.abs width) in
        map_data ← read_from_file north_ptr_int west_ptr_int rows_here cols_here
                     first_free_row first_free_col map_data map_dir;
        west_ptr' ← Utils_floor2 (dadd west_ptr (of_Z 1));
        let east_ptr' := if Utils_is_greater (dadd east_ptr (of_Z 1)) east_border
                         then east_border else dadd east_ptr (of_Z 1) in
        read_tile_row fuel' north_ptr_int rows_here first_free_row
          (first_free_col + cols_here) west_ptr' east_ptr' east_border map_dir map_data
      else mret map_data
  end.

(** The loop over the rows of tiles, from north to south. *)
Fixpoint read_tiles (fuel : nat) (first_free_row : nat) (north_ptr south_ptr : double)
    (west_border east_border south_border : double) (map_dir : string) (map_data : matrix)
    : result matrix :=
  match fuel with
  | O => Err Diverge
  | S fuel' =>
      if Utils_is_greater north_ptr south_border then
        north_ptr_int ← border_to_int north_ptr;
        south_ptr_int ← border_to_int south_ptr;
        height ← int_sub north_ptr_int south_ptr_int;
        let rows_here := Z.to_nat (Z.abs height) in
        c ← Utils_ceil2 west_border;
        let east_ptr := if Utils_is_greater c east_border then east_border else c in
        map_data ← read_tile_row fuel' north_ptr_int rows_here first_free_row 0
                     west_border east_ptr east_border map_dir map_data;
        f ← Utils_floor2 north_ptr;
        let north_ptr' := if Utils_equals f north_ptr then dsub north_ptr (of_Z 1) else f in
        let south_ptr' := if Utils_is_lesser (dsub south_ptr (of_Z 1)) south_border
                          then south_border else dsub south_ptr (of_Z 1) in
        read_tiles fuel' (first_free_row + rows_here) north_ptr' south_ptr'
          west_border east_border south_border map_dir map_data
      else mret map_data
  end.

Definition read_from_multiple_files (fuel : nat)
    (west_border north_border east_border south_border : double) (map_dir : string)
    (map_data : matrix) : result matrix :=
  f ← Utils_floor2 north_border;
  let south_ptr := if Utils_is_lesser f south_border then south_border else f in
  let south_ptr :=
    if Utils_equals north_border south_ptr then
      if Utils_is_lesser (dsub north_border (of_Z 1)) south_border
      then south_border else dsub north_border (of_Z 1)
    else south_ptr in
  read_tiles fuel 0 north_border south_ptr west_border east_border south_border map_dir map_data.
End Reader.

(** ** Outliers *)

Definition is_outlier (h : double) : bool := dgt h (of_Z 3000) || dlt h (of_Z 10).

(** The body of the two loops: the cell ([i], [j]). *)
Definition skip_outlier (i j : nat) : st matrix unit := λ d,
  h ← cell d (Z.of_nat i) (Z.of_nat j);
  if is_outlier h then
    h' ← cell d (if Nat.ltb 0 i then Z.of_nat i - 1 else Z.of_nat i + 1) (Z.of_nat j);
    d' ← set_cell d (Z.of_nat i) (Z.of_nat j) h';
    mret (tt, d')
  else mret (tt, d).

Definition skip_outliers (map_data : matrix) (length width : nat) : result matrix :=
  r ← for_each_in (seq 0 length) (λ i, for_each_in (seq 0 width) (skip_outlier i)) map_data;
  mret r.2.

(** [SrtmReader::read].  The borders are [const] parameters that are swapped through
    a cast when they are in the wrong order, which is undefined.  The dimensions are
    differences of [int]s converted to [size_t]; a negative one would ask for more
    memory than there is. *)
Definition SrtmReader_read (files : string → option (list Z)) (fuel : nat)
    (west_border north_border east_border south_border : double) (map_dir : string)
    : result Map :=
  if dgt south_border north_border || dgt west_border east_border then Err UB
  else
    west_border_int ← border_to_int west_border;
    north_border_int ← border_to_int north_border;
    east_border_int ← border_to_int east_border;
    south_border_int ← border_to_int south_border;
    width ← int_sub east_border_int west_border_int;
    height ← int_sub north_border_int south_border_int;
    if (width <? 0) || (height <? 0) then Err UB
    else
      let cols := Z.to_nat width in
      let rows := Z.to_nat height in
      let map_data := init_map_data rows cols in
      let step := ddiv (of_Z 1) (of_Z VALUES_IN_DEGREE) in
      map_data ← read_from_multiple_files files fuel west_border north_border east_border
                   south_border map_dir map_data;
      map_data ← skip_outliers map_data rows cols;
      mret (setWestBorder west_border (setNorthBorder north_border
              (new_Map map_data (Z.of_nat cols) (Z.of_nat rows) step step))).
