(* ===== verification/SrtmFacts.v ===== *)
(** * What the SRTM reader computes

    The tile a file name stands for, the block of a tile that is copied into the
    matrix, and the filter of outliers against a reference definition. *)
From Stdlib Require Import SpecFloat Ascii String.
From stdpp Require Import list.
From S2P Require Import Prelude Double Libm Text TranMerc Utm NumUtils Model TerrainMap SrtmReader.

Local Open Scope Z_scope.

(** ** File names *)

Lemma first_long_nonneg w :
  0 ≤ w → first_long_to_read w = w / VALUES_IN_DEGREE.
Proof.
  intros Hw. unfold first_long_to_read. destruct (Z.ltb_spec w 0); [lia|].
  by rewrite Z.quot_div_nonneg.
Qed.

Lemma first_lat_pos n :
  0 < n → first_lat_to_read n = (n - 1) / VALUES_IN_DEGREE.
Proof.
  intros Hn. unfold first_lat_to_read. destruct (Z.ltb_spec n 0); [lia|].
  rewrite Z.rem_mod_nonneg, Z.quot_div_nonneg by (done || lia).
  pose proof (Z.div_mod n VALUES_IN_DEGREE ltac:(done)) as Hdm.
  pose proof (Z.mod_pos_bound n VALUES_IN_DEGREE ltac:(done)) as Hb.
  set (q := n / VALUES_IN_DEGREE) in *. set (r := n mod VALUES_IN_DEGREE) in *.
  destruct (Z.eqb_spec r 0) as [E|E]; cbn [negb].
  - apply Z.div_unique with (VALUES_IN_DEGREE - 1); change VALUES_IN_DEGREE with 1200 in *; lia.
  - apply Z.div_unique with (r - 1); change VALUES_IN_DEGREE with 1200 in *; lia.
Qed.

Lemma short_numbers k :
  0 ≤ k < 180 → (String.length (to_string k) <= 3 ∧ String.length (padded 3 k) <= 3)%nat.
Proof.
  intros Hk. assert (forallb (λ i, Nat.leb (String.length (to_string (Z.of_nat i))) 3 &&
    Nat.leb (String.length (padded 3 (Z.of_nat i))) 3) (seq 0 180) = true) as H
    by (vm_compute; reflexivity).
  rewrite forallb_forall in H. specialize (H (Z.to_nat k)).
  rewrite Z2Nat.id in H by lia. apply andb_prop in H as [H1%Nat.leb_le H2%Nat.leb_le]; [done|].
  apply in_seq. lia.
Qed.

Lemma string_app_length s1 s2 :
  String.length (s1 ++ s2) = (String.length s1 + String.length s2)%nat.
Proof. induction s1 as [|c s1 IH]; simpl; [done|]. by rewrite IH. Qed.

(** The file of the tile whose south-western corner is at ([lat], [lon]). *)
Definition tile_name (map_dir : string) (lat lon : Z) : string :=
  (map_dir ++ "/N" ++ to_string lat ++ "E" ++ padded 3 lon ++ ".hgt")%string.

Lemma get_filename_run (map_dir : string) (w n : Z) :
  (String.length map_dir <= 200)%nat → 0 ≤ w < 180 * VALUES_IN_DEGREE →
  0 < n ≤ 90 * VALUES_IN_DEGREE →
  get_filename map_dir w n =
    Ok (tile_name map_dir ((n - 1) / VALUES_IN_DEGREE) (w / VALUES_IN_DEGREE)).
Proof.
  intros Hl Hw Hn. change VALUES_IN_DEGREE with 1200 in *.
  pose proof (Z.div_pos (n - 1) 1200 ltac:(lia) ltac:(lia)).
  pose proof (Z.div_lt_upper_bound (n - 1) 1200 90 ltac:(lia) ltac:(lia)).
  pose proof (Z.div_pos w 1200 ltac:(lia) ltac:(lia)).
  pose proof (Z.div_lt_upper_bound w 1200 180 ltac:(lia) ltac:(lia)).
  unfold get_filename. rewrite first_long_nonneg, first_lat_pos by lia. change VALUES_IN_DEGREE with 1200.
  set (lat := (n - 1) / 1200) in *. set (lon := w / 1200) in *.
  destruct (Z.ltb_spec lat 0), (Z.ltb_spec lon 0); try lia.
  destruct (short_numbers lat) as [HL1 _]; [lia|]. destruct (short_numbers lon) as [_ HL2]; [lia|].
  match goal with |- (if ?b then _ else _) = _ => assert (b = true) as -> end; [|done].
  apply Nat.ltb_lt. rewrite !string_app_length. cbn [String.length]. lia.
Qed.

(** For an area in the north-eastern quarter of the globe the reader opens the
    tile that contains the block to read: the name has the latitude and the
    longitude of the south-western corner of that square degree, the block's
    northern border lies in the tile or on its upper edge and its western border
    in the tile. *)
Theorem get_filename_tile (map_dir : string) (w n : Z) :
  (String.length map_dir <= 200)%nat → 0 ≤ w < 180 * VALUES_IN_DEGREE →
  0 < n ≤ 90 * VALUES_IN_DEGREE →
  ∃ lat lon,
    get_filename map_dir w n =
      Ok (tile_name map_dir lat lon) ∧
    lat * VALUES_IN_DEGREE < n ≤ (lat + 1) * VALUES_IN_DEGREE ∧
    lon * VALUES_IN_DEGREE ≤ w < (lon + 1) * VALUES_IN_DEGREE.
Proof.
  intros Hl Hw Hn. exists ((n - 1) / VALUES_IN_DEGREE), (w / VALUES_IN_DEGREE).
  split; [by apply get_filename_run|]. change VALUES_IN_DEGREE with 1200 in *.
  pose proof (Z.div_mod (n - 1) 1200 ltac:(done)). pose proof (Z.mod_pos_bound (n - 1) 1200 ltac:(done)).
  pose proof (Z.div_mod w 1200 ltac:(done)). pose proof (Z.mod_pos_bound w 1200 ltac:(done)). lia.
Qed.

Lemma get_filename_tile_witness :
  ∃ lat lon,
    get_filename "data" (19 * 1200 + 240) (50 * 1200 + 240) =
      Ok (tile_name "data" lat lon) ∧
    lat * VALUES_IN_DEGREE < 50 * 1200 + 240 ≤ (lat + 1) * VALUES_IN_DEGREE ∧
    lon * VALUES_IN_DEGREE ≤ 19 * 1200 + 240 < (lon + 1) * VALUES_IN_DEGREE.
Proof. apply get_filename_tile; vm_compute; intuition (lia || discriminate). Defined.

(** West of Greenwich the name is wrong: half a degree west, which is in the
    tile W001, the reader opens a tile east of Greenwich, and for whole degrees the
    sign is printed next to the letter. *)
Theorem get_filename_west_wrong :
  get_filename "data" (-600) 600 = Ok "data/N0E001.hgt"%string ∧
  get_filename "data" (-2400) 600 = Ok "data/N0W-002.hgt"%string.
Proof. split; vm_compute; reflexivity. Qed.

(** ** A block of a tile *)

Section Block.
Context (bytes : list Z).
Hypothesis Hbytes : Forall (λ b, 0 ≤ b < 256) bytes.

(** The big-endian number at the pixel [p]. *)
Definition height_at_pixel (p : nat) : Z :=
  match bytes !! (2 * p)%nat, bytes !! (2 * p + 1)%nat with
  | Some hi, Some lo => hi * 256 + lo
  | _, _ => 0
  end.

Lemma pixels_length n l : List.length l = (2 * n)%nat → List.length (pixels l) = n.
Proof.
  revert l. induction n as [|n IH]; intros l Hl; [by destruct l|].
  destruct l as [|b0 [|b1 l]]; simpl in Hl; try lia. simpl. f_equal. apply IH. lia.
Qed.

Lemma pixels_lookup n l j :
  List.length l = (2 * n)%nat → (j < n)%nat →
  ∃ b0 b1, l !! (2 * j)%nat = Some b0 ∧ l !! (2 * j + 1)%nat = Some b1 ∧
    pixels l !! j = Some (Some (b0 + 256 * b1)).
Proof.
  revert l j. induction n as [|n IH]; intros l j Hl Hj; [lia|].
  destruct l as [|b0 [|b1 l]]; simpl in Hl; try lia. destruct j as [|j].
  - by exists b0, b1.
  - destruct (IH l j) as (c0 & c1 & H0 & H1 & Hp); [lia..|]. exists c0, c1.
    replace (2 * S j)%nat with (S (S (2 * j))) by lia. done.
Qed.

(** A read inside the file fills the buffer with the pixels from [p] on. *)
Lemma fread_inside buffer (p : nat) :
  (2 * (p + List.length buffer) <= List.length bytes)%nat →
  ∃ buffer', fread buffer (mkStream bytes (2 * Z.of_nat p)) =
      (buffer', mkStream bytes (2 * Z.of_nat (p + List.length buffer))) ∧
    List.length buffer' = List.length buffer ∧
    ∀ j, (j < List.length buffer)%nat → ∃ v, buffer' !! j = Some (Some v) ∧
      Utils_change_bytes_order v = height_at_pixel (p + j).
Proof.
  intros Hin. unfold fread. cbn [s_bytes s_pos].
  replace (Z.to_nat (2 * Z.of_nat p)) with (2 * p)%nat by lia.
  set (got := take _ _).
  assert (List.length got = (2 * List.length buffer)%nat) as Hg
    by (unfold got; rewrite length_take, length_drop; lia).
  pose proof (pixels_length _ _ Hg) as Hp.
  exists (pixels got). rewrite drop_ge, app_nil_r by lia. split_and!; [|done|].
  - do 2 f_equal. rewrite Hg. lia.
  - intros j Hj. destruct (pixels_lookup _ _ j Hg Hj) as (b0 & b1 & H0 & H1 & Hpx).
    eexists. split; [exact Hpx|]. unfold got in H0, H1.
    rewrite lookup_take_lt, lookup_drop in H0, H1 by lia.
    pose proof (proj1 (Forall_lookup _ _) Hbytes _ _ H0) as R0. cbv beta in R0.
    pose proof (proj1 (Forall_lookup _ _) Hbytes _ _ H1) as R1. cbv beta in R1.
    unfold height_at_pixel. replace (2 * (p + j))%nat with (2 * p + 2 * j)%nat by lia.
    rewrite H0. replace (2 * p + 2 * j + 1)%nat with (2 * p + (2 * j + 1))%nat by lia. rewrite H1.
    rewrite change_bytes_order_arith by lia.
    replace (b0 + 256 * b1) with (b0 + b1 * 256) by lia.
    rewrite Z.mod_add, Z.div_add, Z.mod_small, Z.div_small by lia. lia.
Qed.

(** [d'] is [d] with the cells of the block that starts at ([y0], [x0]) taken from
    the pixels, the row [i] of the block starting at the pixel [p + i * 1201]. *)
Definition block_copied (p : nat) (y0 x0 rows cols : nat) (d d' : matrix) : Prop :=
  ∀ y x, lookup2 d' y x =
    if decide (y0 ≤ y < y0 + rows ∧ x0 ≤ x < x0 + cols)%nat
    then Some (Some (of_Z (height_at_pixel (p + (y - y0) * 1201 + (x - x0)))))
    else lookup2 d y x.

Definition has_block (y0 x0 rows cols : nat) (d : matrix) : Prop :=
  ∀ y x, (y0 ≤ y < y0 + rows)%nat → (x0 ≤ x < x0 + cols)%nat → is_Some (lookup2 d y x).

Lemma read_pixels_run cols row x0 p buffer stream d :
  List.length buffer = cols → has_block row x0 1 cols d →
  (∀ j, (j < cols)%nat → ∃ v, buffer !! j = Some (Some v) ∧
     Utils_change_bytes_order v = height_at_pixel (p + j)) →
  ∃ buffer' d', for_each_in (seq 0 cols) (read_pixel row x0) (mkReading buffer stream d) =
      Ok (tt, mkReading buffer' stream d') ∧
    List.length buffer' = cols ∧ block_copied p row x0 1 cols d d'.
Proof.
  intros Hl Hd Hv.
  destruct (for_seq_inv (λ k s, r_stream s = stream ∧ List.length (r_buffer s) = cols ∧
      (∀ j, (k ≤ j)%nat → r_buffer s !! j = buffer !! j) ∧
      block_copied p row x0 1 k d (r_map s)) cols (read_pixel row x0) (mkReading buffer stream d))
    as ([b' st' d'] & Hr & <- & Hlen & _ & Hc).
  - intros k [b' st' d'] Hk (Hst & Hlen & Hb & Hc). cbn [r_stream r_buffer r_map] in *. subst st'.
    destruct (Hv k Hk) as (v & Hbv & Hsw).
    assert (∃ c, lookup2 d' row (x0 + k) = Some c) as [c Hcell].
    { rewrite Hc, decide_False by lia. apply Hd; lia. }
    destruct (set_cell_run d' row (x0 + k) (of_Z (Utils_change_bytes_order v)) c Hcell)
      as (d'' & Hset & Hd'').
    eexists. split.
    { unfold read_pixel. cbn [r_buffer r_map r_stream]. rewrite (Hb k), Hbv by lia. cbn [get_opt mbind result_bind].
      cbn [get_opt mbind result_bind]. rewrite Hset. done. }
    cbn [r_stream r_buffer r_map]. split_and!; [done|by rewrite length_insert| |].
    + intros j Hj. rewrite list_lookup_insert_ne by lia. apply Hb. lia.
    + intros y x. rewrite Hd''. case_decide as E.
      * destruct E as [-> ->]. rewrite decide_True by lia. rewrite Hsw. do 4 f_equal. lia.
      * rewrite Hc. do 2 case_decide; try done; lia.
  - split_and!; try done. intros y x. by rewrite decide_False by lia.
  - by exists b', d'.
Qed.

Lemma read_row_run cols y0 x0 i p buffer d :
  List.length buffer = cols → (cols <= 1201)%nat → has_block (y0 + i) x0 1 cols d →
  (2 * (p + cols) <= List.length bytes)%nat →
  ∃ buffer' d', read_row cols y0 x0 i (mkReading buffer (mkStream bytes (2 * Z.of_nat p)) d) =
      Ok (tt, mkReading buffer' (mkStream bytes (2 * Z.of_nat (p + 1201))) d') ∧
    List.length buffer' = cols ∧ block_copied p (y0 + i) x0 1 cols d d'.
Proof.
  intros Hl Hc Hd Hin. unfold read_row. cbn [r_buffer r_stream r_map]. subst cols.
  destruct (fread_inside buffer p Hin) as (b1 & -> & Hl1 & Hv). unfold fseek. cbn [s_pos s_bytes].
  assert (to_signed64 (wrap64 (cells_in_degree - Z.of_nat (List.length buffer)) * PIXEL_SIZE) =
    2 * (1201 - Z.of_nat (List.length buffer))) as ->.
  { unfold to_signed64, wrap64. change cells_in_degree with 1201. change PIXEL_SIZE with 2.
    rewrite (Z.mod_small (1201 - _)), Z.mod_small by lia. destruct (Z.ltb_spec ((1201 - Z.of_nat (List.length buffer)) * 2) (2 ^ 63)); lia. }
  match goal with |- context [?a + ?b <? 0] => destruct (Z.ltb_spec (a + b) 0); [lia|] end.
  cbn [mbind result_bind].
  destruct (read_pixels_run (List.length buffer) (y0 + i) x0 p b1
    (mkStream bytes (2 * Z.of_nat (p + 1201))) d) as (b2 & d2 & Hr & Hl2 & Hcp); [done..|].
  exists b2, d2. split; [|done]. rewrite <- Hr. do 2 f_equal. f_equal. lia.
Qed.

Lemma read_rows_run rows cols y0 x0 p d :
  (cols <= 1201)%nat → has_block y0 x0 rows cols d →
  (∀ i, (i < rows)%nat → 2 * (p + i * 1201 + cols) <= List.length bytes)%nat →
  ∃ s d', for_each_in (seq 0 rows) (read_row cols y0 x0)
      (mkReading (replicate cols None) (mkStream bytes (2 * Z.of_nat p)) d) = Ok (tt, s) ∧
    r_map s = d' ∧ block_copied p y0 x0 rows cols d d'.
Proof.
  intros Hc Hd Hin.
  destruct (for_seq_inv (λ k s, r_stream s = mkStream bytes (2 * Z.of_nat (p + k * 1201)) ∧
      List.length (r_buffer s) = cols ∧ block_copied p y0 x0 k cols d (r_map s))
      rows (read_row cols y0 x0)
      (mkReading (replicate cols None) (mkStream bytes (2 * Z.of_nat p)) d))
    as ([b' st' d'] & Hr & _ & _ & Hcp).
  - intros k [b st0 d0] Hk (Hst & Hlen & Hcp). cbn [r_stream r_buffer r_map] in *. subst st0.
    destruct (read_row_run cols y0 x0 k (p + k * 1201) b d0) as (b1 & d1 & Hr & Hl1 & Hcp1); try done.
    { intros y x Hy Hx. rewrite Hcp, decide_False by lia. apply Hd; lia. }
    { specialize (Hin k Hk). lia. }
    eexists. split; [exact Hr|]. cbn [r_stream r_buffer r_map]. split_and!; [|done|].
    { do 2 f_equal. lia. }
    intros y x. rewrite Hcp1, Hcp. repeat case_decide; try done; try lia. do 4 f_equal. nia.
  - cbn [r_stream r_buffer r_map]. split_and!; [do 2 f_equal; lia|by rewrite length_replicate|].
    intros y x. by rewrite decide_False by lia.
  - exists (mkReading b' st' d'), d'. done.
Qed.
End Block.

(** The row of the tile at which a block starts, counted from the north. *)
Definition start_row (n : Z) : Z := (- n) mod VALUES_IN_DEGREE.
Definition start_col (w : Z) : Z := w mod VALUES_IN_DEGREE.

Lemma block_offset_nonneg n w :
  0 ≤ n → 0 ≤ w → block_offset n w = 2 * (start_row n * 1201 + start_col w).
Proof.
  intros Hn Hw. unfold block_offset, start_row, start_col. change cells_in_degree with 1201.
  change PIXEL_SIZE with 2. change VALUES_IN_DEGREE with 1200.
  rewrite !(Z.rem_mod_nonneg n), (Z.rem_mod_nonneg w) by lia.
  pose proof (Z.mod_pos_bound n 1200 ltac:(lia)) as Hb.
  rewrite Z.rem_mod_nonneg by lia.
  replace ((1200 - n mod 1200) mod 1200) with ((- n) mod 1200); [lia|].
  pose proof (Z.div_mod n 1200 ltac:(lia)) as E.
  replace (1200 - n mod 1200) with (- n + (1 + n / 1200) * 1200) by lia.
  by rewrite Z.mod_add.
Qed.

(** A file with all the pixels of a tile. *)
Definition tile_ok (bytes : list Z) : Prop :=
  Forall (λ b, 0 ≤ b < 256) bytes ∧ List.length bytes = (2 * 1201 * 1201)%nat.

Lemma read_block_run (files : string → option (list Z)) (map_dir name : string)
    (bytes : list Z) (n w : Z) (rows cols y0 x0 : nat) (d : matrix) :
  0 ≤ n → 0 ≤ w → get_filename map_dir w n = Ok name → files name = Some bytes →
  tile_ok bytes → start_row n + Z.of_nat rows ≤ 1201 → start_col w + Z.of_nat cols ≤ 1201 →
  has_block y0 x0 rows cols d →
  ∃ d', read_from_file files n w rows cols y0 x0 d map_dir = Ok d' ∧
    block_copied bytes (Z.to_nat (start_row n * 1201 + start_col w)) y0 x0 rows cols d d'.
Proof.
  intros Hn Hw Hname Hfile [Hby Hlen] Hr Hc Hd. unfold read_from_file. rewrite Hname.
  cbn [mbind result_bind]. rewrite Hfile, block_offset_nonneg by done.
  assert (0 ≤ start_row n ∧ 0 ≤ start_col w) as [Hsr Hsc]
    by (split; apply Z.mod_pos_bound; done).
  unfold fseek. destruct (Z.ltb_spec (2 * (start_row n * 1201 + start_col w)) 0); [lia|].
  cbn [mbind result_bind s_bytes]. set (p := Z.to_nat (start_row n * 1201 + start_col w)).
  replace (2 * (start_row n * 1201 + start_col w)) with (2 * Z.of_nat p) by lia.
  destruct (read_rows_run bytes Hby rows cols y0 x0 p d) as (s & d' & -> & Hs & Hcp);
    [lia|done| |].
  - intros i Hi. rewrite Hlen. assert (Z.of_nat i < Z.of_nat rows) by lia. nia.
  - exists d'. split; [cbn; by rewrite Hs|done].
Qed.

(** Reading a block that lies in one tile: for borders that are not negative and
    a complete tile file, [read_from_file] succeeds, the rows of the block are
    copied pixel by pixel as big-endian 16-bit numbers from the position of the
    block in the tile, and no other cell of the matrix changes. *)
Theorem read_from_file_block (files : string → option (list Z)) (map_dir name : string)
    (bytes : list Z) (n w : Z) (rows cols y0 x0 : nat) (d : matrix) :
  0 ≤ n → 0 ≤ w → get_filename map_dir w n = Ok name → files name = Some bytes →
  tile_ok bytes → start_row n + Z.of_nat rows ≤ 1201 → start_col w + Z.of_nat cols ≤ 1201 →
  has_block y0 x0 rows cols d →
  ∃ d', read_from_file files n w rows cols y0 x0 d map_dir = Ok d' ∧
    block_copied bytes (Z.to_nat (start_row n * 1201 + start_col w)) y0 x0 rows cols d d'.
Proof. apply read_block_run. Qed.

Definition blank_tile : list Z := replicate (2 * 1201 * 1201) 7.

Lemma read_from_file_block_witness :
  ∃ d', read_from_file (λ _, Some blank_tile) 60240 23040 2 3 1 0 (init_map_data 3 3) "data" = Ok d' ∧
    block_copied blank_tile (Z.to_nat (start_row 60240 * 1201 + start_col 23040)) 1 0 2 3
      (init_map_data 3 3) d'.
Proof.
  eapply (read_from_file_block (λ _, Some blank_tile) "data" "data/N50E019.hgt");
    [lia|lia|vm_compute; reflexivity|reflexivity| |vm_compute; discriminate|vm_compute; discriminate|].
  - split; [apply Forall_replicate; lia|apply length_replicate].
  - intros y x Hy Hx. assert (y = 1 ∨ y = 2)%nat as [->| ->] by lia;
      (assert (x = 0 ∨ x = 1 ∨ x = 2)%nat as [->|[->| ->]] by lia); by eexists.
Defined.

(** ** Outliers *)

(** The reference: an outlier takes the value above it in the result, one in the
    first row that of the second row. *)
Fixpoint cleaned (h : nat → nat → double) (y x : nat) : double :=
  match y with
  | O => if is_outlier (h 0%nat x) then h 1%nat x else h 0%nat x
  | S y' => if is_outlier (h (S y') x) then cleaned h y' x else h (S y') x
  end.

Lemma skip_outlier_run length width h d y x :
  (2 ≤ length)%nat → (y < length)%nat → (x < width)%nat →
  holds length width (λ y' x', if decide (y' < y ∨ (y' = y ∧ x' < x))%nat
                               then cleaned h y' x' else h y' x') d →
  ∃ d', skip_outlier y x d = Ok (tt, d') ∧
    holds length width (λ y' x', if decide (y' < y ∨ (y' = y ∧ x' < S x))%nat
                                 then cleaned h y' x' else h y' x') d'.
Proof.
  intros Hl Hy Hx Hd. unfold skip_outlier.
  pose proof (Hd y x Hy Hx) as Hcell. cbv beta in Hcell.
  rewrite decide_False in Hcell by lia.
  rewrite (cell_lookup2 d y x (h y x) Hcell). cbn [mbind result_bind].
  destruct (is_outlier (h y x)) eqn:Ho.
  - assert (∃ h', cell d (if Nat.ltb 0 y then Z.of_nat y - 1 else Z.of_nat y + 1) (Z.of_nat x) = Ok h' ∧
      h' = cleaned h y x) as (h' & -> & Hh').
    { destruct y as [|y]; cbn [Nat.ltb Nat.leb].
      - exists (h 1%nat x). cbn [cleaned]. rewrite Ho. split; [|done].
        change (Z.of_nat 0 + 1) with (Z.of_nat 1). apply cell_lookup2.
        rewrite Hd by lia. by rewrite decide_False by lia.
      - exists (cleaned h y x). cbn [cleaned]. rewrite Ho. split; [|done].
        replace (Z.of_nat (S y) - 1) with (Z.of_nat y) by lia. apply cell_lookup2.
        rewrite Hd by lia. by rewrite decide_True by lia. }
    cbn [mbind result_bind]. destruct (set_cell_run d y x h' _ Hcell) as (d' & -> & Hd').
    eexists. split; [done|]. intros y' x' Hy' Hx'. rewrite Hd'.
    case_decide as E.
    + destruct E as [-> ->]. rewrite decide_True by lia. by rewrite Hh'.
    + rewrite Hd by done. do 2 case_decide; try done; lia.
  - eexists. split; [done|]. intros y' x' Hy' Hx'. rewrite Hd by done.
    do 2 case_decide; try done; try lia. assert (y' = y ∧ x' = x) as [-> ->] by lia.
    destruct y; cbn [cleaned]; by rewrite Ho.
Qed.

Lemma skip_outliers_run length width h d :
  (2 ≤ length)%nat → holds length width h d →
  ∃ d', skip_outliers d length width = Ok d' ∧ holds length width (cleaned h) d'.
Proof.
  intros Hl Hd. unfold skip_outliers.
  destruct (for_seq_inv (λ k, holds length width (λ y' x', if decide (y' < k)%nat
      then cleaned h y' x' else h y' x')) length
    (λ i, for_each_in (seq 0 width) (skip_outlier i)) d) as (d' & -> & Hd').
  - intros y d1 Hy H1.
    destruct (for_seq_inv (λ k, holds length width (λ y' x',
        if decide (y' < y ∨ (y' = y ∧ x' < k))%nat then cleaned h y' x' else h y' x'))
      width (skip_outlier y) d1) as (d2 & -> & H2).
    + intros x d2 Hx H2. by apply skip_outlier_run.
    + intros y' x' Hy' Hx'. rewrite H1 by done. do 2 case_decide; try done; lia.
    + exists d2. split; [done|]. intros y' x' Hy' Hx'. rewrite H2 by done.
      do 2 case_decide; try done; lia.
  - done.
  - exists d'. split; [done|]. intros y x Hy Hx. rewrite Hd' by done. by rewrite decide_True by lia.
Qed.

(** On a matrix of at least two rows with all cells written [skip_outliers]
    returns, and computes the reference in place: reading the row above after it was
    cleaned.  So a column whose first cell is not an outlier afterwards has no
    outlier left. *)
Theorem skip_outliers_correct (length width : nat) (h : nat → nat → double) (d : matrix) :
  (2 ≤ length)%nat → holds length width h d →
  ∃ d', skip_outliers d length width = Ok d' ∧ holds length width (cleaned h) d' ∧
    ∀ x, is_outlier (cleaned h 0 x) = false → ∀ y, is_outlier (cleaned h y x) = false.
Proof.
  intros Hl Hd. destruct (skip_outliers_run length width h d Hl Hd) as (d' & Hr & Hd').
  exists d'. split_and!; [done..|]. intros x H0 y. induction y as [|y IH]; [done|].
  cbn [cleaned]. destruct (is_outlier (h (S y) x)) eqn:E; done.
Qed.

Lemma skip_outliers_correct_witness :
  ∃ d', skip_outliers [[Some (of_Z 5000)]; [Some (of_Z 100)]] 2 1 = Ok d' ∧
    holds 2 1 (cleaned (λ y _, if Nat.eqb y 0 then of_Z 5000 else of_Z 100)) d' ∧
    ∀ x, is_outlier (cleaned (λ y _, if Nat.eqb y 0 then of_Z 5000 else of_Z 100) 0 x) = false →
      ∀ y, is_outlier (cleaned (λ y _, if Nat.eqb y 0 then of_Z 5000 else of_Z 100) y x) = false.
Proof.
  apply (skip_outliers_correct 2 1 (λ y _, if Nat.eqb y 0 then of_Z 5000 else of_Z 100)); [lia|].
  intros y x Hy Hx. assert (x = 0)%nat as -> by lia.
  assert (y = 0 ∨ y = 1)%nat as [->| ->] by lia; reflexivity.
Defined.

(** A map of a single row with an outlier is read out of bounds, at the row
    below the last. *)
Theorem skip_outliers_single_row :
  skip_outliers [[Some (of_Z 5000)]] 1 1 = Err UB.
Proof. vm_compute. reflexivity. Qed.
