(* ===== verification/SrtmArea.v ===== *)
(** * The SRTM reader on a whole area

    The reader walks over the tiles of an area, from north to south and from west to
    east, with pointers that are doubles.  For borders on the grid of the tiles (1200
    cells a degree, up to a small error, as decimal fractions have) the pointers follow
    the integers, and every cell of the map gets the pixel at its place in the tile it
    lies in. *)
From Stdlib Require Import QArith Lqa Qabs SpecFloat Ascii String.
From stdpp Require Import list.
From S2P Require Import Prelude Double Rounding NumUtils Model TerrainMap Interpolation.
From S2P Require Import SrtmReader SrtmFacts.

Local Open Scope Z_scope.

(** ** Borders on the grid *)

(** [X] is [x] cells, up to 2^-30 degrees. *)
Definition near (X : double) (x : Z) : Prop :=
  is_finite X = true ∧ (-2400 <= x <= 2 ^ 20)%Z ∧
  (inject_Z x * (1 # 1200) - (1 # 1073741824) <= val X)%Q ∧
  (val X <= inject_Z x * (1 # 1200) + (1 # 1073741824))%Q.

Lemma near_int J j : is_int J j → 0 <= j <= 800 → near J (1200 * j).
Proof.
  intros [Hf Hv]%is_int_val Hj. split_and!; [done|lia|lia| |]; rewrite Hv, inject_Z_mult;
    change (inject_Z 1200) with (1200 # 1)%Q; lra.
Qed.

Lemma near_bounds X x : near X x → (- (3 # 1) <= val X)%Q ∧ (val X <= 1000 # 1)%Q.
Proof.
  intros (_ & Hx & Hl & Hu).
  assert (inject_Z (-2400) <= inject_Z x)%Q by (rewrite <- Zle_Qle; lia).
  assert (inject_Z x <= inject_Z 1048576)%Q by (rewrite <- Zle_Qle; lia).
  change (inject_Z 1048576) with (1048576 # 1)%Q in *. change (inject_Z (-2400)) with (-2400 # 1)%Q in *. lra.
Qed.

Lemma pw12 : (pw 12 == 4096 # 1)%Q.
Proof. reflexivity. Qed.
Lemma pwm40 : (pw (-40) == 1 # 1099511627776)%Q.
Proof. reflexivity. Qed.

(** A moderate result of an operation. *)
Lemma close r R b : (r == b)%Q → rounds r R → (- (4000 # 1) <= b)%Q → (b <= 4000 # 1)%Q →
  is_finite R = true ∧ (b - (1 # 1099511627776) <= val R)%Q ∧ (val R <= b + (1 # 1099511627776))%Q.
Proof.
  intros E HR Hl Hu. rewrite E in HR. destruct (rounds_close b R HR) as (Hf & H1 & H2).
  - rewrite pw12. apply Qabs_Qle_condition. lra.
  - rewrite pwm40 in H1, H2. done.
Qed.

(** The difference of two borders. *)
Lemma near_dsub X Y x y : near X x → near Y y →
  is_finite (dsub X Y) = true ∧
  (inject_Z (x - y) * (1 # 1200) - (1 # 500000000) <= val (dsub X Y))%Q ∧
  (val (dsub X Y) <= inject_Z (x - y) * (1 # 1200) + (1 # 500000000))%Q.
Proof.
  intros HX HY. destruct (near_bounds _ _ HX), (near_bounds _ _ HY).
  destruct HX as (Fx & _ & X1 & X2), HY as (Fy & _ & Y1 & Y2).
  destruct (close (val X - val Y) (dsub X Y) (val X - val Y)) as (Hf & H3 & H4);
    [reflexivity|by apply dsub_rounds|lra|lra|].
  split; [done|]. unfold Z.sub. rewrite inject_Z_plus, inject_Z_opp. split; lra.
Qed.

(** The comparisons with a tolerance are those of the cells. *)
Lemma near_lesser X Y x y : near X x → near Y y → Utils_is_lesser X Y = (x <? y).
Proof.
  intros HX HY. destruct (near_dsub X Y x y HX HY) as (Hf & H1 & H2).
  destruct eps_val as (F1 & _ & _ & L1 & L2 & _). unfold Utils_is_lesser.
  destruct (Z.ltb_spec x y) as [Hlt|Hge].
  - apply dlt_val; [done|done|]. pose proof (inject_le_minus_one (x - y) ltac:(lia)). lra.
  - apply not_true_is_false. intros Hd%dlt_val; [|done|done].
    pose proof (inject_nonneg (x - y) ltac:(lia)). lra.
Qed.

Lemma near_greater X Y x y : near X x → near Y y → Utils_is_greater X Y = (y <? x).
Proof.
  intros HX HY. destruct (near_dsub X Y x y HX HY) as (Hf & H1 & H2).
  destruct eps_val as (_ & F1 & _ & _ & _ & L1 & L2 & _). unfold Utils_is_greater, dgt.
  destruct (Z.ltb_spec y x) as [Hlt|Hge].
  - apply dlt_val; [done|done|]. pose proof (inject_ge_one (x - y) ltac:(lia)). lra.
  - apply not_true_is_false. intros Hd%dlt_val; [|done|done].
    pose proof (inject_nonpos (x - y) ltac:(lia)). lra.
Qed.

Lemma val_fabs X : (val (fabs X) == Qabs (val X))%Q.
Proof.
  destruct X as [s|s| |s m e]; try reflexivity. unfold val. cbn [fabs SpecFloat.SFabs significand exponent].
  rewrite Qabs_Qmult. rewrite (Qabs_pos (pw e)) by (apply Qlt_le_weak, pw_pos).
  destruct s; cbn [cond_opp]; [|reflexivity]. rewrite inject_Z_opp, Qabs_opp. reflexivity.
Qed.

Lemma near_equals X Y x y : near X x → near Y y → Utils_equals X Y = (x =? y).
Proof.
  intros HX HY. destruct (near_dsub X Y x y HX HY) as (Hf & H1 & H2).
  destruct eps_val as (_ & _ & F1 & _ & _ & _ & _ & L1 & L2). unfold Utils_equals.
  assert (is_finite (fabs (dsub X Y)) = true) as Hfa by (by destruct (dsub X Y)).
  destruct (Z.eqb_spec x y) as [->|Hne].
  - apply dlt_val; [done|done|]. rewrite val_fabs. rewrite Z.sub_diag in H1, H2.
    change (inject_Z 0) with 0%Q in *.
    apply (Qle_lt_trans _ (1 # 500000000)); [apply Qabs_Qle_condition; lra|lra].
  - apply not_true_is_false. intros Hd%dlt_val; [|done|done]. rewrite val_fabs in Hd.
    assert (Qabs (val (dsub X Y)) <= 1 # 990000)%Q as [H3 H4]%Qabs_Qle_condition by lra.
    assert (x - y <= -1 ∨ 1 <= x - y) as [Hlt|Hlt] by lia.
    + pose proof (inject_le_minus_one (x - y) Hlt). lra.
    + pose proof (inject_ge_one (x - y) Hlt). lra.
Qed.

Lemma near_exponent X x : near X x → exponent X <= 53.
Proof.
  intros HX. destruct (near_bounds _ _ HX) as [H1 H2].
  destruct X as [s|s| |s m e]; cbn [exponent]; try lia.
  destruct (Z_le_gt_dec e 53) as [|He]; [done|exfalso].
  unfold val in H1, H2. cbn [significand exponent] in H1, H2. rewrite pw_Z in H1, H2 by lia.
  rewrite <- inject_Z_mult in H1, H2. change (1000 # 1)%Q with (inject_Z 1000) in H2.
  change (- (3 # 1))%Q with (inject_Z (-3)) in H1. rewrite <- Zle_Qle in H1, H2.
  assert (2 ^ 53 < 2 ^ e) by (apply Z.pow_lt_mono_r; lia).
  destruct s; cbn [cond_opp] in H1, H2; nia.
Qed.

Lemma near_border_to_int X x : near X x → 0 <= x → border_to_int X = Ok x.
Proof.
  intros HX Hx0. pose proof (near_exponent _ _ HX) as He. destruct (near_bounds _ _ HX) as [B1 B2].
  pose proof HX as (Fx & Hx & X1 & X2). unfold border_to_int. change VALUES_IN_DEGREE with 1200.
  assert (is_int (of_Z 1200) 1200) as [F1 V1]%is_int_val by (by apply of_Z_is_int).
  pose proof (dmul_rounds X (of_Z 1200) Fx F1) as HR.
  assert (exponent X + exponent (of_Z 1200) <= 971) as Hexp by (change (exponent (of_Z 1200)) with (-42); lia).
  specialize (HR Hexp). rewrite V1 in HR. change (inject_Z 1200) with (1200 # 1)%Q in HR.
  assert (is_int (dround (dmul X (of_Z 1200))) x) as Hint.
  { assert (Qabs (val X * (1200 # 1)) <= pw 1023)%Q as Hb.
    { apply (Qle_trans _ (pw 21)); [|apply pw_le; lia]. change (pw 21) with (2097152 # 1)%Q.
      apply Qabs_Qle_condition. lra. }
    destruct (rounds_finite _ _ HR Hb) as [Hf Hn]. apply dround_close; [done|lia|..].
    - destruct (Hn (4 * x - 1) (-2)) as [H1 _]; [lia|lia|]. change (pw (-2)) with (1 # 4)%Q in H1.
      unfold Z.sub in H1. rewrite inject_Z_plus, inject_Z_mult in H1. change (inject_Z 4) with (4 # 1)%Q in H1.
      change (inject_Z (-(1))) with (-1 # 1)%Q in H1. specialize (H1 ltac:(lra)). lra.
    - destruct (Hn (4 * x + 1) (-2)) as [_ H2]; [lia|lia|]. change (pw (-2)) with (1 # 4)%Q in H2.
      rewrite inject_Z_plus, inject_Z_mult in H2. change (inject_Z 4) with (4 # 1)%Q in H2.
      change (inject_Z 1) with (1 # 1)%Q in H2. specialize (H2 ltac:(lra)). lra. }
  apply is_int_trunc in Hint. unfold to_int, cast. rewrite Hint. unfold INT_MIN, INT_MAX.
  by rewrite (proj2 (Z.leb_le _ _)), (proj2 (Z.leb_le _ _)) by lia.
Qed.

Lemma near_trunc X x : near X x → 0 <= x →
  ∃ t, trunc X = Some t ∧ (t = x / 1200 ∨ t = x / 1200 - 1 ∧ 0 < x / 1200 ∧ x = 1200 * (x / 1200)).
Proof.
  intros (Fx & Hx & X1 & X2) Hx0. pose proof (Z.div_mod x 1200 ltac:(lia)) as E.
  pose proof (Z.mod_pos_bound x 1200 ltac:(lia)) as Hm. pose proof (Z.div_pos x 1200 ltac:(lia) ltac:(lia)) as Hq.
  set (q := x / 1200) in *. set (r := x mod 1200) in *.
  assert (inject_Z x == (1200 # 1) * inject_Z q + inject_Z r)%Q as Ex
    by (rewrite E, inject_Z_plus, inject_Z_mult; reflexivity).
  assert (0 <= inject_Z r <= 1199 # 1)%Q as [R1 R2].
  { split; [apply inject_nonneg; lia|]. change (1199 # 1)%Q with (inject_Z 1199). rewrite <- Zle_Qle. lia. }
  assert (inject_Z (q + 1) == inject_Z q + 1)%Q as Eq1 by (by rewrite inject_Z_plus).
  assert (inject_Z (q - 1) == inject_Z q - 1)%Q as Eq2 by (unfold Z.sub; by rewrite inject_Z_plus).
  assert ((inject_Z r < 1)%Q → r = 0) as Hr0.
  { intros Hr. change 1%Q with (inject_Z 1) in Hr. rewrite <- Zlt_Qlt in Hr. lia. }
  destruct (Qlt_le_dec (val X) 0) as [Hneg|Hpos].
  - pose proof (inject_nonneg q Hq). assert (r = 0) as Er by (apply Hr0; lra).
    assert (q = 0) as Eq. { assert (inject_Z q < inject_Z 1)%Q as Hlt by (change (inject_Z 1) with 1%Q; lra).
      rewrite <- Zlt_Qlt in Hlt. lia. }
    exists 0. split; [|left; lia].
    pose proof (trunc_val (dopp X) 0) as Ht. rewrite is_finite_dopp, trunc_dopp, val_dopp in Ht.
    change (inject_Z 0) with 0%Q in Ht. change (inject_Z (0 + 1)) with 1%Q in Ht.
    specialize (Ht Fx ltac:(lia) ltac:(lra) ltac:(lra)). destruct (trunc X) as [t|]; [|done].
    injection Ht as Ht. f_equal. lia.
  - destruct (Qlt_le_dec (val X) (inject_Z q)) as [Hlow|Hhigh].
    + assert (r = 0) as Er by (apply Hr0; lra). assert (0 < q) as Hq0. { rewrite Zlt_Qlt. change (inject_Z 0) with 0%Q. lra. }
      exists (q - 1). split; [|right; lia].
      apply trunc_val; [done|lia|lra|]. replace (q - 1 + 1) with q by lia. done.
    + exists q. split; [|by left]. apply trunc_val; [done|done|done|]. lra.
Qed.

Lemma near_floor2 X x : near X x → 0 <= x <= 700 * 1200 →
  ∃ F, Utils_floor2 X = Ok F ∧ is_int F (x / 1200).
Proof.
  intros HX Hb. destruct (near_trunc X x HX) as (t & Ht & Hor); [lia|]. pose proof HX as (_ & Hx & _).
  pose proof (Z.div_mod x 1200 ltac:(lia)) as E. pose proof (Z.mod_pos_bound x 1200 ltac:(lia)) as Hm.
  pose proof (Z.div_pos x 1200 ltac:(lia) ltac:(lia)) as Hq. set (q := x / 1200) in *.
  assert (0 <= t <= 700) as Htb by lia.
  assert (is_int (of_Z t) t) as It by (apply of_Z_is_int; change prec with 53; lia).
  assert (is_int (dadd (of_Z t) (of_Z 1)) (t + 1)) as It1
    by (apply dadd_is_int; [done|by apply of_Z_is_int|change prec with 53; lia]).
  unfold Utils_floor2, to_int, cast. rewrite Ht. unfold INT_MIN, INT_MAX.
  rewrite (proj2 (Z.leb_le _ _)), (proj2 (Z.leb_le _ _)) by lia. cbn [andb mbind result_bind]. cbv zeta.
  rewrite (near_greater _ X (1200 * t) x) by (done || (apply near_int; [done|lia])).
  rewrite (near_greater _ X (1200 * (t + 1)) x) by (done || (apply near_int; [done|lia])).
  destruct (Z.ltb_spec x (1200 * t)); [lia|]. destruct (Z.ltb_spec x (1200 * (t + 1))); cbn [negb andb].
  - exists (of_Z t). split; [done|]. by replace q with t by lia.
  - eexists. split; [reflexivity|]. by replace q with (t + 1) by lia.
Qed.

(** A border of the area: on the grid, and exact if it is a whole degree. *)
Definition on_grid (X : double) (x : Z) : Prop :=
  is_finite X = true ∧ (0 <= x <= 2 ^ 19)%Z ∧
  (inject_Z x * (1 # 1200) - (1 # 2147483648) <= val X)%Q ∧
  (val X <= inject_Z x * (1 # 1200) + (1 # 2147483648))%Q ∧
  (x mod 1200 = 0 → is_int X (x / 1200)).

Lemma on_grid_near X x : on_grid X x → near X x.
Proof. intros (Hf & Hx & H1 & H2 & _). split_and!; [done|lia|lia|lra|lra]. Qed.

Lemma on_grid_int J j : is_int J j → 0 <= j <= 400 → on_grid J (1200 * j).
Proof.
  intros HJ Hj. pose proof HJ as [Hf Hv]%is_int_val.
  split_and!; [done|lia|lia|rewrite Hv, inject_Z_mult; change (inject_Z 1200) with (1200 # 1)%Q; lra..|].
  intros _. by rewrite Z.mul_comm, Z.div_mul.
Qed.

Lemma one_val : is_finite (of_Z 1) = true ∧ (val (of_Z 1) == 1)%Q.
Proof. apply is_int_val. by apply of_Z_is_int. Qed.

Lemma on_grid_succ X x : on_grid X x → near (dadd X (of_Z 1)) (x + 1200).
Proof.
  intros HX. destruct (near_bounds _ _ (on_grid_near _ _ HX)) as [B1 B2].
  destruct HX as (Fx & Hx & H1 & H2 & _). destruct one_val as [F1 V1].
  destruct (close (val X + val (of_Z 1)) (dadd X (of_Z 1)) (val X + 1)) as (Hf & H3 & H4);
    [by rewrite V1|by apply dadd_rounds|lra|lra|].
  split_and!; [done|lia|lia|..]; rewrite inject_Z_plus; change (inject_Z 1200) with (1200 # 1)%Q; lra.
Qed.

Lemma on_grid_pred X x : on_grid X x → near (dsub X (of_Z 1)) (x - 1200).
Proof.
  intros HX. destruct (near_bounds _ _ (on_grid_near _ _ HX)) as [B1 B2].
  destruct HX as (Fx & Hx & H1 & H2 & _). destruct one_val as [F1 V1].
  destruct (close (val X - val (of_Z 1)) (dsub X (of_Z 1)) (val X - 1)) as (Hf & H3 & H4);
    [by rewrite V1|by apply dsub_rounds|lra|lra|].
  split_and!; [done|lia|lia|..]; unfold Z.sub; rewrite inject_Z_plus;
    change (inject_Z (-(1200))) with (-1200 # 1)%Q; lra.
Qed.

Lemma on_grid_floor2 X x : on_grid X x → ∃ F, Utils_floor2 X = Ok F ∧ is_int F (x / 1200).
Proof. intros HX. pose proof HX as (_ & Hx & _). apply near_floor2; [by apply on_grid_near|lia]. Qed.

Lemma on_grid_ceil2 X x : on_grid X x → ∃ C, Utils_ceil2 X = Ok C ∧ is_int C (x / 1200 + 1).
Proof.
  intros HX. destruct (on_grid_floor2 X x HX) as (F & HF & IF). pose proof HX as (_ & Hx & _).
  pose proof (Z.div_pos x 1200 ltac:(lia) ltac:(lia)).
  assert (x / 1200 <= 1000) by (apply Z.div_le_upper_bound; lia).
  unfold Utils_ceil2. rewrite HF. eexists. split; [reflexivity|].
  apply dadd_is_int; [done|by apply of_Z_is_int|change prec with 53; lia].
Qed.

(** ** The cells *)

(** The southern border of the tile row of [n]. *)
Definition tile_south (n : Z) : Z := 1200 * ((n - 1) / 1200).

Lemma tile_south_bounds n : 0 < n → 0 <= tile_south n < n ∧ n <= tile_south n + 1200.
Proof.
  intros Hn. unfold tile_south. pose proof (Z.div_mod (n - 1) 1200 ltac:(lia)).
  pose proof (Z.mod_pos_bound (n - 1) 1200 ltac:(lia)). pose proof (Z.div_pos (n - 1) 1200 ltac:(lia) ltac:(lia)). lia.
Qed.

Lemma start_row_south n : 0 < n → start_row n = tile_south n + 1200 - n.
Proof.
  intros Hn. pose proof (tile_south_bounds n Hn). unfold start_row. change VALUES_IN_DEGREE with 1200.
  symmetry. apply (Z.mod_unique_pos _ _ (- ((n - 1) / 1200) - 1)); [lia|]. unfold tile_south. lia.
Qed.

(** Inside a tile the rows and columns go on without a gap. *)
Lemma row_in_tile n i : 0 <= i → tile_south n < n - i → 0 < n → 
  start_row (n - i) = start_row n + i ∧ first_lat_to_read (n - i) = first_lat_to_read n.
Proof.
  intros Hi Hs Hn. pose proof (tile_south_bounds n Hn) as Hb.
  assert ((n - i - 1) / 1200 = (n - 1) / 1200) as E.
  { symmetry. apply (Z.div_unique_pos _ _ _ (n - i - 1 - tile_south n)); unfold tile_south in *; lia. }
  rewrite !first_lat_pos, !start_row_south by lia. unfold tile_south. change VALUES_IN_DEGREE with 1200. rewrite E. split; [lia|done].
Qed.

Lemma col_in_tile x j : 0 <= x → 0 <= j → start_col x + j < 1200 →
  start_col (x + j) = start_col x + j ∧ first_long_to_read (x + j) = first_long_to_read x.
Proof.
  unfold start_col. change VALUES_IN_DEGREE with 1200. intros Hx Hj Hs.
  pose proof (Z.div_mod x 1200 ltac:(lia)) as E. pose proof (Z.mod_pos_bound x 1200 ltac:(lia)).
  rewrite !first_long_nonneg by lia. change VALUES_IN_DEGREE with 1200. split.
  - symmetry. apply (Z.mod_unique_pos _ _ (x / 1200)); lia.
  - symmetry. apply (Z.div_unique_pos _ _ _ (x mod 1200 + j)); lia.
Qed.

(** The height of the grid point [n] / 1200 north and [x] / 1200 east: the tile that
    has it in its square degree, not on the southern and not on the eastern edge,
    with the row counted from the north and the column from the west. *)
Definition grid_height (tile : Z → Z → list Z) (n x : Z) : double :=
  let lat := (n - 1) / 1200 in
  let lon := x / 1200 in
  of_Z (height_at_pixel (tile lat lon)
    (Z.to_nat ((1200 * (lat + 1) - n) * 1201 + (x - 1200 * lon)))).

(** The pixels of a block are the grid points of the area. *)
Lemma grid_height_block tile n x (i j : nat) :
  0 < n → 0 <= x → tile_south n < n - Z.of_nat i → start_col x + Z.of_nat j < 1200 →
  grid_height tile (n - Z.of_nat i) (x + Z.of_nat j) =
    of_Z (height_at_pixel (tile ((n - 1) / 1200) (x / 1200))
      (Z.to_nat (start_row n * 1201 + start_col x) + i * 1201 + j)).
Proof.
  intros Hn Hx Hi Hj. pose proof (tile_south_bounds n Hn).
  destruct (row_in_tile n (Z.of_nat i)) as [R1 R2]; [lia..|].
  destruct (col_in_tile x (Z.of_nat j)) as [C1 C2]; [lia..|].
  rewrite !first_lat_pos in R2 by lia. rewrite !first_long_nonneg in C2 by lia.
  change VALUES_IN_DEGREE with 1200 in *. unfold grid_height. rewrite R2, C2. do 2 f_equal.
  rewrite start_row_south in * by lia. unfold tile_south in *.
  assert (start_col x = x - 1200 * (x / 1200)) as ->.
  { unfold start_col. change VALUES_IN_DEGREE with 1200. pose proof (Z.div_mod x 1200 ltac:(lia)). lia. }
  assert (0 <= x - 1200 * (x / 1200)) by (pose proof (Z.mul_div_le x 1200 ltac:(lia)); lia). lia.
Qed.

(** ** The loops over the tiles *)

(** The tiles that the area touches are complete files with the heights [tile]. *)
Definition has_tiles (files : string → option (list Z)) (map_dir : string)
    (tile : Z → Z → list Z) (wi ni ei si : Z) : Prop :=
  ∀ lat lon, si < 1200 * (lat + 1) → 1200 * lat < ni → wi < 1200 * (lon + 1) → 1200 * lon < ei →
    files (tile_name map_dir lat lon) = Some (tile lat lon) ∧ tile_ok (tile lat lon).

Section Area.
Context (files : string → option (list Z)) (map_dir : string) (tile : Z → Z → list Z).
Context (wi ni ei si : Z) (W N E S : double).
Hypothesis Hdir : (String.length map_dir <= 200)%nat.
Hypothesis HW : on_grid W wi.
Hypothesis HN : on_grid N ni.
Hypothesis HE : on_grid E ei.
Hypothesis HS : on_grid S si.
Hypothesis Hwe : 0 <= wi < ei ∧ ei <= 180 * 1200.
Hypothesis Hsn : 0 <= si < ni ∧ ni <= 90 * 1200.

Hypothesis Htiles : has_tiles files map_dir tile wi ni ei si.

Let rows := Z.to_nat (ni - si).
Let cols := Z.to_nat (ei - wi).
Let area_height (y x : nat) : double := grid_height tile (ni - Z.of_nat y) (wi + Z.of_nat x).

(** The cells that satisfy [P] are read, the others are there. *)
Definition filled (P : nat → nat → Prop) (d : matrix) : Prop :=
  ∀ y x, (y < rows)%nat → (x < cols)%nat →
    is_Some (lookup2 d y x) ∧ (P y x → lookup2 d y x = Some (Some (area_height y x))).

Lemma filled_init : filled (λ _ _, False) (init_map_data rows cols).
Proof.
  intros y x Hy Hx. split; [|done]. unfold lookup2, init_map_data.
  rewrite lookup_replicate_2 by done. simpl. rewrite lookup_replicate_2 by done. by eexists.
Qed.

Lemma filled_weaken (P Q : nat → nat → Prop) d :
  (∀ y x, (y < rows)%nat → (x < cols)%nat → Q y x → P y x) → filled P d → filled Q d.
Proof. intros HPQ Hd y x Hy Hx. destruct (Hd y x Hy Hx). split; [done|]. intros HQ. auto. Qed.

(** A block of one tile. *)
Lemma read_block_filled n x (h w y0 x0 : nat) P d :
  n = ni - Z.of_nat y0 → x = wi + Z.of_nat x0 → si < n → x < ei →
  Z.of_nat h <= n - Z.max (tile_south n) si →
  Z.of_nat w <= Z.min (1200 * (x / 1200 + 1)) ei - x →
  filled P d →
  ∃ d', read_from_file files n x h w y0 x0 d map_dir = Ok d' ∧
    filled (λ y' x', P y' x' ∨ (y0 <= y' < y0 + h ∧ x0 <= x' < x0 + w)%nat) d'.
Proof.
  intros En Ex Hn Hx Hh Hw Hd. pose proof (tile_south_bounds n ltac:(lia)) as Hb.
  pose proof (Z.div_mod x 1200 ltac:(lia)) as Dx. pose proof (Z.mod_pos_bound x 1200 ltac:(lia)) as Mx.
  assert (start_col x = x mod 1200) as Sx by done.
  pose proof (start_row_south n ltac:(lia)) as Sn.
  destruct (Htiles ((n - 1) / 1200) (x / 1200)) as [Hf Hok];
    [unfold tile_south in *; lia..|].
  destruct (read_block_run files map_dir (tile_name map_dir ((n - 1) / 1200) (x / 1200))
    (tile ((n - 1) / 1200) (x / 1200)) n x h w y0 x0 d) as (d' & Hr & Hc); [lia|lia| |done|done|lia|lia| |].
  { apply get_filename_run; [done|change VALUES_IN_DEGREE with 1200; lia..]. }
  { intros y x' Hy Hx'. apply Hd; lia. }
  exists d'. split; [done|]. intros y x' Hy Hx'. rewrite Hc. case_decide as Hin.
  - split; [by eexists|]. intros _. do 2 f_equal. unfold area_height.
    replace (ni - Z.of_nat y) with (n - Z.of_nat (y - y0)) by lia.
    replace (wi + Z.of_nat x') with (x + Z.of_nat (x' - x0)) by lia.
    symmetry. apply grid_height_block; lia.
  - destruct (Hd y x' Hy Hx') as [H1 H2]. split; [done|]. intros [|]; [auto|done].
Qed.

(** The smaller of a pointer and a border, as the code picks it. *)
Lemma on_grid_min X x B b : near X x → on_grid B b → (x <= b → on_grid X x) →
  on_grid (if Utils_is_greater X B then B else X) (Z.min x b).
Proof.
  intros HX HB Hle. rewrite (near_greater _ _ _ _ HX (on_grid_near _ _ HB)).
  destruct (Z.ltb_spec b x); [by rewrite Z.min_r by lia|rewrite Z.min_l by lia; auto].
Qed.

Lemma on_grid_max X x B b : near X x → on_grid B b → (b <= x → on_grid X x) →
  on_grid (if Utils_is_lesser X B then B else X) (Z.max x b).
Proof.
  intros HX HB Hle. rewrite (near_lesser _ _ _ _ HX (on_grid_near _ _ HB)).
  destruct (Z.ltb_spec x b); [by rewrite Z.max_r by lia|rewrite Z.max_l by lia; auto].
Qed.

(** The pointers of the loop over the tiles of a row, one tile on. *)
Lemma west_step X x : on_grid X x → x < ei →
  ∃ F, Utils_floor2 (dadd X (of_Z 1)) = Ok F ∧ on_grid F (1200 * (x / 1200 + 1)).
Proof.
  intros HX Hx. pose proof HX as (_ & Hx0 & _).
  destruct (near_floor2 _ _ (on_grid_succ _ _ HX)) as (F & HF & IF); [lia|].
  replace (x + 1200) with (x + 1 * 1200) in IF by lia. rewrite Z.div_add in IF by lia.
  exists F. split; [done|]. apply on_grid_int; [done|].
  pose proof (Z.div_pos x 1200 ltac:(lia) ltac:(lia)).
  pose proof (Z.div_lt_upper_bound x 1200 180 ltac:(lia) ltac:(lia)). lia.
Qed.

Lemma on_grid_step X x : on_grid X x → x mod 1200 = 0 → x <= 180 * 1200 → on_grid (dadd X (of_Z 1)) (x + 1200).
Proof.
  intros (_ & Hx0 & _ & _ & HX) Hx Hle. pose proof (Z.div_mod x 1200 ltac:(lia)) as D.
  replace (x + 1200) with (1200 * (x / 1200 + 1)) by lia. apply on_grid_int; [|lia].
  apply dadd_is_int; [auto|by apply of_Z_is_int|change prec with 53; lia].
Qed.

Lemma on_grid_back X x : on_grid X x → x mod 1200 = 0 → 1200 <= x <= 180 * 1200 → on_grid (dsub X (of_Z 1)) (x - 1200).
Proof.
  intros (_ & Hx0 & _ & _ & HX) Hx Hle. pose proof (Z.div_mod x 1200 ltac:(lia)) as D.
  pose proof (Z.div_le_upper_bound x 1200 437 ltac:(lia) ltac:(lia)).
  replace (x - 1200) with (1200 * (x / 1200 - 1)) by lia. apply on_grid_int; [|lia].
  apply dsub_is_int; [auto|by apply of_Z_is_int|lia].
Qed.

Lemma east_step Y x : 0 <= x → on_grid Y (Z.min (1200 * (x / 1200 + 1)) ei) → 1200 * (x / 1200 + 1) < ei →
  on_grid (if Utils_is_greater (dadd Y (of_Z 1)) E then E else dadd Y (of_Z 1))
    (Z.min (1200 * ((1200 * (x / 1200 + 1)) / 1200 + 1)) ei).
Proof.
  intros Hx HY Hlt. rewrite Z.min_l in HY by lia.
  replace (1200 * (x / 1200 + 1) / 1200) with (x / 1200 + 1) by (rewrite Z.mul_comm, Z.div_mul; lia).
  replace (1200 * (x / 1200 + 1 + 1)) with (1200 * (x / 1200 + 1) + 1200) by lia.
  apply on_grid_min; [by apply on_grid_succ|done|]. intros _.
  apply on_grid_step; [done| |lia]. by rewrite Z.mul_comm, Z.mod_mul.
Qed.

(** The loop over the tiles of a row reads the rest of the row. *)
Lemma read_tile_row_filled fuel n (h y0 x0 : nat) x X Y P d :
  n = ni - Z.of_nat y0 → si < n → Z.of_nat h <= n - Z.max (tile_south n) si →
  on_grid X x → wi <= x → wi + Z.of_nat x0 = Z.min x ei →
  (x < ei → on_grid Y (Z.min (1200 * (x / 1200 + 1)) ei)) →
  ei <= 1200 * (x / 1200 + Z.of_nat fuel - 1) → (0 < fuel)%nat → filled P d →
  ∃ d', read_tile_row files fuel n h y0 x0 X Y E map_dir d = Ok d' ∧
    filled (λ y' x', P y' x' ∨ (y0 <= y' < y0 + h ∧ x0 <= x')%nat) d'.
Proof.
  revert x0 x X Y P d. induction fuel as [|fuel IH]; intros x0 x X Y P d En Hn Hh HX Hx Hx0 HY Hfuel Hpos Hd; [lia|].
  cbn [read_tile_row].
  rewrite (near_lesser _ _ _ _ (on_grid_near _ _ HX) (on_grid_near _ _ HE)).
  destruct (Z.ltb_spec x ei) as [Hlt|Hge].
  2:{ exists d. split; [done|]. eapply filled_weaken, Hd. intros y' x' _ Hc [H|H]; [done|].
      unfold cols in Hc. lia. }
  specialize (HY Hlt). rewrite Z.min_l in Hx0 by lia.
  pose proof (Z.mul_succ_div_gt x 1200 ltac:(lia)) as Dx.
  set (y := Z.min (1200 * (x / 1200 + 1)) ei) in *.
  rewrite (near_border_to_int X x), (near_border_to_int Y y)
    by (first [by apply on_grid_near|lia]). cbn [mbind result_bind].
  unfold int_sub. rewrite (proj2 (Z.leb_le INT_MIN _)), (proj2 (Z.leb_le _ INT_MAX))
    by (unfold INT_MIN, INT_MAX; lia). cbn [andb mbind result_bind].
  set (w := Z.to_nat (Z.abs (y - x))).
  destruct (read_block_filled n x h w y0 x0 P d) as (d1 & -> & Hd1); [lia..|done|].
  cbn [mbind result_bind]. destruct (west_step X x HX Hlt) as (F & -> & HF). cbn [mbind result_bind].
  edestruct (IH (x0 + w)%nat (1200 * (x / 1200 + 1)) F) as (d2 & -> & Hd2);
    [done|done|done|done|lia|lia|intros H; apply east_step; [lia|exact HY|done]| | |exact Hd1|].
  - rewrite (Z.mul_comm 1200 (x / 1200 + 1)), Z.div_mul by lia. lia.
  - destruct fuel; [|lia]. pose proof (Z.mul_div_le x 1200 ltac:(lia)). lia.
  - exists d2. split; [done|]. eapply filled_weaken, Hd2. intros y' x' _ _ [H|H]; [tauto|].
    destruct (decide (x' < x0 + w)%nat); [left; right; lia|right; lia].
Qed.

(** The pointers of the loop over the rows of tiles, one row on. *)
Lemma tile_south_whole n : n mod 1200 = 0 → tile_south n = n - 1200.
Proof.
  intros Hn. pose proof (Z.div_mod n 1200 ltac:(lia)) as D. unfold tile_south.
  replace ((n - 1) / 1200) with (n / 1200 - 1); [lia|].
  apply (Z.div_unique_pos _ _ _ 1199); lia.
Qed.

Lemma tile_south_part n : n mod 1200 ≠ 0 → tile_south n = 1200 * (n / 1200).
Proof.
  intros Hn. pose proof (Z.div_mod n 1200 ltac:(lia)) as D. unfold tile_south. f_equal.
  pose proof (Z.mod_pos_bound n 1200 ltac:(lia)).
  symmetry. apply (Z.div_unique_pos _ _ _ (n mod 1200 - 1)); lia.
Qed.

Lemma whole_equals n : (1200 * (n / 1200) =? n) = (n mod 1200 =? 0).
Proof. pose proof (Z.div_mod n 1200 ltac:(lia)). apply eq_iff_eq_true. rewrite !Z.eqb_eq. lia. Qed.

Lemma tile_south_mod n : tile_south n mod 1200 = 0.
Proof. unfold tile_south. by rewrite Z.mul_comm, Z.mod_mul. Qed.

Lemma north_step X n F : on_grid X n → 0 < n <= 90 * 1200 → is_int F (n / 1200) →
  on_grid (if Utils_equals F X then dsub X (of_Z 1) else F) (tile_south n).
Proof.
  intros HX Hn HF. pose proof (Z.div_pos n 1200 ltac:(lia) ltac:(lia)).
  pose proof (Z.div_le_upper_bound n 1200 90 ltac:(lia) ltac:(lia)).
  pose proof (on_grid_int F _ HF ltac:(lia)) as HF'.
  rewrite (near_equals _ _ _ _ (on_grid_near _ _ HF') (on_grid_near _ _ HX)), whole_equals.
  destruct (Z.eqb_spec (n mod 1200) 0) as [Hz|Hz].
  - rewrite tile_south_whole by done. apply on_grid_back; [done..|].
    pose proof (Z.div_mod n 1200 ltac:(lia)). lia.
  - by rewrite tile_south_part.
Qed.

Lemma south_step Y n : on_grid Y (Z.max (tile_south n) si) → si < tile_south n → n <= 90 * 1200 → 0 < n →
  on_grid (if Utils_is_lesser (dsub Y (of_Z 1)) S then S else dsub Y (of_Z 1))
    (Z.max (tile_south (tile_south n)) si).
Proof.
  intros HY Hlt Hle Hpos. rewrite Z.max_l in HY by lia. pose proof (tile_south_bounds n Hpos).
  rewrite (tile_south_whole (tile_south n)) by apply tile_south_mod.
  apply on_grid_max; [by apply on_grid_pred|done|]. intros Hge.
  apply on_grid_back; [done|apply tile_south_mod|lia].
Qed.

(** The first tile of each row. *)
Lemma first_east : ∃ c, Utils_ceil2 W = Ok c ∧
  on_grid (if Utils_is_greater c E then E else c) (Z.min (1200 * (wi / 1200 + 1)) ei).
Proof.
  destruct (on_grid_ceil2 W wi HW) as (c & Hc & Ic). exists c. split; [done|].
  pose proof (Z.div_pos wi 1200 ltac:(lia) ltac:(lia)).
  pose proof (Z.div_lt_upper_bound wi 1200 180 ltac:(lia) ltac:(lia)).
  pose proof (on_grid_int c _ Ic ltac:(lia)). apply on_grid_min; [by apply on_grid_near|done..].
Qed.

(** The loop over the rows of tiles reads the rest of the area. *)
Lemma read_tiles_filled fuel (left across : Z) (y0 : nat) n X Y d :
  on_grid X n → n <= ni → ni - Z.of_nat y0 = Z.max n si →
  (si < n → on_grid Y (Z.max (tile_south n) si)) →
  0 <= left → n <= 1200 * (si / 1200 + left) →
  1 <= across → ei <= 1200 * (wi / 1200 + across - 1) → left + across <= Z.of_nat fuel →
  filled (λ y' _, y' < y0)%nat d →
  ∃ d', read_tiles files fuel y0 X Y W E S map_dir d = Ok d' ∧ filled (λ _ _, True) d'.
Proof.
  revert left y0 n X Y d.
  induction fuel as [|fuel IH]; intros left y0 n X Y d HX Hni Hy0 HY Hl Hn Ha Hei Hfuel Hd; [lia|].
  cbn [read_tiles]. rewrite (near_greater _ _ _ _ (on_grid_near _ _ HX) (on_grid_near _ _ HS)).
  destruct (Z.ltb_spec si n) as [Hlt|Hge].
  2:{ exists d. split; [done|]. eapply filled_weaken, Hd. intros y' x' Hr _ _. unfold rows in Hr. cbv beta. lia. }
  specialize (HY Hlt). rewrite Z.max_l in Hy0 by lia. pose proof (tile_south_bounds n ltac:(lia)) as Hb.
  set (s := Z.max (tile_south n) si) in *.
  rewrite (near_border_to_int X n), (near_border_to_int Y s)
    by (first [by apply on_grid_near|lia]). cbn [mbind result_bind].
  unfold int_sub. rewrite (proj2 (Z.leb_le INT_MIN _)), (proj2 (Z.leb_le _ INT_MAX))
    by (unfold INT_MIN, INT_MAX; lia). cbn [andb mbind result_bind].
  set (h := Z.to_nat (Z.abs (n - s))).
  destruct first_east as (c & -> & Hc). cbn [mbind result_bind].
  pose proof (Z.mul_div_le si 1200 ltac:(lia)) as Ds.
  destruct (read_tile_row_filled fuel n h y0 0 wi W (if Utils_is_greater c E then E else c)
    (λ y' _, y' < y0)%nat d) as (d1 & -> & Hd1); [lia..|done|lia|lia|done|lia|lia|done|].
  cbn [mbind result_bind]. destruct (on_grid_floor2 X n HX) as (F & -> & IF). cbn [mbind result_bind].
  apply (IH (left - 1) (y0 + h)%nat (tile_south n)); try lia.
  - apply north_step; [done|lia|done].
  - intros H. apply south_step; [done..|lia|lia].
  - unfold tile_south in *. pose proof (Z.div_mod (n - 1) 1200 ltac:(lia)).
    pose proof (Z.mod_pos_bound (n - 1) 1200 ltac:(lia)). lia.
  - eapply filled_weaken, Hd1. intros y' x' _ _ H. cbv beta in *. lia.
Qed.

Lemma read_multiple_filled fuel :
  ni / 1200 - si / 1200 + (ei / 1200 - wi / 1200) + 3 <= Z.of_nat fuel →
  ∃ d', read_from_multiple_files files fuel W N E S map_dir (init_map_data rows cols) = Ok d' ∧
    filled (λ _ _, True) d'.
Proof.
  intros Hfuel. unfold read_from_multiple_files.
  destruct (on_grid_floor2 N ni HN) as (F & -> & IF). cbn [mbind result_bind].
  pose proof (Z.div_pos ni 1200 ltac:(lia) ltac:(lia)).
  pose proof (Z.div_le_upper_bound ni 1200 90 ltac:(lia) ltac:(lia)).
  pose proof (on_grid_int F _ IF ltac:(lia)) as HF.
  pose proof (on_grid_max F _ S si (on_grid_near _ _ HF) HS (λ _, HF)) as HY.
  pose proof (Z.mul_succ_div_gt ni 1200 ltac:(lia)). pose proof (Z.mul_succ_div_gt ei 1200 ltac:(lia)).
  pose proof (Z.div_le_mono si ni 1200 ltac:(lia) ltac:(lia)).
  pose proof (Z.div_le_mono wi ei 1200 ltac:(lia) ltac:(lia)).
  eapply (read_tiles_filled fuel (ni / 1200 - si / 1200 + 1) (ei / 1200 - wi / 1200 + 2) 0 ni);
    [done|lia|lia| |lia|lia|lia|lia|lia|eapply filled_weaken, filled_init; lia].
  intros _. set (Y := if Utils_is_lesser F S then S else F) in *.
  rewrite (near_equals _ _ _ _ (on_grid_near _ _ HN) (on_grid_near _ _ HY)).
  destruct (Z.eqb_spec ni (Z.max (1200 * (ni / 1200)) si)) as [Heq|Hne].
  - assert (ni mod 1200 = 0) by (pose proof (Z.div_mod ni 1200 ltac:(lia)); lia).
    rewrite tile_south_whole by done. apply on_grid_max; [by apply on_grid_pred|done|].
    intros _. apply on_grid_back; [done..|]. pose proof (Z.div_mod ni 1200 ltac:(lia)). lia.
  - rewrite tile_south_part; [done|]. pose proof (Z.div_mod ni 1200 ltac:(lia)). lia.
Qed.
End Area.

Lemma on_grid_dgt X Y x y : on_grid X x → on_grid Y y → x < y → dgt X Y = false.
Proof.
  intros (Fx & Hx & X1 & X2 & _) (Fy & Hy & Y1 & Y2 & _) Hlt. unfold dgt.
  apply not_true_is_false. rewrite dlt_val by done.
  assert (inject_Z x + 1 <= inject_Z y)%Q
    by (change 1%Q with (inject_Z 1); rewrite <- inject_Z_plus, <- Zle_Qle; lia). lra.
Qed.

(** C18: the whole reader, on an area in the north-eastern quarter of the globe that may
    span any number of tiles: when the borders are multiples of three seconds up to
    the rounding of the command line, the area has at least two rows and one column,
    and the tiles it touches are complete files, [SrtmReader::read] returns a map of
    the right dimensions and borders, and its matrix is, cell by cell, the height of
    the grid point at that place, from the tile that holds it, after the filter of
    outliers.  The two loops over the tiles stop after one round per tile row and
    tile column. *)
Theorem SrtmReader_read_area (files : string → option (list Z)) (map_dir : string)
    (tile : Z → Z → list Z) (wi ni ei si : Z) (W N E S : double) (fuel : nat) :
  (String.length map_dir <= 200)%nat →
  on_grid W wi → on_grid N ni → on_grid E ei → on_grid S si →
  0 <= wi < ei → ei <= 180 * 1200 → 0 <= si → si + 2 <= ni → ni <= 90 * 1200 →
  has_tiles files map_dir tile wi ni ei si →
  ni / 1200 - si / 1200 + (ei / 1200 - wi / 1200) + 3 <= Z.of_nat fuel →
  ∃ m, SrtmReader_read files fuel W N E S map_dir = Ok m ∧
    map_width m = ei - wi ∧ map_length m = ni - si ∧ west_border m = W ∧ north_border m = N ∧
    cell_width m = ddiv (of_Z 1) (of_Z 1200) ∧ cell_length m = ddiv (of_Z 1) (of_Z 1200) ∧
    holds (Z.to_nat (ni - si)) (Z.to_nat (ei - wi))
      (cleaned (λ y x, grid_height tile (ni - Z.of_nat y) (wi + Z.of_nat x))) (map_data m).
Proof.
  intros Hdir HW HN HE HS Hwe He Hs0 Hsn Hn Ht Hfuel. unfold SrtmReader_read.
  rewrite (on_grid_dgt S N si ni), (on_grid_dgt W E wi ei) by (done || lia). cbn [orb].
  rewrite (near_border_to_int W wi), (near_border_to_int N ni), (near_border_to_int E ei),
    (near_border_to_int S si) by (first [by apply on_grid_near|lia]). cbn [mbind result_bind].
  unfold int_sub. rewrite !(proj2 (Z.leb_le INT_MIN _)), !(proj2 (Z.leb_le _ INT_MAX))
    by (unfold INT_MIN, INT_MAX; lia). cbn [andb mbind result_bind].
  rewrite (proj2 (Z.ltb_ge (ei - wi) 0)), (proj2 (Z.ltb_ge (ni - si) 0)) by lia. cbn [orb].
  destruct (read_multiple_filled files map_dir tile wi ni ei si W N E S Hdir HW HN HE HS)
    with (fuel := fuel) as (d & -> & Hd); [lia..|done|lia|]. cbn [mbind result_bind].
  destruct (skip_outliers_run (Z.to_nat (ni - si)) (Z.to_nat (ei - wi))
    (λ y x, grid_height tile (ni - Z.of_nat y) (wi + Z.of_nat x)) d) as (d' & -> & Hd');
    [lia|intros y x Hy Hx; by apply Hd|]. cbn [mbind result_bind].
  eexists. split; [done|]. cbn. split_and!; try done; lia.
Qed.

(** Four tiles of one height each, and the two rows and two columns around the corner
    at which they meet. *)
Definition flat_tile (lat lon : Z) : list Z := replicate (2 * 1201 * 1201) (1 + lat + 2 * lon).
Definition four_files (name : string) : option (list Z) :=
  if (name =? tile_name "data" 0 0)%string then Some (flat_tile 0 0)
  else if (name =? tile_name "data" 0 1)%string then Some (flat_tile 0 1)
  else if (name =? tile_name "data" 1 0)%string then Some (flat_tile 1 0)
  else if (name =? tile_name "data" 1 1)%string then Some (flat_tile 1 1)
  else None.
Definition in_degrees (x : Z) : double := ddiv (of_Z x) (of_Z 1200).

Lemma SrtmReader_read_area_witness :
  ∃ m, SrtmReader_read four_files 7 (in_degrees 1199) (in_degrees 1201)
      (in_degrees 1201) (in_degrees 1199) "data" = Ok m ∧
    map_width m = 1201 - 1199 ∧ map_length m = 1201 - 1199 ∧
    west_border m = in_degrees 1199 ∧ north_border m = in_degrees 1201 ∧
    cell_width m = ddiv (of_Z 1) (of_Z 1200) ∧ cell_length m = ddiv (of_Z 1) (of_Z 1200) ∧
    holds (Z.to_nat (1201 - 1199)) (Z.to_nat (1201 - 1199))
      (cleaned (λ y x, grid_height flat_tile (1201 - Z.of_nat y) (1199 + Z.of_nat x))) (map_data m).
Proof.
  assert (on_grid (in_degrees 1199) 1199) by (vm_compute; intuition (congruence || discriminate)).
  assert (on_grid (in_degrees 1201) 1201) by (vm_compute; intuition (congruence || discriminate)).
  apply (SrtmReader_read_area four_files "data" flat_tile 1199 1201 1201 1199);
    [cbn; lia|assumption..|lia|lia|lia|lia|lia| |vm_compute; discriminate].
  intros lat lon H1 H2 H3 H4.
  assert (lat = 0 ∨ lat = 1) as [->| ->] by lia; assert (lon = 0 ∨ lon = 1) as [->| ->] by lia;
    (split; [reflexivity|split; [apply Forall_replicate; lia|apply length_replicate]]).
Defined.
