(* ===== verification/AsciiReader.v ===== *)
(** * [src/readers/AsciiReader.h] and [AsciiReader.cpp]

    The reader of ESRI ASCII grids.  The line buffer is an array of 256 characters
    that keeps what earlier lines left behind the terminating zero; a character is
    [None] until it is written.  The line number, used in messages only, is left
    out, and [malloc] succeeds. *)
From Stdlib Require Import SpecFloat Ascii String.
From stdpp Require Import list.
From S2P Require Import Prelude Double Libm Text TranMerc Utm NumUtils Model TerrainMap.

Local Open Scope double_scope.

Definition NUL : ascii := "000".
Definition newline : ascii := "010".

Abbreviation buffer := (list (option ascii)).

Definition tambuf : nat := 256.

(** [fgets]: the characters read, none at the end of the file, and the rest *)
Fixpoint fgets (room : nat) (f : list ascii) : list ascii * list ascii :=
  match room, f with
  | S room', c :: f' =>
      if Ascii.eqb c newline then ([c], f')
      else let '(got, rest) := fgets room' f' in (c :: got, rest)
  | _, _ => ([], f)
  end.

(** Writes characters at the start of the buffer. *)
Definition overwrite (cs : list ascii) (b : buffer) : buffer :=
  (Some <$> cs) ++ drop (List.length cs) b.

(** The C string at a position: undefined when it is not terminated *)
Fixpoint c_string_of (b : buffer) : option (list ascii) :=
  match b with
  | Some c :: b' => if Ascii.eqb c NUL then Some [] else (c ::.) <$> c_string_of b'
  | _ => None
  end.
Definition c_string (b : buffer) (pos : nat) : result (list ascii) :=
  get_opt (c_string_of (drop pos b)).

(** [strchr(s, c)] as a position *)
Fixpoint strchr (s : list ascii) (c : ascii) : option nat :=
  match s with
  | [] => None
  | x :: s' => if Ascii.eqb x c then Some O else S <$> strchr s' c
  end.

(** [readLine]: its return value, the file and the buffer.  Every round but the last
    consumes a line. *)
Fixpoint readLine (fuel : nat) (f : list ascii) (b : buffer) : result (Z * list ascii * buffer) :=
  match fuel with
  | O => Err Diverge
  | S fuel' =>
      let '(got, f') := fgets (tambuf - 1) f in
      match got with
      | [] => mret (2%Z, f', overwrite [NUL] b)
      | _ =>
          let b1 := overwrite (got ++ [NUL]) b in
          s ← c_string b1 0;
          match strchr s newline with
          | Some p =>
              let b2 := <[p := Some NUL]> b1 in
              c ← get_opt (b2 !! 0%nat);
              c ← get_opt c;
              if Ascii.eqb c "#" || Ascii.eqb c NUL then readLine fuel' f' b2
              else mret (0%Z, f', b2)
          | None => mret (1%Z, f', b1)
          end
      end
  end.

Definition read_line (f : list ascii) (b : buffer) : result (Z * list ascii * buffer) :=
  readLine (S (List.length f)) f b.

(** The six numbers of the header. *)
Fixpoint read_header (n : nat) (f : list ascii) (b : buffer)
    : result (list double * list ascii * buffer) :=
  match n with
  | O => mret ([], f, b)
  | S n' =>
      r ← read_line f b;
      let '(code, f, b) := r in
      if (code =? 0)%Z then
        buf ← c_string b 0;
        match strchr buf " " with
        | None => Err (Exit 1)
        | Some k =>
            let '(x, consumed) := strtod (drop k buf) in
            if Nat.eqb (k + consumed) 0 then Err (Exit 1)
            else
              r ← read_header n' f b;
              let '(xs, f, b) := r in
              mret (x :: xs, f, b)
        end
      else Err (Exit 1)
  end.

Abbreviation points := (list (option (double * double * double))).

(** The columns of a row, from [i] on and the position [pos] of the buffer. *)
Fixpoint read_columns (n : nat) (b : buffer) (pos : nat) (i : Z) (nCols j : Z)
    (xMin y cellSize : double) (coords : points) : result points :=
  match n with
  | O => mret coords
  | S n' =>
      let x := xMin + cellSize * of_Z i in
      s ← c_string b pos;
      let '(z, consumed) := strtod s in
      if Nat.eqb consumed 0 then Err (Exit 1)
      else
        let k := Z.to_nat (wrap64 (i + nCols * j)) in
        _ ← get_opt (coords !! k);
        read_columns n' b (pos + consumed + 1) (i + 1)%Z nCols j xMin y cellSize
          (<[k := Some (x, y, z)]> coords)
  end.

(** The rows, from [j] on. *)
Fixpoint read_rows (n : nat) (f : list ascii) (b : buffer) (j nRows nCols : Z)
    (xMin yMin cellSize : double) (coords : points) : result points :=
  match n with
  | O => mret coords
  | S n' =>
      let y := yMin + cellSize * of_Z (wrap64 (nRows - (j + 1))) in
      r ← read_line f b;
      let '(code, f, b) := r in
      if negb (code =? 0)%Z then Err (Exit 1)
      else
        coords ← read_columns (Z.to_nat nCols) b 0 0 nCols j xMin y cellSize coords;
        read_rows n' f b (j + 1)%Z nRows nCols xMin yMin cellSize coords
  end.

(** The body of the two loops of [convert]. *)
Definition convert_cell (coords : points) (nCols k i : nat) : st matrix unit := λ d,
  c ← get_opt (coords !! (k * nCols + i)%nat);
  c ← get_opt c;
  d' ← set_cell d (Z.of_nat k) (Z.of_nat i) c.2;
  mret (tt, d').

Definition convert (coords : points) (nRows nCols : nat) : result Map :=
  r ← for_each_in (seq 0 nRows) (λ k, for_each_in (seq 0 nCols) (convert_cell coords nCols k))
        (init_map_data nRows nCols);
  mret (new_Map r.2 (Z.of_nat nCols) (Z.of_nat nRows) #1 #1).

(** [AsciiReader::read]; [k] of the loop that frees the points is an [int] *)
Definition AsciiReader_read (files : string → option (list ascii)) (filename : string)
    : result Map :=
  match files filename with
  | None => Err (Exit 1)
  | Some fp =>
      r ← read_header 6 fp (replicate tambuf None);
      let '(dtm_data, fp, buf) := r in
      d0 ← get_opt (dtm_data !! 0%nat);
      nCols ← to_size_t d0;
      d1 ← get_opt (dtm_data !! 1%nat);
      nRows ← to_size_t d1;
      xMin ← get_opt (dtm_data !! 2%nat);
      yMin ← get_opt (dtm_data !! 3%nat);
      cellSize ← get_opt (dtm_data !! 4%nat);
      let numOfPoints := wrap64 (nCols * nRows) in
      coords ← read_rows (Z.to_nat nRows) fp buf 0 nRows nCols xMin yMin cellSize
                 (replicate (Z.to_nat numOfPoints) None);
      map ← convert coords (Z.to_nat nRows) (Z.to_nat nCols);
      if (2 ^ 31 <=? numOfPoints)%Z then Err UB else mret map
  end.
