(* ===== verification/AsciiFacts.v ===== *)
(** * What the ASCII grid reader computes

    On the text of a well-formed grid [read] returns the matrix of the numbers in
    it.  A token is a text that [strtod] reads as one number. *)
From Stdlib Require Import SpecFloat Ascii String.
From stdpp Require Import list.
From S2P Require Import Prelude Double Libm Text TranMerc Utm NumUtils Model TerrainMap AsciiReader.

(** ** Lines *)

(** Characters that a line can hold. *)
Definition plain (l : list ascii) : Prop := (newline ∉ l) ∧ (NUL ∉ l).

(** A line [readLine] does not skip, and that fits the buffer. *)
Definition line_ok (l : list ascii) : Prop :=
  plain l ∧ List.length l ≤ 254 ∧ ∃ c l', l = c :: l' ∧ c ≠ "#"%char.

Lemma fgets_line room l f :
  newline ∉ l → List.length l < room → fgets room (l ++ newline :: f) = (l ++ [newline], f).
Proof.
  revert room. induction l as [|c l IH]; intros room Hl Hr; destruct room as [|room]; simpl in Hr;
    try lia; [done|]. apply not_elem_of_cons in Hl as [Hc Hl]. cbn [app fgets].
  destruct (Ascii.eqb_spec c newline); [congruence|]. by rewrite IH by (done || lia).
Qed.

Lemma c_string_of_app l b : NUL ∉ l → c_string_of ((Some <$> l) ++ Some NUL :: b) = Some l.
Proof.
  induction l as [|c l IH]; intros Hl; [done|]. apply not_elem_of_cons in Hl as [Hc Hl].
  rewrite fmap_cons. cbn [app c_string_of]. destruct (Ascii.eqb_spec c NUL); [congruence|].
  by rewrite IH.
Qed.

Lemma strchr_here l c r : c ∉ l → strchr (l ++ c :: r) c = Some (List.length l).
Proof.
  induction l as [|x l IH]; intros Hl; cbn [app strchr].
  - by rewrite Ascii.eqb_refl.
  - apply not_elem_of_cons in Hl as [Hx Hl]. destruct (Ascii.eqb_spec x c); [congruence|].
    by rewrite IH.
Qed.

(** The buffer after a line. *)
Definition line_buffer (l : list ascii) (b : buffer) : buffer := overwrite (l ++ [NUL; NUL]) b.

Lemma line_buffer_split l b :
  line_buffer l b = (Some <$> l) ++ Some NUL :: Some NUL :: drop (List.length l + 2) b.
Proof. unfold line_buffer, overwrite. rewrite fmap_app, length_app. simpl. by rewrite <- app_assoc. Qed.

Lemma line_buffer_string l b pos :
  NUL ∉ l → pos ≤ List.length l → c_string (line_buffer l b) pos = Ok (drop pos l).
Proof.
  intros Hl Hp. unfold c_string. rewrite line_buffer_split, drop_app_le, <- fmap_drop
    by (by rewrite length_fmap).
  rewrite c_string_of_app; [done|]. intros Hin. apply Hl.
  rewrite <- (take_drop pos l). apply elem_of_app. by right.
Qed.

Lemma read_line_run l f b :
  line_ok l → read_line (l ++ newline :: f) b = Ok (0%Z, f, line_buffer l b).
Proof.
  intros ([Hn Hz] & Hlen & c & l' & -> & Hc). set (l := c :: l') in *.
  unfold read_line. cbn [readLine].
  rewrite (fgets_line _ l f) by (done || (unfold tambuf; lia)).
  assert (∃ x r, l ++ [newline] = x :: r) as (x & r & E) by (by exists c, (l' ++ [newline])).
  rewrite E. rewrite <- E.
  assert (NUL ∉ l ++ [newline]) as Hz'.
  { rewrite elem_of_app, list_elem_of_singleton. intros [?|?]; done. }
  assert (overwrite ((l ++ [newline]) ++ [NUL]) b =
    (Some <$> l ++ [newline]) ++ Some NUL :: drop (List.length l + 2) b) as Hb1.
  { unfold overwrite. rewrite (fmap_app _ (l ++ [newline])), <- app_assoc, !length_app.
    cbn [List.length]. by replace (List.length l + 1 + 1) with (List.length l + 2) by lia. }
  rewrite Hb1. unfold c_string. rewrite drop_0, c_string_of_app by done.
  cbn [get_opt mbind result_bind]. rewrite strchr_here by done.
  assert (<[List.length l := Some NUL]>
      ((Some <$> l ++ [newline]) ++ Some NUL :: drop (List.length l + 2) b) = line_buffer l b) as ->.
  { rewrite line_buffer_split, fmap_app, <- app_assoc. simpl.
    rewrite insert_app_r_alt by (by rewrite length_fmap). by rewrite length_fmap, Nat.sub_diag. }
  rewrite line_buffer_split. unfold l. cbn [fmap list_fmap app lookup list_lookup get_opt mbind result_bind].
  destruct (Ascii.eqb_spec c "#"); [congruence|].
  destruct (Ascii.eqb_spec c NUL) as [->|]; [|done]. destruct Hz. by left.
Qed.

(** ** Rows *)

(** [strtod] reads [t] as [v] when a space follows. *)
Definition token (t : list ascii) (v : double) : Prop :=
  t ≠ [] ∧ ∀ rest, strtod (t ++ " "%char :: rest) = (v, List.length t).

(** Tokens, each followed by a space. *)
Definition row_text (row : list (list ascii * double)) : list ascii :=
  mjoin ((λ tv : list ascii * double, tv.1 ++ [" "%char]) <$> row).

Definition row_ok (nCols : nat) (row : list (list ascii * double)) : Prop :=
  List.length row = nCols ∧ line_ok (row_text row) ∧ Forall (λ tv, token tv.1 tv.2) row.

Lemma row_text_cons t v row : row_text ((t, v) :: row) = t ++ " "%char :: row_text row.
Proof. unfold row_text. rewrite fmap_cons. simpl. by rewrite <- app_assoc. Qed.

(** The points of the row [j] from the column [i] on hold the values of [row]. *)
Definition row_stored (nCols j i : nat) (row : list (list ascii * double)) (coords : points) : Prop :=
  ∀ k t v, row !! k = Some (t, v) →
    ∃ x y, coords !! (i + k + nCols * j)%nat = Some (Some (x, y, v)).

Lemma read_columns_run b pos (i nCols j : nat) xMin y cellSize row coords before :
  Forall (λ tv, token tv.1 tv.2) row → i + List.length row ≤ nCols →
  (Z.of_nat nCols * (Z.of_nat j + 1) < 2 ^ 64)%Z → nCols * (j + 1) ≤ List.length coords →
  NUL ∉ before ++ row_text row → pos = List.length before →
  ∃ coords', read_columns (List.length row) (line_buffer (before ++ row_text row) b) pos
      (Z.of_nat i) (Z.of_nat nCols) (Z.of_nat j) xMin y cellSize coords = Ok coords' ∧
    List.length coords' = List.length coords ∧ row_stored nCols j i row coords' ∧
    ∀ k, k < i + nCols * j ∨ i + List.length row + nCols * j ≤ k → coords' !! k = coords !! k.
Proof.
  revert pos i coords before.
  induction row as [|[t v] row IH]; intros pos i coords before Hrow Hi Hw Hlen Hz ->.
  { exists coords. split_and!; [done..|]. by intros k. }
  apply list.Forall_cons in Hrow as [[Hne Ht] Hrow]. cbn [fst snd List.length] in *.
  cbn [read_columns]. rewrite line_buffer_string by (done || rewrite length_app; lia).
  rewrite drop_app_length. cbn [mbind result_bind]. rewrite row_text_cons, Ht.
  destruct t as [|c t']; [done|]. cbn [List.length Nat.eqb].
  assert (Z.to_nat (wrap64 (Z.of_nat i + Z.of_nat nCols * Z.of_nat j)) = i + nCols * j)%nat as ->.
  { unfold wrap64. rewrite Z.mod_small by nia. lia. }
  destruct (lookup_lt_is_Some_2 coords (i + nCols * j)) as [p ->]; [nia|].
  cbn [get_opt mbind result_bind]. set (coords1 := <[_ := _]> coords).
  replace (before ++ (c :: t') ++ " "%char :: row_text row)
    with ((before ++ (c :: t') ++ [" "%char]) ++ row_text row) by (by rewrite <- !app_assoc).
  destruct (IH (List.length before + S (List.length t') + 1) (S i) coords1
    (before ++ (c :: t') ++ [" "%char])) as (coords' & Hr & Hl & Hst & Hother); try done.
  { lia. } { unfold coords1. rewrite length_insert. lia. }
  { rewrite row_text_cons in Hz. by rewrite <- !app_assoc. }
  { rewrite !length_app. simpl. lia. }
  exists coords'. replace (Z.of_nat i + 1)%Z with (Z.of_nat (S i)) by lia. split_and!; [done| | |].
  - rewrite Hl. apply length_insert.
  - intros [|k] t1 v1 Hk; simpl in Hk.
    + injection Hk as <- <-. rewrite Hother by lia. unfold coords1. do 2 eexists.
      rewrite Nat.add_0_r, list_lookup_insert_eq by nia. done.
    + replace (i + S k + nCols * j) with (S i + k + nCols * j) by lia. by eapply Hst.
  - intros k Hk. rewrite Hother by lia. unfold coords1. apply list_lookup_insert_ne. lia.
Qed.

(** The rows of a grid, each on a line. *)
Definition rows_text (rows : list (list (list ascii * double))) : list ascii :=
  mjoin ((λ row, row_text row ++ [newline]) <$> rows).

Definition rows_stored (nCols j : nat) (rows : list (list (list ascii * double)))
    (coords : points) : Prop :=
  ∀ k row, rows !! k = Some row → row_stored nCols (j + k) 0 row coords.

Lemma ascii_rows_run rows f b (j nRows nCols : nat) xMin yMin cellSize coords :
  Forall (row_ok nCols) rows → j + List.length rows ≤ nRows →
  (Z.of_nat nCols * Z.of_nat nRows < 2 ^ 64)%Z → List.length coords = nCols * nRows →
  ∃ coords', read_rows (List.length rows) (rows_text rows ++ f) b (Z.of_nat j)
      (Z.of_nat nRows) (Z.of_nat nCols) xMin yMin cellSize coords = Ok coords' ∧
    List.length coords' = List.length coords ∧ rows_stored nCols j rows coords' ∧
    ∀ k, k < nCols * j → coords' !! k = coords !! k.
Proof.
  revert j b coords. induction rows as [|row rows IH]; intros j b coords Hrows Hj Hw Hlen.
  { by exists coords. }
  apply list.Forall_cons in Hrows as [(Hn & Hline & Htok) Hrows]. cbn [List.length] in *.
  cbn [read_rows]. unfold rows_text. rewrite fmap_cons. cbn [mjoin list_join].
  change (mjoin (A:=ascii) ((λ row0, row_text row0 ++ [newline]) <$> rows)) with (rows_text rows).
  replace ((row_text row ++ [newline]) ++ rows_text rows) with
    (row_text row ++ newline :: rows_text rows) by (by rewrite <- app_assoc).
  rewrite <- app_assoc. cbn [app]. rewrite read_line_run by done.
  cbn [mbind result_bind Z.eqb negb]. rewrite Nat2Z.id, <- Hn.
  set (y := (_ + _)%D).
  destruct (read_columns_run b 0 0 nCols j xMin y cellSize row coords []) as
    (c1 & Hr & Hl1 & Hst & Hother); try done; [lia|nia|nia|apply Hline|].
  cbn [app] in Hr. change (Z.of_nat 0) with 0%Z in Hr. rewrite <- Hn in Hr. rewrite Hr.
  cbn [mbind result_bind]. rewrite Hn. replace (Z.of_nat j + 1)%Z with (Z.of_nat (S j)) by lia.
  destruct (IH (S j) (line_buffer (row_text row) b) c1) as (c2 & Hr2 & Hl2 & Hst2 & Hother2);
    [done|lia|done|lia|].
  exists c2. split_and!; [done|lia| |].
  - intros [|k] row' Hk; simpl in Hk.
    + injection Hk as <-. rewrite Nat.add_0_r. intros k t v Hkv.
      apply lookup_lt_Some in Hkv as Hlt. rewrite Hn in Hlt.
      destruct (Hst k t v Hkv) as (x' & y' & Hx). exists x', y'. rewrite Hother2 by nia. done.
    + replace (j + S k) with (S j + k) by lia. by apply Hst2.
  - intros k Hk. rewrite Hother2 by nia. apply Hother. left. nia.
Qed.

(** ** The header *)

(** A key and a number, separated by the first space of the line. *)
Record entry := mkEntry { e_key : list ascii; e_text : list ascii; e_value : double }.

Definition entry_text (e : entry) : list ascii := e_key e ++ " "%char :: e_text e.

Definition entry_ok (e : entry) : Prop :=
  line_ok (entry_text e) ∧ (" "%char ∉ e_key e) ∧ e_key e ≠ [] ∧
  ∃ n, strtod (" "%char :: e_text e) = (e_value e, n).

Definition header_text (es : list entry) : list ascii :=
  mjoin ((λ e, entry_text e ++ [newline]) <$> es).

Lemma read_header_run es f b :
  Forall entry_ok es →
  ∃ b', read_header (List.length es) (header_text es ++ f) b = Ok (e_value <$> es, f, b').
Proof.
  revert b. induction es as [|e es IH]; intros b Hes; [by exists b|].
  apply list.Forall_cons in Hes as [(Hline & Hsp & Hk & n & Hv) Hes]. cbn [List.length read_header].
  unfold header_text. rewrite fmap_cons. cbn [mjoin list_join].
  change (mjoin (A:=ascii) ((λ e0, entry_text e0 ++ [newline]) <$> es)) with (header_text es).
  rewrite <- !app_assoc. cbn [app]. rewrite read_line_run by done.
  cbn [mbind result_bind Z.eqb].
  rewrite line_buffer_string by (apply Hline || lia). cbn [mbind result_bind].
  rewrite drop_0. unfold entry_text at 1. rewrite strchr_here by done.
  unfold entry_text at 1. rewrite drop_app_length, Hv.
  destruct (IH (line_buffer (entry_text e) b) Hes) as [b' Hr].
  destruct (e_key e) as [|c k]; [done|]. cbn [List.length Nat.add Nat.eqb].
  rewrite Hr. cbn [mbind result_bind]. by exists b'.
Qed.

(** ** The matrix *)

Lemma init_map_data_lookup rows cols y x :
  y < rows → x < cols → lookup2 (init_map_data rows cols) y x = Some None.
Proof.
  intros Hy Hx. unfold lookup2, init_map_data.
  rewrite lookup_replicate_2 by done. simpl. by rewrite lookup_replicate_2.
Qed.

Lemma convert_run coords nRows nCols h :
  (∀ y x, y < nRows → x < nCols →
     ∃ p q, coords !! (y * nCols + x) = Some (Some (p, q, h y x))) →
  ∃ d, convert coords nRows nCols = Ok (new_Map d (Z.of_nat nCols) (Z.of_nat nRows) (of_Z 1) (of_Z 1)) ∧
    holds nRows nCols h d.
Proof.
  intros Hc. unfold convert.
  (* the cells before ([i], [j]) are filled, the others are there *)
  set (filled := λ i j (d : matrix), ∀ y x, y < nRows → x < nCols →
    if decide (y < i ∨ (y = i ∧ x < j)) then lookup2 d y x = Some (Some (h y x))
    else is_Some (lookup2 d y x)).
  destruct (for_seq_inv (λ i, filled i 0) nRows
    (λ k, for_each_in (seq 0 nCols) (convert_cell coords nCols k)) (init_map_data nRows nCols))
    as (d' & -> & Hd').
  - intros i d Hi Hd.
    destruct (for_seq_inv (filled i) nCols (convert_cell coords nCols i) d) as (d1 & -> & Hd1); [|done|].
    + intros j d1 Hj Hd1. destruct (Hc i j Hi Hj) as (p & q & Hcell).
      pose proof (Hd1 i j Hi Hj) as Hs. rewrite decide_False in Hs by lia. destruct Hs as [c Hs].
      destruct (set_cell_run d1 i j (h i j) c Hs) as (d2 & Hset & Hd2).
      exists d2. split.
      { unfold convert_cell. rewrite Hcell. cbn [get_opt mbind result_bind snd].
        cbn [get_opt mbind result_bind snd]. rewrite Hset. done. }
      intros y x Hy Hx. rewrite Hd2. specialize (Hd1 y x Hy Hx).
      destruct (decide (y = i ∧ x = j)) as [[-> ->]|Hne]; [by rewrite decide_True by lia|].
      repeat case_decide; try done; lia.
    + exists d1. split; [done|]. intros y x Hy Hx. specialize (Hd1 y x Hy Hx).
      repeat case_decide; try done; lia.
  - intros y x Hy Hx. rewrite decide_False by lia. rewrite init_map_data_lookup by done. by eexists.
  - exists d'. split; [done|]. intros y x Hy Hx. specialize (Hd' y x Hy Hx).
    by rewrite decide_True in Hd' by lia.
Qed.

Definition values_of (rows : list (list (list ascii * double))) (y x : nat) : double :=
  default (of_Z 0) (row ← rows !! y; snd <$> (row !! x)).

(** C35: on the text of a well-formed grid (six header lines with a key and a number,
    then the rows, each a line of numbers that are followed by a space) the reader
    returns a map with the dimensions of the header, and the cell of row [y] and
    column [x] holds the number at that place of the text. *)
Theorem ascii_read_correct (files : string → option (list ascii)) (filename : string)
    (es : list entry) (rows : list (list (list ascii * double))) (nRows nCols : nat)
    (v0 v1 v2 v3 v4 v5 : double) (rest : list ascii) :
  files filename = Some (header_text es ++ rows_text rows ++ rest) →
  Forall entry_ok es → e_value <$> es = [v0; v1; v2; v3; v4; v5] →
  to_size_t v0 = Ok (Z.of_nat nCols) → to_size_t v1 = Ok (Z.of_nat nRows) →
  (Z.of_nat nCols * Z.of_nat nRows < 2 ^ 31)%Z →
  List.length rows = nRows → Forall (row_ok nCols) rows →
  ∃ d, AsciiReader_read files filename =
      Ok (new_Map d (Z.of_nat nCols) (Z.of_nat nRows) (of_Z 1) (of_Z 1)) ∧
    holds nRows nCols (values_of rows) d.
Proof.
  intros Hf Hes Hv H0 H1 Hsize Hlen Hrows. unfold AsciiReader_read. rewrite Hf.
  assert (List.length es = 6) as H6 by (rewrite <- (length_fmap e_value), Hv; done).
  destruct (read_header_run es (rows_text rows ++ rest) (replicate tambuf None) Hes) as [b Hh].
  rewrite H6 in Hh. rewrite Hh, Hv. cbn [mbind result_bind lookup list_lookup get_opt].
  rewrite H0. cbn [mbind result_bind]. rewrite H1. cbn [mbind result_bind].
  unfold wrap64. rewrite (Z.mod_small (_ * _)), !Nat2Z.id by lia.
  replace (Z.to_nat (Z.of_nat nCols * Z.of_nat nRows)) with (nCols * nRows) by lia.
  destruct (ascii_rows_run rows rest b 0 nRows nCols v2 v3 v4 (replicate (nCols * nRows) None))
    as (coords & Hr & Hl & Hst & _); [done|lia|lia|apply length_replicate|].
  rewrite Hlen in Hr. change (Z.of_nat 0) with 0%Z in Hr. rewrite Hr. cbn [mbind result_bind].
  destruct (convert_run coords nRows nCols (values_of rows)) as (d & -> & Hd).
  - intros y x Hy Hx. rewrite <- Hlen in Hy. destruct (lookup_lt_is_Some_2 rows y Hy) as [row Hrow].
    pose proof (proj1 (Forall_lookup _ _) Hrows _ _ Hrow) as (Hn & _ & _). rewrite <- Hn in Hx.
    destruct (lookup_lt_is_Some_2 row x Hx) as [[t v] Htv].
    unfold values_of. rewrite Hrow. simpl. rewrite Htv. simpl.
    destruct (Hst y row Hrow x t v Htv) as (p & q & Hpq). exists p, q.
    rewrite <- Hpq. f_equal. lia.
  - exists d. split; [|done]. cbn [mbind result_bind].
    destruct (Z.leb_spec (2 ^ 31) (Z.of_nat nCols * Z.of_nat nRows)); [lia|done].
Qed.

(** ** A grid *)

Lemma token_intro t v neg t' :
  t ≠ [] → (∀ rest, read_sign (skip_spaces (t ++ " "%char :: rest)) = (neg, t' ++ " "%char :: rest)) →
  (∀ rest, read_unsigned neg (t' ++ " "%char :: rest) = Some (v, " "%char :: rest)) → token t v.
Proof.
  intros Hne Hs Hu. split; [done|]. intros rest. unfold strtod. rewrite Hs, Hu. f_equal.
  rewrite length_app. lia.
Qed.

Definition text (s : string) : list ascii := list_ascii_of_string s.

(** The grid of two rows and two columns used in the examples. *)
Definition small_header : list entry :=
  [mkEntry (text "NCOLS") (text "2") (of_Z 2); mkEntry (text "NROWS") (text "2") (of_Z 2);
   mkEntry (text "XLLCENTER") (text "0") (of_Z 0); mkEntry (text "YLLCENTER") (text "0") (of_Z 0);
   mkEntry (text "CELLSIZE") (text "25") (of_Z 25);
   mkEntry (text "NODATA") (text "-999") (of_Z (-999))].
Definition small_rows : list (list (list ascii * double)) :=
  [[(text "10", of_Z 10); (text "9.5", lit 95 10)]; [(text "8", of_Z 8); (text "-7", of_Z (-7))]].

(** Decides that a line is well-formed. *)
Definition line_okb (l : list ascii) : bool :=
  forallb (λ c, negb (Ascii.eqb c newline) && negb (Ascii.eqb c NUL)) l &&
  Nat.leb (List.length l) 254 &&
  match l with c :: _ => negb (Ascii.eqb c "#") | [] => false end.

Lemma line_okb_sound l : line_okb l = true → line_ok l.
Proof.
  intros [[Hp Hl%Nat.leb_le]%andb_prop Hc]%andb_prop. rewrite forallb_forall in Hp.
  assert (∀ c, c ∈ l → c ≠ newline ∧ c ≠ NUL) as Hin.
  { intros c Hc'%list_elem_of_In%Hp. apply andb_prop in Hc' as [H1 H2].
    apply negb_true_iff in H1, H2. by apply Ascii.eqb_neq in H1, H2. }
  split; [|split; [done|]].
  - split; intros H; apply Hin in H; tauto.
  - destruct l as [|c l]; [done|]. exists c, l. apply negb_true_iff, Ascii.eqb_neq in Hc. done.
Qed.

Lemma not_in_existsb c l : existsb (Ascii.eqb c) l = false → c ∉ l.
Proof.
  intros H Hin. apply list_elem_of_In in Hin. assert (existsb (Ascii.eqb c) l = true) as Ht.
  { apply existsb_exists. exists c. by rewrite Ascii.eqb_refl. }
  congruence.
Qed.

Lemma small_header_ok : Forall entry_ok small_header.
Proof.
  repeat apply Forall_cons_2; [..|apply Forall_nil_2].
  all: split; [apply line_okb_sound; vm_compute; reflexivity|].
  all: split; [apply not_in_existsb; vm_compute; reflexivity|].
  all: split; [discriminate|]. all: eexists; vm_compute; reflexivity.
Qed.

Lemma small_rows_ok : Forall (row_ok 2) small_rows.
Proof.
  repeat apply Forall_cons_2; [..|apply Forall_nil_2].
  all: split; [done|split; [apply line_okb_sound; vm_compute; reflexivity|]].
  all: repeat apply Forall_cons_2; [..|apply Forall_nil_2].
  4: eapply (token_intro _ _ true (text "7")).
  1: eapply (token_intro _ _ false (text "10")).
  4: eapply (token_intro _ _ false (text "9.5")).
  7: eapply (token_intro _ _ false (text "8")).
  all: try discriminate; intros rest; vm_compute; reflexivity.
Qed.

Lemma ascii_read_correct_witness :
  ∃ d, AsciiReader_read (λ _, Some (header_text small_header ++ rows_text small_rows ++ [])) "a.asc" =
      Ok (new_Map d (Z.of_nat 2) (Z.of_nat 2) (of_Z 1) (of_Z 1)) ∧
    holds 2 2 (values_of small_rows) d.
Proof.
  eapply (ascii_read_correct _ "a.asc" small_header small_rows 2 2);
    [reflexivity|exact small_header_ok|reflexivity|vm_compute; reflexivity|vm_compute; reflexivity|
     lia|reflexivity|exact small_rows_ok].
Defined.
