(* ===== verification/MorphGraph.v ===== *)
(** * The graph: [libgalois/include/galois/graphs/MorphGraph.h] at the type
      [MorphGraph<NodeData, EdgeData, false>] of [src/model/Graph.h]

    A node handle ([GNode], a pointer into the bag of nodes) is its index in
    [nodes]: nodes are never freed, so a handle stays valid.  The two entries of
    an undirected edge share one [EdgeData], reached by its index in [edge_mem].
    Removing a node leaves stale entries at its neighbours, which the iterators
    skip and [createEdgeWithReuse] overwrites; both are modelled.  The calls of
    [acquire] (speculative locking) have no effect on the data and are left out
    here; [MarkingParallel] has those of the marking loop. *)
From S2P Require Import Prelude Double NumUtils Model.

(** The template arguments of [Graph]. *)
Definition Directional : bool := false.
Definition InOut : bool := false.

Abbreviation GNode := nat.

(** ** Data *)

(** [UEdgeInfoBase<NTy, ETy, false>]; the tag bit of [N] is the field [isInEdge]. *)
Record EdgeInfo := mkEdgeInfo { first : GNode; second : nat; isInEdge : bool }.

Record gNode := mkGNode {
  nd_data : NodeData;
  nd_edges : list EdgeInfo;
  nd_active : bool;
}.

Record Graph := mkGraph { nodes : list gNode; edge_mem : list EdgeData }.

#[global] Instance EdgeInfo_eq_dec : EqDecision EdgeInfo.
Proof. solve_decision. Defined.

Definition empty_graph : Graph := mkGraph [] [].

(** Never read through a valid handle. *)
Definition no_node : gNode := mkGNode (NodeData_interior false false) [] false.

Definition node_at (g : Graph) (n : GNode) : gNode := default no_node (nodes g !! n).
Definition active (g : Graph) (n : GNode) : bool := nd_active (node_at g n).
Definition edges (g : Graph) (n : GNode) : list EdgeInfo := nd_edges (node_at g n).

Definition upd_node (f : gNode → gNode) (n : GNode) (g : Graph) : Graph :=
  mkGraph (alter f n (nodes g)) (edge_mem g).
Definition set_edges (l : list EdgeInfo) (n : GNode) : Graph → Graph :=
  upd_node (λ nd, mkGNode (nd_data nd) l (nd_active nd)) n.
Definition set_active (b : bool) (n : GNode) : Graph → Graph :=
  upd_node (λ nd, mkGNode (nd_data nd) (nd_edges nd) b) n.

(** [std::find_if] on a vector: the position found, its length when none is. *)
Fixpoint find_if {A} (p : A → bool) (l : list A) : nat :=
  match l with
  | [] => 0
  | x :: l' => if p x then 0 else S (find_if p l')
  end.

(** ** [gNode] *)

Definition first_eq_and_valid (g : Graph) (N2 : GNode) (ii : EdgeInfo) : bool :=
  Nat.eqb (first ii) N2 && active g (first ii).
Definition first_not_valid (g : Graph) (ii : EdgeInfo) : bool :=
  negb (active g (first ii)).

(** [gNode::find]: [find_if] restarted past the entries of the other direction. *)
Definition find (g : Graph) (self N : GNode) (inEdge : bool) : nat :=
  find_if (λ ii, first_eq_and_valid g N ii && Bool.eqb (isInEdge ii) inEdge) (edges g self).

(** [gNode::erase(iterator)]: the last entry takes the place of the erased one. *)
Definition erase_at (g : Graph) (self : GNode) (ii : nat) : result Graph :=
  back ← get_opt (list.last (edges g self));
  _ ← get_opt (edges g self !! ii);
  mret (set_edges (take (length (edges g self) - 1) (<[ii := back]> (edges g self))) self g).

(** [gNode::erase(gNode*, bool)]: the entry is removed in place. *)
Definition erase_node (g : Graph) (self N : GNode) (inEdge : bool) : Graph :=
  let ii := find g self N inEdge in
  if Nat.eqb ii (length (edges g self)) then g
  else set_edges (delete ii (edges g self)) self g.

(** [gNode::createEdgeWithReuse] *)
Definition node_createEdgeWithReuse (g : Graph) (self N : GNode) (v : nat) (inEdge : bool)
    : Graph * nat :=
  let l := edges g self in
  let ii := find_if (first_not_valid g) l in
  if Nat.eqb ii (length l)
  then (set_edges (l ++ [mkEdgeInfo N v inEdge]) self g, length l)
  else (set_edges (<[ii := mkEdgeInfo N v inEdge]> l) self g, ii).

(** ** Iterators *)

(** [edge_iterator]: a position in the edge vector of a node. *)
Record EdgeIterator := mkIter { it_src : GNode; it_base : nat }.

#[global] Instance EdgeIterator_eq_dec : EqDecision EdgeIterator.
Proof. solve_decision. Defined.

Definition is_out_edge (g : Graph) (e : EdgeInfo) : bool :=
  active g (first e) && negb (isInEdge e).

Definition it_end (g : Graph) (it : EdgeIterator) : bool :=
  Nat.eqb (it_base it) (length (edges g (it_src it))).

(** [boost::make_filter_iterator(is_out_edge(), ii, src->end())] *)
Definition make_filter_iterator (g : Graph) (src : GNode) (ii : nat) : EdgeIterator :=
  mkIter src (ii + find_if (is_out_edge g) (drop ii (edges g src))).

Definition deref (g : Graph) (it : EdgeIterator) : result EdgeInfo :=
  get_opt (edges g (it_src it) !! it_base it).

(** ** [MorphGraph] *)

Definition createNode (d : NodeData) (g : Graph) : GNode * Graph :=
  (length (nodes g), mkGraph (nodes g ++ [mkGNode d [] false]) (edge_mem g)).

Definition addNode (n : GNode) (g : Graph) : Graph := set_active true n g.

Definition getData (g : Graph) (n : GNode) : NodeData := nd_data (node_at g n).

(** Assignment through the reference that [getData] returns. *)
Definition updData (f : NodeData → NodeData) (n : GNode) : Graph → Graph :=
  upd_node (λ nd, mkGNode (f (nd_data nd)) (nd_edges nd) (nd_active nd)) n.

Definition containsNode (g : Graph) (n : GNode) : bool := active g n.

Definition removeNode (n : GNode) (g : Graph) : Graph :=
  if active g n then set_edges [] n (set_active false n g) else g.

(** [EdgeFactory::mkEdge()] *)
Definition mkEdge (g : Graph) : nat * Graph :=
  (length (edge_mem g), mkGraph (nodes g) (edge_mem g ++ [EdgeData0])).

(** [MorphGraph::createEdgeWithReuse], that is [addEdge]. *)
Definition addEdge (src dst : GNode) (g : Graph) : EdgeIterator * Graph :=
  let ii := find g src dst false in
  if Nat.eqb ii (length (edges g src)) then
    if Directional && negb InOut then
      let '(g, ii) := node_createEdgeWithReuse g src dst 0 false in
      (make_filter_iterator g src ii, g)
    else
      let '(e, g) := mkEdge g in
      let '(g, _) := node_createEdgeWithReuse g dst src e (if Directional then true else false) in
      let '(g, ii) := node_createEdgeWithReuse g src dst e false in
      (make_filter_iterator g src ii, g)
  else (make_filter_iterator g src ii, g).

Definition removeEdge (src : GNode) (dst : EdgeIterator) (g : Graph) : result Graph :=
  if Directional && negb InOut then erase_at g src (it_base dst)
  else
    e ← deref g dst;
    let g := erase_node g (first e) src (if Directional then true else false) in
    erase_at g src (it_base dst).

Definition findEdge (g : Graph) (src dst : GNode) : EdgeIterator :=
  let ii := find g src dst false in
  let ei := length (edges g src) in
  let ii :=
    match edges g src !! ii with
    | Some e => if is_out_edge g e then ii else ei
    | None => ei
    end in
  make_filter_iterator g src ii.

Definition getEdgeData (g : Graph) (it : EdgeIterator) : result EdgeData :=
  e ← deref g it;
  if active g (first e) then get_opt (edge_mem g !! second e) else Err AssertFail.

(** Assignment through the reference that [getEdgeData] returns. *)
Definition updEdgeData (f : EdgeData → EdgeData) (it : EdgeIterator) (g : Graph) : result Graph :=
  e ← deref g it;
  if active g (first e)
  then mret (mkGraph (nodes g) (alter f (second e) (edge_mem g)))
  else Err AssertFail.

Definition getEdgeDst (g : Graph) (it : EdgeIterator) : result GNode :=
  e ← deref g it;
  if active g (first e) then mret (first e) else Err AssertFail.

(** The iteration from [edge_begin] to [edge_end]: the out-edges of a node. *)
Definition out_edges (g : Graph) (n : GNode) : list EdgeInfo :=
  filter (λ e, is_out_edge g e = true) (edges g n).

(** The iteration from [begin] to [end]: the nodes of the bag that are active.
    A bag filled by one thread is read in the order of insertion. *)
Definition graph_nodes (g : Graph) : list GNode :=
  filter (λ n, active g n = true) (seq 0 (length (nodes g))).

Definition size (g : Graph) : nat := length (graph_nodes g).
