(* ===== verification/GraphFacts.v ===== *)
(** * Facts about the graph: the representation invariant [wf] and the effect of
      every operation of [MorphGraph] on adjacency *)
From S2P Require Import Prelude Double NumUtils Model MorphGraph.

Create HintDb graph.

(** ** Reading an updated graph *)

Lemma node_at_upd f n g m :
  n < length (nodes g) →
  node_at (upd_node f n g) m = if decide (m = n) then f (node_at g n) else node_at g m.
Proof.
  intros Hn. unfold node_at, upd_node. simpl. case_decide as Hd.
  - subst m. rewrite list_lookup_alter_eq.
    destruct (lookup_lt_is_Some_2 _ _ Hn) as [x ->]. done.
  - by rewrite list_lookup_alter_ne.
Qed.

Lemma active_lt g n : active g n = true → n < length (nodes g).
Proof.
  unfold active, node_at. intros H.
  destruct (nodes g !! n) eqn:E; [by eapply lookup_lt_Some|done].
Qed.

Lemma edges_lt g n e : e ∈ edges g n → n < length (nodes g).
Proof.
  unfold edges, node_at. intros H. destruct (nodes g !! n) eqn:E;
    [by eapply lookup_lt_Some|by apply elem_of_nil in H].
Qed.

#[export] Hint Resolve active_lt : graph.

Lemma length_upd f n g : length (nodes (upd_node f n g)) = length (nodes g).
Proof. apply length_alter. Qed.

Lemma edges_set_edges l n g m :
  n < length (nodes g) →
  edges (set_edges l n g) m = if decide (m = n) then l else edges g m.
Proof. intros. unfold edges, set_edges. rewrite node_at_upd by done. by case_decide. Qed.

Lemma active_upd f n g m :
  (∀ nd, nd_active (f nd) = nd_active nd) → active (upd_node f n g) m = active g m.
Proof.
  intros Hf. unfold active. destruct (decide (n < length (nodes g))) as [Hn|Hn].
  - rewrite node_at_upd by done. case_decide; subst; auto.
  - unfold node_at, upd_node. simpl. destruct (decide (m = n)) as [->|].
    + rewrite list_lookup_alter_eq. by rewrite lookup_ge_None_2 by lia.
    + by rewrite list_lookup_alter_ne.
Qed.

Lemma active_set_edges l n g m : active (set_edges l n g) m = active g m.
Proof. by apply active_upd. Qed.

Lemma getData_set_edges l n g m : getData (set_edges l n g) m = getData g m.
Proof.
  unfold getData. destruct (decide (n < length (nodes g))) as [Hn|Hn].
  - unfold set_edges. rewrite node_at_upd by done. case_decide; by subst.
  - unfold node_at, set_edges, upd_node. simpl. destruct (decide (m = n)) as [->|].
    + rewrite list_lookup_alter_eq. by rewrite lookup_ge_None_2 by lia.
    + by rewrite list_lookup_alter_ne.
Qed.

Lemma edge_mem_set_edges l n g : edge_mem (set_edges l n g) = edge_mem g.
Proof. done. Qed.

(** ** Searching and updating an edge vector *)

Lemma find_if_spec {A} (p : A → bool) (l : list A) :
  (find_if p l = length l ∧ ∀ x, x ∈ l → p x = false) ∨
  (∃ x, l !! find_if p l = Some x ∧ p x = true).
Proof.
  induction l as [|y l IH]; simpl.
  - left. split; [done|]. intros x Hx. by apply elem_of_nil in Hx.
  - destruct (p y) eqn:Hy; [right; eauto|].
    destruct IH as [[-> H]|(x & H & Hx)]; [left|right; eauto].
    split; [done|]. intros x [->|?]%elem_of_cons; auto.
Qed.

Lemma find_if_le {A} (p : A → bool) (l : list A) : find_if p l ≤ length l.
Proof. induction l as [|y l IH]; simpl; [done|]. destruct (p y); lia. Qed.

(** The vector after [createEdgeWithReuse] and the position of the new entry. *)
Definition put_entry (g : Graph) (l : list EdgeInfo) (e : EdgeInfo) : list EdgeInfo * nat :=
  let ii := find_if (first_not_valid g) l in
  if Nat.eqb ii (length l) then (l ++ [e], length l) else (<[ii := e]> l, ii).

Lemma node_createEdgeWithReuse_put g self N v f :
  node_createEdgeWithReuse g self N v f =
  (set_edges (put_entry g (edges g self) (mkEdgeInfo N v f)).1 self g,
   (put_entry g (edges g self) (mkEdgeInfo N v f)).2).
Proof. unfold node_createEdgeWithReuse, put_entry. by destruct (Nat.eqb _ _). Qed.

(** The new entry stands where nothing or a stale entry stood. *)
Lemma put_entry_spec g l e :
  let '(l', i0) := put_entry g l e in
  l' !! i0 = Some e ∧
  (∀ i, i ≠ i0 → l' !! i = l !! i) ∧
  (∀ x, l !! i0 = Some x → active g (first x) = false).
Proof.
  unfold put_entry. destruct (find_if_spec (first_not_valid g) l) as [[-> H]|(x & Hx & Hv)].
  - rewrite Nat.eqb_refl. split_and!.
    + by rewrite lookup_app_r, Nat.sub_diag.
    + intros i Hi. destruct (decide (i < length l)); [by rewrite lookup_app_l|].
      rewrite !lookup_ge_None_2; [done|lia|rewrite length_app; simpl; lia].
    + intros x Hx. apply lookup_lt_Some in Hx. lia.
  - assert (find_if (first_not_valid g) l < length l) as Hlt by (by eapply lookup_lt_Some).
    destruct (Nat.eqb_spec (find_if (first_not_valid g) l) (length l)); [lia|]. split_and!.
    + by apply list_lookup_insert_eq.
    + intros i Hi. by apply list_lookup_insert_ne.
    + intros y Hy. simplify_eq. unfold first_not_valid in Hv. by destruct (active _ _).
Qed.

Lemma put_entry_no_holes g l e :
  (∀ x, x ∈ l → active g (first x) = true) → put_entry g l e = (l ++ [e], length l).
Proof.
  intros H. unfold put_entry.
  destruct (find_if_spec (first_not_valid g) l) as [[-> _]|(x & Hx & Hv)].
  - by rewrite Nat.eqb_refl.
  - apply list_elem_of_lookup_2 in Hx. unfold first_not_valid in Hv. by rewrite H in Hv.
Qed.

(** ** The representation invariant *)

(** [u] has a live entry for [v] with the data at [p]. *)
Definition adjP (g : Graph) (u v : GNode) (p : nat) : Prop :=
  active g v = true ∧ mkEdgeInfo v p false ∈ edges g u.

Record wf (g : Graph) : Prop := {
  wf_range u e : e ∈ edges g u →
    first e < length (nodes g) ∧ second e < length (edge_mem g) ∧ isInEdge e = false;
  wf_inactive u : active g u = false → edges g u = [];
  wf_noloop u e : e ∈ edges g u → first e ≠ u;
  wf_sym u v p : adjP g u v p → adjP g v u p;
  wf_uniq u i j e e' : edges g u !! i = Some e → edges g u !! j = Some e' →
    first e = first e' → active g (first e) = true → i = j;
  wf_ptr u v u' v' p : adjP g u v p → adjP g u' v' p →
    (u = u' ∧ v = v') ∨ (u = v' ∧ v = u');
}.

Lemma adjP_active_l g u v p : wf g → adjP g u v p → active g u = true.
Proof.
  intros Hw [_ Hin]. destruct (active g u) eqn:E; [done|].
  rewrite (wf_inactive _ Hw u E) in Hin. by apply elem_of_nil in Hin.
Qed.

Lemma adjP_fun g u v p q : wf g → adjP g u v p → adjP g u v q → p = q.
Proof.
  intros Hw [Ha H1] [_ H2]. apply list_elem_of_lookup in H1 as [i Hi], H2 as [j Hj].
  assert (i = j) by (by eapply (wf_uniq _ Hw)). subst. congruence.
Qed.

Lemma adjP_irrefl g u p : wf g → ¬ adjP g u u p.
Proof. intros Hw [_ H]. by apply (wf_noloop _ Hw) in H. Qed.

Lemma live_entry g u e :
  wf g → e ∈ edges g u → active g (first e) = true → adjP g u (first e) (second e).
Proof.
  intros Hw He Ha. split; [done|]. destruct (wf_range _ Hw u e He) as (_ & _ & Hf).
  destruct e; simpl in *. by subst.
Qed.

#[export] Hint Resolve adjP_active_l wf_sym : graph.

(** ** Finding an edge *)

Lemma find_found g u v p :
  wf g → adjP g u v p → edges g u !! find g u v false = Some (mkEdgeInfo v p false).
Proof.
  intros Hw Hadj. unfold find.
  match goal with |- context [find_if ?q ?l] => destruct (find_if_spec q l) as [[_ H]|(x & Hx & Hp)] end.
  - exfalso. specialize (H _ (proj2 Hadj)). unfold first_eq_and_valid in H. simpl in H.
    by rewrite Nat.eqb_refl, (proj1 Hadj) in H.
  - rewrite Hx. f_equal. apply andb_prop in Hp as [Hp Hf].
    apply andb_prop in Hp as [Hn Ha]. apply Nat.eqb_eq in Hn.
    apply Bool.eqb_prop in Hf. apply list_elem_of_lookup_2 in Hx.
    pose proof (live_entry _ _ _ Hw Hx Ha) as Hl. rewrite Hn in Hl.
    rewrite (adjP_fun _ _ _ _ _ Hw Hadj Hl). destruct x; simpl in *; by subst.
Qed.

Lemma find_not_found g u v :
  wf g → (∀ p, ¬ adjP g u v p) → find g u v false = length (edges g u).
Proof.
  intros Hw Hno. unfold find.
  match goal with |- context [find_if ?q ?l] => destruct (find_if_spec q l) as [[H _]|(x & Hx & Hp)] end;
    [done|].
  exfalso. apply andb_prop in Hp as [Hp Hf]. apply andb_prop in Hp as [Hn Ha].
  apply Nat.eqb_eq in Hn. apply list_elem_of_lookup_2 in Hx.
  apply (Hno (second x)). rewrite <- Hn. by apply live_entry.
Qed.

Lemma find_lt g u v p : wf g → adjP g u v p → find g u v false < length (edges g u).
Proof. intros Hw H. eapply lookup_lt_Some. by apply find_found. Qed.

(** Adjacency is decidable: look for it. *)
Definition adj (g : Graph) (u v : GNode) : option nat :=
  second <$> (edges g u !! find g u v false).

Lemma adj_Some g u v p : wf g → adj g u v = Some p ↔ adjP g u v p.
Proof.
  intros Hw. unfold adj. split.
  - intros H. apply fmap_Some in H as (e & He & ->).
    unfold find in He.
    match type of He with context [find_if ?q ?l] =>
      destruct (find_if_spec q l) as [[H _]|(x & Hx & Hp)] end.
    { rewrite H in He. apply lookup_lt_Some in He. lia. }
    simplify_eq. apply andb_prop in Hp as [Hp Hf]. apply andb_prop in Hp as [Hn Ha].
    apply Nat.eqb_eq in Hn. apply list_elem_of_lookup_2 in He.
    rewrite <- Hn. by apply live_entry.
  - intros H. by rewrite (find_found _ _ _ _ Hw H).
Qed.

Lemma adj_None g u v : wf g → adj g u v = None ↔ ∀ p, ¬ adjP g u v p.
Proof.
  intros Hw. split.
  - intros H p Hp. apply adj_Some in Hp; [|done]. congruence.
  - intros H. destruct (adj g u v) eqn:E; [|done].
    apply adj_Some in E; [|done]. by apply H in E.
Qed.

Lemma adj_sym g u v : wf g → adj g u v = adj g v u.
Proof.
  intros Hw. destruct (adj g v u) as [p|] eqn:E.
  - apply adj_Some; [done|]. apply (wf_sym _ Hw). by apply adj_Some.
  - apply adj_None; [done|]. intros p Hp. apply (wf_sym _ Hw), adj_Some in Hp; [|done].
    congruence.
Qed.

Lemma filter_iterator_here g u i e :
  edges g u !! i = Some e → is_out_edge g e = true → make_filter_iterator g u i = mkIter u i.
Proof.
  intros Hi He. unfold make_filter_iterator. f_equal.
  rewrite (drop_S _ _ _ Hi). simpl. rewrite He. lia.
Qed.

Lemma filter_iterator_end g u :
  make_filter_iterator g u (length (edges g u)) = mkIter u (length (edges g u)).
Proof. unfold make_filter_iterator. f_equal. rewrite drop_all. simpl. lia. Qed.

Lemma findEdge_Some g u v p :
  wf g → adjP g u v p → findEdge g u v = mkIter u (find g u v false).
Proof.
  intros Hw H. unfold findEdge. pose proof (find_found _ _ _ _ Hw H) as Hf. rewrite Hf.
  assert (is_out_edge g (mkEdgeInfo v p false) = true) as Hout.
  { unfold is_out_edge. simpl. by rewrite (proj1 H). }
  rewrite Hout. by eapply filter_iterator_here.
Qed.

Lemma findEdge_None g u v :
  wf g → (∀ p, ¬ adjP g u v p) → findEdge g u v = mkIter u (length (edges g u)).
Proof.
  intros Hw H. unfold findEdge. rewrite (find_not_found _ _ _ Hw H).
  rewrite lookup_ge_None_2 by done. apply filter_iterator_end.
Qed.

(** [findEdge] returns an end iterator exactly when there is no edge. *)
Lemma findEdge_end g u v :
  wf g → it_end g (findEdge g u v) = match adj g u v with Some _ => false | None => true end.
Proof.
  intros Hw. destruct (adj g u v) as [p|] eqn:E; unfold it_end.
  - apply adj_Some in E; [|done]. rewrite (findEdge_Some _ _ _ p) by done. simpl.
    apply Nat.eqb_neq. pose proof (find_lt _ _ _ _ Hw E). lia.
  - rewrite findEdge_None by (done || by apply adj_None). apply Nat.eqb_refl.
Qed.

Lemma deref_findEdge g u v p :
  wf g → adjP g u v p → deref g (findEdge g u v) = Ok (mkEdgeInfo v p false).
Proof.
  intros Hw H. rewrite (findEdge_Some _ _ _ p) by done. unfold deref. simpl.
  by rewrite (find_found _ _ _ _ Hw H).
Qed.

(** The data of the edge found. *)
Definition edge_data (g : Graph) (u v : GNode) : option EdgeData :=
  p ← adj g u v; edge_mem g !! p.

Lemma adjP_mem g u v p : wf g → adjP g u v p → ∃ d, edge_mem g !! p = Some d.
Proof.
  intros Hw [_ H]. apply (wf_range _ Hw) in H as (_ & H & _).
  by apply lookup_lt_is_Some_2.
Qed.

Lemma getEdgeData_findEdge g u v p :
  wf g → adjP g u v p → getEdgeData g (findEdge g u v) = get_opt (edge_mem g !! p).
Proof.
  intros Hw H. unfold getEdgeData. rewrite (deref_findEdge _ _ _ _ Hw H).
  cbn. by rewrite (proj1 H).
Qed.

(** ** Adding an edge *)

Lemma find_if_ext {A} (p q : A → bool) l : (∀ x, p x = q x) → find_if p l = find_if q l.
Proof. intros H. induction l as [|x l IH]; simpl; [done|]. by rewrite H, IH. Qed.

Lemma put_entry_ext g g' l e :
  (∀ n, active g n = active g' n) → put_entry g l e = put_entry g' l e.
Proof.
  intros H. unfold put_entry.
  rewrite (find_if_ext (first_not_valid g) (first_not_valid g')); [done|].
  intros x. unfold first_not_valid. by rewrite H.
Qed.

(** The graph with a new edge between [u] and [v]. *)
Definition with_edge (u v : GNode) (g : Graph) : Graph :=
  let p := length (edge_mem g) in
  set_edges (put_entry g (edges g u) (mkEdgeInfo v p false)).1 u
    (set_edges (put_entry g (edges g v) (mkEdgeInfo u p false)).1 v
      (mkGraph (nodes g) (edge_mem g ++ [EdgeData0]))).

Lemma addEdge_existing u v g p :
  wf g → adjP g u v p → addEdge u v g = (mkIter u (find g u v false), g).
Proof.
  intros Hw H. unfold addEdge.
  pose proof (find_lt _ _ _ _ Hw H). destruct (Nat.eqb_spec (find g u v false) (length (edges g u))); [lia|].
  f_equal. eapply filter_iterator_here; [by apply find_found|].
  unfold is_out_edge. simpl. by rewrite (proj1 H).
Qed.

Section WithEdge.
Context (u v : GNode) (g : Graph).
Hypothesis (Hw : wf g) (Huv : u ≠ v).
Hypothesis (Hu : active g u = true) (Hv : active g v = true).

Let p := length (edge_mem g).
Let g' := with_edge u v g.

Lemma with_edge_active n : active g' n = active g n.
Proof. unfold g', with_edge. by rewrite !active_set_edges. Qed.

Lemma with_edge_data n : getData g' n = getData g n.
Proof. unfold g', with_edge. by rewrite !getData_set_edges. Qed.

Lemma with_edge_length : length (nodes g') = length (nodes g).
Proof. unfold g', with_edge, set_edges. by rewrite !length_upd. Qed.

Lemma with_edge_mem : edge_mem g' = edge_mem g ++ [EdgeData0].
Proof. done. Qed.

Lemma with_edge_edges n :
  edges g' n =
    if decide (n = u) then (put_entry g (edges g u) (mkEdgeInfo v p false)).1
    else if decide (n = v) then (put_entry g (edges g v) (mkEdgeInfo u p false)).1
    else edges g n.
Proof.
  pose proof (active_lt _ _ Hu). pose proof (active_lt _ _ Hv).
  unfold g', with_edge. rewrite edges_set_edges by (unfold set_edges; by rewrite length_upd).
  case_decide; [done|]. by rewrite edges_set_edges.
Qed.

(** An entry of the new vectors is the new one or an old one. *)
Lemma with_edge_entry n i e :
  edges g' n !! i = Some e →
  (n = u ∧ e = mkEdgeInfo v p false ∧ i = (put_entry g (edges g u) (mkEdgeInfo v p false)).2) ∨
  (n = v ∧ e = mkEdgeInfo u p false ∧ i = (put_entry g (edges g v) (mkEdgeInfo u p false)).2) ∨
  edges g n !! i = Some e.
Proof.
  rewrite with_edge_edges. intros H.
  destruct (decide (n = u)) as [->|]; [|destruct (decide (n = v)) as [->|]; [|by auto]].
  - pose proof (put_entry_spec g (edges g u) (mkEdgeInfo v p false)) as Hs.
    destruct (put_entry _ _ _) as [l' i0]. destruct Hs as (H1 & H2 & _). simpl in *.
    destruct (decide (i = i0)) as [->|]; [left; naive_solver|].
    rewrite H2 in H by done. auto.
  - pose proof (put_entry_spec g (edges g v) (mkEdgeInfo u p false)) as Hs.
    destruct (put_entry _ _ _) as [l' i0]. destruct Hs as (H1 & H2 & _). simpl in *.
    destruct (decide (i = i0)) as [->|]; [right; left; naive_solver|].
    rewrite H2 in H by done. auto.
Qed.

Lemma with_edge_keeps n e :
  e ∈ edges g n → active g (first e) = true → e ∈ edges g' n.
Proof.
  intros He Ha. apply list_elem_of_lookup in He as [i Hi].
  assert (∀ e0, let '(l', i0) := put_entry g (edges g n) e0 in e ∈ l') as Hput.
  { intros e0. pose proof (put_entry_spec g (edges g n) e0) as Hs.
    destruct (put_entry _ _ _) as [l' i0]. destruct Hs as (H1 & H2 & H3).
    destruct (decide (i = i0)) as [->|]; [by rewrite (H3 _ Hi) in Ha|].
    eapply list_elem_of_lookup_2. by rewrite H2. }
  rewrite with_edge_edges.
  destruct (decide (n = u)) as [->|]; [|destruct (decide (n = v)) as [->|]].
  - specialize (Hput (mkEdgeInfo v p false)). by destruct (put_entry _ _ _).
  - specialize (Hput (mkEdgeInfo u p false)). by destruct (put_entry _ _ _).
  - by eapply list_elem_of_lookup_2.
Qed.

Lemma with_edge_new_u :
  edges g' u !! (put_entry g (edges g u) (mkEdgeInfo v p false)).2 = Some (mkEdgeInfo v p false).
Proof.
  rewrite with_edge_edges, decide_True by done.
  pose proof (put_entry_spec g (edges g u) (mkEdgeInfo v p false)) as Hs.
  destruct (put_entry _ _ _) as [l' i0]. apply Hs.
Qed.

Lemma with_edge_new_v :
  edges g' v !! (put_entry g (edges g v) (mkEdgeInfo u p false)).2 = Some (mkEdgeInfo u p false).
Proof.
  rewrite with_edge_edges, decide_False, decide_True by done.
  pose proof (put_entry_spec g (edges g v) (mkEdgeInfo u p false)) as Hs.
  destruct (put_entry _ _ _) as [l' i0]. apply Hs.
Qed.

Lemma with_edge_adjP a b q :
  adjP g' a b q ↔
  adjP g a b q ∨ q = p ∧ ((a = u ∧ b = v) ∨ (a = v ∧ b = u)).
Proof.
  unfold adjP at 1. rewrite with_edge_active. split.
  - intros [Hb Hin]. apply list_elem_of_lookup in Hin as [i Hi].
    apply with_edge_entry in Hi as [(-> & [= -> ->] & _)|[(-> & [= -> ->] & _)|Hi]]; eauto.
    left. split; [done|]. by eapply list_elem_of_lookup_2.
  - intros [[Hb Hin]|(-> & [[-> ->]|[-> ->]])].
    + split; [done|]. by apply with_edge_keeps.
    + split; [done|]. eapply list_elem_of_lookup_2, with_edge_new_u.
    + split; [done|]. eapply list_elem_of_lookup_2, with_edge_new_v.
Qed.

Hypothesis Hnew : ∀ q, ¬ adjP g u v q.

Lemma old_ptr_lt a b q : adjP g a b q → q < p.
Proof. intros [_ H]. by apply (wf_range _ Hw) in H as (_ & H & _). Qed.

Lemma with_edge_wf : wf g'.
Proof.
  pose proof (active_lt _ _ Hu). pose proof (active_lt _ _ Hv).
  split.
  - intros n e He. rewrite with_edge_length, with_edge_mem, length_app. simpl.
    apply list_elem_of_lookup in He as [i Hi].
    apply with_edge_entry in Hi as [(-> & -> & _)|[(-> & -> & _)|Hi]]; simpl;
      [split_and!; [lia|unfold p; lia|done]..|].
    apply list_elem_of_lookup_2, (wf_range _ Hw) in Hi as (? & ? & ?). split_and!; [lia|lia|done].
  - intros n Hn. rewrite with_edge_active in Hn. rewrite with_edge_edges.
    rewrite !decide_False by congruence. by apply (wf_inactive _ Hw).
  - intros n e He. apply list_elem_of_lookup in He as [i Hi].
    apply with_edge_entry in Hi as [(-> & -> & _)|[(-> & -> & _)|Hi]]; simpl; [done|done|].
    by apply list_elem_of_lookup_2, (wf_noloop _ Hw) in Hi.
  - intros a b q. rewrite !with_edge_adjP. intros [?|(-> & ?)]; [left; by apply (wf_sym _ Hw)|].
    right. naive_solver.
  - assert (∀ n e i, edges g n !! i = Some e → active g (first e) = true →
      adjP g n (first e) (second e)) as Hlive.
    { intros n e i Hi ?. apply live_entry; [done| |done]. by eapply list_elem_of_lookup_2. }
    intros n i j e e' Hi Hj Hee Ha. rewrite with_edge_active in Ha.
    apply with_edge_entry in Hi as [(-> & -> & ->)|[(-> & -> & ->)|Hi]];
      apply with_edge_entry in Hj as [(Hn & He' & Hj)|[(Hn & He' & Hj)|Hj]]; subst;
      simpl in *; try done; try congruence.
    + exfalso. eapply Hnew. rewrite Hee. eapply Hlive; [done|]. by rewrite <- Hee.
    + exfalso. eapply Hnew. apply (wf_sym _ Hw). rewrite Hee.
      eapply Hlive; [done|]. by rewrite <- Hee.
    + exfalso. eapply Hnew. rewrite <- Hee. by eapply Hlive.
    + exfalso. eapply Hnew. apply (wf_sym _ Hw). rewrite <- Hee. by eapply Hlive.
    + by eapply (wf_uniq _ Hw).
  - intros a b a' b' q. rewrite !with_edge_adjP.
    intros [H1|(-> & H1)] [H2|(Hq & H2)]; [by eapply (wf_ptr _ Hw)|..].
    + apply old_ptr_lt in H1. lia.
    + apply old_ptr_lt in H2. lia.
    + naive_solver.
Qed.

Lemma addEdge_new :
  addEdge u v g = (mkIter u (put_entry g (edges g u) (mkEdgeInfo v p false)).2, g').
Proof.
  unfold addEdge. rewrite find_not_found by done. rewrite Nat.eqb_refl.
  cbn [Directional andb negb mkEdge]. fold p.
  rewrite node_createEdgeWithReuse_put. cbn [fst snd].
  rewrite node_createEdgeWithReuse_put. cbn [fst snd].
  pose proof (active_lt _ _ Hu). pose proof (active_lt _ _ Hv).
  set (g0 := mkGraph (nodes g) (edge_mem g ++ [EdgeData0])).
  assert (edges (set_edges (put_entry g0 (edges g0 v) (mkEdgeInfo u p false)).1 v g0) u
          = edges g u) as ->.
  { rewrite edges_set_edges by done. by rewrite decide_False. }
  rewrite !(put_entry_ext _ g) by (intros; by rewrite ?active_set_edges).
  change (edges g0 v) with (edges g v).
  match goal with |- (make_filter_iterator ?h _ _, _) = _ => change h with g' end.
  f_equal. eapply filter_iterator_here; [apply with_edge_new_u|].
  unfold is_out_edge. simpl. rewrite with_edge_active. by rewrite Hv.
Qed.
End WithEdge.

(** ** Changing data *)

Lemma edges_updData f n g m : edges (updData f n g) m = edges g m.
Proof.
  unfold edges. destruct (decide (n < length (nodes g))) as [Hn|Hn].
  - unfold updData. rewrite node_at_upd by done. case_decide; by subst.
  - unfold node_at, updData, upd_node. simpl. destruct (decide (m = n)) as [->|].
    + rewrite list_lookup_alter_eq. by rewrite lookup_ge_None_2 by lia.
    + by rewrite list_lookup_alter_ne.
Qed.

Lemma active_updData f n g m : active (updData f n g) m = active g m.
Proof. by apply active_upd. Qed.

Lemma getData_updData f n g m :
  n < length (nodes g) →
  getData (updData f n g) m = if decide (m = n) then f (getData g n) else getData g m.
Proof. intros. unfold getData, updData. rewrite node_at_upd by done. by case_decide. Qed.

(** Graphs with the same entries, the same nodes and the same number of edge
    data: the invariant and adjacency only depend on these. *)
Record same_shape (g g' : Graph) : Prop := {
  ss_nodes : length (nodes g') = length (nodes g);
  ss_mem : length (edge_mem g') = length (edge_mem g);
  ss_active n : active g' n = active g n;
  ss_edges n : edges g' n = edges g n;
}.

Lemma same_shape_adjP g g' a b q : same_shape g g' → adjP g' a b q ↔ adjP g a b q.
Proof. intros H. unfold adjP. by rewrite (ss_active _ _ H), (ss_edges _ _ H). Qed.

Lemma same_shape_wf g g' : same_shape g g' → wf g → wf g'.
Proof.
  intros Hs Hw. split; intros *; rewrite ?(ss_nodes _ _ Hs), ?(ss_mem _ _ Hs),
    ?(ss_active _ _ Hs), ?(ss_edges _ _ Hs), ?(same_shape_adjP _ _ _ _ _ Hs).
  - apply (wf_range _ Hw).
  - apply (wf_inactive _ Hw).
  - apply (wf_noloop _ Hw).
  - apply (wf_sym _ Hw).
  - apply (wf_uniq _ Hw).
  - apply (wf_ptr _ Hw).
Qed.

Lemma same_shape_find g g' u v : same_shape g g' → find g' u v false = find g u v false.
Proof.
  intros Hs. unfold find. rewrite (ss_edges _ _ Hs). apply find_if_ext.
  intros x. unfold first_eq_and_valid. by rewrite (ss_active _ _ Hs).
Qed.

Lemma same_shape_adj g g' u v : same_shape g g' → adj g' u v = adj g u v.
Proof.
  intros Hs. unfold adj. by rewrite (same_shape_find _ _ _ _ Hs), (ss_edges _ _ Hs).
Qed.

Lemma updData_shape f n g : same_shape g (updData f n g).
Proof.
  split; [apply length_upd|done|intros; apply active_updData|intros; apply edges_updData].
Qed.

Definition upd_mem (f : EdgeData → EdgeData) (p : nat) (g : Graph) : Graph :=
  mkGraph (nodes g) (alter f p (edge_mem g)).

Lemma upd_mem_shape f p g : same_shape g (upd_mem f p g).
Proof. split; [done|apply length_alter|done|done]. Qed.

(** ** A new node *)

(** [createNode] followed by [addNode]. *)
Definition new_node (d : NodeData) (g : Graph) : Graph := addNode (createNode d g).1 (createNode d g).2.

Section NewNode.
Context (d : NodeData) (g : Graph).
Let n := length (nodes g).
Let g' := new_node d g.

Lemma new_node_at m :
  node_at g' m = if decide (m = n) then mkGNode d [] true else node_at g m.
Proof.
  unfold g', new_node, addNode, set_active. cbn [createNode fst snd].
  rewrite node_at_upd by (simpl; rewrite length_app; simpl; lia).
  unfold node_at. simpl. case_decide as Hm.
  - rewrite lookup_app_r, Nat.sub_diag by done. simpl.
    by rewrite decide_True.
  - rewrite decide_False by done.
    destruct (decide (m < length (nodes g))); [by rewrite lookup_app_l|].
    rewrite !lookup_ge_None_2; [done|lia|rewrite length_app; simpl; lia].
Qed.

Lemma new_node_length : length (nodes g') = S n.
Proof. unfold g', new_node, addNode, set_active. rewrite length_upd. simpl. rewrite length_app. simpl. unfold n. lia. Qed.

Lemma new_node_edges m : edges g' m = edges g m.
Proof.
  unfold edges. rewrite new_node_at. case_decide as Hm; [|done]. subst m.
  unfold node_at. by rewrite lookup_ge_None_2.
Qed.

Lemma new_node_active m : active g' m = if decide (m = n) then true else active g m.
Proof. unfold active. rewrite new_node_at. by case_decide. Qed.

Lemma new_node_data m : getData g' m = if decide (m = n) then d else getData g m.
Proof. unfold getData. rewrite new_node_at. by case_decide. Qed.

Lemma new_node_fresh : active g n = false.
Proof. unfold active, node_at. by rewrite lookup_ge_None_2. Qed.

Lemma new_node_no_edges : edges g n = [].
Proof. unfold edges, node_at. by rewrite lookup_ge_None_2. Qed.

Hypothesis Hw : wf g.

Lemma new_node_no_entry u e : e ∈ edges g u → first e ≠ n.
Proof. intros He. apply (wf_range _ Hw) in He as (? & _ & _). unfold n. lia. Qed.

Lemma new_node_adjP a b q : adjP g' a b q ↔ adjP g a b q.
Proof.
  unfold adjP. rewrite new_node_active, new_node_edges.
  split; intros [Ha Hin]; (split; [|done]).
  - rewrite decide_False in Ha; [done|]. by apply new_node_no_entry in Hin.
  - case_decide; [|done]. done.
Qed.

Lemma new_node_wf : wf g'.
Proof.
  split; intros *; rewrite ?new_node_length, ?new_node_edges, ?new_node_active, ?new_node_adjP.
  - intros H. destruct (wf_range _ Hw _ _ H) as (? & ? & ?).
    split_and!; [unfold n; lia|done|done].
  - case_decide; [done|]. apply (wf_inactive _ Hw).
  - apply (wf_noloop _ Hw).
  - apply (wf_sym _ Hw).
  - intros Hi Hj He Ha. apply (wf_uniq _ Hw _ _ _ _ _ Hi Hj He).
    rewrite decide_False in Ha; [done|]. by eapply new_node_no_entry, list_elem_of_lookup_2.
  - apply (wf_ptr _ Hw).
Qed.

Lemma new_node_adj a b : adj g' a b = adj g a b.
Proof.
  destruct (adj g a b) as [p|] eqn:E.
  - apply adj_Some in E; [|done]. apply adj_Some; [apply new_node_wf|]. by apply new_node_adjP.
  - rewrite adj_None in E by done. apply adj_None; [apply new_node_wf|].
    intros p Hp%new_node_adjP. by apply E in Hp.
Qed.
End NewNode.

(** ** Removing a node *)

Section RemoveNode.
Context (n : GNode) (g : Graph).
Hypothesis Hn : active g n = true.
Let g' := removeNode n g.

Lemma removeNode_node_at m :
  node_at g' m =
    if decide (m = n) then mkGNode (getData g n) [] false else node_at g m.
Proof.
  pose proof (active_lt _ _ Hn). unfold g', removeNode. rewrite Hn.
  unfold set_edges, set_active. rewrite node_at_upd by (by rewrite length_upd).
  rewrite !node_at_upd by done. by repeat case_decide.
Qed.

Lemma removeNode_length : length (nodes g') = length (nodes g).
Proof. unfold g', removeNode. rewrite Hn. unfold set_edges, set_active. by rewrite !length_upd. Qed.

Lemma removeNode_mem : edge_mem g' = edge_mem g.
Proof. unfold g', removeNode. by rewrite Hn. Qed.

Lemma removeNode_edges m : edges g' m = if decide (m = n) then [] else edges g m.
Proof. unfold edges. rewrite removeNode_node_at. by case_decide. Qed.

Lemma removeNode_active m : active g' m = if decide (m = n) then false else active g m.
Proof. unfold active. rewrite removeNode_node_at. by case_decide. Qed.

Lemma removeNode_data m : getData g' m = getData g m.
Proof. unfold getData at 1. rewrite removeNode_node_at. case_decide as Hm; [by rewrite Hm|done]. Qed.

Lemma removeNode_adjP a b q : adjP g' a b q ↔ adjP g a b q ∧ a ≠ n ∧ b ≠ n.
Proof.
  unfold adjP. rewrite removeNode_active, removeNode_edges.
  destruct (decide (a = n)), (decide (b = n)); subst; split; try naive_solver.
  all: intros [? H%elem_of_nil]; done.
Qed.

Lemma removeNode_wf : wf g → wf g'.
Proof.
  intros Hw.
  split; intros *; rewrite ?removeNode_length, ?removeNode_mem, ?removeNode_edges,
    ?removeNode_active, ?removeNode_adjP.
  - case_decide; [by intros ?%elem_of_nil|]. apply (wf_range _ Hw).
  - case_decide; [done|]. apply (wf_inactive _ Hw).
  - case_decide; [by intros ?%elem_of_nil|]. apply (wf_noloop _ Hw).
  - intros (? & ? & ?). split_and!; [by apply (wf_sym _ Hw)|done|done].
  - case_decide; [done|]. intros ??? Ha. case_decide; [done|]. by eapply (wf_uniq _ Hw).
  - intros (? & ? & ?) (? & ? & ?). by eapply (wf_ptr _ Hw).
Qed.
End RemoveNode.

(** ** Removing an edge *)

(** [l'] is [l] without its entry at [i], in some order. *)
Definition without_at (i : nat) (l l' : list EdgeInfo) : Prop :=
  ∃ σ : nat → nat,
    (∀ j x, l' !! j = Some x → l !! σ j = Some x ∧ σ j ≠ i) ∧
    (∀ j k, j < length l' → k < length l' → σ j = σ k → j = k) ∧
    (∀ j x, l !! j = Some x → j ≠ i → x ∈ l').

Lemma without_at_delete i (l : list EdgeInfo) : without_at i l (delete i l).
Proof.
  exists (λ j, if decide (j < i) then j else S j).
  assert (∀ j, delete i l !! j = if decide (j < i) then l !! j else l !! S j) as Hlk.
  { intros j. rewrite list_lookup_delete. by repeat case_decide. }
  split_and!.
  - intros j x. rewrite Hlk. case_decide; intros; (split; [done|lia]).
  - intros j k _ _. repeat case_decide; lia.
  - intros j x Hx Hj. apply list_elem_of_lookup.
    exists (if decide (j < i) then j else pred j). rewrite Hlk.
    repeat case_decide; try done; try lia. by replace (S (pred j)) with j by lia.
Qed.

Lemma without_at_swap i (l : list EdgeInfo) back :
  list.last l = Some back → i < length l →
  without_at i l (take (length l - 1) (<[i := back]> l)).
Proof.
  intros Hb Hi. rewrite last_lookup in Hb.
  replace (pred (length l)) with (length l - 1) in Hb by lia.
  exists (λ j, if decide (j = i) then length l - 1 else j).
  assert (∀ j x, take (length l - 1) (<[i := back]> l) !! j = Some x →
    j < length l - 1 ∧ x = default x (if decide (j = i) then Some back else l !! j) ∧
    l !! (if decide (j = i) then length l - 1 else j) = Some x) as Hlk.
  { intros j x H. apply lookup_take_Some in H as [H Hj]. split; [done|].
    destruct (decide (j = i)) as [->|].
    - rewrite list_lookup_insert_eq in H by done. naive_solver.
    - rewrite list_lookup_insert_ne in H by done. by rewrite H. }
  split_and!.
  - intros j x H. destruct (Hlk _ _ H) as (? & _ & ?). split; [done|]. case_decide; lia.
  - intros j k. rewrite length_take, length_insert. intros ??.
    repeat case_decide; intros; subst; lia.
  - intros j x Hx Hj. apply list_elem_of_lookup.
    assert (j < length l) by (by eapply lookup_lt_Some).
    destruct (decide (j = length l - 1)) as [->|].
    + exists i. rewrite lookup_take_lt by lia.
      rewrite list_lookup_insert_eq by done. congruence.
    + exists j. rewrite lookup_take_lt by lia. by rewrite list_lookup_insert_ne by done.
Qed.

Section WithoutEdge.
Context (u v : GNode) (p : nat) (g g' : Graph) (iu iv : nat).
Hypothesis (Hw : wf g) (Hadj : adjP g u v p).
Hypothesis (Hiu : edges g u !! iu = Some (mkEdgeInfo v p false)).
Hypothesis (Hiv : edges g v !! iv = Some (mkEdgeInfo u p false)).
Hypothesis Hnodes : length (nodes g') = length (nodes g).
Hypothesis Hmem : edge_mem g' = edge_mem g.
Hypothesis Hact : ∀ n, active g' n = active g n.
Hypothesis Hu' : without_at iu (edges g u) (edges g' u).
Hypothesis Hv' : without_at iv (edges g v) (edges g' v).
Hypothesis Hrest : ∀ n, n ≠ u → n ≠ v → edges g' n = edges g n.

Lemma without_edge_entry n i e :
  edges g' n !! i = Some e →
  ∃ j, edges g n !! j = Some e ∧ (n = u → j ≠ iu) ∧ (n = v → j ≠ iv).
Proof.
  assert (u ≠ v) by (intros E; rewrite E in Hadj; by apply adjP_irrefl in Hadj).
  intros Hi.
  destruct (decide (n = u)) as [->|]; [|destruct (decide (n = v)) as [->|]].
  - destruct Hu' as (σ & H1 & _). destruct (H1 _ _ Hi). exists (σ i). naive_solver.
  - destruct Hv' as (σ & H1 & _). destruct (H1 _ _ Hi). exists (σ i). naive_solver.
  - rewrite Hrest in Hi by done. exists i. split_and!; [done|congruence|congruence].
Qed.

Lemma without_edge_adjP a b q :
  adjP g' a b q ↔ adjP g a b q ∧ ¬ (a = u ∧ b = v) ∧ ¬ (a = v ∧ b = u).
Proof.
  unfold adjP at 1. rewrite Hact. split.
  - intros [Hb Hin]. apply list_elem_of_lookup in Hin as [i Hi].
    apply without_edge_entry in Hi as (j & Hj & Hju & Hjv).
    split; [split; [done|by eapply list_elem_of_lookup_2]|].
    split; intros [-> ->].
    + apply Hju; [done|]. by eapply (wf_uniq _ Hw).
    + apply Hjv; [done|]. by eapply (wf_uniq _ Hw).
  - intros ([Hb Hin] & Hn1 & Hn2). split; [done|].
    apply list_elem_of_lookup in Hin as [i Hi].
    destruct (decide (a = u)) as [->|]; [|destruct (decide (a = v)) as [->|]].
    + destruct Hu' as (_ & _ & _ & H3). apply (H3 i); [done|]. intros ->. naive_solver.
    + destruct Hv' as (_ & _ & _ & H3). apply (H3 i); [done|]. intros ->. naive_solver.
    + rewrite Hrest by done. by eapply list_elem_of_lookup_2.
Qed.

Lemma without_edge_wf : wf g'.
Proof.
  assert (∀ n e, e ∈ edges g' n → e ∈ edges g n) as Hsub.
  { intros n e He. apply list_elem_of_lookup in He as [i Hi].
    apply without_edge_entry in Hi as (j & Hj & _). by eapply list_elem_of_lookup_2. }
  split.
  - intros n e He. rewrite Hnodes, Hmem. by eapply (wf_range _ Hw), Hsub.
  - intros n Hn. rewrite Hact in Hn. pose proof (wf_inactive _ Hw n Hn) as He.
    destruct (edges g' n) as [|x l] eqn:E; [done|]. exfalso.
    assert (x ∈ edges g n) as Hx by (apply Hsub; rewrite E; left).
    rewrite He in Hx. by apply elem_of_nil in Hx.
  - intros n e He. by apply (wf_noloop _ Hw), Hsub.
  - intros a b q. rewrite !without_edge_adjP. intros (? & ? & ?).
    split; [by apply (wf_sym _ Hw)|naive_solver].
  - intros n i j e e' Hi Hj He Ha. rewrite Hact in Ha.
    assert (i < length (edges g' n)) by (by eapply lookup_lt_Some).
    assert (j < length (edges g' n)) by (by eapply lookup_lt_Some).
    destruct (decide (n = u)) as [->|]; [|destruct (decide (n = v)) as [->|]].
    + destruct Hu' as (σ & H1 & H2 & _). destruct (H1 _ _ Hi), (H1 _ _ Hj).
      apply H2; [done..|]. by eapply (wf_uniq _ Hw).
    + destruct Hv' as (σ & H1 & H2 & _). destruct (H1 _ _ Hi), (H1 _ _ Hj).
      apply H2; [done..|]. by eapply (wf_uniq _ Hw).
    + rewrite Hrest in Hi, Hj by done. by eapply (wf_uniq _ Hw).
  - intros a b a' b' q. rewrite !without_edge_adjP. intros (? & _) (? & _).
    by eapply (wf_ptr _ Hw).
Qed.
End WithoutEdge.

(** What [removeEdge] does to an existing edge. *)
Lemma removeEdge_found u v p g :
  wf g → adjP g u v p →
  ∃ g', removeEdge u (findEdge g u v) g = Ok g' ∧ wf g' ∧
    length (nodes g') = length (nodes g) ∧ edge_mem g' = edge_mem g ∧
    (∀ n, active g' n = active g n) ∧ (∀ n, getData g' n = getData g n) ∧
    (∀ n, n ≠ u → n ≠ v → edges g' n = edges g n) ∧
    (∀ a b q, adjP g' a b q ↔ adjP g a b q ∧ ¬ (a = u ∧ b = v) ∧ ¬ (a = v ∧ b = u)).
Proof.
  intros Hw Hadj. assert (u ≠ v) as Huv by (intros ->; by eapply adjP_irrefl).
  pose proof (wf_sym _ Hw _ _ _ Hadj) as Hadj'.
  pose proof (find_found _ _ _ _ Hw Hadj) as Hiu.
  pose proof (find_found _ _ _ _ Hw Hadj') as Hiv.
  pose proof (active_lt _ _ (proj1 Hadj)). pose proof (active_lt _ _ (proj1 Hadj')).
  unfold removeEdge. cbn [Directional andb].
  rewrite (deref_findEdge _ _ _ _ Hw Hadj). cbn [mbind result_bind first].
  rewrite (findEdge_Some _ _ _ _ Hw Hadj). cbn [it_base].
  unfold erase_node. pose proof (find_lt _ _ _ _ Hw Hadj').
  destruct (Nat.eqb_spec (find g v u false) (length (edges g v))); [lia|].
  set (g1 := set_edges (delete (find g v u false) (edges g v)) v g).
  assert (edges g1 u = edges g u) as Hg1u.
  { unfold g1. rewrite edges_set_edges by done. by rewrite decide_False. }
  assert (u < length (nodes g1)) as Hlu by (unfold g1, set_edges; by rewrite length_upd).
  unfold erase_at. rewrite !Hg1u.
  destruct (list.last (edges g u)) as [back|] eqn:Hlast;
    [|apply last_None in Hlast; by rewrite Hlast in Hiu].
  cbn [get_opt mbind result_bind]. rewrite Hiu. cbn [get_opt mbind result_bind mret result_ret].
  eexists. split; [done|].
  set (g2 := set_edges _ u g1).
  assert (∀ n, active g2 n = active g n) as Hact.
  { intros n'. unfold g2, g1. by rewrite !active_set_edges. }
  assert (length (nodes g2) = length (nodes g)) as Hlen.
  { unfold g2, g1, set_edges. by rewrite !length_upd. }
  assert (without_at (find g u v false) (edges g u) (edges g2 u)) as Hwu.
  { unfold g2. rewrite edges_set_edges, decide_True by done.
    apply without_at_swap; [done|]. by eapply lookup_lt_Some. }
  assert (without_at (find g v u false) (edges g v) (edges g2 v)) as Hwv.
  { unfold g2. rewrite edges_set_edges, decide_False by done.
    unfold g1. rewrite edges_set_edges, decide_True by done. apply without_at_delete. }
  assert (∀ n, n ≠ u → n ≠ v → edges g2 n = edges g n) as Hrest.
  { intros n' ??. unfold g2. rewrite edges_set_edges, decide_False by done.
    unfold g1. by rewrite edges_set_edges, decide_False. }
  split_and!; try done.
  - by eapply (without_edge_wf u v p g g2).
  - intros n'. unfold g2, g1. by rewrite !getData_set_edges.
  - by apply (without_edge_adjP u v p g g2 (find g u v false) (find g v u false)).
Qed.
