(* ===== verification/GraphSpec.v ===== *)
(** * The contract of the graph: an undirected graph with data on its nodes and
      edges, and the refinement theorem

    The abstract graph maps the nodes that are in it to their data and the pairs
    of adjacent nodes to the data of their edge; it has no vectors, no stale
    entries and no sharing.  [spec_step] says what each operation does to it. *)
From stdpp Require Import relations.
From S2P Require Import Prelude Double NumUtils Model MorphGraph GraphFacts.

(** ** Adjacency after each operation, as a function *)

(** The pair [(a, b)] is the edge between [u] and [v]. *)
Definition same_edge (a b u v : GNode) : Prop := (a = u ∧ b = v) ∨ (a = v ∧ b = u).

#[global] Instance same_edge_dec a b u v : Decision (same_edge a b u v).
Proof. unfold same_edge. apply _. Defined.

Lemma adj_ext g g' :
  wf g → wf g' → (∀ a b q, adjP g' a b q ↔ adjP g a b q) → ∀ a b, adj g' a b = adj g a b.
Proof.
  intros Hw Hw' H a b. destruct (adj g a b) as [p|] eqn:E.
  - apply adj_Some in E; [|done]. apply adj_Some; [done|]. by apply H.
  - rewrite adj_None in E by done. apply adj_None; [done|]. intros p Hp%H. by apply E in Hp.
Qed.

Lemma with_edge_adj u v g a b :
  wf g → u ≠ v → active g u = true → active g v = true → (∀ q, ¬ adjP g u v q) →
  adj (with_edge u v g) a b =
    if decide (same_edge a b u v) then Some (length (edge_mem g)) else adj g a b.
Proof.
  intros Hw Huv Hu Hv Hno. pose proof (with_edge_wf u v g Hw Huv Hu Hv Hno) as Hw'.
  case_decide as Hs.
  - apply adj_Some; [done|]. apply with_edge_adjP; [done..|]. right. eauto.
  - destruct (adj g a b) as [p|] eqn:E.
    + apply adj_Some in E; [|done]. apply adj_Some; [done|]. apply with_edge_adjP; eauto.
    + rewrite adj_None in E by done. apply adj_None; [done|].
      intros p Hp. apply with_edge_adjP in Hp as [Hp|[_ ?]]; [by apply E in Hp|done|done..].
Qed.

Lemma without_edge_adj g g' u v a b :
  wf g → wf g' →
  (∀ a b q, adjP g' a b q ↔ adjP g a b q ∧ ¬ (a = u ∧ b = v) ∧ ¬ (a = v ∧ b = u)) →
  adj g' a b = if decide (same_edge a b u v) then None else adj g a b.
Proof.
  intros Hw Hw' H. case_decide as Hs.
  - apply adj_None; [done|]. intros p Hp%H. unfold same_edge in Hs. tauto.
  - destruct (adj g a b) as [p|] eqn:E.
    + apply adj_Some in E; [|done]. apply adj_Some; [done|]. apply H.
      unfold same_edge in Hs. tauto.
    + rewrite adj_None in E by done. apply adj_None; [done|].
      intros p [Hp _]%H. by apply E in Hp.
Qed.

Lemma removeNode_adj n g a b :
  wf g → active g n = true →
  adj (removeNode n g) a b = if decide (a = n ∨ b = n) then None else adj g a b.
Proof.
  intros Hw Hn. pose proof (removeNode_wf n g Hn Hw) as Hw'. case_decide as Hs.
  - apply adj_None; [done|]. intros p Hp. apply removeNode_adjP in Hp; [|done]. tauto.
  - destruct (adj g a b) as [p|] eqn:E.
    + apply adj_Some in E; [|done]. apply adj_Some; [done|]. apply removeNode_adjP; tauto.
    + rewrite adj_None in E by done. apply adj_None; [done|].
      intros p Hp. apply removeNode_adjP in Hp as [Hp _]; [|done]. by apply E in Hp.
Qed.

(** The data of an edge that is not touched. *)
Lemma upd_mem_data f p g a b :
  edge_data (upd_mem f p g) a b =
    if decide (adj g a b = Some p) then f <$> edge_data g a b else edge_data g a b.
Proof.
  unfold edge_data. rewrite (same_shape_adj g) by apply upd_mem_shape. simpl.
  destruct (adj g a b) as [q|]; simpl; [|done]. case_decide as Hq.
  - injection Hq as ->. by rewrite list_lookup_alter_eq.
  - by rewrite list_lookup_alter_ne by congruence.
Qed.

Lemma adj_ptr_same g u v a b p :
  wf g → adj g u v = Some p → adj g a b = Some p ↔ same_edge a b u v.
Proof.
  intros Hw Hp. split.
  - intros Ha. apply adj_Some in Hp, Ha; [|done..].
    destruct (wf_ptr _ Hw _ _ _ _ _ Ha Hp) as [[-> ->]|[-> ->]]; [by left|by right].
  - intros [[-> ->]|[-> ->]]; [done|]. by rewrite adj_sym.
Qed.

Lemma with_edge_edge_data u v g a b :
  wf g → u ≠ v → active g u = true → active g v = true → (∀ q, ¬ adjP g u v q) →
  edge_data (with_edge u v g) a b =
    if decide (same_edge a b u v) then Some EdgeData0 else edge_data g a b.
Proof.
  intros Hw Huv Hu Hv Hno. unfold edge_data. rewrite with_edge_adj by done.
  case_decide as Hs; simpl.
  - by rewrite lookup_app_r, Nat.sub_diag.
  - destruct (adj g a b) as [q|] eqn:E; simpl; [|done].
    apply adj_Some in E; [|done]. apply old_ptr_lt in E; [|done].
    by rewrite lookup_app_l.
Qed.

(** ** The abstract graph *)

Record AGraph := mkAGraph {
  a_node : GNode → option NodeData;
  a_edge : GNode → GNode → option EdgeData;
}.

Definition abs (g : Graph) : AGraph :=
  mkAGraph (λ n, if active g n then Some (getData g n) else None) (edge_data g).

(** The operations of the graph that the program uses. *)
Inductive gop :=
  | OpNode (d : NodeData)
  | OpAddEdge (u v : GNode)
  | OpSetEdge (u v : GNode) (f : EdgeData → EdgeData)
  | OpRemoveEdge (u v : GNode)
  | OpRemoveNode (n : GNode)
  | OpSetData (n : GNode) (f : NodeData → NodeData).

Definition run_op (o : gop) (g : Graph) : result Graph :=
  match o with
  | OpNode d => let '(n, g) := createNode d g in mret (addNode n g)
  | OpAddEdge u v => mret (addEdge u v g).2
  | OpSetEdge u v f => updEdgeData f (findEdge g u v) g
  | OpRemoveEdge u v => removeEdge u (findEdge g u v) g
  | OpRemoveNode n => mret (removeNode n g)
  | OpSetData n f => mret (updData f n g)
  end.

Definition op_pre (o : gop) (A : AGraph) : Prop :=
  match o with
  | OpNode d => True
  | OpAddEdge u v => u ≠ v ∧ is_Some (a_node A u) ∧ is_Some (a_node A v)
  | OpSetEdge u v _ | OpRemoveEdge u v => is_Some (a_edge A u v)
  | OpRemoveNode n | OpSetData n _ => is_Some (a_node A n)
  end.

(** What each operation promises. *)
Definition spec_step (A : AGraph) (o : gop) (A' : AGraph) : Prop :=
  match o with
  | OpNode d => ∃ n, a_node A n = None ∧ (∀ b, a_edge A n b = None) ∧
      (∀ m, a_node A' m = if decide (m = n) then Some d else a_node A m) ∧
      (∀ a b, a_edge A' a b = a_edge A a b)
  | OpAddEdge u v =>
      (∀ m, a_node A' m = a_node A m) ∧
      (∀ a b, a_edge A' a b =
        if decide (same_edge a b u v)
        then Some (default EdgeData0 (a_edge A a b)) else a_edge A a b)
  | OpSetEdge u v f =>
      (∀ m, a_node A' m = a_node A m) ∧
      (∀ a b, a_edge A' a b =
        if decide (same_edge a b u v) then f <$> a_edge A a b else a_edge A a b)
  | OpRemoveEdge u v =>
      (∀ m, a_node A' m = a_node A m) ∧
      (∀ a b, a_edge A' a b = if decide (same_edge a b u v) then None else a_edge A a b)
  | OpRemoveNode n =>
      (∀ m, a_node A' m = if decide (m = n) then None else a_node A m) ∧
      (∀ a b, a_edge A' a b = if decide (a = n ∨ b = n) then None else a_edge A a b)
  | OpSetData n f =>
      (∀ m, a_node A' m = if decide (m = n) then f <$> a_node A n else a_node A m) ∧
      (∀ a b, a_edge A' a b = a_edge A a b)
  end.

(** ** Refinement *)

Lemma abs_node_Some g n : is_Some (a_node (abs g) n) ↔ active g n = true.
Proof. simpl. destruct (active g n); split; by try intros [? ?]. Qed.

Lemma abs_edge_adjP g u v : wf g → is_Some (a_edge (abs g) u v) ↔ ∃ p, adjP g u v p.
Proof.
  intros Hw. simpl. unfold edge_data. split.
  - intros [d Hd]. apply bind_Some in Hd as (p & Hp & _). exists p. by apply adj_Some.
  - intros [p Hp]. destruct (adjP_mem _ _ _ _ Hw Hp) as [d Hd].
    apply adj_Some in Hp; [|done]. rewrite Hp. simpl. eauto.
Qed.

Lemma run_addEdge u v g :
  wf g → u ≠ v → active g u = true → active g v = true →
  wf (addEdge u v g).2 ∧ spec_step (abs g) (OpAddEdge u v) (abs (addEdge u v g).2).
Proof.
  intros Hw Huv Hu Hv. destruct (adj g u v) as [p|] eqn:E.
  - assert (adjP g u v p) as Hp by (by apply adj_Some).
    rewrite (addEdge_existing _ _ _ _ Hw Hp). split; [done|]. split; [done|].
    intros a b. simpl. case_decide as Hs; [|done].
    unfold edge_data. apply (adj_ptr_same _ _ _ a b _ Hw E) in Hs. rewrite Hs.
    simpl. by destruct (adjP_mem _ _ _ _ Hw Hp) as [d ->].
  - rewrite adj_None in E by done. rewrite addEdge_new by done. cbn [snd].
    split; [by apply with_edge_wf|]. split.
    + intros m. simpl. by rewrite with_edge_active, with_edge_data.
    + intros a b. cbn [abs a_edge]. rewrite with_edge_edge_data by done.
      case_decide as Hs; [|done]. f_equal. unfold edge_data.
      assert (adj g a b = None) as ->; [|done].
      apply adj_None; [done|]. intros q Hq.
      destruct Hs as [[-> ->]|[-> ->]]; [by apply E in Hq|].
      apply (wf_sym _ Hw) in Hq. by apply E in Hq.
Qed.

Lemma run_setEdge u v f g p :
  wf g → adjP g u v p →
  updEdgeData f (findEdge g u v) g = Ok (upd_mem f p g) ∧
  spec_step (abs g) (OpSetEdge u v f) (abs (upd_mem f p g)).
Proof.
  intros Hw Hp. split.
  - unfold updEdgeData. rewrite (deref_findEdge _ _ _ _ Hw Hp). cbn. by rewrite (proj1 Hp).
  - split; [done|]. intros a b. cbn [abs a_edge]. rewrite upd_mem_data.
    apply adj_Some in Hp; [|done]. pose proof (adj_ptr_same _ _ _ a b _ Hw Hp) as Heq.
    repeat case_decide; tauto.
Qed.

Lemma run_removeEdge u v g p :
  wf g → adjP g u v p →
  ∃ g', removeEdge u (findEdge g u v) g = Ok g' ∧ wf g' ∧
    spec_step (abs g) (OpRemoveEdge u v) (abs g').
Proof.
  intros Hw Hp.
  destruct (removeEdge_found _ _ _ _ Hw Hp) as (g' & Hr & Hw' & _ & Hm & Ha & Hd & _ & Hadj).
  exists g'. split_and!; [done|done|]. split.
  - intros m. simpl. by rewrite Ha, Hd.
  - intros a b. cbn [abs a_edge]. unfold edge_data.
    rewrite (without_edge_adj g g' u v) by done. rewrite Hm. by case_decide.
Qed.

Lemma run_removeNode n g :
  wf g → active g n = true → spec_step (abs g) (OpRemoveNode n) (abs (removeNode n g)).
Proof.
  intros Hw Hn. split.
  - intros m. simpl. rewrite removeNode_active, removeNode_data by done. by case_decide.
  - intros a b. cbn [abs a_edge]. unfold edge_data.
    rewrite removeNode_adj, removeNode_mem by done. by case_decide.
Qed.

Lemma run_setData n f g :
  wf g → active g n = true → spec_step (abs g) (OpSetData n f) (abs (updData f n g)).
Proof.
  intros Hw Hn. split.
  - intros m. simpl. rewrite active_updData, getData_updData by (by apply active_lt).
    case_decide; subst; [by rewrite Hn|done].
  - intros a b. cbn [abs a_edge]. unfold edge_data.
    by rewrite (same_shape_adj g) by apply updData_shape.
Qed.

Lemma run_newNode d g :
  wf g → spec_step (abs g) (OpNode d) (abs (new_node d g)).
Proof.
  intros Hw. exists (length (nodes g)). split_and!.
  - simpl. by rewrite new_node_fresh.
  - intros b. simpl. unfold edge_data.
    assert (adj g (length (nodes g)) b = None) as ->; [|done].
    apply adj_None; [done|]. intros p Hp.
    apply adjP_active_l in Hp; [|done]. by rewrite new_node_fresh in Hp.
  - intros m. simpl. rewrite new_node_active, new_node_data. by case_decide.
  - intros a b. simpl. unfold edge_data. by rewrite new_node_adj.
Qed.

(** Sequences of operations, concrete and abstract. *)
Fixpoint run_ops (os : list gop) (g : Graph) : result Graph :=
  match os with
  | [] => mret g
  | o :: os' => g' ← run_op o g; run_ops os' g'
  end.

(** An operation that the contract permits. *)
Definition graph_step (g g' : Graph) : Prop := ∃ o, op_pre o (abs g) ∧ run_op o g = Ok g'.

Lemma run_op_refines (o : gop) (g : Graph) :
  wf g → op_pre o (abs g) → ∃ g', run_op o g = Ok g' ∧ wf g' ∧ spec_step (abs g) o (abs g').
Proof.
  intros Hw Hpre. destruct o as [d|u v|u v f|u v|n|n f]; simpl in Hpre.
  - exists (new_node d g). split_and!; [done|by apply new_node_wf|by apply run_newNode].
  - destruct Hpre as (? & Hu%abs_node_Some & Hv%abs_node_Some).
    destruct (run_addEdge u v g) as [??]; eauto.
  - apply abs_edge_adjP in Hpre as [p Hp]; [|done].
    destruct (run_setEdge u v f g p Hw Hp) as [Hr Hs].
    exists (upd_mem f p g). split_and!; [done| |done].
    eapply same_shape_wf; [apply upd_mem_shape|done].
  - apply abs_edge_adjP in Hpre as [p Hp]; [|done]. by eapply run_removeEdge.
  - apply abs_node_Some in Hpre. exists (removeNode n g).
    split_and!; [done|by apply removeNode_wf|by apply run_removeNode].
  - apply abs_node_Some in Hpre. exists (updData f n g).
    split_and!; [done| |by apply run_setData].
    eapply same_shape_wf; [apply updData_shape|done].
Qed.
Lemma empty_graph_wf : wf empty_graph.
Proof.
  assert (∀ u, edges empty_graph u = []) as He by done.
  assert (∀ u v p, ¬ adjP empty_graph u v p) as Ha.
  { intros u v p [H _]. done. }
  split; try done; intros *; rewrite ?He; try (by intros ?%elem_of_nil); try done.
  all: intros H; by apply Ha in H.
Qed.
Lemma graph_steps_wf g : rtc graph_step empty_graph g → wf g.
Proof.
  revert g. apply rtc_ind_r; [apply empty_graph_wf|]. intros g g' _ (o & Hpre & Hr) Hw.
  destruct (run_op_refines o g Hw Hpre) as (g'' & Hr' & ? & _). rewrite Hr in Hr'. by injection Hr' as ->.
Qed.

(** C4: the graph implements its contract.  On a graph that satisfies the
    representation invariant, every operation whose precondition holds of the
    abstract graph returns, keeps the invariant, and changes the abstract graph
    as its specification says; [findEdge] reports an edge exactly when the
    abstract graph has one, and then [getEdgeData] reads its data. *)
Theorem graph_refines (o : gop) (g : Graph) :
  wf g → op_pre o (abs g) →
  (∃ g', run_op o g = Ok g' ∧ wf g' ∧ spec_step (abs g) o (abs g')) ∧
  (∀ u v, it_end g (findEdge g u v) = bool_decide (a_edge (abs g) u v = None)) ∧
  (∀ u v d, a_edge (abs g) u v = Some d → getEdgeData g (findEdge g u v) = Ok d).
Proof.
  intros Hw Hpre. split_and!.
  - by apply run_op_refines.
  - intros u v. rewrite findEdge_end by done. simpl. unfold edge_data.
    destruct (adj g u v) as [p|] eqn:E; simpl; [|done].
    apply adj_Some in E; [|done]. destruct (adjP_mem _ _ _ _ Hw E) as [d ->].
    done.
  - intros u v d Hd. simpl in Hd. unfold edge_data in Hd.
    apply bind_Some in Hd as (p & Hp & Hd). apply adj_Some in Hp; [|done].
    rewrite (getEdgeData_findEdge _ _ _ _ Hw Hp). by rewrite Hd.
Qed.

(** C5: the graph is well typed.  Whatever sequence of permitted operations has built it from
    the empty graph, it satisfies the representation invariant (every entry of an edge vector
    refers to a node and to an edge datum that exist, a removed node has no entries, there are
    no loops and no doubled edges, and the two entries of an edge share its datum), the next
    permitted operation does not fail, and what clients see is a simple undirected graph on
    the nodes that are in it. *)
Theorem graph_well_typed (g : Graph) :
  rtc graph_step empty_graph g →
  wf g ∧
  (∀ o, op_pre o (abs g) → ∃ g', run_op o g = Ok g') ∧
  ∀ u v d, a_edge (abs g) u v = Some d →
    u ≠ v ∧ a_edge (abs g) v u = Some d ∧ is_Some (a_node (abs g) u) ∧ is_Some (a_node (abs g) v).
Proof.
  intros Hw%graph_steps_wf. split_and!; [done| |].
  - intros o Hpre. destruct (run_op_refines o g Hw Hpre) as (g' & ? & _). eauto.
  - intros u v d. cbn [abs a_edge a_node]. unfold edge_data. rewrite !bind_Some. intros (p & Hp & Hd).
    pose proof Hp as Hp'. apply adj_Some in Hp'; [|done]. pose proof (wf_sym _ Hw _ _ _ Hp') as Hs. split_and!.
    + intros ->. destruct Hp' as [_ Hin]. by apply (wf_noloop _ Hw) in Hin.
    + exists p. split; [|done]. by rewrite adj_sym.
    + destruct Hs as [-> _]. eauto.
    + destruct Hp' as [-> _]. eauto.
Qed.

(** A graph with one edge, for the witnesses. *)
Definition two_nodes : Graph :=
  match run_ops [OpNode (NodeData_vertex false Coordinates0 false);
                 OpNode (NodeData_vertex false Coordinates0 true);
                 OpAddEdge 0 1] empty_graph with
  | Ok g => g
  | Err _ => empty_graph
  end.

Lemma two_nodes_wf : wf two_nodes.
Proof.
  change two_nodes with
    (addEdge 0 1 (new_node (NodeData_vertex false Coordinates0 true)
      (new_node (NodeData_vertex false Coordinates0 false) empty_graph))).2.
  apply run_addEdge; [|done|done|done].
  apply new_node_wf, new_node_wf, empty_graph_wf.
Qed.

Lemma graph_refines_witness :
  (∃ g', run_op (OpRemoveEdge 1 0) two_nodes = Ok g' ∧ wf g' ∧
     spec_step (abs two_nodes) (OpRemoveEdge 1 0) (abs g')) ∧
  (∀ u v, it_end two_nodes (findEdge two_nodes u v) =
     bool_decide (a_edge (abs two_nodes) u v = None)) ∧
  (∀ u v d, a_edge (abs two_nodes) u v = Some d →
     getEdgeData two_nodes (findEdge two_nodes u v) = Ok d).
Proof.
  apply (graph_refines (OpRemoveEdge 1 0) two_nodes); [exact two_nodes_wf|].
  vm_compute. eexists. reflexivity.
Defined.

(** An edge, and a node that is removed. *)
Lemma graph_well_typed_witness :
  ∃ g, rtc graph_step empty_graph g ∧ active g 0 = false ∧ length (edges g 1) = 1 ∧ wf g.
Proof.
  set (d := NodeData_vertex false Coordinates0 false).
  assert (rtc graph_step empty_graph (removeNode 0 (addEdge 0 1 (new_node d (new_node d empty_graph))).2)) as Hr.
  { eapply rtc_l; [exists (OpNode d); split; [exact I|reflexivity]|].
    eapply rtc_l; [exists (OpNode d); split; [exact I|reflexivity]|].
    eapply rtc_l; [exists (OpAddEdge 0 1); split; [split_and!; [done|by eexists..]|reflexivity]|].
    eapply rtc_l; [exists (OpRemoveNode 0); split; [by eexists|reflexivity]|]. apply rtc_refl. }
  eexists. split; [exact Hr|]. split; [reflexivity|]. split; [reflexivity|].
  apply (graph_well_typed _ Hr).
Defined.
