(* ===== verification/Connectivity.v ===== *)
(** * [src/utils/ConnectivityManager.h]

    The state of an operator of the parallel loop is the graph and the work
    pushed to its [UserContext].  Methods that only read the graph are functions
    of it; the others run in the state monad over [World]. *)
From S2P Require Import Prelude Double NumUtils Model MorphGraph GraphFacts.

Record World := mkWorld { w_graph : Graph; w_ctx : list GNode }.

(** [ctx.push(node)] *)
Definition push (n : GNode) : st World unit :=
  modify (λ w, mkWorld (w_graph w) (w_ctx w ++ [n])).

Definition get_graph : st World Graph := gets w_graph.

(** A read of the graph, and a change of it. *)
Definition graph_reads {A} (f : Graph → result A) : st World A := reads (λ w, f (w_graph w)).
Definition graph_modify (f : Graph → Graph) : st World unit :=
  modify (λ w, mkWorld (f (w_graph w)) (w_ctx w)).
Definition graph_call {A} (f : Graph → A * Graph) : st World A := λ w,
  let '(a, g) := f (w_graph w) in Ok (a, mkWorld g (w_ctx w)).
Definition graph_try (f : Graph → result Graph) : st World unit := λ w,
  match f (w_graph w) with Ok g => Ok (tt, mkWorld g (w_ctx w)) | Err e => Err e end.

(** ** Reading *)

Definition getNeighbours (g : Graph) (node : GNode) : list GNode :=
  first <$> out_edges g node.

Definition convertToOptionalEdge (g : Graph) (edge : EdgeIterator) : option EdgeIterator :=
  if it_end g edge then None else Some edge.

Definition getEdge (g : Graph) (v1 v2 : GNode) : option EdgeIterator :=
  convertToOptionalEdge g (findEdge g v1 v2).

Definition getTriangleEdges (g : Graph) (vertices : list GNode)
    : result (list (option EdgeIterator)) :=
  mapM (λ i : nat,
    v1 ← get_opt (vertices !! i);
    v2 ← get_opt (vertices !! ((i + 1) mod 3)%nat);
    mret (getEdge g v1 v2)) [0; 1; 2].

Definition countBrokenEdges (edges : list (option EdgeIterator)) : nat :=
  foldl (λ counter edge, match edge with None => S counter | Some _ => counter end) 0 edges.

Definition hasBrokenEdge (edges : list (option EdgeIterator)) : bool :=
  Nat.ltb 0 (countBrokenEdges edges).

(** The inner loop of [findNodeBetween] on a candidate [iNode]. *)
Definition node_between_here (g : Graph) (expectedLocation : Coordinates)
    (neighbours2 : list GNode) (iNode : GNode) : bool :=
  existsb (λ jNode, Nat.eqb iNode jNode &&
                    isXYequal (getCoords (getData g iNode)) expectedLocation) neighbours2.

Definition findNodeBetween (g : Graph) (node1 node2 : GNode) : option GNode :=
  let expectedLocation :=
    coords_div (coords_plus (getCoords (getData g node1)) (getCoords (getData g node2)))
               (of_Z 2) in
  let neighbours1 := getNeighbours g node1 in
  let neighbours2 := getNeighbours g node2 in
  List.find (node_between_here g expectedLocation neighbours2) neighbours1.

Definition getVerticesCoords (g : Graph) (node : GNode) : list Coordinates :=
  (λ n, getCoords (getData g n)) <$> getNeighbours g node.

(** ** Writing *)

(** [createNode(nodeData)] and [createNode(nodeData, ctx)] *)
Definition cm_createNode (nodeData : NodeData) : st World GNode :=
  node ← graph_call (createNode nodeData);
  graph_modify (addNode node);;
  mret node.

Definition cm_createNode_ctx (nodeData : NodeData) : st World GNode :=
  node ← cm_createNode nodeData;
  push node;;
  mret node.

Definition cm_createEdge (node1 node2 : GNode) (border : bool)
    (middlePoint : Coordinates) (length : double) : st World unit :=
  _ ← graph_call (addEdge node1 node2);
  g ← get_graph;
  let edge := findEdge g node1 node2 in
  graph_try (updEdgeData (setBorder border) edge);;
  graph_try (updEdgeData (setMiddlePoint middlePoint) edge);;
  graph_try (updEdgeData (setLength length) edge).

(** The part [createInterior] with and without a context have in common. *)
Definition connectInterior (interior node1 node2 node3 : GNode) : st World unit :=
  _ ← graph_call (addEdge interior node1);
  _ ← graph_call (addEdge interior node2);
  _ ← graph_call (addEdge interior node3);
  g ← get_graph;
  graph_modify (updData (setCoords
    (coords_div (coords_plus (coords_plus (getCoords (getData g node1))
                                          (getCoords (getData g node2)))
                             (getCoords (getData g node3))) (of_Z 3))) interior).

Definition cm_createInterior_ctx (node1 node2 node3 : GNode) : st World unit :=
  interior ← cm_createNode_ctx (NodeData_interior true false);
  connectInterior interior node1 node2 node3.

Definition cm_createInterior (node1 node2 node3 : GNode) : st World GNode :=
  interior ← cm_createNode (NodeData_interior true false);
  connectInterior interior node1 node2 node3;;
  mret interior.

(** Prints a message and does nothing when there is no edge. *)
Definition cm_removeEdge (node1 node2 : GNode) : st World unit :=
  g ← get_graph;
  let edge1 := findEdge g node1 node2 in
  if negb (it_end g edge1) then graph_try (removeEdge node1 edge1)
  else
    let edge2 := findEdge g node2 node1 in
    if negb (it_end g edge2) then graph_try (removeEdge node2 edge2)
    else mret tt.
