(* ===== verification/ConnFacts.v ===== *)
(** * Facts about [ConnectivityManager] *)
From S2P Require Import Prelude Double NumUtils Model MorphGraph GraphFacts GraphSpec.
From S2P Require Import Connectivity.

(** ** Neighbours *)

Lemma elem_of_out_edges g n e :
  e ∈ out_edges g n ↔ is_out_edge g e = true ∧ e ∈ edges g n.
Proof. unfold out_edges. by rewrite list_elem_of_filter. Qed.

Lemma getNeighbours_adjP g u v : wf g → v ∈ getNeighbours g u ↔ ∃ p, adjP g u v p.
Proof.
  intros Hw. unfold getNeighbours. rewrite list_elem_of_fmap. split.
  - intros (e & -> & He). apply elem_of_out_edges in He as [Ho He].
    unfold is_out_edge in Ho. apply andb_prop in Ho as [Ha _].
    exists (second e). by apply live_entry.
  - intros (p & Ha & He). exists (mkEdgeInfo v p false). split; [done|].
    apply elem_of_out_edges. split; [|done]. unfold is_out_edge. simpl. by rewrite Ha.
Qed.

Lemma getNeighbours_NoDup g u : wf g → NoDup (getNeighbours g u).
Proof.
  intros Hw. unfold getNeighbours, out_edges.
  assert (∀ i j e e', edges g u !! i = Some e → edges g u !! j = Some e' →
    first e = first e' → active g (first e) = true → i = j) as Huniq by apply (wf_uniq _ Hw).
  revert Huniq. generalize (edges g u). intros l. induction l as [|x l IH]; intros Huniq.
  { constructor. }
  assert (NoDup (first <$> filter (λ e, is_out_edge g e = true) l)) as Hl.
  { apply IH. intros i j e e' Hi Hj He Ha.
    assert (S i = S j) by (by eapply Huniq). lia. }
  rewrite filter_cons. case_decide as Hx; [|done]. rewrite fmap_cons. constructor; [|done].
  intros Hin. apply list_elem_of_fmap in Hin as (e & He & Hin).
  apply list_elem_of_filter in Hin as [_ Hin]. apply list_elem_of_lookup in Hin as [j Hj].
  unfold is_out_edge in Hx. apply andb_prop in Hx as [Hx _].
  assert (0 = S j); [|lia]. by eapply (Huniq 0 (S j) x e).
Qed.

(** The neighbours of a node depend on its vector and on which of the entries
    are live. *)
Lemma getNeighbours_frame g g' n :
  edges g' n = edges g n →
  (∀ e, e ∈ edges g n → active g' (first e) = active g (first e)) →
  getNeighbours g' n = getNeighbours g n.
Proof.
  intros He Ha. unfold getNeighbours, out_edges. rewrite He. f_equal.
  apply list_filter_ext_in. intros e Hin. unfold is_out_edge. by rewrite Ha.
Qed.

Lemma getNeighbours_all_live g n l :
  edges g n = l → (∀ e, e ∈ l → active g (first e) = true ∧ isInEdge e = false) →
  getNeighbours g n = first <$> l.
Proof.
  intros He Hl. unfold getNeighbours, out_edges. rewrite He. f_equal. clear He.
  induction l as [|e l IH]; [done|]. rewrite filter_cons, decide_True.
  - f_equal. apply IH. intros e' ?. apply Hl. by right.
  - destruct (Hl e) as [Ha Hf]; [by left|]. unfold is_out_edge. by rewrite Ha, Hf.
Qed.

(** ** [getEdge] and [findNodeBetween] *)

Lemma getEdge_adj g u v :
  wf g → getEdge g u v = match adj g u v with
                         | Some _ => Some (mkIter u (find g u v false))
                         | None => None
                         end.
Proof.
  intros Hw. unfold getEdge, convertToOptionalEdge. rewrite findEdge_end by done.
  destruct (adj g u v) as [p|] eqn:E; [|done].
  apply adj_Some in E; [|done]. by rewrite (findEdge_Some _ _ _ _ Hw E).
Qed.

Definition midpoint (g : Graph) (a b : GNode) : Coordinates :=
  coords_div (coords_plus (getCoords (getData g a)) (getCoords (getData g b))) (of_Z 2).

(** [n] is adjacent to both and stands at the middle, as seen from above. *)
Definition is_between (g : Graph) (a b n : GNode) : Prop :=
  is_Some (adj g a n) ∧ is_Some (adj g b n) ∧
  isXYequal (getCoords (getData g n)) (midpoint g a b) = true.

Lemma node_between_here_spec g loc l n :
  node_between_here g loc l n = true ↔
  n ∈ l ∧ isXYequal (getCoords (getData g n)) loc = true.
Proof.
  unfold node_between_here. rewrite existsb_exists. split.
  - intros (j & Hj & H). apply andb_prop in H as [He Hx]. apply Nat.eqb_eq in He. subst.
    by apply list_elem_of_In in Hj.
  - intros [Hn Hx]. exists n. rewrite <- list_elem_of_In.
    split; [done|]. by rewrite Nat.eqb_refl, Hx.
Qed.

Lemma neighbour_adj g a n : wf g → n ∈ getNeighbours g a ↔ is_Some (adj g a n).
Proof.
  intros Hw. rewrite getNeighbours_adjP by done. unfold is_Some.
  by setoid_rewrite (adj_Some g a n _ Hw).
Qed.

Lemma findNodeBetween_Some g a b n :
  wf g → findNodeBetween g a b = Some n → is_between g a b n.
Proof.
  intros Hw H. unfold findNodeBetween in H. apply List.find_some in H as [Hin H].
  apply list_elem_of_In, neighbour_adj in Hin; [|done].
  apply node_between_here_spec in H as [Hin2 Hx].
  apply neighbour_adj in Hin2; [|done]. by split_and!.
Qed.

Lemma findNodeBetween_None g a b :
  wf g → findNodeBetween g a b = None → ∀ n, ¬ is_between g a b n.
Proof.
  intros Hw H n (Ha & Hb & Hx). unfold findNodeBetween in H.
  eapply List.find_none in H; [|apply list_elem_of_In, neighbour_adj; [done|exact Ha]].
  assert (node_between_here g (midpoint g a b) (getNeighbours g b) n = true) as H2;
    [|unfold midpoint in H2; congruence].
  apply node_between_here_spec. split; [by apply neighbour_adj|done].
Qed.



Lemma countBrokenEdges_length l :
  countBrokenEdges l = length (filter (λ o, o = None) l).
Proof.
  unfold countBrokenEdges.
  assert (∀ n, foldl (λ counter edge, match edge with None => S counter | Some _ => counter end) n l
    = n + length (filter (λ o : option EdgeIterator, o = None) l)) as H; [|by rewrite H].
  induction l as [|[it|] l IH]; intros n; cbn [foldl]; [simpl; lia|..].
  - rewrite IH. by rewrite filter_cons, decide_False.
  - rewrite IH. rewrite filter_cons, decide_True by done. simpl. lia.
Qed.
