(* ===== verification/Conditions.v ===== *)
(** * [src/conditions/]: which triangles to refine

    [DummyConditionChecker] marks every triangle, [TerrainConditionChecker] those
    from which the terrain deviates.  The two loops of [inside_condition] step a
    [double]; they run on fuel and end in [Diverge] without it. *)
From S2P Require Import Prelude Double Libm Utm NumUtils Model TerrainMap MorphGraph.
From S2P Require Import GraphFacts GraphSpec Connectivity ConnFacts.

(** [DummyConditionChecker::execute] *)
Definition Dummy_execute (node : GNode) (g : Graph) : bool * Graph :=
  if negb (isHyperEdge (getData g node)) then (false, g)
  else (true, updData (setToRefine true) node g).

(** ** Barycentric coordinates *)

Local Open Scope double_scope.

Definition get_area (a b c : Coordinates) : double :=
  lit 1 2 * fabs ((getX b - getX a) * (getY c - getY a) - (getY b - getY a) * (getX c - getX a)).

Definition compute_barycentric_coords (point v0 v1 v2 : Coordinates) : double * double * double :=
  let triangle_area := get_area v0 v1 v2 in
  let c2 := get_area point v0 v1 / triangle_area in
  let c1 := get_area point v2 v0 / triangle_area in
  let c0 := get_area point v1 v2 / triangle_area in
  (c0, c1, c2).

Definition is_inside_triangle (b : double * double * double) : bool :=
  let '(b0, b1, b2) := b in negb (greater (b0 + b1 + b2) #1).

(** ** The scan of the bounding box *)

(** [for (double i = i0; i <= high; i += step) if (body(i)) return true;
    return false;] *)
Fixpoint scan {S} (fuel : nat) (i high step : double) (body : double → st S bool) : st S bool :=
  match fuel with
  | O => λ _, Err Diverge
  | Datatypes.S fuel' =>
      if i <=? high then
        found ← body i;
        if (found : bool) then mret true else scan fuel' (i + step) high step body
      else mret false
  end.

(** The smallest and the greatest of three, as the code compares them. *)
Definition lowest (a b c : double) : double :=
  let l := if a <? b then a else b in if c <? l then c else l.
Definition highest (a b c : double) : double :=
  let h := if a >? b then a else b in if c >? h then c else h.

Section Terrain.
Context `{Libm}.

(** The body of the inner loop: the terrain is too far from the triangle here. *)
Definition too_far (tolerance : double) (m : Map) (v0 v1 v2 : Coordinates) (i j : double)
    : st Utm bool :=
  let '(b0, b1, b2) := compute_barycentric_coords (mkCoordinates i j #0) v0 v1 v2 in
  if is_inside_triangle (b0, b1, b2) then
    let height := #0 + b0 * getZ v0 + b1 * getZ v1 + b2 * getZ v2 in
    h ← get_height m i j;
    mret (fabs (height - h) >? tolerance)
  else mret false.

Definition inside_condition (fuel : nat) (tolerance : double) (m : Map)
    (verticesCoords : list Coordinates) : st Utm bool :=
  v0 ← lift (get_opt (verticesCoords !! 0));
  v1 ← lift (get_opt (verticesCoords !! 1));
  v2 ← lift (get_opt (verticesCoords !! 2));
  let lowest_x := lowest (getX v0) (getX v1) (getX v2) in
  let highest_x := highest (getX v0) (getX v1) (getX v2) in
  let lowest_y := lowest (getY v0) (getY v1) (getY v2) in
  let highest_y := highest (getY v0) (getY v1) (getY v2) in
  let step := if isUtm m then #90 else cell_width m in
  scan fuel lowest_x highest_x step (λ i,
    scan fuel lowest_y highest_y step (λ j, too_far tolerance m v0 v1 v2 i j)).

(** [TerrainConditionChecker::execute]; the state is the graph and the
    projection. *)
Definition Terrain_execute (fuel : nat) (tolerance : double) (m : Map) (node : GNode)
    : st (Graph * Utm) bool := λ gu,
  let '(g, u) := gu in
  if negb (isHyperEdge (getData g node)) then Ok (false, (g, u))
  else
    r ← inside_condition fuel tolerance m (getVerticesCoords g node) u;
    if negb r.1 then Ok (false, (g, r.2))
    else Ok (true, (updData (setToRefine true) node g, r.2)).
End Terrain.

(** ** What the scan looks at *)

(** The first [n] values of the loop variable. *)
Fixpoint grid (n : nat) (i step : double) : list double :=
  match n with O => [] | S n' => i :: grid n' (i + step) step end.

(** The loop variable is within [high] for exactly [n] values. *)
Fixpoint stops_after (n : nat) (i high step : double) : bool :=
  match n with
  | O => negb (i <=? high)
  | S n' => (i <=? high) && stops_after n' (i + step) high step
  end.

(** A scan with enough fuel finds a value that satisfies [p], if there is one on
    the grid. *)
Lemma scan_run {S} (P : S → Prop) (p : double → bool) body n fuel i high step s :
  (∀ x s, x ∈ grid n i step → P s → ∃ s', body x s = Ok (p x, s') ∧ P s') →
  stops_after n i high step = true → n < fuel → P s →
  ∃ s', scan fuel i high step body s = Ok (existsb p (grid n i step), s') ∧ P s'.
Proof.
  revert fuel i s. induction n as [|n IH]; intros fuel i s Hb Hst Hf Hs;
    (destruct fuel as [|fuel]; [lia|]); simpl in *.
  - rewrite negb_true_iff in Hst. rewrite Hst. exists s. done.
  - apply andb_prop in Hst as [-> Hst]. destruct (Hb i s) as (s1 & Hr & Hs1); [by left|done|].
    unfold mbind, st_bind. rewrite Hr. destruct (p i); [by exists s1|]. simpl.
    apply IH; [intros x s0 Hx; apply Hb; by right|done|lia|done].
Qed.

(** Integer-valued bounds and step: the number of values. *)
Lemma stops_after_int n i high step a h s :
  is_int i a → is_int high h → is_int step s →
  (0 < s < 2 ^ 50)%Z → (- 2 ^ 50 < a)%Z → (h < 2 ^ 50)%Z → (a <= h + s)%Z →
  Z.of_nat n = ((h - a + s) / s)%Z → stops_after n i high step = true.
Proof.
  intros Hi Hh Hs Hs0. revert i a Hi. induction n as [|n IH]; intros i a Hi Ha Hhb Has Hn; simpl.
  - apply negb_true_iff. unfold dle. rewrite (is_int_compare _ _ _ _ Hi Hh).
    assert (h < a)%Z.
    { destruct (Z_lt_le_dec h a); [done|].
      assert (1 <= (h - a + s) / s)%Z by (apply Z.div_le_lower_bound; lia). lia. }
    rewrite (proj2 (Z.compare_gt_iff a h)) by lia. done.
  - assert (a <= h)%Z as Hle.
    { destruct (Z_lt_le_dec h a); [|done]. rewrite Z.div_small in Hn by lia. lia. }
    rewrite andb_true_iff. split.
    + unfold dle. rewrite (is_int_compare _ _ _ _ Hi Hh).
      destruct (Z.compare_spec a h); try done. lia.
    + apply (IH (i + step) (a + s)%Z); [apply dadd_is_int; [done..|]|lia..| |]; try lia.
      replace (h - a + s)%Z with (h - (a + s) + s + 1 * s)%Z in Hn by lia.
      rewrite Z.div_add in Hn by lia. lia.
Qed.

(** The triangle [v0], [v1], [v2] covers ([i], [j]) up to the tolerance of
    [is_inside_triangle], and its plane is more than [tolerance] away from the
    height [h] there. *)
Definition deviates (tolerance : double) (v0 v1 v2 : Coordinates) (i j h : double) : bool :=
  let '(b0, b1, b2) := compute_barycentric_coords (mkCoordinates i j #0) v0 v1 v2 in
  is_inside_triangle (b0, b1, b2) &&
  (fabs (#0 + b0 * getZ v0 + b1 * getZ v1 + b2 * getZ v2 - h) >? tolerance).

(** C33: [TerrainConditionChecker::execute] on a triangle, with a map that answers
    every query of the grid with a height ([height]) and with as much fuel as the grid has
    rows and columns, succeeds: it sets the refinement flag and returns [true]
    exactly when the terrain deviates from the triangle by more than the
    tolerance at some point of the grid that starts at the lower left corner of
    the bounding box, and changes nothing else. *)
Theorem terrain_execute_marks `{Libm} (tolerance : double) (m : Map) (P : Utm → Prop)
    (height : double → double → double) (g : Graph) (u : Utm) (node a b c : GNode)
    (fuel nx ny : nat) :
  let v0 := getCoords (getData g a) in
  let v1 := getCoords (getData g b) in
  let v2 := getCoords (getData g c) in
  let step := if isUtm m then #90 else cell_width m in
  let x0 := lowest (getX v0) (getX v1) (getX v2) in
  let y0 := lowest (getY v0) (getY v1) (getY v2) in
  isHyperEdge (getData g node) = true → getNeighbours g node = [a; b; c] →
  (∀ i j u, i ∈ grid nx x0 step → j ∈ grid ny y0 step → P u →
     ∃ u', get_height m i j u = Ok (height i j, u') ∧ P u') → P u →
  stops_after nx x0 (highest (getX v0) (getX v1) (getX v2)) step = true →
  stops_after ny y0 (highest (getY v0) (getY v1) (getY v2)) step = true →
  nx < fuel → ny < fuel →
  ∃ u', P u' ∧
    if existsb (λ i, existsb (λ j, deviates tolerance v0 v1 v2 i j (height i j))
                       (grid ny y0 step)) (grid nx x0 step)
    then Terrain_execute fuel tolerance m node (g, u) =
           Ok (true, (updData (setToRefine true) node g, u'))
    else Terrain_execute fuel tolerance m node (g, u) = Ok (false, (g, u')).
Proof.
  intros v0 v1 v2 step x0 y0 Hh Hn Hm Hu Hx Hy Hfx Hfy.
  assert (∀ i j u, i ∈ grid nx x0 step → j ∈ grid ny y0 step → P u → ∃ u', too_far tolerance m v0 v1 v2 i j u =
    Ok (deviates tolerance v0 v1 v2 i j (height i j), u') ∧ P u') as Hbody.
  { intros i j u0 Hi Hj Hu0. unfold too_far, deviates.
    destruct (compute_barycentric_coords _ v0 v1 v2) as [[b0 b1] b2].
    destruct (is_inside_triangle (b0, b1, b2)); [|by exists u0].
    destruct (Hm i j u0 Hi Hj Hu0) as (u' & Hr & Hu'). exists u'. split; [|done].
    unfold mbind, st_bind. rewrite Hr. done. }
  destruct (scan_run P (λ i, existsb (λ j, deviates tolerance v0 v1 v2 i j (height i j)) (grid ny y0 step))
    (λ i, scan fuel y0 (highest (getY v0) (getY v1) (getY v2)) step
            (λ j, too_far tolerance m v0 v1 v2 i j)) nx fuel x0
    (highest (getX v0) (getX v1) (getX v2)) step u) as (u' & Hr & Hu'); [|done..|].
  { intros i s Hi Hs. apply (scan_run P (λ j, deviates tolerance v0 v1 v2 i j (height i j)));
      [intros; by apply Hbody|done..]. }
  exists u'. split; [done|]. unfold Terrain_execute. rewrite Hh. cbn [negb].
  unfold getVerticesCoords. rewrite Hn.
  assert (inside_condition fuel tolerance m ((λ n, getCoords (getData g n)) <$> [a; b; c]) u =
    Ok (existsb (λ i, existsb (λ j, deviates tolerance v0 v1 v2 i j (height i j)) (grid ny y0 step))
          (grid nx x0 step), u')) as -> by exact Hr.
  cbn [mbind result_bind fst snd]. by destruct (existsb _ _).
Qed.

(** A triangle ten units above a flat map. *)
Definition above_ground : Graph :=
  let v x y := NodeData_vertex false (mkCoordinates #x #y #10) false in
  match (n0 ← cm_createNode (v 0%Z 0%Z);
         n1 ← cm_createNode (v 2%Z 0%Z);
         n2 ← cm_createNode (v 0%Z 2%Z);
         cm_createInterior n0 n1 n2) (mkWorld empty_graph []) with
  | Ok (_, w) => w_graph w
  | Err _ => empty_graph
  end.

Definition flat_map : Map :=
  setUtm false (new_Map (written_matrix [[#0; #0]; [#0; #0]]) 2 2 #1 #1).

Lemma terrain_execute_marks_witness :
  ∃ u', @Terrain_execute Libm_zero 5 #1 flat_map 3 (above_ground, Utm_init) =
    Ok (true, (updData (setToRefine true) 3 above_ground, u')).
Proof.
  pose proof (@terrain_execute_marks Libm_zero #1 flat_map (λ u, u = Utm_init) (λ _ _, #0)
    above_ground Utm_init 3 0 1 2 5 3 3) as Hw.
  cbv zeta in Hw. destruct Hw as (u' & -> & Hw).
  - vm_compute. reflexivity.
  - vm_compute. reflexivity.
  - intros i j u Hi Hj ->. exists Utm_init. split; [|reflexivity].
    apply list_elem_of_In in Hi, Hj. vm_compute in Hi, Hj.
    destruct Hi as [<-|[<-|[<-|[]]]], Hj as [<-|[<-|[<-|[]]]]; vm_compute; reflexivity.
  - reflexivity.
  - vm_compute. reflexivity.
  - vm_compute. reflexivity.
  - lia.
  - lia.
  - exists Utm_init. vm_compute in Hw |- *. exact Hw.
Defined.
