(* ===== verification/Production.v ===== *)
(** * [src/model/ProductionState.h] and the base class [src/productions/Production.h] *)
From S2P Require Import Prelude Double NumUtils Model MorphGraph GraphFacts Connectivity.

(** ** [ProductionState] *)

(** The triangle a production looks at.  [verticesData], [edgesData] and
    [lengths] are copies made when the state is built; [interiorData] is a
    reference to the data of [interior] in the graph. *)
Record ProductionState := mkPState {
  interior : GNode;
  verticesData : list NodeData;
  vertices : list GNode;
  edgesIterators : list (option EdgeIterator);
  edgesData : list (option EdgeData);
  lengths : list double;
  brokenEdges : list nat;
  version2D : bool;
  zGetter : double → double → result double;
}.

(** The body of the constructor's loop for the side [i]. *)
Definition pstate_side (g : Graph) (ei : list (option EdgeIterator)) (i : nat)
    : result (option EdgeData * double) :=
  maybeEdgeIter ← get_opt (ei !! i);
  match maybeEdgeIter with
  | Some it => d ← getEdgeData g it; mret (Some d, getLength d)
  | None => mret (None, of_Z (-1))
  end.

Definition mkProductionState (g : Graph) (interior : GNode) (version2D : bool)
    (zGetter : double → double → result double) : result ProductionState :=
  let vertices := getNeighbours g interior in
  edgesIterators ← getTriangleEdges g vertices;
  sides ← mapM (pstate_side g edgesIterators) [0; 1; 2];
  verticesData ← mapM (λ i, v ← get_opt (vertices !! i); mret (getData g v)) [0; 1; 2];
  mret {| interior := interior;
          verticesData := verticesData;
          vertices := vertices;
          edgesIterators := edgesIterators;
          edgesData := fst <$> sides;
          lengths := snd <$> sides;
          brokenEdges :=
            filter (λ i, edgesIterators !! i = Some None) [0; 1; 2];
          version2D := version2D;
          zGetter := zGetter |}.

Definition nth_length (ps : ProductionState) (i : nat) : double :=
  default (of_Z 0) (lengths ps !! i).

Definition getLongestEdges (ps : ProductionState) : list nat :=
  filter (λ i,
    negb (less (nth_length ps i) (nth_length ps ((i + 1) mod 3))) &&
    negb (less (nth_length ps i) (nth_length ps ((i + 2) mod 3))) = true) [0; 1; 2].

(** [-1] is [None]. *)
Definition getAnyBrokenEdge (ps : ProductionState) : option nat := head (brokenEdges ps).

Definition getLongestEdgesIncludingBrokenOnes (ps : ProductionState) : result (list nat) :=
  verticesDistances ← mapM (λ i,
    v1 ← get_opt (verticesData ps !! i);
    v2 ← get_opt (verticesData ps !! ((i + 1) mod 3)%nat);
    mret (dist (getCoords v1) (getCoords v2) (version2D ps))) [0; 1; 2];
  mret (indexesOfMaxElems verticesDistances).

(** ** [Production] *)

Definition getEdgeVertices (edge : nat) : nat * nat := (edge, (edge + 1) mod 3).
Definition getNeutralVertex (edgeToBreak : nat) : nat := (edgeToBreak + 2) mod 3.

(** [pState.getVertices()[i]] and [pState.getVerticesData()[i]] *)
Definition vertex (ps : ProductionState) (i : nat) : result GNode := get_opt (vertices ps !! i).
Definition vertexData (ps : ProductionState) (i : nat) : result NodeData :=
  get_opt (verticesData ps !! i).

(** The body of the loop of [checkIfBrokenEdgeIsTheLongest]: the four lengths and
    the index [j] of the next unbroken side. *)
Definition longest_side (g : Graph) (brokenEdge : nat) (ps : ProductionState)
    (acc : list double * nat) (i : nat) : result (list double * nat) :=
  let '(lens, j) := acc in
  if negb (Nat.eqb i brokenEdge) then
    mit ← get_opt (edgesIterators ps !! i);
    it ← opt_get mit;
    d ← getEdgeData g it;
    mret (<[j := getLength d]> lens, S j)
  else
    let '(a, b) := getEdgeVertices brokenEdge in
    va ← vertex ps a;
    vb ← vertex ps b;
    hangingNode ← opt_get (findNodeBetween g va vb);
    d1 ← getEdgeData g (findEdge g va hangingNode);
    d2 ← getEdgeData g (findEdge g vb hangingNode);
    mret (<[3 := getLength d2]> (<[2 := getLength d1]> lens), j).

Definition checkIfBrokenEdgeIsTheLongest (g : Graph) (brokenEdge : nat) (ps : ProductionState)
    : result bool :=
  let lens0 := replicate 4 (of_Z 0) in
  acc0 ← longest_side g brokenEdge ps (lens0, 0) 0;
  acc1 ← longest_side g brokenEdge ps acc0 1;
  acc2 ← longest_side g brokenEdge ps acc1 2;
  let len i := default (of_Z 0) (acc2.1 !! i) in
  mret (negb (less (dadd (len 2) (len 3)) (len 0)) &&
        negb (less (dadd (len 2) (len 3)) (len 1))).

Definition getHangingNode (g : Graph) (edgeToBreak : nat) (ps : ProductionState) : result GNode :=
  let '(a, b) := getEdgeVertices edgeToBreak in
  va ← vertex ps a;
  vb ← vertex ps b;
  opt_get (findNodeBetween g va vb).

Definition getNewPointCoords (coords1 coords2 : Coordinates)
    (zGetter : double → double → result double) : result Coordinates :=
  let x := ddiv (dadd (getX coords1) (getX coords2)) (of_Z 2) in
  let y := ddiv (dadd (getY coords1) (getY coords2)) (of_Z 2) in
  z ← zGetter x y;
  mret (mkCoordinates x y z).

(** [Production::addEdge] *)
Definition prod_addEdge (node1 node2 : GNode) (border : bool) (length : double)
    (middlePoint : Coordinates) : st World unit :=
  newEdge ← graph_call (addEdge node1 node2);
  graph_try (updEdgeData (setBorder border) newEdge);;
  graph_try (updEdgeData (setLength length) newEdge);;
  graph_try (updEdgeData (setMiddlePoint middlePoint) newEdge).

(** The body of the loop of [createNodeOnEdge] that joins the new node to the
    vertex [i]. *)
Definition joinNewNode (ps : ProductionState) (newNode : GNode) (newNodeData : NodeData)
    (breakingOnBorder : bool) (neutralVertex : nat) (i : nat) : st World unit :=
  vdata ← lift (vertexData ps i);
  v ← lift (vertex ps i);
  edge ← graph_call (addEdge newNode v);
  graph_try (updEdgeData (setBorder
    (if negb (Nat.eqb i neutralVertex) then breakingOnBorder else false)) edge);;
  graph_try (updEdgeData (setMiddlePoint (mkCoordinates
    (ddiv (dadd (getX (getCoords newNodeData)) (getX (getCoords vdata))) (of_Z 2))
    (ddiv (dadd (getY (getCoords newNodeData)) (getY (getCoords vdata))) (of_Z 2))
    (ddiv (dadd (getZ (getCoords newNodeData)) (getZ (getCoords vdata))) (of_Z 2)))) edge);;
  graph_try (updEdgeData (setLength
    (dist (getCoords newNodeData) (getCoords vdata) (version2D ps))) edge).

Definition createNodeOnEdge (edgeToBreak : nat) (ps : ProductionState) : st World GNode :=
  med ← lift (get_opt (edgesData ps !! edgeToBreak));
  ed ← lift (opt_get med);
  let breakingOnBorder := isBorder ed in
  let neutralVertex := getNeutralVertex edgeToBreak in
  let '(a, b) := getEdgeVertices edgeToBreak in
  va ← lift (vertex ps a);
  vb ← lift (vertex ps b);
  cm_removeEdge va vb;;
  da ← lift (vertexData ps a);
  db ← lift (vertexData ps b);
  newPointCoords ← lift (getNewPointCoords (getCoords da) (getCoords db) (zGetter ps));
  let newNodeData := NodeData_vertex false newPointCoords (negb breakingOnBorder) in
  newNode ← graph_call (createNode newNodeData);
  graph_modify (addNode newNode);;
  push newNode;;
  joinNewNode ps newNode newNodeData breakingOnBorder neutralVertex 0;;
  joinNewNode ps newNode newNodeData breakingOnBorder neutralVertex 1;;
  joinNewNode ps newNode newNodeData breakingOnBorder neutralVertex 2;;
  mret newNode.

Definition breakElementUsingNode (edgeToBreak : nat) (hangingNode : GNode)
    (ps : ProductionState) : st World unit :=
  let '(a, b) := getEdgeVertices edgeToBreak in
  let neutralVertex := getNeutralVertex edgeToBreak in
  g ← get_graph;
  let hNodeData := getData g hangingNode in
  dn ← lift (vertexData ps neutralVertex);
  vn ← lift (vertex ps neutralVertex);
  let length := dist (getCoords hNodeData) (getCoords dn) (version2D ps) in
  prod_addEdge hangingNode vn false length
    (coords_div (coords_plus (getCoords hNodeData) (getCoords dn)) (of_Z 2));;
  va ← lift (vertex ps a);
  vb ← lift (vertex ps b);
  cm_createInterior_ctx hangingNode vn va;;
  cm_createInterior_ctx hangingNode vn vb;;
  graph_modify (removeNode (interior ps)).

Definition breakElementWithHangingNode (edgeToBreak : nat) (ps : ProductionState)
    : st World unit :=
  hangingNode ← graph_reads (λ g, getHangingNode g edgeToBreak ps);
  breakElementUsingNode edgeToBreak hangingNode ps;;
  graph_modify (updData (setHanging false) hangingNode).

Definition breakElementWithoutHangingNode (edgeToBreak : nat) (ps : ProductionState)
    : st World unit :=
  newNode ← createNodeOnEdge edgeToBreak ps;
  breakElementUsingNode edgeToBreak newNode ps.
