(* ===== verification/Mesh.v ===== *)
(** * The mesh invariant, and what the building blocks of the productions do to
      the graph *)
From stdpp Require Import sets.
From S2P Require Import Prelude Double NumUtils Model MorphGraph GraphFacts GraphSpec.
From S2P Require Import Connectivity ConnFacts Production.

(** ** Changes that keep the nodes *)

(** The nodes and their data stay, and only the vectors of the nodes of [S] may change. *)
Record keeps_nodes (S : list GNode) (g g' : Graph) : Prop := {
  kn_wf : wf g';
  kn_length : length (nodes g') = length (nodes g);
  kn_active n : active g' n = active g n;
  kn_data n : getData g' n = getData g n;
  kn_edges n : n ∉ S → edges g' n = edges g n;
}.

Lemma keeps_nodes_trans S g g1 g2 :
  keeps_nodes S g g1 → keeps_nodes S g1 g2 → keeps_nodes S g g2.
Proof.
  intros H1 H2. split.
  - apply (kn_wf _ _ _ H2).
  - by rewrite (kn_length _ _ _ H2), (kn_length _ _ _ H1).
  - intros n. by rewrite (kn_active _ _ _ H2), (kn_active _ _ _ H1).
  - intros n. by rewrite (kn_data _ _ _ H2), (kn_data _ _ _ H1).
  - intros n Hn. by rewrite (kn_edges _ _ _ H2), (kn_edges _ _ _ H1).
Qed.

Lemma keeps_nodes_weaken S S' g g' :
  (∀ n, n ∈ S → n ∈ S') → keeps_nodes S g g' → keeps_nodes S' g g'.
Proof. intros Hs H. split; try apply H. intros n Hn. apply (kn_edges _ _ _ H). naive_solver. Qed.

(** The data of the edge between [u] and [v] becomes [d]; other edges stay. *)
Definition edge_set (u v : GNode) (d : option EdgeData) (g g' : Graph) : Prop :=
  ∀ a b, edge_data g' a b = if decide (same_edge a b u v) then d else edge_data g a b.

Lemma edge_data_sym g a b : wf g → edge_data g a b = edge_data g b a.
Proof. intros Hw. unfold edge_data. by rewrite adj_sym. Qed.

Lemma edge_data_adj g a b : wf g → is_Some (edge_data g a b) ↔ is_Some (adj g a b).
Proof.
  intros Hw. unfold edge_data. split.
  - intros [d Hd]. apply bind_Some in Hd as (p & Hp & _). eauto.
  - intros [p Hp]. rewrite Hp. simpl. apply adj_Some in Hp; [|done].
    destruct (adjP_mem _ _ _ _ Hw Hp) as [d Hd]. eauto.
Qed.

(** ** Adding an edge and filling in its data *)

(** What [addEdge] leaves: an iterator at the edge, whose data is the old one or
    the default. *)
Lemma addEdge_run u v g :
  wf g → u ≠ v → active g u = true → active g v = true →
  ∃ i p g', addEdge u v g = (mkIter u i, g') ∧ keeps_nodes [u; v] g g' ∧
    edges g' u !! i = Some (mkEdgeInfo v p false) ∧
    edge_set u v (Some (default EdgeData0 (edge_data g u v))) g g'.
Proof.
  intros Hw Huv Hu Hv. destruct (adj g u v) as [p|] eqn:E.
  - assert (adjP g u v p) as Hp by (by apply adj_Some).
    rewrite (addEdge_existing _ _ _ _ Hw Hp). eexists _, p, g. split; [done|].
    split_and!; [by split|by apply find_found|].
    intros a b. case_decide as Hs; [|done].
    apply (adj_ptr_same _ _ _ a b _ Hw E) in Hs.
    unfold edge_data. rewrite Hs, E. simpl.
    by destruct (adjP_mem _ _ _ _ Hw Hp) as [d ->].
  - rewrite adj_None in E by done. rewrite addEdge_new by done.
    eexists _, _, (with_edge u v g). split; [done|]. split_and!.
    + split; [by apply with_edge_wf|by apply with_edge_length|
              by apply with_edge_active|by apply with_edge_data|].
      intros n Hn. rewrite with_edge_edges by done. rewrite !decide_False; [done|set_solver..].
    + by apply with_edge_new_u.
    + intros a b. rewrite with_edge_edge_data by done. case_decide; [|done].
      unfold edge_data at 1. apply adj_None in E; [|done]. by rewrite E.
Qed.

Lemma updEdgeData_run f u v i p d g :
  wf g → active g v = true → edges g u !! i = Some (mkEdgeInfo v p false) →
  edge_data g u v = Some d →
  ∃ g', updEdgeData f (mkIter u i) g = Ok g' ∧ keeps_nodes [] g g' ∧
    (∀ n, edges g' n = edges g n) ∧ edge_set u v (Some (f d)) g g'.
Proof.
  intros Hw Hv Hi Hd.
  assert (adjP g u v p) as Hp by (split; [done|]; by eapply list_elem_of_lookup_2).
  exists (upd_mem f p g). split_and!.
  - unfold updEdgeData, deref. simpl. rewrite Hi. simpl. by rewrite Hv.
  - split; try done. eapply same_shape_wf; [apply upd_mem_shape|done].
  - done.
  - apply adj_Some in Hp; [|done]. intros a b. rewrite upd_mem_data.
    pose proof (adj_ptr_same _ _ _ a b _ Hw Hp) as Heq.
    destruct (decide (adj g a b = Some p)) as [Ha|Ha].
    + rewrite decide_True by (by apply Heq).
      assert (edge_data g a b = edge_data g u v) as ->
        by (unfold edge_data; by rewrite Ha, Hp). by rewrite Hd.
    + rewrite decide_False; [done|]. tauto.
Qed.

(** [addEdge] followed by three assignments to the data of the new edge. *)
Lemma add_and_fill u v f1 f2 f3 g ctx :
  wf g → u ≠ v → active g u = true → active g v = true →
  ∃ g', (edge ← graph_call (addEdge u v);
         graph_try (updEdgeData f1 edge);;
         graph_try (updEdgeData f2 edge);;
         graph_try (updEdgeData f3 edge)) (mkWorld g ctx) = Ok (tt, mkWorld g' ctx) ∧
    keeps_nodes [u; v] g g' ∧
    edge_set u v (Some (f3 (f2 (f1 (default EdgeData0 (edge_data g u v)))))) g g'.
Proof.
  intros Hw Huv Hu Hv.
  destruct (addEdge_run u v g) as (i & p & g1 & Hadd & Hk1 & Hi1 & Hs1); [done..|].
  assert (∀ g h d f, keeps_nodes [u; v] g h → active g v = true →
    edges h u !! i = Some (mkEdgeInfo v p false) → edge_set u v (Some d) g h →
    ∃ h', updEdgeData f (mkIter u i) h = Ok h' ∧ keeps_nodes [u; v] g h' ∧
      edges h' u !! i = Some (mkEdgeInfo v p false) ∧ edge_set u v (Some (f d)) g h') as Hupd.
  { intros g0 h d f Hk Ha Hi Hs.
    destruct (updEdgeData_run f u v i p d h) as (h' & Hr & Hk' & He & Hs').
    - apply Hk.
    - by rewrite (kn_active _ _ _ Hk).
    - done.
    - by rewrite Hs, decide_True by (by left).
    - exists h'. split_and!; [done| |by rewrite He|].
      + eapply keeps_nodes_trans; [done|]. eapply keeps_nodes_weaken; [|done]. set_solver.
      + intros a b. rewrite Hs'. case_decide; [done|]. rewrite Hs. by rewrite decide_False. }
  destruct (Hupd _ _ _ f1 Hk1 Hv Hi1 Hs1) as (g2 & Hr2 & Hk2 & Hi2 & Hs2).
  destruct (Hupd _ _ _ f2 Hk2 Hv Hi2 Hs2) as (g3 & Hr3 & Hk3 & Hi3 & Hs3).
  destruct (Hupd _ _ _ f3 Hk3 Hv Hi3 Hs3) as (g4 & Hr4 & Hk4 & Hi4 & Hs4).
  exists g4. split_and!; [|done|done].
  unfold mbind, st_bind, graph_call, graph_try. simpl. rewrite Hadd. simpl.
  rewrite Hr2. simpl. rewrite Hr3. simpl. by rewrite Hr4.
Qed.

Lemma prod_addEdge_run u v border len mid g ctx :
  wf g → u ≠ v → active g u = true → active g v = true →
  ∃ g', prod_addEdge u v border len mid (mkWorld g ctx) = Ok (tt, mkWorld g' ctx) ∧
    keeps_nodes [u; v] g g' ∧ edge_set u v (Some (mkEdgeData border len mid)) g g'.
Proof.
  intros. destruct (add_and_fill u v (setBorder border) (setLength len) (setMiddlePoint mid) g ctx)
    as (g' & Hr & Hk & Hs); [done..|].
  exists g'. split_and!; [exact Hr|done|]. by destruct mid.
Qed.

(** ** Changes that may add nodes *)

(** The nodes of [g] stay with their data, and of their vectors only those of the
    nodes of [S] may change. *)
Record extends (S : list GNode) (g g' : Graph) : Prop := {
  ex_wf : wf g';
  ex_length : length (nodes g) ≤ length (nodes g');
  ex_active n : n < length (nodes g) → active g' n = active g n;
  ex_data n : n < length (nodes g) → getData g' n = getData g n;
  ex_edges n : n < length (nodes g) → n ∉ S → edges g' n = edges g n;
}.

Lemma keeps_nodes_extends S g g' : keeps_nodes S g g' → extends S g g'.
Proof.
  intros H. split; try apply H.
  - by rewrite (kn_length _ _ _ H).
  - intros n _. apply H.
  - intros n _. apply H.
  - intros n _. apply H.
Qed.

Lemma extends_trans S S' g g1 g2 :
  extends S g g1 → extends S' g1 g2 →
  (∀ n, n < length (nodes g) → n ∈ S' → n ∈ S) → extends S g g2.
Proof.
  intros H1 H2 HS. pose proof (ex_length _ _ _ H1). split.
  - apply H2.
  - pose proof (ex_length _ _ _ H2). lia.
  - intros n Hn. rewrite (ex_active _ _ _ H2) by lia. by apply H1.
  - intros n Hn. rewrite (ex_data _ _ _ H2) by lia. by apply H1.
  - intros n Hn HnS. rewrite (ex_edges _ _ _ H2); [by apply H1|lia|naive_solver].
Qed.

Lemma extends_weaken S S' g g' :
  (∀ n, n ∈ S → n ∈ S') → extends S g g' → extends S' g g'.
Proof. intros HS H. split; try apply H. intros n Hn HnS. apply H; naive_solver. Qed.

Lemma new_node_extends d g : wf g → extends [] g (new_node d g).
Proof.
  intros Hw. split.
  - by apply new_node_wf.
  - rewrite new_node_length. lia.
  - intros n Hn. rewrite new_node_active, decide_False by lia. done.
  - intros n Hn. rewrite new_node_data, decide_False by lia. done.
  - intros n _ _. by rewrite new_node_edges.
Qed.

Lemma extends_neighbours S g g' h :
  wf g → extends S g g' → h < length (nodes g) → h ∉ S →
  getNeighbours g' h = getNeighbours g h.
Proof.
  intros Hw He Hh HS. apply getNeighbours_frame; [by apply He|].
  intros e Hin. apply He. by apply (wf_range _ Hw) in Hin as (? & _ & _).
Qed.

(** ** Nodes without reused slots: the neighbours in the order of insertion *)

Definition live_list (g : Graph) (u : GNode) (l : list GNode) : Prop :=
  first <$> edges g u = l ∧ ∀ x, x ∈ l → active g x = true.

Lemma live_list_neighbours g u l : wf g → live_list g u l → getNeighbours g u = l.
Proof.
  intros Hw [<- Hl]. apply getNeighbours_all_live; [done|].
  intros e He. split.
  - apply Hl. by apply list_elem_of_fmap_2.
  - by apply (wf_range _ Hw) in He as (_ & _ & ?).
Qed.

Lemma live_list_adj g u l v : wf g → live_list g u l → is_Some (adj g u v) ↔ v ∈ l.
Proof. intros Hw H. by rewrite <- (neighbour_adj g u v Hw), (live_list_neighbours _ _ _ Hw H). Qed.

Lemma addEdge_live u v l g :
  wf g → live_list g u l → v ∉ l → u ≠ v → active g u = true → active g v = true →
  ∃ it g', addEdge u v g = (it, g') ∧ keeps_nodes [u; v] g g' ∧ live_list g' u (l ++ [v]) ∧
    edge_set u v (Some EdgeData0) g g'.
Proof.
  intros Hw Hl Hv Huv Hau Hav.
  assert (adj g u v = None) as Hno.
  { destruct (adj g u v) eqn:E; [|done]. destruct Hv. by apply (live_list_adj g u l v), mk_is_Some with (x := n). }
  rewrite adj_None in Hno by done.
  destruct (addEdge_run u v g) as (i & p & g' & Hadd & Hk & _ & Hs); [done..|].
  exists (mkIter u i), g'. split_and!; [done|done| |].
  - rewrite addEdge_new in Hadd by done. injection Hadd as _ <-. destruct Hl as [<- Hl]. split.
    + rewrite with_edge_edges by done. rewrite decide_True by done.
      rewrite put_entry_no_holes; [cbn [fst]; by rewrite fmap_app|].
      intros x Hx. apply Hl. by apply list_elem_of_fmap_2.
    + intros x Hx. rewrite with_edge_active by done.
      apply elem_of_app in Hx as [Hx| ->%list_elem_of_singleton]; [by apply Hl|done].
  - apply adj_None in Hno; [|done]. unfold edge_data in Hs at 1. by rewrite Hno in Hs.
Qed.

Lemma edge_set_trans_other u v d g g' a b :
  edge_set u v d g g' → a ≠ u → b ≠ u → edge_data g' a b = edge_data g a b.
Proof. intros Hs Ha Hb. rewrite Hs, decide_False; [done|]. unfold same_edge. naive_solver. Qed.

(** ** Creating the interior of a triangle *)

Definition centre (g : Graph) (n1 n2 n3 : GNode) : Coordinates :=
  coords_div (coords_plus (coords_plus (getCoords (getData g n1)) (getCoords (getData g n2)))
                          (getCoords (getData g n3))) (of_Z 3).

(** The data of the interior that [createInterior] makes. *)
Definition interior_data (g : Graph) (n1 n2 n3 : GNode) : NodeData :=
  setCoords (centre g n1 n2 n3) (NodeData_interior true false).

(** [g'] is [g] with the new interior [n] of the triangle [n1], [n2], [n3]. *)
Record has_interior (n n1 n2 n3 : GNode) (g g' : Graph) : Prop := {
  hi_extends : extends [n1; n2; n3] g g';
  hi_node : n = length (nodes g);
  hi_length : length (nodes g') = S n;
  hi_active : active g' n = true;
  hi_data : getData g' n = interior_data g n1 n2 n3;
  hi_neighbours : getNeighbours g' n = [n1; n2; n3];
  hi_edges a b : edge_data g' a b =
    if decide (a = n ∧ b ∈ [n1; n2; n3] ∨ b = n ∧ a ∈ [n1; n2; n3]) then Some EdgeData0
    else edge_data g a b;
}.

Lemma new_node_edge_data d g a b :
  wf g → edge_data (new_node d g) a b = edge_data g a b.
Proof. intros Hw. unfold edge_data. by rewrite new_node_adj. Qed.

Lemma updData_edge_data f n g a b : edge_data (updData f n g) a b = edge_data g a b.
Proof. unfold edge_data. by rewrite (same_shape_adj g) by apply updData_shape. Qed.

Lemma connectInterior_run n n1 n2 n3 g ctx :
  wf g → NoDup [n1; n2; n3] → n = length (nodes g) →
  active g n1 = true → active g n2 = true → active g n3 = true →
  ∃ g', connectInterior n n1 n2 n3 (mkWorld (new_node (NodeData_interior true false) g) ctx) =
          Ok (tt, mkWorld g' ctx) ∧ has_interior n n1 n2 n3 g g'.
Proof.
  intros Hw Hnd Hn H1 H2 H3. set (g0 := new_node (NodeData_interior true false) g).
  pose proof (active_lt _ _ H1). pose proof (active_lt _ _ H2). pose proof (active_lt _ _ H3).
  pose proof (new_node_extends (NodeData_interior true false) g Hw : extends [] g g0) as Hx0.
  assert (live_list g0 n []) as Hl0.
  { split; [|by intros ? ?%elem_of_nil]. unfold g0. rewrite new_node_edges, Hn.
    by rewrite new_node_no_edges. }
  assert (active g0 n = true) as Hn0 by (unfold g0; by rewrite new_node_active, decide_True).
  assert (∀ m, active g m = true → active g0 m = true) as Ha0.
  { intros m Hm. rewrite (ex_active _ _ _ Hx0); [done|by apply active_lt]. }
  rewrite !list.NoDup_cons in Hnd.
  destruct (addEdge_live n n1 [] g0) as (i1 & g1 & E1 & K1 & L1 & S1);
    [apply Hx0|done|by apply not_elem_of_nil|lia|done|by apply Ha0|].
  destruct (addEdge_live n n2 [n1] g1) as (i2 & g2 & E2 & K2 & L2 & S2);
    [apply K1|done|set_solver|lia|rewrite (kn_active _ _ _ K1); auto..|].
  destruct (addEdge_live n n3 [n1; n2] g2) as (i3 & g3 & E3 & K3 & L3 & S3);
    [apply K2|done|set_solver|lia|rewrite (kn_active _ _ _ K2), (kn_active _ _ _ K1); auto..|].
  set (K := [n; n1; n2; n3]).
  assert (keeps_nodes K g0 g3) as HK.
  { eapply keeps_nodes_trans; [eapply keeps_nodes_trans|];
      (eapply keeps_nodes_weaken; [|eassumption]); set_solver. }
  set (c := coords_div (coords_plus (coords_plus (getCoords (getData g3 n1)) (getCoords (getData g3 n2))) (getCoords (getData g3 n3))) (of_Z 3)).
  exists (updData (setCoords c) n g3). split.
  { unfold connectInterior, mbind, st_bind, graph_call, graph_modify, get_graph, gets, modify.
    cbn [w_graph w_ctx]. fold g0. rewrite E1. cbn [w_graph w_ctx]. rewrite E2. cbn [w_graph w_ctx].
    rewrite E3. reflexivity. }
  assert (length (nodes g3) = S n) as Hlen.
  { rewrite (kn_length _ _ _ HK). unfold g0. rewrite new_node_length. by rewrite Hn. }
  assert (∀ m, m < n → getData g3 m = getData g m) as Hd3.
  { intros m Hm. rewrite (kn_data _ _ _ HK). apply (ex_data _ _ _ Hx0). lia. }
  split.
  - split.
    + eapply same_shape_wf; [apply updData_shape|apply K3].
    + rewrite (ss_nodes _ _ (updData_shape _ _ _)). lia.
    + intros m Hm. rewrite active_updData, (kn_active _ _ _ HK). by apply Hx0.
    + intros m Hm. rewrite getData_updData, decide_False by lia. apply Hd3. lia.
    + intros m Hm HmS. rewrite edges_updData, (kn_edges _ _ _ HK); [by apply Hx0, not_elem_of_nil|].
      unfold K. set_unfold. naive_solver lia.
  - done.
  - by rewrite (ss_nodes _ _ (updData_shape _ _ _)).
  - by rewrite active_updData, (kn_active _ _ _ HK).
  - rewrite getData_updData, decide_True by (done || lia).
    unfold interior_data, centre, c. rewrite !Hd3, (kn_data _ _ _ HK) by lia.
    unfold g0. by rewrite new_node_data, decide_True.
  - rewrite (getNeighbours_frame g3); [|apply edges_updData|intros; apply active_updData].
    apply live_list_neighbours; [apply K3|done].
  - intros a b. rewrite updData_edge_data, S3, S2, S1. unfold g0. rewrite new_node_edge_data by done.
    unfold same_edge. repeat case_decide; set_unfold; naive_solver.
Qed.

Lemma cm_createInterior_ctx_run n n1 n2 n3 g ctx :
  wf g → NoDup [n1; n2; n3] → n = length (nodes g) →
  active g n1 = true → active g n2 = true → active g n3 = true →
  ∃ g', cm_createInterior_ctx n1 n2 n3 (mkWorld g ctx) = Ok (tt, mkWorld g' (ctx ++ [n])) ∧
    has_interior n n1 n2 n3 g g'.
Proof.
  intros Hw Hnd Hn H1 H2 H3.
  destruct (connectInterior_run n n1 n2 n3 g (ctx ++ [n])) as (g' & Hr & Hi); [done..|].
  exists g'. split; [|done]. rewrite <- Hr. by rewrite Hn.
Qed.

Lemma cm_createInterior_run n n1 n2 n3 g ctx :
  wf g → NoDup [n1; n2; n3] → n = length (nodes g) →
  active g n1 = true → active g n2 = true → active g n3 = true →
  ∃ g', cm_createInterior n1 n2 n3 (mkWorld g ctx) = Ok (n, mkWorld g' ctx) ∧
    has_interior n n1 n2 n3 g g'.
Proof.
  intros Hw Hnd Hn H1 H2 H3.
  destruct (connectInterior_run n n1 n2 n3 g ctx) as (g' & Hr & Hi); [done..|].
  exists g'. split; [|done]. unfold cm_createInterior, mbind, st_bind.
  change (cm_createNode (NodeData_interior true false) (mkWorld g ctx)) with
    (Ok (length (nodes g), mkWorld (new_node (NodeData_interior true false) g) ctx)).
  cbn iota. rewrite <- Hn. by rewrite Hr.
Qed.

(** ** Removing nodes and edges *)

Lemma removeNode_neighbours i h g :
  wf g → active g i = true → h ≠ i → i ∉ getNeighbours g h →
  getNeighbours (removeNode i g) h = getNeighbours g h.
Proof.
  intros Hw Hi Hh Hn. apply getNeighbours_frame.
  - by rewrite removeNode_edges, decide_False.
  - intros e He. rewrite removeNode_active by done. case_decide as E; [|done].
    destruct Hn. apply getNeighbours_adjP; [done|]. exists (second e). rewrite <- E.
    apply live_entry; [done..|]. by rewrite E.
Qed.

Lemma removeNode_edge_data i g a b :
  wf g → active g i = true →
  edge_data (removeNode i g) a b = if decide (a = i ∨ b = i) then None else edge_data g a b.
Proof.
  intros Hw Hi. unfold edge_data. rewrite removeNode_adj by done. case_decide; [done|].
  by rewrite removeNode_mem.
Qed.

(** [removeEdge] of the connectivity manager: the edge, if any, is gone. *)
Lemma cm_removeEdge_run u v g ctx :
  wf g → ∃ g', cm_removeEdge u v (mkWorld g ctx) = Ok (tt, mkWorld g' ctx) ∧
    keeps_nodes [u; v] g g' ∧ edge_set u v None g g'.
Proof.
  intros Hw. unfold cm_removeEdge, mbind, st_bind, get_graph, gets. cbn [w_graph].
  rewrite !findEdge_end, (adj_sym g v u) by done. destruct (adj g u v) as [p|] eqn:E; cbn [negb].
  - apply adj_Some in E; [|done].
    destruct (removeEdge_found u v p g Hw E) as (g' & Hr & Hw' & Hl & Hm & Ha & Hd & He & Hadj).
    exists g'. unfold graph_try. cbn [w_graph w_ctx]. rewrite Hr. split_and!; [done| |].
    + split; try done. intros n Hn. apply He; set_solver.
    + intros a b. unfold edge_data. rewrite (without_edge_adj g g' u v) by done.
      rewrite Hm. by case_decide.
  - exists g. split_and!; [done|by split|]. intros a b. case_decide as Hs; [|done].
    unfold edge_data. destruct Hs as [[-> ->]|[-> ->]]; rewrite ?(adj_sym g v u) by done; by rewrite E.
Qed.

(** ** The mesh invariant *)

Definition is_interior (g : Graph) (h : GNode) : Prop :=
  active g h = true ∧ isHyperEdge (getData g h) = true.
Definition is_vertex (g : Graph) (v : GNode) : Prop :=
  active g v = true ∧ isHyperEdge (getData g v) = false.

(** Interiors have three neighbours, all of them vertices. *)
Record mesh_ok (g : Graph) : Prop := {
  mo_wf : wf g;
  mo_triangle h : is_interior g h →
    ∃ a b c, getNeighbours g h = [a; b; c] ∧ is_vertex g a ∧ is_vertex g b ∧ is_vertex g c;
}.

(** What a [ProductionState] of [g] records about the ends [a] and [b] of the side
    [e] and the opposite vertex [c]. *)
Record corners (g : Graph) (ps : ProductionState) (e : nat) (a b c : GNode) : Prop := {
  sd_interior : is_interior g (interior ps);
  sd_neighbours v : v ∈ getNeighbours g (interior ps) ↔ v ∈ [a; b; c];
  sd_nodup : NoDup [a; b; c];
  sd_a : is_vertex g a;
  sd_b : is_vertex g b;
  sd_c : is_vertex g c;
  sd_va : vertices ps !! e = Some a;
  sd_vb : vertices ps !! ((e + 1) mod 3) = Some b;
  sd_vc : vertices ps !! ((e + 2) mod 3) = Some c;
  sd_da : verticesData ps !! e = Some (getData g a);
  sd_db : verticesData ps !! ((e + 1) mod 3) = Some (getData g b);
  sd_dc : verticesData ps !! ((e + 2) mod 3) = Some (getData g c);
}.

(** The same with the edge between [a] and [b]. *)
Record side (g : Graph) (ps : ProductionState) (e : nat) (a b c : GNode) : Prop := {
  sd_corners :> corners g ps e a b c;
  sd_it : edgesIterators ps !! e = Some (getEdge g a b);
  sd_ed : edgesData ps !! e = Some (edge_data g a b);
  sd_len : lengths ps !! e = Some (default (of_Z (-1)) (getLength <$> edge_data g a b));
}.

(** [ps] records the triangle of its interior in [g]. *)
Record triangle (g : Graph) (ps : ProductionState) : Prop := {
  tr_side e : e < 3 → ∃ a b c, side g ps e a b c;
  tr_broken : brokenEdges ps = filter (λ i, edgesIterators ps !! i = Some None) [0; 1; 2];
  tr_iters : length (edgesIterators ps) = 3;
  tr_lengths : length (lengths ps) = 3;
}.

Lemma pstate_side_run g (u v : GNode) ei i :
  wf g → ei !! i = Some (getEdge g u v) →
  pstate_side g ei i =
    Ok (edge_data g u v, default (of_Z (-1)) (getLength <$> edge_data g u v)).
Proof.
  intros Hw He. unfold pstate_side. rewrite He. cbn [get_opt mbind result_bind].
  rewrite getEdge_adj by done. unfold edge_data.
  destruct (adj g u v) as [p|] eqn:E; [|done]. apply adj_Some in E; [|done].
  rewrite <- (findEdge_Some _ _ _ _ Hw E), (getEdgeData_findEdge _ _ _ _ Hw E).
  destruct (adjP_mem _ _ _ _ Hw E) as [d Hd]. cbn. by rewrite Hd.
Qed.

Lemma mkProductionState_run g i v2d zg :
  mesh_ok g → is_interior g i →
  ∃ ps, mkProductionState g i v2d zg = Ok ps ∧ triangle g ps ∧
    interior ps = i ∧ version2D ps = v2d ∧ zGetter ps = zg.
Proof.
  intros Hm Hi. pose proof (mo_wf _ Hm) as Hw.
  destruct (mo_triangle _ Hm i Hi) as (a & b & c & Hn & Ha & Hb & Hc).
  pose proof (getNeighbours_NoDup g i Hw) as Hnd. rewrite Hn in Hnd.
  set (ei := [getEdge g a b; getEdge g b c; getEdge g c a]).
  set (sd := λ u v, (edge_data g u v, default (of_Z (-1)) (getLength <$> edge_data g u v))).
  set (ps := {| interior := i; verticesData := [getData g a; getData g b; getData g c];
    vertices := [a; b; c]; edgesIterators := ei; edgesData := fst <$> [sd a b; sd b c; sd c a];
    lengths := snd <$> [sd a b; sd b c; sd c a];
    brokenEdges := filter (λ i, ei !! i = Some None) [0; 1; 2];
    version2D := v2d; zGetter := zg |}).
  exists ps. split_and!; try done.
  - unfold mkProductionState. rewrite Hn.
    change (getTriangleEdges g [a; b; c]) with (Ok ei). cbn [mbind result_bind mapM].
    rewrite (pstate_side_run g a b ei 0), (pstate_side_run g b c ei 1),
      (pstate_side_run g c a ei 2) by done. done.
  - split; [|done..]. intros e He.
    assert (NoDup [b; c; a]) by (apply (NoDup_Permutation_proper [a; b; c]); [solve_Permutation|done]).
    assert (NoDup [c; a; b]) by (apply (NoDup_Permutation_proper [a; b; c]); [solve_Permutation|done]).
    destruct e as [|[|[|]]]; [exists a, b, c|exists b, c, a|exists c, a, b|lia];
      (split; [split|..]; try done; intros v; change (interior ps) with i; rewrite Hn; set_solver).
Qed.
