(* ===== verification/Break.v ===== *)
(** * Breaking a triangle: what [Production::breakElementUsingNode] and
      [Production::createNodeOnEdge] do to a mesh *)
From stdpp Require Import sets.
From S2P Require Import Prelude Double NumUtils Model MorphGraph GraphFacts GraphSpec.
From S2P Require Import Connectivity ConnFacts Production Mesh.

(** Runs a computation step by step: [st_step H] uses the equation [H] for the
    first statement of the goal. *)
Ltac st_step H := rewrite (st_bind_step _ _ _ _ _ H).
Ltac st_pure := rewrite st_bind_step with (a := tt) (s' := _) by reflexivity.

Lemma lift_get_opt {S A} (o : option A) (a : A) (s : S) :
  o = Some a → lift (get_opt o) s = Ok (a, s).
Proof. by intros ->. Qed.

(** ** Splitting the element [i] with the vertex [m] *)

Definition split_edge (g : Graph) (v2d : bool) (m c : GNode) : EdgeData :=
  mkEdgeData false (dist (getCoords (getData g m)) (getCoords (getData g c)) v2d)
    (midpoint g m c).

(** The interior [i] of a triangle [a], [b], [c] is replaced by the interiors of
    [m], [c], [a] and [m], [c], [b], and [m] is joined to [c]; nothing else
    changes. *)
Record splits (v2d : bool) (i m a b c : GNode) (g g' : Graph) : Prop := {
  sp_wf : wf g';
  sp_length : length (nodes g') = S (S (length (nodes g)));
  sp_active x : active g' x =
    if decide (x = i) then false
    else if decide (x = length (nodes g) ∨ x = S (length (nodes g))) then true
    else active g x;
  sp_data x : x < length (nodes g) → getData g' x = getData g x;
  sp_data1 : getData g' (length (nodes g)) = interior_data g m c a;
  sp_data2 : getData g' (S (length (nodes g))) = interior_data g m c b;
  sp_int1 : getNeighbours g' (length (nodes g)) = [m; c; a];
  sp_int2 : getNeighbours g' (S (length (nodes g))) = [m; c; b];
  sp_interiors h : is_interior g h → h ≠ i → getNeighbours g' h = getNeighbours g h;
  sp_edges x y : x < length (nodes g) → y < length (nodes g) → x ≠ i → y ≠ i →
    edge_data g' x y =
      if decide (same_edge x y m c) then Some (split_edge g v2d m c) else edge_data g x y;
}.

Lemma vertex_not_interior g v h : is_vertex g v → is_interior g h → v ≠ h.
Proof. intros [_ Hv] [_ Hh] ->. congruence. Qed.

Lemma interior_not_neighbour g h i : mesh_ok g → is_interior g h → is_interior g i →
  i ∉ getNeighbours g h.
Proof.
  intros Hm Hh Hi. destruct (mo_triangle _ Hm h Hh) as (a & b & c & -> & Ha & Hb & Hc).
  pose proof (vertex_not_interior _ _ _ Ha Hi). pose proof (vertex_not_interior _ _ _ Hb Hi).
  pose proof (vertex_not_interior _ _ _ Hc Hi). set_solver.
Qed.

(** The graph part: from [g], the edge [m]-[c] gives [g1], the interiors give [g2]
    and [g3]. *)
Lemma splits_intro v2d i m a b c g g1 g2 g3 :
  mesh_ok g → is_interior g i → is_vertex g m →
  is_vertex g a → is_vertex g b → is_vertex g c →
  keeps_nodes [m; c] g g1 → edge_set m c (Some (split_edge g v2d m c)) g g1 →
  has_interior (length (nodes g)) m c a g1 g2 →
  has_interior (S (length (nodes g))) m c b g2 g3 →
  splits v2d i m a b c g (removeNode i g3).
Proof.
  intros Hm Hi Hvm Ha Hb Hc K1 S1 I2 I3. pose proof (mo_wf _ Hm) as Hw.
  set (n := length (nodes g)) in *.
  assert (extends [m; a; b; c] g g3) as Hx.
  { eapply (extends_trans _ [m; c; b]); [eapply (extends_trans _ [m; c; a])|apply I3|set_solver].
    - apply keeps_nodes_extends. eapply keeps_nodes_weaken; [|done]. set_solver.
    - apply I2.
    - set_solver. }
  pose proof (active_lt _ _ (proj1 Hi)) as Hin.
  assert (active g3 i = true) as Hi3 by (rewrite (ex_active _ _ _ Hx) by done; apply Hi).
  pose proof (hi_length _ _ _ _ _ _ I2) as Hl2. pose proof (hi_length _ _ _ _ _ _ I3) as Hl3.
  assert (∀ v, v ∈ [m; a; b; c] → v ≠ i) as Hne.
  { intros v Hv. set_unfold. destruct_or! Hv; subst v; by eapply vertex_not_interior. }
  assert (getNeighbours g3 n = [m; c; a]) as Hn1.
  { rewrite (extends_neighbours [m; c; b] g2); [apply I2|apply I2|apply I3|lia|].
    pose proof (active_lt _ _ (proj1 Hvm)). pose proof (active_lt _ _ (proj1 Hc)).
    pose proof (active_lt _ _ (proj1 Hb)). set_unfold. lia. }
  assert (∀ x, x < n → getData g1 x = getData g x) as Hd1 by (intros; apply K1).
  pose proof (ex_wf _ _ _ Hx) as Hw3.
  assert (∀ v, is_vertex g v → v < n) as Hlt by (intros v [Hv _]; by apply active_lt).
  subst n. split.
  - by apply removeNode_wf.
  - rewrite removeNode_length by done. lia.
  - intros x. rewrite removeNode_active by done. case_decide; [done|]. case_decide as Hx'.
    + destruct Hx' as [->| ->]; [|apply I3].
      rewrite (ex_active _ _ _ (hi_extends _ _ _ _ _ _ I3)); [apply I2|lia].
    + destruct (decide (x < length (nodes g))); [by apply (ex_active _ _ _ Hx)|].
      transitivity false; [|symmetry]; apply not_true_is_false;
        intros Hax%active_lt; lia.
  - intros x Hx'. rewrite removeNode_data by done. by apply Hx.
  - rewrite removeNode_data by done. rewrite (ex_data _ _ _ (hi_extends _ _ _ _ _ _ I3)) by lia.
    rewrite (hi_data _ _ _ _ _ _ I2). unfold interior_data, centre. by rewrite !Hd1 by auto.
  - rewrite removeNode_data by done. rewrite (hi_data _ _ _ _ _ _ I3).
    unfold interior_data, centre.
    assert (∀ x, x < length (nodes g) → getData g2 x = getData g x) as Hd2.
    { intros x Hx'. rewrite (ex_data _ _ _ (hi_extends _ _ _ _ _ _ I2)); [by apply Hd1|].
      by rewrite (kn_length _ _ _ K1). }
    by rewrite !Hd2 by auto.
  - rewrite removeNode_neighbours; [done|done|done|lia|]. rewrite Hn1. set_solver.
  - rewrite removeNode_neighbours; [apply I3|done|done|lia|].
    rewrite (hi_neighbours _ _ _ _ _ _ I3). set_solver.
  - intros h Hh Hhi. pose proof (active_lt _ _ (proj1 Hh)).
    assert (getNeighbours g3 h = getNeighbours g h) as Hnh.
    { apply (extends_neighbours [m; a; b; c]); [done..|]. set_unfold. intros Hor.
      destruct_or! Hor; subst h; (eapply (vertex_not_interior g); [|exact Hh|reflexivity]; assumption). }
    rewrite removeNode_neighbours; [done..|]. rewrite Hnh. by apply interior_not_neighbour.
  - intros x y Hx' Hy' Hxi Hyi. rewrite removeNode_edge_data, decide_False by naive_solver.
    rewrite (hi_edges _ _ _ _ _ _ I3), decide_False by (naive_solver lia).
    rewrite (hi_edges _ _ _ _ _ _ I2), decide_False by (naive_solver lia).
    apply S1.
Qed.

Lemma breakElementUsingNode_run e m a b c g ctx ps :
  mesh_ok g → corners g ps e a b c → is_vertex g m → m ∉ [a; b; c] →
  ∃ g', breakElementUsingNode e m ps (mkWorld g ctx) =
          Ok (tt, mkWorld g' (ctx ++ [length (nodes g); S (length (nodes g))])) ∧
    splits (version2D ps) (interior ps) m a b c g g'.
Proof.
  intros Hm Hs Hvm Hmv. pose proof (mo_wf _ Hm) as Hw. set (n := length (nodes g)).
  pose proof (sd_a _ _ _ _ _ _ Hs) as Ha. pose proof (sd_b _ _ _ _ _ _ Hs) as Hb.
  pose proof (sd_c _ _ _ _ _ _ Hs) as Hc. pose proof (sd_nodup _ _ _ _ _ _ Hs) as Hnd.
  rewrite !list.NoDup_cons in Hnd. set_unfold.
  destruct (prod_addEdge_run m c false
    (dist (getCoords (getData g m)) (getCoords (getData g c)) (version2D ps))
    (midpoint g m c) g ctx) as (g1 & E1 & K1 & S1); [done|tauto|apply Hvm|apply Hc|].
  assert (∀ v, is_vertex g v → active g1 v = true) as Ha1.
  { intros v [Hv _]. by rewrite (kn_active _ _ _ K1). }
  pose proof (kn_length _ _ _ K1) as Hl1.
  destruct (cm_createInterior_ctx_run n m c a g1 ctx) as (g2 & E2 & I2);
    [apply K1|rewrite !list.NoDup_cons; set_solver|by rewrite Hl1|by apply Ha1..|].
  assert (∀ v, is_vertex g v → active g2 v = true) as Ha2.
  { intros v Hv. rewrite (ex_active _ _ _ (hi_extends _ _ _ _ _ _ I2)); [by apply Ha1|].
    rewrite Hl1. apply active_lt, Hv. }
  destruct (cm_createInterior_ctx_run (S n) m c b g2 (ctx ++ [n])) as (g3 & E3 & I3);
    [apply I2|rewrite !list.NoDup_cons; set_solver|by rewrite (hi_length _ _ _ _ _ _ I2)|by apply Ha2..|].
  exists (removeNode (interior ps) g3). split.
  - unfold breakElementUsingNode. cbn [getEdgeVertices].
    unfold vertexData, vertex, getNeutralVertex.
    rewrite (st_bind_step get_graph _ _ (mkWorld g ctx) g) by done. cbv zeta.
    st_step (lift_get_opt _ _ (mkWorld g ctx) (sd_dc _ _ _ _ _ _ Hs)).
    st_step (lift_get_opt _ _ (mkWorld g ctx) (sd_vc _ _ _ _ _ _ Hs)).
    st_step E1.
    st_step (lift_get_opt _ _ (mkWorld g1 ctx) (sd_va _ _ _ _ _ _ Hs)).
    st_step (lift_get_opt _ _ (mkWorld g1 ctx) (sd_vb _ _ _ _ _ _ Hs)).
    st_step E2. st_step E3. unfold graph_modify, modify. cbn [w_graph w_ctx].
    by rewrite <- app_assoc.
  - eapply splits_intro; try done. apply Hs.
Qed.

(** ** A new vertex in the middle of a side *)

(** The data of an edge between nodes at [p] and [q]. *)
Definition joined (border v2d : bool) (p q : Coordinates) : EdgeData :=
  mkEdgeData border (dist p q v2d) (coords_div (coords_plus p q) (of_Z 2)).

Lemma joinNewNode_run ps m md border nv i v vd g ctx :
  wf g → m ≠ v → active g m = true → active g v = true →
  verticesData ps !! i = Some vd → vertices ps !! i = Some v →
  ∃ g', joinNewNode ps m md border nv i (mkWorld g ctx) = Ok (tt, mkWorld g' ctx) ∧
    keeps_nodes [m; v] g g' ∧
    edge_set m v (Some (joined (if negb (Nat.eqb i nv) then border else false) (version2D ps)
                               (getCoords md) (getCoords vd))) g g'.
Proof.
  intros Hw Hmv Hm Hv Hvd Hvi.
  set (br := if negb (Nat.eqb i nv) then border else false).
  set (md' := coords_div (coords_plus (getCoords md) (getCoords vd)) (of_Z 2)).
  destruct (add_and_fill m v (setBorder br) (setMiddlePoint md')
    (setLength (dist (getCoords md) (getCoords vd) (version2D ps))) g ctx)
    as (g' & Hr & Hk & Hs); [done..|].
  exists g'. split_and!; [|done|exact Hs].
  unfold joinNewNode, vertexData, vertex.
  st_step (lift_get_opt _ _ (mkWorld g ctx) Hvd). st_step (lift_get_opt _ _ (mkWorld g ctx) Hvi).
  exact Hr.
Qed.

(** Joining a new node to three others, in any order. *)
Lemma joins_run ps m md border nv v0 v1 v2 d0 d1 d2 g ctx :
  let e i d := Some (joined (if negb (Nat.eqb i nv) then border else false) (version2D ps)
                            (getCoords md) (getCoords d)) in
  wf g → m ∉ [v0; v1; v2] → NoDup [v0; v1; v2] → active g m = true →
  (∀ v, v ∈ [v0; v1; v2] → active g v = true) →
  vertices ps !! 0 = Some v0 → verticesData ps !! 0 = Some d0 →
  vertices ps !! 1 = Some v1 → verticesData ps !! 1 = Some d1 →
  vertices ps !! 2 = Some v2 → verticesData ps !! 2 = Some d2 →
  ∃ g', (joinNewNode ps m md border nv 0;; joinNewNode ps m md border nv 1;;
         joinNewNode ps m md border nv 2;; mret m) (mkWorld g ctx) = Ok (m, mkWorld g' ctx) ∧
    keeps_nodes [m; v0; v1; v2] g g' ∧
    (∀ x y, edge_data g' x y =
      if decide (same_edge x y m v0) then e 0 d0
      else if decide (same_edge x y m v1) then e 1 d1
      else if decide (same_edge x y m v2) then e 2 d2 else edge_data g x y).
Proof.
  intros e Hw Hm Hnd Ham Hav Hv0 Hd0 Hv1 Hd1 Hv2 Hd2. rewrite !list.NoDup_cons in Hnd. set_unfold.
  destruct (joinNewNode_run ps m md border nv 0 v0 d0 g ctx) as (g1 & E1 & K1 & S1);
    [done|tauto|done|auto|done|done|].
  destruct (joinNewNode_run ps m md border nv 1 v1 d1 g1 ctx) as (g2 & E2 & K2 & S2);
    [apply K1|tauto|by rewrite (kn_active _ _ _ K1)|rewrite (kn_active _ _ _ K1); auto|done|done|].
  destruct (joinNewNode_run ps m md border nv 2 v2 d2 g2 ctx) as (g3 & E3 & K3 & S3);
    [apply K2|tauto|by rewrite (kn_active _ _ _ K2), (kn_active _ _ _ K1)|
     rewrite (kn_active _ _ _ K2), (kn_active _ _ _ K1); auto|done|done|].
  exists g3. split_and!.
  - st_step E1. st_step E2. by st_step E3.
  - eapply keeps_nodes_trans; [eapply keeps_nodes_trans|];
      (eapply keeps_nodes_weaken; [|eassumption]); set_solver.
  - intros x y. rewrite S3, S2, S1. unfold same_edge. repeat case_decide; try done; naive_solver.
Qed.

(** [g'] is [g] with the edge [a]-[b] (its data is [d]) broken by the new vertex
    [m] at [p], joined to the ends and to the opposite vertex [c]. *)
Record breaks (v2d : bool) (d : EdgeData) (p : Coordinates) (m a b c : GNode)
    (g g' : Graph) : Prop := {
  br_extends : extends [a; b; c] g g';
  br_node : m = length (nodes g);
  br_length : length (nodes g') = S m;
  br_active : active g' m = true;
  br_data : getData g' m = NodeData_vertex false p (negb (isBorder d));
  br_edges x y : edge_data g' x y =
    if decide (same_edge x y a b) then None
    else if decide (same_edge x y m a) then
      Some (joined (isBorder d) v2d p (getCoords (getData g a)))
    else if decide (same_edge x y m b) then
      Some (joined (isBorder d) v2d p (getCoords (getData g b)))
    else if decide (same_edge x y m c) then
      Some (joined false v2d p (getCoords (getData g c)))
    else edge_data g x y;
}.

(** The joins of [createNodeOnEdge], seen from the side that is broken. *)
Lemma side_joins_run e m md border a b c g g0 ctx ps :
  let v2d := version2D ps in
  corners g0 ps e a b c → e < 3 → wf g → m ∉ [a; b; c] → active g m = true →
  (∀ v, v ∈ [a; b; c] → active g v = true) →
  ∃ g', (joinNewNode ps m md border (getNeutralVertex e) 0;;
         joinNewNode ps m md border (getNeutralVertex e) 1;;
         joinNewNode ps m md border (getNeutralVertex e) 2;; mret m) (mkWorld g ctx) =
          Ok (m, mkWorld g' ctx) ∧
    keeps_nodes [m; a; b; c] g g' ∧
    (∀ x y, edge_data g' x y =
      if decide (same_edge x y m a) then
        Some (joined border v2d (getCoords md) (getCoords (getData g0 a)))
      else if decide (same_edge x y m b) then
        Some (joined border v2d (getCoords md) (getCoords (getData g0 b)))
      else if decide (same_edge x y m c) then
        Some (joined false v2d (getCoords md) (getCoords (getData g0 c)))
      else edge_data g x y).
Proof.
  intros v2d Hs He Hw Hm Ham Hav. destruct Hs as [_ _ Hnd _ _ _ Ha Hb Hc Da Db Dc].
  assert (∀ v0 v1 v2, Permutation [v0; v1; v2] [a; b; c] →
    (m ∉ [v0; v1; v2]) ∧ NoDup [v0; v1; v2] ∧ (∀ v, v ∈ [v0; v1; v2] → active g v = true)) as Hp.
  { intros v0 v1 v2 Hp. rewrite Hp. split_and!; [done|done|]. intros v Hv. apply Hav. by rewrite <- Hp. }
  assert (∀ v0 v1 v2 g', keeps_nodes [m; v0; v1; v2] g g' → Permutation [v0; v1; v2] [a; b; c] →
    keeps_nodes [m; a; b; c] g g') as Hk'.
  { intros v0 v1 v2 g' Hk Hp'. eapply keeps_nodes_weaken; [|exact Hk]. intros n. by rewrite Hp'. }
  rewrite !list.NoDup_cons in Hnd. set_unfold in Hnd. set_unfold in Hm.
  destruct e as [|[|[|]]]; [| | |lia]; cbn in Ha, Hb, Hc, Da, Db, Dc.
  - destruct (Hp a b c) as (? & ? & ?); [done|].
    destruct (joins_run ps m md border 2 a b c _ _ _ g ctx Hw H H0 Ham H1 Ha Da Hb Db Hc Dc)
      as (g' & Hr & Hk & Hd).
    exists g'. split_and!; [exact Hr|exact Hk|exact Hd].
  - destruct (Hp c a b) as (? & ? & ?); [solve_Permutation|].
    destruct (joins_run ps m md border 0 c a b _ _ _ g ctx Hw H H0 Ham H1 Hc Dc Ha Da Hb Db)
      as (g' & Hr & Hk & Hd).
    exists g'. split_and!; [exact Hr|eapply Hk'; [exact Hk|solve_Permutation]|].
    intros x y. rewrite Hd. unfold same_edge. repeat case_decide; try done; naive_solver.
  - destruct (Hp b c a) as (? & ? & ?); [solve_Permutation|].
    destruct (joins_run ps m md border 1 b c a _ _ _ g ctx Hw H H0 Ham H1 Hb Db Hc Dc Ha Da)
      as (g' & Hr & Hk & Hd).
    exists g'. split_and!; [exact Hr|eapply Hk'; [exact Hk|solve_Permutation]|].
    intros x y. rewrite Hd. unfold same_edge. repeat case_decide; try done; naive_solver.
Qed.

Lemma createNodeOnEdge_run e d z a b c g ctx ps :
  let p := getCoords (getData g a) in let q := getCoords (getData g b) in
  let x := ddiv (dadd (getX p) (getX q)) (of_Z 2) in
  let y := ddiv (dadd (getY p) (getY q)) (of_Z 2) in
  wf g → e < 3 → side g ps e a b c → edge_data g a b = Some d → zGetter ps x y = Ok z →
  ∃ g', createNodeOnEdge e ps (mkWorld g ctx) =
          Ok (length (nodes g), mkWorld g' (ctx ++ [length (nodes g)])) ∧
    breaks (version2D ps) d (mkCoordinates x y z) (length (nodes g)) a b c g g'.
Proof.
  intros p q x y Hw He Hs Hd Hz. set (m := length (nodes g)).
  pose proof (sd_a _ _ _ _ _ _ Hs) as [Ha _]. pose proof (sd_b _ _ _ _ _ _ Hs) as [Hb _].
  pose proof (sd_c _ _ _ _ _ _ Hs) as [Hc _].
  assert (∀ v, v ∈ [a; b; c] → active g v = true) as Hav.
  { intros v Hv. set_unfold. destruct_or! Hv; by subst. }
  assert (∀ v, v ∈ [a; b; c] → v < m) as Hlt by (intros v Hv; by apply active_lt, Hav).
  destruct (cm_removeEdge_run a b g ctx Hw) as (g1 & E1 & K1 & S1).
  set (md := NodeData_vertex false (mkCoordinates x y z) (negb (isBorder d))).
  pose proof (new_node_extends md g1 (kn_wf _ _ _ K1)) as X2.
  pose proof (kn_length _ _ _ K1) as L1.
  destruct (side_joins_run e m md (isBorder d) a b c (new_node md g1) g (ctx ++ [m]) ps)
    as (g3 & E3 & K3 & S3); [apply Hs|done|apply X2| | | |].
  { intros Hin%Hlt. lia. }
  { rewrite new_node_active, decide_True by done. done. }
  { intros v Hv. rewrite (ex_active _ _ _ X2) by (rewrite L1; by apply Hlt).
    rewrite (kn_active _ _ _ K1). by apply Hav. }
  exists g3. split.
  - unfold createNodeOnEdge. cbn [getEdgeVertices]. unfold vertexData, vertex.
    st_step (lift_get_opt _ _ (mkWorld g ctx) (sd_ed _ _ _ _ _ _ Hs)). rewrite Hd.
    rewrite (st_bind_step (lift (opt_get (Some d))) _ _ (mkWorld g ctx) d) by done. cbv zeta.
    st_step (lift_get_opt _ _ (mkWorld g ctx) (sd_va _ _ _ _ _ _ Hs)).
    st_step (lift_get_opt _ _ (mkWorld g ctx) (sd_vb _ _ _ _ _ _ Hs)). st_step E1.
    st_step (lift_get_opt _ _ (mkWorld g1 ctx) (sd_da _ _ _ _ _ _ Hs)).
    st_step (lift_get_opt _ _ (mkWorld g1 ctx) (sd_db _ _ _ _ _ _ Hs)).
    rewrite (st_bind_step _ _ _ (mkWorld g1 ctx) (mkCoordinates x y z));
      [|unfold getNewPointCoords; fold p q x y; by rewrite Hz].
    fold md. etransitivity; [|exact E3]. unfold m. rewrite <- L1. reflexivity.
  - split.
    + eapply (extends_trans _ [m; a; b; c]); [eapply (extends_trans _ [])| |].
      * apply keeps_nodes_extends. eapply keeps_nodes_weaken; [|exact K1]. set_solver.
      * exact X2.
      * set_solver.
      * by apply keeps_nodes_extends.
      * intros n Hn Hin. fold m in Hn. set_unfold. naive_solver lia.
    + done.
    + rewrite (kn_length _ _ _ K3), new_node_length. by rewrite L1.
    + rewrite (kn_active _ _ _ K3), new_node_active, decide_True by done. done.
    + rewrite (kn_data _ _ _ K3), new_node_data, decide_True by done. done.
    + intros u v. rewrite S3, new_node_edge_data, S1 by apply K1.
      unfold same_edge. pose proof (Hlt a). pose proof (Hlt b). set_unfold.
      repeat case_decide; try done; naive_solver lia.
Qed.

(** ** Breaking an element *)

Lemma extends_interior S g g' h :
  extends S g g' → is_interior g h → is_interior g' h.
Proof.
  intros Hx [Ha Hh]. pose proof (active_lt _ _ Ha).
  split; [by rewrite (ex_active _ _ _ Hx)|by rewrite (ex_data _ _ _ Hx)].
Qed.

Lemma extends_vertex S g g' v : extends S g g' → is_vertex g v → is_vertex g' v.
Proof.
  intros Hx [Ha Hh]. pose proof (active_lt _ _ Ha).
  split; [by rewrite (ex_active _ _ _ Hx)|by rewrite (ex_data _ _ _ Hx)].
Qed.

Lemma extends_corners S g g' ps e a b c :
  wf g → extends S g g' → interior ps ∉ S → corners g ps e a b c → corners g' ps e a b c.
Proof.
  intros Hw Hx HS Hs. destruct Hs as [Hi Hn Hnd Ha Hb Hc Va Vb Vc Da Db Dc].
  assert (∀ v, is_vertex g v → getData g' v = getData g v) as Hd.
  { intros v [Hv _]. by apply (ex_data _ _ _ Hx), active_lt. }
  split; rewrite ?Hd by done; try done; try (by eapply extends_vertex).
  - by eapply extends_interior.
  - intros v. rewrite (extends_neighbours S g); [apply Hn|done..| |done]. apply active_lt, Hi.
Qed.

Lemma breaks_mesh v2d d p m a b c g g' :
  mesh_ok g → is_vertex g a → is_vertex g b → is_vertex g c →
  breaks v2d d p m a b c g g' → mesh_ok g' ∧ is_vertex g' m.
Proof.
  intros Hm Ha Hb Hc Hbr. pose proof (br_extends _ _ _ _ _ _ _ _ _ Hbr) as Hx.
  assert (is_vertex g' m) as Hvm.
  { split; [apply Hbr|]. by rewrite (br_data _ _ _ _ _ _ _ _ _ Hbr). }
  split; [|done]. split; [apply Hx|]. intros h [Hha Hhh].
  assert (h ≠ m) as Hne by (intros ->; destruct Hvm; congruence).
  assert (h < length (nodes g)) as Hlt.
  { apply active_lt in Hha. rewrite (br_length _ _ _ _ _ _ _ _ _ Hbr) in Hha.
    pose proof (br_node _ _ _ _ _ _ _ _ _ Hbr). lia. }
  rewrite (ex_active _ _ _ Hx) in Hha by done. rewrite (ex_data _ _ _ Hx) in Hhh by done.
  destruct (mo_triangle _ Hm h) as (x & y & z & Hn & Hvx & Hvy & Hvz); [done|].
  exists x, y, z. rewrite (extends_neighbours [a; b; c] g) by
    (done || apply Hm || (set_unfold; intros Hor; destruct_or! Hor; subst h;
     unfold is_vertex in *; naive_solver congruence)).
  split_and!; [done|by eapply extends_vertex..].
Qed.

(** [g'] is [g] with the triangle [i] of [a], [b], [c] cut in two by a new vertex on
    its side [a]-[b], whose edge had the data [d].  The new nodes are the vertex
    [length (nodes g)] at [p] and the two interiors that follow. *)
Record bisected (v2d : bool) (d : EdgeData) (p : Coordinates) (i a b c : GNode)
    (g g' : Graph) : Prop := {
  bi_mesh : mesh_ok g';
  bi_length : length (nodes g') = 3 + length (nodes g);
  bi_active x : active g' x =
    if decide (x = i) then false
    else if decide (length (nodes g) ≤ x < 3 + length (nodes g)) then true
    else active g x;
  bi_data x : x < length (nodes g) → getData g' x = getData g x;
  bi_vertex : getData g' (length (nodes g)) = NodeData_vertex false p (negb (isBorder d));
  bi_hyper1 : isHyperEdge (getData g' (1 + length (nodes g))) = true;
  bi_hyper2 : isHyperEdge (getData g' (2 + length (nodes g))) = true;
  bi_refine1 : isToRefine (getData g' (1 + length (nodes g))) = false;
  bi_refine2 : isToRefine (getData g' (2 + length (nodes g))) = false;
  bi_int1 : getNeighbours g' (1 + length (nodes g)) = [length (nodes g); c; a];
  bi_int2 : getNeighbours g' (2 + length (nodes g)) = [length (nodes g); c; b];
  bi_interiors h : is_interior g h → h ≠ i → getNeighbours g' h = getNeighbours g h;
  bi_edges x y : x ≤ length (nodes g) → y ≤ length (nodes g) → x ≠ i → y ≠ i →
    edge_data g' x y =
      if decide (same_edge x y a b) then None
      else if decide (same_edge x y (length (nodes g)) a) then
        Some (joined (isBorder d) v2d p (getCoords (getData g a)))
      else if decide (same_edge x y (length (nodes g)) b) then
        Some (joined (isBorder d) v2d p (getCoords (getData g b)))
      else if decide (same_edge x y (length (nodes g)) c) then
        Some (joined false v2d p (getCoords (getData g c)))
      else edge_data g x y;
}.

Lemma splits_mesh v2d i m a b c g g' :
  mesh_ok g → is_interior g i → is_vertex g m → is_vertex g a → is_vertex g b →
  is_vertex g c → splits v2d i m a b c g g' → mesh_ok g'.
Proof.
  intros Hm Hi Hvm Ha Hb Hc Hs. split; [apply Hs|]. intros h [Hha Hhh].
  assert (∀ v, is_vertex g v → is_vertex g' v) as Hv.
  { intros v Hv. pose proof (vertex_not_interior _ _ _ Hv Hi).
    pose proof (active_lt _ _ (proj1 Hv)). destruct Hv as [Hva Hvh]. split.
    - rewrite (sp_active _ _ _ _ _ _ _ _ Hs), decide_False by done. by rewrite Hva; case_decide.
    - by rewrite (sp_data _ _ _ _ _ _ _ _ Hs). }
  rewrite (sp_active _ _ _ _ _ _ _ _ Hs) in Hha. case_decide; [done|].
  case_decide as Hor; [destruct Hor; subst h|].
  - rewrite (sp_int1 _ _ _ _ _ _ _ _ Hs). eauto 10.
  - rewrite (sp_int2 _ _ _ _ _ _ _ _ Hs). eauto 10.
  - pose proof (active_lt _ _ Hha). rewrite (sp_data _ _ _ _ _ _ _ _ Hs) in Hhh by done.
    rewrite (sp_interiors _ _ _ _ _ _ _ _ Hs) by done.
    destruct (mo_triangle _ Hm h) as (x & y & z & Hn & Hvx & Hvy & Hvz); [done|].
    exists x, y, z. auto.
Qed.

(** A vertex on a side, then a split at it, is a bisection. *)
Lemma breaks_splits v2d d p i a b c g g1 g2 :
  mesh_ok g → is_interior g i → NoDup [a; b; c] →
  is_vertex g a → is_vertex g b → is_vertex g c →
  breaks v2d d p (length (nodes g)) a b c g g1 →
  splits v2d i (length (nodes g)) a b c g1 g2 →
  bisected v2d d p i a b c g g2.
Proof.
  intros Hm Hi Hnd Ha Hb Hc Hbr Hsp.
  destruct (breaks_mesh _ _ _ _ _ _ _ _ _ Hm Ha Hb Hc Hbr) as [Hm1 Hvm].
  destruct Hbr as [Hx _ Hlen Hact Hdat Hedg]. pose proof Hsp as [Hw2 L2 A2 D2 I1 I2 N1 N2 F2 E2].
  set (n := length (nodes g)) in *. pose proof Hlen as Hlen'.
  set (k := length (nodes g1)) in L2, A2, D2, I1, I2, N1, N2, E2, Hlen'. clearbody k. subst k.
  pose proof (active_lt _ _ (proj1 Hi)) as Hin.
  split.
  - eapply splits_mesh; [exact Hm1| |exact Hvm| | | |exact Hsp];
      [by eapply extends_interior|by eapply extends_vertex..].
  - rewrite L2. subst n. lia.
  - intros x. rewrite A2. case_decide; [done|]. case_decide as Hor.
    + rewrite decide_True; [done|]. subst n. lia.
    + case_decide as Hle.
      * assert (x = n) as -> by (subst n; lia). done.
      * destruct (decide (x < n)); [by apply Hx|].
        transitivity false; [|symmetry]; apply not_true_is_false;
          intros Hax%active_lt; subst n; lia.
  - intros x Hx'. rewrite D2 by (subst n; lia). by apply Hx.
  - rewrite D2 by (subst n; lia). done.
  - change (1 + length (nodes g)) with (S n). by rewrite I1.
  - change (2 + length (nodes g)) with (S (S n)). by rewrite I2.
  - change (1 + length (nodes g)) with (S n). by rewrite I1.
  - change (2 + length (nodes g)) with (S (S n)). by rewrite I2.
  - exact N1.
  - exact N2.
  - intros h Hh Hhi. rewrite F2; [|by eapply extends_interior|done].
    apply (extends_neighbours [a; b; c]); [apply Hm|done|apply active_lt, Hh|].
    set_unfold. intros Hor; destruct_or! Hor; subst h; unfold is_vertex, is_interior in *;
      naive_solver congruence.
  - intros x y Hx' Hy' Hxi Hyi. rewrite E2, Hedg by (subst n; lia).
    pose proof (active_lt _ _ (proj1 Ha)). pose proof (active_lt _ _ (proj1 Hb)).
    pose proof (active_lt _ _ (proj1 Hc)). rewrite !list.NoDup_cons in Hnd. set_unfold in Hnd.
    assert (split_edge g1 v2d n c = joined false v2d p (getCoords (getData g c))) as ->.
    { unfold split_edge, joined, midpoint. rewrite Hdat, (ex_data _ _ _ Hx) by done. done. }
    subst n. unfold same_edge. repeat case_decide; try done; exfalso; naive_solver lia.
Qed.

Lemma breakElementWithoutHangingNode_run e d z a b c g ctx ps :
  let p := getCoords (getData g a) in let q := getCoords (getData g b) in
  let x := ddiv (dadd (getX p) (getX q)) (of_Z 2) in
  let y := ddiv (dadd (getY p) (getY q)) (of_Z 2) in
  mesh_ok g → e < 3 → side g ps e a b c → edge_data g a b = Some d → zGetter ps x y = Ok z →
  ∃ g', breakElementWithoutHangingNode e ps (mkWorld g ctx) =
          Ok (tt, mkWorld g' (ctx ++ [length (nodes g); 1 + length (nodes g); 2 + length (nodes g)])) ∧
    bisected (version2D ps) d (mkCoordinates x y z) (interior ps) a b c g g'.
Proof.
  intros p q x y Hm He Hs Hd Hz.
  destruct (createNodeOnEdge_run e d z a b c g ctx ps) as (g1 & E1 & Hbr);
    [apply Hm|done..|].
  pose proof (sd_corners _ _ _ _ _ _ Hs) as [Hi _ Hnd Ha Hb Hc _ _ _ _ _ _].
  destruct (breaks_mesh _ _ _ _ _ _ _ _ _ Hm Ha Hb Hc Hbr) as [Hm1 Hvm].
  pose proof (active_lt _ _ (proj1 Ha)). pose proof (active_lt _ _ (proj1 Hb)).
  pose proof (active_lt _ _ (proj1 Hc)).
  destruct (breakElementUsingNode_run e (length (nodes g)) a b c g1 (ctx ++ [length (nodes g)]) ps)
    as (g2 & E2 & Hsp); [done| |done|set_unfold; lia|].
  { eapply extends_corners; [apply Hm|apply Hbr| |apply Hs].
    set_unfold. intros Hor; destruct_or! Hor; rewrite Hor in Hi;
      unfold is_vertex, is_interior in *; naive_solver congruence. }
  exists g2. split; [|by eapply breaks_splits].
  unfold breakElementWithoutHangingNode. st_step E1. rewrite E2.
  rewrite (br_length _ _ _ _ _ _ _ _ _ Hbr), <- app_assoc. done.
Qed.

(** [g'] is [g] with the triangle [i] of [a], [b], [c] cut in two at the vertex [m],
    which is no longer hanging. *)
Record mended (v2d : bool) (i m a b c : GNode) (g g' : Graph) : Prop := {
  me_mesh : mesh_ok g';
  me_length : length (nodes g') = 2 + length (nodes g);
  me_active x : active g' x =
    if decide (x = i) then false
    else if decide (length (nodes g) ≤ x < 2 + length (nodes g)) then true
    else active g x;
  me_data x : x < length (nodes g) → x ≠ m → getData g' x = getData g x;
  me_vertex : getData g' m = setHanging false (getData g m);
  me_hyper1 : isHyperEdge (getData g' (length (nodes g))) = true;
  me_hyper2 : isHyperEdge (getData g' (1 + length (nodes g))) = true;
  me_refine1 : isToRefine (getData g' (length (nodes g))) = false;
  me_refine2 : isToRefine (getData g' (1 + length (nodes g))) = false;
  me_int1 : getNeighbours g' (length (nodes g)) = [m; c; a];
  me_int2 : getNeighbours g' (1 + length (nodes g)) = [m; c; b];
  me_interiors h : is_interior g h → h ≠ i → getNeighbours g' h = getNeighbours g h;
  me_edges x y : x < length (nodes g) → y < length (nodes g) → x ≠ i → y ≠ i →
    edge_data g' x y =
      if decide (same_edge x y m c) then Some (split_edge g v2d m c) else edge_data g x y;
}.

Lemma setHanging_hyper b d : isHyperEdge (setHanging b d) = isHyperEdge d.
Proof. done. Qed.

(** A change of the data of a node that keeps its kind keeps the mesh. *)
Lemma updData_mesh f n g :
  mesh_ok g → n < length (nodes g) →
  (isHyperEdge (f (getData g n)) = isHyperEdge (getData g n)) → mesh_ok (updData f n g).
Proof.
  intros Hm Hn Hf.
  assert (∀ x, isHyperEdge (getData (updData f n g) x) = isHyperEdge (getData g x)) as Hh.
  { intros x. rewrite getData_updData by done. case_decide; by subst. }
  split; [eapply same_shape_wf; [apply updData_shape|apply Hm]|].
  unfold is_interior, is_vertex. intros h. rewrite active_updData, Hh. intros Hi.
  rewrite (getNeighbours_frame g); [|apply edges_updData|intros; apply active_updData].
  destruct (mo_triangle _ Hm h Hi) as (a & b & c & Hnb & Ha & Hb & Hc).
  exists a, b, c. rewrite !active_updData, !Hh. auto.
Qed.

Lemma breakElementWithHangingNode_run e m a b c g ctx ps :
  mesh_ok g → corners g ps e a b c → findNodeBetween g a b = Some m →
  is_vertex g m → m ∉ [a; b; c] →
  ∃ g', breakElementWithHangingNode e ps (mkWorld g ctx) =
          Ok (tt, mkWorld g' (ctx ++ [length (nodes g); 1 + length (nodes g)])) ∧
    mended (version2D ps) (interior ps) m a b c g g'.
Proof.
  intros Hm Hs Hf Hvm Hmv.
  destruct (breakElementUsingNode_run e m a b c g ctx ps) as (g1 & E1 & Hsp); [done..|].
  pose proof (active_lt _ _ (proj1 Hvm)) as Hlm.
  exists (updData (setHanging false) m g1). split.
  - unfold breakElementWithHangingNode.
    rewrite (st_bind_step _ _ _ (mkWorld g ctx) m).
    + by st_step E1.
    + unfold graph_reads, reads, getHangingNode. cbn [w_graph getEdgeVertices]. unfold vertex.
      rewrite (sd_va _ _ _ _ _ _ Hs), (sd_vb _ _ _ _ _ _ Hs). cbn. by rewrite Hf.
  - destruct Hs as [Hi _ _ Ha Hb Hc _ _ _ _ _ _].
    pose proof (splits_mesh _ _ _ _ _ _ _ _ Hm Hi Hvm Ha Hb Hc Hsp) as Hm1.
    destruct Hsp as [Hw2 L2 A2 D2 I1 I2 N1 N2 F2 E2].
    split.
    + apply updData_mesh; [done|lia|done].
    + by rewrite (ss_nodes _ _ (updData_shape _ _ _)).
    + intros x. rewrite active_updData, A2. repeat case_decide; try done; lia.
    + intros x Hx Hxm. rewrite getData_updData, decide_False by (done || lia). by apply D2.
    + rewrite getData_updData, decide_True by (done || lia). by rewrite D2.
    + rewrite getData_updData, decide_False by lia. by rewrite I1.
    + change (1 + length (nodes g)) with (S (length (nodes g))).
      rewrite getData_updData, decide_False by lia. by rewrite I2.
    + rewrite getData_updData, decide_False by lia. by rewrite I1.
    + change (1 + length (nodes g)) with (S (length (nodes g))).
      rewrite getData_updData, decide_False by lia. by rewrite I2.
    + rewrite <- N1. apply getNeighbours_frame; [apply edges_updData|intros; apply active_updData].
    + rewrite <- N2. apply getNeighbours_frame; [apply edges_updData|intros; apply active_updData].
    + intros h Hh Hhi. rewrite <- F2 by done.
      apply getNeighbours_frame; [apply edges_updData|intros; apply active_updData].
    + intros x y Hx Hy Hxi Hyi. rewrite updData_edge_data. by apply E2.
Qed.
