(* ===== verification/Productions.v ===== *)
(** * The six productions: [src/productions/Production1.h] ... [Production6.h] *)
From S2P Require Import Prelude Double NumUtils Model MorphGraph GraphFacts Connectivity.
From S2P Require Import Production.

(** Both ends of the side [edge] are not hanging. *)
Definition ends_not_hanging (ps : ProductionState) (edge : nat) : result bool :=
  let '(a, b) := getEdgeVertices edge in
  da ← vertexData ps a;
  if negb (isHanging da) then
    db ← vertexData ps b;
    mret (negb (isHanging db))
  else mret false.

(** [pState.getEdgesData()[edge].get().isBorder()] *)
Definition side_is_border (ps : ProductionState) (edge : nat) : result bool :=
  med ← get_opt (edgesData ps !! edge);
  ed ← opt_get med;
  mret (isBorder ed).

(** ** Production 1: a triangle marked for refinement without broken edges *)

Definition P1_checkApplicabilityCondition (nodeData : NodeData)
    (edgesIterators : list (option EdgeIterator)) : bool :=
  isToRefine nodeData && negb (hasBrokenEdge edgesIterators).

(** The loop of [getEdgeToBreak]; [-1] is [None]. *)
Fixpoint P1_getEdgeToBreak_loop (ps : ProductionState) (longestEdges : list nat)
    : result (option nat) :=
  match longestEdges with
  | [] => mret None
  | longest :: rest =>
      border ← side_is_border ps longest;
      if (border : bool) then mret (Some longest)
      else
        free ← ends_not_hanging ps longest;
        if (free : bool) then mret (Some longest) else P1_getEdgeToBreak_loop ps rest
  end.

Definition P1_getEdgeToBreak (ps : ProductionState) : result (option nat) :=
  P1_getEdgeToBreak_loop ps (getLongestEdges ps).

Definition P1_execute (ps : ProductionState) : st World bool :=
  g ← get_graph;
  if negb (P1_checkApplicabilityCondition (getData g (interior ps)) (edgesIterators ps))
  then mret false
  else
    edgeToBreak ← lift (P1_getEdgeToBreak ps);
    match edgeToBreak with
    | None => mret false
    | Some e => breakElementWithoutHangingNode e ps;; mret true
    end.

(** ** Production 2: one broken edge, the longest *)

Definition P2_checkApplicabilityCondition (edgesIterators : list (option EdgeIterator)) : bool :=
  Nat.eqb (countBrokenEdges edgesIterators) 1.

Definition P2_execute (ps : ProductionState) : st World bool :=
  if negb (P2_checkApplicabilityCondition (edgesIterators ps)) then mret false
  else
    brokenEdge ← lift (opt_get (getAnyBrokenEdge ps));
    longest ← graph_reads (λ g, checkIfBrokenEdgeIsTheLongest g brokenEdge ps);
    if negb longest then mret false
    else breakElementWithHangingNode brokenEdge ps;; mret true.

(** ** Production 3: one broken edge, not the longest *)

Definition P3_checkApplicabilityCondition (edgesIterators : list (option EdgeIterator)) : bool :=
  Nat.eqb (countBrokenEdges edgesIterators) 1.

(** The first side of the list that satisfies a test. *)
Fixpoint first_side (test : nat → result bool) (l : list nat) : result (option nat) :=
  match l with
  | [] => mret None
  | x :: l' =>
      b ← test x;
      if (b : bool) then mret (Some x) else first_side test l'
  end.

Definition P3_execute (ps : ProductionState) : st World bool :=
  if negb (P3_checkApplicabilityCondition (edgesIterators ps)) then mret false
  else
    brokenEdge ← lift (opt_get (getAnyBrokenEdge ps));
    longest ← graph_reads (λ g, checkIfBrokenEdgeIsTheLongest g brokenEdge ps);
    if (longest : bool) then mret false
    else
      onBorder ← lift (first_side (side_is_border ps) (getLongestEdges ps));
      match onBorder with
      | Some e => breakElementWithoutHangingNode e ps;; mret true
      | None =>
          free ← lift (first_side (ends_not_hanging ps) (getLongestEdges ps));
          match free with
          | Some e => breakElementWithoutHangingNode e ps;; mret true
          | None => mret false
          end
      end.

(** ** Production 4: two broken edges, one of them among the longest *)

Definition P4_checkApplicabilityCondition (edgesIterators : list (option EdgeIterator)) : bool :=
  Nat.eqb (countBrokenEdges edgesIterators) 2.

Definition P4_execute (ps : ProductionState) : st World bool :=
  if negb (P4_checkApplicabilityCondition (edgesIterators ps)) then mret false
  else
    longestEdges ← lift (getLongestEdgesIncludingBrokenOnes ps);
    match List.find (λ longest, bool_decide (longest ∈ brokenEdges ps)) longestEdges with
    | Some e => breakElementWithHangingNode e ps;; mret true
    | None => mret false
    end.

(** ** Production 5: two broken edges, the third is the only longest *)

Definition P5_checkApplicabilityCondition (edgesIterators : list (option EdgeIterator)) : bool :=
  Nat.eqb (countBrokenEdges edgesIterators) 2.

Definition P5_execute (ps : ProductionState) : st World bool :=
  if negb (P5_checkApplicabilityCondition (edgesIterators ps)) then mret false
  else
    longestEdges ← lift (getLongestEdgesIncludingBrokenOnes ps);
    if Nat.ltb 1 (length longestEdges) then mret false
    else
      longest ← lift (get_opt (longestEdges !! 0));
      if bool_decide (longest ∈ brokenEdges ps) then mret false
      else breakElementWithoutHangingNode longest ps;; mret true.

(** ** Production 6: three broken edges *)

Definition P6_checkApplicabilityCondition (edgesIterators : list (option EdgeIterator)) : bool :=
  Nat.eqb (countBrokenEdges edgesIterators) 3.

Definition P6_execute (ps : ProductionState) : st World bool :=
  if negb (P6_checkApplicabilityCondition (edgesIterators ps)) then mret false
  else
    longestEdges ← lift (getLongestEdgesIncludingBrokenOnes ps);
    longest ← lift (get_opt (longestEdges !! 0));
    breakElementWithHangingNode longest ps;; mret true.
