(* ===== verification/ProductionFacts.v ===== *)
(** * Correctness of the six productions

    Each production either leaves the graph as it is and returns [false], or cuts
    the triangle in two and returns [true]; the theorems say which, and that the
    code never fails on a mesh whose broken sides have a vertex in the middle. *)
From stdpp Require Import sets.
From S2P Require Import Prelude Double NumUtils Model MorphGraph GraphFacts GraphSpec.
From S2P Require Import Connectivity ConnFacts Production Productions Mesh Break.

(** ** Tests on sides as functions *)

Definition border_at (ps : ProductionState) (e : nat) : bool :=
  match edgesData ps !! e with Some (Some d) => isBorder d | _ => false end.

(** Both ends of the side [e] are not hanging. *)
Definition free_at (ps : ProductionState) (e : nat) : bool :=
  match verticesData ps !! e, verticesData ps !! ((e + 1) mod 3) with
  | Some da, Some db => negb (isHanging da) && negb (isHanging db)
  | _, _ => false
  end.

Lemma first_side_find test f l :
  (∀ x, x ∈ l → test x = Ok (f x)) → first_side test l = Ok (List.find f l).
Proof.
  induction l as [|x l IH]; intros H; [done|]. simpl. rewrite H by (by left).
  simpl. destruct (f x); [done|]. apply IH. intros y Hy. apply H. by right.
Qed.

Lemma P1_loop_find ps l :
  (∀ x, x ∈ l → side_is_border ps x = Ok (border_at ps x)) →
  (∀ x, x ∈ l → ends_not_hanging ps x = Ok (free_at ps x)) →
  P1_getEdgeToBreak_loop ps l = Ok (List.find (λ e, border_at ps e || free_at ps e) l).
Proof.
  induction l as [|x l IH]; intros Hb Hf; [done|]. simpl.
  rewrite Hb by (by left). simpl. destruct (border_at ps x); [done|]. simpl.
  rewrite Hf by (by left). simpl. destruct (free_at ps x); [done|].
  apply IH; intros y Hy; [apply Hb|apply Hf]; by right.
Qed.

Lemma getLongestEdges_lt ps e : e ∈ getLongestEdges ps → e < 3.
Proof. unfold getLongestEdges. intros [_ He]%list_elem_of_filter. set_unfold in He. lia. Qed.

(** ** A triangle of a mesh *)

Section Triangle.
Context (g : Graph) (ctx : list GNode) (ps : ProductionState).
Hypothesis Hm : mesh_ok g.
Hypothesis Ht : triangle g ps.

Let Hw : wf g := mo_wf _ Hm.

Lemma ends_run e : e < 3 → ends_not_hanging ps e = Ok (free_at ps e).
Proof.
  intros He. destruct (tr_side _ _ Ht e He) as (a & b & c & Hs).
  unfold ends_not_hanging, free_at, vertexData. cbn [getEdgeVertices].
  rewrite (sd_da _ _ _ _ _ _ Hs), (sd_db _ _ _ _ _ _ Hs). simpl.
  by destruct (isHanging (getData g a)).
Qed.

Lemma broken_iff e a b c :
  side g ps e a b c → (edgesIterators ps !! e = Some None ↔ edge_data g a b = None).
Proof.
  intros Hs. rewrite (sd_it _ _ _ _ _ _ Hs), getEdge_adj by done.
  pose proof (edge_data_adj g a b Hw) as He. destruct (adj g a b) as [p|] eqn:E.
  - destruct He as [_ [d ->]]; [by eexists|]. done.
  - unfold edge_data. by rewrite E.
Qed.

Lemma elem_of_brokenEdges e a b c :
  e < 3 → side g ps e a b c → (e ∈ brokenEdges ps ↔ edge_data g a b = None).
Proof.
  intros He Hs. rewrite (tr_broken _ _ Ht), list_elem_of_filter, (broken_iff e a b c Hs).
  set_unfold. intuition lia.
Qed.

Lemma border_run e : e < 3 → e ∉ brokenEdges ps → side_is_border ps e = Ok (border_at ps e).
Proof.
  intros He Hb. destruct (tr_side _ _ Ht e He) as (a & b & c & Hs).
  rewrite (elem_of_brokenEdges e a b c He Hs) in Hb.
  unfold side_is_border, border_at. rewrite (sd_ed _ _ _ _ _ _ Hs).
  by destruct (edge_data g a b).
Qed.

(** The number of broken sides, and their list. *)
Lemma count_brokenEdges : countBrokenEdges (edgesIterators ps) = length (brokenEdges ps).
Proof.
  rewrite countBrokenEdges_length, (tr_broken _ _ Ht). pose proof (tr_iters _ _ Ht) as Hl.
  destruct (edgesIterators ps) as [|i0 [|i1 [|i2 [|]]]]; try done.
  destruct i0, i1, i2; reflexivity.
Qed.

(** The production cut the triangle in two by a new vertex on the side [e]. *)
Definition cut_at (e : nat) (w : World) : Prop :=
  ∃ a b c d z g', side g ps e a b c ∧ edge_data g a b = Some d ∧
    w = mkWorld g' (ctx ++ [length (nodes g); 1 + length (nodes g); 2 + length (nodes g)]) ∧
    zGetter ps (getX (midpoint g a b)) (getY (midpoint g a b)) = Ok z ∧
    bisected (version2D ps) d
      (mkCoordinates (getX (midpoint g a b)) (getY (midpoint g a b)) z)
      (interior ps) a b c g g'.

(** The production cut the triangle in two at the vertex found on the broken side
    [e]. *)
Definition mended_at (e : nat) (w : World) : Prop :=
  ∃ a b c m g', side g ps e a b c ∧ edge_data g a b = None ∧
    findNodeBetween g a b = Some m ∧
    w = mkWorld g' (ctx ++ [length (nodes g); 1 + length (nodes g)]) ∧
    mended (version2D ps) (interior ps) m a b c g g'.

(** The terrain has a height in the middle of every side. *)
Definition heights_ok : Prop := ∀ e a b c, e < 3 → side g ps e a b c →
  ∃ z, zGetter ps (getX (midpoint g a b)) (getY (midpoint g a b)) = Ok z.

Hypothesis Hz : heights_ok.

Lemma cut_run e :
  e < 3 → e ∉ brokenEdges ps →
  ∃ w, (breakElementWithoutHangingNode e ps;; mret true) (mkWorld g ctx) = Ok (true, w) ∧
    cut_at e w.
Proof.
  intros He Hb. destruct (tr_side _ _ Ht e He) as (a & b & c & Hs).
  rewrite (elem_of_brokenEdges e a b c He Hs) in Hb.
  destruct (edge_data g a b) as [d|] eqn:Hd; [|done].
  destruct (Hz e a b c He Hs) as [z Hzz].
  destruct (breakElementWithoutHangingNode_run e d z a b c g ctx ps) as (g' & Hr & Hbi);
    [done..|].
  eexists. split; [by st_step Hr|]. exists a, b, c, d, z, g'. auto 10.
Qed.

Definition P1_guard : bool :=
  isToRefine (getData g (interior ps)) && bool_decide (brokenEdges ps = []).

Definition P1_choice : option nat :=
  List.find (λ e, border_at ps e || free_at ps e) (getLongestEdges ps).

Lemma no_broken : hasBrokenEdge (edgesIterators ps) = negb (bool_decide (brokenEdges ps = [])).
Proof.
  unfold hasBrokenEdge. rewrite count_brokenEdges. by destruct (brokenEdges ps).
Qed.

(** Production 1 chooses the first longest side that is on the border or has no
    hanging end. *)
Lemma P1_run :
  if P1_guard then
    match P1_choice with
    | Some e => ∃ w, P1_execute ps (mkWorld g ctx) = Ok (true, w) ∧ e ∈ getLongestEdges ps ∧ cut_at e w
    | None => P1_execute ps (mkWorld g ctx) = Ok (false, mkWorld g ctx)
    end
  else P1_execute ps (mkWorld g ctx) = Ok (false, mkWorld g ctx).
Proof.
  unfold P1_guard, P1_execute, P1_checkApplicabilityCondition.
  rewrite (st_bind_step get_graph _ _ (mkWorld g ctx) g) by done.
  rewrite no_broken, negb_involutive.
  destruct (isToRefine (getData g (interior ps))) eqn:Hr; [|done]. cbn [andb].
  case_bool_decide as Hb; [|done]. cbn [negb].
  assert (∀ e, e ∉ brokenEdges ps) as Hnb by (rewrite Hb; set_solver).
  rewrite (st_bind_step _ _ _ (mkWorld g ctx) P1_choice).
  - unfold P1_choice. destruct (List.find _ _) as [e|] eqn:Hf; [|done].
    apply List.find_some in Hf as [Hin%list_elem_of_In _].
    destruct (cut_run e) as (w & Hrun & Hc); [by eapply getLongestEdges_lt|done|]. eauto.
  - unfold lift, P1_getEdgeToBreak. rewrite P1_loop_find; [done|..]; intros x Hx;
      apply (getLongestEdges_lt ps x) in Hx.
    + by apply border_run.
    + by apply ends_run.
Qed.

(** *** Broken sides *)

(** Every broken side has a vertex in the middle, other than the opposite one. *)
Definition conforming : Prop := ∀ e a b c, e < 3 → side g ps e a b c → edge_data g a b = None →
  ∃ m, findNodeBetween g a b = Some m ∧ is_vertex g m ∧ m ≠ c.

Hypothesis Hc : conforming.

Lemma between_not_end a b m : findNodeBetween g a b = Some m → m ≠ a ∧ m ≠ b.
Proof.
  intros Hf. apply findNodeBetween_Some in Hf as ([p Hp] & [q Hq] & _); [|done].
  apply adj_Some in Hp, Hq; [|done..].
  split; intros E; [rewrite E in Hp|rewrite E in Hq]; by eapply adjP_irrefl.
Qed.

Lemma mend_run e :
  e < 3 → e ∈ brokenEdges ps →
  ∃ w, (breakElementWithHangingNode e ps;; mret true) (mkWorld g ctx) = Ok (true, w) ∧
    mended_at e w.
Proof.
  clear Hz. intros He Hb. destruct (tr_side _ _ Ht e He) as (a & b & c & Hs).
  rewrite (elem_of_brokenEdges e a b c He Hs) in Hb.
  destruct (Hc e a b c He Hs Hb) as (m & Hf & Hv & Hmc).
  destruct (between_not_end _ _ _ Hf) as [Hma Hmb].
  destruct (breakElementWithHangingNode_run e m a b c g ctx ps) as (g' & Hr & Hme);
    [done|apply Hs|done|done|set_solver|].
  eexists. split; [by st_step Hr|]. exists a, b, c, m, g'. auto 10.
Qed.

Definition edge_len (u v : GNode) : double :=
  default (of_Z 0) (getLength <$> edge_data g u v).

Lemma getEdgeData_run u v d :
  edge_data g u v = Some d → getEdgeData g (findEdge g u v) = Ok d.
Proof.
  intros Hd. unfold edge_data in Hd. apply bind_Some in Hd as (p & Hp & Hd).
  apply adj_Some in Hp; [|done]. by rewrite (getEdgeData_findEdge _ _ _ _ Hw Hp), Hd.
Qed.

Lemma longest_side_unbroken e i lens j :
  i < 3 → i ≠ e → i ∉ brokenEdges ps →
  longest_side g e ps (lens, j) i = Ok (<[j := nth_length ps i]> lens, S j).
Proof.
  intros Hi Hie Hb. destruct (tr_side _ _ Ht i Hi) as (a & b & c & Hs).
  rewrite (elem_of_brokenEdges i a b c Hi Hs) in Hb.
  destruct (edge_data g a b) as [d|] eqn:Hd; [|done].
  unfold longest_side. rewrite (proj2 (Nat.eqb_neq _ _) Hie). cbn [negb].
  rewrite (sd_it _ _ _ _ _ _ Hs). cbn [get_opt mbind result_bind].
  pose proof (getEdgeData_run _ _ _ Hd) as Hg. unfold getEdge, convertToOptionalEdge.
  rewrite findEdge_end by done.
  destruct (edge_data_adj g a b Hw) as [[p ->] _]; [by eexists|]. cbn [opt_get].
  cbn [mbind result_bind]. rewrite Hg. unfold nth_length. rewrite (sd_len _ _ _ _ _ _ Hs), Hd. done.
Qed.

Lemma longest_side_broken e a b c m lens j :
  side g ps e a b c → findNodeBetween g a b = Some m →
  longest_side g e ps (lens, j) e =
    Ok (<[3 := edge_len b m]> (<[2 := edge_len a m]> lens), j).
Proof.
  intros Hs Hf. unfold longest_side. rewrite Nat.eqb_refl. cbn [negb getEdgeVertices].
  unfold vertex. rewrite (sd_va _ _ _ _ _ _ Hs), (sd_vb _ _ _ _ _ _ Hs).
  cbn [get_opt mbind result_bind]. rewrite Hf. cbn [opt_get].
  apply findNodeBetween_Some in Hf as (Ha & Hb & _); [|done].
  apply edge_data_adj in Ha as [da Hda], Hb as [db Hdb]; [|done..].
  cbn [mbind result_bind]. rewrite (getEdgeData_run _ _ _ Hda). cbn [mbind result_bind].
  rewrite (getEdgeData_run _ _ _ Hdb).
  unfold edge_len. by rewrite Hda, Hdb.
Qed.

(** The two halves of the broken side [e] together are at least as long as each
    of the other sides. *)
Definition broken_is_longest (e : nat) : bool :=
  match vertices ps !! e, vertices ps !! ((e + 1) mod 3) with
  | Some a, Some b =>
      match findNodeBetween g a b with
      | Some m => forallb (λ i, negb (less (dadd (edge_len a m) (edge_len b m)) (nth_length ps i)))
                    (filter (λ i, i ≠ e) [0; 1; 2])
      | None => false
      end
  | _, _ => false
  end.

Lemma checkIfBroken_run e :
  brokenEdges ps = [e] → checkIfBrokenEdgeIsTheLongest g e ps = Ok (broken_is_longest e).
Proof.
  clear Hz. intros Hb.
  assert (e < 3) as He.
  { assert (e ∈ brokenEdges ps) as Hin by (rewrite Hb; set_solver).
    rewrite (tr_broken _ _ Ht) in Hin. apply list_elem_of_filter in Hin as [_ Hin].
    set_unfold in Hin. lia. }
  destruct (tr_side _ _ Ht e He) as (a & b & c & Hs).
  destruct (Hc e a b c He Hs) as (m & Hf & _).
  { apply (elem_of_brokenEdges e a b c He Hs). rewrite Hb. set_solver. }
  assert (∀ i lens j, i < 3 → i ≠ e → longest_side g e ps (lens, j) i =
    Ok (<[j := nth_length ps i]> lens, S j)) as Hun.
  { intros i lens j Hi Hie. apply longest_side_unbroken; [done..|]. rewrite Hb. set_solver. }
  unfold broken_is_longest. rewrite (sd_va _ _ _ _ _ _ Hs), (sd_vb _ _ _ _ _ _ Hs), Hf.
  pose proof (λ lens j, longest_side_broken e a b c m lens j Hs Hf) as Hbr.
  unfold checkIfBrokenEdgeIsTheLongest.
  destruct e as [|[|[|]]]; [| | |lia]; rewrite ?Hun, ?Hbr by lia;
    cbn [mbind result_bind]; rewrite ?Hun, ?Hbr by lia;
    cbn [mbind result_bind]; rewrite ?Hun, ?Hbr by lia;
    cbn [mbind result_bind mret result_ret]; unfold broken_is_longest; simpl;
    by rewrite andb_true_r.
Qed.

Definition unchanged (r : result (bool * World)) : Prop := r = Ok (false, mkWorld g ctx).

Lemma brokenEdges_lt e : e ∈ brokenEdges ps → e < 3.
Proof. rewrite (tr_broken _ _ Ht). intros [_ H]%list_elem_of_filter. set_unfold in H. lia. Qed.

Lemma P2_run :
  match brokenEdges ps with
  | [e] => if broken_is_longest e
           then ∃ w, P2_execute ps (mkWorld g ctx) = Ok (true, w) ∧ mended_at e w
           else unchanged (P2_execute ps (mkWorld g ctx))
  | _ => unchanged (P2_execute ps (mkWorld g ctx))
  end.
Proof.
  clear Hz. unfold P2_execute, P2_checkApplicabilityCondition, getAnyBrokenEdge. rewrite count_brokenEdges.
  destruct (brokenEdges ps) as [|e [|]] eqn:Hb; [done| |done]. cbn [length Nat.eqb negb head].
  rewrite (st_bind_step _ _ _ (mkWorld g ctx) e) by done.
  rewrite (st_bind_step _ _ _ (mkWorld g ctx) (broken_is_longest e)).
  - destruct (broken_is_longest e); [|done]. cbn [negb].
    apply mend_run; [apply brokenEdges_lt|]; rewrite Hb; set_solver.
  - unfold graph_reads, reads. cbn [w_graph]. by rewrite checkIfBroken_run.
Qed.

(** With one broken side, that side is not in [getLongestEdges]: its length [-1] is
    less than the others. *)
Definition lengths_ok : Prop :=
  ∀ b e, brokenEdges ps = [b] → e ∈ getLongestEdges ps → e ≠ b.

(** The first longest side on the border, or else the first without a hanging end. *)
Definition P3_choice : option nat :=
  match List.find (border_at ps) (getLongestEdges ps) with
  | Some e => Some e
  | None => List.find (free_at ps) (getLongestEdges ps)
  end.

Lemma P3_run :
  lengths_ok →
  match brokenEdges ps with
  | [e] => if broken_is_longest e then unchanged (P3_execute ps (mkWorld g ctx))
           else match P3_choice with
                | Some e' => ∃ w, P3_execute ps (mkWorld g ctx) = Ok (true, w) ∧ cut_at e' w
                | None => unchanged (P3_execute ps (mkWorld g ctx))
                end
  | _ => unchanged (P3_execute ps (mkWorld g ctx))
  end.
Proof.
  intros Hl0. unfold P3_execute, P3_checkApplicabilityCondition, getAnyBrokenEdge.
  rewrite count_brokenEdges. destruct (brokenEdges ps) as [|e [|]] eqn:Hb; [done| |done].
  assert (∀ e', e' ∈ getLongestEdges ps → e' ∉ brokenEdges ps) as Hl.
  { intros e' He'. rewrite Hb, list_elem_of_singleton. by apply Hl0. }
  cbn [length Nat.eqb negb head]. rewrite (st_bind_step _ _ _ (mkWorld g ctx) e) by done.
  rewrite (st_bind_step _ _ _ (mkWorld g ctx) (broken_is_longest e));
    [|unfold graph_reads, reads; cbn [w_graph]; by rewrite checkIfBroken_run].
  destruct (broken_is_longest e); [done|].
  assert (∀ f e', List.find f (getLongestEdges ps) = Some e' →
    ∃ w, (breakElementWithoutHangingNode e' ps;; mret true) (mkWorld g ctx) = Ok (true, w) ∧
      cut_at e' w) as Hcut.
  { intros f e' [Hin%list_elem_of_In _]%List.find_some.
    apply cut_run; [by eapply getLongestEdges_lt|by apply Hl]. }
  unfold P3_choice.
  rewrite (first_side_find (side_is_border ps) (border_at ps)); [|intros x Hx; apply border_run;
    [by eapply getLongestEdges_lt|by apply Hl]].
  rewrite (st_bind_step _ _ _ (mkWorld g ctx) (List.find (border_at ps) (getLongestEdges ps))) by done.
  destruct (List.find (border_at ps) _) as [e'|] eqn:Hf; [by eapply Hcut|].
  rewrite (first_side_find (ends_not_hanging ps) (free_at ps)); [|intros x Hx; apply ends_run;
    by eapply getLongestEdges_lt].
  rewrite (st_bind_step _ _ _ (mkWorld g ctx) (List.find (free_at ps) (getLongestEdges ps))) by done.
  destruct (List.find (free_at ps) _) as [e'|] eqn:Hf'; [by eapply Hcut|done].
Qed.

(** The sides whose ends are farthest apart, broken or not. *)
Definition corner (i : nat) : Coordinates :=
  match verticesData ps !! i with Some d => getCoords d | None => Coordinates0 end.
Definition farthest : list nat :=
  indexesOfMaxElems
    ((λ i, dist (corner i) (corner ((i + 1) mod 3)) (version2D ps)) <$> [0; 1; 2]).

Lemma farthest_run : getLongestEdgesIncludingBrokenOnes ps = Ok farthest.
Proof.
  destruct (tr_side _ _ Ht 0) as (a & b & c & Hs); [lia|].
  pose proof (sd_da _ _ _ _ _ _ Hs) as Ha. pose proof (sd_db _ _ _ _ _ _ Hs) as Hb.
  pose proof (sd_dc _ _ _ _ _ _ Hs) as Hc'. cbn in Ha, Hb, Hc'.
  unfold getLongestEdgesIncludingBrokenOnes, farthest, corner.
  cbn -[indexesOfMaxElems dist]. by rewrite Ha, Hb, Hc'.
Qed.

Lemma farthest_spec : ∃ p M,
  near_max ((λ i, dist (corner i) (corner ((i + 1) mod 3)) (version2D ps)) <$> [0; 1; 2])
    p M farthest.
Proof.
  unfold farthest. cbn [fmap list_fmap indexesOfMaxElems].
  match goal with |- context [indexesOfMaxElems_loop 1 ?r ?x [0]] =>
    apply (indexesOfMaxElems_loop_spec r [x] 0 x [0]) end.
  split_and!; [done|done| |].
  - intros i. rewrite list_elem_of_singleton. split; [by left|].
    intros [->|(? & y & Hy%lookup_lt_Some & _)]; [done|simpl in Hy; lia].
  - intros i y Hi Hy%lookup_lt_Some. simpl in Hy. lia.
Qed.

Lemma farthest_head : ∃ e rest, farthest = e :: rest.
Proof.
  destruct farthest_spec as (p & M & _ & Hh & _). destruct farthest; [done|eauto].
Qed.

Lemma farthest_lt e : e ∈ farthest → e < 3.
Proof.
  destruct farthest_spec as (p & M & Hp & _ & Hin & _). rewrite Hin.
  intros [->|(_ & x & Hx & _)]; [apply lookup_lt_Some in Hp|apply lookup_lt_Some in Hx]; done.
Qed.

(** *** Two and three broken sides *)

Definition P4_choice : option nat :=
  List.find (λ e, bool_decide (e ∈ brokenEdges ps)) farthest.

Lemma P4_run :
  if bool_decide (length (brokenEdges ps) = 2) then
    match P4_choice with
    | Some e => ∃ w, P4_execute ps (mkWorld g ctx) = Ok (true, w) ∧ mended_at e w
    | None => unchanged (P4_execute ps (mkWorld g ctx))
    end
  else unchanged (P4_execute ps (mkWorld g ctx)).
Proof.
  clear Hz. unfold P4_execute, P4_checkApplicabilityCondition. rewrite count_brokenEdges.
  case_bool_decide as Hn; [rewrite (proj2 (Nat.eqb_eq _ _) Hn)|by rewrite (proj2 (Nat.eqb_neq _ _) Hn)].
  cbn [negb]. rewrite (st_bind_step _ _ _ (mkWorld g ctx) farthest);
    [|unfold lift; by rewrite farthest_run].
  fold P4_choice. destruct P4_choice as [e|] eqn:Hf; [|done].
  apply List.find_some in Hf as [Hin%list_elem_of_In Hb%bool_decide_eq_true].
  apply mend_run; [by apply farthest_lt|done].
Qed.

(** Production 5 wants one farthest side, not broken. *)
Lemma P5_run :
  match bool_decide (length (brokenEdges ps) = 2), farthest with
  | true, [e] =>
      if bool_decide (e ∈ brokenEdges ps) then unchanged (P5_execute ps (mkWorld g ctx))
      else ∃ w, P5_execute ps (mkWorld g ctx) = Ok (true, w) ∧ cut_at e w
  | _, _ => unchanged (P5_execute ps (mkWorld g ctx))
  end.
Proof.
  unfold P5_execute, P5_checkApplicabilityCondition. rewrite count_brokenEdges.
  case_bool_decide as Hn; [rewrite (proj2 (Nat.eqb_eq _ _) Hn)|by rewrite (proj2 (Nat.eqb_neq _ _) Hn)].
  cbn [negb]. rewrite (st_bind_step _ _ _ (mkWorld g ctx) farthest);
    [|unfold lift; by rewrite farthest_run].
  destruct farthest_head as (e & rest & Hf). pose proof (farthest_lt e) as Hlt.
  rewrite Hf in *. destruct rest; [|done]. cbn [length Nat.ltb Nat.leb lookup list_lookup get_opt].
  rewrite (st_bind_step _ _ _ (mkWorld g ctx) e) by done.
  case_bool_decide as Hb; [done|]. apply cut_run; [apply Hlt; by left|done].
Qed.

(** Production 6 applies to every triangle with three broken sides. *)
Lemma P6_run :
  match bool_decide (length (brokenEdges ps) = 3), farthest with
  | true, e :: _ => ∃ w, P6_execute ps (mkWorld g ctx) = Ok (true, w) ∧ mended_at e w
  | _, _ => unchanged (P6_execute ps (mkWorld g ctx))
  end.
Proof.
  clear Hz. unfold P6_execute, P6_checkApplicabilityCondition. rewrite count_brokenEdges.
  case_bool_decide as Hn; [rewrite (proj2 (Nat.eqb_eq _ _) Hn)|by rewrite (proj2 (Nat.eqb_neq _ _) Hn)].
  cbn [negb]. rewrite (st_bind_step _ _ _ (mkWorld g ctx) farthest);
    [|unfold lift; by rewrite farthest_run].
  destruct farthest_head as (e & rest & Hf). pose proof (farthest_lt e) as Hlt.
  rewrite Hf in *. rewrite (st_bind_step _ _ _ (mkWorld g ctx) e) by done.
  assert (e < 3) as He by (apply Hlt; by left).
  apply mend_run; [done|]. rewrite (tr_broken _ _ Ht) in *.
  rewrite !filter_cons in *. repeat case_decide; simpl in Hn; try lia. set_unfold. lia.
Qed.
End Triangle.
