(* ===== verification/MeshCheck.v ===== *)
(** * Deciding the invariants on a given graph *)
From stdpp Require Import sets.
From S2P Require Import Prelude Double NumUtils Model MorphGraph GraphFacts GraphSpec.
From S2P Require Import Connectivity ConnFacts Production Productions Mesh Break ProductionFacts.

(** ** [wf] *)

Definition node_ids (g : Graph) : list GNode := seq 0 (length (nodes g)).

(** An entry [e] of the vector of [u] is in range, no loop, and has its mirror. *)
Definition entry_ok (g : Graph) (u : GNode) (e : EdgeInfo) : bool :=
  Nat.ltb (first e) (length (nodes g)) && Nat.ltb (second e) (length (edge_mem g)) &&
  negb (isInEdge e) && negb (Nat.eqb (first e) u) &&
  (negb (active g (first e)) ||
   active g u && bool_decide (mkEdgeInfo u (second e) false ∈ edges g (first e))).

(** The live entries of a vector lead to different nodes. *)
Definition uniq_ok (g : Graph) (u : GNode) : bool :=
  let l := edges g u in let ix := seq 0 (length l) in
  forallb (λ i, forallb (λ j,
    match l !! i, l !! j with
    | Some e, Some e' =>
        negb (Nat.eqb (first e) (first e')) || negb (active g (first e)) || Nat.eqb i j
    | _, _ => true
    end) ix) ix.

(** The live entries of all vectors, with their owners. *)
Definition live_entries (g : Graph) : list (GNode * EdgeInfo) :=
  u ← node_ids g; (λ e, (u, e)) <$> filter (λ e, active g (first e) = true) (edges g u).

Definition wfb (g : Graph) : bool :=
  forallb (λ u, forallb (entry_ok g u) (edges g u) &&
                (active g u || bool_decide (edges g u = [])) && uniq_ok g u) (node_ids g) &&
  forallb (λ ue, forallb (λ ue',
    negb (Nat.eqb (second ue.2) (second ue'.2)) ||
    bool_decide (same_edge ue.1 (first ue.2) ue'.1 (first ue'.2))) (live_entries g)) (live_entries g).

Lemma forallb_in {A} (f : A → bool) l x : forallb f l = true → x ∈ l → f x = true.
Proof. rewrite forallb_forall. intros H Hx. by apply H, list_elem_of_In. Qed.

Lemma elem_of_node_ids g u : u ∈ node_ids g ↔ u < length (nodes g).
Proof. unfold node_ids. rewrite elem_of_seq. lia. Qed.

Section Wfb.
Context (g : Graph) (Hb : wfb g = true).

Lemma wfb_node u :
  u < length (nodes g) →
  (∀ e, e ∈ edges g u → entry_ok g u e = true) ∧
  (active g u = true ∨ edges g u = []) ∧ uniq_ok g u = true.
Proof.
  intros Hu. apply andb_prop in Hb as [H _]. apply (forallb_in _ _ u) in H;
    [|by apply elem_of_node_ids].
  apply andb_prop in H as [[H1 H2]%andb_prop H3]. split_and!; [|by apply orb_prop in H2 as [?|?%bool_decide_eq_true]; auto|done].
  intros e He. by eapply forallb_in.
Qed.

Lemma wfb_entry u e :
  e ∈ edges g u →
  first e < length (nodes g) ∧ second e < length (edge_mem g) ∧ isInEdge e = false ∧
  first e ≠ u ∧ (active g (first e) = true →
    active g u = true ∧ mkEdgeInfo u (second e) false ∈ edges g (first e)).
Proof.
  intros He. destruct (wfb_node u (edges_lt _ _ _ He)) as (H & _). specialize (H e He).
  unfold entry_ok in H. apply andb_prop in H as [[[[H1 H2]%andb_prop H3]%andb_prop H4]%andb_prop H5].
  apply Nat.ltb_lt in H1, H2. apply negb_true_iff in H3, H4. apply Nat.eqb_neq in H4.
  split_and!; [done..|]. intros Ha. rewrite Ha in H5. simpl in H5.
  apply andb_prop in H5 as [? ?%bool_decide_eq_true]. done.
Qed.

Lemma wfb_live u v p : adjP g u v p → (u, mkEdgeInfo v p false) ∈ live_entries g.
Proof.
  intros [Ha Hin]. unfold live_entries. apply list_elem_of_bind. exists u. split.
  - apply list_elem_of_fmap_2. by apply list_elem_of_filter.
  - apply elem_of_node_ids. by eapply edges_lt.
Qed.

Lemma wfb_sound : wf g.
Proof.
  split.
  - intros u e He. apply wfb_entry in He. tauto.
  - intros u Hu. destruct (decide (u < length (nodes g))) as [Hlt|Hge].
    + destruct (wfb_node u Hlt) as (_ & [?|?] & _); congruence.
    + unfold edges, node_at. by rewrite lookup_ge_None_2 by lia.
  - intros u e He. apply wfb_entry in He. tauto.
  - intros u v p [Ha Hin]. destruct (wfb_entry _ _ Hin) as (_ & _ & _ & _ & Hs).
    by destruct (Hs Ha).
  - intros u i j e e' Hi Hj Hee Ha.
    destruct (wfb_node u) as (_ & _ & Hu); [by eapply edges_lt, list_elem_of_lookup_2|].
    apply (forallb_in _ _ i) in Hu; [|apply elem_of_seq; apply lookup_lt_Some in Hi; lia].
    apply (forallb_in _ _ j) in Hu; [|apply elem_of_seq; apply lookup_lt_Some in Hj; lia].
    rewrite Hi, Hj, <- Hee, Nat.eqb_refl, Ha in Hu. by apply Nat.eqb_eq in Hu.
  - intros u v u' v' p H1%wfb_live H2%wfb_live. apply andb_prop in Hb as [_ H].
    eapply forallb_in in H; [|exact H1]. eapply forallb_in in H; [|exact H2]. simpl in H.
    rewrite Nat.eqb_refl in H. by apply bool_decide_eq_true in H.
Qed.
End Wfb.

(** ** [mesh_ok] and the premises of the productions *)

Definition is_vertexb (g : Graph) (v : GNode) : bool :=
  active g v && negb (isHyperEdge (getData g v)).

Lemma is_vertexb_spec g v : is_vertexb g v = true → is_vertex g v.
Proof. intros [? ?%negb_true_iff]%andb_prop. done. Qed.

Definition mesh_okb (g : Graph) : bool :=
  wfb g &&
  forallb (λ h, negb (active g h && isHyperEdge (getData g h)) ||
                match getNeighbours g h with
                | [a; b; c] => is_vertexb g a && is_vertexb g b && is_vertexb g c
                | _ => false
                end) (node_ids g).

Lemma mesh_okb_sound g : mesh_okb g = true → mesh_ok g.
Proof.
  intros [Hw Ht]%andb_prop. split; [by apply wfb_sound|]. intros h [Ha Hh].
  apply (forallb_in _ _ h) in Ht; [|by apply elem_of_node_ids, active_lt].
  cbv beta in Ht. rewrite Ha, Hh in Ht. simpl in Ht.
  destruct (getNeighbours g h) as [|a [|b [|c [|]]]]; try done.
  apply andb_prop in Ht as [[?%is_vertexb_spec ?%is_vertexb_spec]%andb_prop ?%is_vertexb_spec].
  exists a, b, c. done.
Qed.

Definition conformingb (g : Graph) (ps : ProductionState) : bool :=
  forallb (λ e,
    match vertices ps !! e, vertices ps !! ((e + 1) mod 3)%nat, vertices ps !! ((e + 2) mod 3)%nat with
    | Some a, Some b, Some c =>
        match edge_data g a b, findNodeBetween g a b with
        | Some _, _ => true
        | None, Some m => is_vertexb g m && negb (Nat.eqb m c)
        | None, None => false
        end
    | _, _, _ => false
    end) [0; 1; 2].

Lemma conformingb_sound g ps : conformingb g ps = true → conforming g ps.
Proof.
  intros H e a b c He Hs Hd. apply (forallb_in _ _ e) in H; [|set_unfold; lia].
  cbv beta in H. rewrite (sd_va _ _ _ _ _ _ Hs), (sd_vb _ _ _ _ _ _ Hs), (sd_vc _ _ _ _ _ _ Hs), Hd in H.
  destruct (findNodeBetween g a b) as [m|]; [|done].
  apply andb_prop in H as [Hv%is_vertexb_spec Hn%negb_true_iff%Nat.eqb_neq]. eauto.
Qed.

Lemma lengths_okb_sound ps :
  match brokenEdges ps with
  | [b] => forallb (λ e, negb (Nat.eqb e b)) (getLongestEdges ps)
  | _ => true
  end = true → lengths_ok ps.
Proof.
  intros H b e Hb He. rewrite Hb in H. eapply forallb_in in H; [|exact He].
  by apply negb_true_iff, Nat.eqb_neq in H.
Qed.
