(* ===== verification/Generator.v ===== *)
(** * The sample graphs of [src/utils/GraphGenerator.h] *)
From stdpp Require Import sets.
From S2P Require Import Prelude Double NumUtils Model MorphGraph GraphFacts GraphSpec.
From S2P Require Import Connectivity ConnFacts Production Productions Mesh Break.
From S2P Require Import ProductionFacts MeshCheck.

(** Coordinates given by quarters, the constants of the samples. *)
Definition at_quarters (x y : Z) : Coordinates :=
  mkCoordinates (ddiv (of_Z x) (of_Z 4)) (ddiv (of_Z y) (of_Z 4)) (of_Z 0).

Definition generateSampleGraph : st World unit :=
  n0 ← cm_createNode (NodeData_vertex false (mkCoordinates (of_Z 0) (of_Z 0) (of_Z 0)) false);
  n1 ← cm_createNode (NodeData_vertex false (mkCoordinates (of_Z 0) (of_Z 1) (of_Z 0)) false);
  n2 ← cm_createNode (NodeData_vertex false (mkCoordinates (of_Z 1) (of_Z 0) (of_Z 0)) false);
  n3 ← cm_createNode (NodeData_vertex false (mkCoordinates (of_Z 1) (of_Z 1) (of_Z 0)) false);
  cm_createEdge n0 n1 true (mkCoordinates (of_Z 0) (lit 1 2) (of_Z 0)) (of_Z 1);;
  cm_createEdge n1 n3 true (mkCoordinates (lit 1 2) (of_Z 1) (of_Z 0)) (of_Z 1);;
  cm_createEdge n2 n3 true (mkCoordinates (of_Z 1) (lit 1 2) (of_Z 0)) (of_Z 1);;
  cm_createEdge n0 n2 true (mkCoordinates (lit 1 2) (of_Z 0) (of_Z 0)) (of_Z 1);;
  cm_createEdge n3 n0 false (mkCoordinates (lit 1 2) (lit 1 2) (of_Z 0)) (dsqrt (of_Z 2));;
  cm_createInterior n0 n1 n3;;
  cm_createInterior n0 n3 n2;;
  mret tt.

(** ** The samples that work on the graph itself *)

(** [graph.createNode(data)] and [graph.addNode(node)] *)
Definition gg_createNode (d : NodeData) : st World GNode := graph_call (createNode d).
Definition gg_addNode (n : GNode) : st World unit := graph_modify (addNode n).

(** [graph.addEdge(u, v)] *)
Definition gg_addEdge (u v : GNode) : st World unit := _ ← graph_call (addEdge u v); mret tt.

(** An assignment to [graph.getEdgeData(graph.findEdge(u, v))] *)
Definition gg_edgeData (u v : GNode) (f : EdgeData → EdgeData) : st World unit :=
  g ← get_graph;
  graph_try (updEdgeData f (findEdge g u v)).

(** The four statements that make an edge. *)
Definition gg_edge (u v : GNode) (border : bool) (mid : Coordinates) (len : double)
    : st World unit :=
  gg_addEdge u v;;
  gg_edgeData u v (setBorder border);;
  gg_edgeData u v (setMiddlePoint mid);;
  gg_edgeData u v (setLength len).

(** The two statements that join an interior to a vertex. *)
Definition gg_spoke (h v : GNode) : st World unit :=
  gg_addEdge h v;;
  gg_edgeData h v (setBorder false).

Definition generateSampleGraph3 : st World unit :=
  let vertex_at x y := gg_createNode (NodeData_vertex false (at_quarters x y) false) in
  let interior_at x y :=
    gg_createNode (NodeData_interior_at true true (mkCoordinates x y (of_Z 0))) in
  let half := ddiv (dsqrt (of_Z 2)) (of_Z 2) in
  node1 ← vertex_at 0%Z 0%Z;
  node2 ← vertex_at 0%Z 4%Z;
  node3 ← vertex_at 4%Z 0%Z;
  node4 ← vertex_at 4%Z 4%Z;
  node5 ← vertex_at 6%Z 2%Z;
  node6 ← vertex_at 2%Z (-2)%Z;
  hEdge1 ← interior_at (lit 3 10) (lit 7 10);
  hEdge2 ← interior_at (lit 7 10) (lit 3 10);
  hEdge3 ← interior_at (lit 117 100) (lit 1 2);
  hEdge4 ← interior_at (lit 1 2) (dopp (lit 17 100));
  for_each_in [node1; node2; node3; node4; node5; node6; hEdge1; hEdge2; hEdge3; hEdge4]
    gg_addNode;;
  gg_edge node1 node2 true (at_quarters 0 2) (of_Z 1);;
  gg_edge node2 node4 true (at_quarters 2 4) (of_Z 1);;
  gg_edge node3 node4 false (at_quarters 4 2) (of_Z 1);;
  gg_edge node1 node3 false (at_quarters 2 0) (of_Z 1);;
  gg_edge node4 node1 false (at_quarters 2 2) (dsqrt (of_Z 2));;
  gg_edge node5 node4 true (at_quarters 5 3) half;;
  gg_edge node5 node3 true (at_quarters 5 1) half;;
  gg_edge node6 node1 true (at_quarters 1 (-1)) half;;
  gg_edge node6 node3 true (at_quarters 3 (-1)) half;;
  gg_spoke hEdge1 node1;; gg_spoke hEdge1 node2;; gg_spoke hEdge1 node4;;
  gg_spoke hEdge2 node1;; gg_spoke hEdge2 node4;; gg_spoke hEdge2 node3;;
  gg_spoke hEdge3 node5;; gg_spoke hEdge3 node4;; gg_spoke hEdge3 node3;;
  gg_spoke hEdge4 node1;; gg_spoke hEdge4 node3;; gg_spoke hEdge4 node6.

(** [for (int i = from; i < to; ++i) body(i)], collecting the results in an array *)
Fixpoint fill_array {S A} (body : nat → st S A) (from n : nat) : st S (list A) :=
  match n with
  | O => mret []
  | Datatypes.S n' => a ← body from; l ← fill_array body (Datatypes.S from) n'; mret (a :: l)
  end.

Definition generateSampleGraph2 : st World unit :=
  nodes ← fill_array (λ i,
    n ← gg_createNode (NodeData_vertex false
          (mkCoordinates (of_Z (Z.of_nat (i mod 3))) (of_Z (Z.of_nat (i / 3))) (of_Z 0)) false);
    gg_addNode n;; mret n) 0 9;
  hEdges ← fill_array (λ _,
    n ← gg_createNode (NodeData_interior true true); gg_addNode n;; mret n) 0 8;
  let node i := lift (get_opt (nodes !! i)) in
  let edge i j mid len :=
    u ← node i; v ← node j; gg_edge u v true mid len in
  edge 0 1 (at_quarters 2 0) (of_Z 1);;
  edge 1 2 (at_quarters 6 0) (of_Z 1);;
  edge 0 3 (at_quarters 0 2) (of_Z 1);;
  edge 1 4 (at_quarters 4 2) (of_Z 1);;
  edge 2 5 (at_quarters 8 2) (of_Z 1);;
  edge 3 4 (at_quarters 2 4) (of_Z 1);;
  edge 4 5 (at_quarters 6 4) (of_Z 1);;
  edge 3 6 (at_quarters 0 6) (of_Z 1);;
  edge 4 7 (at_quarters 4 6) (of_Z 1);;
  edge 5 8 (at_quarters 8 6) (of_Z 1);;
  edge 6 7 (at_quarters 2 8) (of_Z 1);;
  edge 7 8 (at_quarters 6 8) (of_Z 1);;
  for_each_in [0; 1] (λ j,
    let mid := mkCoordinates (dadd (lit 1 2) (of_Z (Z.of_nat (j / 2))))
                             (dadd (lit 1 2) (of_Z (Z.of_nat (j mod 2)))) (of_Z 0) in
    edge j (j + 4) mid (dsqrt (of_Z 2));;
    edge (j + 3) (j + 7) mid (dsqrt (of_Z 2)));;
  for_each_in [0; 1; 2; 3] (λ k,
    let spoke h i := hn ← lift (get_opt (hEdges !! h)); v ← node i; gg_addEdge hn v in
    spoke k ((k + k / 2) mod 9);;
    spoke k ((k + 1 + k / 2) mod 9);;
    spoke k ((k + 4 + k / 2) mod 9);;
    spoke ((k + 4) mod 8) ((k + k / 2) mod 9);;
    spoke ((k + 4) mod 8) ((k + 3 + k / 2) mod 9);;
    spoke ((k + 4) mod 8) ((k + 4 + k / 2) mod 9)).

(** The graph a generator makes from the empty one. *)
Definition generated (gen : st World unit) : Graph :=
  match gen (mkWorld empty_graph []) with Ok (_, w) => w_graph w | Err _ => empty_graph end.
