(* ===== verification/Euler.v ===== *)
(** * Counting a mesh: productions keep the Euler characteristic

    The sets of vertices, edges and triangles of a graph, and how the two ways
    of cutting a triangle change them. *)
From stdpp Require Import gmap sets.
From S2P Require Import Prelude Double NumUtils Model MorphGraph GraphFacts GraphSpec.
From S2P Require Import Connectivity ConnFacts Production Mesh Break MeshCheck.

(** ** Vertices, edges, triangles *)

#[global] Instance is_vertex_dec g v : Decision (is_vertex g v).
Proof. unfold is_vertex. apply _. Defined.
#[global] Instance is_interior_dec g h : Decision (is_interior g h).
Proof. unfold is_interior. apply _. Defined.

Definition V_of (g : Graph) : gset nat :=
  list_to_set (filter (is_vertex g) (node_ids g)).
Definition F_of (g : Graph) : gset nat :=
  list_to_set (filter (is_interior g) (node_ids g)).

(** An edge joins two vertices; it is counted once. *)
Definition is_side (g : Graph) (xy : nat * nat) : Prop :=
  xy.1 < xy.2 ∧ is_vertex g xy.1 ∧ is_vertex g xy.2 ∧ edge_data g xy.1 xy.2 ≠ None.

#[global] Instance is_side_dec g xy : Decision (is_side g xy).
Proof. unfold is_side. destruct (edge_data g xy.1 xy.2); [|right; naive_solver]. apply _. Defined.

Definition E_of (g : Graph) : gset (nat * nat) :=
  list_to_set (filter (is_side g) (x ← node_ids g; (λ y, (x, y)) <$> node_ids g)).

(** [V - E + F] *)
Definition euler (g : Graph) : Z :=
  (Z.of_nat (base.size (V_of g)) - Z.of_nat (base.size (E_of g)) + Z.of_nat (base.size (F_of g)))%Z.

Lemma elem_of_V g v : v ∈ V_of g ↔ is_vertex g v.
Proof.
  unfold V_of. rewrite elem_of_list_to_set, list_elem_of_filter, elem_of_node_ids.
  split; [tauto|]. intros H. split; [done|]. apply active_lt, H.
Qed.

Lemma elem_of_F g h : h ∈ F_of g ↔ is_interior g h.
Proof.
  unfold F_of. rewrite elem_of_list_to_set, list_elem_of_filter, elem_of_node_ids.
  split; [tauto|]. intros H. split; [done|]. apply active_lt, H.
Qed.

Lemma elem_of_E g xy : xy ∈ E_of g ↔ is_side g xy.
Proof.
  unfold E_of. rewrite elem_of_list_to_set, list_elem_of_filter, list_elem_of_bind.
  split; [tauto|]. intros H. split; [done|]. destruct xy as [x y], H as (_ & Hx & Hy & _).
  exists x. rewrite elem_of_node_ids. split; [|apply active_lt, Hx].
  apply list_elem_of_fmap_2, elem_of_node_ids, active_lt, Hy.
Qed.

(** The ordered pair of two nodes. *)
Definition ord (x y : nat) : nat * nat := if decide (x < y) then (x, y) else (y, x).

Lemma ord_same x y u v : x < y → ord u v = (x, y) ↔ same_edge x y u v.
Proof. intros. unfold ord, same_edge. case_decide; split; naive_solver lia. Qed.

Lemma is_side_ord g u v :
  wf g → u ≠ v → is_side g (ord u v) ↔ is_vertex g u ∧ is_vertex g v ∧ edge_data g u v ≠ None.
Proof.
  intros Hw Huv. unfold ord, is_side. case_decide; simpl; rewrite ?(edge_data_sym g v u) by done;
    intuition lia.
Qed.

Section Size.
Context `{Countable A}.
Implicit Types (X : gset A) (x : A).

Lemma size_insert x X : x ∉ X → base.size ({[x]} ∪ X) = S (base.size X).
Proof. intros Hx. rewrite size_union by set_solver. by rewrite size_singleton. Qed.

Lemma size_remove x X : x ∈ X → base.size X = S (base.size (X ∖ {[x]})).
Proof.
  intros Hx. rewrite <- (size_insert x (X ∖ {[x]})) by set_solver. f_equal.
  apply leibniz_equiv, set_equiv. intros y. destruct (decide (y = x)); set_solver.
Qed.
End Size.

(** ** Cutting at a new vertex *)

Section Bisected.
Context (v2d : bool) (d : EdgeData) (p : Coordinates) (i a b c : GNode) (g g' : Graph).
Hypothesis Hm : mesh_ok g.
Hypothesis Hi : is_interior g i.
Hypothesis Ha : is_vertex g a.
Hypothesis Hb : is_vertex g b.
Hypothesis Hc : is_vertex g c.
Hypothesis Hnd : NoDup [a; b; c].
Hypothesis Hd : edge_data g a b = Some d.
Hypothesis Hbi : bisected v2d d p i a b c g g'.
Local Abbreviation fresh_id := (length (nodes g)).

Lemma bisected_new x : fresh_id ≤ x → active g x = false.
Proof. intros Hx. apply not_true_is_false. intros ?%active_lt.  lia. Qed.

Lemma bisected_vertex x : is_vertex g' x ↔ x = fresh_id ∨ is_vertex g x.
Proof.
  unfold is_vertex. rewrite (bi_active _ _ _ _ _ _ _ _ _ Hbi).
  destruct (decide (x < fresh_id)) as [Hlt|Hge].
  - rewrite (bi_data _ _ _ _ _ _ _ _ _ Hbi) by done. destruct Hi as [_ Hih].
    case_decide as E; [rewrite E; intuition (congruence || lia)|].
    rewrite decide_False by lia. intuition lia.
  - rewrite (bisected_new x) by lia. pose proof (active_lt _ _ (proj1 Hi)).
    rewrite decide_False by lia. case_decide as E; [|intuition (congruence || lia)].
    destruct (decide (x = fresh_id)) as [->|]; [rewrite (bi_vertex _ _ _ _ _ _ _ _ _ Hbi); intuition|].
    assert (x = 1 + fresh_id ∨ x = 2 + fresh_id) as [->| ->] by lia;
      [rewrite (bi_hyper1 _ _ _ _ _ _ _ _ _ Hbi)|rewrite (bi_hyper2 _ _ _ _ _ _ _ _ _ Hbi)];
      intuition (congruence || lia).
Qed.

Lemma bisected_interior x :
  is_interior g' x ↔ x = 1 + fresh_id ∨ x = 2 + fresh_id ∨ (is_interior g x ∧ x ≠ i).
Proof.
  unfold is_interior. rewrite (bi_active _ _ _ _ _ _ _ _ _ Hbi).
  pose proof (active_lt _ _ (proj1 Hi)) as Hin.
  destruct (decide (x < fresh_id)) as [Hlt|Hge].
  - rewrite (bi_data _ _ _ _ _ _ _ _ _ Hbi) by done.
    case_decide as E; [intuition (congruence || lia)|].
    rewrite decide_False by lia. intuition lia.
  - rewrite (bisected_new x), decide_False by lia.
    case_decide as E; [|intuition (congruence || lia)].
    destruct (decide (x = fresh_id)) as [->|];
      [rewrite (bi_vertex _ _ _ _ _ _ _ _ _ Hbi); simpl; intuition (congruence || lia)|].
    assert (x = 1 + fresh_id ∨ x = 2 + fresh_id) as [->| ->] by lia;
      [rewrite (bi_hyper1 _ _ _ _ _ _ _ _ _ Hbi)|rewrite (bi_hyper2 _ _ _ _ _ _ _ _ _ Hbi)];
      intuition lia.
Qed.

Lemma bisected_side x y :
  is_side g' (x, y) ↔
  (x, y) = (a, fresh_id) ∨ (x, y) = (b, fresh_id) ∨ (x, y) = (c, fresh_id) ∨ (is_side g (x, y) ∧ (x, y) ≠ ord a b).
Proof.
  pose proof (active_lt _ _ (proj1 Ha)) as La. pose proof (active_lt _ _ (proj1 Hb)) as Lb.
  pose proof (active_lt _ _ (proj1 Hc)) as Lc.
  assert (¬ is_vertex g fresh_id) as Hnv by (intros [Hv _]; by rewrite bisected_new in Hv).
  assert (∀ z, edge_data g z fresh_id = None) as Hno.
  { intros z. destruct (edge_data g z fresh_id) eqn:E; [|done]. exfalso.
    assert (is_Some (adj g z fresh_id)) as [q Hq] by (apply edge_data_adj; [apply Hm|eauto]).
    apply adj_Some in Hq as [Hq _]; [|apply Hm]. by rewrite bisected_new in Hq. }
  rewrite !list.NoDup_cons in Hnd. set_unfold in Hnd.
  unfold is_side. cbn [fst snd]. rewrite !bisected_vertex. split.
  - intros (Hxy & Hx & Hy & He). destruct Hx as [->|Hx].
    { destruct Hy as [->|[Hy%active_lt _]]; [lia|lia]. }
    pose proof (active_lt _ _ (proj1 Hx)) as Lx.
    assert (y ≤ fresh_id) as Ly by (destruct Hy as [->|[Hy%active_lt _]]; [lia|lia]).
    rewrite (bi_edges _ _ _ _ _ _ _ _ _ Hbi) in He;
      [|lia..|by eapply vertex_not_interior|].
    + case_decide as E1; [done|].
      case_decide as E2; [left; f_equal; destruct E2; lia|].
      case_decide as E3; [right; left; f_equal; destruct E3; lia|].
      case_decide as E4; [right; right; left; f_equal; destruct E4; lia|].
      right; right; right. destruct Hy as [->|Hy]; [by rewrite Hno in He|].
      split; [done|]. intros Eo. destruct E1. by apply ord_same.
    + destruct Hy as [->|Hy]; [|by eapply vertex_not_interior].
      intros En. destruct Hi as [Hia _]. rewrite <- En, bisected_new in Hia by lia. done.
  - assert (fresh_id ≠ i) as Hni by (intros En; destruct Hi as [Hia _]; rewrite <- En, bisected_new in Hia by lia; done).
    intros [[= -> ->]|[[= -> ->]|[[= -> ->]|[(Hxy & Hx & Hy & He) Ho]]]].
    all: match goal with
      | |- _ < _ ∧ _ => split; [lia|split; [tauto|split; [tauto|]]] end.
    all: rewrite (bi_edges _ _ _ _ _ _ _ _ _ Hbi);
      [|try (pose proof (active_lt _ _ (proj1 Hx)); pose proof (active_lt _ _ (proj1 Hy))); lia..
       |try by eapply vertex_not_interior|try by eapply vertex_not_interior]; try done.
    all: repeat (case_decide; [try done|]); try done.
    all: try (unfold same_edge in *; intuition lia).
    all: destruct Ho; symmetry; by apply ord_same.
Qed.

Lemma bisected_euler : euler g' = euler g.
Proof.
  pose proof (active_lt _ _ (proj1 Ha)) as La. pose proof (active_lt _ _ (proj1 Hb)) as Lb.
  pose proof (active_lt _ _ (proj1 Hc)) as Lc. pose proof Hnd as Hnd'.
  rewrite !list.NoDup_cons in Hnd'. set_unfold in Hnd'.
  assert (∀ z : nat, (z, fresh_id) ∉ E_of g) as Hne.
  { intros z. rewrite elem_of_E. intros (_ & _ & [Hv _] & _). cbn in Hv.
    by rewrite bisected_new in Hv. }
  assert (V_of g' = {[fresh_id]} ∪ V_of g) as HV.
  { apply leibniz_equiv, set_equiv. intros x.
    rewrite elem_of_union, elem_of_singleton, !elem_of_V. apply bisected_vertex. }
  assert (F_of g' = {[1 + fresh_id]} ∪ ({[2 + fresh_id]} ∪ (F_of g ∖ {[i]}))) as HF.
  { apply leibniz_equiv, set_equiv. intros x.
    rewrite !elem_of_union, elem_of_difference, !elem_of_singleton, !elem_of_F.
    apply bisected_interior. }
  assert (E_of g' = {[(a, fresh_id)]} ∪ ({[(b, fresh_id)]} ∪ ({[(c, fresh_id)]} ∪
    (E_of g ∖ {[ord a b]})))) as HE.
  { apply leibniz_equiv, set_equiv. intros [x y].
    rewrite !elem_of_union, elem_of_difference, !elem_of_singleton, !elem_of_E.
    apply bisected_side. }
  assert (i ∈ F_of g) as HiF by (by apply elem_of_F).
  assert (ord a b ∈ E_of g) as HabE.
  { apply elem_of_E, is_side_ord; [apply Hm|tauto|]. by rewrite Hd. }
  assert (∀ k : nat, (k + fresh_id) ∉ F_of g) as HkF.
  { intros k. rewrite elem_of_F. intros [Hv _]. by rewrite bisected_new in Hv by lia. }
  assert (fresh_id ∉ V_of g).
  { rewrite elem_of_V. intros [Hv _]. by rewrite bisected_new in Hv by lia. }
  unfold euler. rewrite HV, HF, HE, size_insert by done.
  pose proof (HkF 1). pose proof (HkF 2).
  rewrite (size_remove i (F_of g)), (size_remove (ord a b) (E_of g)) by done.
  rewrite !size_insert; [lia|set_unfold; intuition (naive_solver lia)..].
Qed.
End Bisected.

(** ** Cutting at a vertex on the side *)

Section Mended.
Context (v2d : bool) (i m a b c : GNode) (g g' : Graph).
Hypothesis Hm : mesh_ok g.
Hypothesis Hi : is_interior g i.
Hypothesis Hv : is_vertex g m.
Hypothesis Hc : is_vertex g c.
Hypothesis Hmc : m ≠ c.
Hypothesis Hno : edge_data g m c = None.
Hypothesis Hme : mended v2d i m a b c g g'.
Local Abbreviation fresh_id := (length (nodes g)).

Lemma mended_new x : fresh_id ≤ x → active g x = false.
Proof. intros Hx. apply not_true_is_false. intros ?%active_lt. lia. Qed.

Lemma mended_hyper x : x < fresh_id → isHyperEdge (getData g' x) = isHyperEdge (getData g x).
Proof.
  intros Hx. destruct (decide (x = m)) as [->|Hne].
  - by rewrite (me_vertex _ _ _ _ _ _ _ _ Hme).
  - by rewrite (me_data _ _ _ _ _ _ _ _ Hme).
Qed.

Lemma mended_vertex x : is_vertex g' x ↔ is_vertex g x.
Proof.
  unfold is_vertex. rewrite (me_active _ _ _ _ _ _ _ _ Hme).
  pose proof (active_lt _ _ (proj1 Hi)) as Hin. destruct (decide (x < fresh_id)) as [Hlt|Hge].
  - rewrite mended_hyper by done. destruct Hi as [_ Hih].
    case_decide as E; [rewrite E; intuition (congruence || lia)|].
    rewrite decide_False by lia. done.
  - rewrite (mended_new x), decide_False by lia. case_decide as E; [|intuition congruence].
    assert (x = fresh_id ∨ x = 1 + fresh_id) as [->| ->] by lia;
      [rewrite (me_hyper1 _ _ _ _ _ _ _ _ Hme)|rewrite (me_hyper2 _ _ _ _ _ _ _ _ Hme)];
      intuition congruence.
Qed.

Lemma mended_interior x :
  is_interior g' x ↔ x = fresh_id ∨ x = 1 + fresh_id ∨ (is_interior g x ∧ x ≠ i).
Proof.
  unfold is_interior. rewrite (me_active _ _ _ _ _ _ _ _ Hme).
  pose proof (active_lt _ _ (proj1 Hi)) as Hin. destruct (decide (x < fresh_id)) as [Hlt|Hge].
  - rewrite mended_hyper by done. case_decide as E; [intuition (congruence || lia)|].
    rewrite decide_False by lia. intuition lia.
  - rewrite (mended_new x), decide_False by lia.
    case_decide as E; [|intuition (congruence || lia)].
    assert (x = fresh_id ∨ x = 1 + fresh_id) as [->| ->] by lia;
      [rewrite (me_hyper1 _ _ _ _ _ _ _ _ Hme)|rewrite (me_hyper2 _ _ _ _ _ _ _ _ Hme)];
      intuition lia.
Qed.

Lemma mended_side x y :
  is_side g' (x, y) ↔ (x, y) = ord m c ∨ is_side g (x, y).
Proof.
  unfold is_side. cbn [fst snd]. rewrite !mended_vertex.
  assert (∀ z, is_vertex g z → z < fresh_id ∧ z ≠ i) as Hz.
  { intros z Hz. split; [apply active_lt, Hz|by eapply vertex_not_interior]. }
  split.
  - intros (Hxy & Hx & Hy & He). destruct (Hz x Hx), (Hz y Hy).
    rewrite (me_edges _ _ _ _ _ _ _ _ Hme) in He by done.
    case_decide as E; [left; symmetry; by apply ord_same|auto].
  - intros Hor.
    assert (x < y ∧ is_vertex g x ∧ is_vertex g y ∧ (same_edge x y m c ∨ edge_data g x y ≠ None))
      as (Hxy & Hx & Hy & He).
    { destruct Hor as [Ho|?]; [|tauto]. unfold ord in Ho. unfold same_edge.
      case_decide; injection Ho as -> ->; intuition lia. }
    split_and!; [done..|]. destruct (Hz x Hx), (Hz y Hy).
    rewrite (me_edges _ _ _ _ _ _ _ _ Hme) by done. case_decide; [done|]. tauto.
Qed.

Lemma mended_euler : euler g' = euler g.
Proof.
  assert (V_of g' = V_of g) as HV.
  { apply leibniz_equiv, set_equiv. intros x. rewrite !elem_of_V. apply mended_vertex. }
  assert (F_of g' = {[fresh_id]} ∪ ({[1 + fresh_id]} ∪ (F_of g ∖ {[i]}))) as HF.
  { apply leibniz_equiv, set_equiv. intros x.
    rewrite !elem_of_union, elem_of_difference, !elem_of_singleton, !elem_of_F.
    apply mended_interior. }
  assert (E_of g' = {[ord m c]} ∪ E_of g) as HE.
  { apply leibniz_equiv, set_equiv. intros [x y].
    rewrite !elem_of_union, !elem_of_singleton, !elem_of_E. apply mended_side. }
  assert (i ∈ F_of g) as HiF by (by apply elem_of_F).
  assert (∀ k : nat, (k + fresh_id) ∉ F_of g) as HkF.
  { intros k. rewrite elem_of_F. intros [Hk _]. by rewrite mended_new in Hk by lia. }
  assert (ord m c ∉ E_of g) as HmE.
  { rewrite elem_of_E, is_side_ord by (apply Hm || done). rewrite Hno. tauto. }
  unfold euler. rewrite HV, HF, HE, (size_insert (ord m c)) by done.
  pose proof (HkF 0). pose proof (HkF 1). rewrite (size_remove i (F_of g)) by done.
  rewrite !size_insert; [lia|set_unfold; intuition (naive_solver lia)..].
Qed.
End Mended.
