(* ===== verification/Writer.v ===== *)
(** * [src/utils/MyGraphFormatWriter.h]

    The text of the file the writer produces.  [std::set] is a sorted list, an
    [ofstream] prints a [double] with six significant digits, as [printf] does
    with [%g]. *)
From Stdlib Require Import SpecFloat Ascii String.
From S2P Require Import Prelude Double Text NumUtils Model MorphGraph GraphFacts.

Local Open Scope string_scope.

(** ** Sets *)

(** [set.emplace(x)] on a sorted list without equivalent elements *)
Fixpoint set_emplace {A} (lt : A → A → bool) (x : A) (l : list A) : list A :=
  match l with
  | [] => [x]
  | y :: l' => if lt x y then x :: l else if lt y x then y :: set_emplace lt x l' else l
  end.

(** [std::pair<int, NodeData>] and [std::tuple<string, string, bool>] with their
    lexicographic orders *)
Definition Node : Type := Z * NodeData.
Definition Edge : Type := string * string * bool.

Definition Node_lt (a b : Node) : bool :=
  (a.1 <? b.1)%Z || (negb (b.1 <? a.1)%Z && node_lt a.2 b.2).
Definition Edge_lt (a b : Edge) : bool :=
  let '(a1, a2, a3) := a in let '(b1, b2, b3) := b in
  String.ltb a1 b1 || (negb (String.ltb b1 a1) &&
    (String.ltb a2 b2 || (negb (String.ltb b2 a2) && bool_lt a3 b3))).

(** ** The file *)

Definition printEdges (edges : list Edge) : string :=
  String.concat EmptyString (imap (λ i '(a, b, border),
    "E,e" ++ to_string (Z.of_nat i) ++ "," ++ a ++ "," ++ b ++ "," ++ print_bool border ++ endl) edges).

Definition printNodes (nodes : list Node) (preambule : string)
    (attributeChecker : NodeData → bool) : string :=
  String.concat EmptyString ((λ node : Node,
    let c := getCoords node.2 in
    preambule ++ to_string node.1 ++ "," ++ print_double (getX c) ++ "," ++
    print_double (getY c) ++ "," ++ print_double (getZ c) ++ "," ++
    print_bool (attributeChecker node.2) ++ endl) <$> nodes).

Definition writeToMyGraphFormat (vertices interiors : list Node) (edges : list Edge) : string :=
  printNodes vertices "N,n" isHanging ++
  printNodes interiors "H,h" isToRefine ++
  printEdges edges.

(** ** Collecting nodes and edges *)

Definition node_id (data : NodeData) (i : Z) : string :=
  (if isHyperEdge data then "h" else "n") ++ to_string i.

Definition findNode (node : NodeData) (nodesSet : list Node) : option string :=
  match List.find (λ nd : Node, node_eq nd.2 node) nodesSet with
  | Some nd => Some (node_id node nd.1)
  | None => None
  end.

(** Both [getNodeId]: the identifier, the set and the counter. *)
Definition getNodeId (nodes : list Node) (nodesIter : Z) (data : NodeData)
    (additionalNodesSet : option (list Node)) : string * list Node * Z :=
  match findNode data nodes with
  | Some id => (id, nodes, nodesIter)
  | None =>
      match match additionalNodesSet with Some s => findNode data s | None => None end with
      | Some id => (id, nodes, nodesIter)
      | None =>
          (node_id data nodesIter, set_emplace Node_lt (nodesIter, data) nodes, (nodesIter + 1)%Z)
      end
  end.

(** The edge between two identifiers, in either direction. *)
Definition joins (first second : string) (e : Edge) : bool :=
  (String.eqb e.1.1 first && String.eqb e.1.2 second) ||
  (String.eqb e.1.1 second && String.eqb e.1.2 first).

Definition writer_findEdge (first second : string) (edges : list Edge) : option Edge :=
  List.find (joins first second) edges.

Definition writer_addEdge (edges : list Edge) (firstNodeId secondNodeId : string)
    (border : bool) : list Edge :=
  match writer_findEdge firstNodeId secondNodeId edges with
  | None => set_emplace Edge_lt (firstNodeId, secondNodeId, border) edges
  | Some _ => edges
  end.

(** The local variables of [writeToFile]. *)
Record Tables := mkTables {
  t_vertices : list Node;
  t_interiors : list Node;
  t_edges : list Edge;
  t_nodesIter : Z;
  t_interiorsIter : Z;
}.

(** [graph.getEdgeData(graph.findEdge(node, dstNode)).isBorder()] *)
Definition border_of (g : Graph) (node dst : GNode) : result bool :=
  d ← getEdgeData g (findEdge g node dst); mret (isBorder d).

(** The body of the loop over the edges of a vertex. *)
Definition vertex_edge (g : Graph) (node : GNode) (firstNodeId : string) (dst : GNode)
    : st Tables unit := λ t,
  let dstNodeData := getData g dst in
  if negb (isHyperEdge dstNodeData) then
    let '(secondNodeId, vs, it) := getNodeId (t_vertices t) (t_nodesIter t) dstNodeData None in
    border ← border_of g node dst;
    mret (tt, mkTables vs (t_interiors t)
           (writer_addEdge (t_edges t) firstNodeId secondNodeId border) it (t_interiorsIter t))
  else mret (tt, t).

(** The body of the loop over the edges of an interior. *)
Definition interior_edge (g : Graph) (node : GNode) (firstInteriorId : string) (dst : GNode)
    : st Tables unit := λ t,
  let '(secondNodeId, ints, it) :=
    getNodeId (t_interiors t) (t_interiorsIter t) (getData g dst) (Some (t_vertices t)) in
  border ← border_of g node dst;
  mret (tt, mkTables (t_vertices t) ints
         (writer_addEdge (t_edges t) firstInteriorId secondNodeId border) (t_nodesIter t) it).

(** The body of the loop over the nodes. *)
Definition write_node (g : Graph) (node : GNode) : st Tables unit := λ t,
  let data := getData g node in
  if negb (isHyperEdge data) then
    let '(id, vs, it) := getNodeId (t_vertices t) (t_nodesIter t) data None in
    for_each_in (first <$> out_edges g node) (vertex_edge g node id)
      (mkTables vs (t_interiors t) (t_edges t) it (t_interiorsIter t))
  else
    let '(id, ints, it) :=
      getNodeId (t_interiors t) (t_interiorsIter t) data (Some (t_vertices t)) in
    for_each_in (first <$> out_edges g node) (interior_edge g node id)
      (mkTables (t_vertices t) ints (t_edges t) (t_nodesIter t) it).

(** The tables, for the nodes in the order in which the graph yields them. *)
Definition collect (g : Graph) (order : list GNode) : result Tables :=
  r ← for_each_in order (write_node g) (mkTables [] [] [] 0 0);
  mret r.2.

Definition writeToFile (g : Graph) (order : list GNode) : result string :=
  t ← collect g order;
  mret (writeToMyGraphFormat (t_vertices t) (t_interiors t) (t_edges t)).
