(* ===== verification/WriterFacts.v ===== *)
(** * What the writer puts into the file *)
From Stdlib Require Import String.
From stdpp Require Import sets sorting.
From S2P Require Import Prelude Double Text NumUtils Model MorphGraph GraphFacts GraphSpec.
From S2P Require Import Connectivity ConnFacts Mesh MeshCheck Generator Writer.

(** ** Sets as sorted lists *)

Lemma set_emplace_cases {A} (lt : A → A → bool) x l :
  set_emplace lt x l ≡ₚ x :: l ∨ set_emplace lt x l = l.
Proof.
  induction l as [|y l IH]; simpl; [by left|].
  destruct (lt x y); [by left|]. destruct (lt y x); [|by right].
  destruct IH as [IH| ->]; [left|by right]. rewrite IH. apply Permutation_swap.
Qed.

(** A new greatest element goes to the end. *)
Lemma set_emplace_last {A} (lt : A → A → bool) x l :
  (∀ y, y ∈ l → lt y x = true ∧ lt x y = false) → set_emplace lt x l = l ++ [x].
Proof.
  induction l as [|y l IH]; intros H; [done|]. simpl.
  destruct (H y) as [-> ->]; [by left|]. f_equal. apply IH. intros z Hz. apply H. by right.
Qed.

(** ** Node tables *)

(** The identifiers of a table count from zero. *)
Definition numbered (l : list Node) (n : Z) : Prop :=
  (fst <$> l) = (Z.of_nat <$> seq 0 (length l)) ∧ n = Z.of_nat (length l).

Lemma numbered_lt l n nd : numbered l n → nd ∈ l → (0 <= nd.1 < n)%Z.
Proof.
  intros [Hl ->] Hin. assert (nd.1 ∈ (fst <$> l)) as H by (by apply list_elem_of_fmap_2).
  rewrite Hl in H. apply list_elem_of_fmap in H as (k & -> & Hk%elem_of_seq). lia.
Qed.

Lemma numbered_emplace l n d :
  numbered l n → set_emplace Node_lt (n, d) l = l ++ [(n, d)].
Proof.
  intros Hl. apply set_emplace_last. intros [k d'] Hy.
  pose proof (numbered_lt _ _ _ Hl Hy) as Hk. unfold Node_lt. cbn [fst snd] in *.
  rewrite (proj2 (Z.ltb_lt k n)), (proj2 (Z.ltb_ge n k)) by lia. done.
Qed.

Lemma numbered_app l n d : numbered l n → numbered (l ++ [(n, d)]) (n + 1).
Proof.
  intros [Hl ->]. split; [|rewrite length_app; simpl; lia].
  rewrite fmap_app, length_app, seq_app, fmap_app, Hl. done.
Qed.

(** The identifiers a table gives out. *)
Definition ids (l : list Node) : list string := (λ nd : Node, node_id nd.2 nd.1) <$> l.

Lemma node_eq_hyper d d' : node_eq d d' = true → isHyperEdge d = isHyperEdge d'.
Proof. unfold node_eq. intros [[H%eqb_prop _]%andb_prop _]%andb_prop. done. Qed.

Lemma findNode_id d l s : findNode d l = Some s → s ∈ ids l.
Proof.
  unfold findNode. destruct (List.find _ l) as [nd|] eqn:E; [|done]. intros [= <-].
  apply List.find_some in E as [Hin%list_elem_of_In Heq]. unfold ids.
  apply list_elem_of_fmap. exists nd. split; [|done].
  unfold node_id. by rewrite (node_eq_hyper _ _ Heq).
Qed.

Lemma findNode_mono d l l' : is_Some (findNode d l) → is_Some (findNode d (l ++ l')).
Proof.
  unfold findNode. rewrite find_app.
  destruct (List.find _ l); [by eauto|]. by intros [? ?].
Qed.

Lemma findNode_here d i l : node_eq d d = true → is_Some (findNode d (l ++ [(i, d)])).
Proof.
  intros H. unfold findNode. rewrite find_app.
  destruct (List.find (λ nd : Node, node_eq nd.2 d) l); [by eauto|]. simpl. rewrite H. eauto.
Qed.

(** What [getNodeId] returns: an identifier of the new table, or of the additional one. *)
Lemma getNodeId_spec l n d extra s l' n' :
  numbered l n → getNodeId l n d extra = (s, l', n') →
  numbered l' n' ∧ (l' = l ∨ l' = l ++ [(n, d)]) ∧
  (s ∈ ids l' ∨ l' = l ∧ ∃ m, extra = Some m ∧ s ∈ ids m) ∧
  (node_eq d d = true → is_Some (findNode d l') ∨ ∃ m, extra = Some m ∧ is_Some (findNode d m)) ∧
  ((∃ m, extra = Some m ∧ is_Some (findNode d m)) → l' = l).
Proof.
  intros Hl. unfold getNodeId. destruct (findNode d l) as [s0|] eqn:E.
  { intros [= -> -> ->]. split_and!; [done|by left|left; by eapply findNode_id| |done].
    intros _. left. by rewrite E. }
  destruct (match extra with Some m => findNode d m | None => None end) as [s0|] eqn:E2.
  { intros [= -> -> ->]. destruct extra as [m|]; [|done].
    split_and!; [done|by left|right; split; [done|]; exists m; split; [done|by eapply findNode_id]| |done].
    intros _. right. exists m. split; [done|]. by eexists. }
  intros [= <- <- <-]. rewrite numbered_emplace by done. split_and!.
  - by apply numbered_app.
  - by right.
  - left. unfold ids. rewrite fmap_app. apply elem_of_app. right. by left.
  - intros Hd. left. by apply findNode_here.
  - intros (m & -> & [x Hx]). congruence.
Qed.

(** ** The edge table *)

(** The pair of identifiers of an edge, without direction. *)
Definition ends (e : Edge) : string * string :=
  if String.ltb e.1.2 e.1.1 then (e.1.2, e.1.1) else e.1.

Lemma ends_joins a b x e : joins a b e = false → ends e ≠ ends (a, b, x).
Proof.
  unfold joins, ends. destruct e as [[c d] y]. cbn [fst snd]. intros H Heq.
  apply orb_false_iff in H as [H1 H2].
  destruct (String.ltb d c), (String.ltb b a); injection Heq as -> ->;
    rewrite !String.eqb_refl in *; done.
Qed.

Lemma writer_addEdge_simple es a b x :
  NoDup (ends <$> es) → NoDup (ends <$> writer_addEdge es a b x).
Proof.
  intros Hn. unfold writer_addEdge, writer_findEdge.
  destruct (List.find _ es) eqn:E; [done|].
  destruct (set_emplace_cases Edge_lt (a, b, x) es) as [->| ->]; [|done].
  cbn [fmap list_fmap]. apply list.NoDup_cons. split; [|done].
  intros (e & He & Hin)%list_elem_of_fmap. eapply List.find_none in E; [|by apply list_elem_of_In].
  by eapply ends_joins.
Qed.

Lemma writer_addEdge_in es a b x e :
  e ∈ writer_addEdge es a b x → e ∈ es ∨ e = (a, b, x).
Proof.
  unfold writer_addEdge. destruct (writer_findEdge a b es); [by left|].
  destruct (set_emplace_cases Edge_lt (a, b, x) es) as [->| ->]; [|by left].
  intros [->|?]%elem_of_cons; auto.
Qed.

(** ** The tables while the nodes are visited *)

Record tables_ok (g : Graph) (seen : list GNode) (t : Tables) : Prop := {
  to_vnum : numbered (t_vertices t) (t_nodesIter t);
  to_inum : numbered (t_interiors t) (t_interiorsIter t);
  to_v nd : nd ∈ t_vertices t → isHyperEdge nd.2 = false;
  to_i nd : nd ∈ t_interiors t → isHyperEdge nd.2 = true;
  to_seen v : v ∈ seen → isHyperEdge (getData g v) = false →
    is_Some (findNode (getData g v) (t_vertices t));
  to_simple : NoDup (ends <$> t_edges t);
  to_refs e : e ∈ t_edges t → e.1.1 ∈ ids (t_vertices t) ++ ids (t_interiors t) ∧
                              e.1.2 ∈ ids (t_vertices t) ++ ids (t_interiors t);
}.

Lemma ids_app l l' : ids (l ++ l') = ids l ++ ids l'.
Proof. apply fmap_app. Qed.

Section Collect.
Context (g : Graph) (Hw : wf g).
(** No coordinate is infinite or not a number. *)
Hypothesis Hrefl : ∀ n, node_eq (getData g n) (getData g n) = true.

Lemma writer_border_run node dst :
  dst ∈ getNeighbours g node → ∃ b, border_of g node dst = Ok b.
Proof.
  intros (p & Hp)%getNeighbours_adjP; [|done]. unfold border_of.
  rewrite (getEdgeData_findEdge _ _ _ _ Hw Hp).
  destruct (adjP_mem _ _ _ _ Hw Hp) as [d ->]. cbn. eauto.
Qed.

(** The vertex [data] is entered into the table of vertices. *)
Lemma enter_vertex seen t n s vs it :
  tables_ok g seen t → isHyperEdge (getData g n) = false →
  getNodeId (t_vertices t) (t_nodesIter t) (getData g n) None = (s, vs, it) →
  tables_ok g (n :: seen) (mkTables vs (t_interiors t) (t_edges t) it (t_interiorsIter t)) ∧
  s ∈ ids vs ∧ ∃ l, vs = t_vertices t ++ l.
Proof.
  intros Ht Hh Hg. destruct (getNodeId_spec _ _ _ _ _ _ _ (to_vnum _ _ _ Ht) Hg)
    as (Hn & Hvs & Hs & Hf & _).
  assert (∃ l, vs = t_vertices t ++ l) as [l El].
  { destruct Hvs as [->| ->]; [exists []; by rewrite app_nil_r|eauto]. }
  split_and!; [|destruct Hs as [?|(_ & ? & ? & _)]; [done|done]|eauto].
  split; cbn [t_vertices t_interiors t_edges t_nodesIter t_interiorsIter]; try apply Ht; try done.
  - intros nd Hin. destruct Hvs as [->| ->]; [by apply (to_v _ _ _ Ht)|].
    apply elem_of_app in Hin as [Hin| ->%list_elem_of_singleton]; [by apply (to_v _ _ _ Ht)|done].
  - intros v Hv Hvh. apply elem_of_cons in Hv as [->|Hv].
    + destruct (Hf (Hrefl n)) as [?|(? & ? & _)]; done.
    + rewrite El. by apply findNode_mono, (to_seen _ _ _ Ht).
  - intros e He. destruct (to_refs _ _ _ Ht e He) as [H1 H2]. rewrite El, ids_app.
    set_solver.
Qed.

Lemma tables_ok_weaken seen seen' t :
  tables_ok g seen t → (∀ v, v ∈ seen' → v ∈ seen) → tables_ok g seen' t.
Proof. intros Ht Hs. split; try apply Ht. intros v Hv. by apply (to_seen _ _ _ Ht), Hs. Qed.

Lemma enter_edge seen t a b x :
  tables_ok g seen t → a ∈ ids (t_vertices t) ++ ids (t_interiors t) →
  b ∈ ids (t_vertices t) ++ ids (t_interiors t) →
  tables_ok g seen (mkTables (t_vertices t) (t_interiors t) (writer_addEdge (t_edges t) a b x)
                     (t_nodesIter t) (t_interiorsIter t)).
Proof.
  intros Ht Ha Hb. split; cbn; try apply Ht.
  - apply writer_addEdge_simple, Ht.
  - intros e [He| ->]%writer_addEdge_in; [by apply (to_refs _ _ _ Ht)|done].
Qed.

Lemma vertex_edge_run seen node id dst t :
  dst ∈ getNeighbours g node → tables_ok g seen t ∧ id ∈ ids (t_vertices t) →
  ∃ t', vertex_edge g node id dst t = Ok (tt, t') ∧
    tables_ok g seen t' ∧ id ∈ ids (t_vertices t').
Proof.
  intros Hd [Ht Hid]. unfold vertex_edge. destruct (isHyperEdge (getData g dst)) eqn:Hh; [by eauto|].
  cbn [negb]. destruct (getNodeId _ _ _ _) as [[s vs] it] eqn:E.
  destruct (enter_vertex _ _ _ _ _ _ Ht Hh E) as (Ht1 & Hs & l & El).
  destruct (writer_border_run node dst Hd) as [x ->]. cbn. eexists. split; [done|].
  assert (id ∈ ids vs) as Hid' by (rewrite El, ids_app; set_solver).
  split; [|done]. eapply tables_ok_weaken; [|intros v Hv; by right; exact Hv].
  apply (enter_edge _ _ id s x) in Ht1; [exact Ht1|set_solver..].
Qed.

(** The vertices of the interior have been entered before. *)
Lemma interior_edge_run seen node id dst t :
  dst ∈ getNeighbours g node → isHyperEdge (getData g dst) = false → dst ∈ seen →
  tables_ok g seen t ∧ id ∈ ids (t_interiors t) →
  ∃ t', interior_edge g node id dst t = Ok (tt, t') ∧
    tables_ok g seen t' ∧ id ∈ ids (t_interiors t').
Proof.
  intros Hd Hh Hse [Ht Hid]. unfold interior_edge.
  destruct (getNodeId _ _ _ _) as [[s ints] it] eqn:E.
  destruct (getNodeId_spec _ _ _ _ _ _ _ (to_inum _ _ _ Ht) E) as ((Hn & Hit) & _ & Hs & _ & Hsame).
  assert (ints = t_interiors t) as Ei by (apply Hsame; eauto using to_seen). subst ints.
  assert (it = t_interiorsIter t) as -> by (destruct (to_inum _ _ _ Ht); congruence).
  destruct (writer_border_run node dst Hd) as [x ->]. cbn. eexists. split; [done|].
  split; [|done]. apply enter_edge; [done|set_solver|].
  destruct Hs as [?|(_ & ? & [= <-] & ?)]; set_solver.
Qed.

(** The interior is entered into the table of interiors. *)
Lemma enter_interior seen t n s ints it :
  tables_ok g seen t → isHyperEdge (getData g n) = true →
  getNodeId (t_interiors t) (t_interiorsIter t) (getData g n) (Some (t_vertices t)) = (s, ints, it) →
  tables_ok g (n :: seen) (mkTables (t_vertices t) ints (t_edges t) (t_nodesIter t) it) ∧
  s ∈ ids ints.
Proof.
  intros Ht Hh Hg. destruct (getNodeId_spec _ _ _ _ _ _ _ (to_inum _ _ _ Ht) Hg)
    as (Hn & Hvs & Hs & Hf & _).
  assert (findNode (getData g n) (t_vertices t) = None) as Hno.
  { unfold findNode. destruct (List.find _ _) as [nd|] eqn:E; [|done].
    apply List.find_some in E as [Hin%list_elem_of_In Heq%node_eq_hyper].
    rewrite (to_v _ _ _ Ht nd Hin) in Heq. congruence. }
  assert (∃ l, ints = t_interiors t ++ l) as [l El].
  { destruct Hvs as [->| ->]; [exists []; by rewrite app_nil_r|eauto]. }
  split.
  - split; cbn [t_vertices t_interiors t_edges t_nodesIter t_interiorsIter]; try apply Ht; try done.
    + intros nd Hin. destruct Hvs as [->| ->]; [by apply (to_i _ _ _ Ht)|].
      apply elem_of_app in Hin as [Hin| ->%list_elem_of_singleton]; [by apply (to_i _ _ _ Ht)|done].
    + intros v Hv Hvh. apply elem_of_cons in Hv as [->|Hv]; [congruence|].
      by apply (to_seen _ _ _ Ht).
    + intros e He. destruct (to_refs _ _ _ Ht e He) as [H1 H2]. rewrite El, ids_app. set_solver.
  - destruct (Hf (Hrefl n)) as [[s' Hs']|(? & [= <-] & Hsome)];
      [|rewrite Hno in Hsome; by destruct Hsome].
    destruct Hs as [?|(Hsame & ? & [= <-] & Hin)]; [done|]. exfalso.
    unfold getNodeId in Hg. subst ints. rewrite Hs' in Hg. injection Hg as <- _.
    apply findNode_id in Hs'. clear Hf Hn.
    unfold ids in Hin, Hs'. apply list_elem_of_fmap in Hin as (nv & Ev & Hv), Hs' as (ni & Ei & Hi).
    unfold node_id in Ev, Ei. rewrite (to_v _ _ _ Ht nv Hv) in Ev.
    rewrite (to_i _ _ _ Ht ni Hi) in Ei. rewrite Ev in Ei. discriminate Ei.
Qed.

Lemma write_node_run seen node t :
  (isHyperEdge (getData g node) = true →
   ∀ v, v ∈ getNeighbours g node → isHyperEdge (getData g v) = false ∧ v ∈ seen) →
  tables_ok g seen t →
  ∃ t', write_node g node t = Ok (tt, t') ∧ tables_ok g (node :: seen) t'.
Proof.
  intros Hn Ht. unfold write_node. destruct (isHyperEdge (getData g node)) eqn:Hh; cbn [negb].
  - destruct (getNodeId _ _ _ _) as [[s ints] it] eqn:E.
    destruct (enter_interior _ _ _ _ _ _ Ht Hh E) as [Ht1 Hs].
    edestruct (for_each_in_inv (λ t, tables_ok g (node :: seen) t ∧ s ∈ ids (t_interiors t))
      (getNeighbours g node) (interior_edge g node s)) as (t' & Hr & Ht' & _); [|split; [exact Ht1|exact Hs]|by eauto].
    intros v t0 Hv HP. destruct (Hn eq_refl v Hv). apply interior_edge_run; [done..|by right|done].
  - destruct (getNodeId _ _ _ _) as [[s vs] it] eqn:E.
    destruct (enter_vertex _ _ _ _ _ _ Ht Hh E) as (Ht1 & Hs & _).
    edestruct (for_each_in_inv (λ t, tables_ok g (node :: seen) t ∧ s ∈ ids (t_vertices t))
      (getNeighbours g node) (vertex_edge g node s)) as (t' & Hr & Ht' & _); [|split; [exact Ht1|exact Hs]|by eauto].
    intros v t0 Hv HP. by apply vertex_edge_run.
Qed.

(** Every interior comes after its vertices. *)
Definition vertices_first (order : list GNode) : Prop :=
  ∀ k h, order !! k = Some h → isHyperEdge (getData g h) = true →
    ∀ v, v ∈ getNeighbours g h → isHyperEdge (getData g v) = false ∧ v ∈ take k order.

Lemma collect_run order :
  vertices_first order → ∃ t, collect g order = Ok t ∧ tables_ok g order t.
Proof.
  intros Ho. unfold collect.
  assert (∀ done_ todo t, order = done_ ++ todo → tables_ok g done_ t →
    ∃ t', for_each_in todo (write_node g) t = Ok (tt, t') ∧ tables_ok g order t') as Hloop.
  { intros done_ todo. revert done_. induction todo as [|n todo IH]; intros done_ t Eo Ht.
    - exists t. split; [done|]. by rewrite Eo, app_nil_r.
    - destruct (write_node_run done_ n t) as (t1 & Hr & Ht1); [|done|].
      + intros Hh v Hv. assert (order !! length done_ = Some n) as Hk
          by (by rewrite Eo, lookup_app_r, Nat.sub_diag).
        destruct (Ho (length done_) n Hk Hh v Hv) as [Hvh Hin].
        split; [done|]. by rewrite Eo, take_app_length in Hin.
      + destruct (IH (done_ ++ [n]) t1) as (t2 & Hr2 & Ht2).
        * by rewrite Eo, <- app_assoc.
        * eapply tables_ok_weaken; [done|]. set_solver.
        * exists t2. split; [|done]. simpl. unfold mbind, st_bind. by rewrite Hr. }
  destruct (Hloop [] order (mkTables [] [] [] 0 0)) as (t & Hr & Ht); [done| |].
  - split; cbn; try done; try (by intros ? ?%elem_of_nil). apply list.NoDup_nil. done.
  - exists t. split; [|done]. by rewrite Hr.
Qed.
End Collect.

(** ** The file of a mesh *)

(** C23: on a well-formed graph whose coordinates are numbers, visited so that
    every interior comes after its vertices, the writer succeeds.  The nodes of
    each table are numbered from zero without gaps, vertices are printed as [N]
    lines and interiors as [H] lines, each vertex visited has a line, no edge is
    printed twice in either direction, and both ends of every edge line are
    identifiers of printed nodes. *)
Theorem writer_file_ok (g : Graph) (order : list GNode) :
  wf g → (∀ n, node_eq (getData g n) (getData g n) = true) → vertices_first g order →
  ∃ t, collect g order = Ok t ∧
    writeToFile g order = Ok (writeToMyGraphFormat (t_vertices t) (t_interiors t) (t_edges t)) ∧
    numbered (t_vertices t) (t_nodesIter t) ∧ numbered (t_interiors t) (t_interiorsIter t) ∧
    (∀ nd, nd ∈ t_vertices t → isHyperEdge nd.2 = false) ∧
    (∀ nd, nd ∈ t_interiors t → isHyperEdge nd.2 = true) ∧
    (∀ v, v ∈ order → isHyperEdge (getData g v) = false →
       is_Some (findNode (getData g v) (t_vertices t))) ∧
    NoDup (ends <$> t_edges t) ∧
    (∀ a b x, (a, b, x) ∈ t_edges t →
       a ∈ ids (t_vertices t) ++ ids (t_interiors t) ∧
       b ∈ ids (t_vertices t) ++ ids (t_interiors t)).
Proof.
  intros Hw Hr Ho. destruct (collect_run g Hw Hr order Ho) as (t & Hc & Ht).
  exists t. split_and!; try apply Ht; [done|unfold writeToFile; by rewrite Hc|].
  intros a b x He. by apply (to_refs _ _ _ Ht) in He.
Qed.

Definition square : Graph := generated generateSampleGraph.

(** Decides [vertices_first]. *)
Definition vertices_firstb (g : Graph) (order : list GNode) : bool :=
  forallb (λ k, match order !! k with
    | Some h => negb (isHyperEdge (getData g h)) ||
        forallb (λ v, negb (isHyperEdge (getData g v)) && bool_decide (v ∈ take k order))
                (getNeighbours g h)
    | None => true
    end) (seq 0 (length order)).

Lemma vertices_firstb_sound g order :
  vertices_firstb g order = true → vertices_first g order.
Proof.
  intros H k h Hk Hh v Hv. apply (forallb_in _ _ k) in H;
    [|apply elem_of_seq; apply lookup_lt_Some in Hk; lia].
  cbv beta in H. rewrite Hk, Hh in H. cbn [negb orb] in H.
  eapply forallb_in in H; [|exact Hv].
  apply andb_prop in H as [?%negb_true_iff ?%bool_decide_eq_true]. done.
Qed.

Lemma node_eq_refl_all g :
  forallb (λ nd, node_eq (nd_data nd) (nd_data nd)) (nodes g) = true →
  ∀ n, node_eq (getData g n) (getData g n) = true.
Proof.
  intros H n. unfold getData, node_at. destruct (nodes g !! n) as [nd|] eqn:E; [|done].
  apply list_elem_of_lookup_2 in E. by eapply forallb_in in H.
Qed.

Lemma writer_file_ok_witness :
  ∃ t, collect square (graph_nodes square) = Ok t ∧
    NoDup (ends <$> t_edges t) ∧ length (t_edges t) = 11.
Proof.
  destruct (writer_file_ok square (graph_nodes square)) as (t & Hc & _ & _ & _ & _ & _ & _ & Hn & _).
  - apply wfb_sound. vm_compute. reflexivity.
  - apply node_eq_refl_all. vm_compute. reflexivity.
  - apply vertices_firstb_sound. vm_compute. reflexivity.
  - exists t. split_and!; [exact Hc|exact Hn|].
    vm_compute in Hc. injection Hc as <-. vm_compute. reflexivity.
Defined.

