(* ===== verification/TerrainGenerator.v ===== *)
(** * The initial mesh over a terrain: [generateSampleGraphWithData] and
      [generateSampleGraphWithDataWithConversionToUtm] of [src/utils/GraphGenerator.h] *)
From stdpp Require Import sets.
From S2P Require Import Prelude Double Libm TranMerc Utm NumUtils Model TerrainMap MorphGraph.
From S2P Require Import GraphFacts GraphSpec Connectivity ConnFacts Production Mesh MeshCheck.
From S2P Require Import Euler Generator.

Local Open Scope double_scope.

(** The graph, the map and the projection. *)
Record Terrain := mkTerrain { t_world : World; t_map : Map; t_utm : Utm }.

Definition on_world {A} (c : st World A) : st Terrain A := λ t,
  match c (t_world t) with
  | Ok (a, w) => Ok (a, mkTerrain w (t_map t) (t_utm t))
  | Err e => Err e
  end.

Definition on_map {A} (c : st (Map * Utm) A) : st Terrain A := λ t,
  match c (t_map t, t_utm t) with
  | Ok (a, (m, u)) => Ok (a, mkTerrain (t_world t) m u)
  | Err e => Err e
  end.

Section Terrain.
Context `{Libm}.

Definition height_at (x y : double) (convert : option bool) : st Terrain double :=
  on_map (λ mu,
    r ← get_height_convert mu.1 x y (match convert with Some b => b | None => isUtm mu.1 end) mu.2;
    mret (r.1, (mu.1, r.2))).

(** The coordinates of the data of a node. *)
Definition coords_of (n : GNode) : st Terrain Coordinates :=
  on_world (λ w, Ok (getCoords (getData (w_graph w) n), w)).

(** [createEdge] with its middle point at ([x], [y]) on the terrain. *)
Definition terrain_edge (n1 n2 : GNode) (border : bool) (x y : double) (convert : option bool)
    (len : double) : st Terrain unit :=
  z ← height_at x y convert;
  on_world (cm_createEdge n1 n2 border (mkCoordinates x y z) len).

Definition node_dist (n1 n2 : GNode) (version2D : bool) : st Terrain double :=
  c1 ← coords_of n1; c2 ← coords_of n2; mret (dist c1 c2 version2D).

(** The part both generators have in common, after the nodes are made. *)
Definition terrain_square (n0 n1 n2 n3 : GNode) (convert : option bool)
    (west_border north_border east_border south_border : double) (version2D : bool)
    : st Terrain unit :=
  length1 ← node_dist n0 n1 version2D;
  length2 ← node_dist n1 n3 version2D;
  length3 ← node_dist n2 n3 version2D;
  length4 ← node_dist n0 n2 version2D;
  length5 ← node_dist n3 n0 version2D;
  let mid_x := (west_border + east_border) / #2 in
  let mid_y := (north_border + south_border) / #2 in
  terrain_edge n0 n1 true west_border mid_y convert length1;;
  terrain_edge n1 n3 true mid_x north_border convert length2;;
  terrain_edge n2 n3 true east_border mid_y convert length3;;
  terrain_edge n0 n2 true mid_x south_border convert length4;;
  terrain_edge n3 n0 false mid_x mid_y convert length5;;
  on_world (cm_createInterior n0 n1 n3);;
  on_world (cm_createInterior n0 n3 n2);;
  mret tt.

(** [Coordinates{Utils::convertToUtm(latitude, longitude, map), map}] *)
Definition utm_corner (latitude longitude : double) : st (Map * Utm) Coordinates :=
  en ← convertToUtm latitude longitude;
  Coordinates_of_map en.1 en.2.

Definition generateSampleGraphWithDataWithConversionToUtm
    (west_border north_border east_border south_border : double) (version2D : bool)
    : st Terrain unit :=
  _ ← on_map (convertToUtm south_border west_border);
  coordinates0 ← on_map (utm_corner south_border west_border);
  coordinates1 ← on_map (utm_corner north_border west_border);
  coordinates2 ← on_map (utm_corner south_border east_border);
  coordinates3 ← on_map (utm_corner north_border east_border);
  n0 ← on_world (cm_createNode (NodeData_vertex false coordinates0 false));
  n1 ← on_world (cm_createNode (NodeData_vertex false coordinates1 false));
  n2 ← on_world (cm_createNode (NodeData_vertex false coordinates2 false));
  n3 ← on_world (cm_createNode (NodeData_vertex false coordinates3 false));
  terrain_square n0 n1 n2 n3 (Some false)
    west_border north_border east_border south_border version2D.

Definition generateSampleGraphWithData
    (west_border north_border east_border south_border : double) (version2D : bool)
    : st Terrain unit :=
  _ ← on_map (convertToUtm south_border west_border);
  coordinates0 ← on_map (Coordinates_of_map south_border west_border);
  n0 ← on_world (cm_createNode (NodeData_vertex false coordinates0 false));
  coordinates1 ← on_map (Coordinates_of_map north_border west_border);
  n1 ← on_world (cm_createNode (NodeData_vertex false coordinates1 false));
  coordinates2 ← on_map (Coordinates_of_map south_border east_border);
  n2 ← on_world (cm_createNode (NodeData_vertex false coordinates2 false));
  coordinates3 ← on_map (Coordinates_of_map north_border east_border);
  n3 ← on_world (cm_createNode (NodeData_vertex false coordinates3 false));
  terrain_square n0 n1 n2 n3 None
    west_border north_border east_border south_border version2D.
End Terrain.

(** ** The mesh they make *)

(** Four vertices, as the generators create them. *)
Definition four_nodes (c0 c1 c2 c3 : Coordinates) : Graph :=
  let v c := NodeData_vertex false c false in
  new_node (v c3) (new_node (v c2) (new_node (v c1) (new_node (v c0) empty_graph))).

(** The statements that only touch the graph. *)
Definition build_square (m1 m2 m3 m4 m5 : Coordinates) (l1 l2 l3 l4 l5 : double)
    : st World unit :=
  cm_createEdge 0 1 true m1 l1;;
  cm_createEdge 1 3 true m2 l2;;
  cm_createEdge 2 3 true m3 l3;;
  cm_createEdge 0 2 true m4 l4;;
  cm_createEdge 3 0 false m5 l5;;
  cm_createInterior 0 1 3;;
  cm_createInterior 0 3 2;;
  mret tt.

Definition square_graph (c0 c1 c2 c3 m1 m2 m3 m4 m5 : Coordinates) (l1 l2 l3 l4 l5 : double)
    : Graph :=
  match build_square m1 m2 m3 m4 m5 l1 l2 l3 l4 l5 (mkWorld (four_nodes c0 c1 c2 c3) []) with
  | Ok (_, w) => w_graph w
  | Err _ => empty_graph
  end.

(** Evaluates graph operations, leaving the arithmetic on coordinates alone. *)
Ltac graph_compute := cbv -[coords_plus coords_div of_Z]; reflexivity.

Section Square.
Context (c0 c1 c2 c3 m1 m2 m3 m4 m5 : Coordinates) (l1 l2 l3 l4 l5 : double).
Local Abbreviation g := (square_graph c0 c1 c2 c3 m1 m2 m3 m4 m5 l1 l2 l3 l4 l5).

Lemma build_square_run ctx :
  build_square m1 m2 m3 m4 m5 l1 l2 l3 l4 l5 (mkWorld (four_nodes c0 c1 c2 c3) ctx) =
  Ok (tt, mkWorld g ctx).
Proof. graph_compute. Qed.

Lemma square_mesh_ok : mesh_ok g.
Proof. apply mesh_okb_sound. graph_compute. Qed.

Lemma square_counts :
  V_of g = {[0; 1; 2; 3]} ∧ F_of g = {[4; 5]} ∧ base.size (E_of g) = 5.
Proof. split_and!; graph_compute. Qed.

Lemma square_edges :
  edge_data g 0 1 = Some (mkEdgeData true l1 m1) ∧ edge_data g 1 3 = Some (mkEdgeData true l2 m2) ∧
  edge_data g 2 3 = Some (mkEdgeData true l3 m3) ∧ edge_data g 0 2 = Some (mkEdgeData true l4 m4) ∧
  edge_data g 3 0 = Some (mkEdgeData false l5 m5).
Proof. destruct m1, m2, m3, m4, m5. split_and!; graph_compute. Qed.

Lemma square_triangles : getNeighbours g 4 = [0; 1; 3] ∧ getNeighbours g 5 = [0; 3; 2].
Proof. split; graph_compute. Qed.

Lemma square_data :
  getData g 0 = NodeData_vertex false c0 false ∧ getData g 1 = NodeData_vertex false c1 false ∧
  getData g 2 = NodeData_vertex false c2 false ∧ getData g 3 = NodeData_vertex false c3 false ∧
  isToRefine (getData g 4) = false ∧ isToRefine (getData g 5) = false.
Proof. split_and!; graph_compute. Qed.

Lemma four_coords :
  getCoords (getData (four_nodes c0 c1 c2 c3) 0) = c0 ∧
  getCoords (getData (four_nodes c0 c1 c2 c3) 1) = c1 ∧
  getCoords (getData (four_nodes c0 c1 c2 c3) 2) = c2 ∧
  getCoords (getData (four_nodes c0 c1 c2 c3) 3) = c3.
Proof. split_and!; reflexivity. Qed.
End Square.

#[local] Opaque square_graph four_nodes.

(** *** Running them *)

Lemma on_world_Ok {A} (c : st World A) t a t' :
  on_world c t = Ok (a, t') → c (t_world t) = Ok (a, t_world t').
Proof. unfold on_world. destruct (c (t_world t)) as [[a' w]|]; [|done]. by intros [= <- <-]. Qed.

Lemma on_map_world {A} (c : st (Map * Utm) A) t a t' :
  on_map c t = Ok (a, t') → t_world t' = t_world t.
Proof. unfold on_map. destruct (c _) as [[a' [m u]]|]; [|done]. by intros [= <- <-]. Qed.

Section Run.
Context `{Libm}.

Lemma node_dist_world n1 n2 v2d t d t' :
  node_dist n1 n2 v2d t = Ok (d, t') →
  t_world t' = t_world t ∧
  d = dist (getCoords (getData (w_graph (t_world t)) n1))
           (getCoords (getData (w_graph (t_world t)) n2)) v2d.
Proof. unfold node_dist, coords_of, on_world, mbind, st_bind. cbn. by intros [= <- <-]. Qed.

Lemma terrain_edge_world n1 n2 b x y cv len t t' :
  terrain_edge n1 n2 b x y cv len t = Ok (tt, t') →
  ∃ z, cm_createEdge n1 n2 b (mkCoordinates x y z) len (t_world t) = Ok (tt, t_world t').
Proof.
  unfold terrain_edge. intros Hr. inv_ok Hr. unfold height_at in Hr0. apply on_map_world in Hr0.
  apply on_world_Ok in Hr. rewrite Hr0 in Hr. eauto.
Qed.

(** The edge between [n1] and [n2] is as long as its ends are apart. *)
Definition true_length (g : Graph) (v2d border : bool) (n1 n2 : GNode) : Prop :=
  ∃ d, edge_data g n1 n2 = Some d ∧ isBorder d = border ∧
    getLength d = dist (getCoords (getData g n1)) (getCoords (getData g n2)) v2d.

(** The initial mesh: a square of two triangles, nothing marked, nothing hanging,
    the diagonal the only edge inside. *)
Definition initial_mesh (v2d : bool) (g : Graph) : Prop :=
  mesh_ok g ∧ V_of g = {[0; 1; 2; 3]} ∧ F_of g = {[4; 5]} ∧ base.size (E_of g) = 5 ∧
  getNeighbours g 4 = [0; 1; 3] ∧ getNeighbours g 5 = [0; 3; 2] ∧
  true_length g v2d true 0 1 ∧ true_length g v2d true 1 3 ∧ true_length g v2d true 2 3 ∧
  true_length g v2d true 0 2 ∧ true_length g v2d false 3 0 ∧
  (∀ n, n ∈ [0; 1; 2; 3] → isHanging (getData g n) = false) ∧
  (∀ h, h ∈ [4; 5] → isToRefine (getData g h) = false).

Lemma square_initial v2d c0 c1 c2 c3 m1 m2 m3 m4 m5 :
  initial_mesh v2d (square_graph c0 c1 c2 c3 m1 m2 m3 m4 m5 (dist c0 c1 v2d) (dist c1 c3 v2d)
    (dist c2 c3 v2d) (dist c0 c2 v2d) (dist c3 c0 v2d)).
Proof.
  destruct (square_data c0 c1 c2 c3 m1 m2 m3 m4 m5 (dist c0 c1 v2d) (dist c1 c3 v2d)
    (dist c2 c3 v2d) (dist c0 c2 v2d) (dist c3 c0 v2d)) as (D0 & D1 & D2 & D3 & D4 & D5).
  destruct (square_edges c0 c1 c2 c3 m1 m2 m3 m4 m5 (dist c0 c1 v2d) (dist c1 c3 v2d)
    (dist c2 c3 v2d) (dist c0 c2 v2d) (dist c3 c0 v2d)) as (E1 & E2 & E3 & E4 & E5).
  destruct (square_counts c0 c1 c2 c3 m1 m2 m3 m4 m5 (dist c0 c1 v2d) (dist c1 c3 v2d)
    (dist c2 c3 v2d) (dist c0 c2 v2d) (dist c3 c0 v2d)) as (CV & CF & CE).
  destruct (square_triangles c0 c1 c2 c3 m1 m2 m3 m4 m5 (dist c0 c1 v2d) (dist c1 c3 v2d)
    (dist c2 c3 v2d) (dist c0 c2 v2d) (dist c3 c0 v2d)) as (T1 & T2).
  split; [apply square_mesh_ok|]. do 5 (split; [assumption|]). split_and!;
    try (eexists; split_and!; [eassumption|reflexivity|]; rewrite ?D0, ?D1, ?D2, ?D3; reflexivity).
  - intros n Hn. set_unfold in Hn. destruct_or! Hn; subst n; rewrite ?D0, ?D1, ?D2, ?D3; done.
  - intros h Hh. set_unfold in Hh. destruct_or! Hh; subst h; done.
Qed.

Lemma terrain_square_run c0 c1 c2 c3 cv W N E S v2d t t' :
  t_world t = mkWorld (four_nodes c0 c1 c2 c3) [] →
  terrain_square 0 1 2 3 cv W N E S v2d t = Ok (tt, t') →
  initial_mesh v2d (w_graph (t_world t')) ∧ w_ctx (t_world t') = [].
Proof.
  intros Ht Hr. unfold terrain_square in Hr.
  apply st_bind_Ok in Hr as (d1 & t1 & [H1 ->]%node_dist_world & Hr).
  apply st_bind_Ok in Hr as (d2 & t2 & [H2 ->]%node_dist_world & Hr).
  apply st_bind_Ok in Hr as (d3 & t3 & [H3 ->]%node_dist_world & Hr).
  apply st_bind_Ok in Hr as (d4 & t4 & [H4 ->]%node_dist_world & Hr).
  apply st_bind_Ok in Hr as (d5 & t5 & [H5 ->]%node_dist_world & Hr). cbv zeta in Hr.
  apply st_bind_Ok in Hr as ([] & t6 & [z1 E1]%terrain_edge_world & Hr).
  apply st_bind_Ok in Hr as ([] & t7 & [z2 E2]%terrain_edge_world & Hr).
  apply st_bind_Ok in Hr as ([] & t8 & [z3 E3]%terrain_edge_world & Hr).
  apply st_bind_Ok in Hr as ([] & t9 & [z4 E4]%terrain_edge_world & Hr).
  apply st_bind_Ok in Hr as ([] & t10 & [z5 E5]%terrain_edge_world & Hr).
  apply st_bind_Ok in Hr as (i1 & t11 & E6%on_world_Ok & Hr).
  apply st_bind_Ok in Hr as (i2 & t12 & E7%on_world_Ok & Hr). injection Hr as <-.
  destruct (four_coords c0 c1 c2 c3) as (C0 & C1 & C2 & C3).
  rewrite H5 in E1. rewrite ?H4, ?H3, ?H2, ?H1, ?Ht in *. cbn [w_graph] in *.
  rewrite ?C0, ?C1, ?C2, ?C3 in *.
  pose proof (λ m1 m2 m3 m4 m5 l1 l2 l3 l4 l5,
    build_square_run c0 c1 c2 c3 m1 m2 m3 m4 m5 l1 l2 l3 l4 l5 []) as Hb.
  eassert (build_square _ _ _ _ _ _ _ _ _ _ _ = Ok (tt, t_world t12)) as Hend.
  { unfold build_square. erewrite (st_bind_step _ _ _ _ _ E1), (st_bind_step _ _ _ _ _ E2),
      (st_bind_step _ _ _ _ _ E3), (st_bind_step _ _ _ _ _ E4), (st_bind_step _ _ _ _ _ E5),
      (st_bind_step _ _ _ _ _ E6), (st_bind_step _ _ _ _ _ E7). reflexivity. }
  rewrite Hb in Hend. injection Hend as <-. split; [apply square_initial|done].
Qed.
End Run.

(** The four nodes are numbered from zero. *)
Lemma create_four c0 c1 c2 c3 w1 w2 w3 w4 n0 n1 n2 n3 :
  cm_createNode (NodeData_vertex false c0 false) (mkWorld empty_graph []) = Ok (n0, w1) →
  cm_createNode (NodeData_vertex false c1 false) w1 = Ok (n1, w2) →
  cm_createNode (NodeData_vertex false c2 false) w2 = Ok (n2, w3) →
  cm_createNode (NodeData_vertex false c3 false) w3 = Ok (n3, w4) →
  w4 = mkWorld (four_nodes c0 c1 c2 c3) [] ∧ n0 = 0 ∧ n1 = 1 ∧ n2 = 2 ∧ n3 = 3.
Proof. intros [= <- <-] [= <- <-] [= <- <-] [= <- <-]. done. Qed.

Lemma terrain_mesh_run `{Libm} (m : Map) (u : Utm) (W N E S : double) (v2d : bool)
    (t' : Terrain) :
  generateSampleGraphWithDataWithConversionToUtm W N E S v2d
    (mkTerrain (mkWorld empty_graph []) m u) = Ok (tt, t') ∨
  generateSampleGraphWithData W N E S v2d
    (mkTerrain (mkWorld empty_graph []) m u) = Ok (tt, t') →
  initial_mesh v2d (w_graph (t_world t')) ∧ w_ctx (t_world t') = [].
Proof.
  intros [Hr|Hr].
  - unfold generateSampleGraphWithDataWithConversionToUtm in Hr.
    apply st_bind_Ok in Hr as (? & t1 & H1%on_map_world & Hr).
    apply st_bind_Ok in Hr as (c0 & t2 & H2%on_map_world & Hr).
    apply st_bind_Ok in Hr as (c1 & t3 & H3%on_map_world & Hr).
    apply st_bind_Ok in Hr as (c2 & t4 & H4%on_map_world & Hr).
    apply st_bind_Ok in Hr as (c3 & t5 & H5%on_map_world & Hr).
    apply st_bind_Ok in Hr as (n0 & t6 & E0%on_world_Ok & Hr).
    apply st_bind_Ok in Hr as (n1 & t7 & E1%on_world_Ok & Hr).
    apply st_bind_Ok in Hr as (n2 & t8 & E2%on_world_Ok & Hr).
    apply st_bind_Ok in Hr as (n3 & t9 & E3%on_world_Ok & Hr).
    rewrite H5, H4, H3, H2, H1 in E0.
    destruct (create_four _ _ _ _ _ _ _ _ _ _ _ _ E0 E1 E2 E3) as (Hw & -> & -> & -> & ->).
    by eapply terrain_square_run.
  - unfold generateSampleGraphWithData in Hr.
    apply st_bind_Ok in Hr as (? & t1 & H1%on_map_world & Hr).
    apply st_bind_Ok in Hr as (c0 & t2 & H2%on_map_world & Hr).
    apply st_bind_Ok in Hr as (n0 & t3 & E0%on_world_Ok & Hr).
    apply st_bind_Ok in Hr as (c1 & t4 & H4%on_map_world & Hr).
    apply st_bind_Ok in Hr as (n1 & t5 & E1%on_world_Ok & Hr).
    apply st_bind_Ok in Hr as (c2 & t6 & H6%on_map_world & Hr).
    apply st_bind_Ok in Hr as (n2 & t7 & E2%on_world_Ok & Hr).
    apply st_bind_Ok in Hr as (c3 & t8 & H8%on_map_world & Hr).
    apply st_bind_Ok in Hr as (n3 & t9 & E3%on_world_Ok & Hr).
    rewrite H2, H1 in E0. rewrite H4 in E1. rewrite H6 in E2. rewrite H8 in E3.
    destruct (create_four _ _ _ _ _ _ _ _ _ _ _ _ E0 E1 E2 E3) as (Hw & -> & -> & -> & ->).
    by eapply terrain_square_run.
Qed.

(** C31: whatever the map and the borders, when every conversion and every query of
    a height succeeds, both terrain generators turn the empty graph into a mesh of
    four vertices, five edges and two triangles that satisfies the mesh
    invariant: the four outer edges are border edges and the diagonal is not, each
    length is the distance of the ends, no vertex is hanging and no triangle is
    marked. *)
Theorem terrain_initial_mesh `{Libm} (m : Map) (u : Utm) (W N E S : double) (v2d : bool)
    (t' : Terrain) :
  generateSampleGraphWithDataWithConversionToUtm W N E S v2d
    (mkTerrain (mkWorld empty_graph []) m u) = Ok (tt, t') ∨
  generateSampleGraphWithData W N E S v2d
    (mkTerrain (mkWorld empty_graph []) m u) = Ok (tt, t') →
  initial_mesh v2d (w_graph (t_world t')) ∧ w_ctx (t_world t') = [].
Proof. apply terrain_mesh_run. Qed.

(** A map of one degree at the equator, for the instance that makes the
    projection linear in the latitude. *)
Definition small_map : Map :=
  setWestBorder #20 (setNorthBorder #1 (new_Map (written_matrix [[#5; #6]; [#7; #8]]) 2 2 #1 #1)).

Lemma terrain_initial_mesh_witness :
  ∃ t', @generateSampleGraphWithDataWithConversionToUtm Libm_flat #20 #1 #21 #0 false
          (mkTerrain (mkWorld empty_graph []) small_map Utm_init) = Ok (tt, t') ∧
    initial_mesh false (w_graph (t_world t')).
Proof.
  destruct (@generateSampleGraphWithDataWithConversionToUtm Libm_flat #20 #1 #21 #0 false
    (mkTerrain (mkWorld empty_graph []) small_map Utm_init)) as [[[] t']|e] eqn:E;
    [|vm_compute in E; discriminate E].
  exists t'. split; [reflexivity|].
  apply (@terrain_initial_mesh Libm_flat small_map Utm_init #20 #1 #21 #0 false t').
  left. exact E.
Defined.
