(* ===== verification/Refine.v ===== *)
(** * The operator of the main loop ([src/GraphGrammar.cpp])

    One application of the grammar to a node, and the unordered loop that applies
    it to the nodes of a worklist, to which productions add the nodes they make. *)
From stdpp Require Import gmap sets.
From S2P Require Import Prelude Double NumUtils Model MorphGraph GraphFacts GraphSpec.
From S2P Require Import Connectivity ConnFacts Production Productions Mesh Break.
From S2P Require Import ProductionFacts MeshCheck Generator Euler.

Definition basicCondition (g : Graph) (node : GNode) : bool :=
  containsNode g node && isHyperEdge (getData g node).

Definition productions : list (ProductionState → st World bool) :=
  [P1_execute; P2_execute; P3_execute; P4_execute; P5_execute; P6_execute].

(** [for (Production* production : productions) if (production->execute(pState, ctx))
    return ...] *)
Fixpoint first_production (l : list (ProductionState → st World bool)) (ps : ProductionState)
    : st World bool :=
  match l with
  | [] => mret false
  | p :: l' =>
      executed ← p ps;
      if (executed : bool) then mret true else first_production l' ps
  end.

(** The operator without the file it writes: whether a production was executed. *)
Definition refine_node (v2d : bool) (zg : double → double → result double) (node : GNode)
    : st World bool :=
  g ← get_graph;
  if negb (basicCondition g node) then mret false
  else
    pState ← lift (mkProductionState g node v2d zg);
    first_production productions pState.

(** ** Which production applies *)

(** The vertex on a broken side is not yet joined to the opposite vertex. *)
Definition uncut (g : Graph) (ps : ProductionState) : Prop :=
  ∀ e a b c m, e < 3 → side g ps e a b c → edge_data g a b = None →
    findNodeBetween g a b = Some m → edge_data g m c = None.

Section Once.
Context (g : Graph) (ctx : list GNode) (ps : ProductionState).
Hypothesis Hm : mesh_ok g.
Hypothesis Ht : triangle g ps.
Hypothesis Hz : heights_ok g ps.
Hypothesis Hc : conforming g ps.
Hypothesis Hl : lengths_ok ps.

(** The sides that the productions cut: those on the border, those without hanging
    ends, and the third side of a triangle with two broken ones. *)
Definition may_cut (e : nat) : Prop :=
  border_at ps e || free_at ps e = true ∨
  length (brokenEdges ps) = 2 ∧ e ∉ brokenEdges ps.

(** The triangle was cut in two, at a new vertex or at one that was there. *)
Definition refined (w : World) : Prop :=
  ∃ e, e < 3 ∧ (cut_at g ctx ps e w ∧ may_cut e ∨ mended_at g ctx ps e w).

(** A production that left the world as it was, or refined the triangle. *)
Definition applied (applies : bool) (r : result (bool * World)) : Prop :=
  if applies then ∃ w, r = Ok (true, w) ∧ refined w else r = Ok (false, mkWorld g ctx).

Definition applies1 : bool := P1_guard g ps && bool_decide (is_Some (P1_choice ps)).
Definition applies2 : bool :=
  match brokenEdges ps with [e] => broken_is_longest g ps e | _ => false end.
Definition applies3 : bool :=
  match brokenEdges ps with
  | [e] => negb (broken_is_longest g ps e) && bool_decide (is_Some (P3_choice ps))
  | _ => false
  end.
Definition applies4 : bool :=
  bool_decide (length (brokenEdges ps) = 2) && bool_decide (is_Some (P4_choice ps)).
Definition applies5 : bool :=
  match bool_decide (length (brokenEdges ps) = 2), farthest ps with
  | true, [e] => negb (bool_decide (e ∈ brokenEdges ps))
  | _, _ => false
  end.
Definition applies6 : bool := bool_decide (length (brokenEdges ps) = 3).

Lemma cut_refined e w : e < 3 → cut_at g ctx ps e w → may_cut e → refined w.
Proof. intros He H Hc'. exists e. auto. Qed.
Lemma mended_refined e w : e < 3 → mended_at g ctx ps e w → refined w.
Proof. intros He H. exists e. auto. Qed.

Lemma P1_applied : applied applies1 (P1_execute ps (mkWorld g ctx)).
Proof.
  pose proof (P1_run g ctx ps Hm Ht Hz) as H. unfold applies1.
  destruct (P1_guard g ps); [|exact H]. destruct (P1_choice ps) as [e|] eqn:E; [|exact H].
  destruct H as (w & Hr & He & Hcut). exists w. split; [done|].
  eapply cut_refined; [by eapply getLongestEdges_lt|done|left].
  by apply List.find_some in E as [_ E].
Qed.

Lemma P2_applied : applied applies2 (P2_execute ps (mkWorld g ctx)).
Proof.
  pose proof (P2_run g ctx ps Hm Ht Hc) as H. unfold applies2.
  pose proof (brokenEdges_lt g ps Ht) as Hlt.
  destruct (brokenEdges ps) as [|e [|]]; [exact H| |exact H].
  destruct (broken_is_longest g ps e); [|exact H]. destruct H as (w & Hr & Hme).
  exists w. split; [done|]. eapply mended_refined; [apply Hlt; by left|done].
Qed.

Lemma P3_choice_lt e : P3_choice ps = Some e → e < 3 ∧ border_at ps e || free_at ps e = true.
Proof.
  unfold P3_choice. destruct (List.find (border_at ps) _) as [e'|] eqn:E.
  - intros [= <-]. apply List.find_some in E as [Hin%list_elem_of_In ->].
    split; [by eapply getLongestEdges_lt|done].
  - intros [Hin%list_elem_of_In ->]%List.find_some.
    split; [by eapply getLongestEdges_lt|apply orb_true_r].
Qed.

Lemma P3_applied : applied applies3 (P3_execute ps (mkWorld g ctx)).
Proof.
  pose proof (P3_run g ctx ps Hm Ht Hz Hc Hl) as H. unfold applies3.
  destruct (brokenEdges ps) as [|e [|]]; [exact H| |exact H].
  destruct (broken_is_longest g ps e); [exact H|].
  destruct (P3_choice ps) as [e'|] eqn:E; [|exact H]. destruct H as (w & Hr & Hcut).
  apply P3_choice_lt in E as [Hlt Hmay]. exists w. split; [done|].
  eapply cut_refined; [done|done|by left].
Qed.

Lemma P4_applied : applied applies4 (P4_execute ps (mkWorld g ctx)).
Proof.
  pose proof (P4_run g ctx ps Hm Ht Hc) as H. unfold applies4.
  case_bool_decide; [|exact H]. destruct (P4_choice ps) as [e|] eqn:E; [|exact H].
  destruct H as (w & Hr & Hme). exists w. split; [done|].
  apply List.find_some in E as [Hin%list_elem_of_In _].
  eapply mended_refined; [by eapply farthest_lt|done].
Qed.

Lemma P5_applied : applied applies5 (P5_execute ps (mkWorld g ctx)).
Proof.
  pose proof (P5_run g ctx ps Hm Ht Hz) as H. unfold applies5.
  pose proof (farthest_lt ps) as Hlt.
  case_bool_decide; [|exact H]. destruct (farthest ps) as [|e [|]]; [exact H| |exact H].
  case_bool_decide; [exact H|]. destruct H as (w & Hr & Hcut). exists w. split; [done|].
  eapply cut_refined; [apply Hlt; by left|done|by right].
Qed.

Lemma P6_applied : applied applies6 (P6_execute ps (mkWorld g ctx)).
Proof.
  pose proof (P6_run g ctx ps Hm Ht Hc) as H. unfold applies6.
  destruct (farthest_head ps) as (e & rest & Hf). pose proof (farthest_lt ps e) as Hlt.
  rewrite Hf in *. case_bool_decide; [|exact H]. destruct H as (w & Hr & Hme).
  exists w. split; [done|]. eapply mended_refined; [apply Hlt; by left|done].
Qed.

Definition any_applies : bool :=
  applies1 || applies2 || applies3 || applies4 || applies5 || applies6.

Lemma first_production_run :
  applied any_applies (first_production productions ps (mkWorld g ctx)).
Proof.
  assert (∀ p l b b', applied b (p ps (mkWorld g ctx)) →
    applied b' (first_production l ps (mkWorld g ctx)) →
    applied (b || b') (first_production (p :: l) ps (mkWorld g ctx))) as Hstep.
  { intros p l b b' Hp Hl'. simpl. unfold mbind, st_bind. destruct b; simpl in *.
    - destruct Hp as (w & -> & Hw). by exists w.
    - by rewrite Hp. }
  unfold any_applies, productions.
  replace (applies1 || applies2 || applies3 || applies4 || applies5 || applies6) with
    (applies1 || (applies2 || (applies3 || (applies4 || (applies5 || (applies6 || false)))))) by
    (by rewrite orb_false_r, !orb_assoc).
  apply Hstep; [exact P1_applied|]. apply Hstep; [exact P2_applied|].
  apply Hstep; [exact P3_applied|]. apply Hstep; [exact P4_applied|].
  apply Hstep; [exact P5_applied|]. apply Hstep; [exact P6_applied|]. done.
Qed.

(** The number of broken sides decides between most productions, and
    [broken_is_longest] and the farthest side between the others. *)
Lemma applies_exclusive :
  length (filter (λ b, b = true) [applies1; applies2; applies3; applies4; applies5; applies6]) ≤ 1.
Proof.
  unfold applies1, applies2, applies3, applies4, applies5, applies6, P1_guard, P4_choice.
  destruct (brokenEdges ps) as [|e1 [|e2 [|e3 [|]]]] eqn:Eb.
  - destruct (_ && _); simpl; lia.
  - rewrite !bool_decide_eq_false_2 by done. rewrite !andb_false_r. cbn [andb].
    destruct (broken_is_longest g ps e1), (bool_decide (is_Some (P3_choice ps))); simpl; lia.
  - rewrite (bool_decide_eq_false_2 ([e1; e2] = [])), (bool_decide_eq_true_2 (length [e1; e2] = 2)),
      (bool_decide_eq_false_2 (length [e1; e2] = 3)) by done. rewrite andb_false_r. cbn [andb].
    destruct (farthest_head ps) as (e & rest & ->). destruct rest.
    + cbn [List.find]. destruct (bool_decide (e ∈ [e1; e2])); simpl; lia.
    + destruct (bool_decide (is_Some _)); simpl; lia.
  - rewrite (bool_decide_eq_false_2 ([e1; e2; e3] = [])),
      (bool_decide_eq_false_2 (length [e1; e2; e3] = 2)) by done. rewrite andb_false_r. cbn [andb].
    destruct (bool_decide _); simpl; lia.
  - rewrite !bool_decide_eq_false_2 by (done || (simpl; lia)). rewrite andb_false_r. simpl. lia.
Qed.

Lemma refined_mesh w : refined w → mesh_ok (w_graph w).
Proof.
  intros (e & _ & [[(a & b & c & d & z & g' & _ & _ & -> & _ & Hb) _]|
                   (a & b & c & m & g' & _ & _ & _ & -> & Hme)]).
  - exact (bi_mesh _ _ _ _ _ _ _ _ _ Hb).
  - exact (me_mesh _ _ _ _ _ _ _ _ Hme).
Qed.

Lemma refined_euler w : uncut g ps → refined w → euler (w_graph w) = euler g.
Proof.
  intros Hu (e & He & [[(a & b & c & d & z & g' & Hs & Hd & -> & _ & Hb) _]|
                       (a & b & c & m & g' & Hs & Hd & Hf & -> & Hme)]); cbn [w_graph].
  - pose proof (sd_corners _ _ _ _ _ _ Hs) as [Hi _ Hnd Ha Hb' Hc' _ _ _ _ _ _].
    eapply bisected_euler; [exact Hm|exact Hi|exact Ha|exact Hb'|exact Hc'|exact Hnd|exact Hd|exact Hb].
  - pose proof (sd_corners _ _ _ _ _ _ Hs) as [Hi _ Hnd Ha Hb' Hc' _ _ _ _ _ _].
    destruct (Hc e a b c He Hs Hd) as (m' & Hf' & Hv & Hmc). rewrite Hf in Hf'. injection Hf' as <-.
    eapply (mended_euler _ _ m a b c); [exact Hm|exact Hi|exact Hv|exact Hc'|exact Hmc| |exact Hme].
    exact (Hu e a b c m He Hs Hd Hf).
Qed.
End Once.

(** ** The loop *)

(** What the grammar needs of the triangle [n]: a height in the middle of its
    sides, on each broken side a vertex not yet joined to the opposite one, and
    no length that compares with that of a broken side. *)
Definition ready (v2d : bool) (zg : double → double → result double) (g : Graph) (n : GNode)
    : Prop :=
  is_interior g n → ∀ ps, mkProductionState g n v2d zg = Ok ps →
  heights_ok g ps ∧ conforming g ps ∧ lengths_ok ps ∧ uncut g ps.

Lemma basicCondition_interior g n : basicCondition g n = true ↔ is_interior g n.
Proof. unfold basicCondition, containsNode, is_interior. apply andb_true_iff. Qed.

Lemma refine_node_run v2d zg g n ctx :
  mesh_ok g → ready v2d zg g n →
  (refine_node v2d zg n (mkWorld g ctx) = Ok (false, mkWorld g ctx)) ∨
  ∃ ps w, refine_node v2d zg n (mkWorld g ctx) = Ok (true, w) ∧
    is_interior g n ∧ mkProductionState g n v2d zg = Ok ps ∧ any_applies g ps = true ∧
    refined g ctx ps w ∧ mesh_ok (w_graph w) ∧ euler (w_graph w) = euler g.
Proof.
  intros Hm Hr. unfold refine_node.
  rewrite (st_bind_step get_graph _ _ (mkWorld g ctx) g) by done.
  destruct (basicCondition g n) eqn:Hb; [|by left]. cbn [negb].
  apply basicCondition_interior in Hb.
  destruct (mkProductionState_run g n v2d zg Hm Hb) as (ps & Hps & Ht & _).
  destruct (Hr Hb ps Hps) as (Hz & Hc & Hl & Hu).
  rewrite (st_bind_step _ _ _ (mkWorld g ctx) ps) by (unfold lift; by rewrite Hps).
  pose proof (first_production_run g ctx ps Hm Ht Hz Hc Hl) as Ha. unfold applied in Ha.
  destruct (any_applies g ps) eqn:E; [right|by left].
  destruct Ha as (w & Hw & Href). exists ps, w. split_and!; try done.
  - by eapply refined_mesh.
  - by eapply refined_euler.
Qed.
