(* ===== verification/Grammar.v ===== *)
(** * Properties of the grammar

    The theorems about the productions and the main loop, with meshes on which
    they are evaluated. *)
From stdpp Require Import gmap sets relations.
From S2P Require Import Prelude Double NumUtils Model MorphGraph GraphFacts GraphSpec.
From S2P Require Import Connectivity ConnFacts Production Productions Mesh Break.
From S2P Require Import ProductionFacts MeshCheck Generator Euler Refine.

(** ** Meshes given by tables *)

(** Vertices at quarters with their hanging flag, edges with their border flag, and
    triangles marked for refinement or not. *)
Definition mesh_of (vs : list (Z * Z * bool)) (es : list (nat * nat * bool))
    (ts : list (nat * nat * nat * bool)) : Graph :=
  let run : st World unit :=
    for_each_in vs (λ '(x, y, hanging),
      _ ← cm_createNode (NodeData_vertex false (at_quarters x y) hanging); mret tt);;
    for_each_in es (λ '(u, v, border),
      g ← get_graph;
      let p := getCoords (getData g u) in let q := getCoords (getData g v) in
      cm_createEdge u v border (coords_div (coords_plus p q) (of_Z 2)) (dist p q true));;
    for_each_in ts (λ '(a, b, c, refine),
      i ← cm_createInterior a b c;
      graph_modify (updData (setToRefine refine) i)) in
  match run (mkWorld empty_graph []) with Ok (_, w) => w_graph w | Err _ => empty_graph end.

(** The terrain at sea level. *)
Definition sea (x y : double) : result double := Ok (of_Z 0).

Lemma sea_heights g ps : zGetter ps = sea → heights_ok g ps.
Proof. intros Hz e a b c _ _. rewrite Hz. by eexists. Qed.

(** Two right triangles on the diagonal of a unit square, both to be refined. *)
Definition pair_mesh : Graph :=
  mesh_of [(0, 0, false); (0, 4, false); (4, 0, false); (4, 4, false)]%Z
    [(0, 1, true); (1, 3, true); (2, 3, true); (0, 2, true); (3, 0, false)]
    [(0, 1, 3, true); (0, 3, 2, false)].

(** The triangle (0,0), (2,0), (0,2) with the sides of the list broken in the middle. *)
Definition broken_mesh (sides : list nat) : Graph :=
  let mid := [(2, 0, true); (2, 2, true); (0, 2, true)]%Z in
  let vs := [(0, 0, false); (4, 0, false); (0, 4, false)]%Z in
  let ends := [(0, 1); (1, 2); (2, 0)] in
  mesh_of (vs ++ mid)
    (flat_map (λ '(i, (a, b)),
       if bool_decide (i ∈ sides) then [(a, 3 + i, false); (b, 3 + i, false)]
       else [(a, b, false)]) (zip [0; 1; 2] ends))
    [(0, 1, 2, false)].

(** ** The productions one by one *)

Lemma mkProductionState_triangle g i v2d zg ps :
  mesh_ok g → is_interior g i → mkProductionState g i v2d zg = Ok ps → triangle g ps.
Proof.
  intros Hm Hi Hps. destruct (mkProductionState_run g i v2d zg Hm Hi) as (ps' & Hps' & Ht & _).
  rewrite Hps in Hps'. by injection Hps' as <-.
Qed.

(** C22: production 1 on a triangle of a mesh.  If the triangle is marked and no side
    is broken, it takes the first of the longest sides that lies on the border or
    whose ends are not hanging, cuts the triangle in two by a new vertex in the
    middle of that side, and returns [true]; the new vertex hangs unless the side
    is on the border.  In all other cases it returns [false] and changes nothing. *)
Theorem P1_correct (g : Graph) (ctx : list GNode) (i : GNode) (v2d : bool)
    (zg : double → double → result double) (ps : ProductionState) :
  mesh_ok g → is_interior g i → mkProductionState g i v2d zg = Ok ps → heights_ok g ps →
  match (if isToRefine (getData g (interior ps)) && bool_decide (brokenEdges ps = [])
         then List.find (λ e, border_at ps e || free_at ps e) (getLongestEdges ps)
         else None) with
  | Some e => ∃ w, P1_execute ps (mkWorld g ctx) = Ok (true, w) ∧ cut_at g ctx ps e w
  | None => P1_execute ps (mkWorld g ctx) = Ok (false, mkWorld g ctx)
  end.
Proof.
  intros Hm Hi Hps Hz. pose proof (mkProductionState_triangle _ _ _ _ _ Hm Hi Hps) as Ht.
  pose proof (P1_run g ctx ps Hm Ht Hz) as H. unfold P1_guard, P1_choice in H.
  destruct (_ && _); [|exact H]. destruct (List.find _ _); [|exact H].
  destruct H as (w & Hr & _ & Hc). eauto.
Qed.

(** C26: production 2 applies to a triangle with exactly one broken side when the
    two halves of that side together are not shorter than either of the other
    sides.  It joins the vertex in the middle of the broken side to the opposite
    vertex, replaces the triangle by the two halves, and the vertex is no longer
    hanging.  Otherwise it returns [false] and changes nothing. *)
Theorem P2_correct (g : Graph) (ctx : list GNode) (i : GNode) (v2d : bool)
    (zg : double → double → result double) (ps : ProductionState) :
  mesh_ok g → is_interior g i → mkProductionState g i v2d zg = Ok ps → conforming g ps →
  match brokenEdges ps with
  | [e] =>
      if broken_is_longest g ps e
      then ∃ w, P2_execute ps (mkWorld g ctx) = Ok (true, w) ∧ mended_at g ctx ps e w
      else P2_execute ps (mkWorld g ctx) = Ok (false, mkWorld g ctx)
  | _ => P2_execute ps (mkWorld g ctx) = Ok (false, mkWorld g ctx)
  end.
Proof.
  intros Hm Hi Hps Hc. pose proof (mkProductionState_triangle _ _ _ _ _ Hm Hi Hps) as Ht.
  exact (P2_run g ctx ps Hm Ht Hc).
Qed.

(** C27: production 3 applies to a triangle with exactly one broken side that is not
    the longest.  It cuts at a new vertex on a longest unbroken side, one on the
    border if there is one, else one without hanging ends; if there is neither,
    or production 2 applies, it returns [false] and changes nothing. *)
Theorem P3_correct (g : Graph) (ctx : list GNode) (i : GNode) (v2d : bool)
    (zg : double → double → result double) (ps : ProductionState) :
  mesh_ok g → is_interior g i → mkProductionState g i v2d zg = Ok ps →
  heights_ok g ps → conforming g ps → lengths_ok ps →
  match brokenEdges ps with
  | [e] =>
      if broken_is_longest g ps e then P3_execute ps (mkWorld g ctx) = Ok (false, mkWorld g ctx)
      else
        match P3_choice ps with
        | Some e' => ∃ w, P3_execute ps (mkWorld g ctx) = Ok (true, w) ∧ cut_at g ctx ps e' w
        | None => P3_execute ps (mkWorld g ctx) = Ok (false, mkWorld g ctx)
        end
  | _ => P3_execute ps (mkWorld g ctx) = Ok (false, mkWorld g ctx)
  end.
Proof.
  intros Hm Hi Hps Hz Hc Hl. pose proof (mkProductionState_triangle _ _ _ _ _ Hm Hi Hps) as Ht.
  exact (P3_run g ctx ps Hm Ht Hz Hc Hl).
Qed.

(** C28: production 4 applies to a triangle with two broken sides when one of the
    sides whose ends are farthest apart is broken: it cuts at the vertex in the
    middle of the first such side.  Production 5 applies when the only farthest
    side is not broken: it cuts at a new vertex on it.  Each returns [false] and
    changes nothing otherwise. *)
Theorem P4_P5_correct (g : Graph) (ctx : list GNode) (i : GNode) (v2d : bool)
    (zg : double → double → result double) (ps : ProductionState) :
  mesh_ok g → is_interior g i → mkProductionState g i v2d zg = Ok ps →
  heights_ok g ps → conforming g ps →
  (if bool_decide (length (brokenEdges ps) = 2) then
     match List.find (λ e, bool_decide (e ∈ brokenEdges ps)) (farthest ps) with
     | Some e => ∃ w, P4_execute ps (mkWorld g ctx) = Ok (true, w) ∧ mended_at g ctx ps e w
     | None => P4_execute ps (mkWorld g ctx) = Ok (false, mkWorld g ctx)
     end
   else P4_execute ps (mkWorld g ctx) = Ok (false, mkWorld g ctx)) ∧
  (match bool_decide (length (brokenEdges ps) = 2), farthest ps with
   | true, [e] =>
       if bool_decide (e ∈ brokenEdges ps)
       then P5_execute ps (mkWorld g ctx) = Ok (false, mkWorld g ctx)
       else ∃ w, P5_execute ps (mkWorld g ctx) = Ok (true, w) ∧ cut_at g ctx ps e w
   | _, _ => P5_execute ps (mkWorld g ctx) = Ok (false, mkWorld g ctx)
   end).
Proof.
  intros Hm Hi Hps Hz Hc. pose proof (mkProductionState_triangle _ _ _ _ _ Hm Hi Hps) as Ht.
  split; [exact (P4_run g ctx ps Hm Ht Hc)|exact (P5_run g ctx ps Hm Ht Hz)].
Qed.

(** C29: production 6 applies exactly to the triangles with three broken sides, and
    cuts at the vertex in the middle of a side whose ends are farthest apart. *)
Theorem P6_correct (g : Graph) (ctx : list GNode) (i : GNode) (v2d : bool)
    (zg : double → double → result double) (ps : ProductionState) :
  mesh_ok g → is_interior g i → mkProductionState g i v2d zg = Ok ps → conforming g ps →
  if bool_decide (length (brokenEdges ps) = 3)
  then ∃ e w, e ∈ farthest ps ∧ P6_execute ps (mkWorld g ctx) = Ok (true, w) ∧
         mended_at g ctx ps e w
  else P6_execute ps (mkWorld g ctx) = Ok (false, mkWorld g ctx).
Proof.
  intros Hm Hi Hps Hc. pose proof (mkProductionState_triangle _ _ _ _ _ Hm Hi Hps) as Ht.
  pose proof (P6_run g ctx ps Hm Ht Hc) as H. destruct (farthest_head ps) as (e & rest & Hf).
  rewrite Hf in *. case_bool_decide; [|exact H]. destruct H as (w & Hr & Hme).
  exists e, w. split_and!; [by left|done|done].
Qed.

(** The state of a triangle of a given mesh. *)
Definition state_of (g : Graph) (i : GNode) : ProductionState :=
  match mkProductionState g i true sea with
  | Ok ps => ps
  | Err _ => mkPState 0 [] [] [] [] [] [] true sea
  end.

(** The premises of the theorems on a given mesh, by evaluation. *)
Ltac decide_mesh := apply mesh_okb_sound; vm_compute; reflexivity.
Ltac decide_premises :=
  lazymatch goal with
  | |- mesh_ok _ => decide_mesh
  | |- is_interior _ _ => split; vm_compute; reflexivity
  | |- heights_ok _ _ => apply sea_heights; vm_compute; reflexivity
  | |- conforming _ _ => apply conformingb_sound; vm_compute; reflexivity
  | |- lengths_ok _ => apply lengths_okb_sound; vm_compute; reflexivity
  | |- _ = _ => vm_compute; reflexivity
  end.

(** Evaluates what [H] is a case distinction on. *)
Ltac eval_cases H :=
  repeat (match type of H with
    | context [match ?x with _ => _ end] =>
        let y := eval vm_compute in x in
        replace x with y in H by (vm_compute; reflexivity); cbn iota in H
    end).

Lemma P1_correct_witness :
  ∃ w, P1_execute (state_of pair_mesh 4) (mkWorld pair_mesh []) = Ok (true, w) ∧
    cut_at pair_mesh [] (state_of pair_mesh 4) 2 w.
Proof.
  unshelve epose proof (P1_correct pair_mesh [] 4 true sea (state_of pair_mesh 4) _ _ _ _) as H; [decide_premises..|].
  eval_cases H. exact H.
Defined.

Lemma P2_correct_witness :
  ∃ w, P2_execute (state_of (broken_mesh [1]) 6) (mkWorld (broken_mesh [1]) []) = Ok (true, w) ∧
    mended_at (broken_mesh [1]) [] (state_of (broken_mesh [1]) 6) 1 w.
Proof.
  unshelve epose proof (P2_correct (broken_mesh [1]) [] 6 true sea (state_of (broken_mesh [1]) 6) _ _ _ _) as H; [decide_premises..|].
  eval_cases H. exact H.
Defined.

Lemma P3_correct_witness :
  ∃ w, P3_execute (state_of (broken_mesh [0]) 6) (mkWorld (broken_mesh [0]) []) = Ok (true, w) ∧
    cut_at (broken_mesh [0]) [] (state_of (broken_mesh [0]) 6) 1 w.
Proof.
  unshelve epose proof (P3_correct (broken_mesh [0]) [] 6 true sea (state_of (broken_mesh [0]) 6) _ _ _ _ _ _) as H; [decide_premises..|].
  eval_cases H. exact H.
Defined.

Lemma P4_P5_correct_witness :
  (∃ w, P4_execute (state_of (broken_mesh [0; 1]) 6) (mkWorld (broken_mesh [0; 1]) []) = Ok (true, w) ∧
     mended_at (broken_mesh [0; 1]) [] (state_of (broken_mesh [0; 1]) 6) 1 w) ∧
  (∃ w, P5_execute (state_of (broken_mesh [0; 2]) 6) (mkWorld (broken_mesh [0; 2]) []) = Ok (true, w) ∧
     cut_at (broken_mesh [0; 2]) [] (state_of (broken_mesh [0; 2]) 6) 1 w).
Proof.
  split.
  - unshelve epose proof (P4_P5_correct (broken_mesh [0; 1]) [] 6 true sea
      (state_of (broken_mesh [0; 1]) 6) _ _ _ _ _) as [H _]; [decide_premises..|].
    eval_cases H. exact H.
  - unshelve epose proof (P4_P5_correct (broken_mesh [0; 2]) [] 6 true sea
      (state_of (broken_mesh [0; 2]) 6) _ _ _ _ _) as [_ H]; [decide_premises..|].
    eval_cases H. exact H.
Defined.

Lemma P6_correct_witness :
  ∃ e w, e ∈ farthest (state_of (broken_mesh [0; 1; 2]) 6) ∧
    P6_execute (state_of (broken_mesh [0; 1; 2]) 6) (mkWorld (broken_mesh [0; 1; 2]) []) = Ok (true, w) ∧
    mended_at (broken_mesh [0; 1; 2]) [] (state_of (broken_mesh [0; 1; 2]) 6) e w.
Proof.
  unshelve epose proof (P6_correct (broken_mesh [0; 1; 2]) [] 6 true sea (state_of (broken_mesh [0; 1; 2]) 6) _ _ _ _) as H; [decide_premises..|].
  eval_cases H. exact H.
Defined.

(** ** One visit of the loop *)

(** Whether the production changed something. *)
Definition executes (ps : ProductionState) (w : World) (p : ProductionState → st World bool) : bool :=
  match p ps w with Ok (b, _) => b | Err _ => false end.

(** The production returns; if it returns [false] it left the world alone. *)
Definition returns (ps : ProductionState) (w : World) (p : ProductionState → st World bool) : Prop :=
  p ps w = Ok (false, w) ∨ ∃ w', p ps w = Ok (true, w').

Lemma applied_returns g ctx ps b p :
  applied g ctx ps b (p ps (mkWorld g ctx)) →
  returns ps (mkWorld g ctx) p ∧ executes ps (mkWorld g ctx) p = b.
Proof.
  unfold applied, returns, executes. destruct b; [intros (w & -> & _)|intros ->]; eauto.
Qed.

Lemma first_production_perm ps w l l' :
  l ≡ₚ l' → Forall (returns ps w) l →
  length (filter (λ p, executes ps w p = true) l) ≤ 1 →
  first_production l ps w = first_production l' ps w.
Proof.
  induction 1 as [|p l l' Hp IH|p q l|l l1 l2 Hp1 IH1 Hp2 IH2]; intros Hf Hn.
  - done.
  - apply list.Forall_cons in Hf as [Hpr Hf]. simpl. unfold mbind, st_bind.
    destruct Hpr as [-> |[w' ->]]; [|done]. apply IH; [done|].
    rewrite filter_cons in Hn. case_decide; simpl in Hn; lia.
  - apply list.Forall_cons in Hf as [Hq [Hpr _]%list.Forall_cons]. simpl. unfold mbind, st_bind.
    destruct Hq as [Hq|[w1 Hq]], Hpr as [Hpr|[w2 Hpr]]; rewrite Hq, Hpr; simpl; rewrite ?Hq, ?Hpr; try done.
    exfalso. rewrite !filter_cons, !decide_True in Hn; [simpl in Hn; lia| |];
      unfold executes; [by rewrite Hpr|by rewrite Hq].
  - rewrite IH1 by done. apply IH2; [by rewrite <- Hp1|by rewrite <- Hp1].
Qed.

Lemma count_true_map {A} (f : A → bool) l :
  length (filter (λ x, f x = true) l) = length (filter (λ b, b = true) (f <$> l)).
Proof.
  induction l as [|x l IH]; [done|]. rewrite fmap_cons, !filter_cons.
  repeat case_decide; simpl; congruence.
Qed.

(** C25: on a triangle of a mesh at most one of the six productions applies, so the
    order in which the loop tries them does not matter: any permutation of the
    list gives the same result, the same graph and the same pushed nodes. *)
Theorem productions_order_irrelevant (g : Graph) (ctx : list GNode) (i : GNode) (v2d : bool)
    (zg : double → double → result double) (ps : ProductionState)
    (l : list (ProductionState → st World bool)) :
  mesh_ok g → is_interior g i → mkProductionState g i v2d zg = Ok ps →
  heights_ok g ps → conforming g ps → lengths_ok ps → l ≡ₚ productions →
  first_production l ps (mkWorld g ctx) = first_production productions ps (mkWorld g ctx).
Proof.
  intros Hm Hi Hps Hz Hc Hl Hp.
  pose proof (mkProductionState_triangle _ _ _ _ _ Hm Hi Hps) as Ht.
  destruct (applied_returns _ _ _ _ _ (P1_applied g ctx ps Hm Ht Hz)) as [R1 E1].
  destruct (applied_returns _ _ _ _ _ (P2_applied g ctx ps Hm Ht Hc)) as [R2 E2].
  destruct (applied_returns _ _ _ _ _ (P3_applied g ctx ps Hm Ht Hz Hc Hl)) as [R3 E3].
  destruct (applied_returns _ _ _ _ _ (P4_applied g ctx ps Hm Ht Hc)) as [R4 E4].
  destruct (applied_returns _ _ _ _ _ (P5_applied g ctx ps Hm Ht Hz)) as [R5 E5].
  destruct (applied_returns _ _ _ _ _ (P6_applied g ctx ps Hm Ht Hc)) as [R6 E6].
  apply first_production_perm; [done| |]; rewrite Hp.
  - by repeat apply Forall_cons_2.
  - pose proof (applies_exclusive g ps) as He. rewrite <- E1, <- E2, <- E3, <- E4, <- E5, <- E6 in He.
    by rewrite count_true_map.
Qed.

Lemma productions_order_irrelevant_witness :
  first_production (rev productions) (state_of (broken_mesh [0]) 6) (mkWorld (broken_mesh [0]) []) =
  first_production productions (state_of (broken_mesh [0]) 6) (mkWorld (broken_mesh [0]) []).
Proof.
  apply (productions_order_irrelevant (broken_mesh [0]) [] 6 true sea); try decide_premises.
  symmetry. apply Permutation_rev.
Defined.

(** The nodes that a visit made. *)
Definition new_ids (g g' : Graph) : list GNode :=
  seq (length (nodes g)) (length (nodes g') - length (nodes g)).

Lemma refined_pushes g ctx ps w :
  refined g ctx ps w → w_ctx w = ctx ++ new_ids g (w_graph w) ∧
  active (w_graph w) (interior ps) = false ∧
  Forall (λ n, active (w_graph w) n = true) (new_ids g (w_graph w)).
Proof.
  intros (e & _ & [[(a & b & c & d & z & g' & Hs & _ & -> & _ & Hb) _]|
                   (a & b & c & m & g' & Hs & _ & _ & -> & Hme)]); cbn [w_graph w_ctx];
    pose proof (active_lt _ _ (proj1 (sd_interior _ _ _ _ _ _ (sd_corners _ _ _ _ _ _ Hs)))) as Hlt;
    unfold new_ids.
  - rewrite (bi_length _ _ _ _ _ _ _ _ _ Hb), (bi_active _ _ _ _ _ _ _ _ _ Hb), decide_True by done.
    replace (3 + length (nodes g) - length (nodes g)) with 3 by lia. split_and!; [done..|].
    repeat apply Forall_cons_2; [..|done]; rewrite (bi_active _ _ _ _ _ _ _ _ _ Hb),
      decide_False, decide_True by lia; done.
  - rewrite (me_length _ _ _ _ _ _ _ _ Hme), (me_active _ _ _ _ _ _ _ _ Hme), decide_True by done.
    replace (2 + length (nodes g) - length (nodes g)) with 2 by lia. split_and!; [done..|].
    repeat apply Forall_cons_2; [..|done]; rewrite (me_active _ _ _ _ _ _ _ _ Hme),
      decide_False, decide_True by lia; done.
Qed.


(** [ready] on a given mesh, by evaluation. *)
Definition uncutb (g : Graph) (ps : ProductionState) : bool :=
  forallb (λ e,
    match vertices ps !! e, vertices ps !! ((e + 1) mod 3)%nat, vertices ps !! ((e + 2) mod 3)%nat with
    | Some a, Some b, Some c =>
        match edge_data g a b, findNodeBetween g a b with
        | None, Some m => match edge_data g m c with None => true | Some _ => false end
        | _, _ => true
        end
    | _, _, _ => true
    end) [0; 1; 2].

Lemma uncutb_sound g ps : uncutb g ps = true → uncut g ps.
Proof.
  intros H e a b c m He Hs Hd Hf. apply (forallb_in _ _ e) in H; [|set_unfold; lia].
  cbv beta in H. rewrite (sd_va _ _ _ _ _ _ Hs), (sd_vb _ _ _ _ _ _ Hs), (sd_vc _ _ _ _ _ _ Hs), Hd, Hf in H.
  by destruct (edge_data g m c).
Qed.

Definition readyb (g : Graph) (n : GNode) : bool :=
  match mkProductionState g n true sea with
  | Ok ps => conformingb g ps && uncutb g ps &&
      match brokenEdges ps with
      | [b] => forallb (λ e, negb (Nat.eqb e b)) (getLongestEdges ps)
      | _ => true
      end
  | Err _ => false
  end.

Lemma readyb_sound g n : mesh_ok g → readyb g n = true → ready true sea g n.
Proof.
  intros Hm H Hi ps Hps. unfold readyb in H. rewrite Hps in H.
  destruct (mkProductionState_run g n true sea Hm Hi) as (ps' & Hps' & _ & _ & _ & Hz).
  rewrite Hps in Hps'. injection Hps' as <-.
  apply andb_prop in H as [[Hc%conformingb_sound Hu%uncutb_sound]%andb_prop Hl%lengths_okb_sound].
  split_and!; [by apply sea_heights|done..].
Qed.


(** ** Which triangles a visit leaves alone *)

Lemma farthest_nodup ps : NoDup (farthest ps).
Proof.
  unfold farthest. cbn [fmap list_fmap indexesOfMaxElems indexesOfMaxElems_loop].
  repeat match goal with |- context [if ?b then _ else _] => destruct b end;
    cbn [app]; repeat constructor; set_solver.
Qed.

Lemma broken_nodup g ps : triangle g ps → NoDup (brokenEdges ps).
Proof.
  intros Ht. rewrite (tr_broken _ _ Ht). apply list.NoDup_filter. repeat constructor; set_solver.
Qed.

Lemma brokenEdges_le3 g ps : triangle g ps → length (brokenEdges ps) ≤ 3.
Proof. intros Ht. rewrite (tr_broken _ _ Ht). apply (length_filter _ [0; 1; 2]). Qed.

(** With two broken sides, production 4 or production 5 applies. *)
Lemma two_broken_applies g ps :
  triangle g ps → length (brokenEdges ps) = 2 → applies4 ps || applies5 ps = true.
Proof.
  intros Ht Hl. unfold applies4, applies5, P4_choice.
  pose proof (broken_nodup g ps Ht) as Hn. pose proof (brokenEdges_lt g ps Ht) as Hb.
  pose proof (farthest_nodup ps) as Hfn. pose proof (farthest_lt ps) as Hfl.
  destruct (farthest_head ps) as (e & rest & Hf). rewrite Hf in *.
  rewrite (bool_decide_eq_true_2 (length (brokenEdges ps) = 2) Hl).
  destruct (brokenEdges ps) as [|b1 [|b2 [|]]]; try done. cbn [List.find].
  destruct (bool_decide (e ∈ [b1; b2])) eqn:He; [done|]. apply bool_decide_eq_false in He.
  destruct rest as [|e2 rest]; [done|]. cbn [List.find].
  rewrite (bool_decide_eq_true_2 (e2 ∈ [b1; b2])); [done|].
  pose proof (Hfl e ltac:(set_solver)). pose proof (Hfl e2 ltac:(set_solver)).
  pose proof (Hb b1 ltac:(set_solver)). pose proof (Hb b2 ltac:(set_solver)).
  rewrite !list.NoDup_cons in Hn, Hfn. clear Hf Hfl Hb.
  assert (e ≠ b1 ∧ e ≠ b2 ∧ b1 ≠ b2 ∧ e ≠ e2) as (? & ? & ? & ?) by set_solver.
  assert (e2 = b1 ∨ e2 = b2) by lia. rewrite !elem_of_cons. tauto.
Qed.

Lemma find_none_iff {A} (f : A → bool) l : List.find f l = None ↔ ∀ x, x ∈ l → f x = false.
Proof.
  split.
  - intros H x Hx. eapply List.find_none; [exact H|by apply list_elem_of_In].
  - intros H. destruct (List.find f l) as [x|] eqn:E; [|done].
    apply List.find_some in E as [Hx%list_elem_of_In Hf]. by rewrite H in Hf.
Qed.

Lemma P3_choice_none ps :
  P3_choice ps = None ↔ ∀ e, e ∈ getLongestEdges ps → border_at ps e = false ∧ free_at ps e = false.
Proof.
  unfold P3_choice. destruct (List.find (border_at ps) _) as [x|] eqn:E.
  - split; [done|]. intros H. apply List.find_some in E as [Hx%list_elem_of_In Hf].
    by rewrite (proj1 (H x Hx)) in Hf.
  - rewrite find_none_iff in *. naive_solver.
Qed.

Lemma P1_choice_none ps :
  P1_choice ps = None ↔ ∀ e, e ∈ getLongestEdges ps → border_at ps e = false ∧ free_at ps e = false.
Proof. unfold P1_choice. rewrite find_none_iff. by setoid_rewrite orb_false_iff. Qed.

Lemma not_is_Some {A} (o : option A) : bool_decide (is_Some o) = false ↔ o = None.
Proof. rewrite bool_decide_eq_false. destruct o; split; naive_solver eauto. Qed.

(** C24: a visit leaves a triangle as it is exactly when no side is broken and it is
    not marked, or when it waits for a neighbour: it has at most one broken side,
    which is not the longest, and none of its longest sides may be cut, because
    each has a hanging end and is not on the border.  In particular a triangle
    with two or three broken sides is always cut. *)
Theorem visit_leaves_iff (g : Graph) (ctx : list GNode) (i : GNode) (v2d : bool)
    (zg : double → double → result double) (ps : ProductionState) :
  mesh_ok g → is_interior g i → mkProductionState g i v2d zg = Ok ps →
  heights_ok g ps → conforming g ps → lengths_ok ps →
  let stuck := ∀ e, e ∈ getLongestEdges ps → border_at ps e = false ∧ free_at ps e = false in
  refine_node v2d zg i (mkWorld g ctx) = Ok (false, mkWorld g ctx) ↔
  (brokenEdges ps = [] ∧ (isToRefine (getData g i) = false ∨ stuck)) ∨
  (∃ b, brokenEdges ps = [b] ∧ broken_is_longest g ps b = false ∧ stuck).
Proof.
  intros Hm Hi Hps Hz Hc Hl stuck. destruct (mkProductionState_run g i v2d zg Hm Hi)
    as (ps' & Hps' & Ht & Hint & _). rewrite Hps in Hps'. injection Hps' as <-.
  unfold refine_node. rewrite (st_bind_step get_graph _ _ (mkWorld g ctx) g) by done.
  rewrite (proj2 (basicCondition_interior g i) Hi). cbn [negb].
  rewrite (st_bind_step _ _ _ (mkWorld g ctx) ps) by (unfold lift; by rewrite Hps).
  transitivity (any_applies g ps = false).
  { pose proof (first_production_run g ctx ps Hm Ht Hz Hc Hl) as Ha. unfold applied in Ha.
    destruct (any_applies g ps); [|done]. destruct Ha as (w & -> & _). split; congruence. }
  pose proof (two_broken_applies g ps Ht) as H45. rewrite orb_true_iff in H45.
  unfold any_applies, applies1, applies2, applies3, applies4, applies5, applies6, P1_guard in *.
  rewrite Hint, !orb_false_iff, !andb_false_iff, !not_is_Some, !bool_decide_eq_false.
  pose proof (P3_choice_none ps) as H3. pose proof (P1_choice_none ps) as H1. fold stuck in H1, H3.
  pose proof (brokenEdges_le3 g ps Ht) as Hle.
  destruct (brokenEdges ps) as [|b [|b2 [|b3 [|b4]]]] eqn:Eb; simpl length in *;
    rewrite ?(bool_decide_eq_false_2 (0 = 2)), ?(bool_decide_eq_false_2 (1 = 2)),
      ?(bool_decide_eq_false_2 (3 = 2)) by done.
  - naive_solver.
  - rewrite ?andb_false_iff, negb_false_iff, not_is_Some. 
    destruct (broken_is_longest g ps b) eqn:E; naive_solver.
  - split; [|intros [[? _]|(? & ? & _)]; congruence].
    intros [[[_ H4] H5] _]. exfalso. destruct (H45 eq_refl) as [H|H]; [|congruence].
    apply andb_prop in H as [_ H%bool_decide_eq_true]. destruct H4 as [|H4]; [done|].
    rewrite H4 in H. by destruct H.
  - split; [|intros [[? _]|(? & ? & _)]; congruence]. intros [_ H6]. by destruct H6.
  - lia.
Qed.

Lemma visit_leaves_iff_witness :
  refine_node true sea 5 (mkWorld pair_mesh []) = Ok (false, mkWorld pair_mesh []).
Proof.
  apply (proj2 (visit_leaves_iff pair_mesh [] 5 true sea (state_of pair_mesh 5)
    ltac:(decide_premises) ltac:(decide_premises) ltac:(decide_premises) ltac:(decide_premises)
    ltac:(decide_premises) ltac:(decide_premises))).
  left. split; [|left]; vm_compute; reflexivity.
Defined.
