(* ===== verification/Conformity.v ===== *)
(** * The mesh stays conformal up to hanging vertices

    While the grammar runs, a side of a triangle may be broken: its edge is gone and a
    vertex in the middle, which hangs, is joined to both ends.  The invariant
    [conformal] says that nothing worse happens: every broken side has exactly such a
    vertex, its ends do not hang themselves, and every edge has at most two triangles
    at it, one at the border.  It is what makes the assertions of the productions hold
    ([findNodeBetween] finds the vertex), and every visit keeps it.

    The coordinates come from arithmetic on doubles, so what depends on the position of
    nodes is a condition on the graphs of a run, [plain]: no two nodes stand in the
    middle of the same broken side, the node there is not joined to the opposite
    corner, and midpoints and lengths are numbers. *)
From stdpp Require Import sets.
From S2P Require Import Prelude Double Rounding NumUtils Model MorphGraph GraphFacts GraphSpec.
From S2P Require Import Connectivity ConnFacts Production Productions Mesh Break.
From S2P Require Import ProductionFacts MeshCheck Generator Euler Refine.

(** ** Triangles *)

(** [h] is the interior of the triangle of [a], [b] and [c]. *)
Definition tri (g : Graph) (h a b c : GNode) : Prop :=
  is_interior g h ∧ NoDup [a; b; c] ∧ ∀ v, v ∈ getNeighbours g h ↔ v ∈ [a; b; c].

Definition hanging (g : Graph) (v : GNode) : bool := isHanging (getData g v).

(** The side [a]-[b] of the triangle with the opposite corner [c] is broken by [m]. *)
Record hangs (g : Graph) (a b c m : GNode) : Prop := {
  hg_vertex : is_vertex g m;
  hg_not_c : m ≠ c;
  hg_middle : isXYequal (getCoords (getData g m)) (midpoint g a b) = true;
  hg_a : ∃ d, edge_data g a m = Some d ∧ isBorder d = false;
  hg_b : ∃ d, edge_data g b m = Some d ∧ isBorder d = false;
  hg_hanging : hanging g m = true;
  hg_free_a : hanging g a = false;
  hg_free_b : hanging g b = false;
}.

(** The edge from [u] to [m] is half of a broken side of [h]. *)
Definition half (g : Graph) (u m h : GNode) : Prop :=
  ∃ x w, tri g h u x w ∧ edge_data g u x = None ∧ hangs g u x w m.

(** The edge [u]-[v] lies on the boundary of the triangle [h]. *)
Definition uses (g : Graph) (u v h : GNode) : Prop :=
  (∃ w, tri g h u v w) ∨ half g u v h ∨ half g v u h.

Record conformal (g : Graph) : Prop := {
  cf_mesh : mesh_ok g;
  cf_side h a b c : tri g h a b c → edge_data g a b = None → ∃ m, hangs g a b c m;
  cf_once h a b c h' a' b' c' m :
    tri g h a b c → edge_data g a b = None → hangs g a b c m →
    tri g h' a' b' c' → edge_data g a' b' = None → hangs g a' b' c' m → h = h';
  cf_two u v d h1 h2 h3 :
    is_vertex g u → is_vertex g v → edge_data g u v = Some d →
    uses g u v h1 → uses g u v h2 → uses g u v h3 → h1 = h2 ∨ h1 = h3 ∨ h2 = h3;
  cf_border u v d h1 h2 :
    is_vertex g u → is_vertex g v → edge_data g u v = Some d → isBorder d = true →
    uses g u v h1 → uses g u v h2 → h1 = h2;
  cf_length u v d :
    is_vertex g u → is_vertex g v → edge_data g u v = Some d →
    less (of_Z (-1)) (getLength d) = true;
  cf_used u v d :
    is_vertex g u → is_vertex g v → edge_data g u v = Some d → ∃ h, uses g u v h;
  cf_inner u v d :
    is_vertex g u → is_vertex g v → edge_data g u v = Some d → isBorder d = false →
    ∃ h1 h2, h1 ≠ h2 ∧ uses g u v h1 ∧ uses g u v h2;
  cf_hanging v :
    is_vertex g v → hanging g v = true →
    ∃ h a b c, tri g h a b c ∧ edge_data g a b = None ∧ hangs g a b c v;
}.

Record plain (g : Graph) : Prop := {
  pl_unique a b x y :
    is_vertex g a → is_vertex g b → edge_data g a b = None →
    is_between g a b x → is_between g a b y → x = y;
  pl_uncut h a b c m :
    tri g h a b c → edge_data g a b = None → is_between g a b m → edge_data g m c = None;
  pl_middle a b : is_vertex g a → is_vertex g b → is_Some (edge_data g a b) →
    isXYequal (midpoint g a b) (midpoint g a b) = true;
  pl_length a b d : is_vertex g a → is_vertex g b → edge_data g a b = Some d →
    is_nan (getLength d) = false;
}.

(** ** Symmetry *)

Lemma dadd_comm x y : dadd x y = dadd y x.
Proof.
  destruct x as [sx|sx| |sx mx ex], y as [sy|sy| |sy my ey]; try done;
    try (by destruct sx); try (by destruct sy); try (by destruct sx, sy).
  unfold dadd. cbn [SpecFloat.SFadd]. rewrite (Z.min_comm ey ex). f_equal. apply Z.add_comm.
Qed.

Lemma midpoint_comm g a b : midpoint g a b = midpoint g b a.
Proof. unfold midpoint, coords_plus. f_equal. f_equal; apply dadd_comm. Qed.

Lemma tri_swap g h a b c : tri g h a b c → tri g h b a c.
Proof.
  intros (Hi & Hnd & Hn). split_and!; [done| |].
  - rewrite !list.NoDup_cons, !elem_of_cons in *. naive_solver.
  - intros v. rewrite Hn, !elem_of_cons. naive_solver.
Qed.

Lemma tri_rotate g h a b c : tri g h a b c → tri g h b c a.
Proof.
  intros (Hi & Hnd & Hn). split_and!; [done| |].
  - rewrite !list.NoDup_cons, !elem_of_cons in *. naive_solver.
  - intros v. rewrite Hn, !elem_of_cons. naive_solver.
Qed.

Lemma tri_distinct g h a b c : tri g h a b c → a ≠ b ∧ b ≠ c ∧ a ≠ c.
Proof. intros (_ & Hnd & _). rewrite !list.NoDup_cons, !elem_of_cons in Hnd. naive_solver. Qed.

Lemma tri_corner g h a b c v : tri g h a b c → v ∈ getNeighbours g h ↔ v = a ∨ v = b ∨ v = c.
Proof. intros (_ & _ & Hn). rewrite Hn, !elem_of_cons, list.elem_of_nil. naive_solver. Qed.

Lemma tri_vertices g h a b c :
  mesh_ok g → tri g h a b c → is_vertex g a ∧ is_vertex g b ∧ is_vertex g c.
Proof.
  intros Hm Ht. destruct (mo_triangle _ Hm h (proj1 Ht)) as (x & y & z & Hn & Hx & Hy & Hz).
  assert (∀ v, v = a ∨ v = b ∨ v = c → is_vertex g v) as H; [|split_and!; apply H; auto].
  intros v Hv%(tri_corner _ _ _ _ _ v Ht). rewrite Hn, !elem_of_cons, list.elem_of_nil in Hv.
  naive_solver.
Qed.

(** Two descriptions of the same triangle: the corners of a side that they share
    determine the third. *)
Lemma tri_third g h a b c c' : tri g h a b c → tri g h a b c' → c = c'.
Proof.
  intros Ht Ht'. pose proof (tri_distinct _ _ _ _ _ Ht'). destruct (proj1 (tri_corner _ _ _ _ _ c' Ht)); [|naive_solver..].
  apply (tri_corner _ _ _ _ _ c' Ht'). auto.
Qed.

(** The corners of one description in terms of the other. *)
Lemma tri_sides g h a b c x y z : tri g h a b c → tri g h x y z →
  (x = a ∧ y = b ∧ z = c) ∨ (x = b ∧ y = a ∧ z = c) ∨ (x = b ∧ y = c ∧ z = a) ∨
  (x = c ∧ y = b ∧ z = a) ∨ (x = c ∧ y = a ∧ z = b) ∨ (x = a ∧ y = c ∧ z = b).
Proof.
  intros Ht Ht'. pose proof (tri_distinct _ _ _ _ _ Ht). pose proof (tri_distinct _ _ _ _ _ Ht').
  assert (∀ v, v = x ∨ v = y ∨ v = z → v = a ∨ v = b ∨ v = c) as Hv.
  { intros v Hv%(tri_corner _ _ _ _ _ v Ht'). by apply (tri_corner _ _ _ _ _ v Ht). }
  destruct (Hv x) as [Ex|[Ex|Ex]]; [tauto|..]; destruct (Hv y) as [Ey|[Ey|Ey]]; [tauto|..];
    destruct (Hv z) as [Ez|[Ez|Ez]]; try tauto; subst; exfalso; tauto.
Qed.

Lemma hangs_swap g a b c m : hangs g a b c m → hangs g b a c m.
Proof. intros [? ? H ? ? ? ? ?]. split; try done. by rewrite midpoint_comm. Qed.

Lemma uses_swap g u v h : uses g u v h → uses g v u h.
Proof. intros [[w Hw]|[H|H]]; [left|right; by right|right; by left]. exists w. by apply tri_swap. Qed.

(** ** A conformal mesh is ready for the grammar *)

Lemma hangs_between g a b c m : wf g → hangs g a b c m → is_between g a b m.
Proof.
  intros Hw H. destruct (hg_a _ _ _ _ _ H) as (d & Hd & _).
  destruct (hg_b _ _ _ _ _ H) as (d' & Hd' & _).
  split_and!; [apply edge_data_adj; eauto..|apply H].
Qed.

Section Ready.
Context (g : Graph).
Hypothesis Hc : conformal g.
Hypothesis Hp : plain g.

(** The vertex that breaks a side is the one [findNodeBetween] finds. *)
Lemma broken_found h a b c :
  tri g h a b c → edge_data g a b = None →
  ∃ m, findNodeBetween g a b = Some m ∧ hangs g a b c m.
Proof.
  intros Ht Hd. destruct (cf_side _ Hc _ _ _ _ Ht Hd) as [m Hm].
  pose proof (mo_wf _ (cf_mesh _ Hc)) as Hw. pose proof (hangs_between _ _ _ _ _ Hw Hm) as Hb.
  destruct (tri_vertices _ _ _ _ _ (cf_mesh _ Hc) Ht) as (Ha & Hb' & _).
  destruct (findNodeBetween g a b) as [m'|] eqn:E.
  - apply findNodeBetween_Some in E; [|done]. exists m. split; [|done].
    f_equal. by eapply (pl_unique _ Hp a b).
  - exfalso. by eapply findNodeBetween_None.
Qed.

Lemma hangs_uncut h a b c m :
  tri g h a b c → edge_data g a b = None → hangs g a b c m → edge_data g m c = None.
Proof. intros Ht Hd Hm. eapply (pl_uncut _ Hp); [done|done|]. eapply hangs_between; [apply Hc|done]. Qed.

Lemma side_tri ps e a b c : side g ps e a b c → tri g (interior ps) a b c.
Proof. intros [[Hi Hn Hnd _ _ _ _ _ _ _ _ _] _ _ _]. by split_and!. Qed.

Lemma conformal_lengths_ok ps : triangle g ps → lengths_ok ps.
Proof.
  intros Ht b e Hb He ->. assert (b < 3) as Hlt by (eapply getLongestEdges_lt; eauto).
  assert (b ∈ brokenEdges ps) as Hin by (rewrite Hb; by left).
  destruct (tr_side _ _ Ht b Hlt) as (x & y & z & Hs).
  assert (edge_data g x y = None) as Hx by (by apply (elem_of_brokenEdges g ps (cf_mesh _ Hc) Ht b x y z)).
  assert ((b + 1) mod 3 < 3) as Hlt' by (apply Nat.mod_upper_bound; lia).
  destruct (tr_side _ _ Ht ((b + 1) mod 3) Hlt') as (x' & y' & z' & Hs').
  destruct (edge_data g x' y') as [d|] eqn:Hd.
  - destruct (tri_vertices _ _ _ _ _ (cf_mesh _ Hc) (side_tri _ _ _ _ _ Hs')) as (Hx' & Hy' & _).
    pose proof (cf_length _ Hc x' y' d Hx' Hy' Hd) as Hl.
    apply list_elem_of_filter in He as [He _].
    assert (nth_length ps b = of_Z (-1)) as E1
      by (unfold nth_length; by rewrite (sd_len _ _ _ _ _ _ Hs), Hx).
    assert (nth_length ps ((b + 1) mod 3) = getLength d) as E2
      by (unfold nth_length; by rewrite (sd_len _ _ _ _ _ _ Hs'), Hd).
    by rewrite E1, E2, Hl in He.
  - assert ((b + 1) mod 3 ∈ brokenEdges ps) as Hin' by (by apply (elem_of_brokenEdges g ps (cf_mesh _ Hc) Ht _ x' y' z')).
    rewrite Hb, list_elem_of_singleton in Hin'. destruct b as [|[|[|]]]; simpl in Hin'; lia.
Qed.

(** The terrain has a height in the middle of every side of a triangle. *)
Definition has_heights (zg : double → double → result double) : Prop :=
  ∀ h a b c, tri g h a b c → ∃ z, zg (getX (midpoint g a b)) (getY (midpoint g a b)) = Ok z.

Lemma conformal_ready v2d zg n : has_heights zg → ready v2d zg g n.
Proof.
  intros Hz Hi ps Hps. destruct (mkProductionState_run g n v2d zg (cf_mesh _ Hc) Hi)
    as (ps' & Hps' & Ht & _ & _ & Ez). rewrite Hps in Hps'. injection Hps' as <-. split_and!.
  - intros e a b c _ Hs%side_tri. rewrite Ez. by eapply Hz.
  - intros e a b c _ Hs%side_tri Hd. destruct (broken_found _ _ _ _ Hs Hd) as (m & Hf & Hm).
    exists m. split_and!; [done|apply Hm..].
  - by apply conformal_lengths_ok.
  - intros e a b c m _ Hs%side_tri Hd Hf. apply findNodeBetween_Some in Hf; [|apply Hc].
    by eapply (pl_uncut _ Hp).
Qed.
End Ready.

(** ** Replacing a triangle by two *)

(** What both ways of cutting the triangle [i] have in common: the interiors [t1] and
    [t2] take its place, with the vertex [m] on the side [a]-[b]. *)
Record replaced (g g' : Graph) (i m a b c t1 t2 : GNode) : Prop := {
  rp_mesh : mesh_ok g';
  rp_tri : tri g i a b c;
  rp_t1 : tri g' t1 m c a;
  rp_t2 : tri g' t2 m c b;
  rp_fresh h : is_interior g h → h ≠ t1 ∧ h ≠ t2;
  rp_old h x y z : h ≠ t1 → h ≠ t2 → tri g' h x y z ↔ h ≠ i ∧ tri g h x y z;
  rp_vertex v : is_vertex g' v ↔ is_vertex g v ∨ v = m;
  rp_coords v : is_vertex g v → getCoords (getData g' v) = getCoords (getData g v);
  rp_hanging v : is_vertex g v → v ≠ m → hanging g' v = hanging g v;
  rp_edges x y : is_vertex g x → is_vertex g y → ¬ same_edge x y a b → ¬ same_edge x y m c →
    edge_data g' x y = edge_data g x y;
  rp_ab : edge_data g' a b = None;
  rp_mc_none : edge_data g m c = None;
  rp_mc : ∃ d, edge_data g' m c = Some d ∧ isBorder d = false;
  rp_ma : is_Some (edge_data g' m a);
  rp_mb : is_Some (edge_data g' m b);
}.

(** The two cases: [m] is new, on an edge that was there, or it broke the side already. *)
Record new_on_edge (g g' : Graph) (m a b c : GNode) (d : EdgeData) : Prop := {
  ne_fresh : ¬ is_vertex g m;
  ne_edge : edge_data g a b = Some d;
  ne_ma : ∃ d', edge_data g' m a = Some d' ∧ isBorder d' = isBorder d;
  ne_mb : ∃ d', edge_data g' m b = Some d' ∧ isBorder d' = isBorder d;
  ne_hanging : hanging g' m = negb (isBorder d);
  ne_middle : isXYequal (getCoords (getData g' m)) (midpoint g' a b) = true;
  ne_free : isBorder d = false → hanging g a = false ∧ hanging g b = false;
  ne_only v : is_vertex g v → is_Some (edge_data g' m v) → v = a ∨ v = b ∨ v = c;
}.

Definition on_broken (g g' : Graph) (m a b c : GNode) : Prop :=
  edge_data g a b = None ∧ hangs g a b c m ∧ hanging g' m = false.

Definition step_case (g g' : Graph) (m a b c : GNode) : Prop :=
  (∃ d, new_on_edge g g' m a b c d) ∨ on_broken g g' m a b c.

Lemma replaced_swap g g' i m a b c t1 t2 :
  replaced g g' i m a b c t1 t2 → replaced g g' i m b a c t2 t1.
Proof.
  intros [? Ht ? ? Hf Ho ? ? ? He ? ? ? ? ?]. split; try done.
  - by apply tri_swap.
  - intros h Hh. destruct (Hf h Hh). auto.
  - intros h x y z ??. by apply Ho.
  - intros x y ?? Hab Hmc. apply He; [done|done| |done]. contradict Hab. unfold same_edge in *. tauto.
  - rewrite edge_data_sym; [done|by apply mo_wf].
Qed.

Lemma step_case_swap g g' m a b c :
  wf g → step_case g g' m a b c → step_case g g' m b a c.
Proof.
  intros Hw [[d [? Hd ? ? ? ? Hfr Ho]]|(Hd & Hh & ?)]; [left|right].
  - exists d. split; try done; [by rewrite edge_data_sym|by rewrite midpoint_comm|..].
    + intros Hb. destruct (Hfr Hb). auto.
    + intros v Vv Hv. destruct (Ho v Vv Hv) as [|[|]]; auto.
  - split_and!; [by rewrite edge_data_sym|by apply hangs_swap|done].
Qed.

Section Step.
Context (g g' : Graph) (i m a b c t1 t2 : GNode).
Hypothesis Hc : conformal g.
Hypothesis Hp : plain g.
Hypothesis Hp' : plain g'.
Hypothesis Hr : replaced g g' i m a b c t1 t2.
Hypothesis Hs : step_case g g' m a b c.

Let Hw : wf g := mo_wf _ (cf_mesh _ Hc).
Let Hw' : wf g' := mo_wf _ (rp_mesh _ _ _ _ _ _ _ _ _ Hr).

Lemma step_distinct : a ≠ b ∧ b ≠ c ∧ a ≠ c ∧ m ≠ a ∧ m ≠ b ∧ m ≠ c.
Proof.
  destruct (tri_distinct _ _ _ _ _ (rp_tri _ _ _ _ _ _ _ _ _ Hr)) as (? & ? & ?).
  destruct (tri_distinct _ _ _ _ _ (rp_t1 _ _ _ _ _ _ _ _ _ Hr)) as (? & ? & ?).
  destruct (tri_distinct _ _ _ _ _ (rp_t2 _ _ _ _ _ _ _ _ _ Hr)) as (? & ? & ?). tauto.
Qed.

Lemma step_vertices : is_vertex g a ∧ is_vertex g b ∧ is_vertex g c.
Proof. apply (tri_vertices _ i); [apply Hc|apply Hr]. Qed.

(** Halves of broken sides stay. *)
Lemma keep_half x y d :
  is_vertex g x → is_vertex g y → edge_data g x y = Some d → isBorder d = false →
  hanging g y = true → edge_data g' x y = Some d.
Proof.
  intros Hx Hy Hd Hb Hh. rewrite <- Hd. apply (rp_edges _ _ _ _ _ _ _ _ _ Hr); [done|done| |].
  - intros Hsame. assert (edge_data g a b = Some d) as Hab.
    { destruct Hsame as [[-> ->]|[-> ->]]; [done|]. by rewrite edge_data_sym. }
    destruct Hs as [(d' & Hn)|(Hnone & _)]; [|congruence].
    rewrite (ne_edge _ _ _ _ _ _ _ Hn) in Hab. injection Hab as ->.
    destruct (ne_free _ _ _ _ _ _ _ Hn Hb) as [Ha' Hb'].
    destruct Hsame as [[-> ->]|[-> ->]]; congruence.
  - intros Hsame. pose proof (rp_mc_none _ _ _ _ _ _ _ _ _ Hr) as Hn.
    destruct Hsame as [[-> ->]|[-> ->]]; [congruence|]. rewrite edge_data_sym in Hd; [congruence|done].
Qed.

Lemma midpoint_kept x y : is_vertex g x → is_vertex g y → midpoint g' x y = midpoint g x y.
Proof. intros Hx Hy. unfold midpoint. by rewrite !(rp_coords _ _ _ _ _ _ _ _ _ Hr). Qed.

(** A hanging vertex other than [m] keeps hanging. *)
Lemma hangs_kept x y z z' m' :
  is_vertex g x → is_vertex g y → m' ≠ m → m' ≠ z' → x ≠ m → y ≠ m →
  hangs g x y z m' → hangs g' x y z' m'.
Proof.
  intros Hx Hy Hm Hz Hxm Hym [Hv _ Hmid (d1 & Hd1 & Hb1) (d2 & Hd2 & Hb2) Hh Hfx Hfy]. split.
  - apply (rp_vertex _ _ _ _ _ _ _ _ _ Hr). auto.
  - done.
  - by rewrite (rp_coords _ _ _ _ _ _ _ _ _ Hr), midpoint_kept.
  - exists d1. split; [by apply keep_half|done].
  - exists d2. split; [by apply keep_half|done].
  - by rewrite (rp_hanging _ _ _ _ _ _ _ _ _ Hr).
  - by rewrite (rp_hanging _ _ _ _ _ _ _ _ _ Hr).
  - by rewrite (rp_hanging _ _ _ _ _ _ _ _ _ Hr).
Qed.
Lemma end_not_m h x y z m' :
  tri g h x y z → hangs g x y z m' → x ≠ m ∧ y ≠ m.
Proof.
  intros Ht Hm'. destruct (tri_vertices _ _ _ _ _ (cf_mesh _ Hc) Ht) as (Hx & Hy & _).
  destruct Hs as [(d & Hn)|(_ & Hm & _)].
  - pose proof (ne_fresh _ _ _ _ _ _ _ Hn). split; by intros ->.
  - pose proof (hg_hanging _ _ _ _ _ Hm). pose proof (hg_free_a _ _ _ _ _ Hm').
    pose proof (hg_free_b _ _ _ _ _ Hm'). split; intros ->; congruence.
Qed.

(** [m] breaks no other side. *)
Lemma other_not_m h x y z m' :
  tri g h x y z → edge_data g x y = None → hangs g x y z m' →
  h ≠ i ∨ x = c ∨ y = c → m' ≠ m.
Proof.
  intros Ht Hd Hm' Hor ->. destruct Hs as [(d & Hn)|(Hab & Hm & _)].
  { by apply (ne_fresh _ _ _ _ _ _ _ Hn), (hg_vertex _ _ _ _ _ Hm'). }
  pose proof (rp_mc_none _ _ _ _ _ _ _ _ _ Hr) as Hmc. rewrite edge_data_sym in Hmc by done.
  destruct Hor as [Hh|[->| ->]].
  - destruct Hh. eapply (cf_once _ Hc); [exact Ht|exact Hd|exact Hm'|apply Hr|exact Hab|exact Hm].
  - destruct (hg_a _ _ _ _ _ Hm') as (? & ? & _). congruence.
  - destruct (hg_b _ _ _ _ _ Hm') as (? & ? & _). congruence.
Qed.

(** Where a broken side of the new mesh comes from. *)
Definition comes_from (h x y z m' : GNode) : Prop :=
  (m' ≠ m ∧ edge_data g x y = None ∧
     (h ≠ i ∧ tri g h x y z ∧ hangs g x y z m' ∨
      (h = t1 ∨ h = t2) ∧ ∃ z0, tri g i x y z0 ∧ hangs g x y z0 m' ∧ (x = c ∨ y = c))) ∨
  (m' = m ∧ same_edge x y a b ∧ h ≠ i ∧ tri g h x y z ∧ ∃ d, new_on_edge g g' m a b c d).

(** The broken sides of a new triangle. *)
Lemma broken_part t x y z w :
  tri g i w c (if decide (w = a) then b else a) → (w = a ∨ w = b) →
  t = (if decide (w = a) then t1 else t2) →
  tri g' t m c w → tri g' t x y z → edge_data g' x y = None →
  ∃ m', hangs g' x y z m' ∧ comes_from t x y z m'.
Proof.
  intros Hti Hw0 Et Ht Hxyz Hd. destruct step_distinct as (D1 & D2 & D3 & D4 & D5 & D6).
  destruct step_vertices as (Va & Vb & Vc).
  destruct (rp_mc _ _ _ _ _ _ _ _ _ Hr) as (dmc & Hmc & _).
  assert (is_Some (edge_data g' m w)) as [dmw Hmw] by (destruct Hw0 as [->| ->]; apply Hr).
  assert (is_vertex g w) as Vw by (destruct Hw0; by subst).
  assert (w ≠ c ∧ w ≠ m) as [Hwc Hwm] by (destruct Hw0; subst; auto).
  assert (edge_data g' c m = Some dmc) by (by rewrite edge_data_sym).
  assert (edge_data g' w m = Some dmw) by (by rewrite edge_data_sym).
  assert (edge_data g c w = edge_data g' c w) as Hcw.
  { symmetry. apply (rp_edges _ _ _ _ _ _ _ _ _ Hr); [done|done|..]; unfold same_edge; naive_solver. }
  assert ((x = c ∧ y = w ∨ x = w ∧ y = c) ∧ z = m) as [Hxy ->].
  { destruct (tri_sides _ _ _ _ _ _ _ _ Ht Hxyz) as
      [(->&->&->)|[(->&->&->)|[(->&->&->)|[(->&->&->)|[(->&->&->)|(->&->&->)]]]]]; try congruence; auto. }
  assert (edge_data g c w = None) as Hcw0.
  { rewrite Hcw. destruct Hxy as [[-> ->]|[-> ->]]; [done|]. by rewrite edge_data_sym. }
  set (o := if decide (w = a) then b else a) in *.
  assert (tri g i x y o ∧ edge_data g x y = None ∧ is_vertex g x ∧ is_vertex g y ∧ (x = c ∨ y = c))
    as (Hio & Hxy0 & Vx & Vy & Hxyc).
  { destruct Hxy as [[-> ->]|[-> ->]].
    - split_and!; [by apply tri_swap|done..|by left].
    - split_and!; [done|by rewrite edge_data_sym|done..|by right]. }
  destruct (cf_side _ Hc i x y o Hio Hxy0) as [m' Hm'].
  assert (m' ≠ m) as Hm'm by (eapply other_not_m; eauto).
  destruct (end_not_m _ _ _ _ _ Hio Hm') as [Hxm Hym].
  exists m'. split; [by eapply hangs_kept|]. left. split_and!; [done|done|]. right. split; [|eauto].
  rewrite Et. case_decide; auto.
Qed.

(** The triangle on the other side of [a]-[b]. *)
Lemma broken_neighbour h x y z :
  tri g h x y z → h ≠ i → same_edge x y a b →
  ∃ m', hangs g' x y z m' ∧ comes_from h x y z m'.
Proof.
  intros Ht Hhi Hxy. destruct step_vertices as (Va & Vb & Vc).
  pose proof (rp_tri _ _ _ _ _ _ _ _ _ Hr) as Hti.
  destruct step_distinct as (D1 & D2 & D3 & D4 & D5 & D6).
  assert (tri g h a b z) as Hab by (destruct Hxy as [[-> ->]|[-> ->]]; [done|by apply tri_swap]).
  destruct (tri_vertices _ _ _ _ _ (cf_mesh _ Hc) Ht) as (_ & _ & Vz).
  destruct Hs as [(d & Hn)|(Hd & Hm & _)].
  - exists m. split; [|right; split_and!; eauto]. assert (isBorder d = false) as Hb.
    { destruct (isBorder d) eqn:E; [|done]. destruct Hhi.
      apply (cf_border _ Hc a b d); try done; [apply Hn|left; eauto..]. }
    destruct (ne_free _ _ _ _ _ _ _ Hn Hb) as [Fa Fb].
    destruct (ne_ma _ _ _ _ _ _ _ Hn) as (da & Hma & Ba).
    destruct (ne_mb _ _ _ _ _ _ _ Hn) as (db & Hmb & Bb). rewrite edge_data_sym in Hma, Hmb by done.
    assert (hangs g' a b z m) as Hh.
    { split; rewrite ?(rp_hanging _ _ _ _ _ _ _ _ _ Hr) by auto; try done.
      - apply (rp_vertex _ _ _ _ _ _ _ _ _ Hr). by right.
      - intros ->. by apply (ne_fresh _ _ _ _ _ _ _ Hn).
      - apply Hn.
      - exists da. split; [done|congruence].
      - exists db. split; [done|congruence].
      - by rewrite (ne_hanging _ _ _ _ _ _ _ Hn), Hb. }
    destruct Hxy as [[-> ->]|[-> ->]]; [done|by apply hangs_swap].
  - exfalso. destruct (cf_side _ Hc h a b z Hab Hd) as [m' Hm'].
    assert (m' = m) as -> by (eapply (pl_unique _ Hp a b); try done; by eapply hangs_between).
    apply Hhi. by eapply (cf_once _ Hc h a b z i a b c m).
Qed.

Lemma broken_cases h x y z :
  tri g' h x y z → edge_data g' x y = None → ∃ m', hangs g' x y z m' ∧ comes_from h x y z m'.
Proof.
  intros Ht Hd. destruct step_distinct as (D1 & D2 & D3 & D4 & D5 & D6).
  pose proof (rp_tri _ _ _ _ _ _ _ _ _ Hr) as Hti.
  destruct (decide (h = t1)) as [->|H1].
  { apply (broken_part t1 x y z a); try done; [|by left|by rewrite decide_True|apply Hr].
    rewrite decide_True by done. by apply tri_swap, tri_rotate, tri_rotate. }
  destruct (decide (h = t2)) as [->|H2].
  { apply (broken_part t2 x y z b); try done; [|by right|by rewrite decide_False|apply Hr].
    rewrite decide_False by done. by apply tri_rotate. }
  apply (rp_old _ _ _ _ _ _ _ _ _ Hr) in Ht as [Hhi Ht]; [|done|done].
  destruct (tri_vertices _ _ _ _ _ (cf_mesh _ Hc) Ht) as (Vx & Vy & Vz).
  destruct (decide (same_edge x y a b)) as [Hab|Hab]; [by apply broken_neighbour|].
  assert (edge_data g x y = None) as Hd0.
  { rewrite <- Hd. symmetry. apply (rp_edges _ _ _ _ _ _ _ _ _ Hr); try done. intros Hmc.
    destruct (rp_mc _ _ _ _ _ _ _ _ _ Hr) as (d & Hd1 & _).
    destruct Hmc as [[-> ->]|[-> ->]]; [congruence|]. rewrite edge_data_sym in Hd1 by done. congruence. }
  destruct (cf_side _ Hc h x y z Ht Hd0) as [m' Hm'].
  assert (m' ≠ m) as Hmm by (apply (other_not_m h x y z m' Ht Hd0 Hm'); by left).
  destruct (end_not_m _ _ _ _ _ Ht Hm') as [Hxm Hym].
  exists m'. split; [|left; split_and!; auto].
  apply (hangs_kept x y z z m'); try done. exact (hg_not_c _ _ _ _ _ Hm').
Qed.

Lemma hangs_from h x y z m' :
  tri g' h x y z → edge_data g' x y = None → hangs g' x y z m' → comes_from h x y z m'.
Proof.
  intros Ht Hd Hm'. destruct (broken_cases h x y z Ht Hd) as (m2 & Hm2 & Hfrom).
  destruct (tri_vertices _ _ _ _ _ (rp_mesh _ _ _ _ _ _ _ _ _ Hr) Ht) as (Vx & Vy & _).
  assert (m' = m2) as ->; [|done].
  eapply (pl_unique _ Hp' x y); try done; by eapply hangs_between.
Qed.

Definition parent (h : GNode) : GNode := if decide (h = t1 ∨ h = t2) then i else h.

Lemma parent_old h : is_interior g h → parent h = h.
Proof.
  intros Hh. destruct (rp_fresh _ _ _ _ _ _ _ _ _ Hr h Hh). unfold parent.
  rewrite decide_False; [done|tauto].
Qed.

Lemma half_parent u v h :
  is_vertex g v → half g' u v h → half g u v (parent h).
Proof.
  intros Vv (x & w & Ht & Hd & Hh). destruct (hangs_from _ _ _ _ _ Ht Hd Hh) as
    [(Hvm & Hd0 & [(Hhi & Ht0 & Hh0)|(Ht12 & z0 & Ht0 & Hh0 & _)])|(-> & _ & _ & _ & d & Hn)].
  - rewrite parent_old by apply Ht0. by exists x, w.
  - unfold parent. rewrite decide_True by done. by exists x, z0.
  - by destruct (ne_fresh _ _ _ _ _ _ _ Hn).
Qed.

(** A corner pair of the first part. *)
Lemma tri_part u v w :
  tri g' t1 u v w → is_vertex g u → is_vertex g v → ¬ same_edge u v m c → uses g u v i.
Proof.
  intros Ht Vu Vv Hmc. pose proof (rp_tri _ _ _ _ _ _ _ _ _ Hr) as Hti.
  assert (is_vertex g m → half g a m i) as Hm.
  { intros Vm. destruct Hs as [(d & Hn)|(Hd & Hh & _)]; [by destruct (ne_fresh _ _ _ _ _ _ _ Hn)|].
    by exists b, c. }
  assert (tri g i c a b) as Hca by (by apply tri_rotate, tri_rotate).
  destruct (tri_sides _ _ _ _ _ _ _ _ (rp_t1 _ _ _ _ _ _ _ _ _ Hr) Ht) as
    [(->&->&->)|[(->&->&->)|[(->&->&->)|[(->&->&->)|[(->&->&->)|(->&->&->)]]]]].
  - destruct Hmc. by left.
  - destruct Hmc. by right.
  - left. eauto.
  - left. exists b. by apply tri_swap.
  - right. left. auto.
  - right. right. auto.
Qed.

(** The edges on the boundary of the first part. *)
Lemma uses_part u v :
  uses g' u v t1 →
  same_edge u v m c ∨ same_edge u v m a ∨ same_edge u v c a ∨
  ∃ m2, m2 ≠ m ∧ (same_edge u v c m2 ∨ same_edge u v a m2) ∧
    edge_data g a c = None ∧ hangs g a c b m2.
Proof.
  assert (∀ u v, half g' u v t1 → ∃ m2, m2 ≠ m ∧ (same_edge u v c m2 ∨ same_edge u v a m2) ∧
    edge_data g a c = None ∧ hangs g a c b m2) as Hhalf.
  { clear u v. intros u v (x & w & Ht & Hd & Hh). pose proof (rp_tri _ _ _ _ _ _ _ _ _ Hr) as Hti.
    destruct (rp_mc _ _ _ _ _ _ _ _ _ Hr) as (d1 & Hd1 & _).
    destruct (rp_ma _ _ _ _ _ _ _ _ _ Hr) as (d2 & Hd2).
    pose proof (edge_data_sym g' m c Hw'). pose proof (edge_data_sym g' m a Hw').
    assert ((u = c ∧ x = a) ∨ (u = a ∧ x = c)) as Hux.
    { destruct (tri_sides _ _ _ _ _ _ _ _ (rp_t1 _ _ _ _ _ _ _ _ _ Hr) Ht) as
        [(->&->&->)|[(->&->&->)|[(->&->&->)|[(->&->&->)|[(->&->&->)|(->&->&->)]]]]];
        first [congruence|by auto]. }
    destruct (hangs_from _ _ _ _ _ Ht Hd Hh) as
      [(Hvm & Hd0 & [(Hhi & Ht0 & Hh0)|(Ht12 & z0 & Ht0 & Hh0 & _)])|(-> & Hab & _)].
    - destruct (rp_fresh _ _ _ _ _ _ _ _ _ Hr t1); [apply Ht0|done].
    - exists v. split; [done|]. destruct Hux as [[-> ->]|[-> ->]].
      + assert (z0 = b) as -> by (eapply tri_third; [exact Ht0|]; by apply tri_rotate, tri_rotate).
        rewrite edge_data_sym in Hd0 by done. apply hangs_swap in Hh0.
        split_and!; [left; by left|done|done].
      + assert (z0 = b) as -> by (eapply tri_third; [exact Ht0|]; by apply tri_swap, tri_rotate, tri_rotate).
        split_and!; [right; by left|done|done].
    - destruct step_distinct as (? & ? & ? & _). unfold same_edge in Hab. naive_solver. }
  intros [[w Ht]|[Hh|Hh]].
  - destruct (tri_sides _ _ _ _ _ _ _ _ (rp_t1 _ _ _ _ _ _ _ _ _ Hr) Ht) as
      [(->&->&->)|[(->&->&->)|[(->&->&->)|[(->&->&->)|[(->&->&->)|(->&->&->)]]]]];
      unfold same_edge; tauto.
  - right. right. right. by apply Hhalf.
  - right. right. right. destruct (Hhalf _ _ Hh) as (m2 & ? & ? & ?). exists m2.
    split_and!; [done| |tauto..]. unfold same_edge in *. tauto.
Qed.
End Step.

Lemma edge_irrefl g x : wf g → edge_data g x x = None.
Proof.
  intros Hw. destruct (edge_data g x x) as [d|] eqn:E; [exfalso|done].
  destruct (proj1 (edge_data_adj g x x Hw)) as [p Hp]; [eauto|].
  apply adj_Some in Hp; [|done]. by eapply adjP_irrefl.
Qed.

(** The vertex on a broken side is none of the corners. *)
Lemma hangs_distinct g a b c m : wf g → hangs g a b c m → m ≠ a ∧ m ≠ b ∧ m ≠ c.
Proof.
  intros Hw [_ Hmc _ (d & Hd & _) (d' & Hd' & _) _ _ _].
  split_and!; [intros ->|intros ->|done]; rewrite edge_irrefl in *; done.
Qed.

Section Parts.
Context (g g' : Graph) (i m a b c t1 t2 : GNode).
Hypothesis Hc : conformal g.
Hypothesis Hp : plain g.
Hypothesis Hp' : plain g'.
Hypothesis Hr : replaced g g' i m a b c t1 t2.
Hypothesis Hs : step_case g g' m a b c.

Let Hw : wf g := mo_wf _ (cf_mesh _ Hc).
Let Hw' : wf g' := mo_wf _ (rp_mesh _ _ _ _ _ _ _ _ _ Hr).
Let Hr2 : replaced g g' i m b a c t2 t1 := replaced_swap _ _ _ _ _ _ _ _ _ Hr.
Let Hs2 : step_case g g' m b a c := step_case_swap _ _ _ _ _ _ Hw Hs.

Lemma parts_disjoint u v : uses g' u v t1 → uses g' u v t2 → same_edge u v m c.
Proof.
  intros H1 H2. pose proof (rp_tri _ _ _ _ _ _ _ _ _ Hr) as Hti.
  destruct (step_distinct _ _ _ _ _ _ _ _ _ Hr) as (D1 & D2 & D3 & D4 & D5 & D6).
  apply (uses_part g g' i m a b c t1 t2 Hc Hp Hp' Hr Hs) in H1.
  apply (uses_part g g' i m b a c t2 t1 Hc Hp Hp' Hr2 Hs2) in H2.
  destruct H1 as [H1|[H1|[H1|(m2 & E2 & H1 & Hd2 & Hh2)]]]; [done|..];
    destruct H2 as [H2|[H2|[H2|(m3 & E3 & H2 & Hd3 & Hh3)]]]; try done;
    try (destruct (hangs_distinct _ _ _ _ _ Hw Hh2) as (? & ? & ?));
    try (destruct (hangs_distinct _ _ _ _ _ Hw Hh3) as (? & ? & ?));
    try (assert (m2 ≠ m3) by
      (intros ->; assert (edge_data g m3 b = None) as Hn by
        (eapply (hangs_uncut g Hc Hp i a c b); [by apply tri_swap, tri_rotate, tri_rotate|done|done]);
       destruct (hg_a _ _ _ _ _ Hh3) as (d & Hd & _); rewrite edge_data_sym in Hd by done; congruence));
    exfalso; unfold same_edge in *; intuition congruence.
Qed.

Lemma interior_not_i h x y z : tri g' h x y z → h ≠ i.
Proof.
  intros Ht ->. pose proof (rp_tri _ _ _ _ _ _ _ _ _ Hr) as Hti.
  destruct (rp_fresh _ _ _ _ _ _ _ _ _ Hr i) as [H1 H2]; [apply Hti|].
  by apply (rp_old _ _ _ _ _ _ _ _ _ Hr) in Ht as [? _].
Qed.

Lemma uses_tri u v h : uses g' u v h → ∃ x y z, tri g' h x y z.
Proof. intros [[w H]|[(x & w & H & _)|(x & w & H & _)]]; eauto. Qed.

Lemma uses_parent u v h :
  is_vertex g u → is_vertex g v → ¬ same_edge u v m c → uses g' u v h →
  uses g u v (parent i t1 t2 h).
Proof.
  intros Vu Vv Hmc [[w Ht]|[Hh|Hh]].
  - unfold parent. case_decide as Hor; [|left].
    + destruct Hor as [->| ->].
      * by apply (tri_part g g' i m a b c t1 t2 Hr Hs u v w).
      * by apply (tri_part g g' i m b a c t2 t1 Hr2 Hs2 u v w).
    + apply (rp_old _ _ _ _ _ _ _ _ _ Hr) in Ht as [_ Ht]; [eauto|tauto..].
  - right. left. by eapply half_parent.
  - right. right. by eapply half_parent.
Qed.

Lemma parent_inj u v h h' :
  ¬ same_edge u v m c → uses g' u v h → uses g' u v h' →
  parent i t1 t2 h = parent i t1 t2 h' → h = h'.
Proof.
  intros Hmc Hh Hh' E. destruct (uses_tri _ _ _ Hh) as (? & ? & ? & Hi%interior_not_i).
  destruct (uses_tri _ _ _ Hh') as (? & ? & ? & Hi'%interior_not_i).
  unfold parent in E. case_decide as H1; case_decide as H2; try congruence.
  destruct H1 as [->| ->], H2 as [->| ->]; try done; destruct Hmc; by apply parts_disjoint.
Qed.

Lemma edge_old u v d :
  is_vertex g u → is_vertex g v → ¬ same_edge u v m c → edge_data g' u v = Some d →
  edge_data g u v = Some d.
Proof.
  intros Vu Vv Hmc Hd. rewrite <- Hd. symmetry. apply (rp_edges _ _ _ _ _ _ _ _ _ Hr); try done.
  intros Hab. pose proof (rp_ab _ _ _ _ _ _ _ _ _ Hr) as Hn.
  destruct Hab as [[-> ->]|[-> ->]]; [congruence|]. rewrite edge_data_sym in Hd by done. congruence.
Qed.

Lemma uses_mc h : uses g' m c h → h = t1 ∨ h = t2.
Proof.
  destruct (step_distinct _ _ _ _ _ _ _ _ _ Hr) as (D1 & D2 & D3 & D4 & D5 & D6).
  pose proof (rp_mc_none _ _ _ _ _ _ _ _ _ Hr) as Hmc.
  destruct (decide (h = t1)) as [|H1]; [auto|]. destruct (decide (h = t2)) as [|H2]; [auto|].
  intros [[w Ht]|[(x & w & Ht & Hd & Hh)|(x & w & Ht & Hd & Hh)]]; exfalso.
  - apply (rp_old _ _ _ _ _ _ _ _ _ Hr) in Ht as [_ Ht]; [|done|done].
    destruct (cf_side _ Hc _ _ _ _ Ht Hmc) as [m' Hm'].
    by destruct (end_not_m _ _ _ _ _ _ Hc Hs _ _ _ _ _ Ht Hm').
  - destruct (hangs_from _ _ _ _ _ _ _ _ _ Hc Hp Hp' Hr Hs _ _ _ _ _ Ht Hd Hh) as
      [(_ & _ & [(_ & _ & Hh0)|(_ & z0 & _ & Hh0 & _)])|(-> & _)]; [..|done];
      destruct (hg_a _ _ _ _ _ Hh0) as (? & ? & _); congruence.
  - destruct (hangs_from _ _ _ _ _ _ _ _ _ Hc Hp Hp' Hr Hs _ _ _ _ _ Ht Hd Hh) as
      [(? & _)|(_ & Hab & _)]; [done|]. unfold same_edge in Hab. intuition congruence.
Qed.

(** The two halves of an edge that was cut. *)
Lemma uses_ma d h :
  new_on_edge g g' m a b c d → uses g' m a h → h = t1 ∨ h ≠ i ∧ uses g a b h.
Proof.
  intros Hn. destruct (step_distinct _ _ _ _ _ _ _ _ _ Hr) as (D1 & D2 & D3 & D4 & D5 & D6).
  pose proof (ne_fresh _ _ _ _ _ _ _ Hn) as Hfresh.
  assert (∀ x w, tri g' h m x w → h = t1 ∨ h = t2) as Hmt.
  { intros x w Ht. destruct (decide (h = t1)); [auto|]. destruct (decide (h = t2)); [auto|].
    apply (rp_old _ _ _ _ _ _ _ _ _ Hr) in Ht as [_ Ht]; [|done|done].
    by destruct Hfresh, (tri_vertices _ _ _ _ _ (cf_mesh _ Hc) Ht). }
  intros [[w Ht]|[(x & w & Ht & Hd & Hh)|(x & w & Ht & Hd & Hh)]].
  - destruct (Hmt _ _ Ht) as [->| ->]; [by left|exfalso].
    assert (a = m ∨ a = c ∨ a = b); [|naive_solver].
    apply (tri_corner _ _ _ _ _ a (rp_t2 _ _ _ _ _ _ _ _ _ Hr)), (tri_corner _ _ _ _ _ a Ht). auto.
  - exfalso. destruct (rp_mc _ _ _ _ _ _ _ _ _ Hr) as (d1 & Hd1 & _).
    destruct (rp_ma _ _ _ _ _ _ _ _ _ Hr) as (d2 & Hd2).
    destruct (rp_mb _ _ _ _ _ _ _ _ _ Hr) as (d3 & Hd3).
    assert (x = c ∨ x = a ∨ x = b) as Hx; [|destruct Hx as [->|[->| ->]]; congruence].
    destruct (tri_distinct _ _ _ _ _ Ht) as (? & _).
    destruct (Hmt _ _ Ht) as [->| ->].
    + assert (x = m ∨ x = c ∨ x = a); [|naive_solver].
      apply (tri_corner _ _ _ _ _ x (rp_t1 _ _ _ _ _ _ _ _ _ Hr)), (tri_corner _ _ _ _ _ x Ht). auto.
    + assert (x = m ∨ x = c ∨ x = b); [|naive_solver].
      apply (tri_corner _ _ _ _ _ x (rp_t2 _ _ _ _ _ _ _ _ _ Hr)), (tri_corner _ _ _ _ _ x Ht). auto.
  - destruct (hangs_from _ _ _ _ _ _ _ _ _ Hc Hp Hp' Hr Hs _ _ _ _ _ Ht Hd Hh) as
      [(? & _)|(_ & Hab & Hhi & Ht0 & _)]; [done|]. right. split; [done|]. left. exists w.
    destruct Hab as [[_ ->]|[-> _]]; [done|congruence].
Qed.

(** The triangles at an edge that was there before. *)
Lemma old_two u v d h1 h2 h3 :
  is_vertex g u → is_vertex g v → ¬ same_edge u v m c → edge_data g' u v = Some d →
  uses g' u v h1 → uses g' u v h2 → uses g' u v h3 → h1 = h2 ∨ h1 = h3 ∨ h2 = h3.
Proof.
  intros Vu Vv Hmc Hd H1 H2 H3. pose proof (edge_old _ _ _ Vu Vv Hmc Hd) as Hd0.
  destruct (cf_two _ Hc u v d _ _ _ Vu Vv Hd0 (uses_parent _ _ _ Vu Vv Hmc H1)
    (uses_parent _ _ _ Vu Vv Hmc H2) (uses_parent _ _ _ Vu Vv Hmc H3)) as [E|[E|E]];
    apply (parent_inj u v) in E; auto.
Qed.

Lemma old_border u v d h1 h2 :
  is_vertex g u → is_vertex g v → ¬ same_edge u v m c → edge_data g' u v = Some d →
  isBorder d = true → uses g' u v h1 → uses g' u v h2 → h1 = h2.
Proof.
  intros Vu Vv Hmc Hd Hb H1 H2. pose proof (edge_old _ _ _ Vu Vv Hmc Hd) as Hd0.
  apply (parent_inj u v); [done..|]. by apply (cf_border _ Hc u v d); [..|apply uses_parent|apply uses_parent].
Qed.

(** The triangles at half of an edge that was cut. *)
Lemma half_two d h1 h2 h3 :
  new_on_edge g g' m a b c d →
  uses g' m a h1 → uses g' m a h2 → uses g' m a h3 → h1 = h2 ∨ h1 = h3 ∨ h2 = h3.
Proof.
  intros Hn H1 H2 H3. destruct (step_vertices _ _ _ _ _ _ _ _ _ Hc Hr) as (Va & Vb & _).
  assert (uses g a b i) as Hi by (left; exists c; apply Hr).
  assert (∀ h h', h ≠ i → uses g a b h → h' ≠ i → uses g a b h' → h = h') as H.
  { intros h h' Hh Hu Hh' Hu'. destruct (cf_two _ Hc a b d i h h' Va Vb (ne_edge _ _ _ _ _ _ _ Hn) Hi Hu Hu')
      as [<-|[<-|]]; done. }
  apply (uses_ma d) in H1; [|done]. apply (uses_ma d) in H2; [|done]. apply (uses_ma d) in H3; [|done].
  destruct H1 as [->|[]]; destruct H2 as [->|[]]; auto; destruct H3 as [->|[]]; auto.
Qed.

Lemma half_border d h1 h2 :
  new_on_edge g g' m a b c d → isBorder d = true → uses g' m a h1 → uses g' m a h2 → h1 = h2.
Proof.
  intros Hn Hb H1 H2. destruct (step_vertices _ _ _ _ _ _ _ _ _ Hc Hr) as (Va & Vb & _).
  assert (uses g a b i) as Hi by (left; exists c; apply Hr).
  assert (∀ h, h ≠ i → uses g a b h → False) as H.
  { intros h Hh Hu. apply Hh. apply (cf_border _ Hc a b d); try done. apply Hn. }
  apply (uses_ma d) in H1; [|done]. apply (uses_ma d) in H2; [|done].
  destruct H1 as [->|[? ?]]; [|by destruct (H h1)]. destruct H2 as [->|[? ?]]; [done|by destruct (H h2)].
Qed.

(** ** What the new mesh has from the old one *)

(** A broken side with a vertex other than [m] is there again. *)
Lemma broken_forward h x y z m' :
  tri g h x y z → edge_data g x y = None → hangs g x y z m' → m' ≠ m →
  ∃ h' z', tri g' h' x y z' ∧ edge_data g' x y = None ∧ hangs g' x y z' m' ∧ parent i t1 t2 h' = h.
Proof.
  intros Ht Hd Hh Hm'. destruct (tri_vertices _ _ _ _ _ (cf_mesh _ Hc) Ht) as (Vx & Vy & Vz).
  destruct (end_not_m _ _ _ _ _ _ Hc Hs _ _ _ _ _ Ht Hh) as [Hx Hy].
  assert (edge_data g' x y = None) as Hd'.
  { destruct (decide (same_edge x y a b)) as [[[-> ->]|[-> ->]]|Hab]; [apply Hr|apply Hr2|].
    rewrite (rp_edges _ _ _ _ _ _ _ _ _ Hr); [done..|]. unfold same_edge. intuition congruence. }
  destruct (decide (h = i)) as [->|Hhi].
  - destruct (step_distinct _ _ _ _ _ _ _ _ _ Hr) as (D1 & D2 & D3 & D4 & D5 & D6).
    pose proof (rp_tri _ _ _ _ _ _ _ _ _ Hr) as Hti.
    assert (∀ t, t = t1 ∨ t = t2 → parent i t1 t2 t = i) as Hpar
      by (intros t Hor; unfold parent; by rewrite decide_True).
    assert (¬ same_edge x y a b) as Hab.
    { intros Hab. pose proof Hs as [(d & Hn)|(_ & Hm & _)].
      - pose proof (ne_edge _ _ _ _ _ _ _ Hn). destruct Hab as [[-> ->]|[-> ->]]; [congruence|].
        rewrite edge_data_sym in Hd by done. congruence.
      - apply Hm'. apply (pl_unique _ Hp x y); [done..|by eapply hangs_between|].
        apply hangs_between in Hm; [|done]. destruct Hab as [[-> ->]|[-> ->]]; [done|].
        destruct Hm as (? & ? & ?). split_and!; [done..|]. by rewrite midpoint_comm. }
    assert (∀ t w, t = t1 ∨ t = t2 → tri g' t m c w → same_edge x y c w → ∃ h' z',
      tri g' h' x y z' ∧ edge_data g' x y = None ∧ hangs g' x y z' m' ∧ parent i t1 t2 h' = i) as Hpart.
    { intros t w Hor Htw Hxy. exists t, m. split_and!; [|done| |by apply Hpar].
      - destruct Hxy as [[-> ->]|[-> ->]]; [by apply tri_rotate|by apply tri_swap, tri_rotate].
      - by eapply (hangs_kept g g' i m a b c t1 t2 Hc Hr Hs). }
    destruct (tri_sides _ _ _ _ _ _ _ _ Hti Ht) as
      [(->&->&->)|[(->&->&->)|[(->&->&->)|[(->&->&->)|[(->&->&->)|(->&->&->)]]]]].
    + destruct Hab. by left.
    + destruct Hab. by right.
    + apply (Hpart t2 b); [by right|apply Hr|by right].
    + apply (Hpart t2 b); [by right|apply Hr|by left].
    + apply (Hpart t1 a); [by left|apply Hr|by left].
    + apply (Hpart t1 a); [by left|apply Hr|by right].
  - destruct (rp_fresh _ _ _ _ _ _ _ _ _ Hr h (proj1 Ht)) as [H1 H2].
    exists h, z. split_and!; [by apply (rp_old _ _ _ _ _ _ _ _ _ Hr)|done| |].
    + eapply (hangs_kept g g' i m a b c t1 t2 Hc Hr Hs); try done. by destruct Hh.
    + by apply (parent_old g g' i m a b c t1 t2 Hr), Ht.
Qed.

(** A triangle at an edge that is kept, or a part of it, is there again. *)
Lemma half_forward u v h : half g u v h → ∃ h', uses g' u v h' ∧ parent i t1 t2 h' = h.
Proof.
  intros (x & w & Ht & Hd & Hh). destruct (decide (v = m)) as [->|Hvm].
  - pose proof Hs as [(d & Hn)|(Hab & Hm & _)]; [by destruct (ne_fresh _ _ _ _ _ _ _ Hn), (hg_vertex _ _ _ _ _ Hh)|].
    assert (h = i) as -> by (eapply (cf_once _ Hc); [exact Ht|exact Hd|exact Hh|apply Hr|exact Hab|exact Hm]).
    assert (∀ t, t = t1 ∨ t = t2 → parent i t1 t2 t = i) as Hpar
      by (intros t Hor; unfold parent; by rewrite decide_True).
    assert (u ≠ c) as Huc.
    { intros ->. destruct (hg_a _ _ _ _ _ Hh) as (d & Hd' & _).
      pose proof (rp_mc_none _ _ _ _ _ _ _ _ _ Hr) as Hmc. rewrite edge_data_sym in Hmc by done. congruence. }
    assert (u = a ∨ u = b ∨ u = c) as Hor
      by (apply (tri_corner _ _ _ _ _ u (rp_tri _ _ _ _ _ _ _ _ _ Hr)), (tri_corner _ _ _ _ _ u Ht); auto).
    destruct Hor as [->|[->|]]; [exists t1|exists t2|done]; (split; [left; exists c|apply Hpar; auto]).
    + by apply tri_rotate, tri_rotate, (rp_t1 _ _ _ _ _ _ _ _ _ Hr).
    + by apply tri_rotate, tri_rotate, (rp_t2 _ _ _ _ _ _ _ _ _ Hr).
  - destruct (broken_forward _ _ _ _ _ Ht Hd Hh Hvm) as (h' & z' & Ht' & Hd' & Hh' & E).
    exists h'. split; [|done]. right. left. by exists x, z'.
Qed.

Lemma uses_forward u v h :
  ¬ same_edge u v a b → uses g u v h → ∃ h', uses g' u v h' ∧ parent i t1 t2 h' = h.
Proof.
  intros Hab [[w Ht]|[Hh|Hh]]; [|by apply half_forward|].
  - destruct (decide (h = i)) as [->|Hhi].
    + assert (∀ t, t = t1 ∨ t = t2 → parent i t1 t2 t = i) as Hpar
        by (intros t Hor; unfold parent; by rewrite decide_True).
      destruct (tri_sides _ _ _ _ _ _ _ _ (rp_tri _ _ _ _ _ _ _ _ _ Hr) Ht) as
        [(->&->&->)|[(->&->&->)|[(->&->&->)|[(->&->&->)|[(->&->&->)|(->&->&->)]]]]];
        [destruct Hab; by left|destruct Hab; by right|exists t2|exists t2|exists t1|exists t1];
        (split; [left; exists m|apply Hpar; auto]).
      * apply tri_swap, tri_rotate, (rp_t2 _ _ _ _ _ _ _ _ _ Hr).
      * apply tri_rotate, (rp_t2 _ _ _ _ _ _ _ _ _ Hr).
      * apply tri_rotate, (rp_t1 _ _ _ _ _ _ _ _ _ Hr).
      * apply tri_swap, tri_rotate, (rp_t1 _ _ _ _ _ _ _ _ _ Hr).
    + destruct (rp_fresh _ _ _ _ _ _ _ _ _ Hr h (proj1 Ht)) as [H1 H2]. exists h. split.
      * left. exists w. by apply (rp_old _ _ _ _ _ _ _ _ _ Hr).
      * by apply (parent_old g g' i m a b c t1 t2 Hr), Ht.
  - destruct (half_forward _ _ _ Hh) as (h' & H' & E). exists h'. split; [by apply uses_swap|done].
Qed.

(** The triangle across a side that was cut now has a broken side there. *)
Lemma across d :
  new_on_edge g g' m a b c d → isBorder d = false →
  ∃ h z, h ≠ t1 ∧ h ≠ t2 ∧ tri g' h a b z ∧ edge_data g' a b = None ∧ hangs g' a b z m.
Proof.
  intros Hn Hb. destruct (step_vertices _ _ _ _ _ _ _ _ _ Hc Hr) as (Va & Vb & _).
  pose proof (ne_edge _ _ _ _ _ _ _ Hn) as Hd. destruct (ne_free _ _ _ _ _ _ _ Hn Hb) as [Fa Fb].
  destruct (cf_inner _ Hc a b d Va Vb Hd Hb) as (h1 & h2 & Hne & H1 & H2).
  assert (∃ h, h ≠ i ∧ uses g a b h) as (h & Hhi & Hu)
    by (destruct (decide (h1 = i)) as [->|]; [exists h2|exists h1]; split; congruence).
  destruct Hu as [[z Ht]|[(x & w & _ & _ & Hh)|(x & w & _ & _ & Hh)]];
    [|pose proof (hg_hanging _ _ _ _ _ Hh); congruence..].
  destruct (broken_neighbour g g' i m a b c t1 t2 Hc Hp Hr Hs h a b z Ht Hhi) as (m' & Hh & [(Hm' & Hd0 & _)|(-> & _)]);
    [by left|congruence|].
  destruct (rp_fresh _ _ _ _ _ _ _ _ _ Hr h (proj1 Ht)) as [F1 F2].
  exists h, z. split_and!; [done|done|by apply (rp_old _ _ _ _ _ _ _ _ _ Hr)|apply Hr|done].
Qed.

(** A vertex still breaks at most one side. *)
Lemma step_once h x y z h' x' y' z' m' :
  tri g' h x y z → edge_data g' x y = None → hangs g' x y z m' →
  tri g' h' x' y' z' → edge_data g' x' y' = None → hangs g' x' y' z' m' → h = h'.
Proof.
  intros Ht Hd Hh Ht' Hd' Hh'.
  pose proof (hangs_from _ _ _ _ _ _ _ _ _ Hc Hp Hp' Hr Hs _ _ _ _ _ Ht Hd Hh) as F.
  pose proof (hangs_from _ _ _ _ _ _ _ _ _ Hc Hp Hp' Hr Hs _ _ _ _ _ Ht' Hd' Hh') as F'.
  assert (∀ k u v w, tri g' k u v w → edge_data g' u v = None → hangs g' u v w m' → u = c ∨ v = c →
    uses g' c m' k) as Huse.
  { intros k u v w Hk Hku Hkh [->| ->]; right; left; [by exists v, w|]. exists u, w.
    split_and!; [by apply tri_swap|by rewrite edge_data_sym|by apply hangs_swap]. }
  destruct F as [(Hm & Hd0 & F)|(-> & Hab & Hhi & Ht0 & d & Hn)].
  - destruct F' as [(_ & Hd0' & F')|(-> & _)]; [|done].
    destruct F as [(Hhi & Ht0 & Hh0)|(Hk & z0 & Ht0 & Hh0 & Hxc)];
      destruct F' as [(Hhi' & Ht0' & Hh0')|(Hk' & z0' & Ht0' & Hh0' & Hxc')].
    + by eapply (cf_once _ Hc).
    + destruct Hhi. eapply (cf_once _ Hc); [exact Ht0|done..].
    + destruct Hhi'. eapply (cf_once _ Hc); [exact Ht0'|done..].
    + apply (parent_inj c m'); [|by eapply Huse|by eapply Huse|].
      { unfold same_edge. intuition congruence. }
      unfold parent. by rewrite !decide_True.
  - destruct F' as [(? & _)|(_ & Hab' & Hhi' & Ht0' & _)]; [done|].
    destruct (step_vertices _ _ _ _ _ _ _ _ _ Hc Hr) as (Va & Vb & _).
    assert (∀ k u v w, tri g k u v w → same_edge u v a b → uses g a b k) as Hu.
    { intros k u v w Hk [[-> ->]|[-> ->]]; left; exists w; [done|by apply tri_swap]. }
    destruct (cf_two _ Hc a b d i h h' Va Vb (ne_edge _ _ _ _ _ _ _ Hn)) as [<-|[<-|]]; try done.
    + left. exists c. apply Hr.
    + by eapply Hu.
    + by eapply Hu.
Qed.
End Parts.

(** ** Lengths *)

Lemma less_minus_one y : is_nan y = false → nonneg y = true → less (of_Z (-1)) y = true.
Proof.
  intros Hn Hy. unfold less. destruct y as [s|[]| |[] p e]; try done.
  eapply dle_trans; [|by instantiate (1 := of_Z (-1)); vm_compute].
  apply (dsub_int_le _ _ (-1)); try done.
Qed.

Lemma dist_nonneg p q v2d : nonneg (dist p q v2d) = true.
Proof.
  assert (∀ x, nonneg (dsqrt x) = true) as H; [|destruct v2d; apply H].
  intros [s|[]| |[] m e]; try done. unfold dsqrt. cbn [SpecFloat.SFsqrt].
  destruct (SpecFloat.SFsqrt_core_binary _ _ _ _) as [[mz ez] lz].
  apply sign_nonneg, round_aux_sign.
Qed.

Lemma dist_length p q v2d :
  is_nan (dist p q v2d) = false → less (of_Z (-1)) (dist p q v2d) = true.
Proof. intros H. apply less_minus_one; [done|apply dist_nonneg]. Qed.

(** ** Every step keeps the invariant *)

Section Kept.
Context (g g' : Graph) (i m a b c t1 t2 : GNode) (v2d : bool).
Hypothesis Hc : conformal g.
Hypothesis Hp : plain g.
Hypothesis Hp' : plain g'.
Hypothesis Hr : replaced g g' i m a b c t1 t2.
Hypothesis Hs : step_case g g' m a b c.
Hypothesis Hl : ∀ u v d, is_vertex g' u → is_vertex g' v → edge_data g' u v = Some d →
  edge_data g u v = Some d ∧ is_vertex g u ∧ is_vertex g v ∨
  ∃ p q, getLength d = dist p q v2d.

Let Hw : wf g := mo_wf _ (cf_mesh _ Hc).
Let Hw' : wf g' := mo_wf _ (rp_mesh _ _ _ _ _ _ _ _ _ Hr).
Let Hr2 : replaced g g' i m b a c t2 t1 := replaced_swap _ _ _ _ _ _ _ _ _ Hr.
Let Hs2 : step_case g g' m b a c := step_case_swap _ _ _ _ _ _ Hw Hs.

(** The edges between vertices, up to their direction. *)
Lemma step_edges u v d :
  is_vertex g' u → is_vertex g' v → edge_data g' u v = Some d →
  same_edge u v m c ∨ (is_vertex g u ∧ is_vertex g v ∧ ¬ same_edge u v m c) ∨
  (same_edge u v m a ∨ same_edge u v m b) ∧ ∃ d0, new_on_edge g g' m a b c d0.
Proof.
  intros Vu Vv Hd. destruct (decide (same_edge u v m c)) as [|Hmc]; [by left|right].
  apply (rp_vertex _ _ _ _ _ _ _ _ _ Hr) in Vu. apply (rp_vertex _ _ _ _ _ _ _ _ _ Hr) in Vv.
  pose proof Hs as [(d0 & Hn)|(_ & Hh & _)].
  - assert (∀ w, is_vertex g w → is_Some (edge_data g' m w) → w = c ∨ w = a ∨ w = b) as Ho.
    { intros w Vw Hw1. destruct (ne_only _ _ _ _ _ _ _ Hn w Vw Hw1) as [|[|]]; auto. }
    destruct Vu as [Vu| ->], Vv as [Vv| ->].
    + by left.
    + rewrite edge_data_sym in Hd by done. right. split; [|eauto].
      destruct (Ho u Vu) as [->|[->| ->]]; [eauto|destruct Hmc; by right|left; by right|right; by right].
    + right. split; [|eauto].
      destruct (Ho v Vv) as [->|[->| ->]]; [eauto|destruct Hmc; by left|left; by left|right; by left].
    + by rewrite edge_irrefl in Hd.
  - left. assert (is_vertex g m) by apply Hh. destruct Vu as [Vu| ->], Vv as [Vv| ->]; auto.
Qed.

Lemma uses_same g0 u v x y h : same_edge u v x y → uses g0 u v h → uses g0 x y h.
Proof. intros [[-> ->]|[-> ->]] H; [done|by apply uses_swap]. Qed.

Lemma step_two u v d h1 h2 h3 :
  is_vertex g' u → is_vertex g' v → edge_data g' u v = Some d →
  uses g' u v h1 → uses g' u v h2 → uses g' u v h3 → h1 = h2 ∨ h1 = h3 ∨ h2 = h3.
Proof.
  intros Vu Vv Hd U1 U2 U3.
  destruct (step_edges u v d Vu Vv Hd) as [Hmc|[(Wu & Wv & Hmc)|[[Hma|Hmb] (d0 & Hn)]]].
  - apply (uses_same _ _ _ _ _ _ Hmc), (uses_mc g g' i m a b c t1 t2 Hc Hp Hp' Hr Hs) in U1, U2, U3.
    destruct U1 as [->| ->], U2 as [->| ->], U3 as [->| ->]; auto.
  - by apply (old_two g g' i m a b c t1 t2 Hc Hp Hp' Hr Hs u v d).
  - apply (uses_same _ _ _ _ _ _ Hma) in U1, U2, U3.
    by apply (half_two g g' i m a b c t1 t2 Hc Hp Hp' Hr Hs d0).
  - apply (uses_same _ _ _ _ _ _ Hmb) in U1, U2, U3.
    pose proof Hs2 as [(d1 & Hn2)|(Hd2 & _)].
    + by apply (half_two g g' i m b a c t2 t1 Hc Hp Hp' Hr2 Hs2 d1).
    + pose proof (ne_edge _ _ _ _ _ _ _ Hn). rewrite edge_data_sym in Hd2 by done. congruence.
Qed.

Lemma step_border u v d h1 h2 :
  is_vertex g' u → is_vertex g' v → edge_data g' u v = Some d → isBorder d = true →
  uses g' u v h1 → uses g' u v h2 → h1 = h2.
Proof.
  intros Vu Vv Hd Hb U1 U2.
  assert (∀ x y, same_edge u v x y → edge_data g' x y = Some d) as Hxy.
  { intros x y [[-> ->]|[-> ->]]; [done|by rewrite edge_data_sym]. }
  destruct (step_edges u v d Vu Vv Hd) as [Hmc|[(Wu & Wv & Hmc)|[[Hma|Hmb] (d0 & Hn)]]].
  - destruct (rp_mc _ _ _ _ _ _ _ _ _ Hr) as (d' & Hd' & Hb'). rewrite (Hxy _ _ Hmc) in Hd'. congruence.
  - by apply (old_border g g' i m a b c t1 t2 Hc Hp Hp' Hr Hs u v d).
  - apply (uses_same _ _ _ _ _ _ Hma) in U1, U2. destruct (ne_ma _ _ _ _ _ _ _ Hn) as (d' & Hd' & Hb').
    rewrite (Hxy _ _ Hma) in Hd'. apply (half_border g g' i m a b c t1 t2 Hc Hp Hp' Hr Hs d0); congruence.
  - apply (uses_same _ _ _ _ _ _ Hmb) in U1, U2.
    pose proof Hs2 as [(d1 & Hn2)|(Hd2 & _)].
    + destruct (ne_ma _ _ _ _ _ _ _ Hn2) as (d' & Hd' & Hb'). rewrite (Hxy _ _ Hmb) in Hd'.
      apply (half_border g g' i m b a c t2 t1 Hc Hp Hp' Hr2 Hs2 d1); congruence.
    + pose proof (ne_edge _ _ _ _ _ _ _ Hn). rewrite edge_data_sym in Hd2 by done. congruence.
Qed.

Lemma parts_distinct : t1 ≠ t2.
Proof.
  intros E. pose proof (rp_t1 _ _ _ _ _ _ _ _ _ Hr) as H1. rewrite E in H1.
  destruct (step_distinct _ _ _ _ _ _ _ _ _ Hr) as (D & _). destruct D.
  exact (tri_third _ _ _ _ _ _ H1 (rp_t2 _ _ _ _ _ _ _ _ _ Hr)).
Qed.

Lemma uses_same' g0 u v x y h : same_edge u v x y → uses g0 x y h → uses g0 u v h.
Proof. intros [[-> ->]|[-> ->]] H; [done|by apply uses_swap]. Qed.

Lemma uses_t1 : uses g' m c t1 ∧ uses g' m a t1.
Proof.
  pose proof (rp_t1 _ _ _ _ _ _ _ _ _ Hr) as H. split; left; [by exists a|].
  exists c. by apply tri_swap, tri_rotate, tri_rotate.
Qed.
Lemma uses_t2 : uses g' m c t2 ∧ uses g' m b t2.
Proof.
  pose proof (rp_t2 _ _ _ _ _ _ _ _ _ Hr) as H. split; left; [by exists b|].
  exists c. by apply tri_swap, tri_rotate, tri_rotate.
Qed.

Lemma kept_not_ab u v d : edge_data g' u v = Some d → ¬ same_edge u v a b.
Proof.
  pose proof (rp_ab _ _ _ _ _ _ _ _ _ Hr) as Hn.
  intros Hd [[-> ->]|[-> ->]]; [congruence|]. rewrite edge_data_sym in Hd by done. congruence.
Qed.

Lemma step_used u v d :
  is_vertex g' u → is_vertex g' v → edge_data g' u v = Some d → ∃ h, uses g' u v h.
Proof.
  intros Vu Vv Hd. destruct uses_t1 as [U1 U2], uses_t2 as [U3 U4].
  destruct (step_edges u v d Vu Vv Hd) as [Hmc|[(Wu & Wv & Hmc)|[[Hma|Hmb] _]]].
  - exists t1. by eapply uses_same'.
  - pose proof (edge_old g g' i m a b c t1 t2 Hr u v d Wu Wv Hmc Hd) as Hd0.
    destruct (cf_used _ Hc u v d Wu Wv Hd0) as [h Hh].
    destruct (uses_forward g g' i m a b c t1 t2 Hc Hp Hr Hs u v h) as (h' & Hh' & _); [|done|eauto].
    by eapply kept_not_ab.
  - exists t1. by eapply uses_same'.
  - exists t2. by eapply uses_same'.
Qed.

Lemma across_uses d0 :
  new_on_edge g g' m a b c d0 → isBorder d0 = false →
  ∃ h, h ≠ t1 ∧ h ≠ t2 ∧ uses g' m a h ∧ uses g' m b h.
Proof.
  intros Hn Hb. destruct (across g g' i m a b c t1 t2 Hc Hp Hr Hs d0 Hn Hb)
    as (h & z & F1 & F2 & Ht & Hd & Hh).
  exists h. split_and!; [done|done|right; right..].
  - by exists b, z.
  - exists a, z. split_and!; [by apply tri_swap|by rewrite edge_data_sym|by apply hangs_swap].
Qed.

Lemma step_inner u v d :
  is_vertex g' u → is_vertex g' v → edge_data g' u v = Some d → isBorder d = false →
  ∃ h1 h2, h1 ≠ h2 ∧ uses g' u v h1 ∧ uses g' u v h2.
Proof.
  intros Vu Vv Hd Hb. destruct uses_t1 as [U1 U2], uses_t2 as [U3 U4].
  assert (∀ x y, same_edge u v x y → edge_data g' x y = Some d) as Hxy.
  { intros x y [[-> ->]|[-> ->]]; [done|by rewrite edge_data_sym]. }
  destruct (step_edges u v d Vu Vv Hd) as [Hmc|[(Wu & Wv & Hmc)|[[Hma|Hmb] (d0 & Hn)]]].
  - exists t1, t2. split_and!; [apply parts_distinct|by eapply uses_same'..].
  - pose proof (edge_old g g' i m a b c t1 t2 Hr u v d Wu Wv Hmc Hd) as Hd0.
    pose proof (kept_not_ab u v d Hd) as Hab.
    destruct (cf_inner _ Hc u v d Wu Wv Hd0 Hb) as (h1 & h2 & Hne & H1 & H2).
    destruct (uses_forward g g' i m a b c t1 t2 Hc Hp Hr Hs u v h1 Hab H1) as (h1' & H1' & E1).
    destruct (uses_forward g g' i m a b c t1 t2 Hc Hp Hr Hs u v h2 Hab H2) as (h2' & H2' & E2).
    exists h1', h2'. split_and!; [congruence|done|done].
  - destruct (ne_ma _ _ _ _ _ _ _ Hn) as (d' & Hd' & Hb'). rewrite (Hxy _ _ Hma) in Hd'.
    destruct (across_uses d0 Hn) as (h & F1 & _ & H & _); [congruence|].
    exists h, t1. split_and!; [done|by eapply uses_same'..].
  - destruct (ne_mb _ _ _ _ _ _ _ Hn) as (d' & Hd' & Hb'). rewrite (Hxy _ _ Hmb) in Hd'.
    destruct (across_uses d0 Hn) as (h & _ & F2 & _ & H); [congruence|].
    exists h, t2. split_and!; [done|by eapply uses_same'..].
Qed.

Lemma step_hanging v :
  is_vertex g' v → hanging g' v = true →
  ∃ h x y z, tri g' h x y z ∧ edge_data g' x y = None ∧ hangs g' x y z v.
Proof.
  intros Vv Hv. destruct (decide (v = m)) as [->|Hvm].
  - pose proof Hs as [(d & Hn)|(_ & _ & Hh)]; [|congruence].
    rewrite (ne_hanging _ _ _ _ _ _ _ Hn) in Hv. apply negb_true_iff in Hv.
    destruct (across g g' i m a b c t1 t2 Hc Hp Hr Hs d Hn Hv) as (h & z & _ & _ & H). eauto.
  - apply (rp_vertex _ _ _ _ _ _ _ _ _ Hr) in Vv as [Vv|]; [|done].
    rewrite (rp_hanging _ _ _ _ _ _ _ _ _ Hr) in Hv by done.
    destruct (cf_hanging _ Hc v Vv Hv) as (h & x & y & z & Ht & Hd & Hh).
    destruct (broken_forward g g' i m a b c t1 t2 Hc Hp Hr Hs h x y z v Ht Hd Hh Hvm)
      as (h' & z' & ? & ? & ? & _). eauto 10.
Qed.

Lemma step_conformal : conformal g'.
Proof.
  split.
  - apply Hr.
  - intros h x y z Ht Hd.
    destruct (broken_cases g g' i m a b c t1 t2 Hc Hp Hr Hs h x y z Ht Hd) as (m' & Hm' & _). eauto.
  - intros *. by apply (step_once g g' i m a b c t1 t2 Hc Hp Hp' Hr Hs).
  - apply step_two.
  - apply step_border.
  - intros u v d Vu Vv Hd. destruct (Hl u v d Vu Vv Hd) as [(Hd0 & Wu & Wv)|(p & q & E)].
    + by apply (cf_length _ Hc u v d).
    + pose proof (pl_length _ Hp' u v d Vu Vv Hd) as Hn. rewrite E in *. by apply dist_length.
  - apply step_used.
  - apply step_inner.
  - apply step_hanging.
Qed.
End Kept.
