(* ===== verification/ConformityCheck.v ===== *)
(** * Deciding the conditions of [Conformity] on a given graph *)
From stdpp Require Import sets.
From S2P Require Import Prelude Double NumUtils Model MorphGraph GraphFacts GraphSpec.
From S2P Require Import Connectivity ConnFacts Production Productions Mesh Break.
From S2P Require Import ProductionFacts MeshCheck Generator Euler Refine Conformity.

Definition is_none {A} (o : option A) : bool := match o with None => true | Some _ => false end.

Lemma is_none_spec {A} (o : option A) : is_none o = true ↔ o = None.
Proof. by destruct o. Qed.

Lemma short_list {A} (l : list A) x y : length l ≤ 1 → x ∈ l → y ∈ l → x = y.
Proof.
  destruct l as [|z [|]]; simpl; [by intros _ ?%elem_of_nil|by intros _ ->%list_elem_of_singleton ->%list_elem_of_singleton|lia].
Qed.

Definition is_interiorb (g : Graph) (h : GNode) : bool := active g h && isHyperEdge (getData g h).

Lemma is_interiorb_spec g h : is_interiorb g h = true ↔ is_interior g h.
Proof. unfold is_interiorb, is_interior. apply andb_true_iff. Qed.

Definition betweenb (g : Graph) (a b n : GNode) : bool :=
  negb (is_none (adj g a n)) && negb (is_none (adj g b n)) &&
  isXYequal (getCoords (getData g n)) (midpoint g a b).

Lemma betweenb_complete g a b n :
  wf g → is_between g a b n → betweenb g a b n = true ∧ n ∈ node_ids g.
Proof.
  intros Hw ([p Hp] & [q Hq] & Hm). unfold betweenb. rewrite Hp, Hq, Hm. split; [done|].
  apply adj_Some in Hp as [Ha _]; [|done]. by apply elem_of_node_ids, active_lt.
Qed.

(** A triangle as seen from each of its sides, in both directions. *)
Definition orders (l : list GNode) : list (GNode * GNode * GNode) :=
  match l with
  | [x; y; z] => [(x, y, z); (y, x, z); (y, z, x); (z, y, x); (z, x, y); (x, z, y)]
  | _ => []
  end.

Lemma tri_orders g h a b c : mesh_ok g → tri g h a b c → (a, b, c) ∈ orders (getNeighbours g h).
Proof.
  intros Hm Ht. destruct (mo_triangle _ Hm h (proj1 Ht)) as (x & y & z & Hn & _).
  pose proof (tri_distinct _ _ _ _ _ Ht) as (H1 & H2 & H3).
  assert (∀ v, v = a ∨ v = b ∨ v = c → v = x ∨ v = y ∨ v = z) as Hv.
  { intros v Hv%(tri_corner _ _ _ _ _ v Ht). by rewrite Hn, !elem_of_cons, list.elem_of_nil in Hv; tauto. }
  rewrite Hn. cbn [orders]. rewrite !elem_of_cons.
  destruct (Hv a) as [->|[->| ->]]; [tauto|..]; destruct (Hv b) as [->|[->| ->]]; try tauto; try congruence;
    destruct (Hv c) as [->|[->| ->]]; try tauto; congruence.
Qed.

Definition for_sides (g : Graph) (f : GNode → GNode → GNode → bool) : bool :=
  forallb (λ h, negb (is_interiorb g h) || forallb (λ '(a, b, c), f a b c) (orders (getNeighbours g h)))
    (node_ids g).

Lemma for_sides_spec g f h a b c :
  mesh_ok g → for_sides g f = true → tri g h a b c → f a b c = true.
Proof.
  intros Hm Hf Ht. pose proof (proj1 Ht) as Hi.
  apply (forallb_in _ _ h) in Hf; [|by apply elem_of_node_ids, active_lt, Hi].
  cbv beta in Hf. rewrite (proj2 (is_interiorb_spec g h) Hi) in Hf.
  by apply (forallb_in _ _ (a, b, c)) in Hf; [|by apply tri_orders].
Qed.

Definition for_vertices (g : Graph) (f : GNode → GNode → bool) : bool :=
  let vs := filter (λ v, is_vertexb g v = true) (node_ids g) in
  forallb (λ a, forallb (f a) vs) vs.

Lemma for_vertices_spec g f a b :
  for_vertices g f = true → is_vertex g a → is_vertex g b → f a b = true.
Proof.
  assert (∀ v, is_vertex g v → v ∈ filter (λ v, is_vertexb g v = true) (node_ids g)) as Hv.
  { intros v [Ha Hh]. apply list_elem_of_filter. unfold is_vertexb. rewrite Ha, Hh.
    split; [done|by apply elem_of_node_ids, active_lt]. }
  intros Hf Ha Hb. apply (forallb_in _ _ a) in Hf; [|by apply Hv].
  by apply (forallb_in _ _ b) in Hf; [|by apply Hv].
Qed.

Definition plainb (g : Graph) : bool :=
  for_vertices g (λ a b,
    match edge_data g a b with
    | None => Nat.leb (length (filter (λ n, betweenb g a b n = true) (node_ids g))) 1
    | Some d => isXYequal (midpoint g a b) (midpoint g a b) && negb (is_nan (getLength d))
    end) &&
  for_sides g (λ a b c,
    negb (is_none (edge_data g a b)) ||
    forallb (λ m, negb (betweenb g a b m) || is_none (edge_data g m c)) (node_ids g)).

Lemma plainb_sound g : mesh_ok g → plainb g = true → plain g.
Proof.
  intros Hm [Hv Ht]%andb_prop. pose proof (mo_wf _ Hm) as Hw. split.
  - intros a b x y Ha Hb Hd Hx Hy. pose proof (for_vertices_spec _ _ _ _ Hv Ha Hb) as H.
    cbv beta in H. rewrite Hd in H. apply Nat.leb_le in H.
    eapply short_list; [exact H|..]; apply list_elem_of_filter; by apply betweenb_complete.
  - intros h a b c m Htr Hd Hb. pose proof (for_sides_spec _ _ _ _ _ _ Hm Ht Htr) as H.
    cbv beta in H. rewrite Hd in H. cbn [is_none negb orb] in H.
    destruct (betweenb_complete _ _ _ _ Hw Hb) as [Hb' Hin]. eapply forallb_in in H; [|exact Hin].
    cbv beta in H. rewrite Hb' in H. by apply is_none_spec in H.
  - intros a b Ha Hb [d Hd]. pose proof (for_vertices_spec _ _ _ _ Hv Ha Hb) as H.
    cbv beta in H. rewrite Hd in H. by apply andb_prop in H as [H _].
  - intros a b d Ha Hb Hd. pose proof (for_vertices_spec _ _ _ _ Hv Ha Hb) as H.
    cbv beta in H. rewrite Hd in H. by apply andb_prop in H as [_ H%negb_true_iff].
Qed.

Definition has_heightsb (g : Graph) (zg : double → double → result double) : bool :=
  for_sides g (λ a b _,
    match zg (getX (midpoint g a b)) (getY (midpoint g a b)) with Ok _ => true | Err _ => false end).

Lemma has_heightsb_sound g zg : mesh_ok g → has_heightsb g zg = true → has_heights g zg.
Proof.
  intros Hm Hb h a b c Ht. pose proof (for_sides_spec _ _ _ _ _ _ Hm Hb Ht) as H. cbv beta in H.
  destruct (zg _ _) as [z|]; [by exists z|done].
Qed.
