(* ===== verification/Invariant.v ===== *)
(** * What the operator keeps

    The two ways in which productions cut a triangle are the steps of [Conformity]:
    every visit of the main loop keeps a mesh conformal, and so does every sequence of
    visits, in whatever order the nodes come. *)
From stdpp Require Import gmap sets.
From S2P Require Import Prelude Double NumUtils Model MorphGraph GraphFacts GraphSpec.
From S2P Require Import Connectivity ConnFacts Production Productions Mesh Break.
From S2P Require Import ProductionFacts MeshCheck Generator Euler TerrainGenerator Refine.
From S2P Require Import Grammar Conformity ConformityCheck.

(** ** Cutting is replacing *)

Lemma tri_old g g' i t1 t2 h x y z :
  (is_interior g' h ↔ h = t1 ∨ h = t2 ∨ is_interior g h ∧ h ≠ i) →
  (is_interior g h → h ≠ i → getNeighbours g' h = getNeighbours g h) →
  h ≠ t1 → h ≠ t2 → tri g' h x y z ↔ h ≠ i ∧ tri g h x y z.
Proof.
  intros Hi Hn H1 H2. unfold tri. split.
  - intros (Hh & Hnd & Hv). apply Hi in Hh as [?|[?|[Hh Hhi]]]; [done..|].
    rewrite Hn in Hv by done. auto.
  - intros (Hhi & Hh & Hnd & Hv). rewrite Hn by done. split_and!; [apply Hi; auto|done..].
Qed.

Lemma nodup3 (x y z : GNode) : x ≠ y → x ≠ z → y ≠ z → NoDup [x; y; z].
Proof.
  intros. rewrite !list.NoDup_cons, !elem_of_cons, !list.elem_of_nil.
  split_and!; [tauto..|apply list.NoDup_nil; done].
Qed.

Lemma tri_neighbours g h x y z : is_interior g h → NoDup [x; y; z] →
  getNeighbours g h = [x; y; z] → tri g h x y z.
Proof. intros Hi Hnd Hn. split_and!; [done..|]. by rewrite Hn. Qed.

Lemma edge_data_new g z : wf g → edge_data g z (length (nodes g)) = None.
Proof.
  intros Hw. destruct (edge_data g z (length (nodes g))) as [d|] eqn:E; [exfalso|done].
  destruct (proj1 (edge_data_adj g z (length (nodes g)) Hw)) as [q Hq]; [eauto|].
  apply adj_Some in Hq as [Hq%active_lt _]; [lia|done].
Qed.

Section Bisected.
Context (v2d : bool) (d : EdgeData) (p : Coordinates) (i a b c : GNode) (g g' : Graph).
Hypothesis Hm : mesh_ok g.
Hypothesis Ht : tri g i a b c.
Hypothesis Hd : edge_data g a b = Some d.
Hypothesis Hbi : bisected v2d d p i a b c g g'.
Local Abbreviation fresh_id := (length (nodes g)).

Lemma bisected_ids v : is_vertex g v → v < fresh_id ∧ v ≠ i.
Proof. intros Hv. split; [apply active_lt, Hv|]. eapply vertex_not_interior; [done|apply Ht]. Qed.

(** The edges of the new vertex, and the others. *)
Lemma bisected_edges x y :
  is_vertex g' x → is_vertex g' y →
  edge_data g' x y =
    if decide (same_edge x y a b) then None
    else if decide (same_edge x y fresh_id a) then
      Some (joined (isBorder d) v2d p (getCoords (getData g a)))
    else if decide (same_edge x y fresh_id b) then
      Some (joined (isBorder d) v2d p (getCoords (getData g b)))
    else if decide (same_edge x y fresh_id c) then
      Some (joined false v2d p (getCoords (getData g c)))
    else edge_data g x y.
Proof.
  assert (∀ v, is_vertex g' v → v ≤ fresh_id ∧ v ≠ i) as Hv.
  { intros v [->|[? ?]%bisected_ids]%(bisected_vertex v2d d p i a b c g g' (proj1 Ht) Hbi); [|lia].
    pose proof (active_lt _ _ (proj1 (proj1 Ht))). lia. }
  intros [? ?]%Hv [? ?]%Hv. by apply (bi_edges _ _ _ _ _ _ _ _ _ Hbi).
Qed.

Lemma bisected_replaced :
  replaced g g' i fresh_id a b c (1 + fresh_id) (2 + fresh_id).
Proof.
  pose proof (bisected_vertex v2d d p i a b c g g' (proj1 Ht) Hbi) as HV.
  pose proof (bisected_interior v2d d p i a b c g g' (proj1 Ht) Hbi) as HI.
  destruct (tri_vertices _ _ _ _ _ Hm Ht) as (Va & Vb & Vc).
  destruct (tri_distinct _ _ _ _ _ Ht) as (Dab & Dbc & Dac).
  destruct (bisected_ids a Va), (bisected_ids b Vb), (bisected_ids c Vc).
  assert (∀ v, is_vertex g v → is_vertex g' v) as Hk by (intros v Hv; apply HV; auto).
  assert (is_vertex g' fresh_id) as Vm by (apply HV; auto).
  split.
  - apply Hbi.
  - exact Ht.
  - apply tri_neighbours; [apply HI; auto|apply nodup3; lia|apply Hbi].
  - apply tri_neighbours; [apply HI; auto|apply nodup3; lia|apply Hbi].
  - intros h Hh. pose proof (active_lt _ _ (proj1 Hh)). lia.
  - intros h x y z. apply tri_old; [apply HI|apply Hbi].
  - intros v. rewrite HV. tauto.
  - intros v Hv. by rewrite (bi_data _ _ _ _ _ _ _ _ _ Hbi) by (by apply bisected_ids).
  - intros v Hv _. unfold hanging. by rewrite (bi_data _ _ _ _ _ _ _ _ _ Hbi) by (by apply bisected_ids).
  - intros x y Hx Hy Hab Hmc. destruct (bisected_ids x Hx), (bisected_ids y Hy).
    rewrite bisected_edges by auto. rewrite decide_False by done.
    rewrite !decide_False; [done|unfold same_edge; lia..].
  - rewrite bisected_edges by auto. by rewrite decide_True by (by left).
  - rewrite edge_data_sym; [apply edge_data_new|]; apply Hm.
  - rewrite bisected_edges by auto. rewrite !decide_False by (unfold same_edge; lia).
    rewrite decide_True by (by left). eexists. split; done.
  - rewrite bisected_edges by auto. rewrite decide_False by (unfold same_edge; lia).
    rewrite decide_True by (by left). eauto.
  - rewrite bisected_edges by auto. rewrite !decide_False by (unfold same_edge; lia).
    rewrite decide_True by (by left). eauto.
Qed.

Lemma bisected_new_on_edge z :
  p = mkCoordinates (getX (midpoint g a b)) (getY (midpoint g a b)) z →
  isXYequal (midpoint g a b) (midpoint g a b) = true →
  (isBorder d = false → hanging g a = false ∧ hanging g b = false) →
  new_on_edge g g' fresh_id a b c d.
Proof.
  intros Hp Hmid Hfree. pose proof bisected_replaced as Hr.
  pose proof (bisected_vertex v2d d p i a b c g g' (proj1 Ht) Hbi) as HV.
  destruct (tri_vertices _ _ _ _ _ Hm Ht) as (Va & Vb & Vc).
  destruct (tri_distinct _ _ _ _ _ Ht) as (Dab & Dbc & Dac).
  destruct (bisected_ids a Va), (bisected_ids b Vb), (bisected_ids c Vc).
  assert (∀ v, is_vertex g v → is_vertex g' v) as Hk by (intros v Hv; apply HV; auto).
  assert (is_vertex g' fresh_id) as Vm by (apply HV; auto).
  split.
  - intros [Hn%active_lt _]. lia.
  - done.
  - rewrite bisected_edges by auto. rewrite decide_False by (unfold same_edge; lia).
    rewrite decide_True by (by left). eexists. split; done.
  - rewrite bisected_edges by auto. rewrite !decide_False by (unfold same_edge; lia).
    rewrite decide_True by (by left). eexists. split; done.
  - unfold hanging. by rewrite (bi_vertex _ _ _ _ _ _ _ _ _ Hbi).
  - rewrite (bi_vertex _ _ _ _ _ _ _ _ _ Hbi), Hp.
    unfold midpoint in *. rewrite !(rp_coords _ _ _ _ _ _ _ _ _ Hr) by done. exact Hmid.
  - done.
  - intros v Hv Hs. destruct (bisected_ids v Hv). rewrite bisected_edges in Hs by auto.
    rewrite decide_False in Hs by (unfold same_edge; lia).
    do 3 (case_decide as E; [destruct E as [[_ ->]|[? ?]]; [by auto|lia]|clear E]).
    rewrite edge_data_sym, edge_data_new in Hs by apply Hm. by destruct Hs.
Qed.

Lemma bisected_lengths u v e :
  is_vertex g' u → is_vertex g' v → edge_data g' u v = Some e →
  edge_data g u v = Some e ∧ is_vertex g u ∧ is_vertex g v ∨ ∃ q r, getLength e = dist q r v2d.
Proof.
  intros Hu Hv He. pose proof (mo_wf _ Hm) as Hw. rewrite bisected_edges in He by done.
  case_decide; [done|]. do 3 (case_decide; [injection He as <-; right; eexists _, _; reflexivity|]).
  left. pose proof (bisected_vertex v2d d p i a b c g g' (proj1 Ht) Hbi) as HV.
  split; [done|]. apply HV in Hu as [->|Hu]; [by rewrite edge_data_sym, edge_data_new in He|].
  apply HV in Hv as [->|Hv]; [by rewrite edge_data_new in He|]. done.
Qed.
End Bisected.

Section Mended.
Context (v2d : bool) (i m a b c : GNode) (g g' : Graph).
Hypothesis Hm : mesh_ok g.
Hypothesis Ht : tri g i a b c.
Hypothesis Hh : hangs g a b c m.
Hypothesis Hd : edge_data g a b = None.
Hypothesis Hmc : edge_data g m c = None.
Hypothesis Hme : mended v2d i m a b c g g'.
Local Abbreviation fresh_id := (length (nodes g)).

Let Vm : is_vertex g m := hg_vertex _ _ _ _ _ Hh.

Lemma mended_ids v : is_vertex g v → v < fresh_id ∧ v ≠ i.
Proof. intros Hv. split; [apply active_lt, Hv|]. eapply vertex_not_interior; [done|apply Ht]. Qed.

Lemma mended_data v : is_vertex g v → v ≠ m → getData g' v = getData g v.
Proof. intros Hv Hvm. apply (me_data _ _ _ _ _ _ _ _ Hme); [by apply mended_ids|done]. Qed.

Lemma mended_edges x y :
  is_vertex g x → is_vertex g y →
  edge_data g' x y =
    if decide (same_edge x y m c) then Some (split_edge g v2d m c) else edge_data g x y.
Proof. intros [? ?]%mended_ids [? ?]%mended_ids. by apply (me_edges _ _ _ _ _ _ _ _ Hme). Qed.

Lemma mended_replaced : replaced g g' i m a b c fresh_id (1 + fresh_id).
Proof.
  pose proof (mended_vertex v2d i m a b c g g' (proj1 Ht) (hg_not_c _ _ _ _ _ Hh) Hme) as HV.
  pose proof (mended_interior v2d i m a b c g g' (proj1 Ht) (hg_not_c _ _ _ _ _ Hh) Hme) as HI.
  pose proof (mo_wf _ Hm) as Hw.
  destruct (tri_vertices _ _ _ _ _ Hm Ht) as (Va & Vb & Vc).
  destruct (tri_distinct _ _ _ _ _ Ht) as (Dab & Dbc & Dac).
  destruct (hangs_distinct _ _ _ _ _ Hw Hh) as (Dma & Dmb & Dmc).
  destruct (hg_a _ _ _ _ _ Hh) as (da & Hda & _). destruct (hg_b _ _ _ _ _ Hh) as (db & Hdb & _).
  split.
  - apply Hme.
  - exact Ht.
  - apply tri_neighbours; [apply HI; auto|apply nodup3; congruence|apply Hme].
  - apply tri_neighbours; [apply HI; auto|apply nodup3; congruence|apply Hme].
  - intros h Hi. pose proof (active_lt _ _ (proj1 Hi)). lia.
  - intros h x y z. apply tri_old; [apply HI|apply Hme].
  - intros v. rewrite HV. split; [auto|]. intros [?| ->]; done.
  - intros v Hv. destruct (decide (v = m)) as [->|]; [by rewrite (me_vertex _ _ _ _ _ _ _ _ Hme)|].
    by rewrite mended_data.
  - intros v Hv Hvm. unfold hanging. by rewrite mended_data.
  - intros x y Hx Hy _ Hxy. rewrite mended_edges by done. by rewrite decide_False.
  - rewrite mended_edges by done. rewrite decide_False; [done|]. unfold same_edge. intuition congruence.
  - done.
  - rewrite mended_edges by done. rewrite decide_True by (by left). eexists. split; done.
  - rewrite mended_edges by done. case_decide; [eauto|]. rewrite edge_data_sym by done. eauto.
  - rewrite mended_edges by done. case_decide; [eauto|]. rewrite edge_data_sym by done. eauto.
Qed.

Lemma mended_on_broken : on_broken g g' m a b c.
Proof. split_and!; [done..|]. unfold hanging. by rewrite (me_vertex _ _ _ _ _ _ _ _ Hme). Qed.

Lemma mended_lengths u v e :
  is_vertex g' u → is_vertex g' v → edge_data g' u v = Some e →
  edge_data g u v = Some e ∧ is_vertex g u ∧ is_vertex g v ∨ ∃ q r, getLength e = dist q r v2d.
Proof.
  pose proof (mended_vertex v2d i m a b c g g' (proj1 Ht) (hg_not_c _ _ _ _ _ Hh) Hme) as HV.
  intros Hu%HV Hv%HV He. rewrite mended_edges in He by done.
  case_decide; [injection He as <-; right; eexists _, _; reflexivity|by left].
Qed.
End Mended.

(** ** The invariant over a visit *)

Section Visit.
Context (g : Graph) (ctx : list GNode) (ps : ProductionState).
Hypothesis Hc : conformal g.
Hypothesis Hp : plain g.
Hypothesis Ht : triangle g ps.

(** With two broken sides, the ends of the third are ends of broken sides. *)
Lemma two_broken_free e a b c :
  e < 3 → side g ps e a b c → length (brokenEdges ps) = 2 → e ∉ brokenEdges ps →
  hanging g a = false ∧ hanging g b = false.
Proof.
  intros He Hs Hl Hn. pose proof (side_tri _ _ _ _ _ _ Hs) as Htr. pose proof (cf_mesh _ Hc) as Hm.
  assert ((e + 1) mod 3 ∈ brokenEdges ps ∧ (e + 2) mod 3 ∈ brokenEdges ps) as [H1 H2].
  { revert Hl Hn. rewrite (tr_broken _ _ Ht). destruct e as [|[|[|]]]; [..|lia];
      cbn [filter list_filter]; repeat case_decide; cbn; set_unfold; try done; intuition lia. }
  assert (∀ k, (e + k) mod 3 < 3) as Hk by (intros; apply Nat.mod_upper_bound; lia).
  destruct (tr_side _ _ Ht _ (Hk 1)) as (x & y & z & Hs1).
  destruct (tr_side _ _ Ht _ (Hk 2)) as (x' & y' & z' & Hs2).
  rewrite (elem_of_brokenEdges g ps Hm Ht _ x y z (Hk 1) Hs1) in H1.
  rewrite (elem_of_brokenEdges g ps Hm Ht _ x' y' z' (Hk 2) Hs2) in H2.
  destruct (cf_side _ Hc _ _ _ _ (side_tri _ _ _ _ _ _ Hs1) H1) as [m1 Hh1].
  destruct (cf_side _ Hc _ _ _ _ (side_tri _ _ _ _ _ _ Hs2) H2) as [m2 Hh2].
  assert (x = b) as -> by (pose proof (sd_va _ _ _ _ _ _ Hs1); pose proof (sd_vb _ _ _ _ _ _ Hs); congruence).
  assert (y' = a) as ->.
  { pose proof (sd_vb _ _ _ _ _ _ Hs2) as E. pose proof (sd_va _ _ _ _ _ _ Hs) as E'.
    destruct e as [|[|[|]]]; [..|lia]; cbn in E, E'; congruence. }
  split; [apply Hh2|apply Hh1].
Qed.

Lemma may_cut_free e a b c d :
  e < 3 → side g ps e a b c → edge_data g a b = Some d → may_cut ps e → isBorder d = false →
  hanging g a = false ∧ hanging g b = false.
Proof.
  intros He Hs Hd [Hor|[Hl Hn]] Hb; [|by eapply two_broken_free].
  unfold border_at, free_at in Hor.
  rewrite (sd_ed _ _ _ _ _ _ Hs), Hd, Hb, (sd_da _ _ _ _ _ _ Hs), (sd_db _ _ _ _ _ _ Hs) in Hor.
  apply andb_true_iff in Hor as [Ha Hb']. unfold hanging. by rewrite !negb_true_iff in *.
Qed.

(** A production replaces a triangle by two. *)
Lemma refined_replaced w : refined g ctx ps w →
  ∃ i m a b c t1 t2 v2d, replaced g (w_graph w) i m a b c t1 t2 ∧ step_case g (w_graph w) m a b c ∧
    ∀ u v d, is_vertex (w_graph w) u → is_vertex (w_graph w) v → edge_data (w_graph w) u v = Some d →
      edge_data g u v = Some d ∧ is_vertex g u ∧ is_vertex g v ∨ ∃ p q, getLength d = dist p q v2d.
Proof.
  pose proof (cf_mesh _ Hc) as Hm.
  intros (e & He & [[(a & b & c & d & z & g' & Hs & Hd & -> & _ & Hb) Hmay]|
                    (a & b & c & m & g' & Hs & Hd & Hf & -> & Hme)]); cbn [w_graph] in *;
    pose proof (side_tri _ _ _ _ _ _ Hs) as Htr;
    destruct (tri_vertices _ _ _ _ _ Hm Htr) as (Va & Vb & _).
  - do 8 eexists. split_and!; [by eapply bisected_replaced| |by eapply bisected_lengths].
    left. exists d. eapply bisected_new_on_edge; [done..| |by eapply may_cut_free].
    by apply (pl_middle _ Hp); [..|rewrite Hd].
  - destruct (broken_found _ Hc Hp _ _ _ _ Htr Hd) as (m' & Hf' & Hh).
    rewrite Hf in Hf'. injection Hf' as <-.
    pose proof (hangs_uncut _ Hc Hp _ _ _ _ _ Htr Hd Hh) as Hmc.
    do 8 eexists. split_and!; [by eapply mended_replaced| |by eapply mended_lengths].
    right. by eapply mended_on_broken.
Qed.

Lemma refined_conformal w : refined g ctx ps w → plain (w_graph w) → conformal (w_graph w).
Proof.
  intros (i & m & a & b & c & t1 & t2 & v2d & Hr & Hs & Hl)%refined_replaced Hp'.
  by eapply step_conformal.
Qed.
End Visit.

(** ** Sequences of visits *)

(** The graph after visits to the nodes of a list, in this order. *)
Fixpoint run_visits (v2d : bool) (zg : double → double → result double) (ns : list GNode)
    (g : Graph) : result Graph :=
  match ns with
  | [] => mret g
  | n :: ns' =>
      x ← refine_node v2d zg n (mkWorld g []);
      run_visits v2d zg ns' (w_graph x.2)
  end.

(** The graphs on the way are plain, and the terrain has heights for them. *)
Fixpoint plain_along (v2d : bool) (zg : double → double → result double) (ns : list GNode)
    (g : Graph) : Prop :=
  plain g ∧ has_heights g zg ∧
  match ns with
  | [] => True
  | n :: ns' =>
      match refine_node v2d zg n (mkWorld g []) with
      | Ok (_, w) => plain_along v2d zg ns' (w_graph w)
      | Err _ => True
      end
  end.

Lemma plain_along_plain v2d zg ns g : plain_along v2d zg ns g → plain g.
Proof. by destruct ns as [|n ns]; intros [? _]. Qed.

Lemma visit_conformal v2d zg g n ctx :
  conformal g → plain g → has_heights g zg →
  ∃ b w, refine_node v2d zg n (mkWorld g ctx) = Ok (b, w) ∧
    (plain (w_graph w) → conformal (w_graph w)) ∧ euler (w_graph w) = euler g.
Proof.
  intros Hc Hp Hz. pose proof (cf_mesh _ Hc) as Hm.
  destruct (refine_node_run v2d zg g n ctx Hm) as [Hn|(ps & w & Hw & Hi & Hps & _ & Href & _ & He)].
  - by apply conformal_ready.
  - by exists false, (mkWorld g ctx).
  - exists true, w. split_and!; [done| |done]. eapply refined_conformal; [done..| |done].
    destruct (mkProductionState_run g n v2d zg Hm Hi) as (ps' & Hps' & Ht & _).
    rewrite Hps in Hps'. by injection Hps' as <-.
Qed.

(** ** The mesh to start from *)

Section Initial.
Context (v2d : bool) (g : Graph).
Hypothesis Hi : initial_mesh v2d g.
Hypothesis Hp : plain g.

Let Hm : mesh_ok g := proj1 Hi.
Let Hw : wf g := mo_wf _ Hm.

Lemma initial_vertex v : is_vertex g v ↔ v = 0 ∨ v = 1 ∨ v = 2 ∨ v = 3.
Proof. pose proof Hi as (_ & HV & _). rewrite <- elem_of_V, HV. set_solver. Qed.

Lemma initial_interior h : is_interior g h ↔ h = 4 ∨ h = 5.
Proof. pose proof Hi as (_ & _ & HF & _). rewrite <- elem_of_F, HF. set_solver. Qed.

Definition inner_edge (x y : nat) : Prop := same_edge x y 3 0.
Definition outer_edge (x y : nat) : Prop :=
  same_edge x y 0 1 ∨ same_edge x y 1 3 ∨ same_edge x y 2 3 ∨ same_edge x y 0 2.

Lemma initial_edge_size :
  E_of g = {[(0, 1); (1, 3); (2, 3); (0, 2); (0, 3)]}.
Proof.
  pose proof Hi as (_ & _ & _ & HE & _ & _ & (d1 & E1 & _) & (d2 & E2 & _) & (d3 & E3 & _) &
    (d4 & E4 & _) & (d5 & E5 & _) & _).
  symmetry. apply leibniz_equiv, set_subseteq_size_equiv; [|by rewrite HE].
  rewrite edge_data_sym in E5 by done.
  intros xy Hxy. apply elem_of_E. rewrite !elem_of_union, !elem_of_singleton in Hxy.
  unfold is_side. destruct_or! Hxy; subst xy; cbn [fst snd]; rewrite !initial_vertex;
    (split_and!; [lia|tauto|tauto|congruence]).
Qed.

Lemma initial_sides x y :
  is_vertex g x → is_vertex g y → is_Some (edge_data g x y) → inner_edge x y ∨ outer_edge x y.
Proof.
  intros Hx Hy [d Hd]. assert (x ≠ y) as Hne by (intros ->; rewrite edge_irrefl in Hd; done).
  assert (ord x y ∈ E_of g) as HE.
  { apply elem_of_E, is_side_ord; [done|done|]. split_and!; congruence. }
  rewrite initial_edge_size, !elem_of_union, !elem_of_singleton in HE.
  unfold inner_edge, outer_edge, same_edge. unfold ord in HE. case_decide;
    destruct_or! HE; injection HE as -> ->; tauto.
Qed.

Lemma initial_tri h a b c :
  tri g h a b c → (h = 4 ∧ [a; b; c] ≡ₚ [0; 1; 3] ∨ h = 5 ∧ [a; b; c] ≡ₚ [0; 3; 2]) ∧
  is_Some (edge_data g a b).
Proof.
  intros Ht. pose proof Hi as (_ & _ & _ & _ & T1 & T2 & (d1 & E1 & _) & (d2 & E2 & _) & (d3 & E3 & _) &
    (d4 & E4 & _) & (d5 & E5 & _) & _).
  pose proof E1 as E1'. pose proof E2 as E2'. pose proof E3 as E3'. pose proof E4 as E4'. pose proof E5 as E5'.
  rewrite edge_data_sym in E1', E2', E3', E4', E5' by done.
  assert (∀ x y z, NoDup [x; y; z] → getNeighbours g h = [x; y; z] → tri g h x y z) as Hxyz
    by (intros; apply tri_neighbours; [apply Ht|done..]).
  pose proof (proj1 Ht) as Hh. apply initial_interior in Hh as [->| ->].
  - pose proof (Hxyz 0 1 3 ltac:(by apply nodup3) T1) as H4.
    destruct (tri_sides _ _ _ _ _ _ _ _ H4 Ht) as
      [(->&->&->)|[(->&->&->)|[(->&->&->)|[(->&->&->)|[(->&->&->)|(->&->&->)]]]]];
      (split; [left; split; [done|solve_Permutation]|eauto]).
  - pose proof (Hxyz 0 3 2 ltac:(by apply nodup3) T2) as H5.
    destruct (tri_sides _ _ _ _ _ _ _ _ H5 Ht) as
      [(->&->&->)|[(->&->&->)|[(->&->&->)|[(->&->&->)|[(->&->&->)|(->&->&->)]]]]];
      (split; [right; split; [done|solve_Permutation]|eauto]).
Qed.

(** Two different corners of a triangle are a side of it. *)
Lemma initial_uses u v h :
  uses g u v h ↔ u ≠ v ∧ (h = 4 ∧ u ∈ [0; 1; 3] ∧ v ∈ [0; 1; 3] ∨ h = 5 ∧ u ∈ [0; 3; 2] ∧ v ∈ [0; 3; 2]).
Proof.
  assert (∀ u v, half g u v h → False) as Hno.
  { intros x y (z & w & Ht & Hd & _). destruct (initial_tri _ _ _ _ Ht) as [_ [d Hd']]. congruence. }
  split.
  - intros [[w Ht]|[Hh|Hh]]; [|by destruct (Hno _ _ Hh)..].
    destruct (tri_distinct _ _ _ _ _ Ht) as (Huv & _). split; [done|].
    assert (∀ x y z, [u; v; w] ≡ₚ [x; y; z] → u ∈ [x; y; z] ∧ v ∈ [x; y; z]) as Hin.
    { intros x y z <-. rewrite !elem_of_cons. tauto. }
    destruct (initial_tri _ _ _ _ Ht) as [[[-> H]|[-> H]] _]; [left|right]; (split; [done|by apply Hin]).
  - pose proof Hi as (_ & _ & _ & _ & T1 & T2 & _). intros [Huv Hor]. left.
    assert (tri g 4 0 1 3) as H4 by (apply tri_neighbours; [apply initial_interior; by left|by apply nodup3|done]).
    assert (tri g 5 0 3 2) as H5 by (apply tri_neighbours; [apply initial_interior; by right|by apply nodup3|done]).
    assert (∀ x y z, tri g h x y z → u ∈ [x; y; z] → v ∈ [x; y; z] → ∃ w, tri g h u v w) as H.
    { intros x y z Ht Hu Hv. rewrite !elem_of_cons, list.elem_of_nil in Hu, Hv.
      pose proof (tri_rotate _ _ _ _ _ Ht) as Ht1. pose proof (tri_rotate _ _ _ _ _ Ht1) as Ht2.
      destruct Hu as [->|[->|[->|[]]]], Hv as [->|[->|[->|[]]]]; try done; eauto using tri_swap. }
    destruct Hor as [(-> & Hu & Hv)|(-> & Hu & Hv)]; eauto.
Qed.

Lemma initial_border x y d :
  edge_data g x y = Some d → (inner_edge x y → isBorder d = false) ∧ (outer_edge x y → isBorder d = true).
Proof.
  pose proof Hi as (_ & _ & _ & _ & _ & _ & (d1 & E1 & B1 & _) & (d2 & E2 & B2 & _) & (d3 & E3 & B3 & _) &
    (d4 & E4 & B4 & _) & (d5 & E5 & B5 & _) & _). intros Hd.
  assert (∀ u v, same_edge x y u v → edge_data g u v = Some d) as Huv.
  { intros u v [[-> ->]|[-> ->]]; [done|by rewrite edge_data_sym]. }
  split; [intros Hxy%Huv|intros [Hxy%Huv|[Hxy%Huv|[Hxy%Huv|Hxy%Huv]]]]; congruence.
Qed.

Lemma initial_length x y d :
  is_vertex g x → is_vertex g y → edge_data g x y = Some d → ∃ p q, getLength d = dist p q v2d.
Proof.
  pose proof Hi as (_ & _ & _ & _ & _ & _ & (d1 & E1 & _ & L1) & (d2 & E2 & _ & L2) & (d3 & E3 & _ & L3) &
    (d4 & E4 & _ & L4) & (d5 & E5 & _ & L5) & _). intros Hx Hy Hd.
  assert (∀ u v, same_edge x y u v → edge_data g u v = Some d) as Huv.
  { intros u v [[-> ->]|[-> ->]]; [done|by rewrite edge_data_sym]. }
  destruct (initial_sides x y Hx Hy) as [H|[H|[H|[H|H]]]]; [eauto|apply Huv in H..];
    eexists _, _; first [transitivity (getLength d5); [congruence|exact L5]|
      transitivity (getLength d1); [congruence|exact L1]|transitivity (getLength d2); [congruence|exact L2]|
      transitivity (getLength d3); [congruence|exact L3]|transitivity (getLength d4); [congruence|exact L4]].
Qed.

Ltac corners := rewrite !elem_of_cons, !list.elem_of_nil; lia.

Lemma initial_conformal : conformal g.
Proof.
  assert (∀ u v h, uses g u v h → h = 4 ∨ h = 5) as H45.
  { intros u v h (_ & [[-> _]|[-> _]])%initial_uses; auto. }
  assert (∀ h a b c, tri g h a b c → edge_data g a b ≠ None) as Hsome.
  { intros h a b c Ht Hd. destruct (initial_tri _ _ _ _ Ht) as [_ [d Hd']]. congruence. }
  split.
  - done.
  - intros h a b c Ht Hd. by destruct (Hsome _ _ _ _ Ht).
  - intros h a b c h' a' b' c' m Ht Hd. by destruct (Hsome _ _ _ _ Ht).
  - intros u v d h1 h2 h3 _ _ _ [->| ->]%H45 [->| ->]%H45 [->| ->]%H45; auto.
  - intros u v d h1 h2 Hu Hv Hd Hb H1 H2. apply initial_uses in H1 as [_ H1], H2 as [_ H2].
    destruct (initial_border u v d Hd) as [Hin _].
    destruct (initial_sides u v Hu Hv) as [H|Ho]; [eauto|apply Hin in H; congruence|].
    unfold outer_edge, same_edge in Ho. rewrite !elem_of_cons, !list.elem_of_nil in H1, H2. lia.
  - intros u v d Hu Hv Hd. destruct (initial_length u v d Hu Hv Hd) as (p & q & E).
    pose proof (pl_length _ Hp u v d Hu Hv Hd) as Hn. rewrite E in *. by apply dist_length.
  - intros u v d Hu Hv Hd. destruct (initial_sides u v Hu Hv) as [H|Ho]; [eauto|exists 4|].
    + apply initial_uses. unfold inner_edge, same_edge in H. split; [lia|left; split_and!; [done|corners..]].
    + unfold outer_edge, same_edge in Ho.
      assert ((u = 2 ∨ v = 2) ∨ u ≠ 2 ∧ v ≠ 2) as [H2|H2] by lia; [exists 5|exists 4]; apply initial_uses;
        (split; [lia|]); [right|left]; (split_and!; [done|corners..]).
  - intros u v d Hu Hv Hd Hb. exists 4, 5. destruct (initial_border u v d Hd) as [_ Hout].
    destruct (initial_sides u v Hu Hv) as [H|Ho]; [eauto| |apply Hout in Ho; congruence].
    unfold inner_edge, same_edge in H. split; [done|]. rewrite !initial_uses.
    split; (split; [lia|]); [left|right]; (split_and!; [done|corners..]).
  - intros v Hv Hh. exfalso. pose proof Hi as (_ & _ & _ & _ & _ & _ & _ & _ & _ & _ & _ & Hn & _).
    unfold hanging in Hh. rewrite Hn in Hh; [done|]. apply initial_vertex in Hv. corners.
Qed.
End Initial.

(** ** Marking *)

(** The graphs differ at most in the marks of triangles. *)
Record alike (g g' : Graph) : Prop := {
  al_active n : active g' n = active g n;
  al_hyper n : isHyperEdge (getData g' n) = isHyperEdge (getData g n);
  al_coords n : getCoords (getData g' n) = getCoords (getData g n);
  al_hanging n : hanging g' n = hanging g n;
  al_edges x y : edge_data g' x y = edge_data g x y;
  al_adj x y : adj g' x y = adj g x y;
  al_neighbours n : getNeighbours g' n = getNeighbours g n;
  al_wf : wf g → wf g';
}.

Section Alike.
Context (g g' : Graph).
Hypothesis Ha : alike g g'.

Lemma alike_vertex v : is_vertex g' v ↔ is_vertex g v.
Proof. unfold is_vertex. by rewrite (al_active _ _ Ha), (al_hyper _ _ Ha). Qed.
Lemma alike_interior h : is_interior g' h ↔ is_interior g h.
Proof. unfold is_interior. by rewrite (al_active _ _ Ha), (al_hyper _ _ Ha). Qed.
Lemma alike_midpoint a b : midpoint g' a b = midpoint g a b.
Proof. unfold midpoint. by rewrite !(al_coords _ _ Ha). Qed.
Lemma alike_tri h a b c : tri g' h a b c ↔ tri g h a b c.
Proof. unfold tri. by rewrite alike_interior, (al_neighbours _ _ Ha). Qed.
Lemma alike_between a b n : is_between g' a b n ↔ is_between g a b n.
Proof. unfold is_between. by rewrite !(al_adj _ _ Ha), (al_coords _ _ Ha), alike_midpoint. Qed.
Lemma alike_mesh : mesh_ok g → mesh_ok g'.
Proof.
  intros Hm. split; [apply (al_wf _ _ Ha), Hm|]. intros h Hh%alike_interior.
  destruct (mo_triangle _ Hm h Hh) as (a & b & c & Hn & Hv).
  exists a, b, c. by rewrite !alike_vertex, (al_neighbours _ _ Ha).
Qed.
Lemma alike_hangs a b c m : hangs g' a b c m ↔ hangs g a b c m.
Proof.
  split; intros [H1 H2 H3 H4 H5 H6 H7 H8]; split; try done; revert H1 H3 H4 H5 H6 H7 H8;
    by rewrite ?alike_vertex, ?(al_coords _ _ Ha), ?alike_midpoint, ?(al_hanging _ _ Ha), ?(al_edges _ _ Ha).
Qed.
Lemma alike_half u m h : half g' u m h ↔ half g u m h.
Proof. unfold half. setoid_rewrite alike_tri. setoid_rewrite alike_hangs. by setoid_rewrite (al_edges _ _ Ha). Qed.
Lemma alike_uses u v h : uses g' u v h ↔ uses g u v h.
Proof. unfold uses. setoid_rewrite alike_tri. by rewrite !alike_half. Qed.

Lemma alike_conformal : conformal g → conformal g'.
Proof.
  intros [Hm Hs Ho Ht Hb Hl Hu Hin Hh]. split; [by apply alike_mesh|..];
    setoid_rewrite alike_tri || setoid_rewrite alike_vertex.
  - setoid_rewrite alike_hangs. by setoid_rewrite (al_edges _ _ Ha).
  - intros *. rewrite !alike_hangs, !(al_edges _ _ Ha). apply Ho.
  - intros *. rewrite !alike_uses, !(al_edges _ _ Ha). apply Ht.
  - intros *. rewrite !alike_uses, !(al_edges _ _ Ha). apply Hb.
  - intros *. rewrite !(al_edges _ _ Ha). apply Hl.
  - setoid_rewrite alike_uses. by setoid_rewrite (al_edges _ _ Ha).
  - setoid_rewrite alike_uses. by setoid_rewrite (al_edges _ _ Ha).
  - setoid_rewrite alike_hangs. setoid_rewrite (al_edges _ _ Ha).
    intros v Hv. rewrite alike_vertex in Hv. rewrite (al_hanging _ _ Ha). auto.
Qed.

Lemma alike_plain : plain g → plain g'.
Proof.
  intros [Hu Hc Hm Hl]. split.
  - intros *. rewrite !alike_vertex, !alike_between, (al_edges _ _ Ha). apply Hu.
  - intros *. rewrite alike_tri, !alike_between, !(al_edges _ _ Ha). apply Hc.
  - intros *. rewrite !alike_vertex, !alike_midpoint, (al_edges _ _ Ha). apply Hm.
  - intros *. rewrite !alike_vertex, (al_edges _ _ Ha). apply Hl.
Qed.

Lemma alike_euler : euler g' = euler g.
Proof.
  assert (V_of g' = V_of g) as HV
    by (apply leibniz_equiv, set_equiv; intros x; by rewrite !elem_of_V, alike_vertex).
  assert (F_of g' = F_of g) as HF
    by (apply leibniz_equiv, set_equiv; intros x; by rewrite !elem_of_F, alike_interior).
  assert (E_of g' = E_of g) as HE.
  { apply leibniz_equiv, set_equiv. intros x. rewrite !elem_of_E. unfold is_side.
    by rewrite !alike_vertex, (al_edges _ _ Ha). }
  unfold euler. by rewrite HV, HF, HE.
Qed.
End Alike.

Lemma mark_alike n g : active g n = true → alike g (updData (setToRefine true) n g).
Proof.
  intros Hn%active_lt. pose proof (updData_shape (setToRefine true) n g) as Hs. split.
  - intros x. apply active_updData.
  - intros x. rewrite getData_updData by done. case_decide; by subst.
  - intros x. rewrite getData_updData by done. case_decide; by subst.
  - intros x. unfold hanging. rewrite getData_updData by done. case_decide; by subst.
  - intros x y. apply updData_edge_data.
  - intros x y. by apply same_shape_adj.
  - intros x. apply getNeighbours_frame; [apply edges_updData|intros; apply active_updData].
  - by apply same_shape_wf.
Qed.

(** ** Any order of visits *)


Fixpoint plain_alongb (v2d : bool) (zg : double → double → result double) (ns : list GNode)
    (g : Graph) : bool :=
  mesh_okb g && plainb g && has_heightsb g zg &&
  match ns with
  | [] => true
  | n :: ns' =>
      match refine_node v2d zg n (mkWorld g []) with
      | Ok (_, w) => plain_alongb v2d zg ns' (w_graph w)
      | Err _ => true
      end
  end.

Lemma plain_alongb_sound v2d zg ns g : plain_alongb v2d zg ns g = true → plain_along v2d zg ns g.
Proof.
  revert g. induction ns as [|n ns IH]; intros g H; cbn [plain_alongb plain_along] in *;
    apply andb_prop in H as [[[Hm%mesh_okb_sound Hp]%andb_prop Hz]%andb_prop Hn];
    (split_and!; [by apply plainb_sound|by apply has_heightsb_sound|]); [done|].
  destruct (refine_node v2d zg n (mkWorld g [])) as [[b w]|]; [by apply IH|done].
Qed.

(** The square of two triangles on which the generators agree, at quarters. *)
Definition square_mesh : Graph :=
  mesh_of [(0, 0, false); (0, 4, false); (4, 0, false); (4, 4, false)]%Z
    [(0, 1, true); (1, 3, true); (2, 3, true); (0, 2, true); (3, 0, false)]
    [(0, 1, 3, false); (0, 3, 2, false)].

Lemma square_mesh_initial : initial_mesh true square_mesh.
Proof.
  split; [decide_mesh|]. do 5 (split; [vm_compute; reflexivity|]).
  do 5 (split; [eexists; split_and!; vm_compute; reflexivity|]).
  split; intros n Hn; rewrite !elem_of_cons, list.elem_of_nil in Hn; destruct_or! Hn; subst n; by vm_compute.
Qed.

