(* ===== verification/Config.v ===== *)
(** * [src/utils/Config.h]

    The command line.  [getopt] is a function of the arguments and of the option
    string to the sequence of its results up to [-1]; what [parseArguments] prints on
    [stderr] is kept as a list. *)
From Stdlib Require Import SpecFloat Ascii String.
From stdpp Require Import list.
From S2P Require Import Prelude Double Libm Text TranMerc Utm NumUtils Model TerrainMap.

Local Open Scope string_scope.

Record Config := mkConfig {
  tolerance : double;
  cfg_version2D : bool;
  steps : Z;
  cores : Z;
  display : bool;
  cfg_N : double;
  cfg_S : double;
  cfg_E : double;
  cfg_W : double;
  dataDir : string;
  cfg_ascii : bool;
  asciiFile : string;
  output : string;
}.

(** The defaults, with the number of active threads in the name of the output. *)
Definition Config_default (activeThreads : Z) : Config := {|
  tolerance := of_Z 5; cfg_version2D := false; steps := 14; cores := -1; display := false;
  cfg_N := lit 502 10; cfg_S := lit 493 10; cfg_E := lit 207 10; cfg_W := lit 192 10;
  dataDir := "data"; cfg_ascii := false; asciiFile := EmptyString;
  output := "graph" ++ to_string activeThreads ++ ".mgf" |}.

Definition USAGE : string := "OPTIONS:" ++ endl ++ endl.

(** A result of [getopt]: an option with [optarg], or ['?'] with [optopt]. *)
Inductive getopt_result :=
  | Opt (argument : ascii) (optarg : string)
  | Unknown (optopt : ascii).

(** [intmax_t] to [int] *)
Definition imax_to_int (z : Z) : Z := size_to_int z.

Definition number (optarg : string) : double := (strtod (list_ascii_of_string optarg)).1.
Definition integer (optarg : string) : Z := imax_to_int (strtoimax (list_ascii_of_string optarg)).

(** The [switch] on an option other than ['?']. *)
Definition parse_option (c : Config) (argument : ascii) (optarg : string) : Config :=
  let '(mkConfig T v s n d bn bs be bw D a f o) := c in
  if Ascii.eqb argument "T" then mkConfig (number optarg) v s n d bn bs be bw D a f o
  else if Ascii.eqb argument "2" then mkConfig T true s n d bn bs be bw D a f o
  else if Ascii.eqb argument "3" then mkConfig T false s n d bn bs be bw D a f o
  else if Ascii.eqb argument "s" then mkConfig T v (integer optarg) n d bn bs be bw D a f o
  else if Ascii.eqb argument "d" then mkConfig T v s n true bn bs be bw D a f o
  else if Ascii.eqb argument "N" then mkConfig T v s n d (number optarg) bs be bw D a f o
  else if Ascii.eqb argument "S" then mkConfig T v s n d bn (number optarg) be bw D a f o
  else if Ascii.eqb argument "E" then mkConfig T v s n d bn bs (number optarg) bw D a f o
  else if Ascii.eqb argument "W" then mkConfig T v s n d bn bs be (number optarg) D a f o
  else if Ascii.eqb argument "D" then mkConfig T v s n d bn bs be bw optarg a f o
  else if Ascii.eqb argument "a" then mkConfig T v s n d bn bs be bw D true f o
  else if Ascii.eqb argument "f" then mkConfig T v s n d bn bs be bw D a optarg o
  else if Ascii.eqb argument "o" then mkConfig T v s n d bn bs be bw D a f optarg
  else if Ascii.eqb argument "c" then mkConfig T v s (integer optarg) d bn bs be bw D a f o
  else c.

Definition is_print (c : ascii) : bool := ((32 <=? code c) && (code c <=? 126))%Z.

(** Hexadecimal digits, [printf] with [%x] for a character. *)
Definition hex_digit (n : N) : ascii := ascii_of_N (if (n <? 10)%N then 48 + n else 87 + n).
Definition hex (c : ascii) : string :=
  let n := N_of_ascii c in
  if (n <? 16)%N then String (hex_digit n) EmptyString
  else String (hex_digit (n / 16)) (String (hex_digit (n mod 16)) EmptyString).

(** The messages of the case ['?']. *)
Definition complain (optopt : ascii) : list string :=
  let c := String optopt EmptyString in
  if existsb (Ascii.eqb optopt) (list_ascii_of_string "Ts23dNSEWDafoc")
  then ["Option -" ++ c ++ " requires an argument." ++ endl; USAGE]
  else if is_print optopt then ["Unknown option `-" ++ c ++ "'." ++ endl; USAGE]
  else ["Unknown option character `\x" ++ hex optopt ++ "'." ++ endl; USAGE].

Definition parse_step (cm : Config * list string) (e : getopt_result) : Config * list string :=
  match e with
  | Opt argument optarg => (parse_option cm.1 argument optarg, cm.2)
  | Unknown optopt => (cm.1, (cm.2 ++ complain optopt)%list)
  end.

Definition option_string : string := "T:23s:dN:S:E:W:D:af:o:c:".

Section Config.
Context (getopt : list string → string → list getopt_result).

(** [parseArguments] on a configuration: the new one and the messages. *)
Definition parseArguments (c : Config) (argv : list string) : Config * list string :=
  foldl parse_step (c, if Nat.eqb (List.length argv) 1 then [USAGE] else [])
    (getopt argv option_string).

(** The constructor. *)
Definition new_Config (activeThreads : Z) (argv : list string) : Config * list string :=
  parseArguments (Config_default activeThreads) argv.
End Config.

(** ** The last option of a kind decides *)

(** The argument of the last option that is one of [cs]. *)
Fixpoint last_option (cs : list ascii) (es : list getopt_result) : option (ascii * string) :=
  match es with
  | [] => None
  | e :: es' =>
      match last_option cs es' with
      | Some r => Some r
      | None =>
          match e with
          | Opt c a => if existsb (Ascii.eqb c) cs then Some (c, a) else None
          | Unknown _ => None
          end
      end
  end.

(** A field that the options [cs] set. *)
Definition field {A} (cs : list ascii) (set : ascii → string → A) (dflt : A)
    (es : list getopt_result) : A :=
  match last_option cs es with Some (c, a) => set c a | None => dflt end.

Definition reference_config (c : Config) (es : list getopt_result) : Config := {|
  tolerance := field ["T"%char] (λ _, number) (tolerance c) es;
  cfg_version2D := field ["2"%char; "3"%char] (λ o _, Ascii.eqb o "2") (cfg_version2D c) es;
  steps := field ["s"%char] (λ _, integer) (steps c) es;
  cores := field ["c"%char] (λ _, integer) (cores c) es;
  display := field ["d"%char] (λ _ _, true) (display c) es;
  cfg_N := field ["N"%char] (λ _, number) (cfg_N c) es;
  cfg_S := field ["S"%char] (λ _, number) (cfg_S c) es;
  cfg_E := field ["E"%char] (λ _, number) (cfg_E c) es;
  cfg_W := field ["W"%char] (λ _, number) (cfg_W c) es;
  dataDir := field ["D"%char] (λ _ a, a) (dataDir c) es;
  cfg_ascii := field ["a"%char] (λ _ _, true) (cfg_ascii c) es;
  asciiFile := field ["f"%char] (λ _ a, a) (asciiFile c) es;
  output := field ["o"%char] (λ _ a, a) (output c) es |}.

Lemma field_cons {A} cs set (dflt : A) e es :
  field cs set dflt (e :: es) = field cs set (field cs set dflt [e]) es.
Proof.
  unfold field. cbn [last_option].
  destruct (last_option cs es) as [[c a]|]; [done|]. destruct e as [c a|]; [|done].
  by destruct (existsb (Ascii.eqb c) cs).
Qed.

Lemma reference_config_cons c e es :
  reference_config c (e :: es) = reference_config (reference_config c [e]) es.
Proof. unfold reference_config at 1 2. f_equal; apply field_cons. Qed.

Lemma parse_step_reference cm e : (parse_step cm e).1 = reference_config cm.1 [e].
Proof.
  destruct cm as [c ms], e as [a o|o]; cbn [parse_step fst]; [|by destruct c].
  destruct c. unfold parse_option, reference_config, field. cbn [last_option existsb].
  repeat match goal with
  | |- context [if Ascii.eqb a ?x then _ else _] => destruct (Ascii.eqb_spec a x); [subst a; reflexivity|]
  end.
  repeat match goal with
  | H : a ≠ ?x |- _ => rewrite (proj2 (Ascii.eqb_neq a x) H); clear H
  end. reflexivity.
Qed.

(** The configuration depends on the last occurrence of each option only: every
    field has the value that its last option gives it ([-2] and [-3] set the same
    field) and its default without one; unknown options and missing arguments change
    nothing. *)
Theorem parseArguments_last_wins (getopt : list string → string → list getopt_result)
    (c : Config) (argv : list string) :
  (parseArguments getopt c argv).1 = reference_config c (getopt argv option_string).
Proof.
  unfold parseArguments. generalize (if Nat.eqb (List.length argv) 1 then [USAGE] else []).
  generalize (getopt argv option_string) as es. intros es. revert c.
  induction es as [|e es IH]; intros c ms; [by destruct c|].
  rewrite reference_config_cons. cbn [foldl].
  rewrite (surjective_pairing (parse_step (c, ms) e)), IH. by rewrite parse_step_reference.
Qed.
