(* ===== verification/Driver.v ===== *)
(** * [src/GraphGrammar.cpp]: [main]

    The run of the program: read the terrain, make the initial mesh, and in every
    step mark the triangles and apply the grammar, each with a [galois::for_each]
    over the nodes of the graph.  The loops of Galois take the nodes of a worklist in
    any order, run the operator on one at a time as far as its effects go, and add the
    nodes it pushes; a run is a sequence of such visits until the worklist is empty. *)
From Stdlib Require Import SpecFloat Ascii String.
From stdpp Require Import gmap sets relations.
From S2P Require Import Prelude Double Libm Text TranMerc Utm NumUtils Model TerrainMap SrtmReader.
From S2P Require Import MorphGraph GraphFacts GraphSpec Connectivity ConnFacts Conditions.
From S2P Require Import Production Productions Mesh Break ProductionFacts MeshCheck Generator Euler.
From S2P Require Import Writer TerrainGenerator Refine Grammar Conformity ConformityCheck Invariant Config.

Local Open Scope string_scope.
Local Open Scope double_scope.

(** ** [galois::for_each] *)

Section ForEach.
Context {S : Type} (operator : S → GNode → result (S * list GNode)).

(** One visit: any node of the worklist. *)
Inductive visit : S * list GNode → S * list GNode → Prop :=
  | visit_node s l1 n l2 s' pushed :
      operator s n = Ok (s', pushed) →
      visit (s, (l1 ++ n :: l2)%list) (s', (l1 ++ l2 ++ pushed)%list).

(** A complete run of the loop from the worklist [l]. *)
Definition for_each (l : list GNode) (s s' : S) : Prop := rtc visit (s, l) (s', []).

(** The run that takes the nodes in the order of the worklist. *)
Fixpoint for_each_fifo (fuel : nat) (l : list GNode) (s : S) : result S :=
  match fuel, l with
  | _, [] => Ok s
  | O, _ => Err Diverge
  | Datatypes.S fuel', n :: l' =>
      r ← operator s n;
      for_each_fifo fuel' (l' ++ r.2)%list r.1
  end.

Lemma for_each_fifo_run fuel l s s' : for_each_fifo fuel l s = Ok s' → for_each l s s'.
Proof.
  revert l s. induction fuel as [|fuel IH]; intros l s H; destruct l as [|n l]; simpl in H; try done.
  - injection H as <-. apply rtc_refl.
  - injection H as <-. apply rtc_refl.
  - destruct (operator s n) as [[s1 pushed]|] eqn:E; [|done]. simpl in H.
    eapply rtc_l; [|by apply IH]. by apply (visit_node s [] n l).
Qed.

(** What every visit keeps, the loop keeps. *)
Lemma for_each_inv (P : S → Prop) l s s' :
  (∀ s n s' pushed, P s → operator s n = Ok (s', pushed) → P s') →
  for_each l s s' → P s → P s'.
Proof.
  intros Hop Hr. unfold for_each in Hr.
  remember (s, l) as x. remember (s', []) as y. revert s l s' Heqx Heqy.
  induction Hr as [|x y z Hv _ IH]; intros s l s' -> Hy Hs; [by injection Hy as -> ->|].
  inversion Hv; subst. eapply IH; [done|done|]. by eapply Hop.
Qed.

(** The worklist is a bag: only which nodes it has matters. *)
Lemma for_each_perm l l' s s' : l ≡ₚ l' → for_each l s s' → for_each l' s s'.
Proof.
  intros Hl Hr. unfold for_each in *. remember (s, l) as x. remember (s', []) as y.
  revert s l l' s' Hl Heqx Heqy. induction Hr as [|x y z Hv _ IH]; intros s l l' s' Hl -> Hy.
  - injection Hy as -> ->. apply Permutation_nil_l in Hl as ->. apply rtc_refl.
  - inversion Hv as [s0 l1 n l2 s1 pushed Hop]; subst.
    destruct (list_elem_of_split l' n) as (k1 & k2 & ->); [rewrite <- Hl; set_solver|].
    eapply rtc_l; [by apply (visit_node s k1 n k2)|]. eapply IH; [|done|done].
    rewrite !app_assoc. apply Permutation_app_tail. apply (Permutation_cons_inv (a := n)).
    by rewrite !Permutation_middle.
Qed.
End ForEach.

(** ** The operators of the two loops *)

(** The operator of the second loop on the graph alone. *)
Definition grammar_operator (v2d : bool) (zg : double → double → result double) (g : Graph)
    (node : GNode) : result (Graph * list GNode) :=
  x ← refine_node v2d zg node (mkWorld g []);
  mret (w_graph x.2, w_ctx x.2).

(** The graph, the variables of the projection, and the files written so far. *)
Record Run := mkRun { run_graph : Graph; run_utm : Utm; run_files : list (string * string) }.

Section Driver.
Context `{Libm}.
Context (files : string → option (list Z)) (fuel : nat) (cfg : Config).
(** The order in which the bag of nodes is iterated when the graph is written. *)
Context (bag_order : Graph → list GNode).

(** [checker.execute(node)] if [basicCondition] *)
Definition check_operator (m : Map) (r : Run) (node : GNode) : result (Run * list GNode) :=
  if basicCondition (run_graph r) node then
    x ← Terrain_execute fuel (tolerance cfg) m node (run_graph r, run_utm r);
    mret (mkRun x.2.1 x.2.2 (run_files r), [])
  else mret (r, []).

(** [map->get_height(x, y)] for the productions.  The variables of the projection
    that it rewrites are rewritten again before they are read. *)
Definition height (m : Map) (u : Utm) (x y : double) : result double :=
  r ← get_height m x y u; mret r.1.

(** [afterStep(j, graph)]: the file and its text *)
Definition afterStep (j : Z) (g : Graph) : result (string * string) :=
  text ← writeToFile g (bag_order g);
  mret ("out/step" ++ to_string (j - 1) ++ ".mgf", text).

Definition production_operator (m : Map) (j : Z) (r : Run) (node : GNode)
    : result (Run * list GNode) :=
  x ← refine_node (cfg_version2D cfg) (height m (run_utm r)) node (mkWorld (run_graph r) []);
  let '(executed, w) := x in
  if (executed : bool) then
    f ← afterStep j (w_graph w);
    mret (mkRun (w_graph w) (run_utm r) (run_files r ++ [f])%list, w_ctx w)
  else mret (mkRun (w_graph w) (run_utm r) (run_files r), w_ctx w).

(** ** [main] *)

(** The body of the loop over [j]. *)
Definition step_run (m : Map) (j : Z) (r r' : Run) : Prop :=
  ∃ r1, for_each (check_operator m) (graph_nodes (run_graph r)) r r1 ∧
    for_each (production_operator m j) (graph_nodes (run_graph r1)) r1 r'.

Inductive steps_from (m : Map) : Z → Run → Run → Prop :=
  | steps_done j r : (steps cfg <= j)%Z → steps_from m j r r
  | steps_more j r r1 r2 :
      (j < steps cfg)%Z → step_run m j r r1 → steps_from m (j + 1) r1 r2 → steps_from m j r r2.

(** The state before the loop. *)
Definition main_start : result (Map * Run) :=
  m ← SrtmReader_read files fuel (cfg_W cfg) (cfg_N cfg) (cfg_E cfg) (cfg_S cfg) (dataDir cfg);
  x ← generateSampleGraphWithDataWithConversionToUtm (cfg_W cfg) (cfg_N cfg) (cfg_E cfg)
        (cfg_S cfg) (cfg_version2D cfg) (mkTerrain (mkWorld empty_graph []) m Utm_init);
  let t := x.2 in
  mret (t_map t, mkRun (w_graph (t_world t)) (t_utm t) []).

(** A run of the program writes the files [out]. *)
Definition main_run (out : list (string * string)) : Prop :=
  ∃ m r0 r text, main_start = Ok (m, r0) ∧ steps_from m 0 r0 r ∧
    writeToFile (run_graph r) (bag_order (run_graph r)) = Ok text ∧ out = (run_files r ++ [(output cfg, text)])%list.

(** The run that takes worklists in order. *)
Fixpoint steps_fifo (n : nat) (m : Map) (j : Z) (r : Run) : result Run :=
  match n with
  | O => mret r
  | Datatypes.S n' =>
      r1 ← for_each_fifo (check_operator m) fuel (graph_nodes (run_graph r)) r;
      r2 ← for_each_fifo (production_operator m j) fuel (graph_nodes (run_graph r1)) r1;
      steps_fifo n' m (j + 1) r2
  end.

Lemma steps_fifo_run n m j r r' :
  Z.of_nat n = (steps cfg - j)%Z → steps_fifo n m j r = Ok r' → steps_from m j r r'.
Proof.
  revert j r. induction n as [|n IH]; intros j r Hn Hr.
  - injection Hr as <-. constructor. lia.
  - cbn [steps_fifo] in Hr. inv_ok Hr. eapply steps_more; [lia| |by apply IH; [lia|]].
    exists r0. split; by eapply for_each_fifo_run.
Qed.
End Driver.

(** ** The mesh over a run *)

Section Safety.
Context `{Libm}.
Context (fuel : nat) (cfg : Config) (bag_order : Graph → list GNode) (m : Map).

(** A visit of either loop, to any node, in a state whose graph is plain and has
    heights. *)
Definition driver_visit (r r' : Run) : Prop :=
  plain (run_graph r) ∧ has_heights (run_graph r) (height m (run_utm r)) ∧
  ∃ n pushed, check_operator fuel cfg m r n = Ok (r', pushed) ∨
    ∃ j, production_operator cfg bag_order m j r n = Ok (r', pushed).

Lemma check_alike r n r' pushed :
  check_operator fuel cfg m r n = Ok (r', pushed) →
  run_graph r' = run_graph r ∨ alike (run_graph r) (run_graph r').
Proof.
  unfold check_operator. destruct (basicCondition (run_graph r) n) eqn:Hb; [|intros [= <- <-]; by left].
  apply basicCondition_interior in Hb as [Ha Hh]. unfold Terrain_execute. rewrite Hh. cbn [negb].
  intros Hr. inv_ok Hr. inv_ok Hr0. destruct (negb _); injection Hr0 as <-; injection Hr as <- <-; cbn [run_graph snd fst].
  - by left.
  - right. by apply mark_alike.
Qed.

Lemma production_visited j r n r' pushed :
  production_operator cfg bag_order m j r n = Ok (r', pushed) →
  ∃ b w, refine_node (cfg_version2D cfg) (height m (run_utm r)) n (mkWorld (run_graph r) []) = Ok (b, w) ∧
    run_graph r' = w_graph w.
Proof.
  unfold production_operator. intros Hr. inv_ok Hr. destruct r0 as [b w]. exists b, w. split; [done|].
  destruct b; [inv_ok Hr|]; by injection Hr as <- <-.
Qed.

Lemma driver_visit_conformal r r' :
  driver_visit r r' → conformal (run_graph r) → plain (run_graph r') →
  conformal (run_graph r') ∧ euler (run_graph r') = euler (run_graph r).
Proof.
  intros (Hp & Hz & n & pushed & [Hr|[j Hr]]) Hc Hp'.
  - destruct (check_alike _ _ _ _ Hr) as [->|Ha]; [done|].
    split; [by eapply alike_conformal|by apply alike_euler].
  - destruct (production_visited _ _ _ _ _ Hr) as (b & w & Hw & E). rewrite E in *.
    destruct (visit_conformal (cfg_version2D cfg) _ _ n [] Hc Hp Hz) as (b' & w' & Hw' & Hc' & He).
    rewrite Hw in Hw'. injection Hw' as <- <-. auto.
Qed.

Lemma driver_visits_conformal r r' :
  rtc driver_visit r r' → conformal (run_graph r) → plain (run_graph r') →
  conformal (run_graph r') ∧ euler (run_graph r') = euler (run_graph r).
Proof.
  induction 1 as [|r r1 r2 Hv Hrest IH]; intros Hc Hp; [done|].
  assert (plain (run_graph r1)) as Hp1.
  { inversion Hrest as [|? ? ? Hv2]; subst; [done|]. apply Hv2. }
  destruct (driver_visit_conformal _ _ Hv Hc Hp1) as [Hc1 E1].
  destruct (IH Hc1 Hp) as [Hc2 E2]. split; [done|congruence].
Qed.
End Safety.

(** C1: the program never runs into an assertion while it refines.  Start from the
    mesh that either terrain generator makes, and visit nodes in any order, with the
    operator that marks triangles or the one that applies the grammar, as the two
    loops of [main] do.  As long as the graphs are [plain] and the terrain has heights
    for them, the mesh stays conformal (two triangles at each edge inside, one at the
    border, hanging vertices exactly where sides are broken), it keeps the Euler
    characteristic of a disc, and the next visit of the grammar, to whatever node,
    returns. *)
Theorem grammar_never_fails `{Libm} (fuel : nat) (cfg : Config) (bag_order : Graph → list GNode)
    (m : Map) (u : Utm) (W N E S : double) (t : Terrain) (r : Run) :
  let v2d := cfg_version2D cfg in
  generateSampleGraphWithDataWithConversionToUtm W N E S v2d
    (mkTerrain (mkWorld empty_graph []) m u) = Ok (tt, t) ∨
  generateSampleGraphWithData W N E S v2d (mkTerrain (mkWorld empty_graph []) m u) = Ok (tt, t) →
  rtc (driver_visit fuel cfg bag_order (t_map t)) (mkRun (w_graph (t_world t)) (t_utm t) []) r →
  plain (run_graph r) → has_heights (run_graph r) (height (t_map t) (run_utm r)) →
  conformal (run_graph r) ∧ euler (run_graph r) = 1%Z ∧
  ∀ n, ∃ b w, refine_node v2d (height (t_map t) (run_utm r)) n (mkWorld (run_graph r) []) = Ok (b, w).
Proof.
  intros v2d Hg Hr Hp Hz. apply terrain_mesh_run in Hg as [Hi _].
  assert (plain (w_graph (t_world t))) as Hp0.
  { inversion Hr as [|? ? ? Hv]; subst; [done|]. apply Hv. }
  pose proof (initial_conformal _ _ Hi Hp0) as Hc0.
  destruct (driver_visits_conformal _ _ _ _ _ _ Hr Hc0 Hp) as [Hc He]. split_and!; [done| |].
  - rewrite He. destruct Hi as (_ & HV & HF & HE & _). cbn [run_graph]. unfold euler. by rewrite HV, HF, HE.
  - intros n. destruct (visit_conformal v2d _ _ n [] Hc Hp Hz) as (b & w & Hw & _). eauto.
Qed.

(** Visits to the nodes of a list, to mark ([true]) or to apply the grammar, with the
    conditions of [driver_visit] checked. *)
Section Drive.
Context `{Libm}.
Context (fuel : nat) (cfg : Config) (bag_order : Graph → list GNode) (m : Map).

Definition plain_run (r : Run) : bool :=
  mesh_okb (run_graph r) && plainb (run_graph r) &&
  has_heightsb (run_graph r) (height m (run_utm r)).

Lemma plain_run_sound r :
  plain_run r = true → plain (run_graph r) ∧ has_heights (run_graph r) (height m (run_utm r)).
Proof.
  intros [[Hm%mesh_okb_sound Hp]%andb_prop Hz]%andb_prop.
  split; [by apply plainb_sound|by apply has_heightsb_sound].
Qed.

Fixpoint drive (vs : list (bool * GNode)) (r : Run) : option Run :=
  if plain_run r then
    match vs with
    | [] => Some r
    | (mark, n) :: vs' =>
        match (if (mark : bool) then check_operator fuel cfg m r n
               else production_operator cfg bag_order m 0 r n) with
        | Ok (r', _) => drive vs' r'
        | Err _ => None
        end
    end
  else None.

Lemma drive_sound vs r r' :
  drive vs r = Some r' →
  rtc (driver_visit fuel cfg bag_order m) r r' ∧ plain_run r' = true.
Proof.
  revert r. induction vs as [|[mark n] vs IH]; intros r; cbn [drive]; destruct (plain_run r) eqn:Hp; try done.
  - intros [= <-]. split; [apply rtc_refl|done].
  - destruct (if mark then _ else _) as [[r1 pushed]|] eqn:E; [|done]. intros [Hr Hp']%IH.
    split; [|done]. eapply rtc_l; [|exact Hr]. destruct (plain_run_sound r Hp) as [Hpl Hz].
    split_and!; [done..|]. exists n, pushed. destruct mark; [by left|right; by exists 0%Z].
Qed.
End Drive.

(** A hill in the middle of a flat map; the files that are written list no nodes. *)
Definition hill : Map :=
  setUtm false (setWestBorder #0 (setNorthBorder #2
    (new_Map (written_matrix [[ #5; #6; #5]; [ #5; #60; #5]; [ #7; #8; #7]]) 3 3 #1 #1))).
Definition hill_config : Config :=
  mkConfig #1 false 14 1 false #2 #0 #2 #0 "data" false EmptyString "out.mgf".
Local Abbreviation hill_start := (
  @generateSampleGraphWithData Libm_flat #0 #2 #2 #0 (cfg_version2D hill_config)
    (mkTerrain (mkWorld empty_graph []) hill Utm_init)).
Local Abbreviation hill_visits t := (
  @drive Libm_flat 20 hill_config (λ _, []) (t_map t) [(true, 4); (false, 4); (false, 5)]
    (mkRun (w_graph (t_world t)) (t_utm t) [])).

Lemma hill_runs :
  match hill_start with
  | Ok (_, t) => match hill_visits t with Some _ => true | None => false end
  | Err _ => false
  end = true.
Proof. vm_compute. reflexivity. Qed.

Lemma grammar_never_fails_witness :
  ∃ t r, hill_start = Ok (tt, t) ∧ hill_visits t = Some r ∧
    conformal (run_graph r) ∧ euler (run_graph r) = 1%Z.
Proof.
  pose proof hill_runs as H. destruct hill_start as [[[] t]|e] eqn:E; [|discriminate H]. exists t.
  destruct (hill_visits t) as [r|] eqn:D; [|discriminate H]. exists r. split; [reflexivity|].
  split; [reflexivity|]. destruct (drive_sound _ _ _ _ _ _ _ D) as [Hr Hp].
  destruct (@plain_run_sound Libm_flat _ _ Hp) as [Hpl Hz].
  destruct (@grammar_never_fails Libm_flat 20 hill_config (λ _, []) hill Utm_init #0 #2 #2 #0 t r
    (or_intror E) Hr Hpl Hz) as (Hc & He & _).
  split; [exact Hc|exact He].
Defined.

(** ** Complete passes *)

(** A triangle of two is marked; a pass over the nodes in the order of a list. *)
Definition half_marked : Graph := updData (setToRefine true) 4 square_mesh.
Definition pass_after (l : list GNode) (test : Graph → bool) : bool :=
  match for_each_fifo (grammar_operator true sea) 20 l half_marked with
  | Ok g => test g
  | Err _ => false
  end.

Lemma pass_after_run l test :
  pass_after l test = true →
  ∃ g, for_each (grammar_operator true sea) l half_marked g ∧ test g = true.
Proof.
  unfold pass_after. destruct (for_each_fifo _ _ _ _) as [g|] eqn:E; [|done].
  intros Ht. exists g. split; [by eapply for_each_fifo_run|done].
Qed.

Definition none_hangs (g : Graph) : bool :=
  forallb (λ v, negb (is_vertexb g v) || negb (hanging g v)) (node_ids g).

Lemma none_hangs_sound g v : none_hangs g = true → is_vertex g v → hanging g v = false.
Proof.
  intros Hf [Ha Hh]. apply (forallb_in _ _ v) in Hf; [|by apply elem_of_node_ids, active_lt].
  cbv beta in Hf. unfold is_vertexb in Hf. rewrite Ha, Hh in Hf. by apply negb_true_iff in Hf.
Qed.

(** The vertex [v] hangs on the broken side [a]-[b] of [h]. *)
Definition left_hanging (v h a b c : GNode) (g : Graph) : bool :=
  is_vertexb g v && hanging g v && is_interiorb g h && bool_decide (getNeighbours g h = [a; b; c]) &&
  is_none (edge_data g a b) && betweenb g a b v.

Lemma left_hanging_sound v h a b c g :
  NoDup [a; b; c] → left_hanging v h a b c g = true →
  is_vertex g v ∧ hanging g v = true ∧ tri g h a b c ∧ edge_data g a b = None ∧ is_between g a b v.
Proof.
  intros Hnd H. unfold left_hanging, betweenb in H. rewrite !andb_true_iff, !negb_true_iff in H.
  destruct H as (((((Hv & Hh) & Hi) & Hn) & He) & (Ha & Hb) & Hm).
  apply bool_decide_eq_true in Hn. apply is_interiorb_spec in Hi. apply is_none_spec in He.
  split_and!; [by apply is_vertexb_spec|done|by apply tri_neighbours|done|].
  split_and!; [destruct (adj g a v); [eauto|done]|destruct (adj g b v); [eauto|done]|done].
Qed.

