(* ===== verification/Marking.v ===== *)
(** * The marking loop of [main]

    The first loop of a step visits the nodes in any order and marks the triangles from
    which the terrain deviates.  The operator reads positions, which it does not change,
    and the variables of the projection, which it rewrites before it reads them: so the
    graph after the loop does not depend on the order. *)
From Stdlib Require Import Ascii String.
From stdpp Require Import gmap sets relations.
From S2P Require Import Prelude Double Libm TranMerc Utm NumUtils Model TerrainMap.
From S2P Require Import MorphGraph GraphFacts GraphSpec Connectivity ConnFacts Conditions Mesh Break.
From S2P Require Import MeshCheck Refine Conformity Invariant Config Driver.

(** ** What the projection remembers does not matter *)

(** The same ellipsoid and override; the parameters of the last projection may differ. *)
Definition same_ellipsoid (u1 u2 : Utm) : Prop :=
  UTM_a u1 = UTM_a u2 ∧ UTM_f u1 = UTM_f u2 ∧ UTM_Override u1 = UTM_Override u2 ∧ utm_ok u1.

Lemma same_ellipsoid_refl u : utm_ok u → same_ellipsoid u u.
Proof. intros Hu. split_and!; [done..|apply Hu]. Qed.

Lemma same_ellipsoid_trans u1 u2 u3 : same_ellipsoid u1 u2 → same_ellipsoid u2 u3 → same_ellipsoid u1 u3.
Proof. intros (? & ? & ? & ?) (? & ? & ? & ?). split_and!; congruence. Qed.

Lemma same_ellipsoid_sym u1 u2 : same_ellipsoid u1 u2 → same_ellipsoid u2 u1.
Proof.
  intros (Ea & Ef & Eo & H). destruct u1, u2. cbn in Ea, Ef, Eo. subst. split_and!; [done..|exact H].
Qed.

(** The computation gives the same result from either state, and keeps the ellipsoid. *)
Definition stateless {A} (c : st Utm A) : Prop :=
  ∀ u1 u2, same_ellipsoid u1 u2 →
    match c u1, c u2 with
    | Ok (a1, u1'), Ok (a2, u2') => a1 = a2 ∧ same_ellipsoid u1 u1' ∧ same_ellipsoid u2 u2'
    | Err e1, Err e2 => e1 = e2
    | _, _ => False
    end.

Lemma stateless_ok u u' : same_ellipsoid u u' → utm_ok u'.
Proof. intros H. by destruct (same_ellipsoid_sym _ _ H) as (_ & _ & _ & ?). Qed.

Lemma stateless_ret {A} (a : A) : stateless (mret a).
Proof.
  intros u1 u2 Hu. cbn. split; [done|]. split; [apply same_ellipsoid_refl; apply Hu|].
  apply same_ellipsoid_refl. by eapply stateless_ok.
Qed.

Lemma stateless_lift {A} (r : result A) : stateless (lift r).
Proof. destruct r as [a|e]; [apply (stateless_ret a)|]. by intros u1 u2 Hu. Qed.

Lemma stateless_bind {A B} (c : st Utm A) (f : A → st Utm B) :
  stateless c → (∀ a, stateless (f a)) → stateless (c ≫= f).
Proof.
  intros Hc Hf u1 u2 Hu. specialize (Hc u1 u2 Hu). unfold mbind, st_bind.
  destruct (c u1) as [[a1 v1]|e1], (c u2) as [[a2 v2]|e2]; try done.
  destruct Hc as (-> & H1 & H2).
  assert (same_ellipsoid v1 v2) as Hv.
  { apply (same_ellipsoid_trans _ u1); [by apply same_ellipsoid_sym|].
    exact (same_ellipsoid_trans _ _ _ Hu H2). }
  specialize (Hf a2 v1 v2 Hv). destruct (f a2 v1) as [[b1 w1]|], (f a2 v2) as [[b2 w2]|]; try done.
  destruct Hf as (-> & H3 & H4). split; [done|]. split; [exact (same_ellipsoid_trans _ _ _ H1 H3)|exact (same_ellipsoid_trans _ _ _ H2 H4)].
Qed.

Lemma stateless_scan fuel i high step body :
  (∀ x, stateless (body x)) → stateless (scan fuel i high step body).
Proof.
  intros Hb. revert i. induction fuel as [|fuel IH]; intros i; cbn [scan]; [by intros u1 u2 Hu|].
  destruct (i <=? high)%D; [|apply stateless_ret]. apply stateless_bind; [done|].
  intros []; [apply stateless_ret|apply IH].
Qed.

Local Open Scope double_scope.

Section Stateless.
Context `{Libm}.

Lemma err_if_clear b e c : err_if b e c = 0%Z → c = 0%Z ∧ (e ≠ 0%Z → b = false).
Proof.
  unfold err_if. destruct b; [|done]. intros [-> ->]%Z.lor_eq_0_iff. done.
Qed.

Lemma utm_to_geodetic_agrees u1 u2 z h e n :
  same_ellipsoid u1 u2 →
  Convert_UTM_To_Geodetic u1 z h e n = Convert_UTM_To_Geodetic u2 z h e n ∨
  ∃ code, code ≠ 0%Z ∧ Convert_UTM_To_Geodetic u1 z h e n = Ok (code, None, u1) ∧
    Convert_UTM_To_Geodetic u2 z h e n = Ok (code, None, u2).
Proof.
  intros (Ea & Ef & Eo & Hok). unfold Convert_UTM_To_Geodetic.
  match goal with |- context [if (?c =? 0)%Z then _ else _] => destruct (Z.eqb_spec c 0) as [Hc|Hc] end.
  - left. repeat (apply err_if_clear in Hc as [Hc ?]).
    assert (1 <= z <= 60)%Z as Hz.
    { match goal with Hb : UTM_ZONE_ERROR ≠ 0%Z → _ |- _ => specialize (Hb ltac:(done)) as Hzone end. lia. }
    destruct u1 as [a f o tm1], u2 as [a' f' o' tm2]. cbn in Ea, Ef, Eo. subst a' f' o'.
    cbn [UTM_a UTM_f UTM_Override utm_tm].
    pose proof (utm_projection_fresh _ tm1 tm2 z (if Ascii.eqb h "S" then #10000000 else #0) Hok Hz) as E.
    cbn [UTM_a UTM_f] in E. by rewrite E.
  - right. eauto.
Qed.

Lemma utm_to_geodetic_keeps u z h e n code out u' :
  utm_ok u → Convert_UTM_To_Geodetic u z h e n = Ok (code, out, u') → same_ellipsoid u u'.
Proof.
  intros Hu. unfold Convert_UTM_To_Geodetic. cbv zeta.
  match goal with |- context [if (?c =? 0)%Z then _ else _] => destruct (c =? 0)%Z end.
  - destruct (Set_Transverse_Mercator_Parameters _ _ _ _ _ _ _ _) as [c tm].
    destruct (Convert_Transverse_Mercator_To_Geodetic tm e n) as [tc o].
    intros Hr. inv_ok Hr. injection Hr as <- <- <-. split_and!; [done..|apply Hu].
  - intros [= <- <- <-]. by apply same_ellipsoid_refl.
Qed.

Lemma get_height_stateless m x y : stateless (get_height m x y).
Proof.
  intros u1 u2 Hu. pose proof (proj2 (proj2 (proj2 Hu))) as H1. pose proof (stateless_ok _ _ Hu) as H2.
  unfold get_height, get_height_convert. destruct (isUtm m).
  - pose proof (utm_to_geodetic_keeps u1 (map_zone m) (map_hemisphere m) x y) as K1.
    pose proof (utm_to_geodetic_keeps u2 (map_zone m) (map_hemisphere m) x y) as K2.
    destruct (utm_to_geodetic_agrees u1 u2 (map_zone m) (map_hemisphere m) x y Hu) as
      [E|(code & Hc & E1 & E2)].
    + rewrite E in *. destruct (Convert_UTM_To_Geodetic u2 _ _ _ _) as [[[code out] u']|]; [|done].
      specialize (K1 code out u' H1 eq_refl). specialize (K2 code out u' H2 eq_refl).
      cbn [mbind result_bind mret result_ret].
      destruct (negb (code =? 0)%Z); [done|]. destruct (written out) as [yx|]; [|done].
      cbn [mbind result_bind mret result_ret].
      match goal with |- context [interpolate ?a ?b ?c] => by destruct (interpolate a b c) end.
    + rewrite E1, E2. cbn. rewrite (proj2 (Z.eqb_neq code 0) Hc). done.
  - destruct (interpolate m x y); [|done]. cbn. split; [done|]. split; by apply same_ellipsoid_refl.
Qed.

Lemma inside_condition_stateless fuel tolerance m vs :
  stateless (inside_condition fuel tolerance m vs).
Proof.
  unfold inside_condition. do 3 (apply stateless_bind; [apply stateless_lift|intros ?]). cbv zeta.
  apply stateless_scan. intros i. apply stateless_scan. intros j. unfold too_far.
  destruct (compute_barycentric_coords _ _ _ _) as [[b0 b1] b2].
  destruct (is_inside_triangle _); [|apply stateless_ret].
  apply stateless_bind; [apply get_height_stateless|]. intros h. apply stateless_ret.
Qed.
End Stateless.

(** ** The loop *)

Local Abbreviation mark := (updData (setToRefine true)).

Lemma mark_comm n k g : mark n (mark k g) = mark k (mark n g).
Proof.
  destruct (decide (n = k)) as [->|Hne]; [done|]. unfold updData, upd_node. cbn [nodes edge_mem].
  f_equal. apply list_eq. intros i.
  destruct (decide (i = n)) as [->|Hn]; [|destruct (decide (i = k)) as [->|Hk]];
    by rewrite ?list_lookup_alter_eq, ?list_lookup_alter_ne, ?list_lookup_alter_eq, ?list_lookup_alter_ne by congruence.
Qed.

Lemma marks_comm n l g : foldr mark (mark n g) l = mark n (foldr mark g l).
Proof. induction l as [|k l IH]; [done|]. cbn [foldr]. by rewrite IH, mark_comm. Qed.

Section Loop.
Context `{Libm}.
Context (fuel : nat) (cfg : Config) (m : Map).
Local Abbreviation op := (check_operator fuel cfg m).

(** The terrain deviates from the triangle [n] ([false] if that cannot be told). *)
Definition to_mark (r : Run) (n : GNode) : bool :=
  basicCondition (run_graph r) n &&
  match inside_condition fuel (tolerance cfg) m (getVerticesCoords (run_graph r) n) (run_utm r) with
  | Ok (deviating, _) => deviating
  | Err _ => false
  end.

(** The condition can be evaluated. *)
Definition can_tell (r : Run) (n : GNode) : Prop :=
  basicCondition (run_graph r) n = true →
  ∃ x, inside_condition fuel (tolerance cfg) m (getVerticesCoords (run_graph r) n) (run_utm r) = Ok x.

Lemma check_operator_marks r n r' pushed :
  utm_ok (run_utm r) → op r n = Ok (r', pushed) →
  pushed = [] ∧ run_files r' = run_files r ∧ same_ellipsoid (run_utm r) (run_utm r') ∧
  run_graph r' = if to_mark r n then mark n (run_graph r) else run_graph r.
Proof.
  intros Hu. unfold check_operator, to_mark. destruct (basicCondition (run_graph r) n) eqn:Hb.
  - apply basicCondition_interior in Hb as [Ha Hh]. unfold Terrain_execute. rewrite Hh. cbn [negb].
    intros Hr. inv_ok Hr. inv_ok Hr0. rewrite Hr1. destruct r1 as [b u'].
    pose proof (inside_condition_stateless fuel (tolerance cfg) m (getVerticesCoords (run_graph r) n)
      (run_utm r) (run_utm r) (same_ellipsoid_refl _ Hu)) as Hs. rewrite Hr1 in Hs. destruct Hs as (_ & Hs & _).
    destruct b; injection Hr0 as <-; injection Hr as <- <-; done.
  - intros [= <- <-]. cbn [andb]. by pose proof (same_ellipsoid_refl _ Hu).
Qed.

(** A visit changes neither what the condition says of any triangle, nor whether it
    can be told. *)
Lemma check_operator_keeps r n r' pushed k :
  utm_ok (run_utm r) → op r n = Ok (r', pushed) →
  to_mark r' k = to_mark r k ∧ (can_tell r k → can_tell r' k).
Proof.
  intros Hu Hr. destruct (check_operator_marks _ _ _ _ Hu Hr) as (_ & _ & Hs & _).
  assert (basicCondition (run_graph r') k = basicCondition (run_graph r) k ∧
    getVerticesCoords (run_graph r') k = getVerticesCoords (run_graph r) k) as [Eb Ev].
  { destruct (check_alike _ _ _ _ _ _ _ Hr) as [->|Ha]; [done|].
    unfold basicCondition, containsNode, getVerticesCoords.
    rewrite (al_active _ _ Ha), (al_hyper _ _ Ha), (al_neighbours _ _ Ha). split; [done|].
    apply list_fmap_ext. intros i x _. apply Ha. }
  unfold to_mark, can_tell. rewrite Eb, Ev.
  pose proof (inside_condition_stateless fuel (tolerance cfg) m (getVerticesCoords (run_graph r) k)
    (run_utm r) (run_utm r') Hs) as Hst.
  destruct (inside_condition _ _ _ _ (run_utm r)) as [[b1 v1]|], (inside_condition _ _ _ _ (run_utm r'))
    as [[b2 v2]|]; try done.
  - destruct Hst as (-> & _). split; [done|]. eauto.
  - split; [done|]. intros Ht Hb. by destruct (Ht Hb).
Qed.

Lemma marking_run l r r' :
  utm_ok (run_utm r) → for_each op l r r' →
  run_graph r' = foldr mark (run_graph r) (filter (λ n, to_mark r n = true) l) ∧
  run_files r' = run_files r.
Proof.
  unfold for_each. intros Hu Hr. remember (r, l) as x. remember (r', []) as y.
  revert r l r' Hu Heqx Heqy. induction Hr as [|x y z Hv _ IH]; intros r l r' Hu -> Hy.
  { by injection Hy as -> ->. }
  inversion Hv as [s l1 n l2 r1 pushed Hop]; subst.
  destruct (check_operator_marks _ _ _ _ Hu Hop) as (-> & Hf & Hs & Hg).
  destruct (IH r1 (l1 ++ l2 ++ [])%list r') as [IHg IHf]; [by eapply stateless_ok|done|done|].
  split; [|congruence]. rewrite IHg, app_nil_r.
  rewrite (list_filter_iff _ (λ k, to_mark r k = true) (l1 ++ l2))
    by (intros k; by rewrite (proj1 (check_operator_keeps _ _ _ _ k Hu Hop))).
  rewrite !list.filter_app, filter_cons, Hg. destruct (to_mark r n); simpl.
  - rewrite !foldr_app. cbn [foldr]. by rewrite marks_comm, marks_comm.
  - done.
Qed.

Lemma marking_total l r :
  utm_ok (run_utm r) → (∀ n, n ∈ l → can_tell r n) → ∃ r', for_each op l r r'.
Proof.
  revert r. induction l as [|n l IH]; intros r Hu Hl; [exists r; apply rtc_refl|].
  assert (∃ r1, op r n = Ok (r1, [])) as [r1 Hop].
  { specialize (Hl n ltac:(by left)). unfold can_tell in Hl. unfold check_operator.
    destruct (basicCondition (run_graph r) n) eqn:Hb; [|by eexists].
    destruct (Hl eq_refl) as [[b u'] Hi]. apply basicCondition_interior in Hb as [_ Hh].
    unfold Terrain_execute. rewrite Hh, Hi. cbn. destruct b; by eexists. }
  destruct (check_operator_marks _ _ _ _ Hu Hop) as (_ & _ & Hs & _).
  destruct (IH r1) as [r' Hr']; [by eapply stateless_ok| |].
  - intros k Hk. apply (check_operator_keeps _ _ _ _ k Hu Hop). apply Hl. by right.
  - exists r'. eapply rtc_l; [apply (visit_node op r [] n l r1 [] Hop)|]. by rewrite app_nil_l, app_nil_r.
Qed.
End Loop.

(** C19: the marking loop of [main] does the same in every order.  If the condition can be
    evaluated for the triangles of the worklist, the loop has complete runs, and after
    each of them the graph is the one before with exactly those triangles of the worklist
    marked in addition from which the terrain deviates by more than the tolerance, as
    judged before the loop; no file was written.  In particular neither the order of the
    visits nor what they leave in the variables of the projection matters. *)
Theorem marking_pass `{Libm} (fuel : nat) (cfg : Config) (m : Map) (r : Run) (l : list GNode) :
  utm_ok (run_utm r) → (∀ n, n ∈ l → can_tell fuel cfg m r n) →
  (∃ r', for_each (check_operator fuel cfg m) l r r') ∧
  ∀ r', for_each (check_operator fuel cfg m) l r r' →
    run_graph r' = foldr (updData (setToRefine true)) (run_graph r)
      (filter (λ n, to_mark fuel cfg m r n = true) l) ∧
    run_files r' = run_files r.
Proof.
  intros Hu Hl. split; [by apply marking_total|]. intros r' Hr. by apply marking_run.
Qed.

Definition above_config : Config :=
  mkConfig #1 false 14 1 false #2 #0 #2 #0 "data" false EmptyString "out.mgf".

Lemma marking_pass_witness :
  let r := mkRun above_ground Utm_init [] in
  (∃ r', for_each (@check_operator Libm_zero 5 above_config flat_map) [3; 0; 1; 2] r r') ∧
  ∀ r', for_each (@check_operator Libm_zero 5 above_config flat_map) [3; 0; 1; 2] r r' →
    run_graph r' = updData (setToRefine true) 3 above_ground.
Proof.
  intros r.
  destruct (@marking_pass Libm_zero 5 above_config flat_map r [3; 0; 1; 2]) as [Ht Hall].
  - split_and!; vm_compute; reflexivity || discriminate.
  - intros n Hn. apply list_elem_of_In in Hn. unfold can_tell.
    destruct Hn as [<-|[<-|[<-|[<-|[]]]]]; try (intros Hb; vm_compute in Hb; discriminate Hb).
    intros _. eexists. vm_compute. reflexivity.
  - split; [exact Ht|]. intros r' Hr. destruct (Hall r' Hr) as [-> _].
    replace (filter (λ n, @to_mark Libm_zero 5 above_config flat_map r n = true) [3; 0; 1; 2]) with [3]
      by (vm_compute; reflexivity). reflexivity.
Defined.
