(* ===== verification/Termination.v ===== *)
(** * The refinement pass ends

    Each application of a production replaces a triangle by two.  When the sides these
    get are shorter than the side that was cut, the number of applications that a mesh
    admits is bounded, whatever the order of the visits: a triangle counts with a weight
    for each side, which grows fast enough with the length to outweigh the shorter ones. *)
From Stdlib Require Import SpecFloat.
From stdpp Require Import gmap sets relations.
From S2P Require Import Prelude Double Rounding NumUtils Model MorphGraph GraphFacts GraphSpec.
From S2P Require Import Connectivity ConnFacts Production Productions Mesh Break.
From S2P Require Import ProductionFacts MeshCheck Generator Euler Refine Grammar.
From S2P Require Import Conformity ConformityCheck Invariant Driver.

(** ** Lengths are multiples of 2^-1074 *)

Lemma shr_exponent mrs e n : (e <= snd (shr mrs e n))%Z ∧ (e + n <= snd (shr mrs e n))%Z.
Proof. unfold shr. destruct n as [|p|p]; cbn [snd]; lia. Qed.

Lemma fexp_min k : (-1074 <= fexp prec emax k)%Z.
Proof. unfold fexp, emin. change prec with 53%Z. change emax with 1024%Z. lia. Qed.

Lemma shr_fexp_exponent m e l : (-1074 <= snd (shr_fexp prec emax m e l))%Z.
Proof.
  unfold shr_fexp. destruct (shr_exponent (shr_record_of_loc m l) e (fexp prec emax (Zdigits2 m + e) - e)).
  pose proof (fexp_min (Zdigits2 m + e)). lia.
Qed.

Lemma round_aux_exponent s m e l : (-1074 <= exponent (binary_round_aux prec emax s m e l))%Z.
Proof.
  unfold binary_round_aux. destruct (shr_fexp prec emax m e l) as [mrs' e'].
  match goal with |- context [shr_fexp prec emax ?m1 ?e1 ?l1] =>
    pose proof (shr_fexp_exponent m1 e1 l1) as H; destruct (shr_fexp prec emax m1 e1 l1) as [mrs2 e2] end.
  cbn [snd] in H. destruct (shr_m mrs2); [cbn; lia| |cbn; lia]. destruct (_ <=? _)%Z; cbn; lia.
Qed.

Lemma dist_exponent p q v2d : (-1074 <= exponent (dist p q v2d))%Z.
Proof.
  assert (∀ x, (-1074 <= exponent (dsqrt x))%Z) as H; [|destruct v2d; apply H].
  intros [s|[]| |[] m e]; unfold dsqrt; cbn [SFsqrt exponent]; try lia.
  destruct (SFsqrt_core_binary _ _ _ _) as [[mz ez] lz]. apply round_aux_exponent.
Qed.

(** The length as a number of these. *)
Definition rank (x : double) : nat := Z.to_nat (at_exp (-1074) x).

Lemma rank_lt p q p' q' v2d :
  dlt (dist p q v2d) (dist p' q' v2d) = true → is_finite (dist p' q' v2d) = true →
  rank (dist p q v2d) < rank (dist p' q' v2d).
Proof.
  intros Hlt Hf. pose proof (dist_nonneg p q v2d) as Hn. pose proof (dist_exponent p q v2d) as He.
  pose proof (dist_exponent p' q' v2d) as He'. apply dcompare_Lt in Hlt. unfold rank.
  set (x := dist p q v2d) in *. set (y := dist p' q' v2d) in *. clearbody x y.
  assert (is_finite x = true) as Hx by (destruct x as [|[]| |], y; done).
  rewrite (dcompare_finite (-1074)) in Hlt by done. injection Hlt as Hlt.
  assert (0 <= at_exp (-1074) x)%Z.
  { unfold at_exp. apply Z.mul_nonneg_nonneg; [|apply Z.pow_nonneg; lia].
    destruct x as [| | |[] m e]; try discriminate; cbn; lia. }
  rewrite Z.compare_lt_iff in Hlt. lia.
Qed.

Lemma sqr_opposite x y : sqr (dsub x y) = sqr (dsub y x).
Proof.
  destruct (dsub_opposite x y) as [->|(s & s' & -> & ->)]; [|by destruct s, s'].
  unfold sqr, dmul. destruct (dsub x y) as [[]|[]| |[] m e]; done.
Qed.

Lemma dist_sym p q v2d : dist p q v2d = dist q p v2d.
Proof.
  unfold dist, dist2D, dist3D. rewrite (sqr_opposite (getX p)), (sqr_opposite (getY p)).
  by rewrite (sqr_opposite (getZ p)).
Qed.

(** ** The weight of a mesh *)

Section Weight.
Context (v2d : bool).

(** The distance of two vertices. *)
Definition apart (g : Graph) (x y : GNode) : double :=
  dist (getCoords (getData g x)) (getCoords (getData g y)) v2d.

Definition cost (g : Graph) (x y : GNode) : nat := 5 ^ rank (apart g x y).

Definition weight (g : Graph) (h : GNode) : nat :=
  match getNeighbours g h with
  | [a; b; c] => cost g a b + cost g b c + cost g c a
  | _ => 0
  end.

Definition effort (g : Graph) : nat := sum_list_with (weight g) (elements (F_of g)).

Lemma cost_sym g x y : cost g x y = cost g y x.
Proof. unfold cost, apart. by rewrite dist_sym. Qed.

Lemma weight_tri g h a b c :
  mesh_ok g → tri g h a b c → weight g h = cost g a b + cost g b c + cost g c a.
Proof.
  intros Hm Ht. pose proof (tri_orders _ _ _ _ _ Hm Ht) as Ho. unfold weight.
  destruct (getNeighbours g h) as [|x [|y [|z []]]]; try by apply elem_of_nil in Ho.
  cbn [orders] in Ho. rewrite !elem_of_cons, list.elem_of_nil in Ho.
  pose proof (cost_sym g x y). pose proof (cost_sym g y z). pose proof (cost_sym g z x).
  destruct_or! Ho; injection Ho as -> -> ->; lia.
Qed.

Lemma interior_tri g h : mesh_ok g → is_interior g h → ∃ a b c, tri g h a b c.
Proof.
  intros Hm Hh. destruct (mo_triangle _ Hm h Hh) as (a & b & c & Hn & _).
  exists a, b, c. apply tri_neighbours; [done| |done].
  rewrite <- Hn. apply getNeighbours_NoDup, mo_wf, Hm.
Qed.

(** The sides that the two new triangles do not share with the old one are shorter than
    the side that was cut. *)
Definition shrinks (g g' : Graph) : Prop :=
  ∀ i m a b c t1 t2,
    tri g i a b c → ¬ is_interior g' i → tri g' t1 m c a → tri g' t2 m c b →
    ¬ is_interior g t1 → ¬ is_interior g t2 →
    is_finite (apart g' a b) = true ∧ dlt (apart g' m a) (apart g' a b) = true ∧
    dlt (apart g' m b) (apart g' a b) = true ∧ dlt (apart g' m c) (apart g' a b) = true.

Section Replaced.
Context (g g' : Graph) (i m a b c t1 t2 : GNode).
Hypothesis Hm : mesh_ok g.
Hypothesis Hr : replaced g g' i m a b c t1 t2.
Hypothesis Hs : shrinks g g'.

Let Hm' : mesh_ok g' := rp_mesh _ _ _ _ _ _ _ _ _ Hr.

Lemma replaced_gone : ¬ is_interior g' i ∧ ¬ is_interior g t1 ∧ ¬ is_interior g t2 ∧ t1 ≠ t2.
Proof.
  pose proof (rp_tri _ _ _ _ _ _ _ _ _ Hr) as Ht. pose proof (rp_t1 _ _ _ _ _ _ _ _ _ Hr) as H1.
  pose proof (rp_t2 _ _ _ _ _ _ _ _ _ Hr) as H2.
  assert (∀ h, is_interior g h → h ≠ t1 ∧ h ≠ t2) as Hf by apply (rp_fresh _ _ _ _ _ _ _ _ _ Hr).
  split_and!.
  - intros (x & y & z & Hi)%interior_tri; [|done]. destruct (Hf i) as [N1 N2]; [apply Ht|].
    by apply (rp_old _ _ _ _ _ _ _ _ _ Hr i x y z N1 N2) in Hi as [? _].
  - intros H. by destruct (Hf _ H).
  - intros H. by destruct (Hf _ H).
  - intros <-. destruct (tri_distinct _ _ _ _ _ Ht) as (Hab & _).
    pose proof (proj2 (tri_corner _ _ _ _ _ b H2) ltac:(tauto)) as Hb.
    apply (tri_corner _ _ _ _ _ b H1) in Hb. destruct (tri_distinct _ _ _ _ _ H2) as (? & ? & ?).
    intuition congruence.
Qed.

Lemma replaced_interiors : F_of g' = {[t1; t2]} ∪ F_of g ∖ {[i]}.
Proof.
  destruct replaced_gone as (Hi & H1 & H2 & _). apply leibniz_equiv, set_equiv. intros h.
  rewrite elem_of_union, elem_of_difference, !elem_of_union, !elem_of_singleton, !elem_of_F.
  destruct (decide (h = t1)) as [->|N1]; [split; [tauto|]; intros _; apply (rp_t1 _ _ _ _ _ _ _ _ _ Hr)|].
  destruct (decide (h = t2)) as [->|N2]; [split; [tauto|]; intros _; apply (rp_t2 _ _ _ _ _ _ _ _ _ Hr)|].
  split.
  - intros (x & y & z & Ht)%interior_tri; [|done].
    apply (rp_old _ _ _ _ _ _ _ _ _ Hr h x y z N1 N2) in Ht as [? Ht]. right. split; [apply Ht|done].
  - intros [[]|[Hh Hhi]]; [done|done|]. destruct (interior_tri g h Hm Hh) as (x & y & z & Ht).
    by apply (proj2 (rp_old _ _ _ _ _ _ _ _ _ Hr h x y z N1 N2) (conj Hhi Ht)).
Qed.

Lemma replaced_cost x y : is_vertex g x → is_vertex g y → cost g' x y = cost g x y.
Proof. intros Hx Hy. unfold cost, apart. by rewrite !(rp_coords _ _ _ _ _ _ _ _ _ Hr) by done. Qed.

Lemma replaced_weight h : is_interior g h → h ≠ i → weight g' h = weight g h.
Proof.
  intros Hh Hhi. destruct (interior_tri g h Hm Hh) as (x & y & z & Ht).
  destruct (rp_fresh _ _ _ _ _ _ _ _ _ Hr h Hh) as [N1 N2].
  pose proof (proj2 (rp_old _ _ _ _ _ _ _ _ _ Hr h x y z N1 N2) (conj Hhi Ht)) as Ht'.
  destruct (tri_vertices _ _ _ _ _ Hm Ht) as (? & ? & ?).
  rewrite (weight_tri g' h x y z), (weight_tri g h x y z), !replaced_cost by done. done.
Qed.

Lemma shorter_cost x y u v :
  dlt (apart g' x y) (apart g' u v) = true → is_finite (apart g' u v) = true →
  5 * cost g' x y <= cost g' u v.
Proof.
  intros Hlt Hf. pose proof (rank_lt _ _ _ _ _ Hlt Hf) as H. unfold cost.
  rewrite <- Nat.pow_succ_r'. apply Nat.pow_le_mono_r; [lia|exact H].
Qed.

Lemma parts_weight : weight g' t1 + weight g' t2 < weight g i.
Proof.
  pose proof (rp_tri _ _ _ _ _ _ _ _ _ Hr) as Ht. pose proof (rp_t1 _ _ _ _ _ _ _ _ _ Hr) as H1.
  pose proof (rp_t2 _ _ _ _ _ _ _ _ _ Hr) as H2. destruct replaced_gone as (G1 & G2 & G3 & _).
  destruct (Hs i m a b c t1 t2 Ht G1 H1 H2 G2 G3) as (Hf & La & Lb & Lc).
  apply shorter_cost in La, Lb, Lc; [|done..].
  destruct (tri_vertices _ _ _ _ _ Hm Ht) as (Va & Vb & Vc).
  rewrite (weight_tri g' t1 m c a), (weight_tri g' t2 m c b), (weight_tri g i a b c) by done.
  rewrite <- !(replaced_cost _ _) by done.
  pose proof (cost_sym g' m a). pose proof (cost_sym g' m b). pose proof (cost_sym g' c b).
  assert (0 < cost g' m c) by (unfold cost; apply Nat.neq_0_lt_0, Nat.pow_nonzero; lia). lia.
Qed.

Lemma effort_decreases : effort g' < effort g.
Proof.
  pose proof (rp_tri _ _ _ _ _ _ _ _ _ Hr) as Ht. destruct replaced_gone as (G1 & G2 & G3 & G4).
  pose proof parts_weight as Hw. unfold effort.
  assert (elements (F_of g) ≡ₚ i :: elements (F_of g ∖ {[i]})) as ->.
  { rewrite <- elements_union_singleton by set_solver. apply elements_proper. intros h.
    rewrite elem_of_union, elem_of_difference, elem_of_singleton, !elem_of_F.
    destruct (decide (h = i)) as [->|]; [|tauto]. pose proof (proj1 Ht). tauto. }
  assert (elements (F_of g') ≡ₚ t1 :: t2 :: elements (F_of g ∖ {[i]})) as ->.
  { rewrite replaced_interiors, <- assoc_L by apply _.
    rewrite !elements_union_singleton; [done|..]; rewrite ?elem_of_union, ?elem_of_difference,
      ?elem_of_singleton, !elem_of_F; tauto. }
  cbn [sum_list_with].
  assert (sum_list_with (weight g') (elements (F_of g ∖ {[i]})) =
          sum_list_with (weight g) (elements (F_of g ∖ {[i]}))) as ->; [|lia].
  assert (∀ h, h ∈ elements (F_of g ∖ {[i]}) → weight g' h = weight g h) as He.
  { intros h. rewrite elem_of_elements, elem_of_difference, elem_of_singleton, elem_of_F.
    intros [Hh Hn]. by apply replaced_weight. }
  induction (elements _) as [|h l IH]; [done|]. cbn [sum_list_with].
  rewrite He by (by left). f_equal. apply IH. intros k Hk. apply He. by right.
Qed.
End Replaced.
End Weight.

(** ** Runs of the pass *)

Section Pass.
Context (v2d : bool) (zg : double → double → result double).

Local Abbreviation operator := (grammar_operator v2d zg).

(** A run of [k] visits, on the graphs of which midpoints identify vertices, the terrain
    has heights, and cuts shorten the sides. *)
Inductive tame_run : nat → Graph * list GNode → Graph * list GNode → Prop :=
  | tame_end g l :
      plain g → has_heights g zg → tame_run 0 (g, l) (g, l)
  | tame_visit k g l g1 l1 s :
      plain g → has_heights g zg → visit operator (g, l) (g1, l1) → shrinks v2d g g1 →
      tame_run k (g1, l1) s → tame_run (S k) (g, l) s.

(** A visit leaves the graph as it is, or replaces a triangle and pushes at most three
    nodes. *)
Lemma operator_run g n :
  conformal g → plain g → has_heights g zg →
  ∃ g' pushed, operator g n = Ok (g', pushed) ∧
    (g' = g ∧ pushed = [] ∨
     length pushed <= 3 ∧ (plain g' → conformal g') ∧
     ∃ i m a b c t1 t2, replaced g g' i m a b c t1 t2).
Proof.
  intros Hc Hp Hz. pose proof (cf_mesh _ Hc) as Hm. unfold grammar_operator.
  destruct (refine_node_run v2d zg g n [] Hm) as [->|(ps & w & -> & Hi & Hps & _ & Href & _ & _)].
  - by apply conformal_ready.
  - exists g, []. split; [done|by left].
  - exists (w_graph w), (w_ctx w). split; [done|]. right.
    destruct (mkProductionState_run g n v2d zg Hm Hi) as (ps' & Hps' & Ht & _).
    rewrite Hps in Hps'. injection Hps' as <-. split_and!.
    + destruct Href as (e & _ & [[(a & b & c & d & z & g' & _ & _ & -> & _) _]|
        (a & b & c & m & g' & _ & _ & _ & -> & _)]); cbn; lia.
    + by apply (refined_conformal g [] ps).
    + destruct (refined_replaced g [] ps Hc Hp Ht w Href) as (i & m & a & b & c & t1 & t2 & _ & Hr & _).
      by exists i, m, a, b, c, t1, t2.
Qed.

Lemma tame_run_bounded k s s' :
  conformal s.1 → tame_run k s s' →
  conformal s'.1 ∧ k + length s'.2 + 3 * effort v2d s'.1 <= length s.2 + 3 * effort v2d s.1.
Proof.
  intros Hc Hr. induction Hr as [g l _ _|k g l g1 l1 s Hp Hz Hv Hs Hr IH]; cbn [fst snd] in *; [split; [done|lia]|].
  inversion Hv as [g0 k1 n k2 g1' pushed Hop]; subst.
  destruct (operator_run g n Hc Hp Hz) as (g2 & p2 & Hop' & Hor). rewrite Hop in Hop'.
  injection Hop' as <- <-. rewrite !length_app in *. cbn [length] in *.
  destruct Hor as [[-> ->]|(Hlen & Hcf & i & m & a & b & c & t1 & t2 & Hrep)].
  - destruct (IH Hc) as [Hc' Hb]. cbn [length] in Hb. split; [done|lia].
  - assert (plain g1) as Hp1 by (by inversion Hr).
    pose proof (effort_decreases v2d g g1 i m a b c t1 t2 (cf_mesh _ Hc) Hrep Hs).
    destruct (IH (Hcf Hp1)) as [Hc' Hb]. split; [done|lia].
Qed.

Lemma tame_run_end k s s' : tame_run k s s' → plain s'.1 ∧ has_heights s'.1 zg.
Proof. by induction 1. Qed.
End Pass.


(** ** A run by evaluation *)

Definition for_new (g g' : Graph) (f : GNode → GNode → GNode → bool) : bool :=
  forallb (λ t, if is_interiorb g' t && negb (is_interiorb g t)
    then forallb (λ '(a, b, c), f a b c) (orders (getNeighbours g' t)) else true) (node_ids g').

Lemma for_new_spec g g' f t a b c :
  mesh_ok g' → for_new g g' f = true → tri g' t a b c → ¬ is_interior g t → f a b c = true.
Proof.
  intros Hm Hf Ht Hn. pose proof (proj1 Ht) as Hi.
  apply (forallb_in _ _ t) in Hf; [|by apply elem_of_node_ids, active_lt, Hi].
  cbv beta in Hf. rewrite (proj2 (is_interiorb_spec g' t) Hi) in Hf.
  destruct (is_interiorb g t) eqn:E; [by apply is_interiorb_spec in E|]. cbn [andb negb] in Hf.
  by apply (forallb_in _ _ (a, b, c)) in Hf; [|by apply tri_orders].
Qed.

Definition shrinksb (v2d : bool) (g g' : Graph) : bool :=
  for_new g' g (λ a b c, for_new g g' (λ m c' a', for_new g g' (λ m' c'' b',
    if bool_decide (c' = c ∧ a' = a ∧ m' = m ∧ c'' = c ∧ b' = b) then
      is_finite (apart v2d g' a b) && dlt (apart v2d g' m a) (apart v2d g' a b) &&
      dlt (apart v2d g' m b) (apart v2d g' a b) && dlt (apart v2d g' m c) (apart v2d g' a b)
    else true))).

Lemma shrinksb_sound v2d g g' : mesh_ok g → mesh_ok g' → shrinksb v2d g g' = true → shrinks v2d g g'.
Proof.
  intros Hm Hm' H i m a b c t1 t2 Ht Hi H1 H2 N1 N2.
  pose proof (for_new_spec _ _ _ _ _ _ _ Hm H Ht Hi) as Ha. cbv beta in Ha.
  pose proof (for_new_spec _ _ _ _ _ _ _ Hm' Ha H1 N1) as Hb. cbv beta in Hb.
  pose proof (for_new_spec _ _ _ _ _ _ _ Hm' Hb H2 N2) as Hc. cbv beta in Hc.
  rewrite bool_decide_eq_true_2 in Hc by done.
  rewrite !andb_true_iff in Hc. tauto.
Qed.

Definition tameb (zg : double → double → result double) (g : Graph) : bool :=
  mesh_okb g && plainb g && has_heightsb g zg.

(** The run that takes the nodes in the order of the worklist: its length and its end. *)
Fixpoint tame_fifo (v2d : bool) (zg : double → double → result double) (fuel : nat)
    (l : list GNode) (g : Graph) : option (nat * Graph) :=
  if negb (tameb zg g) then None
  else
    match fuel, l with
    | _, [] => Some (0, g)
    | O, _ => None
    | S fuel', n :: l' =>
        match grammar_operator v2d zg g n with
        | Ok (g1, pushed) =>
            if mesh_okb g1 && shrinksb v2d g g1 then
              '(k, g') ← tame_fifo v2d zg fuel' (l' ++ pushed) g1; Some (S k, g')
            else None
        | Err _ => None
        end
    end.

Lemma tame_fifo_run v2d zg fuel l g k g' :
  tame_fifo v2d zg fuel l g = Some (k, g') → tame_run v2d zg k (g, l) (g', []).
Proof.
  revert l g k. induction fuel as [|fuel IH]; intros l g k; cbn [tame_fifo];
    destruct (tameb zg g) eqn:Et; try done; cbn [negb];
    apply andb_prop in Et as [[Hm%mesh_okb_sound Hp]%andb_prop Hz];
    apply plainb_sound in Hp; try done; apply has_heightsb_sound in Hz; try done.
  - destruct l; [|done]. intros [= <- <-]. by constructor.
  - destruct l as [|n l]; [intros [= <- <-]; by constructor|].
    destruct (grammar_operator v2d zg g n) as [[g1 pushed]|] eqn:Hop; [|done].
    destruct (mesh_okb g1 && shrinksb v2d g g1) eqn:Es; [|done].
    apply andb_prop in Es as [Hm1%mesh_okb_sound Hs].
    destruct (tame_fifo v2d zg fuel (l ++ pushed) g1) as [[k1 g2]|] eqn:Er; [|done].
    intros [= <- <-]. eapply (tame_visit v2d zg k1 g (n :: l) g1 (l ++ pushed)); try done.
    + by apply (visit_node _ g [] n l).
    + by apply shrinksb_sound.
    + by apply IH.
Qed.

(** On the square of two triangles with one of them marked. *)
Lemma half_marked_conformal : conformal half_marked.
Proof.
  assert (mesh_ok square_mesh) as Hm by apply square_mesh_initial.
  apply (alike_conformal square_mesh); [by apply mark_alike|].
  apply (initial_conformal true); [apply square_mesh_initial|].
  apply plainb_sound; [done|vm_compute; reflexivity].
Qed.

