(* ===== verification/FixedSizeRing.v ===== *)
(** * [libgalois/include/galois/FixedSizeRing.h] and [LazyArray.h]

    The two bounded containers on which the chunks of the worklists, [gdeque] and
    [gslist] are built: [FixedSizeBag], a stack, and [FixedSizeRing], a deque in a
    circular buffer.  Their storage is a [LazyArray], whose elements are constructed and
    destroyed one by one; to read or destroy one that is not constructed is undefined.
    [ChunkSize] is at most 2^31, so that no sum of two indices wraps around. *)
From stdpp Require Import list.
From S2P Require Import Prelude.

(** ** [LazyArray] *)

Abbreviation LazyArray T := (list (option T)).

Section LazyArray.
Context {T : Type}.

Definition la_emplace (n : nat) (v : T) (a : LazyArray T) : result (LazyArray T) :=
  if decide (n < length a) then Ok (<[n := Some v]> a) else Err UB.
Definition la_destroy (n : nat) (a : LazyArray T) : result (LazyArray T) :=
  match a !! n with Some (Some _) => Ok (<[n := None]> a) | _ => Err UB end.
Definition la_get (n : nat) (a : LazyArray T) : result T :=
  match a !! n with Some (Some v) => Ok v | _ => Err UB end.

Lemma la_destroy_Ok n a v : a !! n = Some (Some v) → la_destroy n a = Ok (<[n := None]> a).
Proof. intros E. unfold la_destroy. by rewrite E. Qed.
Lemma la_get_Ok n a v : a !! n = Some (Some v) → la_get n a = Ok v.
Proof. intros E. unfold la_get. by rewrite E. Qed.
End LazyArray.

(** [for (x = 0; x < k; ++x) destroy(f(x))] *)
Fixpoint destroy_all {T} (l : list nat) (a : LazyArray T) : result (LazyArray T) :=
  match l with
  | [] => Ok a
  | n :: l' => a ← la_destroy n a; destroy_all l' a
  end.

(** [assert] *)
Definition assert (b : bool) : result unit := if b then Ok tt else Err AssertFail.

(** ** [FixedSizeBag] *)

Module Bag.
Section Bag.
Context {T : Type} (ChunkSize : nat).

Record FixedSizeBag := mkBag { datac : LazyArray T; count : nat }.

Definition bag_precondition (b : FixedSizeBag) : bool := count b <=? ChunkSize.
Definition new_bag : FixedSizeBag := mkBag (replicate ChunkSize None) 0.

Definition bag_size (b : FixedSizeBag) : result nat := assert (bag_precondition b);; Ok (count b).
Definition bag_empty (b : FixedSizeBag) : result bool := assert (bag_precondition b);; Ok (count b =? 0).
Definition bag_full (b : FixedSizeBag) : result bool :=
  assert (bag_precondition b);; Ok (count b =? ChunkSize).

Definition bag_clear (b : FixedSizeBag) : result FixedSizeBag :=
  assert (bag_precondition b);;
  a ← destroy_all (seq 0 (count b)) (datac b);
  Ok (mkBag a 0).

(** The address of the new element, or null when the bag is full. *)
Definition bag_emplace_front (v : T) (b : FixedSizeBag) : result (option nat * FixedSizeBag) :=
  f ← bag_full b;
  if (f : bool) then Ok (None, b)
  else
    a ← la_emplace (count b) v (datac b);
    Ok (Some (count b), mkBag a (S (count b))).

Definition bag_front (b : FixedSizeBag) : result T :=
  assert (bag_precondition b);;
  e ← bag_empty b; assert (negb e);;
  la_get (count b - 1) (datac b).

(** The version that is not concurrent. *)
Definition bag_pop_front (b : FixedSizeBag) : result (bool * FixedSizeBag) :=
  if count b =? 0 then Ok (false, b)
  else
    a ← la_destroy (count b - 1) (datac b);
    Ok (true, mkBag a (count b - 1)).

(** The concurrent version, without interference: the exchange succeeds at once. *)
Definition concurrent_pop_front (b : FixedSizeBag) : result (bool * FixedSizeBag) :=
  let top := count b in
  if top =? 0 then Ok (false, b)
  else
    a ← la_destroy top (datac b);
    Ok (true, mkBag a (top - 1)).

Definition concurrent_push_front (v : T) (b : FixedSizeBag) : result (option nat * FixedSizeBag) :=
  let top := count b in
  if ChunkSize <=? top then Ok (None, b)
  else
    a ← la_emplace top v (datac b);
    Ok (Some top, mkBag a (S top)).

Definition bag_extract_front (b : FixedSizeBag) : result (option T * FixedSizeBag) :=
  e ← bag_empty b;
  if (e : bool) then Ok (None, b)
  else
    v ← bag_front b;
    r ← bag_pop_front b;
    Ok (Some v, r.2).

(** From [begin()] to [end()]: the addresses from the last to the first. *)
Definition bag_elements (b : FixedSizeBag) : result (list T) :=
  mapM (λ i, la_get (count b - 1 - i) (datac b)) (seq 0 (count b)).
End Bag.
Arguments FixedSizeBag : clear implicits.
End Bag.

(** ** [FixedSizeRing] *)

Section Ring.
Context {T : Type} (ChunkSize : nat) (T_default : T).

Record FixedSizeRing := mkRing { datac : LazyArray T; start : nat; count : nat }.

Definition precondition (r : FixedSizeRing) : bool :=
  (count r <=? ChunkSize) && (start r <=? ChunkSize).

Definition new_ring : FixedSizeRing := mkRing (replicate ChunkSize None) 0 0.

(** [FixedSizeRing(first, last)] over the values of a range. *)
Fixpoint ring_fill (l : list T) (r : FixedSizeRing) : result FixedSizeRing :=
  match l with
  | [] => Ok r
  | v :: l' =>
      assert (count r <? ChunkSize);;
      a ← la_emplace (count r) v (datac r);
      ring_fill l' (mkRing a (start r) (S (count r)))
  end.
Definition ring_of_range (l : list T) : result FixedSizeRing := ring_fill l new_ring.

Definition ring_size (r : FixedSizeRing) : result nat := assert (precondition r);; Ok (count r).
Definition ring_empty (r : FixedSizeRing) : result bool :=
  assert (precondition r);; Ok (count r =? 0).
Definition ring_full (r : FixedSizeRing) : result bool :=
  assert (precondition r);; Ok (count r =? ChunkSize).

Definition getAt (x : nat) (r : FixedSizeRing) : result T :=
  assert (precondition r);;
  e ← ring_empty r; assert (negb e);;
  la_get ((start r + x) mod ChunkSize) (datac r).

Definition ring_clear (r : FixedSizeRing) : result FixedSizeRing :=
  assert (precondition r);;
  a ← destroy_all (List.map (λ x, (start r + x) mod ChunkSize) (seq 0 (count r))) (datac r);
  Ok (mkRing a 0 0).

Definition ring_emplace_front (v : T) (r : FixedSizeRing) : result (option nat * FixedSizeRing) :=
  f ← ring_full r;
  if (f : bool) then Ok (None, r)
  else
    let start' := (start r + ChunkSize - 1) mod ChunkSize in
    a ← la_emplace start' v (datac r);
    Ok (Some start', mkRing a start' (S (count r))).

Definition ring_emplace_back (v : T) (r : FixedSizeRing) : result (option nat * FixedSizeRing) :=
  f ← ring_full r;
  if (f : bool) then Ok (None, r)
  else
    let end_ := (start r + count r) mod ChunkSize in
    a ← la_emplace end_ v (datac r);
    Ok (Some end_, mkRing a (start r) (S (count r))).

Definition ring_front (r : FixedSizeRing) : result T :=
  assert (precondition r);;
  e ← ring_empty r; assert (negb e);;
  la_get (start r) (datac r).

Definition ring_back (r : FixedSizeRing) : result T :=
  assert (precondition r);;
  e ← ring_empty r; assert (negb e);;
  la_get ((start r + count r - 1) mod ChunkSize) (datac r).

Definition ring_pop_front (r : FixedSizeRing) : result FixedSizeRing :=
  assert (precondition r);;
  e ← ring_empty r; assert (negb e);;
  a ← la_destroy (start r) (datac r);
  Ok (mkRing a ((start r + 1) mod ChunkSize) (count r - 1)).

Definition ring_pop_back (r : FixedSizeRing) : result FixedSizeRing :=
  assert (precondition r);;
  e ← ring_empty r; assert (negb e);;
  a ← la_destroy ((start r + count r - 1) mod ChunkSize) (datac r);
  Ok (mkRing a (start r) (count r - 1)).

Definition ring_extract_front (r : FixedSizeRing) : result (option T * FixedSizeRing) :=
  e ← ring_empty r;
  if (e : bool) then Ok (None, r)
  else v ← ring_front r; r' ← ring_pop_front r; Ok (Some v, r').

Definition ring_extract_back (r : FixedSizeRing) : result (option T * FixedSizeRing) :=
  e ← ring_empty r;
  if (e : bool) then Ok (None, r)
  else v ← ring_back r; r' ← ring_pop_back r; Ok (Some v, r').

(** *** Iterators: a position in the buffer and the number of elements from it on *)

Record Iterator := mkIter { cur : nat; left : nat }.

Definition ring_begin (r : FixedSizeRing) : Iterator := mkIter (start r) (count r).
Definition ring_end (r : FixedSizeRing) : Iterator :=
  mkIter ((start r + count r) mod ChunkSize) 0.
Definition iter_eq (i j : Iterator) : bool := (cur i =? cur j) && (left i =? left j).
(** [advance] by an amount that is not negative *)
Definition advance (x : nat) (i : Iterator) : Iterator :=
  mkIter ((cur i + ChunkSize + x) mod ChunkSize) (left i - x).
Definition distance (i j : Iterator) : nat := left i - left j.

(** [std::move_backward(begin() + d, end() - 1, end())]: the elements from the one
    before the last down to the one at [d] move one place up. *)
Fixpoint move_backward (r : FixedSizeRing) (n d : nat) (a : LazyArray T)
    : result (LazyArray T) :=
  match n with
  | O => Ok a
  | S n' =>
      v ← la_get ((start r + (d + n')) mod ChunkSize) a;
      _ ← la_get ((start r + (d + n)) mod ChunkSize) a;
      a ← la_emplace ((start r + (d + n)) mod ChunkSize) v a;
      move_backward r n' d a
  end.

Definition ring_emplace (pos : Iterator) (v : T) (r : FixedSizeRing)
    : result (option nat * FixedSizeRing) :=
  f ← ring_full r;
  if (f : bool) then Ok (None, r)
  else if iter_eq pos (ring_begin r) then
    let i := (start r + ChunkSize - 1) mod ChunkSize in
    a ← la_emplace i v (datac r);
    Ok (Some i, mkRing a i (S (count r)))
  else if iter_eq pos (ring_end r) then
    let i := (start r + count r) mod ChunkSize in
    a ← la_emplace i v (datac r);
    Ok (Some i, mkRing a (start r) (S (count r)))
  else
    let d := distance (ring_begin r) pos in
    let i := (start r + d) mod ChunkSize in
    p ← ring_emplace_back T_default r;
    let r := p.2 in
    a ← move_backward r (count r - 1 - d) d (datac r);
    a ← la_destroy i a;
    a ← la_emplace i v a;
    Ok (Some i, mkRing a (start r) (count r)).
End Ring.
Arguments FixedSizeRing : clear implicits.

(** ** What the ring holds *)

Section RingFacts.
Context {T : Type} (ChunkSize : nat) (T_default : T).
Hypothesis Hpos : 0 < ChunkSize.

(** The ring [r] holds the values [l], from the front to the back: they are constructed,
    the other places of the buffer are not. *)
Record ring_repr (r : FixedSizeRing T) (l : list T) : Prop := {
  rr_length : length (datac r) = ChunkSize;
  rr_start : start r < ChunkSize;
  rr_count : count r = length l;
  rr_room : length l <= ChunkSize;
  rr_at i v : l !! i = Some v → datac r !! ((start r + i) mod ChunkSize) = Some (Some v);
  rr_free i : length l <= i < ChunkSize → datac r !! ((start r + i) mod ChunkSize) = Some None;
}.

Lemma slot_lt s i : (s + i) mod ChunkSize < ChunkSize.
Proof. apply Nat.mod_upper_bound. lia. Qed.

Lemma slot_inj s i j :
  i < ChunkSize → j < ChunkSize → (s + i) mod ChunkSize = (s + j) mod ChunkSize → i = j.
Proof.
  intros Hi Hj H. pose proof (Nat.div_mod_eq (s + i) ChunkSize) as E1.
  pose proof (Nat.div_mod_eq (s + j) ChunkSize) as E2. rewrite H in E1.
  destruct (Nat.eq_dec ((s + i) / ChunkSize) ((s + j) / ChunkSize)) as [E|E]; [rewrite E in E1; lia|].
  exfalso. nia.
Qed.

Lemma slot_wrap s i : ((s mod ChunkSize) + i) mod ChunkSize = (s + i) mod ChunkSize.
Proof. by rewrite Nat.Div0.add_mod_idemp_l. Qed.

Lemma slot_start s : s < ChunkSize → (s + 0) mod ChunkSize = s.
Proof. intros Hs. rewrite Nat.add_0_r. by apply Nat.mod_small. Qed.

(** The element [i] counted from the place before [s] is the element before it counted
    from [s]. *)
Lemma slot_before s i :
  ((s + ChunkSize - 1) mod ChunkSize + S i) mod ChunkSize = (s + i) mod ChunkSize.
Proof.
  rewrite slot_wrap. replace (s + ChunkSize - 1 + S i) with (s + i + 1 * ChunkSize) by lia.
  apply Nat.Div0.mod_add.
Qed.

Lemma slot_after s i : ((s + 1) mod ChunkSize + i) mod ChunkSize = (s + S i) mod ChunkSize.
Proof. rewrite slot_wrap. f_equal. lia. Qed.

Lemma ring_new : ring_repr (new_ring ChunkSize) [].
Proof.
  split; cbn; try lia; [by rewrite length_replicate|done|].
  intros i Hi. apply lookup_replicate_2, Nat.mod_upper_bound. lia.
Qed.

Lemma ring_pre r l : ring_repr r l → precondition ChunkSize r = true.
Proof.
  intros []. unfold precondition. apply andb_true_iff. rewrite !Nat.leb_le. lia.
Qed.

(** The value in the place [i], written or taken away. *)
Lemma ring_slot r l i : ring_repr r l → i < ChunkSize →
  datac r !! ((start r + i) mod ChunkSize) = Some (l !! i).
Proof.
  intros Hr Hi. destruct (l !! i) as [v|] eqn:E; [by apply (rr_at _ _ Hr)|].
  apply (rr_free _ _ Hr). apply lookup_ge_None in E. lia.
Qed.

(** A ring from its places. *)
Lemma ring_intro r l :
  length (datac r) = ChunkSize → start r < ChunkSize → count r = length l → length l <= ChunkSize →
  (∀ i, i < ChunkSize → datac r !! ((start r + i) mod ChunkSize) = Some (l !! i)) → ring_repr r l.
Proof.
  intros H1 H2 H3 H4 Hs. split; [done..| |].
  - intros i v Hv. rewrite Hs, Hv; [done|]. apply lookup_lt_Some in Hv. lia.
  - intros i Hi. rewrite Hs by lia. f_equal. apply lookup_ge_None. lia.
Qed.

(** One place of the buffer changes. *)
Lemma ring_update r l k o s' c' l' :
  ring_repr r l → k < ChunkSize → s' < ChunkSize → c' = length l' → length l' <= ChunkSize →
  (∀ i, i < ChunkSize → ∃ j, j < ChunkSize ∧ (s' + i) mod ChunkSize = (start r + j) mod ChunkSize ∧
    l' !! i = if decide (j = k) then o else l !! j) →
  ring_repr (mkRing (<[(start r + k) mod ChunkSize := o]> (datac r)) s' c') l'.
Proof.
  intros Hr Hk Hs Hc Hl Hi. pose proof (rr_length _ _ Hr) as Hlen.
  apply ring_intro; cbn [datac start count]; [by rewrite length_insert|done..|].
  intros i Hlt. destruct (Hi i Hlt) as (j & Hj & -> & ->). case_decide as E.
  - subst j. apply list_lookup_insert_eq. rewrite Hlen. by apply slot_lt.
  - rewrite list_lookup_insert_ne; [by apply ring_slot|]. intros H. by apply slot_inj in H.
Qed.

Lemma ring_full_run r l :
  ring_repr r l → ring_full ChunkSize r = Ok (length l =? ChunkSize).
Proof.
  intros Hr. unfold ring_full. rewrite (ring_pre _ _ Hr). cbn. by rewrite (rr_count _ _ Hr).
Qed.
Lemma ring_empty_run r l : ring_repr r l → ring_empty ChunkSize r = Ok (length l =? 0).
Proof.
  intros Hr. unfold ring_empty. rewrite (ring_pre _ _ Hr). cbn. by rewrite (rr_count _ _ Hr).
Qed.
Lemma ring_size_run r l : ring_repr r l → ring_size ChunkSize r = Ok (length l).
Proof.
  intros Hr. unfold ring_size. rewrite (ring_pre _ _ Hr). cbn. by rewrite (rr_count _ _ Hr).
Qed.

(** [++] at the end, and before the front. *)
Lemma ring_add_back r l v :
  ring_repr r l → length l < ChunkSize →
  ring_repr (mkRing (<[(start r + length l) mod ChunkSize := Some v]> (datac r)) (start r) (S (length l)))
    (l ++ [v]).
Proof.
  intros Hr Hl. eapply ring_update; [done|done|apply Hr|rewrite length_app; cbn; lia|
    rewrite length_app; cbn; lia|].
  intros i Hi. exists i. split_and!; [done..|]. case_decide as E.
  - subst i. by rewrite lookup_app_r, Nat.sub_diag by lia.
  - destruct (decide (i < length l)); [by rewrite lookup_app_l|].
    rewrite lookup_app_r, (lookup_ge_None_2 l i) by lia. apply lookup_ge_None_2. cbn. lia.
Qed.

Lemma ring_add_front r l v :
  ring_repr r l → length l < ChunkSize →
  ring_repr (mkRing (<[(start r + (ChunkSize - 1)) mod ChunkSize := Some v]> (datac r))
    ((start r + ChunkSize - 1) mod ChunkSize) (S (length l))) (v :: l).
Proof.
  intros Hr Hl. eapply ring_update;
    [done|lia|apply Nat.mod_upper_bound; lia|done|cbn; lia|].
  intros [|i] Hi.
  - exists (ChunkSize - 1). rewrite decide_True by done. split_and!; [lia| |done].
    rewrite Nat.add_0_r, Nat.Div0.mod_mod. f_equal. lia.
  - exists i. rewrite slot_before, decide_False by lia. split_and!; [lia|done..].
Qed.

Lemma ring_drop_front r v l :
  ring_repr r (v :: l) →
  ring_repr (mkRing (<[start r := None]> (datac r)) ((start r + 1) mod ChunkSize) (count r - 1)) l.
Proof.
  intros Hr. pose proof (rr_room _ _ Hr) as Hl. cbn in Hl.
  pose proof (rr_count _ _ Hr) as Hc. cbn in Hc.
  rewrite <- (slot_start (start r)) at 1 by apply Hr.
  eapply ring_update; [done|lia|apply slot_lt|lia|lia|].
  intros i Hi. rewrite slot_after. destruct (decide (S i < ChunkSize)).
  - exists (S i). rewrite decide_False by lia. done.
  - exists 0. rewrite decide_True by done. split_and!; [lia| |apply lookup_ge_None_2; lia].
    replace (start r + S i) with (start r + 0 + 1 * ChunkSize) by lia. apply Nat.Div0.mod_add.
Qed.

Lemma ring_drop_back r l v :
  ring_repr r (l ++ [v]) →
  ring_repr (mkRing (<[(start r + length l) mod ChunkSize := None]> (datac r)) (start r) (count r - 1)) l.
Proof.
  intros Hr. pose proof (rr_room _ _ Hr) as Hl. pose proof (rr_count _ _ Hr) as Hc.
  rewrite length_app in Hl, Hc. cbn in Hl, Hc.
  eapply ring_update; [done|lia|apply Hr|lia|lia|].
  intros i Hi. exists i. split_and!; [done..|]. case_decide as E.
  - subst i. by apply lookup_ge_None_2.
  - destruct (decide (i < length l)); [by rewrite lookup_app_l|].
    rewrite lookup_app_r, (lookup_ge_None_2 l i) by lia. symmetry. apply lookup_ge_None_2. cbn. lia.
Qed.

Lemma ring_set r l i v :
  ring_repr r l → i < length l →
  ring_repr (mkRing (<[(start r + i) mod ChunkSize := Some v]> (datac r)) (start r) (count r))
    (<[i := v]> l).
Proof.
  intros Hr Hi. pose proof (rr_room _ _ Hr). pose proof (rr_count _ _ Hr).
  eapply ring_update; [done|lia|apply Hr|rewrite length_insert; lia|rewrite length_insert; lia|].
  intros j Hj. exists j. split_and!; [done..|]. case_decide as E.
  - subst j. by apply list_lookup_insert_eq.
  - by apply list_lookup_insert_ne.
Qed.

Lemma emplace_slot r l k v :
  ring_repr r l → la_emplace ((start r + k) mod ChunkSize) v (datac r) =
    Ok (<[(start r + k) mod ChunkSize := Some v]> (datac r)).
Proof.
  intros Hr. unfold la_emplace. rewrite decide_True; [done|]. rewrite (rr_length _ _ Hr). apply slot_lt.
Qed.

Lemma ring_emplace_back_run v r l :
  ring_repr r l →
  (length l = ChunkSize ∧ ring_emplace_back ChunkSize v r = Ok (None, r)) ∨
  (length l < ChunkSize ∧ ∃ p r', ring_emplace_back ChunkSize v r = Ok (Some p, r') ∧
    ring_repr r' (l ++ [v]) ∧ start r' = start r).
Proof.
  intros Hr. unfold ring_emplace_back. rewrite (ring_full_run _ _ Hr). cbn [mbind result_bind].
  pose proof (rr_room _ _ Hr). destruct (Nat.eqb_spec (length l) ChunkSize); [by left|right].
  split; [lia|]. rewrite (rr_count _ _ Hr), (emplace_slot r l) by done. cbn [mbind result_bind].
  eexists _, _. split_and!; [done| |done].
  apply ring_add_back; [done|lia].
Qed.

Lemma ring_emplace_front_run v r l :
  ring_repr r l →
  (length l = ChunkSize ∧ ring_emplace_front ChunkSize v r = Ok (None, r)) ∨
  (length l < ChunkSize ∧ ∃ p r', ring_emplace_front ChunkSize v r = Ok (Some p, r') ∧
    ring_repr r' (v :: l)).
Proof.
  intros Hr. unfold ring_emplace_front. rewrite (ring_full_run _ _ Hr). cbn [mbind result_bind].
  pose proof (rr_room _ _ Hr). destruct (Nat.eqb_spec (length l) ChunkSize); [by left|right].
  split; [lia|]. replace (start r + ChunkSize - 1) with (start r + (ChunkSize - 1)) by lia.
  rewrite (emplace_slot r l) by done. cbn [mbind result_bind].
  eexists _, _. split; [done|]. rewrite (rr_count _ _ Hr).
  replace (start r + (ChunkSize - 1)) with (start r + ChunkSize - 1) at 2 by lia.
  apply ring_add_front; [done|lia].
Qed.

Lemma ring_access_run {A} r l (f : result A) :
  ring_repr r l →
  (assert (precondition ChunkSize r);; (e ← ring_empty ChunkSize r; (assert (negb e);; f))) =
  match l with [] => Err AssertFail | _ => f end.
Proof. intros Hr. rewrite (ring_pre _ _ Hr), (ring_empty_run _ _ Hr). by destruct l. Qed.

Lemma ring_front_run r l :
  ring_repr r l → ring_front ChunkSize r = match l with [] => Err AssertFail | v :: _ => Ok v end.
Proof.
  intros Hr. unfold ring_front. rewrite (ring_access_run r l) by done. destruct l as [|v l]; [done|].
  apply la_get_Ok. rewrite <- (slot_start (start r)) by apply Hr. by apply (rr_at _ _ Hr).
Qed.

Lemma ring_getAt_run i r l :
  ring_repr r l →
  getAt ChunkSize i r = match l with [] => Err AssertFail | _ =>
    la_get ((start r + i) mod ChunkSize) (datac r) end.
Proof. intros Hr. unfold getAt. by rewrite (ring_access_run r l). Qed.

Lemma ring_pop_front_run r l :
  ring_repr r l →
  match l with
  | [] => ring_pop_front ChunkSize r = Err AssertFail
  | v :: l' => ∃ r', ring_pop_front ChunkSize r = Ok r' ∧ ring_repr r' l'
  end.
Proof.
  intros Hr. unfold ring_pop_front. rewrite (ring_access_run r l) by done. destruct l as [|v l]; [done|].
  rewrite (la_destroy_Ok _ _ v); [eexists; split; [done|]; by eapply ring_drop_front|].
  rewrite <- (slot_start (start r)) by apply Hr. by apply (rr_at _ _ Hr).
Qed.

Lemma ring_back_slot r l v :
  ring_repr r (l ++ [v]) → start r + count r - 1 = start r + length l ∧
  datac r !! ((start r + length l) mod ChunkSize) = Some (Some v).
Proof.
  intros Hr. split; [rewrite (rr_count _ _ Hr), length_app; cbn; lia|].
  apply (rr_at _ _ Hr). by rewrite lookup_app_r, Nat.sub_diag by lia.
Qed.

Lemma ring_back_run r l :
  ring_repr r l → ring_back ChunkSize r = match list.last l with None => Err AssertFail | Some v => Ok v end.
Proof.
  intros Hr. unfold ring_back. rewrite (ring_access_run r l) by done.
  destruct l as [|v l _] using rev_ind; [done|]. destruct (ring_back_slot _ _ _ Hr) as [-> E].
  rewrite last_snoc, (la_get_Ok _ _ v) by done. by destruct l.
Qed.

Lemma ring_pop_back_run r l :
  ring_repr r l →
  match list.last l with
  | None => ring_pop_back ChunkSize r = Err AssertFail
  | Some v => ∃ r', ring_pop_back ChunkSize r = Ok r' ∧ ring_repr r' (removelast l)
  end.
Proof.
  intros Hr. unfold ring_pop_back. rewrite (ring_access_run r l) by done.
  destruct l as [|v l _] using rev_ind; [done|]. destruct (ring_back_slot _ _ _ Hr) as [-> E].
  rewrite last_snoc, (la_destroy_Ok _ _ v) by done. rewrite removelast_last.
  eexists. split; [|by eapply ring_drop_back]. by destruct l.
Qed.

Lemma ring_extract_front_run r l :
  ring_repr r l →
  match l with
  | [] => ring_extract_front ChunkSize r = Ok (None, r)
  | v :: l' => ∃ r', ring_extract_front ChunkSize r = Ok (Some v, r') ∧ ring_repr r' l'
  end.
Proof.
  intros Hr. unfold ring_extract_front. rewrite (ring_empty_run _ _ Hr). pose proof (ring_pop_front_run _ _ Hr) as Hp.
  destruct l as [|v l]; [done|]. destruct Hp as (r' & Hp & Hr'). exists r'. split; [|done].
  cbn. by rewrite (ring_front_run _ _ Hr), Hp.
Qed.

Lemma ring_extract_back_run r l :
  ring_repr r l →
  match list.last l with
  | None => ring_extract_back ChunkSize r = Ok (None, r)
  | Some v => ∃ r', ring_extract_back ChunkSize r = Ok (Some v, r') ∧ ring_repr r' (removelast l)
  end.
Proof.
  intros Hr. unfold ring_extract_back. rewrite (ring_empty_run _ _ Hr).
  pose proof (ring_pop_back_run _ _ Hr) as Hp. pose proof (ring_back_run _ _ Hr) as Hb.
  destruct l as [|v l _] using rev_ind; [done|]. rewrite last_snoc in *.
  destruct Hp as (r' & Hp & Hr'). exists r'. split; [|done]. rewrite length_app, Nat.add_comm. cbn.
  by rewrite Hb, Hp.
Qed.

(** The elements from [d] on, [n] of them, move up by one place. *)
Lemma move_backward_run r n d a l :
  ring_repr (mkRing a (start r) (count r)) l → d + n < length l →
  ∃ a' l', move_backward ChunkSize r n d a = Ok a' ∧
    ring_repr (mkRing a' (start r) (count r)) l' ∧ length l' = length l ∧
    ∀ i, l' !! i = if decide (d < i <= d + n) then l !! (i - 1) else l !! i.
Proof.
  revert a l. induction n as [|n IH]; intros a l Hr Hl; cbn [move_backward].
  - exists a, l. split_and!; try done. intros i. by rewrite decide_False by lia.
  - destruct (lookup_lt_is_Some_2 l (d + n)) as [v Hv]; [lia|].
    destruct (lookup_lt_is_Some_2 l (d + S n)) as [v' Hv']; [lia|].
    pose proof (rr_at _ _ Hr _ _ Hv) as E1. pose proof (rr_at _ _ Hr _ _ Hv') as E2.
    pose proof (emplace_slot _ _ (d + S n) v Hr) as E3. cbn [datac start] in E1, E2, E3.
    rewrite (la_get_Ok _ _ _ E1), (la_get_Ok _ _ _ E2). cbn [mbind result_bind].
    rewrite E3. cbn [mbind result_bind].
    pose proof (ring_set _ _ (d + S n) v Hr ltac:(lia)) as Hr1. cbn [datac start count] in Hr1.
    destruct (IH _ _ Hr1) as (a' & l' & -> & Hr' & Hlen & Hi); [rewrite length_insert; lia|].
    exists a', l'. split_and!; [done..|by rewrite Hlen, length_insert|].
    intros i. rewrite Hi. destruct (decide (i = d + S n)) as [->|].
    + rewrite decide_False, decide_True by lia. rewrite list_lookup_insert_eq by lia.
      by replace (d + S n - 1) with (d + n) by lia.
    + repeat case_decide; try lia; by rewrite list_lookup_insert_ne by lia.
Qed.

Lemma ring_emplace_run d v r l :
  ring_repr r l → d <= length l →
  (length l = ChunkSize ∧
     ring_emplace ChunkSize T_default (advance ChunkSize d (ring_begin r)) v r = Ok (None, r)) ∨
  (length l < ChunkSize ∧ ∃ p r',
     ring_emplace ChunkSize T_default (advance ChunkSize d (ring_begin r)) v r = Ok (Some p, r') ∧
     ring_repr r' (take d l ++ v :: drop d l)).
Proof.
  intros Hr Hd. unfold ring_emplace. rewrite (ring_full_run _ _ Hr). cbn [mbind result_bind].
  pose proof (rr_room _ _ Hr) as Hroom. destruct (Nat.eqb_spec (length l) ChunkSize); [by left|right].
  split; [lia|]. pose proof (rr_count _ _ Hr) as Hc.
  assert (advance ChunkSize d (ring_begin r) =
    mkIter ((start r + d) mod ChunkSize) (length l - d)) as ->.
  { unfold advance, ring_begin. cbn [cur left]. rewrite Hc. f_equal.
    replace (start r + ChunkSize + d) with (start r + d + 1 * ChunkSize) by lia. apply Nat.Div0.mod_add. }
  unfold iter_eq, ring_begin, ring_end, distance. cbn [cur left]. rewrite Hc.
  destruct (decide (d = 0)) as [->|Hd0].
  { rewrite slot_start by apply Hr. rewrite Nat.sub_0_r, !Nat.eqb_refl. cbn [andb].
    replace (start r + ChunkSize - 1) with (start r + (ChunkSize - 1)) by lia.
    rewrite (emplace_slot r l) by done. eexists _, _. split; [done|].
    replace (start r + (ChunkSize - 1)) with (start r + ChunkSize - 1) at 2 by lia.
    apply ring_add_front; [done|lia]. }
  rewrite (proj2 (Nat.eqb_neq (length l - d) (length l))), andb_false_r by lia.
  destruct (decide (d = length l)) as [->|Hdl].
  { rewrite Nat.sub_diag, !Nat.eqb_refl. cbn [andb]. rewrite (emplace_slot r l) by done.
    eexists _, _. split; [done|]. rewrite firstn_all, drop_all. by apply ring_add_back; [|lia]. }
  rewrite (proj2 (Nat.eqb_neq (length l - d) 0)), andb_false_r by lia.
  replace (length l - (length l - d)) with d by lia.
  destruct (ring_emplace_back_run T_default r l Hr) as [[? _]|(_ & p & r1 & -> & Hr1 & Hs)]; [lia|].
  cbn [mbind result_bind snd]. rewrite (rr_count _ _ Hr1), length_app. cbn [length].
  destruct (move_backward_run r1 (length l + 1 - 1 - d) d (datac r1) (l ++ [T_default]))
    as (a & l' & -> & Hr2 & Hlen & Hi); [by destruct r1|rewrite length_app; cbn; lia|].
  cbn [mbind result_bind]. rewrite length_app in Hlen. cbn in Hlen.
  destruct (lookup_lt_is_Some_2 l' d) as [v' Hv']; [lia|].
  pose proof (rr_at _ _ Hr2 _ _ Hv') as E. cbn [datac start] in E. rewrite <- Hs.
  rewrite (la_destroy_Ok _ _ _ E). cbn [mbind result_bind]. unfold la_emplace.
  pose proof (rr_length _ _ Hr2) as Ha. cbn [datac] in Ha.
  rewrite length_insert, Ha, decide_True by apply slot_lt.
  cbn [mbind result_bind]. eexists _, _. split; [done|]. rewrite list_insert_insert_eq.
  pose proof (ring_set _ _ d v Hr2 ltac:(lia)) as Hr3. cbn [datac start count] in Hr3.
  rewrite (rr_count _ _ Hr1) in Hr3. rewrite length_app in Hr3. cbn [length] in Hr3.
  assert (take d l ++ v :: drop d l = <[d := v]> l') as ->; [|exact Hr3].
  apply list_eq. intros i. destruct (decide (i = d)) as [->|].
  { rewrite list_lookup_insert_eq, lookup_app_r by (rewrite ?length_take; lia).
    rewrite length_take. by replace (d - d `min` length l) with 0 by lia. }
  rewrite list_lookup_insert_ne, Hi by lia. destruct (decide (i < d)).
  - rewrite lookup_app_l, lookup_take_lt, decide_False, lookup_app_l by (rewrite ?length_take; lia). done.
  - rewrite lookup_app_r by (rewrite length_take; lia). rewrite length_take.
    replace (i - d `min` length l) with (S (i - 1 - d)) by lia.
    rewrite lookup_cons, lookup_drop.
    replace (d + (i - 1 - d)) with (i - 1) by lia. case_decide.
    + by rewrite lookup_app_l by lia.
    + rewrite !lookup_ge_None_2; [done|rewrite length_app; cbn; lia|lia].
Qed.

Lemma destroy_all_run ns (a : LazyArray T) :
  NoDup ns → (∀ n, n ∈ ns → ∃ v, a !! n = Some (Some v)) →
  ∃ a', destroy_all ns a = Ok a' ∧ length a' = length a ∧
    ∀ m, a' !! m = if decide (m ∈ ns) then Some None else a !! m.
Proof.
  revert a. induction ns as [|n ns IH]; intros a Hnd Hv; cbn [destroy_all].
  - exists a. split_and!; [done..|]. intros m. rewrite decide_False; [done|apply not_elem_of_nil].
  - apply list.NoDup_cons in Hnd as [Hn Hnd]. destruct (Hv n) as [v Hvn]; [by left|].
    rewrite (la_destroy_Ok _ _ _ Hvn). cbn [mbind result_bind].
    destruct (IH (<[n := None]> a) Hnd) as (a' & -> & Hlen & Hm).
    { intros k Hk. rewrite list_lookup_insert_ne by congruence. apply Hv. by right. }
    exists a'. split_and!; [done|by rewrite Hlen, length_insert|]. intros m. rewrite Hm.
    destruct (decide (m = n)) as [->|].
    + rewrite (decide_False (P := n ∈ ns)), decide_True by (done || by left).
      apply list_lookup_insert_eq. by eapply lookup_lt_Some.
    + rewrite list_lookup_insert_ne by done. apply decide_ext. rewrite elem_of_cons. tauto.
Qed.

Lemma ring_clear_run r l : ring_repr r l → ∃ r', ring_clear ChunkSize r = Ok r' ∧ ring_repr r' [].
Proof.
  intros Hr. unfold ring_clear. rewrite (ring_pre _ _ Hr). cbn [assert mbind result_bind].
  pose proof (rr_count _ _ Hr) as Hc. pose proof (rr_room _ _ Hr) as Hroom.
  destruct (destroy_all_run (List.map (λ x, (start r + x) mod ChunkSize) (seq 0 (count r))) (datac r))
    as (a & -> & Hlen & Hm).
  - apply NoDup_fmap_2_strong; [|apply NoDup_ListNoDup, seq_NoDup].
    intros x y Hx%elem_of_seq Hy%elem_of_seq. apply slot_inj; lia.
  - intros n (x & -> & Hx%elem_of_seq)%list_elem_of_fmap.
    destruct (lookup_lt_is_Some_2 l x) as [v Hv]; [lia|]. exists v. by apply (rr_at _ _ Hr).
  - eexists. split; [done|]. apply ring_intro; cbn [datac start count length]; [|done|done|lia|].
    { by rewrite Hlen, (rr_length _ _ Hr). }
    intros i Hi. rewrite lookup_nil, Nat.mod_small by lia. rewrite Hm.
    cbn [Nat.add]. case_decide as E; [done|].
    assert (∃ j, j < ChunkSize ∧ i = (start r + j) mod ChunkSize) as (j & Hj & ->).
    { pose proof (rr_start _ _ Hr). destruct (decide (start r <= i)).
      - exists (i - start r). split; [lia|]. rewrite Nat.mod_small; lia.
      - exists (i + ChunkSize - start r). split; [lia|].
        replace (start r + (i + ChunkSize - start r)) with (i + 1 * ChunkSize) by lia.
        rewrite Nat.Div0.mod_add, Nat.mod_small; lia. }
    rewrite (ring_slot _ _ _ Hr) by done. f_equal. apply lookup_ge_None_2.
    destruct (decide (j < length l)); [|lia]. contradict E. apply list_elem_of_fmap.
    exists j. split; [done|]. apply elem_of_seq. lia.
Qed.

Lemma ring_fill_run r l0 l :
  ring_repr r l0 → start r = 0 →
  (length l0 + length l <= ChunkSize ∧ ∃ r', ring_fill ChunkSize l r = Ok r' ∧ ring_repr r' (l0 ++ l)) ∨
  (ChunkSize < length l0 + length l ∧ ring_fill ChunkSize l r = Err AssertFail).
Proof.
  revert r l0. induction l as [|v l IH]; intros r l0 Hr Hs; cbn [ring_fill length].
  { left. pose proof (rr_room _ _ Hr). split; [lia|]. exists r. by rewrite app_nil_r. }
  pose proof (rr_room _ _ Hr). rewrite (rr_count _ _ Hr).
  destruct (Nat.ltb_spec (length l0) ChunkSize); [|right; split; [lia|done]].
  cbn [assert mbind result_bind].
  assert ((start r + length l0) mod ChunkSize = length l0) as E by (rewrite Hs; by apply Nat.mod_small).
  pose proof (emplace_slot r l0 (length l0) v Hr) as He. pose proof (ring_add_back r l0 v Hr ltac:(lia)) as Hr1.
  rewrite E in He, Hr1. rewrite He. cbn [mbind result_bind].
  destruct (IH _ _ Hr1 Hs) as [[Hle Hok]|[Hgt Herr]]; rewrite length_app in *; cbn in *.
  - left. split; [lia|]. by rewrite <- app_assoc in Hok.
  - right. split; [lia|done].
Qed.
End RingFacts.

(** ** The contract: a bounded deque *)

Section Contract.
Context {T : Type}.

Inductive deque_op :=
  | PushBack (v : T) | PushFront (v : T) | InsertAt (d : nat) (v : T)
  | ExtractFront | ExtractBack | PopFront | PopBack
  | Front | Back | At (i : nat) | Clear | Size | IsEmpty | IsFull.

(** What a call returns: nothing, a yes or no (for an address: whether it is not null), a
    number, an element, or perhaps an element. *)
Inductive answer :=
  | Done | Yes (b : bool) | Num (n : nat) | Val (v : T) | Opt (o : option T).

Definition deque_step (capacity : nat) (op : deque_op) (l : list T) : result (answer * list T) :=
  let need (o : option T) (k : T → answer * list T) : result (answer * list T) :=
    match o with Some v => Ok (k v) | None => Err AssertFail end in
  let if_room (l' : list T) : result (answer * list T) :=
    if length l =? capacity then Ok (Yes false, l) else Ok (Yes true, l') in
  match op with
  | PushBack v => if_room (l ++ [v])
  | PushFront v => if_room (v :: l)
  | InsertAt d v => if_room (take d l ++ v :: drop d l)
  | ExtractFront => Ok (Opt (head l), tail l)
  | ExtractBack => Ok (Opt (list.last l), removelast l)
  | PopFront => need (head l) (λ _, (Done, tail l))
  | PopBack => need (list.last l) (λ _, (Done, removelast l))
  | Front => need (head l) (λ v, (Val v, l))
  | Back => need (list.last l) (λ v, (Val v, l))
  | At i => need (l !! i) (λ v, (Val v, l))
  | Clear => Ok (Done, [])
  | Size => Ok (Num (length l), l)
  | IsEmpty => Ok (Yes (length l =? 0), l)
  | IsFull => Ok (Yes (length l =? capacity), l)
  end.

(** Positions are inside; a position is asked for in a ring that is not empty. *)
Definition op_ok (op : deque_op) (l : list T) : Prop :=
  match op with InsertAt d _ => d <= length l | At i => i < length l | _ => True end.

Context (ChunkSize : nat) (T_default : T).

Definition ring_step (op : deque_op) (r : FixedSizeRing T) : result (answer * FixedSizeRing T) :=
  let pushed (p : result (option nat * FixedSizeRing T)) :=
    x ← p; Ok (Yes (bool_decide (is_Some x.1)), x.2) in
  let taken (p : result (option T * FixedSizeRing T)) := x ← p; Ok (Opt x.1, x.2) in
  match op with
  | PushBack v => pushed (ring_emplace_back ChunkSize v r)
  | PushFront v => pushed (ring_emplace_front ChunkSize v r)
  | InsertAt d v =>
      pushed (ring_emplace ChunkSize T_default (advance ChunkSize d (ring_begin r)) v r)
  | ExtractFront => taken (ring_extract_front ChunkSize r)
  | ExtractBack => taken (ring_extract_back ChunkSize r)
  | PopFront => r' ← ring_pop_front ChunkSize r; Ok (Done, r')
  | PopBack => r' ← ring_pop_back ChunkSize r; Ok (Done, r')
  | Front => v ← ring_front ChunkSize r; Ok (Val v, r)
  | Back => v ← ring_back ChunkSize r; Ok (Val v, r)
  | At i => v ← getAt ChunkSize i r; Ok (Val v, r)
  | Clear => r' ← ring_clear ChunkSize r; Ok (Done, r')
  | Size => n ← ring_size ChunkSize r; Ok (Num n, r)
  | IsEmpty => b ← ring_empty ChunkSize r; Ok (Yes b, r)
  | IsFull => b ← ring_full ChunkSize r; Ok (Yes b, r)
  end.

Lemma pushed_run r l l' (p : result (option nat * FixedSizeRing T)) :
  ring_repr ChunkSize r l →
  (length l = ChunkSize ∧ p = Ok (None, r)) ∨
  (length l < ChunkSize ∧ ∃ q r', p = Ok (Some q, r') ∧ ring_repr ChunkSize r' l') →
  match (if length l =? ChunkSize then Ok (Yes false, l) else Ok (Yes true, l')) with
  | Ok (a, l'') => ∃ r', (x ← p; Ok (Yes (bool_decide (is_Some x.1)), x.2)) = Ok (a, r') ∧
      ring_repr ChunkSize r' l''
  | Err e => (x ← p; Ok (Yes (bool_decide (is_Some x.1)), x.2)) = Err (A := answer * FixedSizeRing T) e
  end.
Proof.
  intros Hr [[-> ->]|(Hlt & q & r' & -> & Hr')].
  - rewrite Nat.eqb_refl. by exists r.
  - rewrite (proj2 (Nat.eqb_neq _ _)) by lia. exists r'. by split.
Qed.

(** C30: [FixedSizeRing] implements a bounded deque: each of its operations, on a ring that
    holds a sequence of values in its circular buffer, returns what the operation on that
    sequence returns, fails the same assertion when that has no result, and leaves a ring
    that holds the new sequence; in particular no element that is not constructed is read
    or destroyed, at whatever place of the buffer the sequence starts. *)
Theorem ring_refines (op : deque_op) (r : FixedSizeRing T) (l : list T) :
  0 < ChunkSize → ring_repr ChunkSize r l → op_ok op l →
  match deque_step ChunkSize op l with
  | Ok (a, l') => ∃ r', ring_step op r = Ok (a, r') ∧ ring_repr ChunkSize r' l'
  | Err e => ring_step op r = Err e
  end.
Proof.
  intros Hpos Hr Hop. destruct op as [v|v|d v| | | | | | |i| | | |]; cbn [ring_step deque_step].
  - apply (pushed_run r l); [done|]. destruct (ring_emplace_back_run ChunkSize Hpos v r l Hr)
      as [?|(? & p & r' & ? & ? & _)]; [by left|right; eauto 10].
  - apply (pushed_run r l); [done|]. by apply ring_emplace_front_run.
  - apply (pushed_run r l); [done|]. by apply ring_emplace_run.
  - pose proof (ring_extract_front_run ChunkSize Hpos r l Hr) as H.
    destruct l as [|v l]; [rewrite H; by exists r|]. destruct H as (r' & -> & Hr'). by exists r'.
  - pose proof (ring_extract_back_run ChunkSize Hpos r l Hr) as H.
    destruct l as [|v l _] using rev_ind; [rewrite H; by exists r|]. rewrite last_snoc in *.
    destruct H as (r' & -> & Hr'). by exists r'.
  - pose proof (ring_pop_front_run ChunkSize Hpos r l Hr) as H.
    destruct l as [|v l]; [by rewrite H|]. destruct H as (r' & -> & Hr'). by exists r'.
  - pose proof (ring_pop_back_run ChunkSize Hpos r l Hr) as H.
    destruct (list.last l); [|by rewrite H]. destruct H as (r' & -> & Hr'). by exists r'.
  - rewrite (ring_front_run ChunkSize Hpos r l Hr). destruct l; [done|]. by exists r.
  - rewrite (ring_back_run ChunkSize Hpos r l Hr). destruct (list.last l); [|done]. by exists r.
  - rewrite (ring_getAt_run ChunkSize Hpos i r l Hr). cbn in Hop.
    destruct (lookup_lt_is_Some_2 l i Hop) as [v Hv]. rewrite Hv. exists r. split; [|done].
    rewrite (la_get_Ok _ _ _ (rr_at _ _ _ Hr _ _ Hv)). by destruct l.
  - destruct (ring_clear_run ChunkSize Hpos r l Hr) as (r' & -> & Hr'). by exists r'.
  - rewrite (ring_size_run ChunkSize Hpos r l Hr). by exists r.
  - rewrite (ring_empty_run ChunkSize Hpos r l Hr). by exists r.
  - rewrite (ring_full_run ChunkSize Hpos r l Hr). by exists r.
Qed.
End Contract.
Arguments deque_op : clear implicits.
Arguments answer : clear implicits.

(** A ring of three places that starts at the last. *)
Lemma ring_refines_witness :
  ∃ r', ring_step 3 0 (InsertAt 1 9) (mkRing [Some 2; None; Some 1] 2 2) = Ok (Yes true, r') ∧
    ring_repr 3 r' [1; 9; 2].
Proof.
  apply (ring_refines 3 0 (InsertAt 1 9) (mkRing [Some 2; None; Some 1] 2 2) [1; 2]); [lia| |cbn; lia].
  apply ring_intro; cbn; try lia. intros i Hi.
  assert (i = 0 ∨ i = 1 ∨ i = 2) as [->|[->| ->]] by lia; reflexivity.
Defined.

(** ** The bag *)

Section BagFacts.
Context {T : Type} (ChunkSize : nat).

(** The bag holds the values [l], the last one pushed first. *)
Definition bag_repr (b : Bag.FixedSizeBag T) (l : list T) : Prop :=
  Bag.datac b = List.map Some (reverse l) ++ replicate (ChunkSize - length l) None ∧
  Bag.count b = length l ∧ length l <= ChunkSize.

Lemma bag_pre b l : bag_repr b l → Bag.bag_precondition ChunkSize b = true.
Proof. intros (_ & Hc & Hl). unfold Bag.bag_precondition. rewrite Hc. by apply Nat.leb_le. Qed.

Lemma bag_top b v l :
  bag_repr b (v :: l) → Bag.datac b !! length l = Some (Some v) ∧
  <[length l := None]> (Bag.datac b) = List.map Some (reverse l) ++ replicate (ChunkSize - length l) None.
Proof.
  intros (Hd & _ & Hl). rewrite Hd, reverse_cons, map_app, <- app_assoc. cbn in *.
  assert (length (List.map Some (reverse l)) = length l) as El by (by rewrite length_map, length_reverse).
  split; [by rewrite lookup_app_r, El, Nat.sub_diag by lia|].
  rewrite insert_app_r_alt, El, Nat.sub_diag by lia. f_equal.
  by replace (ChunkSize - length l) with (S (ChunkSize - S (length l))) by lia.
Qed.

Lemma bag_push_run v b l :
  bag_repr b l →
  (length l = ChunkSize ∧ Bag.bag_emplace_front ChunkSize v b = Ok (None, b)) ∨
  (length l < ChunkSize ∧ ∃ p b', Bag.bag_emplace_front ChunkSize v b = Ok (Some p, b') ∧ bag_repr b' (v :: l)).
Proof.
  intros Hb. pose proof Hb as (Hd & Hc & Hl). unfold Bag.bag_emplace_front, Bag.bag_full.
  rewrite (bag_pre _ _ Hb), Hc. cbn [assert mbind result_bind].
  destruct (Nat.eqb_spec (length l) ChunkSize); [by left|right]. split; [lia|].
  assert (length (List.map Some (reverse l)) = length l) as El by (by rewrite length_map, length_reverse).
  unfold la_emplace. rewrite Hd, decide_True by (rewrite length_app, El, length_replicate; lia).
  eexists _, _. split; [done|]. split_and!; cbn [Bag.datac Bag.count length]; [|done|lia].
  rewrite insert_app_r_alt, El, Nat.sub_diag, reverse_cons, map_app, <- app_assoc by lia. f_equal.
  by replace (ChunkSize - length l) with (S (ChunkSize - S (length l))) by lia.
Qed.

Lemma bag_pop_run b l :
  bag_repr b l →
  match l with
  | [] => Bag.bag_pop_front b = Ok (false, b)
  | v :: l' => ∃ b', Bag.bag_pop_front b = Ok (true, b') ∧ bag_repr b' l'
  end.
Proof.
  intros Hb. pose proof Hb as (Hd & Hc & Hl). unfold Bag.bag_pop_front. rewrite Hc.
  destruct l as [|v l]; [done|]. cbn [length Nat.eqb Nat.sub]. rewrite Nat.sub_0_r.
  destruct (bag_top _ _ _ Hb) as [E1 E2]. rewrite (la_destroy_Ok _ _ _ E1), E2.
  eexists. split; [done|]. cbn in Hl. split_and!; cbn; [done..|lia].
Qed.

Lemma bag_front_run b l :
  bag_repr b l → Bag.bag_front ChunkSize b = match l with [] => Err AssertFail | v :: _ => Ok v end.
Proof.
  intros Hb. pose proof Hb as (_ & Hc & _). unfold Bag.bag_front, Bag.bag_empty. rewrite (bag_pre _ _ Hb), Hc.
  destruct l as [|v l]; [done|]. cbn [assert mbind result_bind length Nat.eqb negb Nat.sub].
  rewrite Nat.sub_0_r. apply la_get_Ok. by eapply bag_top.
Qed.

Lemma bag_extract_run b l :
  bag_repr b l →
  ∃ b', Bag.bag_extract_front ChunkSize b = Ok (head l, b') ∧ bag_repr b' (tail l).
Proof.
  intros Hb. pose proof Hb as (_ & Hc & _). unfold Bag.bag_extract_front, Bag.bag_empty.
  rewrite (bag_pre _ _ Hb), Hc. pose proof (bag_front_run _ _ Hb) as Hf. pose proof (bag_pop_run _ _ Hb) as Hp.
  destruct l as [|v l]; [by exists b|]. destruct Hp as (b' & Hp & Hb'). exists b'.
  cbn [assert mbind result_bind length Nat.eqb]. by rewrite Hf, Hp.
Qed.

(** Iteration gives the values in the order in which they would be popped. *)
Lemma bag_elements_run b l : bag_repr b l → Bag.bag_elements b = Ok l.
Proof.
  intros (Hd & Hc & Hl). unfold Bag.bag_elements. rewrite Hc, Hd.
  assert (∀ k r, length l = k + length r → drop k l = r →
    mapM (λ i, la_get (length l - 1 - i) (List.map Some (reverse l) ++ replicate (ChunkSize - length l) None))
      (seq k (length r)) = Ok r) as H; [|by apply (H 0 l)].
  intros k r. revert k. induction r as [|v r IH]; intros k Hk Hdr; [done|]. cbn [seq length mapM].
  cbn in Hk. assert (l !! k = Some v) as Hv
    by (rewrite <- (Nat.add_0_r k), <- lookup_drop, Hdr; done).
  erewrite la_get_Ok.
  2:{ rewrite lookup_app_l by (rewrite length_map, length_reverse; lia).
      rewrite list_lookup_fmap, reverse_lookup by lia.
      replace (length l - S (length l - 1 - k)) with k by lia. by rewrite Hv. }
  cbn [mbind result_bind]. rewrite (IH (S k)); [done|lia|].
  replace (S k) with (k + 1) by lia. by rewrite <- drop_drop, Hdr.
Qed.
End BagFacts.

(** The concurrent bag pops wrongly: on every bag that holds something its
    [pop_front], running alone, destroys the element above the one it takes away, which
    is not constructed, or lies behind the end of the array when the bag is full. *)
Theorem concurrent_pop_destroys_other {T} (ChunkSize : nat) (b : Bag.FixedSizeBag T) (v : T)
    (l : list T) :
  bag_repr ChunkSize b (v :: l) → Bag.concurrent_pop_front b = Err UB.
Proof.
  intros (Hd & Hc & Hl). unfold Bag.concurrent_pop_front, la_destroy. rewrite Hc, Hd. cbn [length Nat.eqb].
  rewrite lookup_app_r; rewrite length_map, length_reverse; cbn [length] in *; [|lia].
  rewrite Nat.sub_diag. by destruct (ChunkSize - S (length l)).
Qed.

Lemma concurrent_pop_destroys_other_witness :
  Bag.concurrent_pop_front (Bag.mkBag [Some 1; Some 2; None] 2) = Err UB.
Proof. apply (concurrent_pop_destroys_other 3 _ 2 [1]). split_and!; cbn; [done|done|lia]. Defined.
