(* ===== verification/Gdeque.v ===== *)
(** * [libgalois/include/galois/gdeque.h]

    A deque as a doubly linked list of blocks, each a bounded container; the buffer of
    nodes that an operator pushes is one.  The class is generic in the container: it is
    modelled over the interface [Container], of which [FixedSizeRing] is the instance
    that the program uses.  A block is a cell of a memory; blocks are allocated at
    addresses that are not in use, and to follow a null pointer or one to a freed block
    is undefined. *)
From stdpp Require Import gmap list.
From S2P Require Import Prelude FixedSizeRing.

(** ** The containers of a block *)

(** The constructors and methods that [gdeque] calls.  An iterator is [begin() + d], given
    as [d]; the address of a new element matters only as null or not. *)
Class Container (T C : Type) := {
  c_new : C;
  c_range : list T → result C;
  c_size : C → result nat;
  c_empty : C → result bool;
  c_full : C → result bool;
  c_getAt : nat → C → result T;
  c_front : C → result T;
  c_back : C → result T;
  c_emplace_front : T → C → result (option nat * C);
  c_emplace_back : T → C → result (option nat * C);
  c_emplace : nat → T → C → result (option nat * C);
  c_pop_front : C → result C;
  c_pop_back : C → result C;
  c_clear : C → result C;
}.

(** What they promise: a bounded deque. *)
Class ContainerLaws (T C : Type) `{Container T C} := {
  c_repr : C → list T → Prop;
  c_capacity : nat;
  c_capacity_pos : 0 < c_capacity;
  c_room c l : c_repr c l → length l <= c_capacity;
  c_new_ok : c_repr c_new [];
  c_range_ok l : length l <= c_capacity → ∃ c, c_range l = Ok c ∧ c_repr c l;
  c_size_ok c l : c_repr c l → c_size c = Ok (length l);
  c_empty_ok c l : c_repr c l → c_empty c = Ok (length l =? 0);
  c_full_ok c l : c_repr c l → c_full c = Ok (length l =? c_capacity);
  c_getAt_ok c l i v : c_repr c l → l !! i = Some v → c_getAt i c = Ok v;
  c_front_ok c l v : c_repr c (v :: l) → c_front c = Ok v;
  c_back_ok c l v : c_repr c (l ++ [v]) → c_back c = Ok v;
  c_emplace_front_ok c l v : c_repr c l → length l < c_capacity →
    ∃ p c', c_emplace_front v c = Ok (Some p, c') ∧ c_repr c' (v :: l);
  c_emplace_back_ok c l v : c_repr c l → length l < c_capacity →
    ∃ p c', c_emplace_back v c = Ok (Some p, c') ∧ c_repr c' (l ++ [v]);
  c_emplace_ok c l d v : c_repr c l → d <= length l → length l < c_capacity →
    ∃ p c', c_emplace d v c = Ok (Some p, c') ∧ c_repr c' (take d l ++ v :: drop d l);
  c_pop_front_ok c l v : c_repr c (v :: l) → ∃ c', c_pop_front c = Ok c' ∧ c_repr c' l;
  c_pop_back_ok c l v : c_repr c (l ++ [v]) → ∃ c', c_pop_back c = Ok c' ∧ c_repr c' l;
  c_clear_ok c l : c_repr c l → ∃ c', c_clear c = Ok c' ∧ c_repr c' [];
}.

Section RingContainer.
Context {T : Type} (ChunkSize : nat) (T_default : T).

Definition ring_container : Container T (FixedSizeRing T) := {|
  c_new := new_ring ChunkSize;
  c_range := ring_of_range ChunkSize;
  c_size := ring_size ChunkSize;
  c_empty := ring_empty ChunkSize;
  c_full := ring_full ChunkSize;
  c_getAt := getAt ChunkSize;
  c_front := ring_front ChunkSize;
  c_back := ring_back ChunkSize;
  c_emplace_front := ring_emplace_front ChunkSize;
  c_emplace_back := ring_emplace_back ChunkSize;
  c_emplace d v r := ring_emplace ChunkSize T_default (advance ChunkSize d (ring_begin r)) v r;
  c_pop_front := ring_pop_front ChunkSize;
  c_pop_back := ring_pop_back ChunkSize;
  c_clear := ring_clear ChunkSize;
|}.

Lemma ring_laws : 0 < ChunkSize → @ContainerLaws T (FixedSizeRing T) ring_container.
Proof.
  intros Hpos. refine {| c_repr := ring_repr ChunkSize; c_capacity := ChunkSize |};
    cbn [c_new c_range c_size c_empty c_full c_getAt c_front c_back c_emplace_front c_emplace_back
      c_emplace c_pop_front c_pop_back c_clear ring_container].
  - exact Hpos.
  - intros c l Hr. apply Hr.
  - by apply ring_new.
  - intros l Hl. destruct (ring_fill_run ChunkSize Hpos (new_ring ChunkSize) [] l) as [[_ ?]|[? _]];
      [by apply ring_new|done|done|]. cbn in *. lia.
  - intros c l. by apply ring_size_run.
  - intros c l. by apply ring_empty_run.
  - intros c l. by apply ring_full_run.
  - intros c l i v Hr Hv. rewrite (ring_getAt_run ChunkSize Hpos i c l Hr).
    rewrite (la_get_Ok _ _ _ (rr_at _ _ _ Hr _ _ Hv)). by destruct l.
  - intros c l v Hr. by rewrite (ring_front_run ChunkSize Hpos c _ Hr).
  - intros c l v Hr. by rewrite (ring_back_run ChunkSize Hpos c _ Hr), last_snoc.
  - intros c l v Hr Hl. destruct (ring_emplace_front_run ChunkSize Hpos v c l Hr) as [[? _]|[_ ?]]; [lia|done].
  - intros c l v Hr Hl. destruct (ring_emplace_back_run ChunkSize Hpos v c l Hr)
      as [[? _]|(_ & p & c' & ? & ? & _)]; [lia|eauto].
  - intros c l d v Hr Hd Hl. destruct (ring_emplace_run ChunkSize T_default Hpos d v c l Hr Hd)
      as [[? _]|[_ ?]]; [lia|done].
  - intros c l v Hr. by apply (ring_pop_front_run ChunkSize Hpos c (v :: l)).
  - intros c l v Hr. pose proof (ring_pop_back_run ChunkSize Hpos c _ Hr) as H.
    by rewrite last_snoc, removelast_last in H.
  - intros c l Hr. by apply (ring_clear_run ChunkSize Hpos c l).
Defined.
End RingContainer.

(** ** The deque *)

Section Gdeque.
Context {T C : Type} `{Container T C}.

Record Block := mkBlock { cont : C; next : option nat; prev : option nat }.

Record gdeque := mkGdeque {
  mem : gmap nat Block;
  brk : nat;
  first : option nat;
  last : option nat;
  num : nat;
}.

Definition new_gdeque : gdeque := mkGdeque ∅ 0 None None 0.

Definition set_mem (m : gmap nat Block) (g : gdeque) : gdeque :=
  mkGdeque m (brk g) (first g) (last g) (num g).
Definition set_first (p : option nat) : st gdeque unit :=
  modify (λ g, mkGdeque (mem g) (brk g) p (last g) (num g)).
Definition set_last (p : option nat) : st gdeque unit :=
  modify (λ g, mkGdeque (mem g) (brk g) (first g) p (num g)).
Definition set_num (n : nat) : st gdeque unit :=
  modify (λ g, mkGdeque (mem g) (brk g) (first g) (last g) n).

(** [if (p) yes else no] *)
Definition if_ptr {A} (p : option nat) (yes no : st gdeque A) : st gdeque A :=
  match p with Some _ => yes | None => no end.

(** [*p] and a change of a field of [*p] *)
Definition block_at (p : option nat) : st gdeque Block :=
  reads (λ g, match p with Some a => get_opt (mem g !! a) | None => Err UB end).
Definition change (p : option nat) (f : Block → Block) : st gdeque unit :=
  b ← block_at p;
  match p with
  | Some a => modify (λ g, set_mem (<[a := f b]> (mem g)) g)
  | None => mret tt
  end.
Definition set_next (n : option nat) (b : Block) : Block := mkBlock (cont b) n (prev b).
Definition set_prev (p : option nat) (b : Block) : Block := mkBlock (cont b) (next b) p.
Definition set_cont (c : C) (b : Block) : Block := mkBlock c (next b) (prev b).

(** A method of the block that changes it. *)
Definition call {A} (p : option nat) (f : C → result (A * C)) : st gdeque A :=
  b ← block_at p;
  x ← lift (f (cont b));
  change p (set_cont x.2);;
  mret x.1.
(** A method that only looks at it. *)
Definition ask {A} (p : option nat) (f : C → result A) : st gdeque A :=
  b ← block_at p; lift (f (cont b)).
Definition update (f : C → result C) : C → result (unit * C) := λ c, c' ← f c; Ok (tt, c').

Definition alloc_block (c : C) : st gdeque (option nat) := λ g,
  Ok (Some (brk g), mkGdeque (<[brk g := mkBlock c None None]> (mem g)) (S (brk g)) (first g) (last g) (num g)).
Definition free_block (p : option nat) : st gdeque unit :=
  _ ← block_at p;
  match p with
  | Some a => modify (λ g, set_mem (delete a (mem g)) g)
  | None => mret tt
  end.

Definition gdeque_precondition (g : gdeque) : bool :=
  match first g, last g with
  | None, None => num g =? 0
  | Some _, Some _ => negb (num g =? 0)
  | _, _ => false
  end.
Definition check_precondition : st gdeque unit := reads (λ g, assert (gdeque_precondition g)).

Definition extend_first : st gdeque unit :=
  b ← alloc_block c_new;
  f ← gets first;
  change b (set_next f);;
  if_ptr f (change f (set_prev b)) (mret tt);;
  set_first b;;
  l ← gets last;
  if_ptr l (mret tt) (set_last b).

Definition extend_last : st gdeque unit :=
  b ← alloc_block c_new;
  l ← gets last;
  change b (set_prev l);;
  if_ptr l (change l (set_next b)) (mret tt);;
  set_last b;;
  f ← gets first;
  if_ptr f (mret tt) (set_first b).

Definition shrink (p : option nat) : st gdeque unit :=
  b ← block_at p;
  if_ptr (next b) (change (next b) (set_prev (prev b))) (mret tt);;
  b ← block_at p;
  if_ptr (prev b) (change (prev b) (set_next (next b))) (mret tt);;
  b ← block_at p;
  f ← gets first;
  (if decide (p = f) then set_first (next b) else mret tt);;
  l ← gets last;
  (if decide (p = l) then set_last (prev b) else mret tt);;
  free_block p.

Definition gdeque_size : st gdeque nat := check_precondition;; gets num.
Definition gdeque_empty : st gdeque bool := check_precondition;; n ← gets num; mret (n =? 0).
Definition not_empty : st gdeque unit := e ← gdeque_empty; lift (assert (negb e)).

Definition gdeque_front : st gdeque T := not_empty;; f ← gets first; ask f c_front.
Definition gdeque_back : st gdeque T := not_empty;; l ← gets last; ask l c_back.

Definition gdeque_pop_back : st gdeque unit :=
  not_empty;;
  n ← gets num; set_num (n - 1);;
  l ← gets last;
  call l (update c_pop_back);;
  e ← ask l c_empty;
  if (e : bool) then shrink l else mret tt.

Definition gdeque_pop_front : st gdeque unit :=
  not_empty;;
  n ← gets num; set_num (n - 1);;
  f ← gets first;
  call f (update c_pop_front);;
  e ← ask f c_empty;
  if (e : bool) then shrink f else mret tt.

(** The loop of [clear]; it makes as many rounds as there are blocks. *)
Fixpoint clear_loop (fuel : nat) (b : option nat) : st gdeque unit :=
  match b with
  | None => mret tt
  | Some _ =>
      match fuel with
      | O => lift (Err Diverge)
      | S fuel' =>
          call b (update c_clear);;
          blk ← block_at b;
          free_block b;;
          clear_loop fuel' (next blk)
      end
  end.
Definition gdeque_clear : st gdeque unit :=
  check_precondition;;
  f ← gets first;
  g ← getS;
  clear_loop (size (mem g)) f;;
  set_first None;; set_last None;; set_num 0.

Definition gdeque_emplace_back (v : T) : st gdeque unit :=
  check_precondition;;
  n ← gets num; set_num (S n);;
  l ← gets last;
  full ← if_ptr l (ask l c_full) (mret true);
  (if (full : bool) then extend_last else mret tt);;
  l ← gets last;
  p ← call l (c_emplace_back v);
  lift (assert (bool_decide (is_Some p))).

Definition gdeque_emplace_front (v : T) : st gdeque unit :=
  check_precondition;;
  n ← gets num; set_num (S n);;
  f ← gets first;
  full ← if_ptr f (ask f c_full) (mret true);
  (if (full : bool) then extend_first else mret tt);;
  f ← gets first;
  p ← call f (c_emplace_front v);
  lift (assert (bool_decide (is_Some p))).

(** *** Iterators *)

Record GIterator := mkGIter { it_b : option nat; it_last : option nat; it_offset : nat }.

Definition gdeque_begin : st gdeque GIterator :=
  check_precondition;; g ← getS; mret (mkGIter (first g) (last g) 0).
Definition gdeque_end : st gdeque GIterator :=
  check_precondition;; g ← getS; mret (mkGIter None (last g) 0).

Definition it_increment (i : GIterator) : st gdeque GIterator :=
  n ← ask (it_b i) c_size;
  if S (it_offset i) =? n then
    b ← block_at (it_b i); mret (mkGIter (next b) (it_last i) 0)
  else mret (mkGIter (it_b i) (it_last i) (S (it_offset i))).

(** [b->size() - 1] of an empty block would wrap around; the blocks of a deque are not
    empty. *)
Definition it_decrement (i : GIterator) : st gdeque GIterator :=
  match it_b i with
  | None =>
      n ← ask (it_last i) c_size;
      mret (mkGIter (it_last i) (it_last i) (n - 1))
  | Some _ =>
      if it_offset i =? 0 then
        b ← block_at (it_b i);
        n ← ask (prev b) c_size;
        mret (mkGIter (prev b) (it_last i) (n - 1))
      else mret (mkGIter (it_b i) (it_last i) (it_offset i - 1))
  end.

Definition it_equal (i j : GIterator) : bool :=
  bool_decide (it_b i = it_b j ∧ it_offset i = it_offset j).
Definition it_dereference (i : GIterator) : st gdeque T := ask (it_b i) (c_getAt (it_offset i)).

(** [for (; i != e; ++i)], collecting the elements *)
Fixpoint traverse (fuel : nat) (i e : GIterator) : st gdeque (list T) :=
  if it_equal i e then mret []
  else
    match fuel with
    | O => lift (Err Diverge)
    | S fuel' =>
        v ← it_dereference i;
        i' ← it_increment i;
        l ← traverse fuel' i' e;
        mret (v :: l)
    end.
(** [while (e != i) { --e; ... }] *)
Fixpoint traverse_back (fuel : nat) (i e : GIterator) : st gdeque (list T) :=
  if it_equal i e then mret []
  else
    match fuel with
    | O => lift (Err Diverge)
    | S fuel' =>
        e' ← it_decrement e;
        v ← it_dereference e';
        l ← traverse_back fuel' i e';
        mret (v :: l)
    end.

Fixpoint pop_back_times (n : nat) (p : option nat) : st gdeque unit :=
  match n with
  | O => mret tt
  | S n' => call p (update c_pop_back);; pop_back_times n' p
  end.

(** [emplace(b, ii, args)] with [ii = b->begin() + d]; it returns the block and the
    offset of the new element. *)
Definition emplace_at (b : option nat) (d : nat) (v : T) : st gdeque (option nat * nat) :=
  n ← gets num; set_num (S n);;
  f ← gets first;
  full ← if_ptr b (ask b c_full) (mret false);
  bd ← (match b with
        | None =>
            l ← gets last;
            full ← if_ptr l (ask l c_full) (mret true);
            (if (full : bool) then extend_last else mret tt);;
            l ← gets last;
            d ← ask l c_size;
            mret (l, d)
        | Some _ =>
            if decide (b = f ∧ d = 0) then
              (if (full : bool) then extend_first else mret tt);;
              f ← gets first;
              mret (f, 0)
            else if (full : bool) then
              k ← ask b c_size;
              moved ← ask b (λ c, mapM (λ i, c_getAt i c) (seq d (k - d)));
              c ← lift (c_range moved);
              n ← alloc_block c;
              pop_back_times (k - d) b;;
              d ← ask b c_size;
              blk ← block_at b;
              change n (set_next (next blk));;
              change n (set_prev b);;
              change b (set_next n);;
              l ← gets last;
              (if decide (b = l) then set_last n else mret tt);;
              mret (b, d)
            else mret (b, d)
        end);
  call bd.1 (c_emplace bd.2 v);;
  mret bd.

(** [emplace(pos, args)] *)
Definition gdeque_emplace (pos : GIterator) (v : T) : st gdeque GIterator :=
  bd ← emplace_at (it_b pos) (it_offset pos) v;
  l ← gets last;
  mret (mkGIter bd.1 l bd.2).
End Gdeque.
Arguments gdeque : clear implicits.
Arguments Block : clear implicits.

(** ** What the deque holds *)

Section Facts.
Context {T C : Type} `{ContainerLaws T C}.

Abbreviation blocks := (list (nat * list T)).

(** The first and the last address of a list of blocks, or that of the neighbour. *)
Definition entry (bs : blocks) (nx : option nat) : option nat :=
  match bs with [] => nx | (p, _) :: _ => Some p end.
Fixpoint exit (pv : option nat) (bs : blocks) : option nat :=
  match bs with [] => pv | (p, _) :: bs' => exit (Some p) bs' end.

(** The blocks [bs] are linked in both directions, between the neighbours [pv] and [nx],
    and hold their values. *)
Fixpoint chain (m : gmap nat (Block C)) (pv : option nat) (bs : blocks) (nx : option nat) : Prop :=
  match bs with
  | [] => True
  | (p, l) :: bs' =>
      (∃ c, m !! p = Some (mkBlock c (entry bs' nx) pv) ∧ c_repr c l) ∧ chain m (Some p) bs' nx
  end.

Lemma entry_app bs1 bs2 nx : entry (bs1 ++ bs2) nx = entry bs1 (entry bs2 nx).
Proof. by destruct bs1 as [|[p l] bs1]. Qed.
Lemma exit_app pv bs1 bs2 : exit pv (bs1 ++ bs2) = exit (exit pv bs1) bs2.
Proof. revert pv. induction bs1 as [|[p l] bs1 IH]; intros pv; [done|]. apply IH. Qed.

Lemma exit_Some p bs : is_Some (exit (Some p) bs).
Proof. revert p. induction bs as [|[q l] bs IH]; intros p; [by eexists|]. apply IH. Qed.

Lemma exit_notin p bs : p ∉ bs.*1 → Some p = exit (Some p) bs → bs = [].
Proof.
  destruct bs as [|[q l] bs]; [done|]. cbn [exit fmap list_fmap fst]. intros Hp He. exfalso.
  assert (∀ q, exit (Some q) bs = Some q ∨ ∃ p, exit (Some q) bs = Some p ∧ p ∈ bs.*1) as Hin.
  { clear. induction bs as [|[q l] bs IH]; intros r; [by left|]. right. cbn [exit].
    destruct (IH q) as [->|(p & -> & ?)]; eexists; (split; [done|]); [by left|by right]. }
  apply Hp. destruct (Hin q) as [Hq|(r & Hq & Hr)]; rewrite Hq in He; injection He as ->; [by left|by right].
Qed.

Lemma exit_indep p p' bs : bs ≠ [] → exit p bs = exit p' bs.
Proof. by destruct bs as [|[]]. Qed.

Lemma chain_app m pv bs1 bs2 nx :
  chain m pv (bs1 ++ bs2) nx ↔ chain m pv bs1 (entry bs2 nx) ∧ chain m (exit pv bs1) bs2 nx.
Proof.
  revert pv. induction bs1 as [|[p l] bs1 IH]; intros pv; cbn [chain app exit]; [tauto|].
  rewrite IH, entry_app. tauto.
Qed.

Lemma chain_frame m m' pv bs nx :
  (∀ p, p ∈ bs.*1 → m' !! p = m !! p) → chain m pv bs nx → chain m' pv bs nx.
Proof.
  revert pv. induction bs as [|[p l] bs IH]; intros pv Hm; cbn [chain]; [done|].
  intros [(c & Hc & Hl) Hch]. split.
  - exists c. rewrite Hm; [done|]. by left.
  - apply IH; [|done]. intros q Hq. apply Hm. by right.
Qed.

Lemma chain_dom m pv bs nx q : chain m pv bs nx → q ∈ bs.*1 → q ∈ dom m.
Proof.
  revert pv. induction bs as [|[p l] bs IH]; intros pv; [by intros _ ?%elem_of_nil|].
  intros [(c & Hc & _) Hch] [->|Hq]%elem_of_cons; [by apply elem_of_dom_2 in Hc|by eapply IH].
Qed.

(** The blocks are all of the memory, and [first] and [last] are their ends. *)
Record linked (g : gdeque C) (bs : blocks) : Prop := {
  gb_chain : chain (mem g) None bs None;
  gb_nodup : NoDup bs.*1;
  gb_all p b : mem g !! p = Some b → p ∈ bs.*1;
  gb_brk p : p ∈ bs.*1 → p < brk g;
  gb_first : first g = entry bs None;
  gb_last : last g = exit None bs;
}.

(** Between calls no block is empty. *)
Record gdeque_blocks (g : gdeque C) (bs : blocks) : Prop := {
  gb_linked : linked g bs;
  gb_full : Forall (λ b, b.2 ≠ []) bs;
  gb_num : num g = length (concat bs.*2);
}.

(** The deque [g] holds the values [l]. *)
Definition gdeque_repr (g : gdeque C) (l : list T) : Prop :=
  ∃ bs, gdeque_blocks g bs ∧ concat bs.*2 = l.

Lemma new_gdeque_repr : gdeque_repr new_gdeque [].
Proof.
  exists []. split; [|done]. split; [|done..].
  split; try done; [apply NoDup_nil_2|by intros p ?%elem_of_nil].
Qed.

(** ** Steps on the memory *)

(** A step that cannot fail. *)
Ltac step := erewrite st_bind_step by reflexivity.

Lemma block_at_run (g : gdeque C) p b : mem g !! p = Some b → block_at (Some p) g = Ok (b, g).
Proof. intros E. unfold block_at, reads. by rewrite E. Qed.

Lemma change_run (g : gdeque C) p f b :
  mem g !! p = Some b → change (Some p) f g = Ok (tt, set_mem (<[p := f b]> (mem g)) g).
Proof. intros E. unfold change. by rewrite (st_bind_step _ _ _ _ _ (block_at_run g p b E)). Qed.

Lemma ask_run {A} (g : gdeque C) p b (f : C → result A) a :
  mem g !! p = Some b → f (cont b) = Ok a → ask (Some p) f g = Ok (a, g).
Proof.
  intros E Hf. unfold ask. rewrite (st_bind_step _ _ _ _ _ (block_at_run g p b E)).
  unfold lift. by rewrite Hf.
Qed.

Lemma call_run {A} (g : gdeque C) p b (f : C → result (A * C)) a c :
  mem g !! p = Some b → f (cont b) = Ok (a, c) →
  call (Some p) f g = Ok (a, set_mem (<[p := mkBlock c (next b) (prev b)]> (mem g)) g).
Proof.
  intros E Hf. unfold call. rewrite (st_bind_step _ _ _ _ _ (block_at_run g p b E)).
  rewrite (st_bind_step _ _ g g (a, c)) by (unfold lift; by rewrite Hf).
  by rewrite (st_bind_step _ _ _ _ _ (change_run g p (set_cont c) b E)).
Qed.

Lemma pre_run (g : gdeque C) bs : gdeque_blocks g bs → gdeque_precondition g = true.
Proof.
  intros Hb. unfold gdeque_precondition. pose proof (gb_linked _ _ Hb) as Hl0.
  rewrite (gb_first _ _ Hl0), (gb_last _ _ Hl0), (gb_num _ _ Hb).
  destruct bs as [|[p l] bs]; [done|]. cbn [entry exit fmap list_fmap concat].
  pose proof (gb_full _ _ Hb) as Hf. apply Forall_cons_1 in Hf as [Hl _]. cbn in Hl.
  destruct (exit_Some p bs) as [q ->]. rewrite length_app. by destruct l.
Qed.

(** A block of the chain. *)
Lemma linked_block g bs1 p l bs2 :
  linked g (bs1 ++ (p, l) :: bs2) →
  ∃ c, mem g !! p = Some (mkBlock c (entry bs2 None) (exit None bs1)) ∧ c_repr c l.
Proof. intros Hl. pose proof (gb_chain _ _ Hl) as Hc. apply chain_app in Hc as [_ [Hc _]]. exact Hc. Qed.

Lemma linked_fresh g bs1 p l bs2 :
  linked g (bs1 ++ (p, l) :: bs2) → p ∉ bs1.*1 ∧ p ∉ bs2.*1 ∧ NoDup bs1.*1 ∧ NoDup bs2.*1 ∧
  ∀ q, q ∈ bs1.*1 → q ∉ bs2.*1.
Proof.
  intros Hl. pose proof (gb_nodup _ _ Hl) as Hn. rewrite fmap_app in Hn. cbn in Hn.
  apply list.NoDup_app in Hn as (N1 & Hd & Hn). apply list.NoDup_cons in Hn as [Hp N2].
  split_and!; [|done..|].
  - intros Hin. apply (Hd p Hin). by left.
  - intros q Hq Hq2. apply (Hd q Hq). by right.
Qed.

(** The value of a block changes. *)
Lemma linked_set g bs1 p l bs2 b c l' :
  linked g (bs1 ++ (p, l) :: bs2) → mem g !! p = Some b → c_repr c l' →
  linked (set_mem (<[p := mkBlock c (next b) (prev b)]> (mem g)) g) (bs1 ++ (p, l') :: bs2).
Proof.
  intros Hl Hb Hc. destruct (linked_block _ _ _ _ _ Hl) as (c0 & Hp & _). rewrite Hp in Hb.
  injection Hb as <-. destruct (linked_fresh _ _ _ _ _ Hl) as (F1 & F2 & _).
  assert ((bs1 ++ (p, l') :: bs2).*1 = (bs1 ++ (p, l) :: bs2).*1) as E by (by rewrite !fmap_app).
  assert (∀ bs : blocks, p ∉ bs.*1 → ∀ q b, q ∈ bs.*1 → <[p := b]> (mem g) !! q = mem g !! q) as Hne.
  { intros bs Hbs q b Hq. apply lookup_insert_ne. congruence. }
  pose proof Hl as [Hch ? Hall ? Hf Hla]. split; rewrite ?E; cbn [mem brk first last set_mem]; try done.
  - apply chain_app in Hch as [H1 [_ H2]]. apply chain_app. split; [|split].
    + eapply chain_frame; [|exact H1]. intros q Hq. by apply (Hne bs1).
    + exists c. by rewrite lookup_insert_eq.
    + eapply chain_frame; [|exact H2]. intros q Hq. by apply (Hne bs2).
  - intros q b [[-> _]|[_ Hq]]%lookup_insert_Some; [|by apply (Hall q b)].
    rewrite fmap_app. apply elem_of_app. right. by left.
  - rewrite Hf, !entry_app. done.
  - rewrite Hla, !exit_app. done.
Qed.

Lemma linked_call {A} (f : C → result (A * C)) g bs1 p l bs2 (P : A → list T → Prop) :
  linked g (bs1 ++ (p, l) :: bs2) →
  (∀ c, c_repr c l → ∃ a c' l', f c = Ok (a, c') ∧ c_repr c' l' ∧ P a l') →
  ∃ a g' l', call (Some p) f g = Ok (a, g') ∧ linked g' (bs1 ++ (p, l') :: bs2) ∧ P a l' ∧ num g' = num g ∧
    brk g' = brk g.
Proof.
  intros Hl Hf. destruct (linked_block _ _ _ _ _ Hl) as (c & Hp & Hc).
  destruct (Hf c Hc) as (a & c' & l' & Hfc & Hc' & HP).
  eexists a, _, l'. split_and!; [by eapply call_run|by eapply linked_set|done..].
Qed.

Lemma linked_ask {A} (f : C → result A) g bs1 p l bs2 a :
  linked g (bs1 ++ (p, l) :: bs2) → (∀ c, c_repr c l → f c = Ok a) → ask (Some p) f g = Ok (a, g).
Proof.
  intros Hl Hf. destruct (linked_block _ _ _ _ _ Hl) as (c & Hp & Hc).
  eapply ask_run; [exact Hp|]. by apply Hf.
Qed.

(** Linking the first block of a chain to a new predecessor. *)
Lemma link_prev_run (g : gdeque C) pv bs nx pv' :
  chain (mem g) pv bs nx → NoDup bs.*1 →
  ∃ m, if_ptr (entry bs None) (change (entry bs None) (set_prev pv')) (mret tt) g = Ok (tt, set_mem m g) ∧
    chain m pv' bs nx ∧ (∀ q, q ∉ bs.*1 → m !! q = mem g !! q) ∧ dom m = dom (mem g).
Proof.
  destruct bs as [|[p l] bs].
  { intros _ _. exists (mem g). by destruct g. }
  intros [(c & Hp & Hc) Hch] Hn. apply list.NoDup_cons in Hn as [Hpn _].
  eexists. split_and!; [by apply change_run| |intros q Hq; apply lookup_insert_ne; set_solver|].
  - split; [exists c; by rewrite lookup_insert_eq|]. eapply chain_frame; [|exact Hch].
    intros q Hq. apply lookup_insert_ne. intros ->. by apply Hpn.
  - apply dom_insert_lookup_L. by eexists.
Qed.

(** Linking the last block of a chain to a new successor. *)
Lemma link_next_run (g : gdeque C) pv bs nx nx' :
  chain (mem g) pv bs nx → NoDup bs.*1 →
  ∃ m, if_ptr (exit None bs) (change (exit None bs) (set_next nx')) (mret tt) g = Ok (tt, set_mem m g) ∧
    chain m pv bs nx' ∧ (∀ q, q ∉ bs.*1 → m !! q = mem g !! q) ∧ dom m = dom (mem g).
Proof.
  destruct bs as [|[p l] bs _] using rev_ind.
  { intros _ _. exists (mem g). by destruct g. }
  rewrite chain_app, exit_app, fmap_app. cbn [chain entry exit fmap list_fmap fst].
  intros [H1 [(c & Hp & Hc) _]] Hn. apply list.NoDup_app in Hn as (_ & Hd & _).
  eexists. split_and!; [by apply change_run| |intros q Hq; apply lookup_insert_ne; set_solver|].
  - apply chain_app. split; [|split; [exists c; by rewrite lookup_insert_eq|done]].
    eapply chain_frame; [|exact H1].
    intros q Hq. apply lookup_insert_ne. intros ->. apply (Hd q Hq). by left.
  - apply dom_insert_lookup_L. by eexists.
Qed.

Lemma brk_fresh g bs : linked g bs → brk g ∉ bs.*1.
Proof. intros Hl Hin. pose proof (gb_brk _ _ Hl _ Hin). lia. Qed.

(** What is left to say when the links are in place. *)
Lemma linked_intro g bs :
  chain (mem g) None bs None → NoDup bs.*1 → (∀ q, q ∈ dom (mem g) → q ∈ bs.*1) →
  (∀ q, q ∈ bs.*1 → q < brk g) → first g = entry bs None → last g = exit None bs → linked g bs.
Proof.
  intros. split; [done..| |done|done|done]. intros q b Hq. apply H3. by apply elem_of_dom_2 in Hq.
Qed.

Lemma extend_last_run g bs :
  linked g bs → ∃ g', extend_last g = Ok (tt, g') ∧ linked g' (bs ++ [(brk g, [])]) ∧ num g' = num g.
Proof.
  intros Hl. pose proof (brk_fresh g bs Hl) as Hb. pose proof Hl as [Hc Hn Ha Hk Hf Hla].
  set (g1 := mkGdeque (<[brk g := mkBlock c_new None (last g)]> (mem g)) (S (brk g)) (first g) (last g) (num g)).
  assert (chain (mem g1) None bs None) as Hc1.
  { eapply chain_frame; [|exact Hc]. intros q Hq. apply lookup_insert_ne. congruence. }
  destruct (link_next_run g1 None bs None (Some (brk g)) Hc1 Hn) as (m & Hrun & Hm & Hout & Hdom).
  exists (mkGdeque m (S (brk g)) (entry bs (Some (brk g))) (Some (brk g)) (num g)). split_and!; [| |done].
  - unfold extend_last. step. step. rewrite (st_bind_step _ _ _ g1 tt).
    2:{ erewrite change_run by apply lookup_insert_eq. unfold set_mem, g1. cbn. by rewrite insert_insert_eq. }
    rewrite Hla, (st_bind_step _ _ _ _ _ Hrun). step. step. cbn [first set_mem g1]. rewrite Hf.
    by destruct bs as [|[p l] bs].
  - apply linked_intro; cbn [mem brk first last].
    + apply chain_app. split; [exact Hm|]. split; [|done]. exists c_new. split; [|apply c_new_ok].
      rewrite Hout by done. cbn. by rewrite lookup_insert_eq, Hla.
    + rewrite fmap_app. apply list.NoDup_app. split; [done|]. split; [|apply NoDup_singleton].
      intros q Hq ->%list_elem_of_singleton. done.
    + intros q. rewrite Hdom. cbn. rewrite dom_insert_L, fmap_app, elem_of_app, elem_of_union.
      intros [->%elem_of_singleton|[b Hq]%elem_of_dom]; [right; by left|left; by eapply Ha].
    + intros q. rewrite fmap_app, elem_of_app. intros [Hq|Hq]; [|apply list_elem_of_singleton in Hq; cbn in Hq; lia].
      apply Hk in Hq. lia.
    + by rewrite entry_app.
    + by rewrite exit_app.
Qed.

Lemma extend_first_run g bs :
  linked g bs → ∃ g', extend_first g = Ok (tt, g') ∧ linked g' ((brk g, []) :: bs) ∧ num g' = num g.
Proof.
  intros Hl. pose proof (brk_fresh g bs Hl) as Hb. pose proof Hl as [Hc Hn Ha Hk Hf Hla].
  set (g1 := mkGdeque (<[brk g := mkBlock c_new (first g) None]> (mem g)) (S (brk g)) (first g) (last g) (num g)).
  assert (chain (mem g1) None bs None) as Hc1.
  { eapply chain_frame; [|exact Hc]. intros q Hq. apply lookup_insert_ne. congruence. }
  destruct (link_prev_run g1 None bs None (Some (brk g)) Hc1 Hn) as (m & Hrun & Hm & Hout & Hdom).
  exists (mkGdeque m (S (brk g)) (Some (brk g)) (exit (Some (brk g)) bs) (num g)). split_and!; [| |done].
  - unfold extend_first. step. step. rewrite (st_bind_step _ _ _ g1 tt).
    2:{ erewrite change_run by apply lookup_insert_eq. unfold set_mem, g1. cbn. by rewrite insert_insert_eq. }
    rewrite Hf, (st_bind_step _ _ _ _ _ Hrun). step. step. cbn [last set_mem g1]. rewrite Hla.
    destruct bs as [|[p l] bs]; [done|]. cbn [exit]. by destruct (exit_Some p bs) as [q ->].
  - apply linked_intro; cbn [mem brk first last]; [| | | |done..].
    + split; [|exact Hm]. exists c_new. split; [|apply c_new_ok].
      rewrite Hout by done. cbn. by rewrite lookup_insert_eq, Hf.
    + by apply list.NoDup_cons.
    + intros q. rewrite Hdom. cbn. rewrite dom_insert_L, elem_of_union.
      intros [->%elem_of_singleton|[b Hq]%elem_of_dom]; [by left|right; by eapply Ha].
    + intros q [->|Hq]%elem_of_cons; [cbn; lia|]. apply Hk in Hq. lia.
Qed.

(** A block is taken out of the chain. *)
Lemma shrink_run g bs1 p l bs2 :
  linked g (bs1 ++ (p, l) :: bs2) →
  ∃ g', shrink (Some p) g = Ok (tt, g') ∧ linked g' (bs1 ++ bs2) ∧ num g' = num g.
Proof.
  intros Hl. destruct (linked_block _ _ _ _ _ Hl) as (c & Hp & _).
  destruct (linked_fresh _ _ _ _ _ Hl) as (F1 & F2 & N1 & N2 & D).
  pose proof Hl as [Hc Hn Ha Hk Hf Hla]. apply chain_app in Hc as [H1 [_ H2]].
  destruct (link_prev_run g _ bs2 None (exit None bs1) H2 N2) as (m1 & R1 & C2 & O1 & D1).
  assert (chain (mem (set_mem m1 g)) None bs1 (Some p)) as H1'.
  { eapply chain_frame; [|exact H1]. intros q Hq. apply O1. by apply D. }
  destruct (link_next_run (set_mem m1 g) None bs1 (Some p) (entry bs2 None) H1' N1) as (m2 & R2 & C1 & O2 & D2).
  cbn [mem set_mem] in *.
  assert (m1 !! p = mem g !! p) as E1 by (by apply O1).
  assert (m2 !! p = mem g !! p) as E2 by (by rewrite O2).
  exists (mkGdeque (delete p m2) (brk g) (entry (bs1 ++ bs2) None) (exit None (bs1 ++ bs2)) (num g)).
  split_and!; [| |done].
  - unfold shrink. rewrite (st_bind_step _ _ _ _ _ (block_at_run _ _ _ Hp)). cbn [next prev].
    rewrite (st_bind_step _ _ _ _ _ R1).
    rewrite (st_bind_step _ _ _ _ _ (block_at_run (set_mem m1 g) _ _ (eq_trans E1 Hp))). cbn [next prev].
    rewrite (st_bind_step _ _ _ _ _ R2).
    rewrite (st_bind_step _ _ _ _ _ (block_at_run (set_mem m2 (set_mem m1 g)) _ _ (eq_trans E2 Hp))).
    cbn [next prev]. step. cbn [first set_mem]. rewrite (st_bind_step _ _ _ (mkGdeque m2 (brk g)
      (entry (bs1 ++ bs2) None) (last g) (num g)) tt).
    2:{ rewrite Hf, !entry_app. destruct bs1 as [|[q ?] bs1]; cbn [entry].
        - by rewrite decide_True.
        - rewrite decide_False by (intros [= ->]; apply F1; by left). destruct g; cbn in *. by rewrite Hf. }
    step. cbn [last]. rewrite (st_bind_step _ _ _ (mkGdeque m2 (brk g)
      (entry (bs1 ++ bs2) None) (exit None (bs1 ++ bs2)) (num g)) tt).
    2:{ rewrite Hla, !exit_app. cbn [exit]. case_decide as Hd.
        - by rewrite (exit_notin _ _ F2 Hd).
        - by rewrite (exit_indep (Some p) (exit None bs1) bs2) by (by intros ->). }
    unfold free_block. erewrite st_bind_step by (by apply block_at_run, (eq_trans E2 Hp)). done.
  - apply linked_intro; cbn [mem brk first last]; [| | | |done..].
    + apply chain_app. split.
      * eapply chain_frame; [|exact C1]. intros q Hq. apply lookup_delete_ne. congruence.
      * eapply chain_frame; [|exact C2]. intros q Hq. rewrite lookup_delete_ne by congruence.
        apply O2. intros Hq1. by apply (D q).
    + rewrite fmap_app. by apply list.NoDup_app.
    + intros q. rewrite dom_delete_L, D2, D1, elem_of_difference, elem_of_singleton.
      intros [[b Hq]%elem_of_dom Hqp]. apply Ha in Hq. rewrite fmap_app in *. cbn in Hq.
      apply elem_of_app. apply elem_of_app in Hq as [?|[?|?]%elem_of_cons]; [by left|done|by right].
    + intros q Hq. apply Hk. rewrite fmap_app in *. cbn. apply elem_of_app in Hq as [?|?];
        apply elem_of_app; [by left|right; by right].
Qed.

(** ** Operations *)

Definition with_num (n : nat) (g : gdeque C) : gdeque C := mkGdeque (mem g) (brk g) (first g) (last g) n.

Lemma linked_with_num n g bs : linked g bs → linked (with_num n g) bs.
Proof. by intros []. Qed.

Lemma check_run g bs : gdeque_blocks g bs → check_precondition g = Ok (tt, g).
Proof. intros Hb. unfold check_precondition, reads. by rewrite (pre_run g bs Hb). Qed.

(** The blocks hold the values [l], none of them is empty and [num] counts them. *)
Lemma blocks_repr g bs l :
  linked g bs → Forall (λ b, b.2 ≠ []) bs → concat bs.*2 = l → num g = length l → gdeque_repr g l.
Proof. intros. exists bs. split; [|done]. split; [done..|]. congruence. Qed.

Lemma repr_size g l : gdeque_repr g l → num g = length l.
Proof. intros (bs & Hb & <-). apply (gb_num _ _ Hb). Qed.

Lemma repr_check g l : gdeque_repr g l → check_precondition g = Ok (tt, g).
Proof. intros (bs & Hb & _). by apply check_run with bs. Qed.

Lemma size_run g l : gdeque_repr g l → gdeque_size g = Ok (length l, g).
Proof.
  intros Hr. unfold gdeque_size. rewrite (st_bind_step _ _ _ _ _ (repr_check g l Hr)).
  unfold gets. by rewrite (repr_size g l Hr).
Qed.

Lemma empty_run g l : gdeque_repr g l → gdeque_empty g = Ok (length l =? 0, g).
Proof.
  intros Hr. unfold gdeque_empty. rewrite (st_bind_step _ _ _ _ _ (repr_check g l Hr)). step.
  by rewrite (repr_size g l Hr).
Qed.

Lemma not_empty_run g l : gdeque_repr g l → l ≠ [] → not_empty g = Ok (tt, g).
Proof.
  intros Hr Hl. unfold not_empty. rewrite (st_bind_step _ _ _ _ _ (empty_run g l Hr)). by destruct l.
Qed.
Lemma not_empty_fails g : gdeque_repr g [] → not_empty g = Err AssertFail.
Proof. intros Hr. unfold not_empty. by rewrite (st_bind_step _ _ _ _ _ (empty_run g [] Hr)). Qed.

(** The last block of a deque that is not empty, and its last value. *)
Lemma repr_last g l :
  gdeque_repr g l → l ≠ [] → ∃ bs p k v,
    linked g (bs ++ [(p, k ++ [v])]) ∧ Forall (λ b, b.2 ≠ []) bs ∧ l = concat bs.*2 ++ k ++ [v] ∧
    last g = Some p.
Proof.
  intros (bs & Hb & <-) Hl. destruct bs as [|[p k] bs _] using rev_ind; [done|].
  pose proof (gb_full _ _ Hb) as Hf. apply Forall_app in Hf as [Hf Hk]. rewrite Forall_singleton in Hk. cbn in Hk.
  destruct k as [|v k _] using rev_ind; [by destruct Hk|]. exists bs, p, k, v. split_and!; [apply Hb|done| |].
  - rewrite fmap_app, concat_app. cbn. by rewrite app_nil_r.
  - by rewrite (gb_last _ _ (gb_linked _ _ Hb)), exit_app.
Qed.
Lemma repr_first g v l :
  gdeque_repr g (v :: l) → ∃ bs p k,
    linked g ((p, v :: k) :: bs) ∧ Forall (λ b, b.2 ≠ []) bs ∧ l = k ++ concat bs.*2 ∧ first g = Some p.
Proof.
  intros (bs & Hb & E). destruct bs as [|[p k] bs]; [done|].
  pose proof (gb_full _ _ Hb) as Hf. apply Forall_cons_1 in Hf as [Hk Hf]. cbn in Hk, E.
  destruct k as [|v' k]; [done|]. injection E as -> <-. exists bs, p, k. split_and!; [apply Hb|done|done|].
  apply (gb_first _ _ (gb_linked _ _ Hb)).
Qed.

Lemma back_run g l v : gdeque_repr g (l ++ [v]) → gdeque_back g = Ok (v, g).
Proof.
  intros Hr. unfold gdeque_back. assert (l ++ [v] ≠ []) as Hn by (by destruct l).
  rewrite (st_bind_step _ _ _ _ _ (not_empty_run g _ Hr Hn)).
  destruct (repr_last g _ Hr Hn) as (bs & p & k & v' & Hl & _ & E & Hla). step. rewrite Hla.
  rewrite app_assoc in E. apply app_inj_tail in E as [_ <-].
  eapply linked_ask; [exact Hl|]. intros c. apply c_back_ok.
Qed.
Lemma front_run g l v : gdeque_repr g (v :: l) → gdeque_front g = Ok (v, g).
Proof.
  intros Hr. unfold gdeque_front. rewrite (st_bind_step _ _ _ _ _ (not_empty_run g (v :: l) Hr ltac:(done))).
  destruct (repr_first g _ _ Hr) as (bs & p & k & Hl & _ & E & Hf). step. rewrite Hf.
  eapply (linked_ask _ g []); [exact Hl|]. intros c. apply c_front_ok.
Qed.

(** A method of the block that turns its values [l] into [l']. *)
Lemma linked_update f g bs1 p l bs2 l' :
  linked g (bs1 ++ (p, l) :: bs2) → (∀ c, c_repr c l → ∃ c', f c = Ok c' ∧ c_repr c' l') →
  ∃ g', call (Some p) (update f) g = Ok (tt, g') ∧ linked g' (bs1 ++ (p, l') :: bs2) ∧ num g' = num g.
Proof.
  intros Hl Hf. destruct (linked_call (update f) g bs1 p l bs2 (λ _ x, x = l') Hl)
    as ([] & g' & ? & Hc & Hl' & -> & Hn & _); [|eauto].
  intros c Hc. destruct (Hf c Hc) as (c' & Hfc & Hr). exists tt, c', l'. unfold update. by rewrite Hfc.
Qed.

(** A block that has become empty is freed. *)
Lemma drop_empty_run g bs1 p l bs2 :
  linked g (bs1 ++ (p, l) :: bs2) → Forall (λ b, b.2 ≠ []) (bs1 ++ bs2) →
  num g = length (concat bs1.*2 ++ l ++ concat bs2.*2) →
  ∃ g', (e ← ask (Some p) c_empty; if (e : bool) then shrink (Some p) else mret tt) g = Ok (tt, g') ∧
    gdeque_repr g' (concat bs1.*2 ++ l ++ concat bs2.*2).
Proof.
  intros Hl Hf Hn. rewrite (st_bind_step _ _ g g (length l =? 0)).
  2:{ eapply linked_ask; [exact Hl|]. intros c. apply c_empty_ok. }
  destruct l as [|v l]; cbn [length Nat.eqb].
  - destruct (shrink_run _ _ _ _ _ Hl) as (g' & Hs & Hl' & Hn'). exists g'. split; [done|].
    eapply blocks_repr; [done..| |by rewrite Hn']. by rewrite fmap_app, concat_app.
  - exists g. split; [done|]. eapply blocks_repr; [exact Hl| |by rewrite fmap_app, concat_app|done].
    apply Forall_app in Hf as [? ?]. apply Forall_app. split; [done|]. by apply Forall_cons.
Qed.

Lemma pop_back_run g l v : gdeque_repr g (l ++ [v]) → ∃ g', gdeque_pop_back g = Ok (tt, g') ∧ gdeque_repr g' l.
Proof.
  intros Hr. assert (l ++ [v] ≠ []) as Hn by (by destruct l).
  destruct (repr_last g _ Hr Hn) as (bs & p & k & v' & Hl & Hf & E & Hla).
  rewrite app_assoc in E. apply app_inj_tail in E as [-> <-].
  unfold gdeque_pop_back. rewrite (st_bind_step _ _ _ _ _ (not_empty_run g _ Hr Hn)). step.
  rewrite (repr_size g _ Hr), (st_bind_step (set_num _) _ g (with_num _ g) tt eq_refl).
  rewrite (st_bind_step (gets last) _ _ (with_num _ g) (Some p)) by (unfold gets; by rewrite <-Hla).
  destruct (linked_update c_pop_back (with_num (length ((concat bs.*2 ++ k) ++ [v]) - 1) g) bs p (k ++ [v]) [] k)
    as (g' & Hc & Hl' & Hn'); [by apply linked_with_num|intros c; apply c_pop_back_ok|].
  rewrite (st_bind_step _ _ _ _ _ Hc). 
  assert (concat bs.*2 ++ k = concat bs.*2 ++ k ++ concat ([] : blocks).*2) as -> by (cbn; by rewrite app_nil_r).
  apply drop_empty_run; [done|by rewrite app_nil_r|]. rewrite Hn'. cbn [with_num num]. rewrite !length_app. cbn. lia.
Qed.

Lemma pop_front_run g l v : gdeque_repr g (v :: l) → ∃ g', gdeque_pop_front g = Ok (tt, g') ∧ gdeque_repr g' l.
Proof.
  intros Hr. destruct (repr_first g _ _ Hr) as (bs & p & k & Hl & Hf & -> & Hla).
  unfold gdeque_pop_front.
  rewrite (st_bind_step _ _ _ _ _ (not_empty_run g (v :: k ++ concat bs.*2) Hr ltac:(done))). step.
  rewrite (repr_size g _ Hr), (st_bind_step (set_num _) _ g (with_num _ g) tt eq_refl).
  rewrite (st_bind_step (gets first) _ _ (with_num _ g) (Some p)) by (unfold gets; by rewrite <-Hla).
  destruct (linked_update c_pop_front (with_num (length (v :: k ++ concat bs.*2) - 1) g) [] p (v :: k) bs k)
    as (g' & Hc & Hl' & Hn'); [by apply (linked_with_num _ g ((p, v :: k) :: bs))|intros c; apply c_pop_front_ok|].
  rewrite (st_bind_step _ _ _ _ _ Hc). apply (drop_empty_run g' [] p k bs); [done..|].
  rewrite Hn'. cbn. lia.
Qed.

(** A last block with room: the one there is, or a new one. *)
Lemma room_back_run g bs :
  linked g bs → Forall (λ b, b.2 ≠ []) bs →
  ∃ g' bs' p k, (∀ A (f : unit → st (gdeque C) A),
      (l ← gets last; full ← if_ptr l (ask l c_full) (mret true);
       (if (full : bool) then extend_last else mret tt) ≫= f) g = f tt g') ∧
    linked g' (bs' ++ [(p, k)]) ∧ Forall (λ b, b.2 ≠ []) bs' ∧ concat bs.*2 = concat bs'.*2 ++ k ∧
    length k < c_capacity ∧ last g' = Some p ∧ num g' = num g.
Proof.
  intros Hl Hf.
  assert (∃ g', extend_last g = Ok (tt, g') ∧ linked g' (bs ++ [(brk g, [])]) ∧
    Forall (λ b, b.2 ≠ []) bs ∧ concat bs.*2 = concat bs.*2 ++ [] ∧ length (@nil T) < c_capacity ∧
    last g' = Some (brk g) ∧ num g' = num g) as (g1 & Hext).
  { destruct (extend_last_run g bs Hl) as (g' & He & Hl' & Hn). exists g'.
    rewrite app_nil_r, (gb_last _ _ Hl'), exit_app.
    split_and!; try done. apply c_capacity_pos. }
  destruct Hext as (He & Hext). pose proof (gb_last _ _ Hl) as Hla.
  destruct bs as [|[p k] bs _] using rev_ind.
  { exists g1, [], (brk g), []. split; [|done]. intros A f. step. rewrite Hla. cbn [exit if_ptr].
    step. by rewrite (st_bind_step _ _ _ _ _ He). }
  assert (ask (Some p) c_full g = Ok (length k =? c_capacity, g)) as Hask.
  { eapply linked_ask; [exact Hl|]. intros c. apply c_full_ok. }
  rewrite exit_app in Hla. cbn [exit] in Hla.
  destruct (Nat.eqb_spec (length k) c_capacity) as [Hk|Hk].
  { exists g1, (bs ++ [(p, k)]), (brk g), []. split; [|done]. intros A f. step. rewrite Hla. cbn [if_ptr].
    by rewrite (st_bind_step _ _ _ _ _ Hask), (st_bind_step _ _ _ _ _ He). }
  destruct (linked_block _ _ _ _ _ Hl) as (c & _ & Hc). apply c_room in Hc.
  apply Forall_app in Hf as [Hf _]. exists g, bs, p, k. split_and!; [|done..| |lia|done|done].
  - intros A f. step. rewrite Hla. cbn [if_ptr]. by rewrite (st_bind_step _ _ _ _ _ Hask).
  - rewrite fmap_app, concat_app. cbn. by rewrite app_nil_r.
Qed.

Lemma emplace_back_run g l v : gdeque_repr g l → ∃ g', gdeque_emplace_back v g = Ok (tt, g') ∧ gdeque_repr g' (l ++ [v]).
Proof.
  intros Hr. unfold gdeque_emplace_back. rewrite (st_bind_step _ _ _ _ _ (repr_check g l Hr)). step.
  rewrite (repr_size g l Hr), (st_bind_step (set_num _) _ g (with_num _ g) tt eq_refl).
  destruct Hr as (bs & [Hl Hf Hn] & <-).
  destruct (room_back_run (with_num (S (length (concat bs.*2))) g) bs)
    as (g1 & bs1 & p & k & -> & Hl1 & Hf1 & -> & Hk & Hla & Hn1); [by apply linked_with_num|done|].
  step. rewrite Hla.
  destruct (linked_call (c_emplace_back v) g1 bs1 p k [] (λ a l', is_Some a ∧ l' = k ++ [v]) Hl1)
    as (a & g2 & ? & Hc & Hl2 & [[q ->] ->] & Hn2 & _).
  { intros c Hc. destruct (c_emplace_back_ok c k v Hc Hk) as (q & c' & ? & ?). eauto 10. }
  rewrite (st_bind_step _ _ _ _ _ Hc). exists g2. split; [done|]. eapply blocks_repr; [exact Hl2| | |].
  - apply Forall_app. split; [done|]. apply Forall_singleton. by destruct k.
  - rewrite fmap_app, concat_app. cbn. by rewrite app_nil_r, app_assoc.
  - rewrite Hn2, Hn1. cbn. rewrite !length_app. cbn. lia.
Qed.

(** The same at the front. *)
Lemma room_front_run g bs :
  linked g bs → Forall (λ b, b.2 ≠ []) bs →
  ∃ g' bs' p k, (∀ A (f : unit → st (gdeque C) A),
      (l ← gets first; full ← if_ptr l (ask l c_full) (mret true);
       (if (full : bool) then extend_first else mret tt) ≫= f) g = f tt g') ∧
    linked g' ((p, k) :: bs') ∧ Forall (λ b, b.2 ≠ []) bs' ∧ concat bs.*2 = k ++ concat bs'.*2 ∧
    length k < c_capacity ∧ first g' = Some p ∧ num g' = num g.
Proof.
  intros Hl Hf.
  assert (∃ g', extend_first g = Ok (tt, g') ∧ linked g' ((brk g, []) :: bs) ∧
    Forall (λ b, b.2 ≠ []) bs ∧ concat bs.*2 = [] ++ concat bs.*2 ∧ length (@nil T) < c_capacity ∧
    first g' = Some (brk g) ∧ num g' = num g) as (g1 & Hext).
  { destruct (extend_first_run g bs Hl) as (g' & He & Hl' & Hn). exists g'.
    rewrite (gb_first _ _ Hl').
    split_and!; try done. apply c_capacity_pos. }
  destruct Hext as (He & Hext). pose proof (gb_first _ _ Hl) as Hfi.
  destruct bs as [|[p k] bs]; cbn [entry] in Hfi.
  { exists g1, [], (brk g), []. split; [|done]. intros A f. step. rewrite Hfi. cbn [if_ptr].
    step. by rewrite (st_bind_step _ _ _ _ _ He). }
  assert (ask (Some p) c_full g = Ok (length k =? c_capacity, g)) as Hask.
  { eapply (linked_ask _ g []); [exact Hl|]. intros c. apply c_full_ok. }
  destruct (Nat.eqb_spec (length k) c_capacity) as [Hk|Hk].
  { exists g1, ((p, k) :: bs), (brk g), []. split; [|done]. intros A f. step. rewrite Hfi. cbn [if_ptr].
    by rewrite (st_bind_step _ _ _ _ _ Hask), (st_bind_step _ _ _ _ _ He). }
  destruct (linked_block g [] p k bs Hl) as (c & _ & Hc). apply c_room in Hc.
  apply Forall_cons_1 in Hf as [_ Hf]. exists g, bs, p, k. split_and!; [|done..|lia|done|done].
  intros A f. step. rewrite Hfi. cbn [if_ptr]. by rewrite (st_bind_step _ _ _ _ _ Hask).
Qed.

Lemma emplace_front_run g l v : gdeque_repr g l → ∃ g', gdeque_emplace_front v g = Ok (tt, g') ∧ gdeque_repr g' (v :: l).
Proof.
  intros Hr. unfold gdeque_emplace_front. rewrite (st_bind_step _ _ _ _ _ (repr_check g l Hr)). step.
  rewrite (repr_size g l Hr), (st_bind_step (set_num _) _ g (with_num _ g) tt eq_refl).
  destruct Hr as (bs & [Hl Hf Hn] & <-).
  destruct (room_front_run (with_num (S (length (concat bs.*2))) g) bs)
    as (g1 & bs1 & p & k & -> & Hl1 & Hf1 & -> & Hk & Hla & Hn1); [by apply linked_with_num|done|].
  step. rewrite Hla.
  destruct (linked_call (c_emplace_front v) g1 [] p k bs1 (λ a l', is_Some a ∧ l' = v :: k) Hl1)
    as (a & g2 & ? & Hc & Hl2 & [[q ->] ->] & Hn2 & _).
  { intros c Hc. destruct (c_emplace_front_ok c k v Hc Hk) as (q & c' & ? & ?). eauto 10. }
  rewrite (st_bind_step _ _ _ _ _ Hc). exists g2. split; [done|]. eapply blocks_repr; [exact Hl2| |done|].
  - by apply Forall_cons.
  - rewrite Hn2, Hn1. done.
Qed.

(** [clear] frees the blocks one after the other. *)
Lemma clear_loop_run bs : ∀ g pv fuel,
  chain (mem g) pv bs None → NoDup bs.*1 → length bs <= fuel →
  ∃ m, clear_loop fuel (entry bs None) g = Ok (tt, set_mem m g) ∧
    ∀ q, m !! q = if bool_decide (q ∈ bs.*1) then None else mem g !! q.
Proof.
  induction bs as [|[p l] bs IH]; intros g pv fuel Hc Hn Hfu.
  { exists (mem g). split; [by destruct fuel, g|]. intros q. by rewrite bool_decide_false by apply not_elem_of_nil. }
  destruct fuel as [|fuel]; cbn in Hfu; [lia|]. destruct Hc as [(c & Hp & Hc) Hch].
  apply list.NoDup_cons in Hn as [Hpn Hn]. destruct (c_clear_ok c l Hc) as (c' & Hcl & _).
  cbn [clear_loop entry].
  assert (update c_clear c = Ok (tt, c')) as Hu by (unfold update; by rewrite Hcl).
  rewrite (st_bind_step _ _ _ _ _ (call_run g p _ (update c_clear) tt c' Hp Hu)).
  erewrite st_bind_step by (apply block_at_run, lookup_insert_eq).
  set (g1 := set_mem _ g). rewrite (st_bind_step _ _ _ (set_mem (delete p (mem g)) g) tt).
  2:{ unfold free_block. erewrite st_bind_step by (apply block_at_run, lookup_insert_eq).
      unfold modify, g1, set_mem. cbn. by rewrite delete_insert_eq. }
  assert (∀ q, q ∈ bs.*1 → delete p (mem g) !! q = mem g !! q) as Hfr.
  { intros q Hq. apply lookup_delete_ne. intros ->. by apply Hpn. }
  destruct (IH (set_mem (delete p (mem g)) g) (Some p) fuel) as (m & Hm & Hq); [|done|lia|].
  { by eapply chain_frame. }
  exists m. split; [exact Hm|]. intros q. rewrite Hq. cbn [mem set_mem fmap list_fmap fst].
  destruct (decide (q = p)) as [->|Hqp].
  - rewrite (bool_decide_true (p ∈ p :: _)) by (by left). rewrite lookup_delete_eq. by case_bool_decide.
  - rewrite lookup_delete_ne by done.
    by rewrite (bool_decide_ext (q ∈ p :: bs.*1) (q ∈ bs.*1)) by (rewrite elem_of_cons; naive_solver).
Qed.

Lemma clear_run g l : gdeque_repr g l → ∃ g', gdeque_clear g = Ok (tt, g') ∧ gdeque_repr g' [] ∧ mem g' = ∅.
Proof.
  intros Hr. unfold gdeque_clear. rewrite (st_bind_step _ _ _ _ _ (repr_check g l Hr)). step. step.
  destruct Hr as (bs & [[Hc Hn Ha Hk Hf Hla] _ _] & _). rewrite Hf.
  destruct (clear_loop_run bs g None (size (mem g)) Hc Hn) as (m & Hrun & Hm).
  { rewrite <-(length_fmap fst bs), <-(size_list_to_set (C:=gset nat) bs.*1 Hn), <-size_dom.
    apply subseteq_size. intros q. rewrite elem_of_list_to_set. by apply chain_dom with None None. }
  rewrite (st_bind_step _ _ _ _ _ Hrun).
  assert (m = ∅) as ->.
  { apply map_eq. intros q. rewrite Hm, lookup_empty. case_bool_decide as Hq; [done|].
    destruct (mem g !! q) as [b|] eqn:E; [|done]. destruct Hq. by eapply Ha. }
  eexists. split_and!; [done| |done]. exists []. split; [|done]. split; [|done..].
  split; try done; [apply NoDup_nil_2|by intros p ?%elem_of_nil].
Qed.
(** *** Iteration *)

Lemma linked_deref g bs1 p l bs2 la i v :
  linked g (bs1 ++ (p, l) :: bs2) → l !! i = Some v → it_dereference (mkGIter (Some p) la i) g = Ok (v, g).
Proof. intros Hl Hv. eapply linked_ask; [exact Hl|]. intros c Hc. by eapply c_getAt_ok. Qed.

Lemma it_equal_false (i j : GIterator) : it_b i ≠ it_b j ∨ it_offset i ≠ it_offset j → it_equal i j = false.
Proof. intros Hne. apply bool_decide_eq_false_2. intros []. by destruct Hne. Qed.

(** The next position: in the block, or the first of the next block. *)
Lemma increment_run g bs1 p l bs2 la i :
  linked g (bs1 ++ (p, l) :: bs2) → i < length l →
  it_increment (mkGIter (Some p) la i) g =
  Ok (if S i =? length l then mkGIter (entry bs2 None) la 0 else mkGIter (Some p) la (S i), g).
Proof.
  intros Hl Hi. unfold it_increment. cbn [it_b it_last it_offset].
  rewrite (st_bind_step _ _ g g (length l)).
  2:{ eapply linked_ask; [exact Hl|]. intros c Hc. by apply c_size_ok. }
  destruct (linked_block _ _ _ _ _ Hl) as (c & Hp & _).
  destruct (Nat.eqb_spec (S i) (length l)); [|done].
  by rewrite (st_bind_step _ _ _ _ _ (block_at_run _ _ _ Hp)).
Qed.

Lemma traverse_run bs2 : ∀ g bs1 la fuel,
  linked g (bs1 ++ bs2) → Forall (λ b, b.2 ≠ []) bs2 → length (concat bs2.*2) <= fuel →
  traverse fuel (mkGIter (entry bs2 None) la 0) (mkGIter None la 0) g = Ok (concat bs2.*2, g).
Proof.
  induction bs2 as [|[p l] bs2 IH]; intros g bs1 la fuel Hl Hf Hfu; [by destruct fuel|].
  apply Forall_cons_1 in Hf as [Hln Hf]. cbn in Hln, Hfu. rewrite length_app in Hfu.
  cbn [entry fmap list_fmap snd concat].
  assert (∀ n i fuel, n = length l - i → i < length l → n + length (concat bs2.*2) <= fuel →
    traverse fuel (mkGIter (Some p) la i) (mkGIter None la 0) g = Ok (drop i l ++ concat bs2.*2, g)) as Hin.
  { induction n as [|n IHn]; intros i fu Hn Hi Hfu'; [lia|]. destruct fu as [|fu]; [lia|].
    destruct (lookup_lt_is_Some_2 l i Hi) as [v Hv]. cbn [traverse].
    rewrite it_equal_false by (by left).
    rewrite (st_bind_step _ _ _ _ _ (linked_deref g bs1 p l bs2 la i v Hl Hv)).
    rewrite (st_bind_step _ _ _ _ _ (increment_run g bs1 p l bs2 la i Hl Hi)), (drop_S l v i Hv).
    destruct (Nat.eqb_spec (S i) (length l)) as [Hs|Hs].
    - erewrite st_bind_step; [|apply (IH g (bs1 ++ [(p, l)])); [by rewrite <-app_assoc|done|lia]].
      by rewrite Hs, drop_all.
    - erewrite st_bind_step; [|apply IHn; lia]. done. }
  apply (Hin (length l) 0); [lia| |lia]. destruct l; [done|cbn; lia].
Qed.
Lemma begin_run g l : gdeque_repr g l → gdeque_begin g = Ok (mkGIter (first g) (last g) 0, g).
Proof. intros Hr. unfold gdeque_begin. by rewrite (st_bind_step _ _ _ _ _ (repr_check g l Hr)). Qed.
Lemma end_run g l : gdeque_repr g l → gdeque_end g = Ok (mkGIter None (last g) 0, g).
Proof. intros Hr. unfold gdeque_end. by rewrite (st_bind_step _ _ _ _ _ (repr_check g l Hr)). Qed.

(** The position before the first of [bs2] is the last of [bs1]. *)
Lemma decrement_run g bs1 p l bs2 :
  linked g (bs1 ++ (p, l) :: bs2) → l ≠ [] →
  it_decrement (mkGIter (entry bs2 None) (last g) 0) g =
  Ok (mkGIter (Some p) (last g) (length l - 1), g).
Proof.
  intros Hl Hln. unfold it_decrement. cbn [it_b it_last it_offset Nat.eqb].
  assert (ask (Some p) c_size g = Ok (length l, g)) as Hask.
  { eapply linked_ask; [exact Hl|]. intros c Hc. by apply c_size_ok. }
  destruct bs2 as [|[q k] bs2]; cbn [entry].
  - pose proof (gb_last _ _ Hl) as Hla. rewrite exit_app in Hla. cbn in Hla.
    by rewrite Hla, (st_bind_step _ _ _ _ _ Hask).
  - rewrite (cons_middle _ bs1), app_assoc in Hl. destruct (linked_block _ _ _ _ _ Hl) as (c & Hq & _).
    rewrite (st_bind_step _ _ _ _ _ (block_at_run _ _ _ Hq)). cbn [prev].
    rewrite exit_app. cbn [exit]. by rewrite (st_bind_step _ _ _ _ _ Hask).
Qed.

Lemma traverse_back_run bs1 : ∀ g bs2 fuel,
  linked g (bs1 ++ bs2) → Forall (λ b, b.2 ≠ []) bs1 → length (concat bs1.*2) <= fuel →
  traverse_back fuel (mkGIter (first g) (last g) 0) (mkGIter (entry bs2 None) (last g) 0) g =
  Ok (reverse (concat bs1.*2), g).
Proof.
  induction bs1 as [|[p l] bs1 IH] using rev_ind; intros g bs2 fuel Hl Hf Hfu.
  { rewrite (gb_first _ _ Hl). cbn [app]. assert (∀ i : GIterator, it_equal i i = true) as Hi.
    { intros i. by apply bool_decide_eq_true_2. }
    destruct fuel; cbn [traverse_back]; by rewrite Hi. }
  apply Forall_app in Hf as [Hf Hln]. rewrite Forall_singleton in Hln. cbn in Hln.
  rewrite fmap_app, concat_app in *. cbn [fmap list_fmap snd concat] in *. rewrite app_nil_r in *.
  rewrite length_app in Hfu. rewrite <-app_assoc in Hl. cbn [app] in Hl.
  assert (∀ i fuel, i < length l → i + length (concat bs1.*2) <= fuel →
    traverse_back fuel (mkGIter (first g) (last g) 0) (mkGIter (Some p) (last g) i) g =
    Ok (reverse (concat bs1.*2 ++ take i l), g)) as Hin.
  { induction i as [|i IHi]; intros fu Hi Hfu'.
    { rewrite app_nil_r. apply (IH g ((p, l) :: bs2)); [done|done|lia]. }
    destruct fu as [|fu]; [lia|]. cbn [traverse_back]. rewrite it_equal_false by (right; cbn; lia).
    destruct (lookup_lt_is_Some_2 l i ltac:(lia)) as [v Hv].
    rewrite (st_bind_step _ _ g g (mkGIter (Some p) (last g) i)).
    2:{ unfold it_decrement. cbn. by rewrite Nat.sub_0_r. }
    rewrite (st_bind_step _ _ _ _ _ (linked_deref g bs1 p l bs2 (last g) i v Hl Hv)).
    erewrite st_bind_step by (apply IHi; lia).
    by rewrite (take_S_r l i v Hv), app_assoc, (reverse_app _ [v]). }
  destruct l as [|v l _] using rev_ind; [done|]. rewrite length_app in *. cbn [length] in *.
  destruct fuel as [|fuel]; [lia|]. cbn [traverse_back]. rewrite it_equal_false.
  2:{ left. cbn [it_b]. rewrite (gb_first _ _ Hl), entry_app. pose proof (linked_fresh _ _ _ _ _ Hl) as (F1 & F2 & _ & _ & D).
      destruct bs2 as [|[q k] bs2]; [by destruct bs1 as [|[]]|]. cbn [entry].
      destruct bs1 as [|[r j] bs1]; cbn [entry]; intros [= ->]; [by apply F2; left|apply (D q); by left]. }
  rewrite (st_bind_step _ _ _ _ _ (decrement_run g bs1 p _ bs2 Hl Hln)).
  rewrite length_app. cbn [length].
  rewrite (st_bind_step _ _ g g v).
  2:{ eapply linked_deref; [exact Hl|]. by rewrite lookup_app_r, Nat.add_sub, Nat.sub_diag by lia. }
  erewrite st_bind_step by (apply Hin; lia).
  by rewrite Nat.add_sub, take_app_length, app_assoc, (reverse_app _ [v]).
Qed.
Lemma traverse_all g l :
  gdeque_repr g l → traverse (length l) (mkGIter (first g) (last g) 0) (mkGIter None (last g) 0) g = Ok (l, g).
Proof.
  intros (bs & [Hl Hf _] & <-). rewrite (gb_first _ _ Hl). by apply (traverse_run bs g []).
Qed.
Lemma traverse_back_all g l :
  gdeque_repr g l →
  traverse_back (length l) (mkGIter (first g) (last g) 0) (mkGIter None (last g) 0) g = Ok (reverse l, g).
Proof.
  intros (bs & [Hl Hf _] & <-). apply (traverse_back_run bs g []); [by rewrite app_nil_r|done|done].
Qed.
End Facts.

(** ** The contract *)

Section Contract.
Context {T : Type}.

Inductive gdeque_op :=
  | GPushBack (v : T) | GPushFront (v : T) | GPopBack | GPopFront
  | GFront | GBack | GSize | GEmpty | GClear | GForward | GBackward.
Inductive gdeque_answer :=
  | GDone | GNum (n : nat) | GYes (b : bool) | GVal (v : T) | GSeq (l : list T).

(** The operations on the sequence; [GForward] and [GBackward] visit the elements from
    [begin()] to [end()] and from [end()] to [begin()]. *)
Definition sequence_step (op : gdeque_op) : st (list T) gdeque_answer := λ l,
  let need (o : option T) (k : T → gdeque_answer * list T) :=
    match o with Some v => Ok (k v) | None => Err AssertFail end in
  match op with
  | GPushBack v => Ok (GDone, l ++ [v])
  | GPushFront v => Ok (GDone, v :: l)
  | GPopBack => need (list.last l) (λ _, (GDone, removelast l))
  | GPopFront => need (head l) (λ _, (GDone, tail l))
  | GFront => need (head l) (λ v, (GVal v, l))
  | GBack => need (list.last l) (λ v, (GVal v, l))
  | GSize => Ok (GNum (length l), l)
  | GEmpty => Ok (GYes (length l =? 0), l)
  | GClear => Ok (GDone, [])
  | GForward => Ok (GSeq l, l)
  | GBackward => Ok (GSeq (reverse l), l)
  end.

Definition gdeque_step {C} `{Container T C} (op : gdeque_op) : st (gdeque C) gdeque_answer :=
  match op with
  | GPushBack v => gdeque_emplace_back v;; mret GDone
  | GPushFront v => gdeque_emplace_front v;; mret GDone
  | GPopBack => gdeque_pop_back;; mret GDone
  | GPopFront => gdeque_pop_front;; mret GDone
  | GFront => v ← gdeque_front; mret (GVal v)
  | GBack => v ← gdeque_back; mret (GVal v)
  | GSize => n ← gdeque_size; mret (GNum n)
  | GEmpty => b ← gdeque_empty; mret (GYes b)
  | GClear => gdeque_clear;; mret GDone
  | GForward =>
      n ← gdeque_size; i ← gdeque_begin; e ← gdeque_end; l ← traverse n i e; mret (GSeq l)
  | GBackward =>
      n ← gdeque_size; i ← gdeque_begin; e ← gdeque_end; l ← traverse_back n i e; mret (GSeq l)
  end.

(** A sequence of calls and what they answer. *)
Fixpoint calls {S} (step : gdeque_op → st S gdeque_answer) (ops : list gdeque_op) : st S (list gdeque_answer) :=
  match ops with
  | [] => mret []
  | op :: ops' => a ← step op; l ← calls step ops'; mret (a :: l)
  end.
Definition answers {S} (step : gdeque_op → st S gdeque_answer) (ops : list gdeque_op) (s : S) :
  result (list gdeque_answer) :=
  match calls step ops s with Ok (l, _) => Ok l | Err e => Err e end.

Lemma gdeque_step_refines {C} `{ContainerLaws T C} op (g : gdeque C) l :
  gdeque_repr g l →
  match sequence_step op l with
  | Ok (a, l') => ∃ g', gdeque_step op g = Ok (a, g') ∧ gdeque_repr g' l'
  | Err e => gdeque_step op g = Err e
  end.
Proof.
  intros Hr. pose proof (not_empty_fails g) as Hne.
  destruct op as [v|v| | | | | | | | |]; cbn [sequence_step gdeque_step].
  - destruct (emplace_back_run g l v Hr) as (g' & E & ?). exists g'. by rewrite (st_bind_step _ _ _ _ _ E).
  - destruct (emplace_front_run g l v Hr) as (g' & E & ?). exists g'. by rewrite (st_bind_step _ _ _ _ _ E).
  - destruct l as [|v l _] using rev_ind.
    { unfold gdeque_pop_back, mbind, st_bind. by rewrite Hne. }
    rewrite last_snoc, removelast_last. destruct (pop_back_run g l v Hr) as (g' & E & ?).
    exists g'. by rewrite (st_bind_step _ _ _ _ _ E).
  - destruct l as [|v l]; cbn [head tail].
    { unfold gdeque_pop_front, mbind, st_bind. by rewrite Hne. }
    destruct (pop_front_run g l v Hr) as (g' & E & ?). exists g'. by rewrite (st_bind_step _ _ _ _ _ E).
  - destruct l as [|v l]; cbn [head].
    { unfold gdeque_front, mbind, st_bind. by rewrite Hne. }
    exists g. by rewrite (st_bind_step _ _ _ _ _ (front_run g l v Hr)).
  - destruct l as [|v l _] using rev_ind.
    { unfold gdeque_back, mbind, st_bind. by rewrite Hne. }
    rewrite last_snoc. exists g. by rewrite (st_bind_step _ _ _ _ _ (back_run g l v Hr)).
  - exists g. by rewrite (st_bind_step _ _ _ _ _ (size_run g l Hr)).
  - exists g. by rewrite (st_bind_step _ _ _ _ _ (empty_run g l Hr)).
  - destruct (clear_run g l Hr) as (g' & E & ? & _). exists g'. by rewrite (st_bind_step _ _ _ _ _ E).
  - exists g. rewrite (st_bind_step _ _ _ _ _ (size_run g l Hr)), (st_bind_step _ _ _ _ _ (begin_run g l Hr)).
    by rewrite (st_bind_step _ _ _ _ _ (end_run g l Hr)), (st_bind_step _ _ _ _ _ (traverse_all g l Hr)).
  - exists g. rewrite (st_bind_step _ _ _ _ _ (size_run g l Hr)), (st_bind_step _ _ _ _ _ (begin_run g l Hr)).
    by rewrite (st_bind_step _ _ _ _ _ (end_run g l Hr)), (st_bind_step _ _ _ _ _ (traverse_back_all g l Hr)).
Qed.

Lemma calls_refine {C} `{ContainerLaws T C} ops : ∀ (g : gdeque C) l,
  gdeque_repr g l → answers gdeque_step ops g = answers sequence_step ops l.
Proof.
  induction ops as [|op ops IH]; intros g l Hr; [done|]. unfold answers. cbn [calls].
  pose proof (gdeque_step_refines op g l Hr) as Hs.
  destruct (sequence_step op l) as [[a l']|e] eqn:E.
  - destruct Hs as (g' & Hs & Hr'). rewrite (st_bind_step _ _ _ _ _ Hs), (st_bind_step _ _ _ _ _ E).
    specialize (IH g' l' Hr'). unfold answers in IH. unfold mbind, st_bind.
    destruct (calls gdeque_step ops g') as [[x ?]|], (calls sequence_step ops l') as [[y ?]|];
      simplify_eq; done.
  - unfold mbind, st_bind. by rewrite Hs, E.
Qed.

End Contract.
Arguments gdeque_op : clear implicits.
Arguments gdeque_answer : clear implicits.


(** ** Inserting in the middle *)

(** The calls [push_back(1)], ..., [push_back(4)] with blocks of two, [emplace] of [9] at the
    second position, and two [pop_back()]; then the size, what an iteration visits and
    [back()]. *)
Definition split_then_pop : result (nat * list nat * nat) :=
  let _ : Container nat (FixedSizeRing nat) := ring_container 2 0 in
  x ← (gdeque_emplace_back 1;; gdeque_emplace_back 2;; gdeque_emplace_back 3;; gdeque_emplace_back 4;;
       i ← gdeque_begin; i ← it_increment i;
       gdeque_emplace i 9;;
       gdeque_pop_back;; gdeque_pop_back;;
       n ← gdeque_size; i ← gdeque_begin; e ← gdeque_end; l ← traverse n i e;
       b ← gdeque_back;
       mret (n, l, b)) new_gdeque;
  Ok x.1.

(** [emplace] in front of an element of a full block that is not the last splits the
    block but does not tell the following block of its new predecessor, so removing that
    following block cuts the new one off: with blocks of two, [push_back] of 1, 2, 3 and 4,
    [emplace] of 9 before the 2 and two [pop_back] leave a deque of size three whose
    iteration visits 1 and 9 only, and whose last element is the 9; the 2 is lost. *)
Theorem emplace_split_loses : split_then_pop = Ok (3, [1; 9], 9).
Proof. vm_compute. reflexivity. Qed.
