(* ===== verification/Worklist.v ===== *)
(** * [worklists/Chunk.h] and [worklists/WorkListHelpers.h] of [libgalois/include/galois]

    The worklists of [for_each].  A thread adds to a chunk of its own and takes from a
    chunk of its own; full chunks go to queues that the threads of a socket share and that
    the other threads steal from.  [ChunkMaster] over [ConExtLinkedQueue] is modelled, with
    both values of [IsStack] and [Distributed]: [ChunkFIFO], [PerSocketChunkFIFO] (the
    default of [for_each]) and [PerSocketChunkBag].

    A method is a program of actions on the memory, so that the methods of several
    threads can be interleaved action by action; what [ConExtLinkedQueue] does while it
    holds the lock of its [PtrLock] is one action ([SpinLock] shows that sections under
    that lock are atomic), and so is each access without the lock. *)
From stdpp Require Import gmap list functions.
From S2P Require Import Prelude FixedSizeRing.

(** ** Programs of actions *)

Inductive prog (S A : Type) : Type :=
  | Ret (a : A)
  | Act {B : Type} (f : st S B) (k : B → prog S A).
Arguments Ret {S A} a.
Arguments Act {S A B} f k.

Fixpoint prog_bind {S A B} (q : A → prog S B) (p : prog S A) : prog S B :=
  match p with
  | Ret a => q a
  | Act f k => Act f (λ b, prog_bind q (k b))
  end.
#[export] Instance prog_mret S : MRet (prog S) := λ A, Ret.
#[export] Instance prog_mbind S : MBind (prog S) := λ A B, prog_bind.

Definition act {S A} (f : st S A) : prog S A := Act f Ret.

(** One thread alone. *)
Fixpoint exec {S A} (p : prog S A) : st S A :=
  match p with
  | Ret a => mret a
  | Act f k => b ← f; exec (k b)
  end.

Lemma exec_bind {S A B} (p : prog S A) (q : A → prog S B) s :
  exec (p ≫= q) s = (a ← exec p; exec (q a)) s.
Proof.
  revert s. induction p as [a|B' f k IH]; intros s; [done|]. cbn. unfold mbind, st_bind.
  destruct (f s) as [[b s']|e]; [|done]. apply IH.
Qed.

(** ** The memory *)

Section Worklist.
Context {T : Type} (ChunkSize : nat) (IsStack Distributed : bool).
(** The socket of a thread, and the number of threads of the loop. *)
Context (socket : nat → nat) (activeThreads : nat).

(** A [Chunk] is a ring and a list node. *)
Record Chunk := aChunk { ring : FixedSizeRing T; link : option nat }.
(** [struct p] *)
Record Local := mkLocal { cur : option nat; next : option nat }.

(** [Q] has the queues with their [head] and [tail]. *)
Record wl := mkWl {
  chunks : gmap nat Chunk;
  brk : nat;
  data : nat → Local;
  Q : list (option nat * option nat);
}.

Definition new_wl (sockets : nat) : wl :=
  mkWl ∅ 0 (λ _, mkLocal None None) (replicate sockets (None, None)).

Definition set_chunks (m : gmap nat Chunk) (s : wl) : wl := mkWl m (brk s) (data s) (Q s).
Definition set_data (t : nat) (p : Local) (s : wl) : wl :=
  mkWl (chunks s) (brk s) (<[t := p]> (data s)) (Q s).

(** [data.get()] of the thread [t], and its fields *)
Definition get_cur (t : nat) : st wl (option nat) := gets (λ s, cur (data s t)).
Definition get_next (t : nat) : st wl (option nat) := gets (λ s, next (data s t)).
Definition set_cur (t : nat) (c : option nat) : st wl unit :=
  modify (λ s, set_data t (mkLocal c (next (data s t))) s).
Definition set_next (t : nat) (c : option nat) : st wl unit :=
  modify (λ s, set_data t (mkLocal (cur (data s t)) c) s).

Definition chunk_at (a : nat) : st wl Chunk := reads (λ s, get_opt (chunks s !! a)).
Definition put_chunk (a : nat) (c : Chunk) : st wl unit :=
  modify (λ s, set_chunks (<[a := c]> (chunks s)) s).
Definition set_link (a : nat) (l : option nat) : st wl unit :=
  c ← chunk_at a; put_chunk a (aChunk (ring c) l).
(** A method of the ring of a chunk. *)
Definition on_chunk {A} (a : nat) (f : FixedSizeRing T → result (A * FixedSizeRing T)) : st wl A :=
  c ← chunk_at a;
  x ← lift (f (ring c));
  put_chunk a (aChunk x.2 (link c));;
  mret x.1.

Definition mkChunk : st wl nat := λ s,
  Ok (brk s, mkWl (<[brk s := aChunk (new_ring ChunkSize) None]> (chunks s)) (S (brk s)) (data s) (Q s)).
Definition delChunk (a : nat) : st wl unit :=
  c ← chunk_at a;
  _ ← lift (ring_clear ChunkSize (ring c));
  modify (λ s, set_chunks (delete a (chunks s)) s).

(** ** [ConExtLinkedQueue] *)

Definition get_q (i : nat) : st wl (option nat * option nat) := reads (λ s, get_opt (Q s !! i)).
Definition put_q (i : nat) (q : option nat * option nat) : st wl unit :=
  modify (λ s, mkWl (chunks s) (brk s) (data s) (<[i := q]> (Q s))).

Definition queue_empty (i : nat) : st wl bool := q ← get_q i; mret (bool_decide (q.2 = None)).

Definition queue_push (i C : nat) : st wl unit :=
  set_link C None;;
  q ← get_q i;
  match q.2 with
  | Some tl => set_link tl (Some C);; put_q i (q.1, Some C)
  | None => lift (assert (bool_decide (q.1 = None)));; put_q i (Some C, Some C)
  end.

(** The part of [pop] under the lock, and the write after it to the chunk that is taken out. *)
Definition queue_pop_locked (i : nat) : st wl (option nat) :=
  q ← get_q i;
  match q.1 with
  | None => mret None
  | Some C =>
      c ← chunk_at C;
      (if decide (q.2 = Some C) then
         lift (assert (bool_decide (link c = None)));; put_q i (None, None)
       else put_q i (link c, q.2);; set_link C None);;
      mret (Some C)
  end.
Definition queue_pop (i : nat) : prog wl (option nat) :=
  e ← act (queue_empty i);
  if (e : bool) then mret None else act (queue_pop_locked i).

(** ** [ChunkMaster] *)

(** [squeue] *)
Definition queue_of (i : nat) : nat := if Distributed then socket i else 0.
Definition myEffectiveID (t : nat) : nat := if Distributed then t else 0.
Definition Q_size : nat := if Distributed then activeThreads else 0.

Definition pushChunk (t C : nat) : prog wl unit := act (queue_push (queue_of t) C).
Definition popChunkByID (i : nat) : prog wl (option nat) := queue_pop (queue_of i).

(** The loops of [popChunk]: the first chunk that one of the queues gives. *)
Fixpoint pop_first (ids : list nat) : prog wl (option nat) :=
  match ids with
  | [] => mret None
  | i :: ids' =>
      r ← popChunkByID i;
      match r with Some C => mret (Some C) | None => pop_first ids' end
  end.
Definition pop_order (t : nat) : list nat :=
  let id := myEffectiveID t in
  id :: (seq (id + 1) (Q_size - (id + 1)) ++ seq 0 id).
Definition popChunk (t : nat) : prog wl (option nat) := pop_first (pop_order t).

(** A method of the chunk that [n.cur] or [n.next] points to, if it is not null. *)
Definition if_chunk {A} (c : option nat) (f : FixedSizeRing T → result (option A * FixedSizeRing T)) :
  prog wl (option A) :=
  match c with Some a => act (on_chunk a f) | None => mret None end.
Definition del_chunk (c : option nat) : prog wl unit :=
  match c with Some a => act (delChunk a) | None => mret tt end.

Definition emplacei (t : nat) (v : T) : prog wl unit :=
  n ← act (get_next t);
  r ← if_chunk n (ring_emplace_back ChunkSize v);
  match r with
  | Some _ => mret tt
  | None =>
      match n with Some a => pushChunk t a | None => mret tt end;;
      c ← act mkChunk;
      act (set_next t (Some c));;
      r ← act (on_chunk c (ring_emplace_back ChunkSize v));
      act (lift (assert (bool_decide (is_Some r))))
  end.

Definition flush (t : nat) : prog wl unit :=
  n ← act (get_next t);
  match n with Some a => pushChunk t a | None => mret tt end;;
  act (set_next t None).

Definition push (t : nat) (v : T) : prog wl unit := emplacei t v.
Fixpoint push_range (t : nat) (vs : list T) : prog wl unit :=
  match vs with
  | [] => mret tt
  | v :: vs' => emplacei t v;; push_range t vs'
  end.

Definition pop (t : nat) : prog wl (option T) :=
  if IsStack then
    n ← act (get_next t);
    r ← if_chunk n (ring_extract_back ChunkSize);
    match r with
    | Some v => mret (Some v)
    | None =>
        del_chunk n;;
        c ← popChunk t;
        act (set_next t c);;
        if_chunk c (ring_extract_back ChunkSize)
    end
  else
    c ← act (get_cur t);
    r ← if_chunk c (ring_extract_front ChunkSize);
    match r with
    | Some v => mret (Some v)
    | None =>
        del_chunk c;;
        c ← popChunk t;
        act (set_cur t c);;
        match c with
        | Some _ => mret tt
        | None =>
            n ← act (get_next t);
            act (set_cur t n);;
            act (set_next t None)
        end;;
        c ← act (get_cur t);
        if_chunk c (ring_extract_front ChunkSize)
    end.

(** [peek], which returns the address of a value: the value. *)
Definition peek_chunk (f : FixedSizeRing T → result T) (r : FixedSizeRing T) :
  result (option T * FixedSizeRing T) :=
  e ← ring_empty ChunkSize r;
  if (e : bool) then Ok (None, r) else v ← f r; Ok (Some v, r).
Definition peek (t : nat) : prog wl (option T) :=
  if IsStack then
    n ← act (get_next t);
    r ← if_chunk n (peek_chunk (ring_back ChunkSize));
    match r with
    | Some v => mret (Some v)
    | None =>
        del_chunk n;;
        c ← popChunk t;
        act (set_next t c);;
        if_chunk c (peek_chunk (ring_back ChunkSize))
    end
  else
    c ← act (get_cur t);
    r ← if_chunk c (peek_chunk (ring_front ChunkSize));
    match r with
    | Some v => mret (Some v)
    | None =>
        del_chunk c;;
        c ← popChunk t;
        act (set_cur t c);;
        match c with
        | Some _ => mret tt
        | None =>
            n ← act (get_next t);
            act (set_cur t n);;
            act (set_next t None)
        end;;
        c ← act (get_cur t);
        if_chunk c (peek_chunk (ring_front ChunkSize))
    end.
Definition pop_peeked (t : nat) : prog wl unit :=
  c ← act (if IsStack then get_next t else get_cur t);
  match c with
  | Some a =>
      act (on_chunk a (λ r, r' ← (if IsStack then ring_pop_back ChunkSize r else ring_pop_front ChunkSize r);
                            Ok (tt, r')))
  | None => act (lift (Err UB))
  end.
End Worklist.
Arguments wl : clear implicits.
Arguments Chunk : clear implicits.

(** ** Threads that share a worklist *)

Section Threads.
Context {T : Type} (ChunkSize : nat) (IsStack Distributed : bool).
Context (socket : nat → nat) (activeThreads : nat).

Inductive wl_call := CPush (v : T) | CPushRange (vs : list T) | CFlush | CPop | CPeek.

(** The values that a call brings in; the program of the call, with the values that it
    hands out. *)
Definition brings (c : wl_call) : list T :=
  match c with CPush v => [v] | CPushRange vs => vs | _ => [] end.
Definition method (t : nat) (c : wl_call) : prog (wl T) (list T) :=
  match c with
  | CPush v => push ChunkSize Distributed socket t v;; mret []
  | CPushRange vs => push_range ChunkSize Distributed socket t vs;; mret []
  | CFlush => flush Distributed socket t;; mret []
  | CPop => r ← pop ChunkSize IsStack Distributed socket activeThreads t; mret (option_list r)
  | CPeek => _ ← peek ChunkSize IsStack Distributed socket activeThreads t; mret []
  end.

(** [threads] has the rest of the call that a thread is in; [pushed] and [popped] are the
    values that calls have brought in and handed out. *)
Record config := mkConfig {
  memory : wl T;
  threads : list (option (prog (wl T) (list T)));
  pushed : list T;
  popped : list T;
}.

Inductive thread_step : config → config → Prop :=
  | step_call s ths ps qs t c :
      ths !! t = Some None →
      thread_step (mkConfig s ths ps qs) (mkConfig s (<[t := Some (method t c)]> ths) (ps ++ brings c) qs)
  | step_act s ths ps qs t B (f : st (wl T) B) k b s' :
      ths !! t = Some (Some (Act f k)) → f s = Ok (b, s') →
      thread_step (mkConfig s ths ps qs) (mkConfig s' (<[t := Some (k b)]> ths) ps qs)
  | step_return s ths ps qs t r :
      ths !! t = Some (Some (Ret r)) →
      thread_step (mkConfig s ths ps qs) (mkConfig s (<[t := None]> ths) ps (qs ++ r)).

Definition start_config (sockets : nat) : config :=
  mkConfig (new_wl sockets) (replicate activeThreads None) [] [].

(** The step that a thread makes next, if it is in a call; a run in a given order. *)
Inductive event := ECall (t : nat) (c : wl_call) | ENext (t : nat).
Definition event_step (e : event) (c : config) : option config :=
  match e with
  | ECall t m =>
      match threads c !! t with
      | Some None => Some (mkConfig (memory c) (<[t := Some (method t m)]> (threads c)) (pushed c ++ brings m) (popped c))
      | _ => None
      end
  | ENext t =>
      match threads c !! t with
      | Some (Some (Ret r)) => Some (mkConfig (memory c) (<[t := None]> (threads c)) (pushed c) (popped c ++ r))
      | Some (Some (Act f k)) =>
          match f (memory c) with
          | Ok (b, s') => Some (mkConfig s' (<[t := Some (k b)]> (threads c)) (pushed c) (popped c))
          | Err _ => None
          end
      | _ => None
      end
  end.
Fixpoint run_events (es : list event) (c : config) : option config :=
  match es with
  | [] => Some c
  | e :: es' => match event_step e c with Some c' => run_events es' c' | None => None end
  end.

Lemma run_events_steps es c c' : run_events es c = Some c' → rtc thread_step c c'.
Proof.
  revert c. induction es as [|e es IH]; intros c; cbn [run_events]; [intros [= ->]; apply rtc_refl|].
  destruct (event_step e c) as [c1|] eqn:E; [|done]. intros Hr. eapply rtc_l; [|by apply IH].
  clear IH Hr. destruct c as [s ths ps qs], e as [t m|t]; cbn in E.
  - destruct (ths !! t) as [[p|]|] eqn:Et; simplify_eq. by apply step_call.
  - destruct (ths !! t) as [[[r|B f k]|]|] eqn:Et; simplify_eq; [by apply step_return|].
    destruct (f s) as [[b s']|] eqn:Ef; simplify_eq. by eapply step_act.
Qed.

(** The values in the chunks of the memory. *)
Definition ring_items (r : FixedSizeRing T) : list T :=
  omap (λ i, mjoin (datac r !! ((start r + i) mod ChunkSize))) (seq 0 (count r)).
Definition stored (s : wl T) : list T := concat (List.map (λ x, ring_items (ring x.2)) (map_to_list (chunks s))).
End Threads.
Arguments wl_call : clear implicits.
Arguments config : clear implicits.
Arguments event : clear implicits.

(** ** Who has which chunk *)

Section Logic.
Context {T : Type} (ChunkSize : nat) (IsStack Distributed : bool).
Context (socket : nat → nat) (activeThreads sockets : nat).
Hypothesis ChunkSize_pos : 0 < ChunkSize.
Hypothesis socket_lt : ∀ i, socket i < sockets.
Hypothesis sockets_pos : 0 < sockets.

Abbreviation cells := (list (nat * list T)).

(** The chunk at [a] holds the values [l]. *)
Definition holds (m : gmap nat (Chunk T)) (x : nat * list T) : Prop :=
  ∃ c, m !! x.1 = Some c ∧ ring_repr ChunkSize (ring c) x.2.

(** The chunks of a queue, linked from [head] to [tail]; [nx] follows. *)
Definition entry (c : cells) (nx : option nat) : option nat :=
  match c with [] => nx | (a, _) :: _ => Some a end.
Fixpoint links (m : gmap nat (Chunk T)) (c : cells) (nx : option nat) : Prop :=
  match c with
  | [] => True
  | (a, l) :: c' => (∃ r, m !! a = Some (aChunk r (entry c' nx)) ∧ ring_repr ChunkSize r l) ∧ links m c' nx
  end.
Definition queue_ok (m : gmap nat (Chunk T)) (q : option nat * option nat) (c : cells) : Prop :=
  links m c None ∧ q = (entry c None, list.last c.*1).

Lemma links_app m c1 c2 nx : links m (c1 ++ c2) nx ↔ links m c1 (entry c2 nx) ∧ links m c2 nx.
Proof.
  induction c1 as [|[a l] c1 IH]; cbn [links app]; [tauto|]. rewrite IH.
  replace (entry (c1 ++ c2) nx) with (entry c1 (entry c2 nx)) by (by destruct c1 as [|[]]). tauto.
Qed.

(** The memory consists of the chunks in the queues, the chunks [own] that belong to one
    thread and the chunks [frame] of the other threads. *)
Record world (s : wl T) (qs : list cells) (own frame : cells) : Prop := {
  w_queues : Forall2 (queue_ok (chunks s)) (Q s) qs;
  w_sockets : length (Q s) = sockets;
  w_holds : Forall (holds (chunks s)) (own ++ frame);
  w_nodup : NoDup (concat qs ++ own ++ frame).*1;
  w_all a : a ∈ dom (chunks s) → a ∈ (concat qs ++ own ++ frame).*1;
  w_brk a : a ∈ (concat qs ++ own ++ frame).*1 → a < brk s;
}.

(** The values in a number of chunks. *)
Definition items (c : cells) : list T := concat c.*2.

Lemma items_app c c' : items (c ++ c') = items c ++ items c'.
Proof. unfold items. by rewrite fmap_app, concat_app. Qed.
#[local] Instance items_perm : Proper ((≡ₚ) ==> (≡ₚ)) items.
Proof.
  intros c c' Hc. unfold items. induction Hc as [|x c c' _ IH|x y c|c c' c'' _ IH1 _ IH2]; cbn.
  - done.
  - by rewrite IH.
  - by rewrite !app_assoc, (Permutation_app_comm x.2).
  - by rewrite IH1.
Qed.

Lemma holds_frame m m' c :
  (∀ a, a ∈ c.*1 → m' !! a = m !! a) → Forall (holds m) c → Forall (holds m') c.
Proof.
  intros Hm Hc. rewrite list.Forall_forall in *. intros x Hx. destruct (Hc x Hx) as (ch & ? & ?).
  exists ch. rewrite Hm; [done|]. by apply list_elem_of_fmap_2.
Qed.
Lemma links_frame m m' c nx : (∀ a, a ∈ c.*1 → m' !! a = m !! a) → links m c nx → links m' c nx.
Proof.
  induction c as [|[a l] c IH]; intros Hm; [done|]. intros [(r & Hr & ?) Hc]. split.
  - exists r. rewrite Hm; [done|]. by left.
  - apply IH; [|done]. intros b Hb. apply Hm. by right.
Qed.
Lemma queues_frame m m' q qs :
  (∀ a, a ∈ (concat qs).*1 → m' !! a = m !! a) → Forall2 (queue_ok m) q qs → Forall2 (queue_ok m') q qs.
Proof.
  intros Hm Hq. induction Hq as [|x c q qs [Hc ->] _ IH]; [done|]. cbn in Hm. constructor.
  - split; [|done]. eapply links_frame; [|exact Hc]. intros a Ha. apply Hm. rewrite fmap_app.
    apply elem_of_app. by left.
  - apply IH. intros a Ha. apply Hm. rewrite fmap_app. apply elem_of_app. by right.
Qed.

Lemma world_perm s qs own own' frame frame' :
  own ≡ₚ own' → frame ≡ₚ frame' → world s qs own frame → world s qs own' frame'.
Proof.
  intros Ho Hf []. split; try done; try (intros a); rewrite <-Ho, <-Hf; auto.
Qed.

Lemma world_disjoint s qs own frame a :
  world s qs own frame → a ∈ own.*1 → a ∉ (concat qs).*1 ∧ a ∉ frame.*1.
Proof.
  intros Hw Ha. pose proof (w_nodup _ _ _ _ Hw) as Hn. rewrite !fmap_app in Hn.
  apply list.NoDup_app in Hn as (_ & Hd & Hn). apply list.NoDup_app in Hn as (_ & Hd' & _). split.
  - intros Hq. apply (Hd a Hq). apply elem_of_app. by left.
  - by apply Hd'.
Qed.

(** A change of the chunks of the thread. *)
Lemma world_own_change s s' qs own own' frame :
  world s qs own frame →
  (∀ b, b ∉ own.*1 → chunks s' !! b = chunks s !! b) → dom (chunks s') = dom (chunks s) →
  brk s' = brk s → Q s' = Q s → Forall (holds (chunks s')) own' → own'.*1 ≡ₚ own.*1 →
  world s' qs own' frame.
Proof.
  intros Hw Hb Hd Hk HQ Hh Hp. pose proof (world_disjoint s qs own frame) as Hdis.
  pose proof Hw as [Hqs Hs Hho Hn Ha Hbr]. apply Forall_app in Hho as [_ Hfr].
  assert ((concat qs ++ own' ++ frame).*1 ≡ₚ (concat qs ++ own ++ frame).*1) as E by (by rewrite !fmap_app, Hp).
  split; rewrite ?HQ, ?Hd, ?Hk; try done.
  - eapply queues_frame; [|exact Hqs]. intros a Hin. apply Hb. intros Ho. by destruct (Hdis a Hw Ho).
  - apply Forall_app. split; [done|]. eapply holds_frame; [|exact Hfr].
    intros a Hin. apply Hb. intros Ho. by destruct (Hdis a Hw Ho).
  - by rewrite E.
  - intros a. rewrite E. apply Ha.
  - intros a. rewrite E. apply Hbr.
Qed.

(** A change of a queue and of the chunks of the thread. *)
Lemma world_queue_change s s' q1 c c' q2 own own' frame p' :
  world s (q1 ++ c :: q2) own frame →
  (∀ b, b ∉ (c ++ own).*1 → chunks s' !! b = chunks s !! b) → dom (chunks s') = dom (chunks s) →
  brk s' = brk s → Q s' = <[length q1 := p']> (Q s) →
  queue_ok (chunks s') p' c' → Forall (holds (chunks s')) own' → (c' ++ own').*1 ≡ₚ (c ++ own).*1 →
  world s' (q1 ++ c' :: q2) own' frame.
Proof.
  intros [Hqs Hs Hho Hn Ha Hbr] Hb Hd Hk HQ Hc Hh Hp. apply Forall_app in Hho as [_ Hfr].
  assert (∀ c own, (concat (q1 ++ c :: q2) ++ own ++ frame).*1 ≡ₚ
    (c ++ own).*1 ++ (concat q1 ++ concat q2 ++ frame).*1) as E0.
  { intros x y. rewrite concat_app. cbn. rewrite !fmap_app. solve_Permutation. }
  assert ((concat (q1 ++ c' :: q2) ++ own' ++ frame).*1 ≡ₚ (concat (q1 ++ c :: q2) ++ own ++ frame).*1) as E
    by (by rewrite !E0, Hp).
  rewrite E0 in Hn. apply list.NoDup_app in Hn as (N1 & Hdis & N2).
  assert (∀ x : cells, x ⊆+ concat q1 ++ concat q2 ++ frame → ∀ b, b ∈ x.*1 → chunks s' !! b = chunks s !! b) as Hfree.
  { intros x Hx b Hin. apply Hb. intros Hbo. apply (Hdis b Hbo).
    eapply elem_of_submseteq; [exact Hin|]. by apply fmap_submseteq. }
  apply Forall2_app_inv_r in Hqs as (p1 & p2 & H1 & H2 & EQ).
  apply Forall2_cons_inv_r in H2 as (q & p2' & _ & H2 & ->).
  assert (length p1 = length q1) as El by (by eapply Forall2_length).
  split; rewrite ?Hd, ?Hk; try done.
  - rewrite HQ, EQ, <-El, insert_app_r_alt, Nat.sub_diag by lia. cbn.
    apply Forall2_app; [|constructor]; [| done|]; (eapply queues_frame; [|done]); apply Hfree; solve_submseteq.
  - by rewrite HQ, length_insert.
  - apply Forall_app. split; [done|]. eapply holds_frame; [|exact Hfr]. apply Hfree. solve_submseteq.
  - by rewrite E, E0, list.NoDup_app.
  - intros a. rewrite E. apply Ha.
  - intros a. rewrite E. apply Hbr.
Qed.

(** ** Actions *)

Lemma chunk_at_run (s : wl T) a c : chunks s !! a = Some c → chunk_at a s = Ok (c, s).
Proof. intros E. unfold chunk_at, reads. by rewrite E. Qed.
Lemma set_link_run (s : wl T) a c l :
  chunks s !! a = Some c → set_link a l s = Ok (tt, set_chunks (<[a := aChunk (ring c) l]> (chunks s)) s).
Proof. intros E. unfold set_link. by rewrite (st_bind_step _ _ _ _ _ (chunk_at_run s a c E)). Qed.

Lemma own_chunk s qs a l own frame :
  world s qs ((a, l) :: own) frame → ∃ c, chunks s !! a = Some c ∧ ring_repr ChunkSize (ring c) l.
Proof. intros Hw. pose proof (w_holds _ _ _ _ Hw) as Hh. by apply Forall_cons_1 in Hh as [Hh _]. Qed.

Lemma own_nodup s qs a l own frame : world s qs ((a, l) :: own) frame → a ∉ own.*1.
Proof.
  intros Hw. pose proof (w_nodup _ _ _ _ Hw) as Hn. rewrite fmap_app in Hn.
  apply list.NoDup_app in Hn as (_ & _ & Hn). cbn in Hn. apply list.NoDup_cons in Hn as [Hn _].
  intros Ha. apply Hn. rewrite fmap_app. apply elem_of_app. by left.
Qed.

(** The method [f] of a ring that holds [l] returns [b] and leaves [l'] with [P b l']. *)
Definition ring_does {A} (f : FixedSizeRing T → result (A * FixedSizeRing T)) (l : list T)
    (P : A → list T → Prop) : Prop :=
  ∀ r, ring_repr ChunkSize r l → ∃ b r' l', f r = Ok (b, r') ∧ ring_repr ChunkSize r' l' ∧ P b l'.

Lemma on_chunk_run {A} (f : FixedSizeRing T → result (A * FixedSizeRing T)) s qs a l own frame P :
  world s qs ((a, l) :: own) frame → ring_does f l P →
  ∃ b s' l', on_chunk a f s = Ok (b, s') ∧ world s' qs ((a, l') :: own) frame ∧ data s' = data s ∧ P b l'.
Proof.
  intros Hw Hf. destruct (own_chunk _ _ _ _ _ _ Hw) as (c & Hc & Hr).
  destruct (Hf _ Hr) as (b & r' & l' & Hfr & Hr' & HP). eexists b, _, l'. split_and!.
  - unfold on_chunk. rewrite (st_bind_step _ _ _ _ _ (chunk_at_run s a c Hc)). unfold lift. rewrite Hfr. done.
  - pose proof (w_holds _ _ _ _ Hw) as Hh. apply Forall_app in Hh as [Hh _].
    apply Forall_cons_1 in Hh as [_ Hh]. eapply world_own_change; [exact Hw|..]; cbn; try done.
    + intros x Hx. apply lookup_insert_ne. intros ->. apply Hx. by left.
    + apply dom_insert_lookup_L. by eexists.
    + constructor; [eexists; cbn; rewrite lookup_insert_eq; by split|].
      eapply holds_frame; [|exact Hh]. intros x Hx. apply lookup_insert_ne. intros ->.
      by apply (own_nodup _ _ _ _ _ _ Hw).
  - done.
  - done.
Qed.

Lemma mkChunk_run s qs own frame :
  world s qs own frame →
  ∃ s', mkChunk ChunkSize s = Ok (brk s, s') ∧ world s' qs ((brk s, []) :: own) frame ∧ data s' = data s.
Proof.
  intros Hw. pose proof Hw as [Hqs Hs Hho Hn Ha Hbr].
  assert (∀ c : cells, c ⊆+ concat qs ++ own ++ frame → ∀ x, x ∈ c.*1 →
    <[brk s := aChunk (new_ring ChunkSize) None]> (chunks s) !! x = chunks s !! x) as Hfr.
  { intros c Hc x Hx. apply lookup_insert_ne. intros <-. assert (brk s < brk s); [|lia].
    apply Hbr. eapply elem_of_submseteq; [exact Hx|]. by apply fmap_submseteq. }
  eexists. split_and!; [done| |done].
  assert ((concat qs ++ ((brk s, []) :: own) ++ frame).*1 ≡ₚ brk s :: (concat qs ++ own ++ frame).*1) as E.
  { apply (fmap_Permutation fst _ ((brk s, []) :: concat qs ++ own ++ frame)). solve_Permutation. }
  split; cbn [chunks brk data Q]; try done.
  - eapply queues_frame; [|exact Hqs]. apply Hfr. solve_submseteq.
  - constructor; [eexists; cbn; rewrite lookup_insert_eq; split; [done|by apply ring_new]|].
    eapply holds_frame; [|exact Hho]. apply Hfr. solve_submseteq.
  - rewrite E. apply list.NoDup_cons. split; [|done]. intros Hin. apply Hbr in Hin. lia.
  - intros a. rewrite E, dom_insert_L, elem_of_union, elem_of_singleton, elem_of_cons.
    intros [->|?]; [by left|right; by apply Ha].
  - intros a. rewrite E, elem_of_cons. intros [->|Hin]; [lia|]. apply Hbr in Hin. lia.
Qed.

Lemma delChunk_run s qs a l own frame :
  world s qs ((a, l) :: own) frame →
  ∃ s', delChunk ChunkSize a s = Ok (tt, s') ∧ world s' qs own frame ∧ data s' = data s.
Proof.
  intros Hw. destruct (own_chunk _ _ _ _ _ _ Hw) as (c & Hc & Hr).
  destruct (ring_clear_run ChunkSize ChunkSize_pos _ _ Hr) as (r' & Hcl & _).
  pose proof Hw as [Hqs Hs Hho Hn Ha Hbr].
  assert ((concat qs ++ ((a, l) :: own) ++ frame).*1 ≡ₚ a :: (concat qs ++ own ++ frame).*1) as E.
  { apply (fmap_Permutation fst _ ((a, l) :: concat qs ++ own ++ frame)). solve_Permutation. }
  rewrite E in Hn. apply list.NoDup_cons in Hn as [Hna Hn]. eexists. split_and!.
  - unfold delChunk. rewrite (st_bind_step _ _ _ _ _ (chunk_at_run s a c Hc)). unfold lift. rewrite Hcl. done.
  - assert (∀ c : cells, c ⊆+ concat qs ++ own ++ frame → ∀ x, x ∈ c.*1 →
      delete a (chunks s) !! x = chunks s !! x) as Hfr.
    { intros x Hx y Hy. apply lookup_delete_ne. intros <-. apply Hna.
      eapply elem_of_submseteq; [exact Hy|]. by apply fmap_submseteq. }
    split; cbn [chunks brk data Q set_chunks]; try done.
    + eapply queues_frame; [|exact Hqs]. apply Hfr. solve_submseteq.
    + apply Forall_cons_1 in Hho as [_ Hho]. eapply holds_frame; [|exact Hho]. apply Hfr. solve_submseteq.
    + intros x. rewrite dom_delete_L, elem_of_difference, elem_of_singleton. intros [Hx Hne].
      apply Ha in Hx. rewrite E in Hx. by apply elem_of_cons in Hx as [|].
    + intros x Hx. apply Hbr. rewrite E. by right.
  - done.
Qed.
(** A queue of the world. *)
Lemma world_queue s q1 c q2 own frame :
  world s (q1 ++ c :: q2) own frame →
  Q s !! length q1 = Some (entry c None, list.last c.*1) ∧ links (chunks s) c None ∧
  NoDup (c ++ own).*1.
Proof.
  intros Hw. pose proof Hw as [Hqs _ _ Hn _ _]. split_and!.
  - eapply Forall2_lookup_r in Hqs as (q & Hq & [_ ->]); [done|]. by apply list_lookup_middle.
  - eapply (Forall2_lookup_r _ _ _ (length q1)) in Hqs as (q & Hq & [Hl _]); [done|]. by apply list_lookup_middle.
  - assert (concat (q1 ++ c :: q2) ++ own ++ frame ≡ₚ (c ++ own) ++ concat q1 ++ concat q2 ++ frame) as E.
    { rewrite concat_app. cbn. solve_Permutation. }
    rewrite E, (fmap_app _ (c ++ own)) in Hn. by apply list.NoDup_app in Hn as (? & _ & _).
Qed.

Lemma get_q_run (s : wl T) i q : Q s !! i = Some q → get_q i s = Ok (q, s).
Proof. intros E. unfold get_q, reads. by rewrite E. Qed.

Lemma queue_empty_run s q1 c q2 own frame :
  world s (q1 ++ c :: q2) own frame → queue_empty (length q1) s = Ok (length c =? 0, s).
Proof.
  intros Hw. destruct (world_queue _ _ _ _ _ _ Hw) as (Hq & _ & _). unfold queue_empty.
  rewrite (st_bind_step _ _ _ _ _ (get_q_run s _ _ Hq)). cbn [snd].
  destruct c as [|x c _] using rev_ind; [done|]. rewrite fmap_app, length_app, Nat.add_comm. cbn.
  by rewrite last_snoc.
Qed.

Lemma queue_push_run s q1 c q2 a l own frame :
  world s (q1 ++ c :: q2) ((a, l) :: own) frame →
  ∃ s', queue_push (length q1) a s = Ok (tt, s') ∧
    world s' (q1 ++ (c ++ [(a, l)]) :: q2) own frame ∧ data s' = data s.
Proof.
  intros Hw. destruct (world_queue _ _ _ _ _ _ Hw) as (Hq & Hl & Hn).
  destruct (own_chunk _ _ _ _ _ _ Hw) as (ca & Ha & Hr).
  pose proof (w_holds _ _ _ _ Hw) as Hho. apply Forall_app in Hho as [Hho _].
  apply Forall_cons_1 in Hho as [_ Hho]. rewrite fmap_app in Hn. cbn in Hn.
  apply list.NoDup_app in Hn as (Nc & Hd & Hn). apply list.NoDup_cons in Hn as [Hao _].
  assert (a ∉ c.*1) as Hac by (intros Hin; apply (Hd a Hin); by left).
  set (m1 := <[a := aChunk (ring ca) None]> (chunks s)).
  unfold queue_push. rewrite (st_bind_step _ _ _ _ _ (set_link_run s a ca None Ha)).
  rewrite (st_bind_step _ _ _ _ _ (get_q_run (set_chunks m1 s) _ _ Hq)). cbn [snd fst].
  assert ((c ++ (a, l) :: own).*1 ≡ₚ ((c ++ [(a, l)]) ++ own).*1) as Ep by (by rewrite <-app_assoc).
  destruct c as [|[tl k] c _] using rev_ind.
  - rewrite bool_decide_true by done. eexists. split_and!; [done| |done].
    eapply world_queue_change; [exact Hw|..]; cbn [chunks brk Q set_chunks]; try done.
    + intros b Hb. apply lookup_insert_ne. intros ->. apply Hb. by left.
    + apply dom_insert_lookup_L. by eexists.
    + split; [|done]. split; [|done]. exists (ring ca). unfold m1. by rewrite lookup_insert_eq.
    + eapply holds_frame; [|exact Hho]. intros b Hb. apply lookup_insert_ne. by intros ->.
  - assert (list.last (c ++ [(tl, k)]).*1 = Some tl) as -> by (rewrite fmap_app; apply last_snoc).
    apply links_app in Hl as [Hl [(r & Htl & Hrt) _]].
    rewrite fmap_app in Nc, Hac. apply list.NoDup_app in Nc as (_ & Htc & _). cbn in Htl.
    assert (tl ≠ a) as Hta. { intros ->. apply Hac. apply elem_of_app. right. by left. }
    assert (chunks (set_chunks m1 s) !! tl = Some (aChunk r None)) as Htl1.
    { cbn. unfold m1. by rewrite lookup_insert_ne. }
    rewrite (st_bind_step _ _ _ _ _ (set_link_run (set_chunks m1 s) tl _ (Some a) Htl1)).
    eexists. split_and!; [done| |done].
    eapply world_queue_change; [exact Hw|..]; cbn [chunks brk Q set_chunks ring]; try done.
    + intros b Hb. rewrite fmap_app in Hb. cbn in Hb. unfold m1. rewrite !lookup_insert_ne; [done|..].
      * intros ->. apply Hb, elem_of_app. right. by left.
      * intros ->. apply Hb, elem_of_app. left. rewrite fmap_app. apply elem_of_app. right. by left.
    + unfold m1. rewrite dom_insert_lookup_L; [apply dom_insert_lookup_L; by eexists|by eexists].
    + split.
      * apply links_app. split; [apply links_app; split|].
        -- eapply links_frame; [|exact Hl]. intros b Hb. unfold m1. rewrite !lookup_insert_ne; [done|..].
           ++ intros ->. apply Hac, elem_of_app. by left.
           ++ intros ->. apply (Htc b Hb). by left.
        -- split; [|done]. exists r. by rewrite lookup_insert_eq.
        -- split; [|done]. exists (ring ca). unfold m1. by rewrite lookup_insert_ne, lookup_insert_eq.
      * rewrite fmap_app. cbn. rewrite last_snoc. by destruct c as [|[]].
    + eapply holds_frame; [|exact Hho]. intros b Hb. unfold m1. rewrite !lookup_insert_ne; [done|..].
      * by intros ->.
      * intros ->. apply (Hd b); [rewrite fmap_app; apply elem_of_app; right; by left|by right].
Qed.

Lemma queue_pop_run s q1 c q2 own frame :
  world s (q1 ++ c :: q2) own frame →
  match c with
  | [] => queue_pop_locked (length q1) s = Ok (None, s)
  | (a, l) :: c' => ∃ s', queue_pop_locked (length q1) s = Ok (Some a, s') ∧
      world s' (q1 ++ c' :: q2) ((a, l) :: own) frame ∧ data s' = data s
  end.
Proof.
  intros Hw. destruct (world_queue _ _ _ _ _ _ Hw) as (Hq & Hl & Hn).
  pose proof (w_holds _ _ _ _ Hw) as Hho. apply Forall_app in Hho as [Hho _].
  unfold queue_pop_locked. rewrite (st_bind_step _ _ _ _ _ (get_q_run s _ _ Hq)).
  destruct c as [|[a l] c]; [done|]. cbn [fst snd entry].
  destruct Hl as [(r & Ha & Hr) Hl]. cbn [fmap list_fmap app fst] in Hn. apply list.NoDup_cons in Hn as [Hna Hn].
  rewrite (st_bind_step _ _ _ _ _ (chunk_at_run s a _ Ha)). cbn [link].
  assert (own.*1 ⊆+ (c ++ own).*1) as Hsub by (apply fmap_submseteq; solve_submseteq).
  assert (((c ++ (a, l) :: own)).*1 ≡ₚ (((a, l) :: c) ++ own).*1) as Ep.
  { apply fmap_Permutation. solve_Permutation. }
  case_decide as Ht.
  - assert (c = []) as ->.
    { destruct c as [|x c _] using rev_ind; [done|].
      assert (list.last ((a, l) :: c ++ [x]).*1 = Some x.1) as E by (rewrite app_comm_cons, fmap_app; apply last_snoc).
      pose proof (eq_trans (eq_sym E) Ht) as [= Hx]. destruct Hna. rewrite <-Hx, !fmap_app.
      apply elem_of_app. left. apply elem_of_app. right. by left. }
    rewrite bool_decide_true by done. eexists. split_and!; [done| |done].
    eapply world_queue_change; [exact Hw|..]; cbn [chunks brk Q set_chunks]; try done.
    constructor; [|done]. by exists (aChunk r None).
  - erewrite st_bind_step; [|erewrite st_bind_step by reflexivity; by apply set_link_run].
    eexists. split_and!; [done| |done].
    eapply world_queue_change; [exact Hw|..]; cbn [chunks brk Q set_chunks ring]; try done.
    + intros b Hb. apply lookup_insert_ne. intros ->. apply Hb. by left.
    + apply dom_insert_lookup_L. by eexists.
    + split; [|by destruct c as [|[]]]. eapply links_frame; [|exact Hl]. intros b Hb. apply lookup_insert_ne.
      intros ->. apply Hna. rewrite fmap_app. apply elem_of_app. by left.
    + constructor; [eexists; cbn; rewrite lookup_insert_eq; by split|].
      eapply holds_frame; [|exact Hho]. intros b Hb. apply lookup_insert_ne.
      intros ->. apply Hna. by eapply elem_of_submseteq.
Qed.
(** ** A thread among others *)

(** The program of the thread [t] runs without an error whatever the other threads do
    between its actions, and ends with [Φ]: [loc] is its [struct p], [own] its chunks and
    [hand] the values that it has been given to push and has not stored yet, or has taken
    out and not returned yet.  No action loses or makes up a value. *)
Fixpoint wp {A} (t : nat) (p : prog (wl T) A) (Φ : A → Local → cells → list T → Prop)
    (loc : Local) (own : cells) (hand : list T) : Prop :=
  match p with
  | Ret a => Φ a loc own hand
  | Act f k => ∀ s qs frame, world s qs own frame → data s t = loc →
      ∃ b s' qs' loc' own' hand', f s = Ok (b, s') ∧ world s' qs' own' frame ∧
        data s' t = loc' ∧ (∀ u, u ≠ t → data s' u = data s u) ∧
        items (concat qs') ++ items own' ++ hand' ≡ₚ items (concat qs) ++ items own ++ hand ∧
        wp t (k b) Φ loc' own' hand'
  end.

Lemma wp_bind {A B} t (p : prog (wl T) A) (q : A → prog (wl T) B) Φ loc own hand :
  wp t p (λ a loc' own' hand', wp t (q a) Φ loc' own' hand') loc own hand →
  wp t (p ≫= q) Φ loc own hand.
Proof.
  revert loc own hand. induction p as [a|C f k IH]; intros loc own hand; [done|]. cbn [wp].
  intros Hp s qs frame Hw Hl. destruct (Hp s qs frame Hw Hl) as (b & s' & qs' & loc' & own' & hand' & ? & ? & ? & ? & ? & ?).
  exists b, s', qs', loc', own', hand'. split_and!; try done. by apply IH.
Qed.

(** An action that changes only the chunks of the thread. *)
Lemma wp_own {A} t (f : st (wl T) A) Φ loc own hand b own' hand' :
  (∀ s qs frame, world s qs own frame → data s t = loc →
     ∃ s', f s = Ok (b, s') ∧ world s' qs own' frame ∧ data s' = data s) →
  items own' ++ hand' ≡ₚ items own ++ hand → Φ b loc own' hand' →
  wp t (act f) Φ loc own hand.
Proof.
  intros Hf Hi HΦ s qs frame Hw Hl. destruct (Hf s qs frame Hw Hl) as (s' & Hs & Hw' & Hd).
  exists b, s', qs, loc, own', hand'. rewrite Hd. split_and!; [done..|by rewrite Hi|done].
Qed.

Lemma wp_chunk {A} t a (f : FixedSizeRing T → result (A * FixedSizeRing T)) l own own0 hand loc Φ :
  own ≡ₚ (a, l) :: own0 →
  ring_does f l (λ b l', ∃ hand', l' ++ hand' ≡ₚ l ++ hand ∧ Φ b loc ((a, l') :: own0) hand') →
  wp t (act (on_chunk a f)) Φ loc own hand.
Proof.
  intros Ho Hf s qs frame Hw Hl. eapply world_perm in Hw; [|exact Ho|done].
  destruct (on_chunk_run f s qs a l own0 frame _ Hw Hf) as (b & s' & l' & Hs & Hw' & Hd & hand' & Hh & HΦ).
  exists b, s', qs, loc, ((a, l') :: own0), hand'. rewrite Hd. split_and!; try done.
  apply Permutation_app_head. rewrite Ho. unfold items. cbn.
  rewrite <-!app_assoc, (Permutation_app_comm _ hand'), (Permutation_app_comm _ hand), !app_assoc. by rewrite Hh.
Qed.

Lemma wp_mk t loc own hand Φ :
  (∀ a, Φ a loc ((a, []) :: own) hand) → wp t (act (mkChunk ChunkSize)) Φ loc own hand.
Proof.
  intros HΦ s qs frame Hw Hl. destruct (mkChunk_run s qs own frame Hw) as (s' & Hs & Hw' & Hd).
  exists (brk s), s', qs, loc, ((brk s, []) :: own), hand. rewrite Hd. split_and!; try done. apply HΦ.
Qed.

Lemma wp_del t a own own0 loc hand Φ :
  own ≡ₚ (a, []) :: own0 → Φ tt loc own0 hand → wp t (act (delChunk ChunkSize a)) Φ loc own hand.
Proof.
  intros Ho HΦ. eapply wp_own with (own' := own0); [| |exact HΦ].
  - intros s qs frame Hw _. eapply world_perm in Hw; [|exact Ho|done]. by eapply delChunk_run.
  - by rewrite Ho.
Qed.

(** The accesses to [struct p]. *)
Lemma wp_get {A} t (f : Local → A) loc own hand Φ :
  Φ (f loc) loc own hand → wp t (act (gets (λ s, f (data s t)))) Φ loc own hand.
Proof.
  intros HΦ. eapply wp_own; [|done|exact HΦ]. intros s qs frame Hw Hl. exists s. unfold gets. by rewrite Hl.
Qed.
Lemma wp_set t (f : Local → Local) loc own hand Φ :
  Φ tt (f loc) own hand → wp t (act (modify (λ s, set_data t (f (data s t)) s))) Φ loc own hand.
Proof.
  intros HΦ s qs frame Hw Hl. exists tt, (set_data t (f loc) s), qs, (f loc), own, hand.
  split_and!; [unfold modify; by rewrite Hl|by destruct Hw| | |done|done].
  - apply fn_lookup_insert.
  - intros u Hu. by apply fn_lookup_insert_ne.
Qed.

(** *** Queues *)

Lemma queue_of_split s qs own frame i :
  world s qs own frame → ∃ q1 c q2, qs = q1 ++ c :: q2 ∧ length q1 = queue_of Distributed socket i.
Proof.
  intros Hw. assert (queue_of Distributed socket i < length qs) as Hi.
  { rewrite <-(Forall2_length (w_queues _ _ _ _ Hw)), (w_sockets _ _ _ _ Hw).
    unfold queue_of. destruct Distributed; [apply socket_lt|done]. }
  destruct (lookup_lt_is_Some_2 qs _ Hi) as [c Hc].
  exists (take (queue_of Distributed socket i) qs), c, (drop (S (queue_of Distributed socket i)) qs).
  rewrite take_drop_middle by done. split; [done|]. rewrite length_take. lia.
Qed.

Lemma items_move (q1 q2 : list cells) c c' own own' :
  c ++ own ≡ₚ c' ++ own' →
  items (concat (q1 ++ c :: q2)) ++ items own ≡ₚ items (concat (q1 ++ c' :: q2)) ++ items own'.
Proof.
  intros Hc. rewrite <-!items_app, !concat_app. cbn. apply items_perm.
  transitivity ((c ++ own) ++ concat q1 ++ concat q2); [solve_Permutation|]. rewrite Hc. solve_Permutation.
Qed.

Lemma wp_pushChunk t a l own own0 loc hand Φ :
  own ≡ₚ (a, l) :: own0 → Φ tt loc own0 hand → wp t (pushChunk Distributed socket t a) Φ loc own hand.
Proof.
  intros Ho HΦ s qs frame Hw Hl. eapply world_perm in Hw; [|exact Ho|done].
  destruct (queue_of_split s qs _ _ t Hw) as (q1 & c & q2 & -> & <-).
  destruct (queue_push_run s q1 c q2 a l own0 frame Hw) as (s' & Hs & Hw' & Hd).
  exists tt, s', (q1 ++ (c ++ [(a, l)]) :: q2), loc, own0, hand. rewrite Hd.
  split_and!; try done. rewrite !app_assoc. apply Permutation_app_tail. apply items_move.
  rewrite Ho. solve_Permutation.
Qed.

Lemma wp_queue_pop t i loc own hand Φ :
  (∀ a l, Φ (Some a) loc ((a, l) :: own) hand) → Φ None loc own hand →
  wp t (popChunkByID Distributed socket i) Φ loc own hand.
Proof.
  intros HS HN. unfold popChunkByID, queue_pop. apply wp_bind. intros s qs frame Hw Hl.
  destruct (queue_of_split s qs _ _ i Hw) as (q1 & c & q2 & -> & Hi).
  pose proof (queue_empty_run s q1 c q2 own frame Hw) as He. rewrite Hi in He.
  exists (length c =? 0), s, (q1 ++ c :: q2), loc, own, hand. split_and!; try done.
  cbn [wp]. destruct (length c =? 0); [done|]. clear s c q1 q2 Hw Hl Hi He frame. intros s qs frame Hw Hl.
  destruct (queue_of_split s qs _ _ i Hw) as (q1 & c & q2 & -> & Hi). rewrite <-Hi.
  pose proof (queue_pop_run s q1 c q2 own frame Hw) as Hp. destruct c as [|[a l] c].
  - exists None, s, (q1 ++ [] :: q2), loc, own, hand. by split_and!.
  - destruct Hp as (s' & Hs & Hw' & Hd).
    exists (Some a), s', (q1 ++ c :: q2), loc, ((a, l) :: own), hand. rewrite Hd. split_and!; try done; [|apply HS].
    rewrite !app_assoc. apply Permutation_app_tail, items_move. solve_Permutation.
Qed.

Lemma wp_pop_first t ids loc own hand Φ :
  (∀ a l, Φ (Some a) loc ((a, l) :: own) hand) → Φ None loc own hand →
  wp t (pop_first Distributed socket ids) Φ loc own hand.
Proof.
  intros HS HN. induction ids as [|i ids IH]; [done|]. cbn [pop_first]. apply wp_bind.
  apply wp_queue_pop; [|done]. intros a l. apply HS.
Qed.

(** *** Methods *)

(** Between two calls a thread has the chunks that its [cur] and [next] point to. *)
Definition cell (c : option nat) (l : list T) : cells := match c with Some a => [(a, l)] | None => [] end.
Definition idle (loc : Local) (own : cells) : Prop :=
  ∃ lc ln, own ≡ₚ cell (cur loc) lc ++ cell (next loc) ln.

Lemma emplace_back_does v l :
  ring_does (ring_emplace_back ChunkSize v) l (λ b l',
    (length l = ChunkSize ∧ b = None ∧ l' = l) ∨ (length l < ChunkSize ∧ is_Some b ∧ l' = l ++ [v])).
Proof.
  intros r Hr. destruct (ring_emplace_back_run ChunkSize ChunkSize_pos v r l Hr)
    as [[? ?]|(? & p & r' & ? & ? & _)].
  - exists None, r, l. auto 10.
  - exists (Some p), r', (l ++ [v]). eauto 10.
Qed.

Lemma ring_does_mono {A} f l (P P' : A → list T → Prop) :
  ring_does f l P → (∀ b l', P b l' → P' b l') → ring_does f l P'.
Proof. intros Hf HP r Hr. destruct (Hf r Hr) as (b & r' & l' & ? & ? & ?). eauto 10. Qed.

(** A new chunk with one value. *)
Lemma wp_new_chunk t v loc own lc hand Φ :
  own ≡ₚ cell (cur loc) lc →
  (∀ loc' own', idle loc' own' → Φ tt loc' own' hand) →
  wp t (c ← act (mkChunk ChunkSize); act (set_next t (Some c));;
        r ← act (on_chunk c (ring_emplace_back ChunkSize v));
        act (lift (assert (bool_decide (is_Some r))))) Φ loc own (v :: hand).
Proof.
  intros Ho HΦ. apply wp_bind, wp_mk. intros a.
  apply wp_bind, (wp_set t (λ p, mkLocal (cur p) (Some a))). apply wp_bind.
  eapply wp_chunk; [done|]. eapply ring_does_mono; [apply emplace_back_does|]. cbn beta.
  intros b l' [[? _]|(_ & [x ->] & ->)]; [cbn in *; lia|]. exists hand. split; [done|].
  eapply wp_own; [|done|]. { intros s qs frame Hw _. by exists s. }
  apply HΦ. exists lc, [v]. cbn. rewrite Ho. solve_Permutation.
Qed.

Lemma wp_emplacei t v loc own hand Φ :
  idle loc own → (∀ loc' own', idle loc' own' → Φ tt loc' own' hand) →
  wp t (emplacei ChunkSize Distributed socket t v) Φ loc own (v :: hand).
Proof.
  intros (lc & ln & Ho) HΦ. unfold emplacei. apply wp_bind, (wp_get t next). apply wp_bind.
  destruct (next loc) as [n|] eqn:En; cbn [if_chunk].
  - eapply wp_chunk; [rewrite Ho; cbn; by rewrite <-Permutation_cons_append|].
    eapply ring_does_mono; [apply emplace_back_does|]. cbn beta.
    intros b l' [(_ & -> & ->)|(_ & [x ->] & ->)].
    + exists (v :: hand). split; [done|]. apply wp_bind. eapply wp_pushChunk; [done|]. by eapply wp_new_chunk.
    + exists hand. split; [by rewrite <-app_assoc|]. apply HΦ. exists lc, (ln ++ [v]). rewrite En. cbn. solve_Permutation.
  - apply wp_bind. eapply wp_new_chunk; [|done]. rewrite Ho. cbn. by rewrite app_nil_r.
Qed.

Lemma wp_push_range t vs loc own hand Φ :
  idle loc own → (∀ loc' own', idle loc' own' → Φ tt loc' own' hand) →
  wp t (push_range ChunkSize Distributed socket t vs) Φ loc own (vs ++ hand).
Proof.
  revert loc own. induction vs as [|v vs IH]; intros loc own Hi HΦ; [by apply HΦ|]. cbn [push_range app].
  apply wp_bind, wp_emplacei; [done|]. intros loc' own' Hi'. by apply IH.
Qed.

Lemma wp_flush t loc own hand Φ :
  idle loc own → (∀ loc' own', idle loc' own' → Φ tt loc' own' hand) →
  wp t (flush Distributed socket t) Φ loc own hand.
Proof.
  intros (lc & ln & Ho) HΦ. unfold flush. apply wp_bind, (wp_get t next). apply wp_bind.
  destruct (next loc) as [n|] eqn:En.
  - eapply wp_pushChunk; [rewrite Ho; cbn; by rewrite <-Permutation_cons_append|].
    apply (wp_set t (λ p, mkLocal (cur p) None)). apply HΦ. exists lc, []. cbn. by rewrite app_nil_r.
  - apply (wp_set t (λ p, mkLocal (cur p) None)). apply HΦ. exists lc, []. cbn. by rewrite Ho.
Qed.

(** A method of a ring that finds nothing in an empty ring, and otherwise a value of which
    it takes out [out]. *)
Definition takes (f : FixedSizeRing T → result (option T * FixedSizeRing T)) (out : T → list T) : Prop :=
  ∀ l, ring_does f l (λ b l', match b with None => l = [] ∧ l' = [] | Some v => l' ++ out v ≡ₚ l end).
Definition found (out : T → list T) (r : option T) : list T := match r with Some v => out v | None => [] end.

Lemma extract_front_takes : takes (ring_extract_front ChunkSize) (λ v, [v]).
Proof.
  intros l r Hr. pose proof (ring_extract_front_run ChunkSize ChunkSize_pos r l Hr) as H.
  destruct l as [|v l]; [by exists None, r, []|]. destruct H as (r' & ? & ?). exists (Some v), r', l.
  split_and!; [done..|]. by rewrite <-Permutation_cons_append.
Qed.
Lemma extract_back_takes : takes (ring_extract_back ChunkSize) (λ v, [v]).
Proof.
  intros l r Hr. pose proof (ring_extract_back_run ChunkSize ChunkSize_pos r l Hr) as H.
  destruct l as [|v l _] using rev_ind; [by exists None, r, []|]. rewrite last_snoc in H.
  destruct H as (r' & ? & Hr'). rewrite removelast_last in Hr'. by exists (Some v), r', l.
Qed.
Lemma peek_takes f :
  (∀ r v l, ring_repr ChunkSize r (v :: l) → ∃ w, f r = Ok w) → takes (peek_chunk ChunkSize f) (λ _, []).
Proof.
  intros Hf l r Hr. unfold peek_chunk. rewrite (ring_empty_run ChunkSize ChunkSize_pos r l Hr).
  destruct l as [|v l]; [by exists None, r, []|]. destruct (Hf r v l Hr) as [w Hw].
  exists (Some w), r, (v :: l). cbn. rewrite Hw. by rewrite app_nil_r.
Qed.

Lemma wp_take f out t a l own own0 loc Φ :
  takes f out → own ≡ₚ (a, l) :: own0 →
  (∀ v l', Φ (Some v) loc ((a, l') :: own0) (out v)) →
  Φ None loc ((a, []) :: own0) [] →
  wp t (if_chunk (Some a) f) Φ loc own [].
Proof.
  intros Hf Ho HS HN. eapply wp_chunk; [exact Ho|]. eapply ring_does_mono; [apply Hf|].
  intros [v|] l'; [intros Hl; exists (out v); by rewrite app_nil_r|]. intros [-> ->]. by exists [].
Qed.

(** [pop] and [peek] with [IsStack]. *)
Lemma wp_fetch_next f out t loc own Φ :
  takes f out → idle loc own →
  (∀ r loc' own', idle loc' own' → Φ r loc' own' (found out r)) →
  wp t (n ← act (get_next t); r ← if_chunk n f;
        match r with
        | Some v => mret (Some v)
        | None =>
            del_chunk ChunkSize n;; c ← popChunk Distributed socket activeThreads t;
            act (set_next t c);; if_chunk c f
        end) Φ loc own [].
Proof.
  intros Hf (lc & ln & Ho) HΦ.
  assert (∀ loc own, own ≡ₚ cell (cur loc) lc →
    wp t (c ← popChunk Distributed socket activeThreads t; act (set_next t c);; if_chunk c f) Φ loc own []) as Hpop.
  { clear loc own ln Ho. intros loc own Ho. apply wp_bind, wp_pop_first.
    - intros a l. apply wp_bind, (wp_set t (λ p, mkLocal (cur p) (Some a))). eapply wp_take; [done..| |].
      + intros v l'. apply (HΦ (Some v)). exists lc, l'. cbn. rewrite Ho. solve_Permutation.
      + apply (HΦ None). exists lc, []. cbn. rewrite Ho. solve_Permutation.
    - apply wp_bind, (wp_set t (λ p, mkLocal (cur p) None)). apply (HΦ None). exists lc, []. cbn. by rewrite app_nil_r. }
  apply wp_bind, (wp_get t next). apply wp_bind. destruct (next loc) as [n|] eqn:En.
  - eapply wp_take; [done|rewrite Ho; cbn; by rewrite <-Permutation_cons_append| |].
    + intros v l'. apply (HΦ (Some v)). exists lc, l'. rewrite En. cbn. solve_Permutation.
    + apply wp_bind. eapply wp_del; [done|]. by apply Hpop.
  - apply wp_bind. apply Hpop. rewrite Ho. cbn. by rewrite app_nil_r.
Qed.

(** [pop] and [peek] without. *)
Lemma wp_fetch_cur f out t loc own Φ :
  takes f out → idle loc own →
  (∀ r loc' own', idle loc' own' → Φ r loc' own' (found out r)) →
  wp t (c ← act (get_cur t); r ← if_chunk c f;
        match r with
        | Some v => mret (Some v)
        | None =>
            del_chunk ChunkSize c;; c ← popChunk Distributed socket activeThreads t;
            act (set_cur t c);;
            match c with
            | Some _ => mret tt
            | None => n ← act (get_next t); act (set_cur t n);; act (set_next t None)
            end;;
            c ← act (get_cur t); if_chunk c f
        end) Φ loc own [].
Proof.
  intros Hf (lc & ln & Ho) HΦ.
  assert (∀ loc own lc ln, own ≡ₚ cell (cur loc) lc ++ cell (next loc) ln →
    wp t (c ← act (get_cur t); if_chunk c f) Φ loc own []) as Hget.
  { clear loc own lc ln Ho. intros loc own lc ln Ho. apply wp_bind, (wp_get t cur).
    destruct (cur loc) as [a|] eqn:Ea; [eapply wp_take; [done|exact Ho|..]|].
    - intros v l'. apply (HΦ (Some v)). exists l', ln. by rewrite Ea.
    - apply (HΦ None). exists [], ln. by rewrite Ea.
    - apply (HΦ None). exists lc, ln. by rewrite Ea. }
  assert (∀ loc own, own ≡ₚ cell (next loc) ln →
    wp t (c ← popChunk Distributed socket activeThreads t; act (set_cur t c);;
      match c with
      | Some _ => mret tt
      | None => n ← act (get_next t); act (set_cur t n);; act (set_next t None)
      end;; c ← act (get_cur t); if_chunk c f) Φ loc own []) as Hpop.
  { clear loc own lc Ho. intros loc own Ho. apply wp_bind, wp_pop_first.
    - intros a l. apply wp_bind, (wp_set t (λ p, mkLocal (Some a) (next p))). apply wp_bind.
      apply (Hget _ _ l ln). cbn. by rewrite Ho.
    - apply wp_bind, (wp_set t (λ p, mkLocal None (next p))). apply wp_bind, wp_bind, (wp_get t next).
      apply wp_bind, (wp_set t (λ p, mkLocal (next loc) (next p))), (wp_set t (λ p, mkLocal (cur p) None)).
      apply (Hget _ _ ln []). cbn. by rewrite app_nil_r. }
  apply wp_bind, (wp_get t cur). apply wp_bind. destruct (cur loc) as [a|] eqn:Ea.
  - eapply wp_take; [done|exact Ho| |].
    + intros v l'. apply (HΦ (Some v)). exists l', ln. by rewrite Ea.
    + apply wp_bind. eapply wp_del; [done|]. by apply Hpop.
  - apply wp_bind. by apply Hpop.
Qed.

(** ** All threads *)

(** What a thread promises: while it is in a call, that the call succeeds. *)
Definition thread_ok (t : nat) (th : option (prog (wl T) (list T))) (loc : Local) (v : cells * list T) : Prop :=
  match th with
  | None => idle loc v.1 ∧ v.2 = []
  | Some p => wp t p (λ r loc' own' hand', idle loc' own' ∧ hand' = r) loc v.1 v.2
  end.

(** The chunks and values of all the threads. *)
Record config_ok (c : config T) (qs : list cells) (vs : list (cells * list T)) : Prop := {
  co_world : world (memory c) qs [] (concat vs.*1);
  co_length : length vs = length (threads c);
  co_threads t th v : threads c !! t = Some th → vs !! t = Some v → thread_ok t th (data (memory c) t) v;
  co_items : pushed c ≡ₚ popped c ++ items (concat qs) ++ items (concat vs.*1) ++ concat vs.*2;
}.

Lemma method_ok t c loc own :
  idle loc own →
  wp t (method ChunkSize IsStack Distributed socket activeThreads t c)
    (λ r loc' own' hand', idle loc' own' ∧ hand' = r) loc own (brings c).
Proof.
  intros Hi. destruct c as [v|vs| | |]; cbn [method brings]; apply wp_bind.
  - by apply wp_emplacei.
  - rewrite <-(app_nil_r vs) at 2. by apply wp_push_range.
  - by apply wp_flush.
  - unfold pop. destruct IsStack.
    + eapply wp_fetch_next; [apply extract_back_takes|done|]. by intros [v|].
    + eapply wp_fetch_cur; [apply extract_front_takes|done|]. by intros [v|].
  - unfold peek. destruct IsStack.
    + eapply wp_fetch_next; [apply peek_takes|done|by intros [v|]].
      intros r v l Hr. rewrite (ring_back_run ChunkSize ChunkSize_pos r _ Hr).
      destruct (list.last (v :: l)) eqn:E; [by eexists|]. by apply last_None in E.
    + eapply wp_fetch_cur; [apply peek_takes|done|by intros [v|]].
      intros r v l Hr. rewrite (ring_front_run ChunkSize ChunkSize_pos r _ Hr). by eexists.
Qed.

Lemma world_focus s qs own frame : world s qs [] (own ++ frame) ↔ world s qs own frame.
Proof. split; intros []; by split. Qed.

Lemma split_at {A} (l : list A) t x : l !! t = Some x → ∃ l1 l2, l = l1 ++ x :: l2 ∧ length l1 = t.
Proof.
  intros H. exists (take t l), (drop (S t) l). rewrite take_drop_middle by done. split; [done|].
  apply lookup_lt_Some in H. rewrite length_take. lia.
Qed.
Lemma insert_at {A} (l1 l2 : list A) x y : <[length l1 := y]> (l1 ++ x :: l2) = l1 ++ y :: l2.
Proof. by rewrite insert_app_r_alt, Nat.sub_diag by lia. Qed.

Lemma concat_at {A B} (f : A → list B) (l1 l2 : list A) x :
  concat (f <$> l1 ++ x :: l2) ≡ₚ f x ++ concat (f <$> l1 ++ l2).
Proof. rewrite !fmap_app, fmap_cons, !concat_app. cbn. solve_Permutation. Qed.

(** What a step of a thread leaves of the other threads. *)
Lemma co_others (c : config T) qs v1 v v2 (s' : wl T) th' v' :
  config_ok c qs (v1 ++ v :: v2) → (∀ u, u ≠ length v1 → data s' u = data (memory c) u) →
  thread_ok (length v1) th' (data s' (length v1)) v' →
  ∀ u th w, <[length v1 := th']> (threads c) !! u = Some th → (v1 ++ v' :: v2) !! u = Some w →
  thread_ok u th (data s' u) w.
Proof.
  intros Hc Hd Ht u th w Hth Hw. destruct (decide (u = length v1)) as [->|Hu].
  - rewrite list_lookup_middle in Hw by done. apply list_lookup_insert_Some in Hth. naive_solver.
  - rewrite list_lookup_insert_ne in Hth by done. rewrite Hd by done. eapply (co_threads _ _ _ Hc); [done|].
    rewrite <-Hw. by rewrite <-(insert_at v1 v2 v v'), list_lookup_insert_ne.
Qed.

Lemma step_ok c c' qs vs :
  config_ok c qs vs →
  thread_step ChunkSize IsStack Distributed socket activeThreads c c' → ∃ qs' vs', config_ok c' qs' vs'.
Proof.
  intros Hc Hs. assert (∀ t th, threads c !! t = Some th → ∃ v1 own hand v2,
    vs = v1 ++ (own, hand) :: v2 ∧ length v1 = t ∧ thread_ok t th (data (memory c) t) (own, hand)) as Hsplit.
  { intros t th Hth. assert (is_Some (vs !! t)) as [[own hand] Hv].
    { apply lookup_lt_is_Some. rewrite (co_length _ _ _ Hc). by eapply lookup_lt_Some. }
    destruct (split_at vs t _ Hv) as (v1 & v2 & -> & <-). exists v1, own, hand, v2. split_and!; [done..|].
    by apply (co_threads _ _ _ Hc). }
  destruct Hs as [s ths ps ks t call Ht|s ths ps ks t B f k b s' Ht Hf|s ths ps ks t r Ht];
    destruct (Hsplit t _ Ht) as (v1 & own & hand & v2 & -> & <- & Hok).
  all: pose proof Hc as [Hw Hlen _ Hit]; cbn [memory threads pushed popped] in *.
  all: rewrite !concat_at in Hit; cbn [fst snd] in Hit.
  - destruct Hok as [Hi Hh]. cbn in Hh. subst hand. exists qs, (v1 ++ (own, brings call) :: v2). split; cbn [memory threads pushed popped].
    + eapply world_perm; [done| |exact Hw]. by rewrite !concat_at.
    + rewrite length_insert, <-Hlen, !length_app. done.
    + apply (co_others _ _ _ _ _ _ _ _ Hc); [done|]. by apply method_ok.
    + rewrite Hit, !concat_at. cbn [fst snd]. solve_Permutation.
  - apply (world_perm _ _ [] [] _ (own ++ concat (v1 ++ v2).*1)), (proj1 (world_focus s qs own _)) in Hw; [|done|by rewrite concat_at].
    destruct (Hok s qs _ Hw eq_refl) as (b' & s'' & qs' & loc' & own' & hand' & Hf' & Hw' & Hl & Hd & Hi & Hk).
    rewrite Hf in Hf'. injection Hf' as <- <-. exists qs', (v1 ++ (own', hand') :: v2).
    split; cbn [memory threads pushed popped].
    + apply (proj2 (world_focus s' qs' own' _)) in Hw'. eapply world_perm; [done| |exact Hw']. by rewrite concat_at.
    + rewrite length_insert, <-Hlen, !length_app. done.
    + apply (co_others _ _ _ _ _ _ _ _ Hc); [done|]. cbn. by rewrite Hl.
    + rewrite Hit, !concat_at. cbn [fst snd]. rewrite !items_app in *. apply Permutation_app_head.
      transitivity ((items (concat qs) ++ items own ++ hand) ++ items (concat (v1 ++ v2).*1) ++ concat (v1 ++ v2).*2);
        [solve_Permutation|]. rewrite <-Hi. solve_Permutation.
  - destruct Hok as [Hi Hh]. cbn in Hh. subst hand. exists qs, (v1 ++ (own, []) :: v2). split; cbn [memory threads pushed popped].
    + eapply world_perm; [done| |exact Hw]. by rewrite !concat_at.
    + rewrite length_insert, <-Hlen, !length_app. done.
    + by apply (co_others _ _ _ _ _ _ _ _ Hc).
    + rewrite Hit, !concat_at. cbn [fst snd]. solve_Permutation.
Qed.

Lemma world_start : world (new_wl sockets) (replicate sockets []) [] [].
Proof.
  assert (concat (replicate sockets ([] : cells)) = []) as E by (clear; by induction sockets).
  split; cbn; rewrite ?E; try done.
  - apply Forall2_replicate. by split.
  - apply length_replicate.
  - constructor.
  - by intros a ?%elem_of_nil.
Qed.

Lemma start_ok : ∃ qs vs, config_ok (start_config activeThreads sockets) qs vs.
Proof.
  exists (replicate sockets []), (replicate activeThreads ([], [])).
  assert (∀ A n, concat (replicate n (@nil A)) = []) as E by (clear; intros A n; by induction n).
  split; cbn.
  - rewrite fmap_replicate, E. apply world_start.
  - by rewrite !length_replicate.
  - intros t th v [-> _]%lookup_replicate [-> _]%lookup_replicate. split; [|done]. by exists [], [].
  - by rewrite !fmap_replicate, !E.
Qed.

Lemma reachable_ok c :
  rtc (thread_step ChunkSize IsStack Distributed socket activeThreads) (start_config activeThreads sockets) c →
  ∃ qs vs, config_ok c qs vs.
Proof.
  intros Hr. pose proof start_ok as Hs. revert Hs. induction Hr as [c|c c' c'' Hs _ IH]; [done|].
  intros (qs & vs & Hc). apply IH. by eapply step_ok.
Qed.

Lemma ring_items_repr (r : FixedSizeRing T) l : ring_repr ChunkSize r l → ring_items ChunkSize r = l.
Proof.
  intros Hr. unfold ring_items. rewrite (rr_count _ _ _ Hr).
  assert (∀ k, omap (λ i, mjoin (datac r !! ((start r + i) mod ChunkSize))) (seq k (length l - k)) = drop k l) as E.
  { intros k. remember (length l - k) as n eqn:En. revert k En. induction n as [|n IH]; intros k En.
    - rewrite drop_ge by lia. done.
    - destruct (lookup_lt_is_Some_2 l k ltac:(lia)) as [v Hv]. cbn [seq omap list_omap].
      rewrite (rr_at _ _ _ Hr _ _ Hv). cbn. rewrite (drop_S l v k Hv). f_equal. apply IH. lia. }
  specialize (E 0). by rewrite Nat.sub_0_r in E.
Qed.

(** The chunks of the memory hold what those of its cells hold. *)
Lemma stored_cells (m : gmap nat (Chunk T)) c :
  NoDup c.*1 → (∀ a, a ∈ dom m → a ∈ c.*1) → Forall (holds m) c →
  concat (List.map (λ x, ring_items ChunkSize (ring x.2)) (map_to_list m)) ≡ₚ items c.
Proof.
  revert m. induction c as [|[a l] c IH]; intros m Hn Hd Hh.
  - assert (m = ∅) as ->; [|by rewrite map_to_list_empty]. apply dom_empty_inv_L, elem_of_equiv_empty_L.
    intros a Ha. apply Hd in Ha. by apply elem_of_nil in Ha.
  - apply list.NoDup_cons in Hn as [Ha Hn]. apply Forall_cons_1 in Hh as [(x & Hx & Hr) Hh]. cbn in Hx, Hr.
    rewrite <-(insert_delete_id m a x Hx), map_to_list_insert by apply lookup_delete_eq. cbn.
    rewrite (ring_items_repr _ _ Hr). unfold items. cbn. apply Permutation_app_head. apply IH; [done|..].
    + intros b. rewrite dom_delete_L, elem_of_difference, elem_of_singleton. intros [Hb Hne].
      apply Hd, elem_of_cons in Hb as [|]; done.
    + eapply holds_frame; [|exact Hh]. intros b Hb. apply lookup_delete_ne. by intros ->.
Qed.

Lemma links_holds m c nx : links m c nx → Forall (holds m) c.
Proof.
  induction c as [|[a l] c IH]; [done|]. intros [(r & Hr & Hl) Hc]. constructor; [|by apply IH]. by eexists.
Qed.

Lemma stored_world s qs own frame :
  world s qs own frame → stored ChunkSize s ≡ₚ items (concat qs) ++ items own ++ items frame.
Proof.
  intros [Hq Hs Hh Hn Ha _]. rewrite <-!items_app. apply stored_cells; [done..|].
  apply Forall_app. split; [|done]. clear -Hq. induction Hq as [|q c qs' qs [Hl _] _ IH]; [constructor|].
  cbn. apply Forall_app. split; [|done]. by eapply links_holds.
Qed.

(** C10: Threads that push, flush, peek and pop on one worklist, with their actions
    interleaved in any way, never fail an assertion or follow a bad pointer, and neither
    lose a value nor hand one out twice: at every moment what has been popped is among what
    has been pushed, counting repetitions, and when no thread is inside a call, what has
    been pushed is what has been popped together with what the chunks in memory hold. *)
Theorem worklist_conserves (c : config T) :
  rtc (thread_step ChunkSize IsStack Distributed socket activeThreads) (start_config activeThreads sockets) c →
  (∀ t B (f : st (wl T) B) k, threads c !! t = Some (Some (Act f k)) → ∃ b s', f (memory c) = Ok (b, s')) ∧
  popped c ⊆+ pushed c ∧
  ((∀ t th, threads c !! t = Some th → th = None) → pushed c ≡ₚ popped c ++ stored ChunkSize (memory c)).
Proof.
  intros Hr. destruct (reachable_ok c Hr) as (qs & vs & Hc). split_and!.
  - intros t B f k Ht. assert (is_Some (vs !! t)) as [[own hand] Hv].
    { apply lookup_lt_is_Some. rewrite (co_length _ _ _ Hc). by eapply lookup_lt_Some. }
    pose proof (co_threads _ _ _ Hc _ _ _ Ht Hv) as Hwp. destruct (split_at vs t _ Hv) as (v1 & v2 & -> & <-).
    destruct (Hwp (memory c) qs (concat (v1 ++ v2).*1)) as (b & s' & ? & ? & ? & ? & Hf & _); [|done|eauto].
    apply world_focus. eapply world_perm; [done| |apply (co_world _ _ _ Hc)]. by rewrite concat_at.
  - rewrite (co_items _ _ _ Hc). solve_submseteq.
  - intros Hidle. rewrite (co_items _ _ _ Hc). apply Permutation_app_head.
    rewrite (stored_world _ _ _ _ (co_world _ _ _ Hc)). cbn. apply Permutation_app_head.
    assert (Forall (λ v, v.2 = []) vs) as Hhand.
    { apply Forall_lookup_2. intros t v Hv. assert (is_Some (threads c !! t)) as [th Hth].
      { apply lookup_lt_is_Some. rewrite <-(co_length _ _ _ Hc). by eapply lookup_lt_Some. }
      pose proof (co_threads _ _ _ Hc _ _ _ Hth Hv) as Hok. rewrite (Hidle _ _ Hth) in Hok. apply Hok. }
    assert (concat vs.*2 = []) as ->; [|by rewrite app_nil_r].
    clear -Hhand. induction Hhand as [|v vs Hv _ IH]; [done|]. cbn in *. by rewrite Hv.
Qed.

(** ** One thread *)

Lemma exec_step {S A B} (p : prog S A) (q : A → prog S B) s s' a :
  exec p s = Ok (a, s') → exec (p ≫= q) s = exec (q a) s'.
Proof. intros Hp. rewrite exec_bind. by rewrite (st_bind_step _ _ _ _ _ Hp). Qed.
Lemma exec_act {S A} (f : st S A) s : exec (act f) s = f s.
Proof. cbn. unfold mbind, st_bind. by destruct (f s) as [[]|]. Qed.

(** The worklist of the thread 0, with its values in the order in which they leave it: those
    of [cur], of the chunks in the queue and of [next].  Only [cur] may be empty. *)
Definition fifo_ok (s : wl T) (l : list T) : Prop :=
  ∃ q1 c q2 lc ln, world s (q1 ++ c :: q2) (cell (cur (data s 0)) lc ++ cell (next (data s 0)) ln) [] ∧
    length q1 = queue_of Distributed socket 0 ∧ Forall (λ x, x.2 ≠ []) c ∧
    (is_Some (next (data s 0)) → ln ≠ []) ∧
    l = items (cell (cur (data s 0)) lc) ++ items c ++ items (cell (next (data s 0)) ln).

Lemma fifo_start : fifo_ok (new_wl sockets) [].
Proof.
  assert (∃ k, sockets = queue_of Distributed socket 0 + S k) as [k Hk].
  { exists (sockets - S (queue_of Distributed socket 0)). unfold queue_of.
    pose proof (socket_lt 0). destruct Distributed; lia. }
  exists (replicate (queue_of Distributed socket 0) []), [], (replicate k []), [], []. split_and!; try done.
  - pose proof world_start as Hw. rewrite Hk in Hw at 2. by rewrite replicate_add in Hw.
  - apply length_replicate.
  - by intros [].
Qed.

Lemma fifo_world_data s s' qs own frame :
  world s qs own frame → chunks s' = chunks s → brk s' = brk s → Q s' = Q s → world s' qs own frame.
Proof. intros [] E1 E2 E3. by split; rewrite ?E1, ?E2, ?E3. Qed.

Lemma set_data_at (s : wl T) t p : data (set_data t p s) t = p.
Proof. apply fn_lookup_insert. Qed.

Lemma exec_get {A} (f : Local → A) t (s : wl T) : exec (act (gets (λ s, f (data s t)))) s = Ok (f (data s t), s).
Proof. done. Qed.
Lemma exec_set (f : Local → Local) t (s : wl T) :
  exec (act (modify (λ s, set_data t (f (data s t)) s))) s = Ok (tt, set_data t (f (data s t)) s).
Proof. done. Qed.

Lemma fifo_new_chunk s q1 c q2 lc v :
  world s (q1 ++ c :: q2) (cell (cur (data s 0)) lc) [] → length q1 = queue_of Distributed socket 0 →
  Forall (λ x, x.2 ≠ []) c →
  ∃ s', exec (x ← act (mkChunk ChunkSize); act (set_next 0 (Some x));;
        r ← act (on_chunk x (ring_emplace_back ChunkSize v));
        act (lift (assert (bool_decide (is_Some r))))) s = Ok (tt, s') ∧
    fifo_ok s' (items (cell (cur (data s 0)) lc) ++ items c ++ [v]).
Proof.
  intros Hw Hq Hc. destruct (mkChunk_run s _ _ _ Hw) as (s1 & H1 & Hw1 & D1).
  rewrite (exec_step _ _ s s1 (brk s)) by (by rewrite exec_act).
  rewrite (exec_step _ _ _ _ _ (exec_set (λ p, mkLocal (cur p) (Some (brk s))) 0 s1)).
  set (s2 := set_data _ _ s1).
  assert (world s2 (q1 ++ c :: q2) ((brk s, []) :: cell (cur (data s 0)) lc) []) as Hw2
    by (by eapply fifo_world_data).
  destruct (on_chunk_run _ _ _ _ _ _ _ _ Hw2 (emplace_back_does v []))
    as (b & s3 & l' & H3 & Hw3 & D3 & [[? _]|(_ & [x ->] & ->)]); [cbn in *; lia|].
  rewrite (exec_step _ _ s2 s3 (Some x)) by (by rewrite exec_act).
  assert (data s3 0 = mkLocal (cur (data s 0)) (Some (brk s))) as E.
  { rewrite D3. unfold s2. by rewrite set_data_at, D1. }
  exists s3. split; [done|]. exists q1, c, q2, lc, [v]. rewrite E. cbn [cur next cell].
  split_and!; try done. eapply world_perm; [|done|exact Hw3]. apply Permutation_cons_append.
Qed.

Lemma fifo_push s l v :
  fifo_ok s l → ∃ s', exec (push ChunkSize Distributed socket 0 v) s = Ok (tt, s') ∧ fifo_ok s' (l ++ [v]).
Proof.
  intros (q1 & c & q2 & lc & ln & Hw & Hq & Hc & Hln & ->). unfold push, emplacei.
  rewrite (exec_step _ _ _ _ _ (exec_get next 0 s)).
  destruct (next (data s 0)) as [n|] eqn:En; cbn [cell if_chunk] in *.
  - apply (world_perm _ _ _ ((n, ln) :: cell (cur (data s 0)) lc) _ []) in Hw;
      [|by rewrite <-Permutation_cons_append|done].
    destruct (on_chunk_run _ _ _ _ _ _ _ _ Hw (emplace_back_does v ln))
      as (b & s1 & l' & H1 & Hw1 & D1 & [(_ & -> & ->)|(_ & [x ->] & ->)]);
      (erewrite exec_step by (by rewrite exec_act)); cbv beta iota.
    + destruct (queue_push_run _ _ _ _ _ _ _ _ Hw1) as (s2 & H2 & Hw2 & D2). rewrite Hq in H2.
      rewrite (exec_step _ _ s1 s2 tt) by (unfold pushChunk; by rewrite exec_act).
      rewrite <-D1, <-D2 in *.
      destruct (fifo_new_chunk s2 q1 (c ++ [(n, ln)]) q2 lc v Hw2 Hq) as (s3 & H3 & Hf).
      { apply Forall_app. split; [done|]. apply Forall_singleton. by apply Hln. }
      exists s3. split; [exact H3|]. rewrite items_app in Hf. by rewrite <-!app_assoc in *.
    + exists s1. split; [done|]. exists q1, c, q2, lc, (ln ++ [v]). rewrite D1, En. cbn [cell].
      split_and!; try done.
      * eapply world_perm; [|done|exact Hw1]. apply Permutation_cons_append.
      * intros _. by destruct ln.
      * unfold items at 3 6. cbn. by rewrite !app_nil_r, !app_assoc.
  - rewrite (exec_step _ _ s s None) by done. cbv beta iota. rewrite (exec_step _ _ s s tt) by done.
    rewrite app_nil_r in Hw. destruct (fifo_new_chunk s q1 c q2 lc v Hw Hq Hc) as (s3 & H3 & Hf).
    exists s3. split; [exact H3|]. unfold items at 3. cbn. by rewrite app_nil_r, <-app_assoc.
Qed.

Lemma extract_front_does l :
  ring_does (ring_extract_front ChunkSize) l (λ b l', b = head l ∧ l' = tail l).
Proof.
  intros r Hr. pose proof (ring_extract_front_run ChunkSize ChunkSize_pos r l Hr) as H.
  destruct l as [|v l]; [by exists None, r, []|]. destruct H as (r' & ? & ?). by exists (Some v), r', l.
Qed.

(** Taking the first value of [cur]. *)
Lemma fifo_take s a q1 c q2 lc ln :
  cur (data s 0) = Some a →
  world s (q1 ++ c :: q2) ((a, lc) :: cell (next (data s 0)) ln) [] →
  length q1 = queue_of Distributed socket 0 → Forall (λ x, x.2 ≠ []) c → (is_Some (next (data s 0)) → ln ≠ []) →
  ∃ s', exec (if_chunk (Some a) (ring_extract_front ChunkSize)) s = Ok (head lc, s') ∧ data s' = data s ∧
    world s' (q1 ++ c :: q2) ((a, tail lc) :: cell (next (data s 0)) ln) [] ∧
    fifo_ok s' (tail lc ++ items c ++ items (cell (next (data s 0)) ln)).
Proof.
  intros Ha Hw Hq Hc Hln.
  destruct (on_chunk_run _ _ _ _ _ _ _ _ Hw (extract_front_does lc)) as (b & s1 & l' & H1 & Hw1 & D1 & -> & ->).
  exists s1. cbn [if_chunk]. rewrite exec_act. split_and!; try done.
  exists q1, c, q2, (tail lc), ln. rewrite D1, Ha. cbn [cell]. split_and!; try done.
  unfold items at 3. cbn. by rewrite app_nil_r.
Qed.

Lemma popChunk_run s q1 c q2 own frame :
  world s (q1 ++ c :: q2) own frame → length q1 = queue_of Distributed socket 0 →
  match c with
  | [] => exec (popChunk Distributed socket 1 0) s = Ok (None, s)
  | (a, l) :: c' => ∃ s', exec (popChunk Distributed socket 1 0) s = Ok (Some a, s') ∧ data s' = data s ∧
      world s' (q1 ++ c' :: q2) ((a, l) :: own) frame
  end.
Proof.
  intros Hw Hq.
  assert (∀ r s', exec (popChunkByID Distributed socket 0) s = Ok (r, s') →
    exec (popChunk Distributed socket 1 0) s = Ok (r, s')) as Hpc.
  { intros r s' H. unfold popChunk, pop_order, myEffectiveID, Q_size.
    replace (if Distributed then 0 else 0) with 0 by (by destruct Distributed).
    replace (seq (0 + 1) ((if Distributed then 1 else 0) - (0 + 1))) with (@nil nat) by (by destruct Distributed).
    cbn [seq app pop_first]. rewrite (exec_step _ _ _ _ _ H). by destruct r. }
  pose proof (queue_empty_run s q1 c q2 own frame Hw) as He. pose proof (queue_pop_run s q1 c q2 own frame Hw) as Hp.
  rewrite Hq in *. destruct c as [|[a l] c].
  - apply Hpc. unfold popChunkByID, queue_pop. rewrite (exec_step _ _ s s true); [done|]. by rewrite exec_act.
  - destruct Hp as (s' & Hs & Hw' & Hd). exists s'. split_and!; [|done|done]. apply Hpc.
    unfold popChunkByID, queue_pop. rewrite (exec_step _ _ s s false) by (by rewrite exec_act). by rewrite exec_act.
Qed.

(** A new [cur]. *)
Lemma fifo_refill s q1 c q2 ln :
  world s (q1 ++ c :: q2) (cell (next (data s 0)) ln) [] →
  length q1 = queue_of Distributed socket 0 → Forall (λ x, x.2 ≠ []) c → (is_Some (next (data s 0)) → ln ≠ []) →
  ∃ s', exec (c ← popChunk Distributed socket 1 0; act (set_cur 0 c);;
      match c with
      | Some _ => mret tt
      | None => n ← act (get_next 0); act (set_cur 0 n);; act (set_next 0 None)
      end;; c ← act (get_cur 0); if_chunk c (ring_extract_front ChunkSize)) s =
    Ok (head (items c ++ items (cell (next (data s 0)) ln)), s') ∧
    fifo_ok s' (tail (items c ++ items (cell (next (data s 0)) ln))).
Proof.
  intros Hw Hq Hc Hln. pose proof (popChunk_run s q1 c q2 _ _ Hw Hq) as Hp. destruct c as [|[a l] c].
  - rewrite (exec_step _ _ _ _ _ Hp), (exec_step _ _ _ _ _ (exec_set (λ p, mkLocal None (next p)) 0 s)). cbv iota.
    set (s1 := set_data 0 _ s).
    set (s3 := set_data 0 (mkLocal (next (data s 0)) None) (set_data 0 (mkLocal (next (data s 0)) (next (data s 0))) s1)).
    assert (data s3 0 = mkLocal (next (data s 0)) None) as D3 by apply set_data_at.
    assert (world s3 (q1 ++ [] :: q2) (cell (next (data s 0)) ln) []) as Hw3 by (by eapply fifo_world_data).
    rewrite (exec_step _ _ _ s3 tt) by done.
    rewrite (exec_step _ _ _ _ _ (exec_get cur 0 s3)), D3. cbn [cur].
    destruct (next (data s 0)) as [n|]; cbn [cell] in *.
    + assert (ln ≠ []) as Hne by (by apply Hln). rewrite <-(app_nil_r [(n, ln)]) in Hw3.
      destruct (fifo_take s3 n q1 [] q2 ln []) as (s' & Hs & _ & _ & Hf); rewrite ?D3; try done; [by intros []|].
      exists s'. rewrite D3 in Hf. cbn in *. rewrite app_nil_r in Hf. unfold items. cbn. by rewrite app_nil_r.
    + exists s3. split; [done|]. exists q1, [], q2, [], []. rewrite D3. split_and!; try done. by intros [].
  - destruct Hp as (s1 & H1 & D1 & Hw1). apply Forall_cons_1 in Hc as [Hl Hc]. cbn in Hl.
    rewrite (exec_step _ _ _ _ _ H1), (exec_step _ _ _ _ _ (exec_set (λ p, mkLocal (Some a) (next p)) 0 s1)). cbv iota.
    set (s2 := set_data 0 _ s1). rewrite (exec_step _ _ s2 s2 tt) by done.
    assert (data s2 0 = mkLocal (Some a) (next (data s 0))) as D2 by (unfold s2; by rewrite set_data_at, D1).
    rewrite (exec_step _ _ _ _ _ (exec_get cur 0 s2)), D2. cbn [cur].
    assert (world s2 (q1 ++ c :: q2) ((a, l) :: cell (next (data s 0)) ln) []) as Hw2 by (by eapply fifo_world_data).
    destruct (fifo_take s2 a q1 c q2 l ln) as (s' & Hs & _ & _ & Hf); rewrite ?D2; try done.
    exists s'. rewrite D2 in Hf. destruct l as [|v l]; [done|]. cbn in *. by rewrite <-app_assoc.
Qed.

Lemma fifo_pop s l :
  fifo_ok s l → ∃ s', exec (pop ChunkSize false Distributed socket 1 0) s = Ok (head l, s') ∧ fifo_ok s' (tail l).
Proof.
  intros (q1 & c & q2 & lc & ln & Hw & Hq & Hc & Hln & ->). unfold pop.
  rewrite (exec_step _ _ _ _ _ (exec_get cur 0 s)).
  destruct (cur (data s 0)) as [a|] eqn:Ea; cbn [cell] in *.
  - destruct (fifo_take s a q1 c q2 lc ln) as (s1 & H1 & D1 & Hw1 & Hf); try done.
    rewrite (exec_step _ _ _ _ _ H1). unfold items at 1 4. cbn [fmap list_fmap concat snd]. rewrite app_nil_r.
    destruct lc as [|v lc]; cbn [head tail app] in *; [|by exists s1].
    destruct (delChunk_run _ _ _ _ _ _ Hw1) as (s2 & H2 & Hw2 & D2). cbn [del_chunk].
    rewrite (exec_step _ _ s1 s2 tt) by (by rewrite exec_act). rewrite <-D1, <-D2 in *. by apply (fifo_refill s2 q1 c q2).
  - rewrite (exec_step _ _ s s None) by done. cbv iota. rewrite (exec_step _ _ s s tt) by done. by apply (fifo_refill s q1 c q2).
Qed.

Lemma fifo_flush s l : fifo_ok s l → ∃ s', exec (flush Distributed socket 0) s = Ok (tt, s') ∧ fifo_ok s' l.
Proof.
  intros (q1 & c & q2 & lc & ln & Hw & Hq & Hc & Hln & ->). unfold flush.
  rewrite (exec_step _ _ _ _ _ (exec_get next 0 s)).
  destruct (next (data s 0)) as [n|] eqn:En; cbn [cell] in *.
  - apply (world_perm _ _ _ ((n, ln) :: cell (cur (data s 0)) lc) _ []) in Hw;
      [|by rewrite <-Permutation_cons_append|done].
    destruct (queue_push_run _ _ _ _ _ _ _ _ Hw) as (s1 & H1 & Hw1 & D1). rewrite Hq in H1.
    rewrite (exec_step _ _ s s1 tt) by (unfold pushChunk; by rewrite exec_act).
    exists (set_data 0 (mkLocal (cur (data s1 0)) None) s1). split; [done|].
    exists q1, (c ++ [(n, ln)]), q2, lc, []. rewrite set_data_at, D1. cbn [cur next cell].
    split_and!; [eapply fifo_world_data; [rewrite app_nil_r; exact Hw1|done..]|done| |by intros []|].
    + apply Forall_app. split; [done|]. apply Forall_singleton. by apply Hln.
    + rewrite items_app. change (items []) with (@nil T). by rewrite app_nil_r.
  - rewrite (exec_step _ _ s s tt) by done.
    exists (set_data 0 (mkLocal (cur (data s 0)) None) s). split; [done|]. exists q1, c, q2, lc, []. rewrite set_data_at. cbn [cur next cell].
    split_and!; try done. by eapply fifo_world_data.
Qed.
End Logic.

(** Two threads on one socket with chunks of two: the first pushes three values; before it
    adds its full chunk to the queue the second starts a [pop] and finds the queue empty,
    and looks again afterwards. *)
Definition race_events : list (event nat) :=
  ECall 0 (CPushRange [1; 2; 3]) :: replicate 9 (ENext 0) ++
  ECall 1 CPop :: replicate 2 (ENext 1) ++ replicate 6 (ENext 0) ++ replicate 6 (ENext 1) ++
  ECall 1 CPop :: replicate 3 (ENext 1).
Definition race : option (config nat) := run_events 2 false true (λ _, 0) 2 race_events (start_config 2 1).

Lemma worklist_conserves_witness :
  match race with
  | Some c => popped c = [1; 2] ∧ pushed c ≡ₚ popped c ++ stored 2 (memory c)
  | None => False
  end.
Proof.
  destruct race as [c|] eqn:E; [|vm_compute in E; done].
  assert (forallb (λ th, match th with None => true | Some _ => false end) (threads c) = true ∧ popped c = [1; 2])
    as [Hi Hp].
  { assert (match race with
            | Some c => forallb (λ th, match th with None => true | Some _ => false end) (threads c) = true ∧
                popped c = [1; 2]
            | None => False end) as H by (vm_compute; auto). by rewrite E in H. }
  split; [exact Hp|].
  apply (worklist_conserves (T := nat) 2 false true (λ _, 0) 2 1 ltac:(lia) ltac:(intros; cbn; lia) ltac:(lia) c
    (run_events_steps _ _ _ _ _ _ _ _ E)).
  intros t th Ht. rewrite forallb_forall in Hi. apply list_elem_of_lookup_2, list_elem_of_In, Hi in Ht.
  by destruct th.
Defined.
