(* ===== verification/TermDetect.v ===== *)
(** * [libgalois/include/galois/substrate/Termination.h]: [LocalTerminationDetection]

    How the threads of a loop agree that it is over.  A token goes around the threads; a
    thread taints it when it has worked since the token was last with it, and the first
    thread ends the loop when the token has come back untainted twice in a row.

    The detector is modelled with the threads that use it: each runs the loop of
    [ForEachExecutor::go] over the worklist of [Chunk.h], whose [pop] looks at the chunk of
    the thread, then at the queues one after the other, and then at the chunk that the
    thread was filling.  [localTermination] is one step: it touches the holder of the
    calling thread, and hands the token to the next one, which does not look at it before
    it is there. *)
From stdpp Require Import list functions relations.
From S2P Require Import Prelude FixedSizeRing Worklist.

(** ** The detector *)

Record TokenHolder := mkHolder {
  tokenIsBlack : bool;
  hasToken : bool;
  processIsBlack : bool;
  lastWasWhite : bool;
}.

Record detector := mkDetector { holder : nat → TokenHolder; globalTerm : bool }.

Definition put_holder (id : nat) (th : TokenHolder) : st detector unit :=
  modify (λ d, mkDetector (<[id := th]> (holder d)) (globalTerm d)).
Definition get_holder (id : nat) : st detector TokenHolder := gets (λ d, holder d id).

Definition isSysMaster (id : nat) : bool := id =? 0.

Definition initializeThread (id : nat) : st detector unit :=
  put_holder id (mkHolder false (isSysMaster id) true true);;
  modify (λ d, mkDetector (holder d) false).

Definition propToken (activeThreads id : nat) (isBlack : bool) : st detector unit :=
  let n := (id + 1) mod activeThreads in
  th ← get_holder n;
  put_holder n (mkHolder isBlack true (processIsBlack th) (lastWasWhite th)).

Definition propGlobalTerm : st detector unit := modify (λ d, mkDetector (holder d) true).

Definition localTermination (activeThreads id : nat) (workHappened : bool) : st detector unit :=
  g ← gets globalTerm;
  lift (assert (negb (workHappened && g)));;
  th ← get_holder id;
  put_holder id (mkHolder (tokenIsBlack th) (hasToken th) (processIsBlack th || workHappened) (lastWasWhite th));;
  th ← get_holder id;
  if hasToken th then
    ended ← (if isSysMaster id then
               let failed := tokenIsBlack th || processIsBlack th in
               put_holder id (mkHolder false (hasToken th) false (lastWasWhite th));;
               if lastWasWhite th && negb failed then propGlobalTerm;; mret true
               else put_holder id (mkHolder false (hasToken th) false (negb failed));; mret false
             else mret false);
    if (ended : bool) then mret tt
    else
      g ← gets globalTerm;
      lift (assert (negb g));;
      th ← get_holder id;
      let taint := processIsBlack th || tokenIsBlack th in
      put_holder id (mkHolder false false false (lastWasWhite th));;
      propToken activeThreads id taint
  else mret tt.

(** ** The threads of a loop *)

Section Threads.
Context {T : Type} (Distributed : bool) (socket : nat → nat) (activeThreads : nat).

(** Where a thread is: at [wl.pop()], with the [didWork] of this round of [go]; in the
    loops of [popChunk], with the queues it has not looked at; in the operator; at
    [localTermination(didWork)]; at [globalTermination()]; out of the loop. *)
Inductive phase :=
  | Looking (didWork : bool)
  | Scanning (didWork : bool) (todo : list nat)
  | Working (v : T)
  | Checking (didWork : bool)
  | Polling
  | Exited.

(** [curs] and [nexts] are the values in the chunks [cur] and [next] of the threads, and
    [queues] the chunks in the queues. *)
Record loop := mkLoop {
  det : detector;
  phases : nat → phase;
  curs : nat → list T;
  nexts : nat → list T;
  queues : nat → list (list T);
}.

Abbreviation Qof i := (queue_of Distributed socket i).
Definition set_phase (i : nat) (p : phase) (s : loop) : loop :=
  mkLoop (det s) (<[i := p]> (phases s)) (curs s) (nexts s) (queues s).

Inductive loop_step : loop → loop → Prop :=
  (** [pop] finds a value in the chunk of the thread *)
  | take_cur s i d v c :
      i < activeThreads → phases s i = Looking d → curs s i = v :: c →
      loop_step s (mkLoop (det s) (<[i := Working v]> (phases s)) (<[i := c]> (curs s)) (nexts s) (queues s))
  (** or not, and looks at the queues *)
  | scan_start s i d :
      i < activeThreads → phases s i = Looking d → curs s i = [] →
      loop_step s (set_phase i (Scanning d (pop_order Distributed activeThreads i)) s)
  | scan_miss s i d t todo :
      i < activeThreads → phases s i = Scanning d (t :: todo) → queues s (Qof t) = [] →
      loop_step s (set_phase i (Scanning d todo) s)
  | scan_hit s i d t todo v c cs :
      i < activeThreads → phases s i = Scanning d (t :: todo) → queues s (Qof t) = (v :: c) :: cs →
      loop_step s (mkLoop (det s) (<[i := Working v]> (phases s)) (<[i := c]> (curs s)) (nexts s)
        (<[Qof t := cs]> (queues s)))
  (** and at the chunk that the thread fills *)
  | scan_next s i d v c :
      i < activeThreads → phases s i = Scanning d [] → nexts s i = v :: c →
      loop_step s (mkLoop (det s) (<[i := Working v]> (phases s)) (<[i := c]> (curs s)) (<[i := []]> (nexts s))
        (queues s))
  | scan_fail s i d :
      i < activeThreads → phases s i = Scanning d [] → nexts s i = [] →
      loop_step s (set_phase i (Checking d) s)
  (** the operator returns; new values are in the chunk of the thread and, when that was
      full, in chunks of the queue of its socket *)
  | operator_done s i v nx cs :
      i < activeThreads → phases s i = Working v → Forall (λ c, c ≠ []) cs →
      loop_step s (mkLoop (det s) (<[i := Looking true]> (phases s)) (curs s) (<[i := nx]> (nexts s))
        (<[Qof i := queues s (Qof i) ++ cs]> (queues s)))
  | check s i d det' :
      i < activeThreads → phases s i = Checking d → localTermination activeThreads i d (det s) = Ok (tt, det') →
      loop_step s (mkLoop det' (<[i := Polling]> (phases s)) (curs s) (nexts s) (queues s))
  | poll s i :
      i < activeThreads → phases s i = Polling →
      loop_step s (set_phase i (if globalTerm (det s) then Exited else Looking false) s).

(** The start: every thread has initialised its holder and pushed its part of the range. *)
Fixpoint initialize (n : nat) : st detector unit :=
  match n with O => mret tt | S n' => initialize n';; initializeThread n' end.
Definition loop_start (s : loop) : Prop :=
  (∃ d, initialize activeThreads d = Ok (tt, det s)) ∧
  (∀ i, phases s i = Looking false) ∧ (∀ i, curs s i = []) ∧
  (∀ q, Forall (λ c, c ≠ []) (queues s q)) ∧
  (∀ q, queues s q ≠ [] → ∃ i, i < activeThreads ∧ q = Qof i).

(** The next step of a thread, when the operator pushes [op v] to the chunk of its thread;
    a run of the threads in a given order, with the number of the calls of
    [localTermination] by the thread that has the token. *)
Definition loop_next (op : T → list T) (i : nat) (s : loop) : option loop :=
  match phases s i with
  | Looking d =>
      match curs s i with
      | v :: c => Some (mkLoop (det s) (<[i := Working v]> (phases s)) (<[i := c]> (curs s)) (nexts s) (queues s))
      | [] => Some (set_phase i (Scanning d (pop_order Distributed activeThreads i)) s)
      end
  | Scanning d (t :: todo) =>
      match queues s (Qof t) with
      | [] => Some (set_phase i (Scanning d todo) s)
      | (v :: c) :: cs =>
          Some (mkLoop (det s) (<[i := Working v]> (phases s)) (<[i := c]> (curs s)) (nexts s)
            (<[Qof t := cs]> (queues s)))
      | [] :: _ => None
      end
  | Scanning d [] =>
      match nexts s i with
      | v :: c =>
          Some (mkLoop (det s) (<[i := Working v]> (phases s)) (<[i := c]> (curs s)) (<[i := []]> (nexts s)) (queues s))
      | [] => Some (set_phase i (Checking d) s)
      end
  | Working v =>
      Some (mkLoop (det s) (<[i := Looking true]> (phases s)) (curs s) (<[i := nexts s i ++ op v]> (nexts s))
        (<[Qof i := queues s (Qof i) ++ []]> (queues s)))
  | Checking d =>
      match localTermination activeThreads i d (det s) with
      | Ok (_, det') => Some (mkLoop det' (<[i := Polling]> (phases s)) (curs s) (nexts s) (queues s))
      | Err _ => None
      end
  | Polling => Some (set_phase i (if globalTerm (det s) then Exited else Looking false) s)
  | Exited => None
  end.

Definition is_token_check (i : nat) (s : loop) : bool :=
  match phases s i with Checking _ => hasToken (holder (det s) i) | _ => false end.
Fixpoint run_order (op : T → list T) (is_ : list nat) (s : loop) : option (nat * loop) :=
  match is_ with
  | [] => Some (0, s)
  | i :: is' =>
      if i <? activeThreads then
        match loop_next op i s with
        | Some s' =>
            match run_order op is' s' with
            | Some (k, s'') => Some (if is_token_check i s then S k else k, s'')
            | None => None
            end
        | None => None
        end
      else None
  end.

Lemma loop_next_step op i s s' : i < activeThreads → loop_next op i s = Some s' → loop_step s s'.
Proof.
  intros Hi. unfold loop_next. destruct (phases s i) as [d|d [|t todo]|v|d| |] eqn:Hp.
  - destruct (curs s i) as [|v c] eqn:Hc; intros [= <-]; [by apply scan_start|by eapply take_cur].
  - destruct (nexts s i) as [|v c] eqn:Hn; intros [= <-]; [by apply scan_fail|by eapply scan_next].
  - destruct (queues s (Qof t)) as [|[|v c] cs] eqn:Hq; intros [= <-]; [by eapply scan_miss|by eapply scan_hit].
  - intros [= <-]. by eapply operator_done.
  - destruct (localTermination _ _ _ _) as [[[] det']|] eqn:E; intros [= <-]. by eapply check.
  - intros [= <-]. by apply poll.
  - done.
Qed.

Lemma loop_next_others op i s s' j : loop_next op i s = Some s' → j ≠ i → phases s' j = phases s j.
Proof.
  intros Hn Hj. unfold loop_next, set_phase in Hn.
  repeat case_match; simplify_eq; cbn; by apply fn_lookup_insert_ne.
Qed.

Lemma run_order_steps op is_ s k s' : run_order op is_ s = Some (k, s') → rtc loop_step s s'.
Proof.
  revert s k. induction is_ as [|i is_ IH]; intros s k; cbn [run_order]; [intros [= _ <-]; apply rtc_refl|].
  destruct (Nat.ltb_spec i activeThreads); [|done]. destruct (loop_next op i s) as [s1|] eqn:E; [|done].
  destruct (run_order op is_ s1) as [[k1 s2]|] eqn:E1; [|done]. intros [= _ <-].
  eapply rtc_l; [by eapply loop_next_step|by eapply IH].
Qed.
End Threads.
Arguments loop : clear implicits.
Arguments phase : clear implicits.

(** ** What [localTermination] does *)

Section Facts.
Context {T : Type} (Distributed : bool) (socket : nat → nat) (n : nat).

Lemma put_get id th (d : detector) : holder (mkDetector (<[id := th]> (holder d)) (globalTerm d)) id = th.
Proof. apply fn_lookup_insert. Qed.

(** Without the token only the color of the thread changes. *)
Lemma local_no_token i w d :
  hasToken (holder d i) = false → w && globalTerm d = false →
  ∃ d', localTermination n i w d = Ok (tt, d') ∧ globalTerm d' = globalTerm d ∧
    (∀ j, j ≠ i → holder d' j = holder d j) ∧
    holder d' i = mkHolder (tokenIsBlack (holder d i)) false (processIsBlack (holder d i) || w) (lastWasWhite (holder d i)).
Proof.
  intros Ht Hw. eexists. split_and!.
  - unfold localTermination, gets, get_holder, put_holder, modify, lift, mbind, st_bind. cbn.
    rewrite Hw. cbn. rewrite fn_lookup_insert. cbn. rewrite Ht. done.
  - done.
  - intros j Hj. by apply fn_lookup_insert_ne.
  - cbn. rewrite fn_lookup_insert. done.
Qed.

(** The first thread ends the loop. *)
Lemma local_end w d :
  hasToken (holder d 0) = true → lastWasWhite (holder d 0) = true →
  tokenIsBlack (holder d 0) || (processIsBlack (holder d 0) || w) = false →
  ∃ d', localTermination n 0 w d = Ok (tt, d') ∧ globalTerm d' = true ∧
    (∀ j, j ≠ 0 → holder d' j = holder d j) ∧ holder d' 0 = mkHolder false true false true.
Proof.
  intros Ht Hl Hf. assert (w = false) as -> by (by destruct (tokenIsBlack _), (processIsBlack _), w).
  eexists. split_and!.
  - unfold localTermination, gets, get_holder, put_holder, modify, lift, mbind, st_bind, propGlobalTerm. cbn.
    rewrite fn_lookup_insert. cbn. rewrite Ht, Hl, Hf. cbn. done.
  - done.
  - intros j Hj. cbn. by rewrite !fn_lookup_insert_ne.
  - cbn. by rewrite fn_lookup_insert.
Qed.

(** The token goes to the next thread. *)
Lemma local_pass i w d :
  hasToken (holder d i) = true → globalTerm d = false →
  let failed := tokenIsBlack (holder d i) || (processIsBlack (holder d i) || w) in
  let next := (i + 1) mod n in
  (i = 0 → lastWasWhite (holder d 0) && negb failed = false) →
  ∃ h, localTermination n i w d =
      Ok (tt, mkDetector (<[next := mkHolder (negb (i =? 0) && failed) true (processIsBlack (h next))
                                    (lastWasWhite (h next))]> h) false) ∧
    h i = mkHolder false false false (if i =? 0 then negb failed else lastWasWhite (holder d i)) ∧
    ∀ j, j ≠ i → h j = holder d j.
Proof.
  intros Ht Hg failed next Hend. destruct (Nat.eqb_spec i 0) as [->|Hi].
  - specialize (Hend eq_refl). eexists. split_and!.
    + unfold localTermination, gets, get_holder, put_holder, modify, lift, mbind, st_bind. cbn [globalTerm].
      rewrite Hg, andb_false_r. cbn. rewrite fn_lookup_insert. cbn.
      fold failed. rewrite Ht, Hend. cbn. rewrite Hg. cbn. rewrite fn_lookup_insert. cbn. done.
    + cbn [holder]. by rewrite fn_lookup_insert.
    + intros j Hj. cbn [holder]. by rewrite !fn_lookup_insert_ne.
  - eexists. split_and!.
    + unfold localTermination, gets, get_holder, put_holder, modify, lift, mbind, st_bind. cbn [globalTerm].
      rewrite Hg, andb_false_r. cbn. rewrite fn_lookup_insert. cbn. unfold isSysMaster.
      rewrite Ht, (proj2 (Nat.eqb_neq i 0) Hi). cbn. rewrite Hg. cbn. rewrite fn_lookup_insert. cbn.
      unfold failed. rewrite (orb_comm (tokenIsBlack _)). done.
    + cbn [holder]. by rewrite fn_lookup_insert.
    + intros j Hj. cbn [holder]. by rewrite !fn_lookup_insert_ne.
Qed.

(** ** Invariant *)

Abbreviation Qof i := (queue_of Distributed socket i).
Abbreviation step := (loop_step (T := T) Distributed socket n).

(** The thread has worked since the token left it. *)
Definition did (p : phase T) : bool :=
  match p with
  | Looking d | Scanning d _ | Checking d => d
  | Working _ => true
  | Polling | Exited => false
  end.
Definition dirty (s : loop T) (i : nat) : bool := processIsBlack (holder (det s) i) || did (phases s i).

(** The thread will still look at the queue [q], or at its own chunk [cur] or [next],
    before it gives up. *)
Definition looks (p : phase T) (q : nat) : Prop :=
  match p with
  | Looking _ | Working _ => True
  | Scanning _ todo => ∃ t, t ∈ todo ∧ q = Qof t
  | _ => False
  end.
Definition at_cur (p : phase T) : Prop := match p with Looking _ | Working _ => True | _ => False end.
Definition at_next (p : phase T) : Prop := match p with Looking _ | Working _ | Scanning _ _ => True | _ => False end.

(** The threads that the token has left in this round when it is at [p]. *)
Definition visited (p j : nat) : Prop := if p =? 0 then 0 < j < n else j < p.

Definition white (s : loop T) (p : nat) : Prop :=
  tokenIsBlack (holder (det s) p) = false →
  (∀ j, visited p j → dirty s j = false) ∨ ∃ k, k < n ∧ ¬ visited p k ∧ dirty s k = true.
Definition ended (s : loop T) (p : nat) : Prop :=
  globalTerm (det s) = true →
  (∀ i, i < n → dirty s i = false) ∧ p = 0 ∧ (phases s 0 = Polling ∨ phases s 0 = Exited).

(** The work that is left, and who will find it. *)
Record work_ok (s : loop T) : Prop := {
  l_chunks q : Forall (λ c, c ≠ []) (queues s q);
  l_sock q : queues s q ≠ [] → ∃ i, i < n ∧ q = Qof i;
  l_queue q : queues s q ≠ [] → ∃ j, j < n ∧ looks (phases s j) q ∧ dirty s j = true;
  l_cur i : i < n → curs s i ≠ [] → at_cur (phases s i) ∧ dirty s i = true;
  l_next i : i < n → nexts s i ≠ [] → at_next (phases s i) ∧ dirty s i = true;
}.
Record loop_ok (s : loop T) (p : nat) : Prop := {
  l_token_lt : p < n;
  l_token i : i < n → hasToken (holder (det s) i) = (i =? p);
  l_work : work_ok s;
  l_white : white s p;
  l_ended : ended s p;
  l_exit i : phases s i = Exited → globalTerm (det s) = true;
}.

Lemma pop_order_all i t : i < n → t < n → ∃ t', t' ∈ pop_order Distributed n i ∧ Qof t' = Qof t.
Proof.
  intros Hi Ht. unfold pop_order, myEffectiveID, Q_size, queue_of. destruct Distributed; [|exists 0; split; [by left|done]].
  exists t. split; [|done]. rewrite elem_of_cons, elem_of_app, !elem_of_seq. lia.
Qed.

(** A step of a thread that does not touch the detector: a thread that becomes dirty has
    found work, and then some thread was dirty before. *)
Lemma det_same s s' p i :
  i < n → det s' = det s → (∀ j, j ≠ i → phases s' j = phases s j) →
  (did (phases s i) = true → did (phases s' i) = true) →
  (did (phases s' i) = true → ∃ j, j < n ∧ dirty s j = true) →
  (i = 0 → globalTerm (det s) = true → phases s' 0 = Exited) →
  white s p → ended s p →
  (∀ j, j ≠ i → dirty s' j = dirty s j) ∧ (dirty s i = true → dirty s' i = true) ∧ white s' p ∧ ended s' p.
Proof.
  intros Hi Hdet Hph Hkeep Hnew Hend Hw He.
  assert (∀ j, j ≠ i → dirty s' j = dirty s j) as Hj. { intros j Hj. unfold dirty. by rewrite Hdet, Hph. }
  assert (dirty s i = true → dirty s' i = true) as Hmono.
  { unfold dirty. rewrite Hdet. destruct (processIsBlack _); cbn; auto. }
  assert (∀ j, dirty s j = true → dirty s' j = true) as Hmono'.
  { intros j Hd. destruct (decide (j = i)) as [->|]; [by apply Hmono|by rewrite Hj]. }
  assert (dirty s' i = true → ∃ j, j < n ∧ dirty s j = true) as Hnew'.
  { unfold dirty at 1. rewrite Hdet. intros [Hb|Hd]%orb_true_iff; [|by apply Hnew]. exists i. unfold dirty. by rewrite Hb. }
  split_and!; [done..| |].
  - intros Ht. rewrite Hdet in Ht. destruct (Hw Ht) as [Hc|(k & ? & ? & ?)]; [|right; eauto].
    destruct (dirty s' i) eqn:Ei.
    + destruct (Hnew' eq_refl) as (j & Hjn & Hjd). right. exists j. split_and!; [done| |by apply Hmono'].
      intros Hv. by rewrite (Hc j Hv) in Hjd.
    + left. intros j Hv. destruct (decide (j = i)) as [->|Hne]; [done|]. by rewrite Hj, Hc.
  - intros Hg. rewrite Hdet in Hg. destruct (He Hg) as (Hc & -> & H0).
    assert (dirty s' i = false) as Hi'.
    { destruct (dirty s' i); [|done]. destruct (Hnew' eq_refl) as (j & Hjn & Hjd). by rewrite (Hc j Hjn) in Hjd. }
    split_and!; [|done|].
    + intros j Hjn. destruct (decide (j = i)) as [->|Hne]; [done|]. by rewrite Hj, Hc.
    + destruct (decide (0 = i)) as [<-|Hne]; [right; by apply Hend|by rewrite Hph].
Qed.

(** The work after a step of the thread [i]. *)
Lemma work_step s s' i :
  i < n → work_ok s → (∀ j, j ≠ i → phases s' j = phases s j) → (∀ j, j ≠ i → dirty s' j = dirty s j) →
  (dirty s i = true → dirty s' i = true ∨ ∀ q, ¬ looks (phases s i) q) →
  (∀ q, Forall (λ c, c ≠ []) (queues s' q)) →
  (∀ q, queues s' q ≠ [] → q = Qof i ∧ looks (phases s' i) q ∧ dirty s' i = true ∨
     queues s q ≠ [] ∧ (looks (phases s i) q → looks (phases s' i) q)) →
  (∀ j, j ≠ i → curs s' j = curs s j) → (curs s' i ≠ [] → at_cur (phases s' i) ∧ dirty s' i = true) →
  (∀ j, j ≠ i → nexts s' j = nexts s j) → (nexts s' i ≠ [] → at_next (phases s' i) ∧ dirty s' i = true) →
  work_ok s'.
Proof.
  intros Hi Hw Hph Hd Hdi Hch Hq Hcj Hci Hnj Hni. split; [done|..].
  - intros q Hne. destruct (Hq q Hne) as [(-> & _)|[Hs _]]; [by eauto|by apply (l_sock _ Hw)].
  - intros q Hne. destruct (Hq q Hne) as [(-> & ? & ?)|[Hs Hl]]; [by eauto|].
    destruct (l_queue _ Hw q Hs) as (j & Hjn & Hlj & Hdj). destruct (decide (j = i)) as [->|Hji].
    + exists i. split_and!; [done|by apply Hl|]. destruct (Hdi Hdj) as [|Hno]; [done|]. by destruct (Hno q).
    + exists j. by rewrite Hph, Hd.
  - intros j Hjn. destruct (decide (j = i)) as [->|Hji]; [done|]. rewrite Hcj, Hph, Hd by done. by apply (l_cur _ Hw).
  - intros j Hjn. destruct (decide (j = i)) as [->|Hji]; [done|]. rewrite Hnj, Hph, Hd by done. by apply (l_next _ Hw).
Qed.

Lemma quiet_step s s' p i :
  loop_ok s p → i < n → det s' = det s → (∀ j, j ≠ i → phases s' j = phases s j) →
  (did (phases s i) = true → did (phases s' i) = true) →
  (did (phases s' i) = true →
     did (phases s i) = true ∨ (∃ q, queues s q ≠ []) ∨ curs s i ≠ [] ∨ nexts s i ≠ []) →
  (phases s i = Polling → globalTerm (det s) = true → phases s' i = Exited) → phases s i ≠ Exited →
  (phases s' i = Exited → globalTerm (det s) = true) →
  (∀ q, Forall (λ c, c ≠ []) (queues s' q)) →
  (∀ q, queues s' q ≠ [] → q = Qof i ∧ looks (phases s' i) q ∧ did (phases s' i) = true ∨
     queues s q ≠ [] ∧ (looks (phases s i) q → looks (phases s' i) q)) →
  (∀ j, j ≠ i → curs s' j = curs s j) →
  (curs s' i ≠ [] → at_cur (phases s' i) ∧ (did (phases s' i) = true ∨ curs s i ≠ [])) →
  (∀ j, j ≠ i → nexts s' j = nexts s j) →
  (nexts s' i ≠ [] → at_next (phases s' i) ∧ (did (phases s' i) = true ∨ nexts s i ≠ [])) →
  loop_ok s' p.
Proof.
  intros [Hp Ht Hw Hwh He Hx] Hi Hdet Hph Hkeep Hnew Hpoll Hex Hgx Hch Hq Hcj Hci Hnj Hni.
  assert (∀ b, did (phases s' i) = true ∨ b = true → b || did (phases s' i) = true) as Hor.
  { intros b [->| ->]; [by destruct b|done]. }
  destruct (det_same s s' p i) as (Hdj & Hdi & Hwh' & He'); [done..| | |done|done|].
  { intros Hd. destruct (Hnew Hd) as [Hd'|[[q Hne]|[Hne|Hne]]].
    - exists i. unfold dirty. rewrite Hd'. by rewrite orb_true_r.
    - destruct (l_queue _ Hw q Hne) as (j & ? & _ & ?). eauto.
    - exists i. split; [done|]. by apply (l_cur _ Hw).
    - exists i. split; [done|]. by apply (l_next _ Hw). }
  { intros -> Hg. destruct (He Hg) as (_ & _ & [H0|H0]); [by apply Hpoll|done]. }
  assert (did (phases s' i) = true → dirty s' i = true) as Hdd. { intros Hd. unfold dirty. by rewrite Hd, orb_true_r. }
  split; [done|by rewrite Hdet| |done|done|].
  2:{ intros j. rewrite Hdet. destruct (decide (j = i)) as [->|Hj]; [done|]. rewrite Hph by done. apply Hx. }
  eapply work_step; try done.
  - intros Hd. left. auto.
  - intros q Hne. destruct (Hq q Hne) as [(? & ? & ?)|?]; auto.
  - intros Hne. destruct (Hci Hne) as [? [?|Hc]]; [auto|]. split; [done|]. by apply Hdi, (l_cur _ Hw).
  - intros Hne. destruct (Hni Hne) as [? [?|Hc]]; [auto|]. split; [done|]. by apply Hdi, (l_next _ Hw).
Qed.

(** Every step but that of the detector. *)
Lemma other_step_ok s s' p :
  loop_ok s p → step s s' → (∃ i d, i < n ∧ phases s i = Checking d ∧
    ∃ det', localTermination n i d (det s) = Ok (tt, det') ∧
      s' = mkLoop det' (<[i := Polling]> (phases s)) (curs s) (nexts s) (queues s)) ∨ loop_ok s' p.
Proof.
  intros Hok Hs. pose proof (l_work _ _ Hok) as Hw.
  destruct Hs as [s i d v c Hi Hp Hc|s i d Hi Hp Hc|s i d t todo Hi Hp Hq|s i d t todo v c cs Hi Hp Hq
    |s i d v c Hi Hp Hn|s i d Hi Hp Hn|s i v nx cs Hi Hp Hcs|s i d det' Hi Hp Hd|s i Hi Hp];
    [right|right|right|right|right|right|right|left; by eauto 10|right].
  all: eapply (quiet_step s _ p i Hok Hi); cbn [det phases curs nexts queues set_phase]; try done;
    try (intros j Hj; by apply fn_lookup_insert_ne); rewrite ?fn_lookup_insert, ?Hp; try done;
    try apply (l_chunks _ Hw); try (cbn; by auto); cbn [looks did at_cur at_next].
  all: try (intros Hne; destruct (l_cur _ Hw i Hi Hne) as [Ha _]; rewrite Hp in Ha; by destruct Ha).
  - intros _. right; right; left. congruence.
  - intros q Hne. right. split; [done|]. intros _. destruct (l_sock _ Hw q Hne) as (t & Ht & ->).
    destruct (pop_order_all i t Hi Ht) as (t' & ? & ?). eauto.
  - intros q Hne. right. split; [done|]. intros (t' & [->|Ht']%elem_of_cons & ->); [done|eauto].
  - intros _. right; left. exists (Qof t). congruence.
  - intros q. pose proof (l_chunks _ Hw q) as Hc. destruct (decide (Qof t = q)) as [<-|Hne].
    + rewrite fn_lookup_insert. rewrite Hq in Hc. by apply Forall_cons_1 in Hc as [_ Hc].
    + by rewrite fn_lookup_insert_ne.
  - intros q. destruct (decide (Qof t = q)) as [<-|Hne]; [|by rewrite fn_lookup_insert_ne; auto].
    intros _. right. split; [congruence|done].
  - intros _. right; right; right. congruence.
  - intros q Hne. right. split; [done|]. by intros (t & ?%elem_of_nil & _).
  - intros q. pose proof (l_chunks _ Hw q) as Hc. destruct (decide (Qof i = q)) as [<-|Hne].
    + rewrite fn_lookup_insert. by apply Forall_app.
    + by rewrite fn_lookup_insert_ne.
  - intros q. destruct (decide (Qof i = q)) as [<-|Hne]; [by left|]. rewrite fn_lookup_insert_ne; auto.
  - by destruct (globalTerm _).
  - intros _ ->. done.
  - by destruct (globalTerm _).
  - intros q Hne. by right.
  - intros Hne. destruct (l_next _ Hw i Hi Hne) as [Ha _]. by rewrite Hp in Ha.
Qed.

(** A round of the token. *)
Lemma next_lt p : p < n → (p + 1) mod n < n.
Proof. intros. apply Nat.mod_upper_bound. lia. Qed.
Lemma next_cases p : p < n → (p + 1 < n ∧ (p + 1) mod n = p + 1) ∨ (p + 1 = n ∧ (p + 1) mod n = 0).
Proof.
  intros Hp. destruct (decide (p + 1 = n)) as [->|Hne]; [right; split; [done|apply Nat.Div0.mod_same]|].
  left. split; [lia|]. apply Nat.mod_small. lia.
Qed.

(** The loop after a check of the thread [i]. *)
Definition checked (det' : detector) (i : nat) (s : loop T) : loop T :=
  mkLoop det' (<[i := Polling]> (phases s)) (curs s) (nexts s) (queues s).

Lemma checked_dirty s i det' j :
  dirty (checked det' i s) j =
  processIsBlack (holder det' j) || (if decide (j = i) then false else did (phases s j)).
Proof.
  unfold dirty. cbn. case_decide as Hj; [subst; by rewrite fn_lookup_insert|by rewrite fn_lookup_insert_ne].
Qed.

Lemma checked_work s i d det' :
  i < n → work_ok s → phases s i = Checking d →
  (∀ j, j ≠ i → processIsBlack (holder det' j) = processIsBlack (holder (det s) j)) →
  work_ok (checked det' i s).
Proof.
  intros Hi Hw Hph Hb. eapply (work_step s (checked det' i s) i Hi Hw); try done; cbn [curs nexts queues checked].
  - intros j Hj. by apply fn_lookup_insert_ne.
  - intros j Hj. rewrite checked_dirty, Hb, decide_False by done. done.
  - right. intros q. rewrite Hph. by intros [].
  - apply (l_chunks _ Hw).
  - intros q Hne. right. rewrite Hph. by split.
  - intros Hne. destruct (l_cur _ Hw i Hi Hne) as [Ha _]. by rewrite Hph in Ha.
  - intros Hne. destruct (l_next _ Hw i Hi Hne) as [Ha _]. by rewrite Hph in Ha.
Qed.

Lemma check_no_token s p i d :
  loop_ok s p → i < n → phases s i = Checking d → i ≠ p →
  ∃ det', localTermination n i d (det s) = Ok (tt, det') ∧ loop_ok (checked det' i s) p.
Proof.
  intros [Hp Ht Hw Hwh He Hx] Hi Hph Hip.
  assert (dirty s i = processIsBlack (holder (det s) i) || d) as Hdi by (unfold dirty; by rewrite Hph).
  destruct (local_no_token i d (det s)) as (det' & Hr & Hg' & Hj & Hii); [by rewrite Ht, (proj2 (Nat.eqb_neq i p))| |].
  { destruct (globalTerm (det s)) eqn:Eg; [|apply andb_false_r]. destruct (He Eg) as (Hc & _).
    rewrite (Hc i Hi) in Hdi. by destruct d, (processIsBlack _). }
  exists det'. split; [done|].
  assert (∀ j, dirty (checked det' i s) j = dirty s j) as Hd.
  { intros j. rewrite checked_dirty. case_decide as E; [subst; by rewrite Hdi, Hii, orb_false_r|by rewrite Hj]. }
  split; [done| | | | |].
  - intros j Hjn. cbn. destruct (decide (j = i)) as [->|]; [rewrite Hii|rewrite Hj by done; by apply Ht].
    by rewrite (proj2 (Nat.eqb_neq i p)).
  - eapply checked_work; [done..|]. intros j Hji. by rewrite Hj.
  - unfold white. cbn. rewrite Hj by done. intros Hwhite. destruct (Hwh Hwhite) as [Hc|(k & ? & ? & ?)].
    + left. intros j Hv. rewrite Hd. by apply Hc.
    + right. exists k. by rewrite Hd.
  - unfold ended. cbn [det checked]. rewrite Hg'. intros Hgt. destruct (He Hgt) as (Hc & -> & H0). split_and!; [|done|].
    + intros j Hjn. rewrite Hd. by apply Hc.
    + cbn. by rewrite fn_lookup_insert_ne.
  - intros j. cbn. rewrite Hg'. destruct (decide (j = i)) as [->|Hji]; [by rewrite fn_lookup_insert|].
    rewrite fn_lookup_insert_ne by done. apply Hx.
Qed.

Lemma check_end s d :
  loop_ok s 0 → phases s 0 = Checking d → lastWasWhite (holder (det s) 0) = true →
  tokenIsBlack (holder (det s) 0) || (processIsBlack (holder (det s) 0) || d) = false →
  ∃ det', localTermination n 0 d (det s) = Ok (tt, det') ∧ loop_ok (checked det' 0 s) 0.
Proof.
  intros [Hp Ht Hw Hwh He Hx] Hph Hlw Hf. apply orb_false_iff in Hf as [Htok Hb].
  destruct (local_end d (det s)) as (det' & Hr & Hg' & Hj & H0); [by rewrite Ht|done|by rewrite Htok, Hb|].
  exists det'. split; [done|].
  assert (dirty s 0 = false) as Hd0 by (unfold dirty; by rewrite Hph).
  assert (∀ j, j < n → dirty (checked det' 0 s) j = false) as Hc.
  { intros j Hjn. rewrite checked_dirty. case_decide as E; [subst; by rewrite H0|]. rewrite Hj by done.
    destruct (Hwh Htok) as [Hv|(k & Hk & Hnv & Hkd)].
    - apply (Hv j). unfold visited. cbn. lia.
    - assert (k = 0) as -> by (unfold visited in Hnv; cbn in Hnv; lia). congruence. }
  split; [done| | | | |].
  - intros j Hjn. cbn. destruct (decide (j = 0)) as [->|]; [by rewrite H0|]. rewrite Hj by done. by apply Ht.
  - eapply checked_work; [done..|]. intros j Hji. by rewrite Hj.
  - intros _. left. intros j Hv. apply Hc. unfold visited in Hv. cbn in Hv. lia.
  - intros _. split_and!; [done..|]. left. cbn. by rewrite fn_lookup_insert.
  - done.
Qed.

(** An untainted token, one thread further. *)
Lemma pass_white (dirt dirt' : nat → bool) p tok :
  p < n → (∀ j, dirt' j = if decide (j = p) then false else dirt j) →
  (tok = false → (∀ j, visited p j → dirt j = false) ∨ ∃ k, k < n ∧ ¬ visited p k ∧ dirt k = true) →
  negb (p =? 0) && (tok || dirt p) = false →
  (∀ j, visited ((p + 1) mod n) j → dirt' j = false) ∨
  ∃ k, k < n ∧ ¬ visited ((p + 1) mod n) k ∧ dirt' k = true.
Proof.
  intros Hp Hd Hw Ht. destruct (Nat.eqb_spec p 0) as [->|Hp0].
  - left. intros j Hv. rewrite Hd. case_decide; [done|]. exfalso. unfold visited in Hv.
    destruct (next_cases 0 Hp) as [[Hn E]|[Hn E]]; rewrite E in Hv; cbn in Hv; lia.
  - cbn in Ht. apply orb_false_iff in Ht as [Ht Hdp]. destruct (Hw Ht) as [Hc|(k & Hk & Hnv & Hkd)].
    + left. intros j Hv. rewrite Hd. case_decide as E; [done|]. apply Hc. unfold visited in *.
      rewrite (proj2 (Nat.eqb_neq p 0)) by done.
      destruct (next_cases p Hp) as [[Hn En]|[Hn En]]; rewrite En in Hv; [|cbn in Hv; lia].
      rewrite (proj2 (Nat.eqb_neq (p + 1) 0)) in Hv by lia. lia.
    + right. exists k. assert (k ≠ p) as Hkp by congruence. unfold visited in *.
      rewrite (proj2 (Nat.eqb_neq p 0)) in Hnv by done. split_and!; [done| |by rewrite Hd, decide_False].
      destruct (next_cases p Hp) as [[Hn En]|[Hn En]]; rewrite En; [|lia].
      rewrite (proj2 (Nat.eqb_neq (p + 1) 0)) by lia. lia.
Qed.

Lemma check_pass s p d :
  loop_ok s p → phases s p = Checking d →
  (p = 0 → lastWasWhite (holder (det s) 0) &&
     negb (tokenIsBlack (holder (det s) p) || (processIsBlack (holder (det s) p) || d)) = false) →
  ∃ det', localTermination n p d (det s) = Ok (tt, det') ∧ loop_ok (checked det' p s) ((p + 1) mod n).
Proof.
  intros [Hp Ht Hw Hwh He Hx] Hph Hend. pose proof (next_lt p Hp) as Hnl.
  assert (globalTerm (det s) = false) as Hg.
  { destruct (globalTerm (det s)) eqn:Eg; [|done]. destruct (He Eg) as (_ & -> & [H0|H0]); by rewrite Hph in H0. }
  destruct (local_pass p d (det s)) as (h & Hr & Hhp & Hhj); [by rewrite Ht, Nat.eqb_refl|done|done|].
  set (failed := _ || _) in Hr. set (next := (p + 1) mod n) in *.
  eexists. split; [exact Hr|]. set (h' := <[next := _]> h).
  assert (∀ j, processIsBlack (h' j) = if decide (j = p) then false else processIsBlack (holder (det s) j)) as Hblack.
  { intros j. unfold h'. transitivity (processIsBlack (h j)).
    - destruct (decide (next = j)) as [<-|]; [by rewrite fn_lookup_insert|by rewrite fn_lookup_insert_ne].
    - case_decide as E; [subst; by rewrite Hhp|by rewrite Hhj]. }
  assert (∀ j, dirty (checked (mkDetector h' false) p s) j = if decide (j = p) then false else dirty s j) as Hd.
  { intros j. rewrite checked_dirty. cbn [holder]. rewrite Hblack. by case_decide. }
  split; [done| | | | |].
  - intros j Hjn. cbn. unfold h'. destruct (decide (next = j)) as [<-|Hne].
    + by rewrite fn_lookup_insert, Nat.eqb_refl.
    + rewrite fn_lookup_insert_ne, (proj2 (Nat.eqb_neq j next)) by done.
      destruct (decide (j = p)) as [->|]; [by rewrite Hhp|]. rewrite Hhj, Ht by done. by apply Nat.eqb_neq.
  - eapply checked_work; [done..|]. intros j Hji. cbn. by rewrite Hblack, decide_False.
  - intros Htok. cbn in Htok. unfold h' in Htok. rewrite fn_lookup_insert in Htok. cbn in Htok.
    apply (pass_white (dirty s) _ p (tokenIsBlack (holder (det s) p)) Hp Hd); [done|].
    unfold dirty. by rewrite Hph.
  - done.
  - intros j. cbn. destruct (decide (j = p)) as [->|Hjp]; [by rewrite fn_lookup_insert|].
    rewrite fn_lookup_insert_ne by done. intros He'. apply Hx in He'. congruence.
Qed.

Lemma check_ok s p i d :
  loop_ok s p → i < n → phases s i = Checking d →
  ∃ det' p', localTermination n i d (det s) = Ok (tt, det') ∧ loop_ok (checked det' i s) p'.
Proof.
  intros Hok Hi Hph. destruct (decide (i = p)) as [->|Hip].
  2:{ destruct (check_no_token s p i d) as (det' & ? & ?); eauto. }
  destruct (lastWasWhite (holder (det s) 0) &&
    negb (tokenIsBlack (holder (det s) p) || (processIsBlack (holder (det s) p) || d))) eqn:E.
  - destruct (decide (p = 0)) as [->|Hp0].
    + apply andb_true_iff in E as [El Ef%negb_true_iff]. destruct (check_end s d) as (det' & ? & ?); eauto.
    + destruct (check_pass s p d) as (det' & ? & ?); [done..|]. eauto.
  - destruct (check_pass s p d) as (det' & ? & ?); eauto.
Qed.

Lemma step_keeps s s' p : loop_ok s p → step s s' → ∃ p', loop_ok s' p'.
Proof.
  intros Hok Hs. destruct (other_step_ok s s' p Hok Hs) as [(i & d & Hi & Hph & det' & Hr & ->)|]; [|eauto].
  destruct (check_ok s p i d Hok Hi Hph) as (det'' & p' & Hr' & Hok'). rewrite Hr in Hr'. injection Hr' as ->. eauto.
Qed.

(** ** The start *)

Lemma initialize_run m d :
  ∃ d', initialize m d = Ok (tt, d') ∧ (0 < m → globalTerm d' = false) ∧
    ∀ i, i < m → holder d' i = mkHolder false (i =? 0) true true.
Proof.
  induction m as [|m (d' & Hr & Hg & Hh)]; [exists d; split_and!; [done|lia|lia]|].
  cbn [initialize]. rewrite (st_bind_step _ _ _ _ _ Hr). eexists. split_and!; [done|done|].
  intros i Hi. cbn. destruct (decide (i = m)) as [->|Hne]; [by rewrite fn_lookup_insert|].
  rewrite fn_lookup_insert_ne by done. apply Hh. lia.
Qed.

Lemma start_loop_ok s : 0 < n → loop_start Distributed socket n s → loop_ok s 0.
Proof.
  intros Hn ([d Hd] & Hph & Hc & Hch & Hs). destruct (initialize_run n d) as (d' & Hr & Hg & Hh).
  rewrite Hd in Hr. injection Hr as Hr. rewrite <-Hr in *.
  assert (∀ i, i < n → dirty s i = true) as Hdirty. { intros i Hi. unfold dirty. by rewrite Hh. }
  split; [done| | | | |].
  - intros i Hi. by rewrite Hh.
  - split; [done|done| | |].
    + intros q Hq. exists 0. rewrite Hph. split_and!; [done..|by apply Hdirty].
    + intros i _ Hne. by rewrite Hc in Hne.
    + intros i Hi _. rewrite Hph. split; [done|by apply Hdirty].
  - intros _. right. exists 0. split_and!; [done|cbn; lia|by apply Hdirty].
  - intros Hgt. rewrite Hg in Hgt; done.
  - intros i. by rewrite Hph.
Qed.

Lemma reachable_loop_ok s0 s : 0 < n → loop_start Distributed socket n s0 → rtc step s0 s → ∃ p, loop_ok s p.
Proof.
  intros Hn Hs Hr. pose proof (start_loop_ok s0 Hn Hs) as H0. assert (∃ p, loop_ok s0 p) as Hok by eauto. clear H0 Hs.
  induction Hr as [s|s s' s'' Hs _ IH]; [done|]. apply IH. destruct Hok as [p Hok]. by eapply step_keeps.
Qed.

(** Nothing is left to do. *)
Definition all_done (s : loop T) : Prop :=
  (∀ i, i < n → curs s i = [] ∧ nexts s i = [] ∧ ∀ v, phases s i ≠ Working v) ∧ ∀ q, queues s q = [].

Lemma clean_done s : work_ok s → (∀ i, i < n → dirty s i = false) → all_done s.
Proof.
  intros Hw Hc. split.
  - intros i Hi. specialize (Hc i Hi). split_and!.
    + destruct (curs s i) eqn:E; [done|]. destruct (l_cur _ Hw i Hi) as [_ ?]; congruence.
    + destruct (nexts s i) eqn:E; [done|]. destruct (l_next _ Hw i Hi) as [_ ?]; congruence.
    + intros v Hv. unfold dirty in Hc. rewrite Hv in Hc. by rewrite orb_true_r in Hc.
  - intros q. destruct (queues s q) eqn:E; [done|]. destruct (l_queue _ Hw q) as (j & Hj & _ & Hd); [congruence|].
    by rewrite (Hc j Hj) in Hd.
Qed.


(** ** The end comes *)

Lemma existsb_ext' {A} (f g : A → bool) l : (∀ x, f x = g x) → existsb f l = existsb g l.
Proof. intros Hfg. induction l as [|x l IH]; [done|]. cbn. by rewrite Hfg, IH. Qed.
Lemma existsb_seq_false (f : nat → bool) : existsb f (seq 0 n) = false ↔ ∀ j, j < n → f j = false.
Proof.
  split.
  - intros He j Hj. destruct (f j) eqn:E; [|done]. rewrite <-He. symmetry. apply existsb_exists.
    exists j. split; [apply in_seq; lia|done].
  - intros Hf. destruct (existsb f (seq 0 n)) eqn:E; [|done]. apply existsb_exists in E as (j & Hj & Hfj).
    apply in_seq in Hj. rewrite Hf in Hfj by lia. done.
Qed.

(** A call of [localTermination] by the thread that has the token. *)
Definition token_check (s s' : loop T) : Prop :=
  ∃ i d det', i < n ∧ phases s i = Checking d ∧ hasToken (holder (det s) i) = true ∧
    localTermination n i d (det s) = Ok (tt, det') ∧ s' = checked det' i s.

(** A run with [k] such calls. *)
Inductive token_run : nat → loop T → loop T → Prop :=
  | run_refl s : token_run 0 s s
  | run_other k s s' s'' : step s s' → ¬ token_check s s' → token_run k s' s'' → token_run k s s''
  | run_check k s s' s'' : step s s' → token_check s s' → token_run k s' s'' → token_run (S k) s s''.

(** How many rounds of the token are needed: a tainted thread that the token has left
    taints the next round, and two rounds without a taint follow. *)
Definition visitedb (p j : nat) : bool := if p =? 0 then (0 <? j) && (j <? n) else j <? p.
Definition rounds (dirt : nat → bool) (tok lw : bool) (p : nat) : nat :=
  if existsb (λ j, visitedb p j && dirt j) (seq 0 n) then 3
  else if tok || existsb dirt (seq 0 n) then 2
  else if lw then 0 else 1.
Definition distance (p : nat) : nat := if p =? 0 then 0 else n - p.
Definition measure (s : loop T) (p : nat) : nat :=
  rounds (dirty s) (tokenIsBlack (holder (det s) p)) (lastWasWhite (holder (det s) 0)) p * n + distance p.

Lemma measure_lt s p : p < n → measure s p < 4 * n.
Proof.
  intros Hp. assert (∀ dirt tok lw, rounds dirt tok lw p <= 3) as Hr by (intros; unfold rounds; repeat case_match; lia).
  pose proof (Hr (dirty s) (tokenIsBlack (holder (det s) p)) (lastWasWhite (holder (det s) 0))).
  unfold measure, distance. destruct (Nat.eqb_spec p 0); nia.
Qed.

Lemma rounds_ext dirt dirt' tok lw p : (∀ j, dirt' j = dirt j) → rounds dirt' tok lw p = rounds dirt tok lw p.
Proof.
  intros Hd. unfold rounds. rewrite (existsb_ext' dirt' dirt) by done.
  by rewrite (existsb_ext' (λ j, visitedb p j && dirt' j) (λ j, visitedb p j && dirt j)) by (intros; by rewrite Hd).
Qed.

(** The token moves on from a thread other than the first. *)
Lemma rounds_pass dirt dirt' tok lw p :
  0 < p → p < n → (∀ j, dirt' j = if decide (j = p) then false else dirt j) →
  rounds dirt' (tok || dirt p) lw ((p + 1) mod n) <= rounds dirt tok lw p.
Proof.
  intros Hp0 Hp Hd. unfold rounds.
  destruct (existsb (λ j, visitedb p j && dirt j) (seq 0 n)) eqn:EV; [repeat case_match; lia|].
  rewrite existsb_seq_false in EV.
  assert (existsb (λ j, visitedb ((p + 1) mod n) j && dirt' j) (seq 0 n) = false) as ->.
  { apply existsb_seq_false. intros j Hj. rewrite Hd. case_decide as E; [apply andb_false_r|].
    specialize (EV j Hj). unfold visitedb in *. rewrite (proj2 (Nat.eqb_neq p 0)) in EV by lia.
    destruct (Nat.ltb_spec j p); [cbn in EV; by rewrite EV, andb_false_r|].
    destruct (next_cases p Hp) as [[Hn ->]|[Hn ->]]; [|lia].
    rewrite (proj2 (Nat.eqb_neq (p + 1) 0)), (proj2 (Nat.ltb_ge j (p + 1))) by lia. done. }
  destruct (existsb dirt (seq 0 n)) eqn:ED; [rewrite orb_true_r; repeat case_match; lia|].
  rewrite existsb_seq_false in ED. rewrite (ED p Hp), !orb_false_r.
  assert (existsb dirt' (seq 0 n) = false) as ->; [|by rewrite orb_false_r].
  apply existsb_seq_false. intros j Hj. rewrite Hd. case_decide; [done|by apply ED].
Qed.

(** The first thread sends it on a new round. *)
Lemma rounds_restart dirt dirt' tok lw :
  0 < n → (∀ j, dirt' j = if decide (j = 0) then false else dirt j) → lw && negb (tok || dirt 0) = false →
  rounds dirt' false (negb (tok || dirt 0)) ((0 + 1) mod n) < rounds dirt tok lw 0.
Proof.
  intros Hn Hd Hend. unfold rounds.
  assert (existsb (λ j, visitedb ((0 + 1) mod n) j && dirt' j) (seq 0 n) = false) as ->.
  { apply existsb_seq_false. intros j Hj. rewrite Hd. case_decide as E; [apply andb_false_r|]. unfold visitedb.
    destruct (next_cases 0 Hn) as [[Hn' ->]|[Hn' ->]]; cbn [Nat.eqb Nat.add]; [|lia].
    by rewrite (proj2 (Nat.ltb_ge j 1)) by lia. }
  destruct (existsb (λ j, visitedb 0 j && dirt j) (seq 0 n)) eqn:EV; [repeat case_match; lia|].
  rewrite existsb_seq_false in EV.
  assert (existsb dirt' (seq 0 n) = false) as ->.
  { apply existsb_seq_false. intros j Hj. rewrite Hd. case_decide; [done|]. specialize (EV j Hj).
    unfold visitedb in EV. cbn [Nat.eqb] in EV.
    rewrite (proj2 (Nat.ltb_lt 0 j)), (proj2 (Nat.ltb_lt j n)) in EV by lia. done. }
  cbn [orb]. destruct (tok || dirt 0) eqn:Ef; cbn [negb andb].
  - assert (tok || existsb dirt (seq 0 n) = true) as ->; [|lia]. apply orb_true_iff in Ef as [->|E0]; [done|].
    apply orb_true_iff. right. apply existsb_exists. exists 0. split; [apply in_seq; lia|done].
  - rewrite andb_true_r in Hend. subst lw. repeat case_match; lia.
Qed.

Lemma set_phase_done s i ph :
  all_done s → (∀ v, ph ≠ Working v) → all_done (set_phase i ph s).
Proof.
  intros [Ha Hq] Hph. split; [|done]. intros j Hj. destruct (Ha j Hj) as (? & ? & ?). split_and!; [done..|].
  cbn. destruct (decide (i = j)) as [->|]; [by rewrite fn_lookup_insert|by rewrite fn_lookup_insert_ne].
Qed.
Lemma set_phase_dirty s i ph : did ph = did (phases s i) → ∀ j, dirty (set_phase i ph s) j = dirty s j.
Proof.
  intros Hd j. unfold dirty. cbn. destruct (decide (i = j)) as [->|]; [by rewrite fn_lookup_insert, Hd|by rewrite fn_lookup_insert_ne].
Qed.

(** When nothing is left to do, a step that is not a check changes only where a thread is. *)
Lemma done_step s s' :
  all_done s → step s s' →
  (∃ i d det', i < n ∧ phases s i = Checking d ∧ localTermination n i d (det s) = Ok (tt, det') ∧ s' = checked det' i s) ∨
  ∃ i ph, s' = set_phase i ph s ∧ did ph = did (phases s i) ∧ (∀ v, ph ≠ Working v) ∧ ∀ d, phases s i ≠ Checking d.
Proof.
  intros [Ha Hqs] Hs.
  destruct Hs as [s i d v c Hi Hp Hc|s i d Hi Hp Hc|s i d t todo Hi Hp Hq|s i d t todo v c cs Hi Hp Hq
    |s i d v c Hi Hp Hn|s i d Hi Hp Hn|s i v nx cs Hi Hp Hcs|s i d det' Hi Hp Hd|s i Hi Hp].
  - destruct (Ha i Hi) as (? & _). congruence.
  - right. eexists i, _. split; [done|]. by rewrite Hp.
  - right. eexists i, _. split; [done|]. by rewrite Hp.
  - specialize (Hqs (Qof t)). congruence.
  - destruct (Ha i Hi) as (_ & ? & _). congruence.
  - right. eexists i, _. split; [done|]. by rewrite Hp.
  - destruct (Ha i Hi) as (_ & _ & Hw). by destruct (Hw v).
  - left. by eauto 10.
  - right. eexists i, _. split; [done|]. rewrite Hp. by destruct (globalTerm _).
Qed.

Lemma checked_done s i det' : all_done s → all_done (checked det' i s).
Proof. intros Ha. by apply (set_phase_done s i Polling Ha). Qed.

(** The end, once reported, stays. *)
Lemma ended_stays s p s' : loop_ok s p → step s s' → globalTerm (det s) = true → globalTerm (det s') = true.
Proof.
  intros Hok Hs Hg. destruct (l_ended _ _ Hok Hg) as (_ & -> & H0).
  destruct Hs as [| | | | | | |s i d det' Hi Hp Hd|]; try done.
  destruct (decide (i = 0)) as [->|Hne]; [by destruct H0; congruence|].
  destruct (check_no_token s 0 i d Hok Hi Hp Hne) as (det'' & Hr & Hok'). rewrite Hd in Hr. injection Hr as <-.
  destruct (local_no_token i d (det s)) as (det2 & Hr & Hg' & _).
  - by rewrite (l_token _ _ Hok), (proj2 (Nat.eqb_neq i 0)).
  - destruct (l_ended _ _ Hok Hg) as (Hc & _). specialize (Hc i Hi). unfold dirty in Hc. rewrite Hp in Hc.
    by destruct d, (processIsBlack _).
  - rewrite Hd in Hr. injection Hr as <-. cbn. by rewrite Hg'.
Qed.

(** What matters of the loop after a check by the thread with the token, *)
Lemma passed_token s p d det' :
  loop_ok s p → phases s p = Checking d →
  (p = 0 → lastWasWhite (holder (det s) 0) &&
     negb (tokenIsBlack (holder (det s) p) || (processIsBlack (holder (det s) p) || d)) = false) →
  localTermination n p d (det s) = Ok (tt, det') →
  let failed := tokenIsBlack (holder (det s) p) || (processIsBlack (holder (det s) p) || d) in
  (∀ j, dirty (checked det' p s) j = if decide (j = p) then false else dirty s j) ∧
  tokenIsBlack (holder det' ((p + 1) mod n)) = negb (p =? 0) && failed ∧
  lastWasWhite (holder det' 0) = if p =? 0 then negb failed else lastWasWhite (holder (det s) 0).
Proof.
  intros Hok Hph Hend Hr failed. pose proof (l_token_lt _ _ Hok) as Hp.
  assert (globalTerm (det s) = false) as Hg.
  { destruct (globalTerm (det s)) eqn:Eg; [|done].
    destruct (l_ended _ _ Hok Eg) as (_ & -> & [H0|H0]); by rewrite Hph in H0. }
  destruct (local_pass p d (det s)) as (h & Hr2 & Hhp & Hhj);
    [by rewrite (l_token _ _ Hok), Nat.eqb_refl|done|done|].
  rewrite Hr in Hr2. injection Hr2 as ->. cbn [holder]. set (next := (p + 1) mod n). set (h' := <[next := _]> h).
  assert (∀ j, processIsBlack (h' j) = processIsBlack (h j) ∧ lastWasWhite (h' j) = lastWasWhite (h j)) as Hh.
  { intros j. unfold h'. destruct (decide (next = j)) as [<-|]; [by rewrite fn_lookup_insert|by rewrite fn_lookup_insert_ne]. }
  split_and!.
  - intros j. rewrite checked_dirty. cbn [holder]. rewrite (proj1 (Hh j)). case_decide as E; [subst; by rewrite Hhp|by rewrite Hhj].
  - unfold h'. by rewrite fn_lookup_insert.
  - rewrite (proj2 (Hh 0)). destruct (Nat.eqb_spec p 0) as [->|Hp0]; [by rewrite Hhp|by rewrite Hhj].
Qed.
(** and by a thread without it. *)
Lemma unpassed_token s p i d det' :
  loop_ok s p → i < n → phases s i = Checking d → i ≠ p → localTermination n i d (det s) = Ok (tt, det') →
  (∀ j, dirty (checked det' i s) j = dirty s j) ∧
  tokenIsBlack (holder det' p) = tokenIsBlack (holder (det s) p) ∧
  lastWasWhite (holder det' 0) = lastWasWhite (holder (det s) 0).
Proof.
  intros Hok Hi Hph Hip Hr.
  assert (dirty s i = processIsBlack (holder (det s) i) || d) as Hdi by (unfold dirty; by rewrite Hph).
  destruct (local_no_token i d (det s)) as (det2 & Hr2 & _ & Hj & Hii).
  - by rewrite (l_token _ _ Hok i Hi), (proj2 (Nat.eqb_neq i p)).
  - destruct (globalTerm (det s)) eqn:Eg; [|apply andb_false_r]. destruct (l_ended _ _ Hok Eg) as (Hc & _).
    rewrite (Hc i Hi) in Hdi. by destruct d, (processIsBlack _).
  - rewrite Hr in Hr2. injection Hr2 as <-. split_and!.
    + intros j. rewrite checked_dirty. case_decide as E; [subst; by rewrite Hdi, Hii, orb_false_r|by rewrite Hj].
    + by rewrite Hj.
    + destruct (decide (i = 0)) as [->|]; [by rewrite Hii|by rewrite Hj].
Qed.

(** A check by the thread that has the token ends the loop or brings the end nearer. *)
Lemma token_check_nearer s s' p :
  loop_ok s p → token_check s s' →
  globalTerm (det s') = true ∨ ∃ p', loop_ok s' p' ∧ measure s' p' < measure s p.
Proof.
  intros Hok (i & d & det' & Hi & Hph & Htok & Hr & ->). pose proof (l_token_lt _ _ Hok) as Hp.
  rewrite (l_token _ _ Hok i Hi) in Htok. apply Nat.eqb_eq in Htok as ->.
  assert (dirty s p = processIsBlack (holder (det s) p) || d) as Hdp by (unfold dirty; by rewrite Hph).
  destruct (lastWasWhite (holder (det s) 0) &&
    negb (tokenIsBlack (holder (det s) p) || (processIsBlack (holder (det s) p) || d)) && (p =? 0)) eqn:E.
  { left. apply andb_true_iff in E as [[El Ef%negb_true_iff]%andb_true_iff ->%Nat.eqb_eq].
    destruct (local_end d (det s)) as (det2 & Hr2 & Hg & _); [by rewrite (l_token _ _ Hok)|done..|].
    rewrite Hr in Hr2. injection Hr2 as ->. done. }
  right. exists ((p + 1) mod n).
  assert (p = 0 → lastWasWhite (holder (det s) 0) &&
    negb (tokenIsBlack (holder (det s) p) || (processIsBlack (holder (det s) p) || d)) = false) as Hend.
  { intros ->. by rewrite andb_true_r in E. }
  destruct (check_pass s p d Hok Hph Hend) as (det2 & Hr2 & Hok'). rewrite Hr in Hr2. injection Hr2 as <-.
  split; [done|]. destruct (passed_token s p d det' Hok Hph Hend Hr) as (Hd & Ht & Hl).
  unfold measure, distance. cbn [det checked]. rewrite Ht, Hl. destruct (Nat.eqb_spec p 0) as [->|Hp0].
  - pose proof (rounds_restart (dirty s) _ (tokenIsBlack (holder (det s) 0)) (lastWasWhite (holder (det s) 0)) Hp Hd) as Hrr.
    rewrite Hdp in Hrr. specialize (Hrr (Hend eq_refl)). cbn [negb andb].
    destruct (Nat.eqb_spec ((0 + 1) mod n) 0); nia.
  - pose proof (rounds_pass (dirty s) _ (tokenIsBlack (holder (det s) p)) (lastWasWhite (holder (det s) 0)) p
      ltac:(lia) Hp Hd) as Hrr. rewrite Hdp in Hrr. cbn [negb andb].
    destruct (next_cases p Hp) as [[Hn En]|[Hn En]]; rewrite En in *.
    + rewrite (proj2 (Nat.eqb_neq (p + 1) 0)) by lia. nia.
    + cbn [Nat.eqb]. nia.
Qed.

Lemma run_ended_stays k s s' :
  token_run k s s' → ∀ p, loop_ok s p → globalTerm (det s) = true → globalTerm (det s') = true.
Proof.
  induction 1 as [s|k s s' s'' Hs _ _ IH|k s s' s'' Hs _ _ IH]; intros p Hok Hg; [done| |];
    (destruct (step_keeps s s' p Hok Hs) as [p' Hok']; apply (IH p' Hok'); exact (ended_stays s p s' Hok Hs Hg)).
Qed.

(** A run of threads with nothing to do. *)
Lemma idle_run_bounded k s s' : token_run k s s' → ∀ p,
  loop_ok s p → all_done s → globalTerm (det s') = false → k <= measure s p.
Proof.
  induction 1 as [s|k s s' s'' Hs Hnt _ IH|k s s' s'' Hs Ht Hrun IH]; intros p Hok Ha Hg; [lia| |].
  - destruct (done_step s s' Ha Hs) as [(i & d & det' & Hi & Hph & Hr & ->)|(i & ph & -> & Hd & Hnw & Hnc)].
    + assert (i ≠ p) as Hip.
      { intros ->. apply Hnt. exists p, d, det'. rewrite (l_token _ _ Hok p Hi), Nat.eqb_refl. eauto. }
      destruct (check_no_token s p i d Hok Hi Hph Hip) as (det2 & Hr2 & Hok'). rewrite Hr in Hr2. injection Hr2 as <-.
      destruct (unpassed_token s p i d det' Hok Hi Hph Hip Hr) as (Hd & Ht & Hl).
      specialize (IH p Hok' (checked_done s i det' Ha) Hg). unfold measure in *.
      cbn [det checked] in IH. by rewrite Ht, Hl, (rounds_ext _ _ _ _ _ Hd) in IH.
    + destruct (other_step_ok s _ p Hok Hs) as [(j & d & Hj & Hph & det' & _ & Eq)|Hok'].
      { exfalso. assert (phases (set_phase i ph s) j = Polling) as Hp by (rewrite Eq; apply fn_lookup_insert).
        cbn in Hp. destruct (decide (i = j)) as [->|Hne]; [by destruct (Hnc d)|]. rewrite fn_lookup_insert_ne in Hp by done. congruence. }
      specialize (IH p Hok' (set_phase_done s i ph Ha Hnw) Hg). unfold measure in *.
      by rewrite (rounds_ext _ _ _ _ _ (set_phase_dirty s i ph Hd)) in IH.
  - destruct (token_check_nearer s s' p Hok Ht) as [Hg'|(p' & Hok' & Hlt)].
    + destruct (step_keeps s s' p Hok Hs) as [p' Hok']. by rewrite (run_ended_stays _ _ _ Hrun p' Hok' Hg') in Hg.
    + assert (all_done s') as Ha' by (destruct Ht as (i & d & det' & _ & _ & _ & _ & ->); by apply checked_done).
      specialize (IH p' Hok' Ha' Hg). lia.
Qed.


Lemma run_order_token_run op is_ s k s' : run_order Distributed socket n op is_ s = Some (k, s') → token_run k s s'.
Proof.
  revert s k. induction is_ as [|i is_ IH]; intros s k; cbn [run_order]; [intros [= <- <-]; apply run_refl|].
  destruct (Nat.ltb_spec i n) as [Hi|]; [|done]. destruct (loop_next _ _ _ op i s) as [s1|] eqn:E; [|done].
  destruct (run_order _ _ _ op is_ s1) as [[k1 s2]|] eqn:E1; [|done]. intros [= <- <-].
  pose proof (loop_next_step _ _ _ op i s s1 Hi E) as Hs. destruct (is_token_check i s) eqn:Ec.
  - eapply run_check; [exact Hs| |by apply IH]. unfold is_token_check in Ec. unfold loop_next in E.
    destruct (phases s i) as [d|d ?|v|d| |] eqn:Hp; try done.
    destruct (localTermination n i d (det s)) as [[[] det']|] eqn:El; [|done]. injection E as <-. by exists i, d, det'.
  - eapply run_other; [exact Hs| |by apply IH]. intros (j & d & det' & Hj & Hp & Ht & _ & ->).
    destruct (decide (j = i)) as [->|Hne].
    + unfold is_token_check in Ec. rewrite Hp in Ec. congruence.
    + pose proof (loop_next_others _ _ _ _ _ _ _ j E Hne) as Hk. cbn in Hk. rewrite fn_lookup_insert in Hk. congruence.
Qed.
End Facts.

(** ** Two threads *)

Definition two_start (nx : nat → list nat) (q : nat → list (list nat)) : loop nat :=
  match initialize 2 (mkDetector (λ _, mkHolder false false false false) true) with
  | Ok (_, d) => mkLoop d (λ _, Looking false) (λ _, []) nx q
  | Err _ => mkLoop (mkDetector (λ _, mkHolder false false false false) true) (λ _, Exited) (λ _, []) nx q
  end.

Lemma two_start_ok nx q :
  (∀ i, Forall (λ c, c ≠ []) (q i)) → (∀ i, q i ≠ [] → i < 2) → loop_start true (λ i, i) 2 (two_start nx q).
Proof.
  intros Hc Hq. unfold two_start. destruct (initialize 2 _) as [[[] d]|] eqn:E; [|done].
  split_and!; cbn; [by eexists|done|done|done|]. intros i Hi. exists i. split; [by apply Hq|done].
Qed.

(** The first thread has three values and a full chunk in its queue, and one of the values
    makes a fourth; the threads make one step each in turn. *)
Definition busy : loop nat :=
  two_start (λ i, if i =? 0 then [1; 2; 3] else []) (λ q, if q =? 0 then [[10; 11]] else []).
Definition busy_order : list nat := concat (replicate 42 [0; 1]) ++ [0].


Definition idle_order : list nat := concat (replicate 3 (replicate 6 0 ++ replicate 6 1)).

