(* ===== verification/ForEach.v ===== *)
(** * [runtime/Executor_ForEach.h] and [UserContext.h] of [libgalois/include/galois]

    What [galois::for_each] runs when the program has one thread, which is its default: the
    thread pushes the range to the worklist, and then takes values out of it and applies
    the operator until the worklist is empty and the detector has seen that.  What the
    operator pushes goes to a buffer, a [gdeque], and from there to the worklist when the
    operator returns, or earlier when the buffer has more than [fastPushBackLimit] values.
    Conflicts cannot occur, [couldAbort] is false.

    The worklist, the buffer and the detector are the models of [Worklist], [Gdeque] and
    [TermDetect]; the theorem says that together they are the loop that [Driver] uses. *)
From stdpp Require Import gmap list functions relations.
From S2P Require Import Prelude FixedSizeRing Gdeque Worklist TermDetect MorphGraph Driver.

Section Executor.
Context {S : Type} (operator : S → GNode → result (S * list GNode)).
(** The chunk size of the worklist, its kind and the sockets of the machine. *)
Context (chunk_size : nat) (Distributed : bool) (socket : nat → nat) (sockets : nat).

Definition fastPushBackLimit : nat := 64.
(** [gdeque<T>] has blocks of 64. *)
#[local] Instance block_container : Gdeque.Container GNode (FixedSizeRing GNode) :=
  Gdeque.ring_container 64 0.

(** The executor and the thread-local data of its only thread. *)
Record executor := mkExecutor {
  wl : Worklist.wl GNode;
  pushBuffer : Gdeque.gdeque (FixedSizeRing GNode);
  term : TermDetect.detector;
  user : S;
}.

Definition on_wl {A} (p : Worklist.prog (Worklist.wl GNode) A) : st executor A := λ e,
  match Worklist.exec p (wl e) with
  | Ok (a, w) => Ok (a, mkExecutor w (pushBuffer e) (term e) (user e))
  | Err x => Err x
  end.
Definition on_buffer {A} (m : st (Gdeque.gdeque (FixedSizeRing GNode)) A) : st executor A := λ e,
  match m (pushBuffer e) with
  | Ok (a, b) => Ok (a, mkExecutor (wl e) b (term e) (user e))
  | Err x => Err x
  end.
Definition on_term {A} (m : st TermDetect.detector A) : st executor A := λ e,
  match m (term e) with
  | Ok (a, d) => Ok (a, mkExecutor (wl e) (pushBuffer e) d (user e))
  | Err x => Err x
  end.

(** [wl.push(x.begin(), x.end()); x.clear();] *)
Definition fastPushBack : st executor unit :=
  l ← on_buffer (n ← Gdeque.gdeque_size; i ← Gdeque.gdeque_begin; e ← Gdeque.gdeque_end; Gdeque.traverse n i e);
  on_wl (Worklist.push_range chunk_size Distributed socket 0 l);;
  on_buffer Gdeque.gdeque_clear.

(** [UserContext::push] *)
Definition ctx_push (v : GNode) : st executor unit :=
  on_buffer (Gdeque.gdeque_emplace_back v);;
  n ← on_buffer Gdeque.gdeque_size;
  if fastPushBackLimit <? n then fastPushBack else mret tt.
Fixpoint ctx_pushes (vs : list GNode) : st executor unit :=
  match vs with
  | [] => mret tt
  | v :: vs' => ctx_push v;; ctx_pushes vs'
  end.

Definition commitIteration : st executor unit :=
  n ← on_buffer Gdeque.gdeque_size;
  if n =? 0 then mret tt else fastPushBack.

(** The operator does not see the worklist: it is run, and then what it pushes is pushed. *)
Definition doProcess (v : GNode) : st executor unit :=
  e ← getS;
  r ← lift (operator (user e) v);
  modify (λ e, mkExecutor (wl e) (pushBuffer e) (term e) r.1);;
  ctx_pushes r.2;;
  commitIteration.

(** The loop of [runQueueSimple], with at most [fuel] values. *)
Fixpoint runQueueSimple (fuel : nat) (didWork : bool) : st executor bool :=
  p ← on_wl (Worklist.pop chunk_size false Distributed socket 1 0);
  match p with
  | None => mret didWork
  | Some v =>
      match fuel with
      | O => lift (Err Diverge)
      | Datatypes.S fuel' => doProcess v;; runQueueSimple fuel' true
      end
  end.

(** The loop of [go], with at most [rounds] rounds; [checkEmpty] is true, as the worklist
    has no [empty()]. *)
Fixpoint go (rounds fuel : nat) : st executor unit :=
  match rounds with
  | O => lift (Err Diverge)
  | Datatypes.S rounds' =>
      didWork ← runQueueSimple fuel false;
      on_term (TermDetect.localTermination 1 0 didWork);;
      g ← on_term (gets TermDetect.globalTerm);
      if (g : bool) then mret tt else go rounds' fuel
  end.

Definition initThread (range : list GNode) : st executor unit :=
  on_wl (Worklist.push_range chunk_size Distributed socket 0 range);;
  on_term (TermDetect.initializeThread 0).

(** [for_each_impl]: three rounds are enough. *)
Definition for_each_impl (term0 : TermDetect.detector) (fuel : nat) (range : list GNode) (s : S) : result S :=
  x ← (initThread range;; go 3 fuel) (mkExecutor (Worklist.new_wl sockets) Gdeque.new_gdeque term0 s);
  Ok (user x.2).

(** ** Runs *)

Context (chunk_size_pos : 0 < chunk_size) (socket_lt : ∀ i, socket i < sockets) (sockets_pos : 0 < sockets).

Definition block_laws : Gdeque.ContainerLaws GNode (FixedSizeRing GNode) :=
  Gdeque.ring_laws 64 0 ltac:(lia).

Abbreviation wl_holds := (Worklist.fifo_ok chunk_size Distributed socket sockets).
Abbreviation buffer_holds := (Gdeque.gdeque_repr (H0 := block_laws)).

Lemma push_range_run (vs : list GNode) (w : Worklist.wl GNode) (l : list GNode) :
  wl_holds w l → ∃ w', Worklist.exec (Worklist.push_range chunk_size Distributed socket 0 vs) w = Ok (tt, w') ∧
    wl_holds w' (l ++ vs).
Proof.
  revert w l. induction vs as [|v vs IH]; intros w l Hw; cbn [Worklist.push_range].
  { exists w. by rewrite app_nil_r. }
  destruct (Worklist.fifo_push chunk_size Distributed socket sockets chunk_size_pos sockets_pos w l v Hw) as (w1 & H1 & Hw1).
  unfold Worklist.push in H1. rewrite (Worklist.exec_step _ _ _ _ _ H1).
  destruct (IH w1 _ Hw1) as (w' & ? & Hw'). exists w'. by rewrite <-app_assoc in Hw'.
Qed.

(** The worklist holds [l] and the buffer [b]. *)
Definition holding (e : executor) (l b : list GNode) : Prop := wl_holds (wl e) l ∧ buffer_holds (pushBuffer e) b.

Lemma on_buffer_run {A} (m : st _ A) e a b :
  m (pushBuffer e) = Ok (a, b) → on_buffer m e = Ok (a, mkExecutor (wl e) b (term e) (user e)).
Proof. intros H. unfold on_buffer. by rewrite H. Qed.
Lemma on_wl_run {A} (p : Worklist.prog _ A) e a w :
  Worklist.exec p (wl e) = Ok (a, w) → on_wl p e = Ok (a, mkExecutor w (pushBuffer e) (term e) (user e)).
Proof. intros H. unfold on_wl. by rewrite H. Qed.

Lemma fastPushBack_run e l b :
  holding e l b → ∃ w q, fastPushBack e = Ok (tt, mkExecutor w q (term e) (user e)) ∧
    holding (mkExecutor w q (term e) (user e)) (l ++ b) [].
Proof.
  intros [Hw Hb]. destruct (push_range_run b (wl e) l Hw) as (w & Hr & Hw').
  destruct (Gdeque.clear_run (H0 := block_laws) (pushBuffer e) b Hb) as (q & Hc & Hq & _).
  exists w, q. split; [|by split]. unfold fastPushBack.
  erewrite st_bind_step; [|apply on_buffer_run].
  2:{ rewrite (st_bind_step _ _ _ _ _ (Gdeque.size_run (H0 := block_laws) _ _ Hb)).
      rewrite (st_bind_step _ _ _ _ _ (Gdeque.begin_run (H0 := block_laws) _ _ Hb)).
      rewrite (st_bind_step _ _ _ _ _ (Gdeque.end_run (H0 := block_laws) _ _ Hb)).
      apply (Gdeque.traverse_all (H0 := block_laws)), Hb. }
  erewrite st_bind_step; [|apply on_wl_run; exact Hr]. unfold on_buffer. cbn. by rewrite Hc.
Qed.

(** A push leaves the value in the buffer or, with the others, in the worklist. *)
Lemma ctx_push_run e l b v :
  holding e l b → ∃ w q l' b', ctx_push v e = Ok (tt, mkExecutor w q (term e) (user e)) ∧
    holding (mkExecutor w q (term e) (user e)) l' b' ∧ l' ++ b' = l ++ b ++ [v].
Proof.
  intros [Hw Hb]. destruct (Gdeque.emplace_back_run (H0 := block_laws) (pushBuffer e) b v Hb) as (q & Hq & Hb').
  unfold ctx_push. erewrite st_bind_step; [|apply on_buffer_run; exact Hq].
  erewrite st_bind_step; [|apply on_buffer_run, (Gdeque.size_run (H0 := block_laws)); exact Hb'].
  cbn [wl pushBuffer term user]. destruct (fastPushBackLimit <? length (b ++ [v])).
  - destruct (fastPushBack_run (mkExecutor (wl e) q (term e) (user e)) l (b ++ [v])) as (w & q' & Hr & Hh); [by split|].
    exists w, q', (l ++ b ++ [v]), []. split_and!; [done|done|]. by rewrite app_nil_r.
  - exists (wl e), q, l, (b ++ [v]). by split_and!.
Qed.

Lemma ctx_pushes_run vs e l b :
  holding e l b → ∃ w q l' b', ctx_pushes vs e = Ok (tt, mkExecutor w q (term e) (user e)) ∧
    holding (mkExecutor w q (term e) (user e)) l' b' ∧ l' ++ b' = l ++ b ++ vs.
Proof.
  revert e l b. induction vs as [|v vs IH]; intros e l b Hh; cbn [ctx_pushes].
  { exists (wl e), (pushBuffer e), l, b. split_and!; [by destruct e|by destruct e|by rewrite app_nil_r]. }
  destruct (ctx_push_run e l b v Hh) as (w & q & l1 & b1 & Hr & Hh1 & E1).
  rewrite (st_bind_step _ _ _ _ _ Hr). destruct (IH _ _ _ Hh1) as (w' & q' & l' & b' & Hr' & Hh' & E').
  exists w', q', l', b'. split_and!; [done..|]. by rewrite E', app_assoc, E1, <-!app_assoc.
Qed.

Lemma commit_run e l b :
  holding e l b → ∃ w q, commitIteration e = Ok (tt, mkExecutor w q (term e) (user e)) ∧
    holding (mkExecutor w q (term e) (user e)) (l ++ b) [].
Proof.
  intros Hh. pose proof Hh as [Hw Hb]. unfold commitIteration.
  erewrite st_bind_step; [|apply on_buffer_run, (Gdeque.size_run (H0 := block_laws)); exact Hb].
  destruct b as [|v b]; cbn [length Nat.eqb].
  - exists (wl e), (pushBuffer e). split; [done|]. by rewrite app_nil_r.
  - by apply (fastPushBack_run (mkExecutor (wl e) (pushBuffer e) (term e) (user e))).
Qed.

(** An iteration adds what the operator pushes, in order. *)
Lemma doProcess_run e l v :
  holding e l [] →
  match operator (user e) v with
  | Ok (s', new) => ∃ w q, doProcess v e = Ok (tt, mkExecutor w q (term e) s') ∧
      holding (mkExecutor w q (term e) s') (l ++ new) []
  | Err x => doProcess v e = Err x
  end.
Proof.
  intros Hh. unfold doProcess. erewrite st_bind_step by reflexivity.
  destruct (operator (user e) v) as [[s' new]|x]; [|done]. erewrite st_bind_step by reflexivity.
  erewrite st_bind_step by reflexivity. cbn [fst snd].
  destruct (ctx_pushes_run new (mkExecutor (wl e) (pushBuffer e) (term e) s') l [] Hh) as (w & q & l1 & b1 & Hr & Hh1 & E1).
  rewrite (st_bind_step _ _ _ _ _ Hr). destruct (commit_run _ _ _ Hh1) as (w' & q' & Hr' & Hh').
  exists w', q'. split; [done|]. by rewrite E1 in Hh'.
Qed.

(** The loop takes the values in the order of the worklist. *)
Lemma runQueue_run fuel e l did :
  holding e l [] →
  match for_each_fifo operator fuel l (user e) with
  | Ok s' => ∃ w q did', runQueueSimple fuel did e = Ok (did', mkExecutor w q (term e) s') ∧
      holding (mkExecutor w q (term e) s') [] [] ∧ (l = [] → did' = did)
  | Err x => runQueueSimple fuel did e = Err x
  end.
Proof.
  revert e l did. induction fuel as [|fuel IH]; intros e l did [Hw Hb];
    destruct (Worklist.fifo_pop chunk_size Distributed socket sockets chunk_size_pos sockets_pos (wl e) l Hw)
      as (w & Hp & Hw'); cbn [runQueueSimple]; rewrite (st_bind_step _ _ _ _ _ (on_wl_run _ e _ _ Hp));
    destruct l as [|v l]; cbn [head tail for_each_fifo] in *.
  - exists w, (pushBuffer e), did. split_and!; [done|by split|done].
  - done.
  - exists w, (pushBuffer e), did. split_and!; [done|by split|done].
  - pose proof (doProcess_run (mkExecutor w (pushBuffer e) (term e) (user e)) l v) as Hd. cbn [user term] in Hd.
    specialize (Hd ltac:(by split)). destruct (operator (user e) v) as [[s' new]|x].
    + destruct Hd as (w1 & q1 & Hr & Hh). rewrite (st_bind_step _ _ _ _ _ Hr).
      specialize (IH _ _ true Hh). cbn [mbind result_bind fst snd user term] in *.
      destruct (for_each_fifo operator fuel (l ++ new) s') as [s''|x]; [|done].
      destruct IH as (w2 & q2 & did' & ? & ? & _). by exists w2, q2, did'.
    + unfold mbind, st_bind. by rewrite Hd.
Qed.

(** *** The detector with one thread *)

Definition alone (d : TermDetect.detector) (black white : bool) : Prop :=
  TermDetect.holder d 0 = TermDetect.mkHolder false true black white ∧ TermDetect.globalTerm d = false.

Lemma alone_next d black white w :
  alone d black white → white && negb (black || w) = false →
  ∃ d', TermDetect.localTermination 1 0 w d = Ok (tt, d') ∧ alone d' false (negb (black || w)).
Proof.
  intros [Hh Hg] Hend. destruct (TermDetect.local_pass 1 0 w d) as (h & Hr & H0 & _); rewrite ?Hh; [done..|].
  eexists. split; [exact Hr|]. rewrite Hh in *. cbn in *. split; [|done].
  cbn. by rewrite fn_lookup_insert, H0.
Qed.
Lemma alone_end d : alone d false true → ∃ d', TermDetect.localTermination 1 0 false d = Ok (tt, d') ∧
  TermDetect.globalTerm d' = true.
Proof.
  intros [Hh Hg]. destruct (TermDetect.local_end 1 false d) as (d' & ? & ? & _); rewrite ?Hh; [done..|]. eauto.
Qed.

Lemma on_term_run {A} (m : st _ A) e a d :
  m (term e) = Ok (a, d) → on_term m e = Ok (a, mkExecutor (wl e) (pushBuffer e) d (user e)).
Proof. intros H. unfold on_term. by rewrite H. Qed.

(** A round of [go] on an empty worklist. *)
Lemma idle_round rounds fuel e b :
  holding e [] [] → alone (term e) false b →
  ∃ w q d, holding (mkExecutor w q d (user e)) [] [] ∧
    if b then go (Datatypes.S rounds) fuel e = Ok (tt, mkExecutor w q d (user e))
    else go (Datatypes.S rounds) fuel e = go rounds fuel (mkExecutor w q d (user e)) ∧ alone d false true.
Proof.
  intros Hh Ha. pose proof (runQueue_run fuel e [] false Hh) as Hq.
  replace (for_each_fifo operator fuel [] (user e)) with (Ok (user e) : result S) in Hq by (by destruct fuel).
  destruct Hq as (w & q & did' & Hr & Hh' & Hd). rewrite (Hd eq_refl) in Hr.
  cbn [go]. rewrite (st_bind_step _ _ _ _ _ Hr). destruct b.
  - destruct (alone_end _ Ha) as (d & Hl & Hg). exists w, q, d. split; [done|].
    rewrite (st_bind_step _ _ _ _ _ (on_term_run _ (mkExecutor w q (term e) (user e)) _ _ Hl)).
    unfold on_term at 1, gets, mbind, st_bind. cbn. by rewrite Hg.
  - destruct (alone_next _ _ _ false Ha eq_refl) as (d & Hl & Ha'). exists w, q, d. split; [done|]. split; [|done].
    rewrite (st_bind_step _ _ _ _ _ (on_term_run _ (mkExecutor w q (term e) (user e)) _ _ Hl)).
    unfold on_term at 1, gets, mbind, st_bind. cbn. by rewrite (proj2 Ha').
Qed.

(** C9: With one thread [galois::for_each] is the loop that takes the values in the order of
    the worklist and appends what the operator pushes: the executor, with its chunked
    worklist, its push buffer that is flushed at 64 values and its termination detection,
    gives for every operator, every range and every number of iterations allowed the same
    final state, or the same error, as that loop; in particular the three rounds that the
    detector takes are enough, and no value is visited twice or lost. *)
Theorem for_each_impl_fifo (term0 : TermDetect.detector) (fuel : nat) (range : list GNode) (s : S) :
  for_each_impl term0 fuel range s = for_each_fifo operator fuel range s.
Proof.
  unfold for_each_impl, initThread.
  set (e0 := mkExecutor (Worklist.new_wl sockets) Gdeque.new_gdeque term0 s).
  destruct (push_range_run range (wl e0) []) as (w & Hr & Hw); [by apply Worklist.fifo_start|].
  set (d0 := TermDetect.mkDetector (<[0 := TermDetect.mkHolder false true true true]> (TermDetect.holder term0)) false).
  set (e1 := mkExecutor w Gdeque.new_gdeque d0 s).
  assert (∀ A (k : unit → st executor A),
    ((on_wl (Worklist.push_range chunk_size Distributed socket 0 range);; on_term (TermDetect.initializeThread 0)) ≫= k) e0 =
    k tt e1) as Hinit.
  { intros A k. rewrite (st_bind_step _ _ _ e1 tt); [done|]. by rewrite (st_bind_step _ _ _ _ _ (on_wl_run _ e0 _ _ Hr)). }
  rewrite Hinit. assert (holding e1 range []) as Hh1. { split; [exact Hw|]. apply (Gdeque.new_gdeque_repr (H0 := block_laws)). }
  pose proof (runQueue_run fuel e1 range false Hh1) as Hq. cbn [user e1] in Hq. cbn [go].
  destruct (for_each_fifo operator fuel range s) as [s'|x]; [|unfold mbind at 2, st_bind; by rewrite Hq].
  destruct Hq as (w1 & q1 & did & Hr1 & Hh & _). rewrite (st_bind_step _ _ _ _ _ Hr1).
  destruct (alone_next d0 true true did) as (d1 & Hl & Ha1); [by split|done|]. 
  rewrite (st_bind_step _ _ _ _ _ (on_term_run _ (mkExecutor w1 q1 d0 s') _ _ Hl)).
  rewrite (st_bind_step _ _ _ (mkExecutor w1 q1 d1 s') false) by (unfold on_term, gets; cbn; by rewrite (proj2 Ha1)).
  destruct (idle_round 1 fuel (mkExecutor w1 q1 d1 s') false Hh Ha1) as (w2 & q2 & d2 & Hh2 & Hg2 & Ha2).
  change (go 2 fuel (mkExecutor w1 q1 d1 s') ≫= (λ x, Ok (user x.2)) = Ok s').
  destruct (idle_round 0 fuel (mkExecutor w2 q2 d2 s') true Hh2 Ha2) as (w3 & q3 & d3 & _ & Hg3).
  rewrite Hg2. cbn [user] in *. by rewrite Hg3.
Qed.
End Executor.

(** An operator that records its visits and pushes two nodes for every small one; chunks of
    two, one socket. *)
Definition visiting (seen : list GNode) (v : GNode) : result (list GNode * list GNode) :=
  Ok ((seen ++ [v])%list, if v <? 3 then [v + 10; v + 20] else []).

Lemma for_each_impl_fifo_witness :
  for_each_impl visiting 2 true (λ _, 0) 1 (TermDetect.mkDetector (λ _, TermDetect.mkHolder true true false false) true)
    20 [1; 5; 2; 7] [] = Ok [1; 5; 2; 7; 11; 21; 12; 22].
Proof.
  rewrite (for_each_impl_fifo visiting 2 true (λ _, 0) 1 ltac:(lia) ltac:(intros; cbn; lia) ltac:(lia)).
  reflexivity.
Defined.
