(* ===== verification/InsertBag.v ===== *)
(** * [libgalois/include/galois/Bag.h]: [InsertBag]

    The bag that holds the nodes of a graph.  Every thread has a list of blocks of its own
    and constructs elements at the end of its last block, so that an element never moves
    and a reference to it, the handle of a node, stays valid.  Iterators visit the blocks
    of the threads one after the other.

    A block is a cell of a memory; [dbegin], [dend] and [dlast] are positions in its
    storage, which holds [cap] elements.  A reference is a block and a position. *)
From stdpp Require Import gmap list.
From S2P Require Import Prelude FixedSizeRing.

Section InsertBag.
Context {T : Type} (cap : nat).

(** [dbegin] is the position 0 and [dlast] the position [cap]. *)
Record header := mkHeader { hnext : option nat; storage : LazyArray T; dend : nat }.

(** [heads] has the first and the last block of every thread. *)
Record InsertBag := mkBag {
  hmem : gmap nat header;
  hbrk : nat;
  heads : list (option nat * option nat);
}.

Definition new_InsertBag (threads : nat) : InsertBag := mkBag ∅ 0 (replicate threads (None, None)).

Definition header_at (a : nat) : st InsertBag header := reads (λ b, get_opt (hmem b !! a)).
Definition put_header (a : nat) (h : header) : st InsertBag unit :=
  modify (λ b, mkBag (<[a := h]> (hmem b)) (hbrk b) (heads b)).
Definition get_heads (t : nat) : st InsertBag (option nat * option nat) := reads (λ b, get_opt (heads b !! t)).
Definition put_heads (t : nat) (p : option nat * option nat) : st InsertBag unit :=
  modify (λ b, mkBag (hmem b) (hbrk b) (<[t := p]> (heads b))).

Definition newHeader : st InsertBag nat := λ b,
  Ok (hbrk b, mkBag (<[hbrk b := mkHeader None (replicate cap None) 0]> (hmem b)) (S (hbrk b)) (heads b)).

Definition insHeader (t h : nat) : st InsertBag unit :=
  p ← get_heads t;
  match p.2 with
  | Some s => x ← header_at s; put_header s (mkHeader (Some h) (storage x) (dend x));; put_heads t (p.1, Some h)
  | None => put_heads t (Some h, Some h)
  end.

Definition bag_emplace (t : nat) (v : T) : st InsertBag (nat * nat) :=
  p ← get_heads t;
  room ← match p.2 with None => mret false | Some a => h ← header_at a; mret (negb (dend h =? cap)) end;
  a ← match p.2 with
      | Some a => if (room : bool) then mret a else h ← newHeader; insHeader t h;; mret h
      | None => h ← newHeader; insHeader t h;; mret h
      end;
  h ← header_at a;
  s ← lift (la_emplace (dend h) v (storage h));
  put_header a (mkHeader (hnext h) s (S (dend h)));;
  mret (a, dend h).

(** [false] is the exception. *)
Definition bag_pop (t : nat) : st InsertBag bool :=
  p ← get_heads t;
  match p.2 with
  | None => lift (Err UB)
  | Some a =>
      h ← header_at a;
      if dend h =? 0 then mret false
      else
        s ← lift (la_destroy (dend h - 1) (storage h));
        put_header a (mkHeader (hnext h) s (dend h - 1));;
        mret true
  end.

(** Reading through a reference. *)
Definition deref (r : nat * nat) : st InsertBag T := h ← header_at r.1; lift (la_get r.2 (storage h)).

Definition bag_is_empty (b : InsertBag) : bool := forallb (λ p, bool_decide (p.1 = None)) (heads b).

(** The loop of [destruct_serial] over the blocks of a thread, and over the threads. *)
Fixpoint destruct_blocks (fuel : nat) (h : option nat) : st InsertBag unit :=
  match h with
  | None => mret tt
  | Some a =>
      match fuel with
      | O => lift (Err Diverge)
      | S fuel' =>
          x ← header_at a;
          _ ← lift (destroy_all (seq 0 (dend x)) (storage x));
          modify (λ b, mkBag (delete a (hmem b)) (hbrk b) (heads b));;
          destruct_blocks fuel' (hnext x)
      end
  end.
Fixpoint destruct_threads (n x : nat) : st InsertBag unit :=
  match n with
  | O => mret tt
  | S n' =>
      p ← get_heads x;
      b ← getS;
      destruct_blocks (size (hmem b)) p.1;;
      put_heads x (None, None);;
      destruct_threads n' (S x)
  end.
Definition clear_serial : st InsertBag unit := b ← getS; destruct_threads (length (heads b)) 0.

(** ** Iterators *)

Record BagIterator := mkBagIter { thr : nat; hp : option nat; vpos : nat }.

Definition init_thread (t : nat) (b : InsertBag) : BagIterator :=
  mkBagIter t (match heads b !! t with Some p => p.1 | None => None end) 0.
(** [advance_thread], with [n] threads left *)
Fixpoint advance_thread (n t : nat) (b : InsertBag) : BagIterator :=
  match n with
  | O => mkBagIter t None 0
  | S n' =>
      let i := init_thread (S t) b in
      match hp i with Some _ => i | None => advance_thread n' (S t) b end
  end.
Definition new_iterator (t : nat) (b : InsertBag) : BagIterator :=
  let i := init_thread t b in
  match hp i with Some _ => i | None => advance_thread (length (heads b) - t) t b end.

Definition bag_begin (b : InsertBag) : BagIterator := new_iterator 0 b.
Definition bag_end (b : InsertBag) : BagIterator := new_iterator (length (heads b)) b.
Definition local_begin (t : nat) (b : InsertBag) : BagIterator := new_iterator t b.
Definition local_end (t : nat) (b : InsertBag) : BagIterator := new_iterator (t + 1) b.

Definition bag_increment (i : BagIterator) : st InsertBag BagIterator :=
  b ← getS;
  match hp i with
  | None => mret (advance_thread (length (heads b) - thr i) (thr i) b)
  | Some a =>
      h ← header_at a;
      if S (vpos i) =? dend h then
        match hnext h with
        | Some a' => mret (mkBagIter (thr i) (Some a') 0)
        | None => mret (advance_thread (length (heads b) - thr i) (thr i) b)
        end
      else mret (mkBagIter (thr i) (hp i) (S (vpos i)))
  end.
Definition bag_dereference (i : BagIterator) : st InsertBag T :=
  match hp i with Some a => deref (a, vpos i) | None => lift (Err UB) end.

#[export] Instance BagIterator_eq_dec : EqDecision BagIterator.
Proof. solve_decision. Defined.

(** [for (; i != e; ++i)], collecting the elements *)
Fixpoint bag_traverse (fuel : nat) (i e : BagIterator) : st InsertBag (list T) :=
  if decide (i = e) then mret []
  else
    match fuel with
    | O => lift (Err Diverge)
    | S fuel' =>
        v ← bag_dereference i;
        i' ← bag_increment i;
        l ← bag_traverse fuel' i' e;
        mret (v :: l)
    end.
End InsertBag.
Arguments InsertBag : clear implicits.
Arguments header : clear implicits.

(** ** What the bag holds *)

Section Facts.
Context {T : Type} (cap : nat).
Hypothesis cap_pos : 0 < cap.

Abbreviation blocks := (list (nat * list T)).

(** The storage of a block that holds [l]. *)
Definition slots (l : list T) : LazyArray T := (Some <$> l) ++ replicate (cap - length l) None.

Lemma slots_length l : length l <= cap → length (slots l) = cap.
Proof. intros Hl. unfold slots. rewrite length_app, length_fmap, length_replicate. lia. Qed.
Lemma slots_lookup l i v : l !! i = Some v → slots l !! i = Some (Some v).
Proof. intros H. unfold slots. apply lookup_app_l_Some. by rewrite list_lookup_fmap, H. Qed.
Lemma slots_snoc l v : length l < cap → <[length l := Some v]> (slots l) = slots (l ++ [v]).
Proof.
  intros Hl. unfold slots. rewrite fmap_app, length_app, <-app_assoc, insert_app_r_alt, length_fmap, Nat.sub_diag
    by (rewrite length_fmap; lia).
  f_equal. cbn. by replace (cap - length l) with (S (cap - (length l + 1))) by lia.
Qed.
Lemma slots_end l : length l < cap → slots l !! length l = Some None.
Proof.
  intros Hl. unfold slots. rewrite lookup_app_r, length_fmap, Nat.sub_diag by (rewrite length_fmap; lia).
  by replace (cap - length l) with (S (cap - (length l + 1))) by lia.
Qed.

(** The blocks of a thread, linked from its first to its last; none of them is empty. *)
Definition first_block (c : blocks) (nx : option nat) : option nat :=
  match c with [] => nx | (a, _) :: _ => Some a end.
Fixpoint linked (m : gmap nat (header T)) (c : blocks) (nx : option nat) : Prop :=
  match c with
  | [] => True
  | (a, l) :: c' =>
      m !! a = Some (mkHeader (first_block c' nx) (slots l) (length l)) ∧ 0 < length l <= cap ∧ linked m c' nx
  end.
Definition thread_ok (m : gmap nat (header T)) (p : option nat * option nat) (c : blocks) : Prop :=
  linked m c None ∧ p = (first_block c None, list.last c.*1).

Lemma linked_app m c1 c2 nx : linked m (c1 ++ c2) nx ↔ linked m c1 (first_block c2 nx) ∧ linked m c2 nx.
Proof.
  induction c1 as [|[a l] c1 IH]; cbn [linked app]; [tauto|]. rewrite IH.
  replace (first_block (c1 ++ c2) nx) with (first_block c1 (first_block c2 nx)) by (by destruct c1 as [|[]]). tauto.
Qed.

Record bag_ok (b : InsertBag T) (cs : list blocks) : Prop := {
  bo_threads : Forall2 (thread_ok (hmem b)) (heads b) cs;
  bo_nodup : NoDup (concat cs).*1;
  bo_brk a h : hmem b !! a = Some h → a < hbrk b;
  bo_owned a h : hmem b !! a = Some h → a ∈ (concat cs).*1;
}.

Definition items (c : blocks) : list T := concat c.*2.

Lemma linked_frame m m' c nx : (∀ a, a ∈ c.*1 → m' !! a = m !! a) → linked m c nx → linked m' c nx.
Proof.
  induction c as [|[a l] c IH]; intros Hm; [done|]. intros (Ha & Hl & Hc). split; [|split; [done|]].
  - rewrite Hm; [done|]. by left.
  - apply IH; [|done]. intros x Hx. apply Hm. by right.
Qed.
Lemma threads_frame m m' p cs :
  (∀ a, a ∈ (concat cs).*1 → m' !! a = m !! a) → Forall2 (thread_ok m) p cs → Forall2 (thread_ok m') p cs.
Proof.
  intros Hm Hp. induction Hp as [|x c p cs [Hc ->] _ IH]; [done|]. cbn in Hm. constructor.
  - split; [|done]. eapply linked_frame; [|exact Hc]. intros a Ha. apply Hm. rewrite fmap_app.
    apply elem_of_app. by left.
  - apply IH. intros a Ha. apply Hm. rewrite fmap_app. apply elem_of_app. by right.
Qed.

Lemma linked_in m c nx a : linked m c nx → a ∈ c.*1 → is_Some (m !! a).
Proof.
  induction c as [|[x l] c IH]; [by intros _ ?%elem_of_nil|]. intros (Hx & _ & Hc) [->|Ha]%elem_of_cons; [by eexists|by apply IH].
Qed.
Lemma bag_in b cs a : bag_ok b cs → a ∈ (concat cs).*1 → a < hbrk b.
Proof.
  intros Hb Ha. assert (is_Some (hmem b !! a)) as [h Hh]; [|by eapply bo_brk].
  pose proof (bo_threads _ _ Hb) as Ht. clear Hb. induction Ht as [|p c ps cs [Hc _] _ IH]; [by apply elem_of_nil in Ha|].
  cbn in Ha. rewrite fmap_app in Ha. apply elem_of_app in Ha as [Ha|Ha]; [by eapply linked_in|by apply IH].
Qed.

Lemma new_bag_ok n : bag_ok (new_InsertBag n) (replicate n []).
Proof.
  split; cbn; [by apply Forall2_replicate| |by intros a h ?%lookup_empty_Some..].
  assert (concat (replicate n ([] : blocks)) = []) as -> by (clear; by induction n). constructor.
Qed.

(** The blocks of the thread [length q1]. *)
Lemma thread_blocks b q1 c q2 :
  bag_ok b (q1 ++ c :: q2) →
  heads b !! length q1 = Some (first_block c None, list.last c.*1) ∧ linked (hmem b) c None ∧ NoDup c.*1.
Proof.
  intros Hb. pose proof (bo_threads _ _ Hb) as Ht. split_and!.
  - eapply Forall2_lookup_r in Ht as (p & Hp & [_ ->]); [done|]. by apply list_lookup_middle.
  - eapply (Forall2_lookup_r _ _ _ (length q1)) in Ht as (p & Hp & [Hl _]); [done|]. by apply list_lookup_middle.
  - pose proof (bo_nodup _ _ Hb) as Hn. rewrite concat_app in Hn. cbn in Hn. rewrite !fmap_app in Hn.
    apply list.NoDup_app in Hn as (_ & _ & Hn). by apply list.NoDup_app in Hn as (? & _ & _).
Qed.

(** A change of the blocks of one thread. *)
Lemma bag_change b b' q1 c c' q2 p' :
  bag_ok b (q1 ++ c :: q2) →
  (∀ a, a ∉ c.*1 → a ≠ hbrk b → hmem b' !! a = hmem b !! a) →
  heads b' = <[length q1 := p']> (heads b) → thread_ok (hmem b') p' c' →
  c'.*1 = c.*1 ∨ c'.*1 = c.*1 ++ [hbrk b] →
  (∀ a h, hmem b' !! a = Some h → a < hbrk b' ∧ (a ∈ c'.*1 ∨ is_Some (hmem b !! a))) →
  bag_ok b' (q1 ++ c' :: q2).
Proof.
  intros Hb Hm Hh Hc Hk Hbr'. pose proof Hb as [Ht Hn Hbr Ho].
  assert (∀ c : blocks, (concat (q1 ++ c :: q2)).*1 ≡ₚ c.*1 ++ (concat q1 ++ concat q2).*1) as E.
  { intros x. rewrite concat_app. cbn. rewrite !fmap_app. solve_Permutation. }
  assert (hbrk b ∉ (concat (q1 ++ c :: q2)).*1) as Hfresh. { intros Hin. pose proof (bag_in _ _ _ Hb Hin). lia. }
  rewrite E in Hn, Hfresh. rewrite elem_of_app in Hfresh. pose proof Hn as (N1 & Hd & N2)%list.NoDup_app.
  assert (∀ x : blocks, x ⊆+ concat q1 ++ concat q2 → ∀ a, a ∈ x.*1 → hmem b' !! a = hmem b !! a) as Hfr.
  { intros x Hx a Ha. assert (a ∈ (concat q1 ++ concat q2).*1) as Ha'.
    { eapply elem_of_submseteq; [exact Ha|]. by apply fmap_submseteq. }
    apply Hm; [intros Hac; by apply (Hd a)|]. intros ->. apply Hfresh. by right. }
  apply Forall2_app_inv_r in Ht as (p1 & p2 & H1 & H2 & EQ).
  apply Forall2_cons_inv_r in H2 as (q & p2' & _ & H2 & ->).
  assert (length p1 = length q1) as El by (by eapply Forall2_length).
  split.
  - rewrite Hh, EQ, <-El, insert_app_r_alt, Nat.sub_diag by lia. cbn.
    apply Forall2_app; [|constructor]; [|done|]; (eapply threads_frame; [|done]); apply Hfr; solve_submseteq.
  - rewrite E. destruct Hk as [->| ->]; [done|]. rewrite <-app_assoc. apply list.NoDup_app. split_and!; [done| |].
    + intros a Ha. cbn. rewrite elem_of_cons. intros [->|Ha']; [apply Hfresh; by left|by apply (Hd a)].
    + apply list.NoDup_cons. split; [|done]. intros Ha. apply Hfresh. by right.
  - intros a h Ha. by apply Hbr' in Ha as [? _].
  - intros a h Ha. rewrite E. apply Hbr' in Ha as [_ [Ha|[x Ha]]]; [apply elem_of_app; by left|].
    apply Ho in Ha. rewrite E in Ha. apply elem_of_app in Ha as [Ha|Ha]; apply elem_of_app; [left|by right].
    destruct Hk as [->| ->]; [done|]. apply elem_of_app. by left.
Qed.

(** ** [emplace] *)

Lemma header_at_run (b : InsertBag T) a h : hmem b !! a = Some h → header_at a b = Ok (h, b).
Proof. intros E. unfold header_at, reads. by rewrite E. Qed.
Lemma get_heads_run (b : InsertBag T) t p : heads b !! t = Some p → get_heads t b = Ok (p, b).
Proof. intros E. unfold get_heads, reads. by rewrite E. Qed.

(** A reference is good when its element is constructed. *)
Definition refers (b : InsertBag T) (r : nat * nat) (v : T) : Prop :=
  ∃ h, hmem b !! r.1 = Some h ∧ storage h !! r.2 = Some (Some v).
Lemma refers_deref b r v : refers b r v → deref r b = Ok (v, b).
Proof.
  intros (h & Hh & Hv). unfold deref. rewrite (st_bind_step _ _ _ _ _ (header_at_run b r.1 h Hh)).
  unfold lift. by rewrite (la_get_Ok _ _ _ Hv).
Qed.

(** The last step of [emplace]: the element is constructed at the end of the block [a]. *)
Definition construct (a : nat) (v : T) : st (InsertBag T) (nat * nat) :=
  h ← header_at a;
  s ← lift (la_emplace (dend h) v (storage h));
  put_header a (mkHeader (hnext h) s (S (dend h)));;
  mret (a, dend h).
Lemma construct_run (b : InsertBag T) a l nx v :
  hmem b !! a = Some (mkHeader nx (slots l) (length l)) → length l < cap →
  let b' := mkBag (<[a := mkHeader nx (slots (l ++ [v])) (length (l ++ [v]))]> (hmem b)) (hbrk b) (heads b) in
  construct a v b = Ok ((a, length l), b') ∧
  refers b' (a, length l) v ∧ ∀ r w, refers b r w → refers b' r w ∧ r ≠ (a, length l).
Proof.
  intros Ha Hl b'. split_and!.
  - unfold construct. rewrite (st_bind_step _ _ _ _ _ (header_at_run b a _ Ha)). cbn [dend storage hnext].
    unfold la_emplace. rewrite decide_True by (rewrite slots_length; lia). rewrite slots_snoc by done.
    unfold b'. rewrite length_app, Nat.add_comm. done.
  - eexists. cbn. rewrite lookup_insert_eq. split; [done|]. cbn. apply slots_lookup.
    by rewrite lookup_app_r, Nat.sub_diag by lia.
  - intros r w (h & Hh & Hw). destruct (decide (r.1 = a)) as [Hra|Hra].
    + rewrite Hra, Ha in Hh. injection Hh as <-. cbn in Hw. assert (r.2 ≠ length l) as Hr2.
      { intros E. rewrite E, slots_end in Hw by done. done. }
      split; [|intros ->; done]. eexists. cbn. rewrite Hra, lookup_insert_eq. split; [done|]. cbn.
      rewrite <-slots_snoc by done. by rewrite list_lookup_insert_ne.
    + split; [|intros ->; done]. exists h. cbn. by rewrite lookup_insert_ne.
Qed.

(** A new block at the end of those of a thread. *)
Lemma new_block_run b q1 c q2 :
  bag_ok b (q1 ++ c :: q2) →
  ∃ b', (h ← newHeader cap; insHeader (length q1) h;; mret h) b = Ok (hbrk b, b') ∧
    hmem b' !! hbrk b = Some (mkHeader None (slots []) 0) ∧ linked (hmem b') c (Some (hbrk b)) ∧
    heads b' = <[length q1 := (first_block c (Some (hbrk b)), Some (hbrk b))]> (heads b) ∧
    hbrk b' = S (hbrk b) ∧ (∀ a, a ∉ c.*1 → a ≠ hbrk b → hmem b' !! a = hmem b !! a) ∧
    (∀ a h, hmem b' !! a = Some h → a < S (hbrk b) ∧ (a = hbrk b ∨ is_Some (hmem b !! a))) ∧
    ∀ r w, refers b r w → refers b' r w ∧ r.1 ≠ hbrk b.
Proof.
  intros Hb. destruct (thread_blocks b q1 c q2 Hb) as (Hh & Hl & Hn).
  assert (∀ a, is_Some (hmem b !! a) → a ≠ hbrk b) as Hne. { intros a [h Ha] ->. apply (bo_brk _ _ Hb) in Ha. lia. }
  set (k := hbrk b) in *. set (new := mkHeader None (replicate cap None) 0 : header T).
  set (b1 := mkBag (<[k := new]> (hmem b)) (S k) (heads b)).
  rewrite (st_bind_step _ _ _ b1 k) by done.
  assert (∀ r w, refers b r w → r.1 ≠ k) as Hrk. { intros r w (h & Hr & _). apply Hne. by eexists. }
  assert (new = mkHeader None (slots []) 0) as Enew by (unfold new, slots; cbn; by rewrite Nat.sub_0_r).
  destruct c as [|[a l] c _] using rev_ind.
  - set (b2 := mkBag (hmem b1) (S k) (<[length q1 := (Some k, Some k)]> (heads b))).
    exists b2. rewrite (st_bind_step _ _ _ b2 tt).
    2:{ unfold insHeader. by rewrite (st_bind_step _ _ _ _ _ (get_heads_run b1 _ _ Hh)). }
    split_and!; cbn; try done.
    + by rewrite lookup_insert_eq, Enew.
    + intros x _ Hx. by apply lookup_insert_ne.
    + intros x h [[-> _]|[_ Hx]]%lookup_insert_Some; [auto|]. pose proof (bo_brk _ _ Hb _ _ Hx). eauto with lia.
    + intros r w Hr. pose proof (Hrk r w Hr). split; [|done]. destruct Hr as (h & ? & ?). exists h. cbn.
      by rewrite lookup_insert_ne.
  - assert (list.last (c ++ [(a, l)]).*1 = Some a) as Ela by (rewrite fmap_app; apply last_snoc).
    apply linked_app in Hl as [Hl (Ha & Hlen & _)]. cbn [first_block] in Ha.
    assert (a ≠ k) as Hak by (apply Hne; by eexists).
    assert (hmem b1 !! a = Some (mkHeader None (slots l) (length l))) as Ha1 by (cbn; by rewrite lookup_insert_ne).
    set (m2 := <[a := mkHeader (Some k) (slots l) (length l)]> (<[k := new]> (hmem b))).
    set (b2 := mkBag m2 (S k) (<[length q1 := (first_block (c ++ [(a, l)]) None, Some k)]> (heads b))).
    exists b2. rewrite (st_bind_step _ _ _ b2 tt).
    2:{ unfold insHeader. rewrite (st_bind_step _ _ _ _ _ (get_heads_run b1 _ _ Hh)). cbn [snd fst]. rewrite Ela.
        by rewrite (st_bind_step _ _ _ _ _ (header_at_run b1 a _ Ha1)). }
    rewrite fmap_app in Hn. apply list.NoDup_app in Hn as (_ & Hd & _).
    split_and!; cbn; try done.
    + unfold m2. by rewrite lookup_insert_ne, lookup_insert_eq, Enew.
    + apply linked_app. split; [|by split; [unfold m2; by rewrite lookup_insert_eq|]].
      eapply linked_frame; [|exact Hl]. intros x Hx. unfold m2. rewrite lookup_insert_ne.
      * apply lookup_insert_ne. intros <-. apply (linked_in _ _ _ _ Hl) in Hx. by apply Hne in Hx.
      * intros <-. apply (Hd a Hx). by left.
    + by destruct c as [|[]].
    + intros x Hx Hxk. unfold m2. rewrite !lookup_insert_ne; [done|done|]. intros <-. apply Hx.
      rewrite fmap_app. apply elem_of_app. right. by left.
    + intros x h. unfold m2. intros [[<- _]|[_ [[-> _]|[_ Hx]]%lookup_insert_Some]]%lookup_insert_Some; [|auto|].
      * pose proof (bo_brk _ _ Hb _ _ Ha). eauto with lia.
      * pose proof (bo_brk _ _ Hb _ _ Hx). eauto with lia.
    + intros r w Hr. pose proof (Hrk r w Hr). split; [|done]. destruct Hr as (h & Hr & Hw). unfold refers. cbn. unfold m2.
      destruct (decide (a = r.1)) as [->|Hra]; [|exists h; by rewrite !lookup_insert_ne].
      rewrite Ha in Hr. injection Hr as <-. eexists. by rewrite lookup_insert_eq.
Qed.

Lemma items_snoc c a l : items (c ++ [(a, l)]) = items c ++ l.
Proof. unfold items. rewrite fmap_app, concat_app. cbn. by rewrite app_nil_r. Qed.

Lemma emplace_new b q1 c q2 v :
  bag_ok b (q1 ++ c :: q2) →
  ∃ r b' c', (a ← (h ← newHeader cap; insHeader (length q1) h;; mret h); construct a v) b = Ok (r, b') ∧
    bag_ok b' (q1 ++ c' :: q2) ∧ items c' = items c ++ [v] ∧ refers b' r v ∧
    ∀ r' w, refers b r' w → refers b' r' w ∧ r' ≠ r.
Proof.
  intros Hb. destruct (new_block_run b q1 c q2 Hb) as (b1 & Hr & Hk & Hl & Hh & Hbk & Hm & Hbr & Href).
  rewrite (st_bind_step _ _ _ _ _ Hr). destruct (construct_run b1 _ [] None v Hk cap_pos) as (Hc & Hv & Hf).
  eexists _, _, (c ++ [(hbrk b, [v])]). split_and!; [exact Hc| |apply items_snoc|exact Hv|].
  - assert (hbrk b ∉ c.*1) as Hfr.
    { intros Hin. pose proof (thread_blocks b q1 c q2 Hb) as (_ & Hlc & _).
      apply (linked_in _ _ _ _ Hlc) in Hin as [h Hin]. apply (bo_brk _ _ Hb) in Hin. lia. }
    eapply (bag_change b _ q1 c _ q2); [done| |exact Hh| | |]; cbn [hmem hbrk].
    + intros x Hx Hxk. rewrite lookup_insert_ne by done. by apply Hm.
    + split; [|f_equal; [by destruct c as [|[]]|symmetry; rewrite fmap_app; apply last_snoc]].
      apply linked_app. split; [|by split; [rewrite lookup_insert_eq|cbn; split; [lia|]]].
      eapply linked_frame; [|exact Hl]. intros x Hx. apply lookup_insert_ne. intros E. apply Hfr. by rewrite E.
    + right. by rewrite fmap_app.
    + intros x h Hx. rewrite Hbk, fmap_app, elem_of_app. cbn [fmap list_fmap]. rewrite list_elem_of_singleton.
      apply lookup_insert_Some in Hx as [[<- _]|[_ Hx]]; [auto with lia|]. apply Hbr in Hx as [? []]; auto.
  - intros r w Hrw. destruct (Href r w Hrw) as [Hr1 _]. by apply Hf.
Qed.

Lemma emplace_run b q1 c q2 v :
  bag_ok b (q1 ++ c :: q2) →
  ∃ r b' c', bag_emplace cap (length q1) v b = Ok (r, b') ∧ bag_ok b' (q1 ++ c' :: q2) ∧
    items c' = items c ++ [v] ∧ refers b' r v ∧ ∀ r' w, refers b r' w → refers b' r' w ∧ r' ≠ r.
Proof.
  intros Hb. destruct (thread_blocks b q1 c q2 Hb) as (Hh & Hl & Hn). unfold bag_emplace.
  rewrite (st_bind_step _ _ _ _ _ (get_heads_run b _ _ Hh)). cbn [snd].
  destruct c as [|[a l] c _] using rev_ind.
  { rewrite (st_bind_step _ _ b b false) by done. by apply emplace_new. }
  apply linked_app in Hl as [Hl (Ha & Hlen & _)]. cbn [first_block] in Ha.
  rewrite fmap_app in Hn |- *. cbn [fmap list_fmap] in Hn |- *. rewrite last_snoc.
  rewrite (st_bind_step _ _ b b (negb (length l =? cap)))
    by (by rewrite (st_bind_step _ _ _ _ _ (header_at_run b a _ Ha))).
  destruct (Nat.eqb_spec (length l) cap) as [Hfull|Hroom]; cbn [negb]; [by apply emplace_new|].
  rewrite (st_bind_step (mret a) _ b b a) by done.
  destruct (construct_run b a l None v Ha ltac:(lia)) as (Hc & Hv & Hf).
  eexists _, _, (c ++ [(a, l ++ [v])]). split_and!; [exact Hc| |by rewrite !items_snoc, app_assoc|exact Hv|exact Hf].
  apply list.NoDup_app in Hn as (_ & Hd & _).
  eapply (bag_change b _ q1 (c ++ [(a, l)]) _ q2); [done| | |split| |]; cbn [hmem hbrk heads].
  - intros x Hx _. apply lookup_insert_ne. intros <-. apply Hx. rewrite fmap_app. apply elem_of_app. right. by left.
  - symmetry. by apply list_insert_id.
  - apply linked_app. split; [|by split; [rewrite lookup_insert_eq|rewrite length_app; cbn; split; [lia|]]].
    eapply linked_frame; [|exact Hl]. intros x Hx. apply lookup_insert_ne. intros <-. apply (Hd a Hx). by left.
  - rewrite !fmap_app. by destruct c as [|[]].
  - left. by rewrite !fmap_app.
  - intros x h [[<- _]|[_ Hx]]%lookup_insert_Some; [pose proof (bo_brk _ _ Hb _ _ Ha)|pose proof (bo_brk _ _ Hb _ _ Hx)];
      eauto.
Qed.

(** ** Iteration *)

Lemma advance_thread_next t (b : InsertBag T) :
  t < length (heads b) → advance_thread (length (heads b) - t) t b = new_iterator (S t) b.
Proof.
  intros Ht. unfold new_iterator. replace (length (heads b) - t) with (S (length (heads b) - S t)) by lia. done.
Qed.
Lemma new_iterator_none t (b : InsertBag T) y : heads b !! t = Some (None, y) → new_iterator t b = new_iterator (S t) b.
Proof.
  intros E. rewrite <-(advance_thread_next t b) by (by eapply lookup_lt_Some). unfold new_iterator, init_thread.
  by rewrite E.
Qed.
Lemma new_iterator_some t (b : InsertBag T) a y :
  heads b !! t = Some (Some a, y) → new_iterator t b = mkBagIter t (Some a) 0.
Proof. intros E. unfold new_iterator, init_thread. by rewrite E. Qed.
Lemma new_iterator_thr t (b : InsertBag T) : t <= thr (new_iterator t b).
Proof.
  assert (∀ n t, t <= thr (advance_thread n t b)) as Ha.
  { induction n as [|n IH]; intros t'; cbn; [done|]. destruct (heads b !! S t') as [[[] ?]|]; cbn; [lia| |];
      specialize (IH (S t')); lia. }
  unfold new_iterator. cbn. destruct (heads b !! t) as [[[] ?]|]; cbn; auto.
Qed.

(** The iterator after the last element of a block whose [next] is [nx]. *)
Definition next_block (t : nat) (nx : option nat) (b : InsertBag T) : BagIterator :=
  match nx with Some a => mkBagIter t (Some a) 0 | None => new_iterator (S t) b end.

Lemma traverse_block t a nx l (b : InsertBag T) e fuel l' :
  hmem b !! a = Some (mkHeader nx (slots l) (length l)) → t < length (heads b) → t < thr e →
  bag_traverse fuel (next_block t nx b) e b = Ok (l', b) →
  ∀ n k, k + S n = length l →
  bag_traverse (S n + fuel) (mkBagIter t (Some a) k) e b = Ok (drop k l ++ l', b).
Proof.
  intros Ha Ht He Hnx. induction n as [|n IH]; intros k Hk; cbn [bag_traverse Nat.add];
    rewrite decide_False by (intros <-; cbn in He; lia).
  all: destruct (lookup_lt_is_Some_2 l k ltac:(lia)) as [v Hv].
  all: assert (deref (a, k) b = Ok (v, b)) as Hd by
    (apply refers_deref; eexists; split; [exact Ha|by apply slots_lookup]).
  all: unfold bag_dereference; cbn [hp vpos]; rewrite (st_bind_step _ _ _ _ _ Hd).
  all: rewrite (drop_S l v k Hv).
  - rewrite (st_bind_step _ _ b b (next_block t nx b)).
    + by rewrite (st_bind_step _ _ _ _ _ Hnx), drop_ge by lia.
    + unfold bag_increment. rewrite (st_bind_step getS _ b b b) by done. cbn [hp vpos thr].
      rewrite (st_bind_step _ _ _ _ _ (header_at_run b a _ Ha)). cbn [dend hnext].
      replace (S k =? length l) with true by (symmetry; apply Nat.eqb_eq; lia).
      destruct nx; [done|]. by rewrite advance_thread_next.
  - rewrite (st_bind_step _ _ b b (mkBagIter t (Some a) (S k))).
    + by rewrite (st_bind_step _ _ _ _ _ (IH (S k) ltac:(lia))).
    + unfold bag_increment. rewrite (st_bind_step getS _ b b b) by done. cbn [hp vpos thr].
      rewrite (st_bind_step _ _ _ _ _ (header_at_run b a _ Ha)). cbn [dend hnext].
      by replace (S k =? length l) with false by (symmetry; apply Nat.eqb_neq; lia).
Qed.

Lemma traverse_thread t c (b : InsertBag T) e fuel l' :
  linked (hmem b) c None → t < length (heads b) → t < thr e →
  bag_traverse fuel (new_iterator (S t) b) e b = Ok (l', b) →
  bag_traverse (length (items c) + fuel) (next_block t (first_block c None) b) e b = Ok (items c ++ l', b).
Proof.
  intros Hc Ht He Hl'. induction c as [|[a l] c IH]; [done|]. destruct Hc as (Ha & Hl & Hc).
  destruct l as [|v l]; [cbn in Hl; lia|].
  change (items ((a, v :: l) :: c)) with ((v :: l) ++ items c).
  rewrite length_app, <-app_assoc, <-Nat.add_assoc. cbn [length].
  by apply (traverse_block t a _ (v :: l) b e _ _ Ha Ht He (IH Hc) (length l) 0).
Qed.

Lemma traverse_threads (b : InsertBag T) q1 q2 q3 fuel :
  bag_ok b (q1 ++ q2 ++ q3) →
  bag_traverse (length (concat (items <$> q2)) + fuel)
    (new_iterator (length q1) b) (new_iterator (length q1 + length q2) b) b = Ok (concat (items <$> q2), b).
Proof.
  intros Hb. revert q1 Hb. induction q2 as [|c q2 IH]; intros q1 Hb.
  { cbn [fmap list_fmap concat length Nat.add]. rewrite Nat.add_0_r. destruct fuel; cbn [bag_traverse]; by rewrite decide_True. }
  specialize (IH (q1 ++ [c])). rewrite <-app_assoc in IH. specialize (IH Hb). revert IH.
  rewrite length_app, <-Nat.add_assoc. cbn [length Nat.add]. intros IH.
  destruct (thread_blocks b q1 c (q2 ++ q3) Hb) as (Hh & Hl & _). cbn [fmap list_fmap concat].
  replace (new_iterator (length q1) b) with (next_block (length q1) (first_block c None) b).
  2:{ destruct c as [|[a l] c]; cbn; symmetry; [by eapply new_iterator_none|by eapply new_iterator_some]. }
  rewrite length_app, <-Nat.add_assoc. apply traverse_thread; [done|by eapply lookup_lt_Some| |].
  - pose proof (new_iterator_thr (length q1 + S (length q2)) b). lia.
  - by rewrite Nat.add_1_r in IH.
Qed.

(** ** [clear] *)

Lemma destroy_all_Ok n k (a : LazyArray T) :
  (∀ i, k <= i < k + n → ∃ v, a !! i = Some (Some v)) → ∃ a', destroy_all (seq k n) a = Ok a'.
Proof.
  revert k a. induction n as [|n IH]; intros k a Ha; [by eexists|]. destruct (Ha k ltac:(lia)) as [v Hv].
  cbn [seq destroy_all]. rewrite (la_destroy_Ok _ _ _ Hv). apply IH. intros i Hi.
  destruct (Ha i ltac:(lia)) as [w Hw]. exists w. by rewrite list_lookup_insert_ne by lia.
Qed.

Lemma destruct_blocks_run fuel c (b : InsertBag T) :
  linked (hmem b) c None → NoDup c.*1 → length c <= fuel →
  ∃ m, destruct_blocks fuel (first_block c None) b = Ok (tt, mkBag m (hbrk b) (heads b)) ∧
    (∀ a, a ∉ c.*1 → m !! a = hmem b !! a) ∧ ∀ a, a ∈ c.*1 → m !! a = None.
Proof.
  revert b c. induction fuel as [|fuel IH]; intros b [|[a l] c] Hl Hn Hf; try (cbn in Hf; lia).
  1-2: exists (hmem b); split_and!; [by destruct b|done|by intros ? ?%elem_of_nil].
  destruct Hl as (Ha & _ & Hl). cbn [fmap list_fmap] in *. apply list.NoDup_cons in Hn as [Hac Hn].
  destruct (destroy_all_Ok (length l) 0 (slots l)) as [a' Hd].
  { intros i Hi. destruct (lookup_lt_is_Some_2 l i ltac:(lia)) as [v Hv]. exists v. by apply slots_lookup. }
  destruct (IH (mkBag (delete a (hmem b)) (hbrk b) (heads b)) c) as (m & Hr & Ho & Hi); [|done|cbn in Hf; lia|].
  { eapply linked_frame; [|exact Hl]. intros x Hx. apply lookup_delete_ne. by intros ->. }
  exists m. split_and!.
  - cbn [destruct_blocks first_block]. rewrite (st_bind_step _ _ _ _ _ (header_at_run b a _ Ha)). cbn [dend storage hnext].
    rewrite (st_bind_step _ _ b b a') by (unfold lift; by rewrite Hd). exact Hr.
  - intros x Hx. rewrite elem_of_cons in Hx. rewrite Ho by tauto. apply lookup_delete_ne. naive_solver.
  - intros x Hx. destruct (decide (x ∈ c.*1)) as [Hxc|Hxc]; [by apply Hi|].
    apply elem_of_cons in Hx as [->|Hx]; [|done]. rewrite Ho by done. apply lookup_delete_eq.
Qed.

Lemma linked_size (m : gmap nat (header T)) c nx : linked m c nx → NoDup c.*1 → length c <= size m.
Proof.
  intros Hl Hn. rewrite <-size_dom, <-(length_fmap fst c), <-(size_list_to_set (C := gset nat)) by done.
  apply subseteq_size. intros a Ha. rewrite elem_of_list_to_set in Ha. apply elem_of_dom. by eapply linked_in.
Qed.

Lemma destruct_threads_run cs t m k p :
  Forall2 (thread_ok m) p cs → NoDup (concat cs).*1 →
  ∃ m', destruct_threads (length cs) t (mkBag m k (replicate t (None, None) ++ p)) =
      Ok (tt, mkBag m' k (replicate (t + length cs) (None, None))) ∧
    (∀ a, a ∉ (concat cs).*1 → m' !! a = m !! a) ∧ ∀ a, a ∈ (concat cs).*1 → m' !! a = None.
Proof.
  intros Hp. revert t m Hp. revert p. induction cs as [|c cs IH]; intros p t m Hp Hn.
  { apply Forall2_nil_inv_r in Hp as ->. exists m. rewrite app_nil_r, Nat.add_0_r. split_and!; [done..|by intros ? ?%elem_of_nil]. }
  apply Forall2_cons_inv_r in Hp as (x & p' & [Hl ->] & Hp & ->). cbn [concat] in *. rewrite fmap_app in Hn |- *.
  apply list.NoDup_app in Hn as (N1 & Hd & N2).
  set (b := mkBag m k (replicate t (None, None) ++ (first_block c None, list.last c.*1) :: p')).
  destruct (destruct_blocks_run (size m) c b Hl N1 (linked_size m c None Hl N1)) as (m1 & Hr & Ho & Hi).
  destruct (IH p' (S t) m1) as (m2 & Hr2 & Ho2 & Hi2); [|done|].
  { eapply threads_frame; [|exact Hp]. intros a Ha. apply Ho. intros Hac. by apply (Hd a). }
  exists m2. split_and!.
  - cbn [destruct_threads length]. rewrite (st_bind_step _ _ _ _ _ (get_heads_run b t (first_block c None, list.last c.*1)
      ltac:(cbn; by rewrite lookup_app_r, length_replicate, Nat.sub_diag by (rewrite length_replicate; lia)))).
    rewrite (st_bind_step getS _ b b b) by done. cbn [fst hmem]. rewrite (st_bind_step _ _ _ _ _ Hr).
    unfold put_heads, modify. cbn [heads hmem hbrk]. rewrite <-Nat.add_succ_comm, <-Hr2.
    rewrite (st_bind_step _ _ _ (mkBag m1 k (replicate (S t) (None, None) ++ p')) tt); [done|]. cbn.
    rewrite insert_app_r_alt, length_replicate, Nat.sub_diag by (rewrite length_replicate; lia). cbn.
    do 3 f_equal. clear. induction t as [|t IH]; [done|]. cbn. by rewrite IH.
  - intros a Ha. rewrite elem_of_app in Ha. rewrite Ho2, Ho by tauto. done.
  - intros a Ha. destruct (decide (a ∈ (concat cs).*1)); [auto|]. apply elem_of_app in Ha as [Ha|Ha]; [|done].
    rewrite Ho2 by done. auto.
Qed.

Lemma bag_clear_run b cs :
  bag_ok b cs → clear_serial b = Ok (tt, mkBag ∅ (hbrk b) (replicate (length cs) (None, None))).
Proof.
  intros [Ht Hn _ Ho]. destruct (destruct_threads_run cs 0 (hmem b) (hbrk b) (heads b) Ht Hn) as (m & Hr & Ho' & Hi).
  unfold clear_serial. rewrite (st_bind_step getS _ b b b) by done.
  rewrite (Forall2_length Ht). destruct b as [m0 k p]. cbn in *. rewrite Hr. do 3 f_equal.
  apply map_empty. intros a. destruct (decide (a ∈ (concat cs).*1)) as [Ha|Ha]; [auto|]. rewrite Ho' by done.
  destruct (m0 !! a) eqn:E; [|done]. by apply Ho in E.
Qed.

Lemma is_empty_run b cs : bag_ok b cs → bag_is_empty b = true ↔ concat (items <$> cs) = [].
Proof.
  intros [Ht _ _ _]. unfold bag_is_empty. induction Ht as [|p c ps cs [Hl ->] _ IH]; [done|].
  cbn [forallb fmap list_fmap concat]. rewrite andb_true_iff, bool_decide_eq_true, IH, app_nil. cbn [fst].
  destruct c as [|[a [|v l]] c]; [cbn; tauto|cbn in Hl; lia|]. cbn. naive_solver.
Qed.

(** ** The bag and its specification *)

(** Elements added by threads, one call after the other, with the references returned. *)
Fixpoint emplace_all (ps : list (nat * T)) : st (InsertBag T) (list (nat * nat)) :=
  match ps with
  | [] => mret []
  | (t, v) :: ps' => r ← bag_emplace cap t v; rs ← emplace_all ps'; mret (r :: rs)
  end.
(** The elements that the thread [t] has added, in order. *)
Fixpoint emplaced (t : nat) (ps : list (nat * T)) : list T :=
  match ps with [] => [] | (u, v) :: ps' => if u =? t then v :: emplaced t ps' else emplaced t ps' end.

Lemma emplace_all_run ps b cs :
  bag_ok b cs → Forall (λ p, p.1 < length cs) ps →
  ∃ rs b' cs', emplace_all ps b = Ok (rs, b') ∧ bag_ok b' cs' ∧ length cs' = length cs ∧
    (∀ t c, cs !! t = Some c → ∃ c', cs' !! t = Some c' ∧ items c' = items c ++ emplaced t ps) ∧
    Forall2 (λ r p, refers b' r p.2) rs ps ∧ NoDup rs ∧ ∀ r w, refers b r w → refers b' r w ∧ r ∉ rs.
Proof.
  revert b cs. induction ps as [|[u v] ps IH]; intros b cs Hb Hp.
  { exists [], b, cs. split_and!; try done; [|constructor|intros r w Hr; split; [done|by intros ?%elem_of_nil]].
    intros t c Ht. exists c. by rewrite app_nil_r. }
  apply Forall_cons_1 in Hp as [Hu Hp]. cbn [fst] in Hu. destruct (lookup_lt_is_Some_2 cs u Hu) as [c Hc].
  apply list_elem_of_split_length in Hc as (q1 & q2 & -> & ->).
  destruct (emplace_run b q1 c q2 v Hb) as (r & b1 & c1 & He & Hb1 & Hi & Hr & Hf).
  destruct (IH b1 (q1 ++ c1 :: q2) Hb1) as (rs & b' & cs' & Hes & Hb' & Hn & Ht & Hrs & Hnd & Hf').
  { eapply list.Forall_impl; [exact Hp|]. intros p. by rewrite !length_app. }
  exists (r :: rs), b', cs'. destruct (Hf' _ _ Hr) as [Hr' Hrn]. split_and!; [|done| | |by constructor| |].
  - cbn [emplace_all]. by rewrite (st_bind_step _ _ _ _ _ He), (st_bind_step _ _ _ _ _ Hes).
  - rewrite Hn, !length_app. done.
  - intros t d Hd. cbn [emplaced]. destruct (Nat.eqb_spec (length q1) t) as [<-|Htn].
    + rewrite list_lookup_middle in Hd by done. injection Hd as <-.
      destruct (Ht (length q1) c1) as (c' & Hc' & E); [by apply list_lookup_middle|]. exists c'. split; [done|].
      by rewrite E, Hi, <-app_assoc.
    + apply Ht. rewrite <-Hd. clear -Htn. revert t Htn. induction q1 as [|x q1 IHq]; intros [|t] Htn; cbn in *; auto; lia.
  - by apply list.NoDup_cons.
  - intros r0 w Hr0. destruct (Hf _ _ Hr0) as [H1 H2]. destruct (Hf' _ _ H1) as [H3 H4]. split; [done|].
    by intros [?|?]%elem_of_cons.
Qed.

Lemma bag_traverse_all b cs fuel :
  bag_ok b cs → length (concat (items <$> cs)) <= fuel →
  bag_traverse fuel (bag_begin b) (bag_end b) b = Ok (concat (items <$> cs), b).
Proof.
  intros Hb Hf. pose proof (traverse_threads b [] cs [] (fuel - length (concat (items <$> cs)))) as Ht.
  rewrite app_nil_r in Ht. specialize (Ht Hb). rewrite <-Nat.le_add_sub in Ht by done.
  unfold bag_end. by rewrite (Forall2_length (bo_threads _ _ Hb)).
Qed.
Lemma traverse_local b cs t c fuel :
  bag_ok b cs → cs !! t = Some c → length (items c) <= fuel →
  bag_traverse fuel (local_begin t b) (local_end t b) b = Ok (items c, b).
Proof.
  intros Hb Hc Hf. apply list_elem_of_split_length in Hc as (q1 & q2 & -> & ->).
  pose proof (traverse_threads b q1 [c] q2 (fuel - length (items c)) Hb) as Ht. cbn [fmap list_fmap concat] in Ht.
  rewrite app_nil_r in Ht. by rewrite <-Nat.le_add_sub in Ht by done.
Qed.

(** C21: a bag of [n] threads is a sequence of elements per thread.  Whatever the order in which
    the threads call [emplace], every call succeeds and the references returned differ and
    still refer to their elements at the end; iteration from [begin] to [end] visits the
    elements of the threads one thread after the other, each in the order of its calls, and
    that from [local_begin] to [local_end] those of one thread; [empty] says whether there
    are none; and [clear_serial] frees every block and leaves the bag as it was at first. *)
Theorem bag_refines n ps :
  Forall (λ p, p.1 < n) ps →
  ∃ rs b, emplace_all ps (new_InsertBag n) = Ok (rs, b) ∧ NoDup rs ∧
    Forall2 (λ r p, deref r b = Ok (p.2, b)) rs ps ∧
    (let l := concat ((λ t, emplaced t ps) <$> seq 0 n) in
     (∀ fuel, length l <= fuel → bag_traverse fuel (bag_begin b) (bag_end b) b = Ok (l, b)) ∧
     (bag_is_empty b = true ↔ l = [])) ∧
    (∀ t fuel, t < n → length (emplaced t ps) <= fuel →
      bag_traverse fuel (local_begin t b) (local_end t b) b = Ok (emplaced t ps, b)) ∧
    clear_serial b = Ok (tt, mkBag ∅ (hbrk b) (heads (new_InsertBag n : InsertBag T))).
Proof.
  intros Hp. destruct (emplace_all_run ps _ _ (new_bag_ok n)) as (rs & b & cs & Hr & Hb & Hn & Ht & Hrs & Hnd & _).
  { by rewrite length_replicate. }
  rewrite length_replicate in Hn.
  assert (∀ t, t < n → ∃ c, cs !! t = Some c ∧ items c = emplaced t ps) as Hc.
  { intros t Hl. destruct (Ht t []) as (c & Hc & E); [by apply lookup_replicate|]. by exists c. }
  assert (items <$> cs = (λ t, emplaced t ps) <$> seq 0 n) as E.
  { apply list_eq. intros t. rewrite !list_lookup_fmap. destruct (decide (t < n)) as [Hl|Hl].
    - destruct (Hc t Hl) as (c & -> & Ec). rewrite lookup_seq_lt by done. cbn. by rewrite Ec.
    - by rewrite lookup_seq_ge, (lookup_ge_None_2 cs) by lia. }
  exists rs, b. cbv zeta. rewrite <-E. split_and!; [done|done| | | | |].
  - revert Hrs. apply Forall2_impl. intros r p. apply refers_deref.
  - intros fuel Hf. by apply bag_traverse_all.
  - by apply is_empty_run.
  - intros t fuel Hl Hf. destruct (Hc t Hl) as (c & Hct & Ec). rewrite <-Ec in Hf |- *. by eapply traverse_local.
  - rewrite <-Hn. by apply bag_clear_run.
Qed.

Lemma linked_items_nil m c nx : linked m c nx → items c = [] → c = [].
Proof. destruct c as [|[a [|v l]] c]; [done|by intros (_ & ? & _); cbn in *; lia|done]. Qed.

(** [pop] does not undo the first [emplace] of a thread: the block stays in the list of the
    thread without elements, so [empty] is false and iteration over the thread starts at the
    element that was destroyed. *)
Theorem pop_leaves_empty_block n ps t v :
  Forall (λ p, p.1 < n) ps → t < n → emplaced t ps = [] →
  ∃ b, (emplace_all ps;; bag_emplace cap t v;; bag_pop t) (new_InsertBag n) = Ok (true, b) ∧
    bag_is_empty b = false ∧ local_begin t b ≠ local_end t b ∧ bag_dereference (local_begin t b) b = Err UB.
Proof.
  intros Hp Htn Hnone. destruct (emplace_all_run ps _ _ (new_bag_ok n)) as (rs & b0 & cs & Hr & Hb0 & _ & Ht & _).
  { by rewrite length_replicate. }
  destruct (Ht t []) as (c & Hc & Ec); [by apply lookup_replicate|]. rewrite Hnone in Ec. cbn in Ec.
  apply list_elem_of_split_length in Hc as (q1 & q2 & -> & ->).
  rewrite (linked_items_nil _ c None (proj1 (proj2 (thread_blocks _ _ _ _ Hb0))) Ec) in Hb0.
  destruct (emplace_run b0 q1 [] q2 v Hb0) as (r & b1 & c1 & He & Hb1 & Hi & _). cbn in Hi.
  destruct (thread_blocks _ _ _ _ Hb1) as (Hh & Hl & _). destruct c1 as [|[a [|w l]] c1]; [done|by destruct Hl as (_ & ? & _); cbn in *; lia|].
  change (w :: l ++ items c1 = [v]) in Hi. injection Hi as -> Hi. apply app_nil in Hi as [-> Hi].
  apply (linked_items_nil (hmem b1) c1 None) in Hi as ->; [|apply Hl]. cbn in Hh. destruct Hl as (Ha & _ & _). cbn in Ha.
  rewrite (st_bind_step _ _ _ _ _ Hr), (st_bind_step _ _ _ _ _ He). unfold bag_pop.
  rewrite (st_bind_step _ _ _ _ _ (get_heads_run b1 _ _ Hh)). cbn [snd].
  rewrite (st_bind_step _ _ _ _ _ (header_at_run b1 a _ Ha)). cbn [dend storage hnext Nat.eqb].
  eexists. split; [reflexivity|]. split_and!.
  - unfold bag_is_empty. cbn [heads]. apply not_true_iff_false. rewrite forallb_forall. intros Hall.
    apply list_elem_of_lookup_2, list_elem_of_In, Hall in Hh. by apply bool_decide_eq_true in Hh.
  - intros E. apply (f_equal thr) in E. unfold local_end in E. unfold local_begin in E at 1.
    erewrite new_iterator_some in E by exact Hh. cbn [thr] in E.
    match type of E with _ = thr (new_iterator _ ?b) => pose proof (new_iterator_thr (length q1 + 1) b) end. lia.
  - unfold local_begin. erewrite new_iterator_some by exact Hh. unfold bag_dereference, deref. cbn [hp fst vpos].
    erewrite st_bind_step by (apply header_at_run; cbn; apply lookup_insert_eq). done.
Qed.
End Facts.

Lemma bag_refines_witness :
  ∃ rs b, emplace_all 2 [(1, 10); (0, 20); (1, 30); (1, 40)] (new_InsertBag 3) = Ok (rs, b) ∧
    bag_traverse 4 (bag_begin b) (bag_end b) b = Ok ([20; 10; 30; 40], b).
Proof.
  destruct (bag_refines 2 ltac:(lia) 3 [(1, 10); (0, 20); (1, 30); (1, 40)]) as (rs & b & Hr & _ & _ & [Ht _] & _).
  - repeat constructor; cbn; lia.
  - exists rs, b. split; [exact Hr|]. apply (Ht 4). cbn. lia.
Defined.

Lemma pop_leaves_empty_block_witness :
  ∃ b, (emplace_all 2 [(0, 20)];; bag_emplace 2 1 10;; bag_pop 1) (new_InsertBag 3) = Ok (true, b) ∧
    bag_is_empty b = false ∧ local_begin 1 b ≠ local_end 1 b ∧ bag_dereference (local_begin 1 b) b = Err UB.
Proof.
  apply (pop_leaves_empty_block 2 ltac:(lia) 3 [(0, 20)] 1 10); [|lia|reflexivity].
  repeat constructor; cbn; lia.
Defined.
