(* ===== verification/Conflicts.v ===== *)
(** * [runtime/Context.h], [libgalois/src/Context.cpp], [substrate/PtrLock.h]: conflicts

    How visits that run at the same time are kept apart.  A node of the graph is a
    [Lockable]: a word that has the address of the context that owns it, with the lock in
    the lowest bit, and a link for the list of the nodes that a context owns.  A thread
    acquires the nodes that its operator touches; when another thread has one, the
    operator is left by an exception, the nodes are released and the item of the work list
    is tried again later.  Nothing is undone.

    The threads are interleaved access by access.  The operator is arbitrary: a program
    that acquires lockables and reads and writes the data that they protect.  It may also
    look at a part of the data that no visit changes without owning the lockable, as
    [MorphGraph] does when it looks for neighbours that are in the graph. *)
From stdpp Require Import gmap list functions relations.
From S2P Require Import Prelude FixedSizeRing Worklist.

(** One action of a program, unless it has returned. *)
Definition prog_step {S A} (p : prog S A) (s : S) : option (result (prog S A * S)) :=
  match p with
  | Ret _ => None
  | Act f k => Some (x ← f s; Ok (k x.1, x.2))
  end.

Section Conflicts.
Context {Item V : Type}.
(** The address of the context of a thread. *)
Context (ctx : nat → Z).

Record Lockable := mkLockable { owner : Z; next : option nat }.
Record SimpleRuntimeContext := mkCtx { locks : option nat; customAcquire : bool }.

(** [data] is what the lockables protect. *)
Record shared := mkShared {
  lockables : nat → Lockable;
  contexts : nat → SimpleRuntimeContext;
  data : nat → V;
}.

Abbreviation P := (prog shared).

(** Accesses to the fields. *)
Definition load_owner (x : nat) : P Z := act (gets (λ s, owner (lockables s x))).
Definition store_owner (x : nat) (w : Z) : P unit :=
  act (modify (λ s, mkShared (<[x := mkLockable w (next (lockables s x))]> (lockables s)) (contexts s) (data s))).
Definition fetch_or_owner (x : nat) (b : Z) : P Z := act (λ s,
  Ok (owner (lockables s x),
      mkShared (<[x := mkLockable (Z.lor (owner (lockables s x)) b) (next (lockables s x))]> (lockables s))
        (contexts s) (data s))).
Definition load_next (x : nat) : P (option nat) := act (gets (λ s, next (lockables s x))).
Definition store_next (x : nat) (n : option nat) : P unit :=
  act (modify (λ s, mkShared (<[x := mkLockable (owner (lockables s x)) n]> (lockables s)) (contexts s) (data s))).
Definition load_locks (t : nat) : P (option nat) := act (gets (λ s, locks (contexts s t))).
Definition store_locks (t : nat) (l : option nat) : P unit :=
  act (modify (λ s, mkShared (lockables s) (<[t := mkCtx l (customAcquire (contexts s t))]> (contexts s)) (data s))).
Definition load_custom (t : nat) : P bool := act (gets (λ s, customAcquire (contexts s t))).
Definition check (b : bool) : P unit := act (lift (assert b)).

(** ** [PtrLock] *)

Definition getValue (x : nat) : P Z := w ← load_owner x; mret (Z.ldiff w 1).
Definition setValue (x : nat) (val : Z) : P unit := w ← load_owner x; store_owner x (Z.lor val (Z.land w 1)).
Definition is_locked (x : nat) : P bool := w ← load_owner x; mret (negb (Z.land w 1 =? 0)%Z).
Definition try_lock (x : nat) : P bool :=
  oldval ← load_owner x;
  if negb (Z.land oldval 1 =? 0)%Z then mret false
  else oldval ← fetch_or_owner x 1; mret (Z.land oldval 1 =? 0)%Z.
Definition unlock_and_clear (x : nat) : P unit := b ← is_locked x; check b;; store_owner x 0.

(** ** [LockManagerBase], [SimpleRuntimeContext] *)

Inductive AcquireStatus := FAIL | NEW_OWNER | ALREADY_OWNER.

Definition tryAcquire (t x : nat) : P AcquireStatus :=
  b ← try_lock x;
  if (b : bool) then setValue x (ctx t);; mret NEW_OWNER
  else o ← getValue x; mret (if (o =? ctx t)%Z then ALREADY_OWNER else FAIL).

Definition addToNhood (t x : nat) : P unit :=
  n ← load_next x;
  check (bool_decide (n = None));;
  l ← load_locks t;
  store_next x l;;
  store_locks t (Some x).

(** [false] is the exception [CONFLICT] of [signalConflict]; [subAcquire] is [GALOIS_DIE]. *)
Definition ctx_acquire (t x : nat) : P bool :=
  custom ← load_custom t;
  if (custom : bool) then check false;; mret true
  else
    i ← tryAcquire t x;
    match i with
    | FAIL => mret false
    | NEW_OWNER => addToNhood t x;; mret true
    | ALREADY_OWNER => mret true
    end.

Definition ctx_release (t x : nat) : P unit :=
  custom ← load_custom t;
  (if (custom : bool) then mret tt else o ← getValue x; check (o =? ctx t)%Z);;
  n ← load_next x;
  check (bool_decide (n = None));;
  unlock_and_clear x.

(** One round of the loop of [commitIteration] and [cancelIteration], and whether there
    was one. *)
Definition commit_round (t : nat) : P bool :=
  l ← load_locks t;
  match l with
  | None => mret false
  | Some x =>
      n ← load_next x;
      store_locks t n;;
      store_next x None;;
      ctx_release t x;;
      mret true
  end.

Definition startIteration (t : nat) : P unit := l ← load_locks t; check (bool_decide (l = None)).

(** [MethodFlag]: [UNPROTECTED], [WRITE], [READ], [PREVIOUS] are 0, 1, 2 and 4, the mask is 3. *)
Definition shouldLock (g : Z) : result bool :=
  match Z.land g 3 with
  | 0%Z | 4%Z => Ok false
  | 1%Z | 2%Z => Ok true
  | _ => Err AssertFail
  end.

(** [acquire] of a thread whose context is [c]. *)
Definition doAcquire (c : option nat) (x : nat) : P bool :=
  match c with Some t => ctx_acquire t x | None => mret true end.
Definition acquire (c : option nat) (x : nat) (m : Z) : P bool :=
  b ← act (lift (shouldLock m));
  if (b : bool) then doAcquire c x else mret true.

(** ** Operators *)

(** [Finish] has the items that are in the push buffer at the end; [Peek] reads the part
    [stable] of the data. *)
Inductive op :=
  | Finish (pushes : list Item)
  | Fail (e : error)
  | Peek (x : nat) (o : V → op)
  | Acquire (x : nat) (m : Z) (o : op)
  | Load (x : nat) (o : V → op)
  | Store (x : nat) (v : V) (o : op).

Context (stable : V → V).

(** [None] when it is left by an exception *)
Fixpoint operate (t : nat) (o : op) : P (option (list Item)) :=
  match o with
  | Finish ps => mret (Some ps)
  | Fail e => act (lift (Err e))
  | Peek x o' => v ← act (gets (λ s, stable (data s x))); operate t (o' v)
  | Acquire x m o' => ok ← acquire (Some t) x m; if (ok : bool) then operate t o' else mret None
  | Load x o' => v ← act (gets (λ s, data s x)); operate t (o' v)
  | Store x v o' => act (modify (λ s, mkShared (lockables s) (contexts s) (<[x := v]> (data s))));; operate t o'
  end.

(** ** The threads of a loop *)

Context (activeThreads : nat) (operator : Item → op).

(** Where a thread is: before [pop]; in [doProcess]; in [commitIteration], or
    in [abortIteration] of the item. *)
Inductive control :=
  | Idle
  | Operating (v : Item) (p : P (option (list Item)))
  | Releasing (v : Item) (done : bool) (p : P bool).

(** [pending] has the items of the work list and of the lists of aborted items. *)
Record config := mkConfig { mem : shared; pending : list Item; ctl : nat → control }.

Definition process (t : nat) (v : Item) : P (option (list Item)) :=
  startIteration t;; operate t (operator v).

Inductive step (t : nat) : config → config → Prop :=
  | take m l1 v l2 c :
      c t = Idle → step t (mkConfig m (l1 ++ v :: l2) c) (mkConfig m (l1 ++ l2) (<[t := Operating v (process t v)]> c))
  | operate_action m l c v p p' m' :
      c t = Operating v p → prog_step p m = Some (Ok (p', m')) →
      step t (mkConfig m l c) (mkConfig m' l (<[t := Operating v p']> c))
  (** the push buffer goes to the work list before the nodes are released *)
  | commit m l c v ps :
      c t = Operating v (Ret (Some ps)) →
      step t (mkConfig m l c) (mkConfig m (l ++ ps) (<[t := Releasing v true (commit_round t)]> c))
  | abort m l c v :
      c t = Operating v (Ret None) →
      step t (mkConfig m l c) (mkConfig m l (<[t := Releasing v false (commit_round t)]> c))
  | release_action m l c v d p p' m' :
      c t = Releasing v d p → prog_step p m = Some (Ok (p', m')) →
      step t (mkConfig m l c) (mkConfig m' l (<[t := Releasing v d p']> c))
  | release_round m l c v d :
      c t = Releasing v d (Ret true) →
      step t (mkConfig m l c) (mkConfig m l (<[t := Releasing v d (commit_round t)]> c))
  (** an aborted item goes to a list of aborted items *)
  | release_done m l c v (d : bool) :
      c t = Releasing v d (Ret false) →
      step t (mkConfig m l c) (mkConfig m (l ++ if d then [] else [v]) (<[t := Idle]> c)).

Definition any_step (c c' : config) : Prop := ∃ t, t < activeThreads ∧ step t c c'.

Definition start (items : list Item) (σ : nat → V) : config :=
  mkConfig (mkShared (λ _, mkLockable 0 None) (λ _, mkCtx None false) σ) items (λ _, Idle).

(** ** One visit at a time *)

(** The operator alone: what it pushes, and the data after it. *)
Fixpoint run_op (o : op) (σ : nat → V) : result (list Item * (nat → V)) :=
  match o with
  | Finish ps => Ok (ps, σ)
  | Fail e => Err e
  | Peek x o' => run_op (o' (stable (σ x))) σ
  | Acquire _ _ o' => run_op o' σ
  | Load x o' => run_op (o' (σ x)) σ
  | Store x v o' => run_op o' (<[x := v]> σ)
  end.

Inductive serial_step : list Item * (nat → V) → list Item * (nat → V) → Prop :=
  | serial_visit l1 v l2 σ ps σ' :
      run_op (operator v) σ = Ok (ps, σ') → serial_step (l1 ++ v :: l2, σ) (l1 ++ l2 ++ ps, σ').

(** An operator that touches what it has acquired and acquires nothing new after its
    first write.  [fixed] is the part of the data that no visit changes; with it the
    operator does not fail, and it pushes only items that are [good]. *)
Context (fixed : nat → V) (good : Item → Prop).

Fixpoint cautious (held : list nat) (wrote : bool) (o : op) : Prop :=
  match o with
  | Finish ps => Forall good ps
  | Fail _ => False
  | Peek x o' => cautious held wrote (o' (fixed x))
  | Acquire x m o' =>
      match shouldLock m with
      | Ok true => (wrote = true → x ∈ held) ∧ cautious (x :: held) wrote o'
      | Ok false => cautious held wrote o'
      | Err _ => False
      end
  | Load x o' => x ∈ held ∧ ∀ v, stable v = fixed x → cautious held wrote (o' v)
  | Store x v o' => x ∈ held ∧ stable v = fixed x ∧ cautious held true o'
  end.
End Conflicts.

(** ** What a thread owns *)

Section Facts.
Context {Item V : Type} (ctx : nat → Z) (stable : V → V) (fixed : nat → V) (good : Item → Prop).
(** Contexts are objects of their own, aligned to even addresses. *)
Hypothesis ctx_pos : ∀ t, (0 < ctx t)%Z.
Hypothesis ctx_even : ∀ t, Z.even (ctx t) = true.
Hypothesis ctx_inj : ∀ t u, ctx t = ctx u → t = u.

Abbreviation shared := (shared (V := V)).
Abbreviation P := (prog shared).

(** A lockable that a thread has locked: its fields, the data that it protects, and that
    data before the visit. *)
Record cell := mkCell { cword : Z; cnext : option nat; cval : V; cold : V }.
Record frag := mkFrag { flocks : option nat; cells : gmap nat cell }.

(** The memory is what the threads own and lockables that are free; [σ] is the data as the
    visits that have ended left it. *)
Record world (s : shared) (σ : nat → V) (F : nat → frag) : Prop := {
  w_ctx t : contexts s t = mkCtx (flocks (F t)) false;
  w_cell t x c : cells (F t) !! x = Some c →
    lockables s x = mkLockable (cword c) (cnext c) ∧ data s x = cval c ∧ σ x = cold c ∧
    (cword c = 1 ∨ cword c = ctx t + 1)%Z;
  w_stable x : stable (data s x) = fixed x ∧ stable (σ x) = fixed x;
  w_disjoint t u x : is_Some (cells (F t) !! x) → is_Some (cells (F u) !! x) → t = u;
  w_owned x : (∃ t, is_Some (cells (F t) !! x)) ∨ ∀ t, cells (F t) !! x = None;
  w_free x : (∀ t, cells (F t) !! x = None) → lockables s x = mkLockable 0 None ∧ data s x = σ x;
}.

(** The lowest bit. *)
Lemma land_odd w : (Z.land w 1 =? 0)%Z = Z.even w.
Proof.
  change 1%Z with (Z.ones 1). rewrite Z.land_ones by lia. change (2 ^ 1)%Z with 2%Z. rewrite Zmod_even. by destruct (Z.even w).
Qed.
Lemma ctx_succ_even t : Z.even (ctx t + 1) = false.
Proof. rewrite Z.even_add, ctx_even. done. Qed.
Lemma lor_even w : Z.even w = true → Z.lor w 1 = (w + 1)%Z.
Proof.
  intros Hw. apply Z.even_spec in Hw as [k ->]. rewrite Z.add_nocarry_lxor, Z.lxor_lor; [done|..].
  all: apply Z.bits_inj'; intros n Hn; rewrite Z.land_spec, Z.bits_0.
  all: destruct (Z.eq_dec n 0%Z) as [->|Hn0]; [by rewrite Z.testbit_even_0|].
  all: replace 1%Z with (2 * 0 + 1)%Z by done; rewrite <-(Z.succ_pred n), Z.testbit_odd_succ, Z.bits_0 by lia.
  all: by rewrite andb_false_r.
Qed.
Lemma lor_odd w : Z.even w = false → Z.lor w 1 = w.
Proof.
  intros Hw. assert (Z.even (w - 1) = true) as E by (by rewrite Z.even_sub, Hw).
  replace w with (w - 1 + 1)%Z at 1 by lia. rewrite <-(lor_even _ E), <-Z.lor_assoc, Z.lor_diag, (lor_even _ E). lia.
Qed.
Lemma ldiff_succ w : Z.even w = true → Z.ldiff (w + 1) 1 = w.
Proof.
  intros Hw. rewrite <-lor_even by done. apply Z.even_spec in Hw as [k ->]. apply Z.bits_inj'. intros n Hn.
  rewrite Z.ldiff_spec, Z.lor_spec. destruct (Z.eq_dec n 0%Z) as [->|Hn0]; [by rewrite Z.testbit_even_0, andb_false_r|].
  replace (Z.testbit 1 n) with false; [by rewrite orb_false_r, andb_true_r|].
  replace 1%Z with (2 * 0 + 1)%Z by done. by rewrite <-(Z.succ_pred n), Z.testbit_odd_succ, Z.bits_0 by lia.
Qed.

(** ** Changes of what a thread owns *)

Section World.
Context (s : shared) (σ : nat → V) (F : nat → frag) (t : nat).
Hypothesis Hw : world s σ F.

Lemma world_other u x c : cells (F t) !! x = Some c → u ≠ t → cells (F u) !! x = None.
Proof.
  intros Hc Hu. destruct (cells (F u) !! x) eqn:E; [|done]. destruct Hu. symmetry.
  apply (w_disjoint _ _ _ Hw t u x); by eexists.
Qed.

(** A change of a lockable that no other thread owns; [o] is what the thread has of it then. *)
Lemma world_set x o L v :
  (∀ u, u ≠ t → cells (F u) !! x = None) → stable v = fixed x →
  match o with
  | Some c => L = mkLockable (cword c) (cnext c) ∧ v = cval c ∧ σ x = cold c ∧ (cword c = 1 ∨ cword c = ctx t + 1)%Z
  | None => L = mkLockable 0 None ∧ v = σ x
  end →
  world (mkShared (<[x := L]> (lockables s)) (contexts s) (<[x := v]> (data s))) σ
    (<[t := mkFrag (flocks (F t)) (partial_alter (λ _, o) x (cells (F t)))]> F).
Proof.
  intros Hx Hv Ho. set (F' := <[t := _]> F).
  assert (∀ u, cells (F' u) !! x = if decide (u = t) then o else None) as Ex.
  { intros u. unfold F'. case_decide as E; [rewrite E, fn_lookup_insert; apply lookup_partial_alter_eq|].
    rewrite fn_lookup_insert_ne by done. by apply Hx. }
  assert (∀ u y, y ≠ x → cells (F' u) !! y = cells (F u) !! y) as Ey.
  { intros u y Hy. unfold F'. destruct (decide (u = t)) as [->|Hu]; [|by rewrite fn_lookup_insert_ne].
    rewrite fn_lookup_insert. cbn. by apply lookup_partial_alter_ne. }
  split.
  - intros u. cbn. rewrite (w_ctx _ _ _ Hw). unfold F'.
    destruct (decide (u = t)) as [->|Hu]; [by rewrite fn_lookup_insert|by rewrite fn_lookup_insert_ne].
  - intros u y c. cbn. destruct (decide (y = x)) as [->|Hy].
    + rewrite Ex, !fn_lookup_insert. case_decide as E; [|done]. intros ->. by rewrite E.
    + rewrite Ey, !fn_lookup_insert_ne by done. apply (w_cell _ _ _ Hw).
  - intros y. cbn. split; [|apply (w_stable _ _ _ Hw)].
    destruct (decide (y = x)) as [->|Hy]; [by rewrite fn_lookup_insert|].
    rewrite fn_lookup_insert_ne by done. apply (w_stable _ _ _ Hw).
  - intros u u' y. destruct (decide (y = x)) as [->|Hy].
    + rewrite !Ex. intros [] []. by repeat case_decide; subst.
    + rewrite !Ey by done. apply (w_disjoint _ _ _ Hw).
  - intros y. destruct (decide (y = x)) as [->|Hy].
    + destruct o as [c|]; [left; exists t; rewrite Ex, decide_True by done; by eexists|right].
      intros u. rewrite Ex. by case_decide.
    + destruct (w_owned _ _ _ Hw y) as [[u Hu]|Hn]; [left; exists u; by rewrite Ey|right].
      intros u. by rewrite Ey.
  - intros y. cbn. destruct (decide (y = x)) as [->|Hy].
    + intros Hn. specialize (Hn t). rewrite Ex, decide_True in Hn by done. subst o. by rewrite !fn_lookup_insert.
    + intros Hn. rewrite !fn_lookup_insert_ne by done. apply (w_free _ _ _ Hw). intros u. by rewrite <-Ey.
Qed.

(** A change of the list of the thread. *)
Lemma world_locks l :
  world (mkShared (lockables s) (<[t := mkCtx l false]> (contexts s)) (data s)) σ (<[t := mkFrag l (cells (F t))]> F).
Proof.
  set (F' := <[t := _]> F).
  assert (∀ u, cells (F' u) = cells (F u)) as E.
  { intros u. unfold F'. destruct (decide (u = t)) as [->|Hu]; [by rewrite fn_lookup_insert|by rewrite fn_lookup_insert_ne]. }
  split.
  - intros u. cbn. unfold F'. destruct (decide (u = t)) as [->|Hu]; [by rewrite !fn_lookup_insert|].
    rewrite !fn_lookup_insert_ne by done. apply (w_ctx _ _ _ Hw).
  - intros u. rewrite E. apply (w_cell _ _ _ Hw).
  - apply (w_stable _ _ _ Hw).
  - intros u u' x. rewrite !E. apply (w_disjoint _ _ _ Hw).
  - intros x. destruct (w_owned _ _ _ Hw x) as [[u Hu]|Hn]; [left; exists u; by rewrite E|right; intros u; by rewrite E].
  - intros x Hx. apply (w_free _ _ _ Hw). intros u. by rewrite <-E.
Qed.
End World.

Lemma world_ext s s' σ F :
  (∀ x, lockables s' x = lockables s x) → (∀ t, contexts s' t = contexts s t) → (∀ x, data s' x = data s x) →
  world s σ F → world s' σ F.
Proof. intros Hl Hc Hd []. split; intros *; rewrite ?Hl, ?Hc, ?Hd; eauto. Qed.

(** ** What a program of a thread does whatever the others do *)

Abbreviation op := (op (Item := Item) (V := V)).
Context (operator : Item → op).

Section Alone.
(** The others own nothing. *)
Context (alone : Prop).

Fixpoint cwp {A} (t : nat) (p : P A) (Q : A → frag → Prop) (f : frag) : Prop :=
  match p with
  | Ret a => Q a f
  | Act g k => ∀ s σ F, world s σ F → F t = f → (alone → ∀ u, u ≠ t → cells (F u) = ∅) →
      ∃ b s' F', g s = Ok (b, s') ∧ world s' σ F' ∧ (∀ u, u ≠ t → F' u = F u) ∧ cwp t (k b) Q (F' t)
  end.

Lemma cwp_mono {A} t (p : P A) (Q Q' : A → frag → Prop) f :
  cwp t p Q f → (∀ a f, Q a f → Q' a f) → cwp t p Q' f.
Proof.
  intros Hp HQ. revert f Hp. induction p as [a|B g k IH]; intros f Hp; [by apply HQ|]. intros s σ F Hw Hf Ha.
  destruct (Hp s σ F Hw Hf Ha) as (b & s' & F' & ? & ? & ? & ?). exists b, s', F'. split_and!; auto.
Qed.
Lemma cwp_bind {A B} t (p : P A) (q : A → P B) (Q : B → frag → Prop) f :
  cwp t p (λ a f', cwp t (q a) Q f') f → cwp t (p ≫= q) Q f.
Proof.
  revert f. induction p as [a|C g k IH]; intros f Hp; [done|]. intros s σ F Hw Hf Ha.
  destruct (Hp s σ F Hw Hf Ha) as (b & s' & F' & ? & ? & ? & ?). exists b, s', F'. split_and!; auto.
  by apply IH.
Qed.

Lemma cwp_ret {A} t (a : A) (Q : A → frag → Prop) f : Q a f → cwp t (mret a) Q f.
Proof. done. Qed.

Definition put_cell (x : nat) (c : cell) (f : frag) : frag := mkFrag (flocks f) (<[x := c]> (cells f)).
Definition drop_cell (x : nat) (f : frag) : frag := mkFrag (flocks f) (delete x (cells f)).

Section Rules.
Context (t : nat) (f : frag).

(** A read. *)
Lemma cwp_gets {B} (g : shared → B) (Q : B → frag → Prop) :
  (∀ s σ F, world s σ F → F t = f → (alone → ∀ u, u ≠ t → cells (F u) = ∅) → Q (g s) f) → cwp t (act (gets g)) Q f.
Proof. intros HQ s σ F Hw Hf Ha. exists (g s), s, F. split_and!; [done..|]. cbn. rewrite Hf. by eapply HQ. Qed.
Lemma cwp_check (Q : unit → frag → Prop) : Q tt f → cwp t (check true) Q f.
Proof. intros HQ s σ F Hw Hf _. exists tt, s, F. split_and!; [done..|]. cbn. by rewrite Hf. Qed.

(** A write to a lockable of the thread. *)
Lemma cwp_put x c c' (g : shared → shared) (Q : unit → frag → Prop) :
  cells f !! x = Some c → (cword c' = 1 ∨ cword c' = ctx t + 1)%Z → cold c' = cold c →
  (stable (cval c) = fixed x → stable (cval c') = fixed x) →
  (∀ s, lockables s x = mkLockable (cword c) (cnext c) → data s x = cval c →
    (∀ y, lockables (g s) y = <[x := mkLockable (cword c') (cnext c')]> (lockables s) y) ∧
    (∀ u, contexts (g s) u = contexts s u) ∧ ∀ y, data (g s) y = <[x := cval c']> (data s) y) →
  (stable (cval c) = fixed x → Q tt (put_cell x c' f)) → cwp t (act (modify g)) Q f.
Proof.
  intros Hc Hwo Ho Hst Hg HQ s σ F Hw Hf _. rewrite <-Hf in Hc. destruct (w_cell _ _ _ Hw _ _ _ Hc) as (Hl & Hd & Hσ & _).
  assert (stable (cval c) = fixed x) as Hx by (rewrite <-Hd; apply (w_stable _ _ _ Hw)).
  destruct (Hg s Hl Hd) as (H1 & H2 & H3). exists tt, (g s), (<[t := put_cell x c' f]> F). split_and!; [done| | |].
  - apply (world_ext (mkShared (<[x := mkLockable (cword c') (cnext c')]> (lockables s)) (contexts s)
      (<[x := cval c']> (data s)))); [done..|]. unfold put_cell. rewrite <-Hf.
    apply (world_set s σ F t Hw x (Some c')); [|auto|split_and!; congruence || done].
    intros u Hu. by eapply world_other.
  - intros u Hu. by rewrite fn_lookup_insert_ne.
  - cbn. rewrite fn_lookup_insert. auto.
Qed.

Lemma cwp_load_owner x c (Q : Z → frag → Prop) : cells f !! x = Some c → Q (cword c) f → cwp t (load_owner x) Q f.
Proof.
  intros Hc HQ. apply cwp_gets. intros s σ F Hw Hf Ha. rewrite <-Hf in Hc.
  by destruct (w_cell _ _ _ Hw _ _ _ Hc) as (-> & _).
Qed.
Lemma cwp_load_next x c (Q : option nat → frag → Prop) : cells f !! x = Some c → Q (cnext c) f → cwp t (load_next x) Q f.
Proof.
  intros Hc HQ. apply cwp_gets. intros s σ F Hw Hf Ha. rewrite <-Hf in Hc.
  by destruct (w_cell _ _ _ Hw _ _ _ Hc) as (-> & _).
Qed.
Lemma cwp_load_data x c (Q : V → frag → Prop) :
  cells f !! x = Some c → (stable (cval c) = fixed x → Q (cval c) f) → cwp t (act (gets (λ s, data s x))) Q f.
Proof.
  intros Hc HQ. apply cwp_gets. intros s σ F Hw Hf Ha. rewrite <-Hf in Hc. pose proof (w_stable _ _ _ Hw x) as [Hst _].
  destruct (w_cell _ _ _ Hw _ _ _ Hc) as (_ & Hd & _). rewrite Hd in *. auto.
Qed.
Lemma cwp_peek x (Q : V → frag → Prop) : Q (fixed x) f → cwp t (act (gets (λ s, stable (data s x)))) Q f.
Proof. intros HQ. apply cwp_gets. intros s σ F Hw Hf Ha. by rewrite (proj1 (w_stable _ _ _ Hw x)). Qed.
Lemma cwp_load_locks (Q : option nat → frag → Prop) : Q (flocks f) f → cwp t (load_locks t) Q f.
Proof. intros HQ. apply cwp_gets. intros s σ F Hw Hf Ha. by rewrite (w_ctx _ _ _ Hw), Hf. Qed.
Lemma cwp_load_custom (Q : bool → frag → Prop) : Q false f → cwp t (load_custom t) Q f.
Proof. intros HQ. apply cwp_gets. intros s σ F Hw Hf Ha. by rewrite (w_ctx _ _ _ Hw). Qed.
Lemma cwp_store_locks l (Q : unit → frag → Prop) : Q tt (mkFrag l (cells f)) → cwp t (store_locks t l) Q f.
Proof.
  intros HQ s σ F Hw Hf _. eexists tt, _, (<[t := mkFrag l (cells f)]> F). split_and!; [done| | |].
  - cbn. rewrite (w_ctx _ _ _ Hw), <-Hf. cbn. by apply world_locks.
  - intros u Hu. by rewrite fn_lookup_insert_ne.
  - cbn. by rewrite fn_lookup_insert.
Qed.

Lemma cwp_store_owner x c w (Q : unit → frag → Prop) :
  cells f !! x = Some c → (w = 1 ∨ w = ctx t + 1)%Z →
  Q tt (put_cell x (mkCell w (cnext c) (cval c) (cold c)) f) → cwp t (store_owner x w) Q f.
Proof.
  intros Hc Hwo HQ. apply (cwp_put x c (mkCell w (cnext c) (cval c) (cold c))); [exact Hc|done|done|done| |done]. intros s Hl Hd. cbn. rewrite Hl. split_and!; [done..|].
  intros y. destruct (decide (y = x)) as [->|Hy]; [by rewrite fn_lookup_insert|by rewrite fn_lookup_insert_ne].
Qed.
Lemma cwp_store_next x c n (Q : unit → frag → Prop) :
  cells f !! x = Some c → (cword c = 1 ∨ cword c = ctx t + 1)%Z →
  Q tt (put_cell x (mkCell (cword c) n (cval c) (cold c)) f) → cwp t (store_next x n) Q f.
Proof.
  intros Hc Hwo HQ. apply (cwp_put x c (mkCell (cword c) n (cval c) (cold c))); [exact Hc|done|done|done| |done]. intros s Hl Hd. cbn. rewrite Hl. split_and!; [done..|].
  intros y. destruct (decide (y = x)) as [->|Hy]; [by rewrite fn_lookup_insert|by rewrite fn_lookup_insert_ne].
Qed.
Lemma cwp_store_data x c v (Q : unit → frag → Prop) :
  cells f !! x = Some c → (cword c = 1 ∨ cword c = ctx t + 1)%Z → stable v = fixed x →
  (stable (cval c) = fixed x → Q tt (put_cell x (mkCell (cword c) (cnext c) v (cold c)) f)) →
  cwp t (act (modify (λ s, mkShared (lockables s) (contexts s) (<[x := v]> (data s))))) Q f.
Proof.
  intros Hc Hwo Hv HQ. apply (cwp_put x c (mkCell (cword c) (cnext c) v (cold c))); [exact Hc|done|done|done| |exact HQ]. intros s Hl Hd. cbn. split_and!; [|done..].
  intros y. destruct (decide (y = x)) as [->|Hy]; [by rewrite fn_lookup_insert|by rewrite fn_lookup_insert_ne].
Qed.
(** The lockable is given back. *)
Lemma cwp_clear_owner x c (Q : unit → frag → Prop) :
  cells f !! x = Some c → cnext c = None → cval c = cold c → Q tt (drop_cell x f) → cwp t (store_owner x 0) Q f.
Proof.
  intros Hc Hn Hv HQ s σ F Hw Hf _. rewrite <-Hf in Hc. destruct (w_cell _ _ _ Hw _ _ _ Hc) as (Hl & Hd & Hσ & _).
  eexists tt, _, (<[t := drop_cell x f]> F). split_and!; [done| | |cbn; by rewrite fn_lookup_insert].
  - apply (world_ext (mkShared (<[x := mkLockable 0 None]> (lockables s)) (contexts s) (<[x := σ x]> (data s))));
      cbn; [by rewrite Hl, Hn|done| |].
    + intros y. destruct (decide (y = x)) as [->|Hy]; [rewrite fn_lookup_insert; congruence|by rewrite fn_lookup_insert_ne].
    + unfold drop_cell. rewrite <-Hf. apply (world_set s σ F t Hw x None); [|apply (w_stable _ _ _ Hw)|done].
      intros u Hu. by eapply world_other.
  - intros u Hu. by rewrite fn_lookup_insert_ne.
Qed.

(** The word of a lockable that the thread does not have. *)
Lemma world_word s σ F x :
  world s σ F → F t = f → cells f !! x = None →
  Z.ldiff (owner (lockables s x)) 1 ≠ ctx t ∧
  (Z.even (owner (lockables s x)) = true →
   lockables s x = mkLockable 0 None ∧ data s x = σ x ∧ ∀ u, cells (F u) !! x = None).
Proof.
  intros Hw <- Hx. destruct (w_owned _ _ _ Hw x) as [[u [c Hc]]|Hn].
  - destruct (w_cell _ _ _ Hw _ _ _ Hc) as (-> & _ & _ & Hwo). cbn. assert (t ≠ u) by (intros ->; by rewrite Hc in Hx).
    destruct Hwo as [-> | ->]; [pose proof (ctx_pos t); cbn; split; [lia|done]|].
    rewrite ldiff_succ, ctx_succ_even by done. split; [|done]. intros E. by apply ctx_inj in E.
  - destruct (w_free _ _ _ Hw x Hn) as [Hl Hd]. rewrite Hl. cbn. pose proof (ctx_pos t). split; [lia|done].
Qed.
Lemma world_alone s σ F x :
  world s σ F → F t = f → cells f !! x = None → (∀ u, u ≠ t → cells (F u) = ∅) → owner (lockables s x) = 0%Z.
Proof.
  intros Hw Hf Hx Ha. assert (∀ u, cells (F u) !! x = None) as Hn; [|by destruct (w_free _ _ _ Hw x Hn) as [-> _]].
  intros u. destruct (decide (u = t)) as [->|Hu]; [by rewrite Hf|]. rewrite Ha by done. apply lookup_empty.
Qed.
Lemma cwp_load_other x (Q : Z → frag → Prop) :
  cells f !! x = None → (∀ w, Z.ldiff w 1 ≠ ctx t → (alone → w = 0%Z) → Q w f) → cwp t (load_owner x) Q f.
Proof.
  intros Hx HQ. apply cwp_gets. intros s σ F Hw Hf Ha. apply HQ; [by eapply world_word|].
  intros Hal. eapply world_alone; eauto.
Qed.
Lemma cwp_fetch_or x (Q : Z → frag → Prop) :
  cells f !! x = None → (∀ w, Z.even w = false → ¬ alone → Q w f) → (∀ v, Q 0%Z (put_cell x (mkCell 1 None v v) f)) →
  cwp t (fetch_or_owner x 1) Q f.
Proof.
  intros Hx Hodd Hev s σ F Hw Hf Ha. destruct (world_word s σ F x Hw Hf Hx) as [_ Hfree].
  destruct (Z.even (owner (lockables s x))) eqn:E.
  - destruct (Hfree eq_refl) as (Hl & Hd & Hn).
    eexists _, _, (<[t := put_cell x (mkCell 1 None (σ x) (σ x)) f]> F). split_and!; [done| | |].
    + apply (world_ext (mkShared (<[x := mkLockable 1 None]> (lockables s)) (contexts s) (<[x := σ x]> (data s))));
        cbn; [by rewrite Hl|done| |].
      * intros y. destruct (decide (y = x)) as [->|Hy]; [by rewrite fn_lookup_insert|by rewrite fn_lookup_insert_ne].
      * unfold put_cell. rewrite <-Hf. apply (world_set s σ F t Hw x (Some (mkCell 1 None (σ x) (σ x)))); [auto|apply (w_stable _ _ _ Hw)|].
        cbn. auto.
    + intros u Hu. by rewrite fn_lookup_insert_ne.
    + cbn. rewrite fn_lookup_insert, Hl. apply Hev.
  - eexists _, _, F. split_and!; [done| |done|cbn; rewrite Hf; apply Hodd; [done|]].
    2:{ intros Hal. by rewrite (world_alone s σ F x Hw Hf Hx (Ha Hal)) in E. }
    apply (world_ext s); [|done..].
    intros y. cbn. destruct (decide (y = x)) as [->|Hy]; [rewrite fn_lookup_insert|by rewrite fn_lookup_insert_ne].
    rewrite lor_odd by done. by destruct (lockables s x).
Qed.
End Rules.

(** ** The list of a context *)

Fixpoint chain (t : nat) (m : gmap nat cell) (l : option nat) (L : list nat) : Prop :=
  match L with
  | [] => l = None
  | x :: L' => l = Some x ∧ ∃ c, m !! x = Some c ∧ cword c = (ctx t + 1)%Z ∧ chain t m (cnext c) L'
  end.
(** The thread owns the lockables [L] and they are in its list. *)
Record nhood (t : nat) (f : frag) (L : list nat) : Prop := {
  n_chain : chain t (cells f) (flocks f) L;
  n_nodup : NoDup L;
  n_dom x : is_Some (cells f !! x) ↔ x ∈ L;
}.
(** No data has changed. *)
Definition clean (f : frag) : Prop := ∀ x c, cells f !! x = Some c → cval c = cold c.

Lemma list_frame t m m' l L :
  (∀ x c, x ∈ L → m !! x = Some c → ∃ c', m' !! x = Some c' ∧ cword c' = cword c ∧ cnext c' = cnext c) →
  chain t m l L → chain t m' l L.
Proof.
  revert l. induction L as [|x L IH]; intros l Hm; [done|]. intros (-> & c & Hc & Hwo & HL). split; [done|].
  destruct (Hm x c) as (c' & Hc' & Hw' & Hn'); [by left|done|]. exists c'. rewrite Hw', Hn'. split_and!; [done..|].
  apply IH; [|done]. intros y d Hy. apply Hm. by right.
Qed.
Lemma nhood_word t f L x c : nhood t f L → cells f !! x = Some c → cword c = (ctx t + 1)%Z.
Proof.
  intros [Hc _ Hd] Hx. assert (x ∈ L) as HL by (apply Hd; by eexists). clear Hd. revert Hc. generalize (flocks f) as l.
  induction L as [|y L IH]; [by apply elem_of_nil in HL|]. intros l (-> & d & Hy & Hwo & Hc).
  apply elem_of_cons in HL as [->|HL]; [congruence|by eapply IH].
Qed.
Lemma nhood_in t f L x : nhood t f L → x ∈ L → ∃ c, cells f !! x = Some c ∧ cword c = (ctx t + 1)%Z.
Proof. intros Hn Hx. apply (n_dom _ _ _ Hn) in Hx as [c Hc]. exists c. split; [done|by eapply nhood_word]. Qed.
Lemma nhood_nil t f : nhood t f [] ↔ f = mkFrag None ∅.
Proof.
  split.
  - destruct f as [l m]. intros [Hc _ Hd]. cbn in *. subst l. f_equal. apply map_empty. intros x.
    apply eq_None_not_Some. rewrite Hd. by intros ?%elem_of_nil.
  - intros ->. split; [done|constructor|]. intros x. cbn. rewrite lookup_empty, elem_of_nil. split; [by intros []|done].
Qed.
(** Data is changed. *)
Lemma nhood_data t f L x c v :
  nhood t f L → cells f !! x = Some c → nhood t (put_cell x (mkCell (cword c) (cnext c) v (cold c)) f) L.
Proof.
  intros [Hc Hn Hd] Hx. split; [|done|].
  - eapply list_frame; [|exact Hc]. intros y d _ Hy. cbn. destruct (decide (x = y)) as [<-|Hxy].
    + rewrite lookup_insert_eq. replace d with c by congruence. by eexists.
    + rewrite lookup_insert_ne by done. by exists d.
  - intros y. cbn. rewrite <-Hd. rewrite lookup_insert_is_Some'. split; [|auto]. intros [<-|?]; [by eexists|done].
Qed.
(** A lockable is added. *)
Lemma nhood_add t f L x v :
  nhood t f L → x ∉ L →
  nhood t (mkFrag (Some x) (<[x := mkCell (ctx t + 1) (flocks f) v v]> (cells f))) (x :: L).
Proof.
  intros [Hc Hn Hd] Hx. split; cbn.
  - split; [done|]. eexists. rewrite lookup_insert_eq. split_and!; [done..|]. eapply list_frame; [|exact Hc].
    intros y c Hy Hyc. exists c. by rewrite lookup_insert_ne by (by intros ->).
  - by apply list.NoDup_cons.
  - intros y. rewrite lookup_insert_is_Some', Hd, elem_of_cons. split; intros [|]; auto.
Qed.
(** The first is removed. *)
Lemma nhood_remove t f L x c :
  nhood t f (x :: L) → cells f !! x = Some c → nhood t (mkFrag (cnext c) (delete x (cells f))) L.
Proof.
  intros [(_ & c' & Hc' & _ & Hc) Hn Hd] Hx. apply list.NoDup_cons in Hn as [HxL Hn]. split; cbn; [|done|].
  - replace c with c' by congruence. eapply list_frame; [|exact Hc].
    intros y d Hy Hyd. exists d. by rewrite lookup_delete_ne by (by intros ->).
  - intros y. rewrite lookup_delete_is_Some, Hd, elem_of_cons. split; [|by intros ?; split; [intros ->|auto]].
    intros [? [->|?]]; done.
Qed.

(** ** Methods of the context *)

Ltac wret := apply cwp_ret; cbn beta iota.

Lemma add_wp t f L x v :
  nhood t f L → x ∉ L →
  cwp t (addToNhood t x)
    (λ _ f', f' = mkFrag (Some x) (<[x := mkCell (ctx t + 1) (flocks f) v v]> (cells f)))
    (put_cell x (mkCell (ctx t + 1) None v v) f).
Proof.
  intros Hn Hx. set (c := mkCell (ctx t + 1) None v v).
  assert (cells (put_cell x c f) !! x = Some c) as Hc by apply lookup_insert_eq. unfold addToNhood.
  apply cwp_bind, (cwp_load_next _ _ _ _ _ Hc), cwp_bind, cwp_check, cwp_bind, cwp_load_locks, cwp_bind.
  apply (cwp_store_next _ _ _ _ _ _ Hc); [by right|]. apply cwp_store_locks. unfold put_cell. cbn. by rewrite insert_insert_eq.
Qed.

Lemma acquire_wp t f L x :
  nhood t f L →
  cwp t (ctx_acquire ctx t x) (λ ok f',
    (ok = true ∧ x ∈ L ∧ f' = f) ∨
    (ok = true ∧ (x ∉ L) ∧ ∃ v, f' = mkFrag (Some x) (<[x := mkCell (ctx t + 1) (flocks f) v v]> (cells f))) ∨
    (ok = false ∧ (x ∉ L) ∧ ¬ alone ∧ f' = f)) f.
Proof.
  intros Hn. unfold ctx_acquire. apply cwp_bind, cwp_load_custom. unfold tryAcquire. do 2 apply cwp_bind.
  unfold try_lock. apply cwp_bind. destruct (decide (x ∈ L)) as [Hx|Hx].
  { destruct (nhood_in _ _ _ _ Hn Hx) as (c & Hc & Hwo). apply (cwp_load_owner _ _ _ _ _ Hc). rewrite Hwo, land_odd, ctx_succ_even.
    cbn [negb]. wret. apply cwp_bind, cwp_bind, (cwp_load_owner _ _ _ _ _ Hc). wret. rewrite Hwo, ldiff_succ, Z.eqb_refl by done.
    do 2 wret. auto. }
  assert (cells f !! x = None) as Hnone by (apply eq_None_not_Some; by rewrite (n_dom _ _ _ Hn)).
  assert (cwp t (o ← getValue x; mret (if (o =? ctx t)%Z then ALREADY_OWNER else FAIL)) (λ i f', i = FAIL ∧ f' = f) f) as Hfail.
  { apply cwp_bind, cwp_bind, cwp_load_other; [done|]. intros w Hwo _. do 2 wret. by apply Z.eqb_neq in Hwo as ->. }
  apply cwp_load_other; [done|]. intros w _ Hw0. rewrite land_odd. destruct (Z.even w) eqn:Ew; cbn [negb].
  2:{ assert (¬ alone) as Hal by (intros Hal; by rewrite (Hw0 Hal) in Ew).
      wret. eapply cwp_mono; [exact Hfail|]. intros i f' [-> ->]. wret. right; right. by split_and!. }
  apply cwp_bind, cwp_fetch_or; [done| |].
  { intros w' Hw' Hal. wret. rewrite land_odd, Hw'. eapply cwp_mono; [exact Hfail|]. intros i f' [-> ->]. wret. right; right. by split_and!. }
  intros v. wret. change (Z.land 0 1 =? 0)%Z with true. cbn iota. set (c := mkCell 1 None v v).
  assert (cells (put_cell x c f) !! x = Some c) as Hc by apply lookup_insert_eq.
  apply cwp_bind, cwp_bind, (cwp_load_owner _ _ _ _ _ Hc), (cwp_store_owner _ _ _ _ _ _ Hc).
  { right. change (Z.land (cword c) 1) with 1%Z. by apply lor_even. }
  change (Z.land (cword c) 1) with 1%Z. rewrite lor_even by done. wret. unfold put_cell at 1. cbn [cells put_cell flocks]. rewrite insert_insert_eq.
  apply cwp_bind. eapply cwp_mono; [by eapply (add_wp t f L x v)|]. intros _ f' ->. wret. right; left. eauto.
Qed.

Lemma release_wp t f x c :
  cells f !! x = Some c → cword c = (ctx t + 1)%Z → cnext c = None → cval c = cold c →
  cwp t (ctx_release ctx t x) (λ _ f', f' = drop_cell x f) f.
Proof.
  intros Hc Hwo Hn Hv. unfold ctx_release. apply cwp_bind, cwp_load_custom, cwp_bind, cwp_bind, cwp_bind.
  apply (cwp_load_owner _ _ _ _ _ Hc). wret. rewrite Hwo, ldiff_succ, Z.eqb_refl by done.
  apply cwp_check, cwp_bind, (cwp_load_next _ _ _ _ _ Hc), cwp_bind. rewrite Hn. apply cwp_check.
  apply cwp_bind, cwp_bind, (cwp_load_owner _ _ _ _ _ Hc). wret. rewrite Hwo, land_odd, ctx_succ_even.
  by apply cwp_bind, cwp_check, (cwp_clear_owner _ _ _ _ _ Hc).
Qed.

Lemma commit_wp t f L :
  nhood t f L → clean f →
  cwp t (commit_round ctx t) (λ b f', match L with [] => b = false ∧ f' = f | _ :: L' => b = true ∧ nhood t f' L' ∧ clean f' end) f.
Proof.
  intros Hn Hcl. unfold commit_round. apply cwp_bind, cwp_load_locks. pose proof (n_chain _ _ _ Hn) as Hch.
  destruct L as [|x L]; cbn [chain] in Hch; [rewrite Hch; by wret|]. destruct Hch as (-> & c & Hc & Hwo & _).
  apply cwp_bind, (cwp_load_next _ _ _ _ _ Hc), cwp_bind, cwp_store_locks, cwp_bind.
  apply (cwp_store_next _ _ x c); [done|by right|]. apply cwp_bind.
  eapply cwp_mono; [eapply release_wp; [apply lookup_insert_eq|done|done|exact (Hcl x c Hc)]|].
  intros _ f' ->. wret. split; [done|]. unfold drop_cell. cbn. rewrite delete_insert_eq. split.
  - by apply (nhood_remove t f L x c).
  - intros y d Hy. cbn in Hy. apply lookup_delete_Some in Hy as [_ Hy]. by apply (Hcl y).
Qed.

(** ** The effect of an operator *)

(** Results with the same data. *)
Definition same (r r' : result (list Item * (nat → V))) : Prop :=
  match r, r' with
  | Ok (ps, σ), Ok (ps', σ') => ps = ps' ∧ ∀ x, σ x = σ' x
  | Err e, Err e' => e = e'
  | _, _ => False
  end.
Lemma same_trans r1 r2 r3 : same r1 r2 → same r2 r3 → same r1 r3.
Proof.
  destruct r1 as [[]|], r2 as [[]|], r3 as [[]|]; cbn; try done; [|congruence].
  intros [-> E] [-> E']. split; [done|]. intros x. by rewrite E.
Qed.
Lemma run_op_ext (o : op) σ τ : (∀ x, σ x = τ x) → same (run_op stable o σ) (run_op stable o τ).
Proof.
  revert σ τ. induction o as [ps|e|x o IH|x m o IH|x o IH|x v o IH]; intros σ τ E; cbn; auto.
  1,2: rewrite E; by apply IH.
  apply IH. intros y. destruct (decide (y = x)) as [->|Hy]; [by rewrite !fn_lookup_insert|by rewrite !fn_lookup_insert_ne].
Qed.

(** The data as a thread sees it, when the rest is [σ]. *)
Definition view (f : frag) (σ : nat → V) : nat → V := λ x, match cells f !! x with Some c => cval c | None => σ x end.
Definition agrees (f : frag) (σ : nat → V) : Prop := ∀ x c, cells f !! x = Some c → σ x = cold c.
Definition steady (σ : nat → V) : Prop := ∀ x, stable (σ x) = fixed x.
(** What is left of the visit of [v] is [o]. *)
Definition replay (v : Item) (f : frag) (o : op) : Prop :=
  ∀ σ τ, steady σ → steady τ → agrees f σ → (∀ x, τ x = view f σ x) →
    same (run_op stable (operator v) σ) (run_op stable o τ).

Lemma world_view s σ F t : world s σ F → steady (view (F t) σ).
Proof.
  intros Hw x. unfold view. destruct (cells (F t) !! x) as [c|] eqn:E; [|apply (w_stable _ _ _ Hw)].
  destruct (w_cell _ _ _ Hw _ _ _ E) as (_ & <- & _). apply (w_stable _ _ _ Hw).
Qed.
Lemma replay_more v f o l x c :
  replay v f o → cells f !! x = None → cval c = cold c → replay v (mkFrag l (<[x := c]> (cells f))) o.
Proof.
  intros Hr Hx Hc σ τ Hσs Hτs Ha Hτ. apply Hr; [done..| |].
  - intros y d Hy. apply (Ha y). cbn. by rewrite lookup_insert_ne by (intros ->; by rewrite Hx in Hy).
  - intros y. rewrite Hτ. unfold view. cbn. destruct (decide (x = y)) as [<-|Hy]; [|by rewrite lookup_insert_ne].
    rewrite lookup_insert_eq, Hx, Hc. symmetry. apply (Ha x). apply lookup_insert_eq.
Qed.
Lemma replay_load v f x c o : replay v f (Load x o) → cells f !! x = Some c → replay v f (o (cval c)).
Proof.
  intros Hr Hc σ τ Hσs Hτs Ha Hτ. specialize (Hr σ τ Hσs Hτs Ha Hτ). cbn in Hr. replace (cval c) with (τ x); [done|].
  rewrite Hτ. unfold view. by rewrite Hc.
Qed.
Lemma replay_peek v f x o : replay v f (Peek x o) → replay v f (o (fixed x)).
Proof. intros Hr σ τ Hσs Hτs Ha Hτ. rewrite <-(Hτs x). by apply (Hr σ τ). Qed.
Lemma replay_store v f x c w o :
  replay v f (Store x w o) → cells f !! x = Some c → stable (cval c) = fixed x →
  replay v (put_cell x (mkCell (cword c) (cnext c) w (cold c)) f) o.
Proof.
  intros Hr Hc Hst σ τ Hσs Hτs Ha Hτ.
  assert (∀ y, y ≠ x → τ y = view f σ y) as Hy.
  { intros y Hy. rewrite Hτ. unfold view. cbn. by rewrite lookup_insert_ne. }
  eapply same_trans; [apply (Hr σ (view f σ)); [done| | |done]|cbn; apply run_op_ext].
  - intros y. destruct (decide (y = x)) as [->|Hne]; [|by rewrite <-Hy]. unfold view. by rewrite Hc.
  - intros y d Hd. destruct (decide (x = y)) as [<-|Hxy].
    + replace d with c by congruence. apply (Ha x (mkCell (cword c) (cnext c) w (cold c))). apply lookup_insert_eq.
    + apply (Ha y d). cbn. by rewrite lookup_insert_ne.
  - intros y. destruct (decide (y = x)) as [->|Hne]; [|by rewrite fn_lookup_insert_ne, Hy].
    rewrite fn_lookup_insert, Hτ. unfold view. cbn. by rewrite lookup_insert_eq.
Qed.

(** How a visit ends. *)
Definition visited (t : nat) (v : Item) (r : option (list Item)) (f : frag) : Prop :=
  ∃ L, nhood t f L ∧ match r with Some ps => replay v f (Finish ps) ∧ Forall good ps | None => clean f ∧ ¬ alone end.

Lemma flag_wp {B} t m b (k : bool → P B) (Q : B → frag → Prop) f :
  shouldLock m = Ok b → cwp t (k b) Q f → cwp t (act (lift (shouldLock m)) ≫= k) Q f.
Proof. intros E HQ. apply cwp_bind. intros s σ F Hw <- _. exists b, s, F. unfold lift. by rewrite E. Qed.

Lemma operate_wp t v o f L H wrote :
  nhood t f L → (∀ x, x ∈ H → x ∈ L) → (wrote = false → clean f) → cautious stable fixed good H wrote o → replay v f o →
  cwp t (operate ctx stable t o) (visited t v) f.
Proof.
  revert f L H wrote. induction o as [ps|e|x o IH|x m o IH|x o IH|x w o IH]; intros f L H wrote Hn HH Hcl Hca Hr;
    cbn [operate cautious] in *.
  - wret. by exists L.
  - done.
  - apply cwp_bind, cwp_peek. eapply IH; [exact Hn|exact HH|exact Hcl|exact Hca|by apply replay_peek].
  - unfold acquire. destruct (shouldLock m) as [b|] eqn:Em; [|done]. rewrite <-Em. apply cwp_bind, (flag_wp _ _ _ _ _ _ Em).
    destruct b; [|wret; by eapply IH]. destruct Hca as [Hwr Hca]. eapply cwp_mono; [by apply acquire_wp|].
    intros ok f' [(-> & Hx & ->)|[(-> & Hx & u & ->)|(-> & Hx & Hal & ->)]].
    + eapply IH; [exact Hn| |exact Hcl|exact Hca|exact Hr]. intros y [->|Hy]%elem_of_cons; auto.
    + assert (cells f !! x = None) as Hnone by (apply eq_None_not_Some; by rewrite (n_dom _ _ _ Hn)).
      eapply IH; [by apply nhood_add| | |exact Hca|by apply replay_more].
      * intros y [->|Hy]%elem_of_cons; [by left|right; auto].
      * intros Ew y c Hy. cbn in Hy. apply lookup_insert_Some in Hy as [[_ <-]|[_ Hy]]; [done|by apply (Hcl Ew y)].
    + wret. exists L. split_and!; [done| |done]. apply Hcl. destruct wrote; [|done]. destruct Hx. auto.
  - destruct Hca as [Hx Hca]. destruct (nhood_in _ _ _ _ Hn (HH _ Hx)) as (c & Hc & _).
    apply cwp_bind, (cwp_load_data _ _ _ _ _ Hc). intros Hst.
    eapply IH; [exact Hn|exact HH|exact Hcl|by apply Hca|by eapply replay_load].
  - destruct Hca as (Hx & Hv & Hca). destruct (nhood_in _ _ _ _ Hn (HH _ Hx)) as (c & Hc & Hwo).
    apply cwp_bind, (cwp_store_data _ _ _ _ _ _ Hc); [by right|done|]. intros Hst.
    eapply (IH _ L H true); [by apply nhood_data|exact HH|done|exact Hca|by eapply replay_store].
Qed.

End Alone.

(** ** All threads *)

Hypothesis operator_cautious : ∀ v, good v → cautious stable fixed good [] false (operator v).
Context (activeThreads : nat).

Abbreviation config := (config (Item := Item) (V := V)).

(** What a thread owns where it is. *)
Definition control_ok (t : nat) (k : control) (f : frag) : Prop :=
  match k with
  | Idle => f = mkFrag None ∅
  | Operating v p => cwp False t p (visited False t v) f
  | Releasing _ _ p => cwp False t p (λ b f', ∃ L, nhood t f' L ∧ clean f' ∧ (b = false → L = [])) f
  end.

(** The items that threads have taken and not yet done. *)
Definition taken (k : control (Item := Item) (V := V)) : list Item :=
  match k with Operating v _ | Releasing v false _ => [v] | _ => [] end.
Definition in_flight (c : config) : list Item := concat ((λ t, taken (ctl c t)) <$> seq 0 activeThreads).

Lemma in_flight_set m l (c : nat → control) t k :
  t < activeThreads → ∃ r, in_flight (mkConfig m l c) ≡ₚ taken (c t) ++ r ∧
    in_flight (mkConfig m l (<[t := k]> c)) ≡ₚ taken k ++ r.
Proof.
  intros Ht. unfold in_flight. cbn. replace activeThreads with (t + S (activeThreads - S t)) by lia.
  rewrite seq_app. cbn [seq Nat.add]. rewrite !fmap_app, !concat_app. cbn [fmap list_fmap concat].
  assert (∀ l : list nat, t ∉ l → (λ u, taken ((<[t := k]> c) u)) <$> l = (λ u, taken (c u)) <$> l) as E.
  { clear. intros l Hl. apply list_fmap_ext. intros i u Hu. rewrite fn_lookup_insert_ne; [done|]. intros ->.
    apply Hl. by eapply list_elem_of_lookup_2. }
  rewrite !E, fn_lookup_insert by (rewrite elem_of_seq; lia).
  eexists. split; rewrite !(Permutation_app_comm _ (_ ++ _)), <-!app_assoc; reflexivity.
Qed.

(** [items] and [σ0] are those of the start. *)
Record inv (items : list Item) (σ0 : nat → V) (c : config) (σ : nat → V) (F : nat → frag) (l : list Item) : Prop := {
  i_world : world (mem c) σ F;
  i_ctl t : control_ok t (ctl c t) (F t);
  i_serial : rtc (serial_step stable operator) (items, σ0) (l, σ);
  i_items : l ≡ₚ pending c ++ in_flight c;
  i_good : Forall good l;
}.

Lemma start_inv items σ0 : steady σ0 → Forall good items → inv items σ0 (start items σ0) σ0 (λ _, mkFrag None ∅) items.
Proof.
  intros Hσ Hg. split; cbn; try done.
  - split; cbn; [done|by intros t x c ?%lookup_empty_Some|done|by intros t u x [? ?%lookup_empty_Some]| |done].
    intros x. right. intros t. apply lookup_empty.
  - unfold in_flight. cbn. rewrite <-(app_nil_r items) at 1. apply Permutation_app_head. clear. 
    generalize 0. induction activeThreads as [|n IH]; intros k; [done|]. cbn. apply IH.
Qed.

Lemma commit_ok t f L v d : nhood t f L → clean f → control_ok t (Releasing v d (commit_round ctx t)) f.
Proof.
  intros Hn Hcl. eapply cwp_mono; [by apply commit_wp|]. cbn. destruct L as [|x L].
  - intros b f' [-> ->]. by exists [].
  - intros b f' (-> & ? & ?). by exists L.
Qed.
Lemma process_wp alone t v :
  good v → cwp alone t (process ctx stable operator t v) (visited alone t v) (mkFrag None ∅).
Proof.
  intros Hv. assert (nhood t (mkFrag None ∅) []) as Hn by (by apply nhood_nil).
  apply cwp_bind, cwp_bind, cwp_load_locks, cwp_check. eapply operate_wp; [exact Hn|done| |by apply operator_cautious|].
  - intros _ x c Hx. cbn in Hx. by apply lookup_empty_Some in Hx.
  - intros σ τ _ _ _ Hτ. apply run_op_ext. intros x. rewrite Hτ. unfold view. cbn. by rewrite lookup_empty.
Qed.

(** The data that a thread has changed becomes that of the visits that have ended. *)
Definition settle (f : frag) : frag :=
  mkFrag (flocks f) ((λ c, mkCell (cword c) (cnext c) (cval c) (cval c)) <$> cells f).
Lemma settle_nhood t f L : nhood t f L → nhood t (settle f) L.
Proof.
  intros [Hc Hn Hd]. split; [|done|].
  - eapply list_frame; [|exact Hc]. intros x c _ Hx. cbn. rewrite lookup_fmap, Hx. by eexists.
  - intros x. cbn. by rewrite lookup_fmap, fmap_is_Some.
Qed.
Lemma settle_clean f : clean (settle f).
Proof. intros x c. cbn. rewrite lookup_fmap. by intros (d & _ & ->)%fmap_Some. Qed.

Lemma world_settle s σ σ' F t :
  world s σ F → (∀ x, σ' x = view (F t) σ x) → world s σ' (<[t := settle (F t)]> F).
Proof.
  intros Hw Hσ. set (F' := <[t := _]> F).
  assert (∀ u x, is_Some (cells (F' u) !! x) ↔ is_Some (cells (F u) !! x)) as E.
  { intros u x. unfold F'. destruct (decide (u = t)) as [->|Hu]; [|by rewrite fn_lookup_insert_ne].
    rewrite fn_lookup_insert. cbn. by rewrite lookup_fmap, fmap_is_Some. }
  split.
  - intros u. rewrite (w_ctx _ _ _ Hw). unfold F'.
    destruct (decide (u = t)) as [->|Hu]; [by rewrite fn_lookup_insert|by rewrite fn_lookup_insert_ne].
  - intros u x c. unfold F'. destruct (decide (u = t)) as [->|Hu].
    + rewrite fn_lookup_insert. cbn. rewrite lookup_fmap. intros (d & Hd & ->)%fmap_Some. cbn.
      destruct (w_cell _ _ _ Hw _ _ _ Hd) as (? & ? & _ & ?). split_and!; [done..| |done]. rewrite Hσ. unfold view. by rewrite Hd.
    + rewrite fn_lookup_insert_ne by done. intros Hc. rewrite Hσ. unfold view.
      rewrite (world_other _ _ _ u Hw t x c) by done. by apply (w_cell _ _ _ Hw).
  - intros x. split; [apply (w_stable _ _ _ Hw)|]. rewrite Hσ. by eapply world_view.
  - intros u u' x. rewrite !E. apply (w_disjoint _ _ _ Hw).
  - intros x. destruct (w_owned _ _ _ Hw x) as [[u Hu]|Hn]; [left; exists u; by rewrite E|right].
    intros u. apply eq_None_not_Some. rewrite E. by apply eq_None_not_Some.
  - intros x Hx. assert (∀ u, cells (F u) !! x = None) as Hn.
    { intros u. apply eq_None_not_Some. rewrite <-E. by apply eq_None_not_Some. }
    rewrite Hσ. unfold view. rewrite Hn. by apply (w_free _ _ _ Hw).
Qed.

(** An action of a thread. *)
Lemma action_ok {A} t (p p' : P A) Q s s' σ F :
  world s σ F → cwp False t p Q (F t) → prog_step p s = Some (Ok (p', s')) →
  ∃ F', world s' σ F' ∧ (∀ u, u ≠ t → F' u = F u) ∧ cwp False t p' Q (F' t).
Proof.
  intros Hw Hp Hs. destruct p as [|B g k]; [done|]. destruct (Hp s σ F Hw eq_refl ltac:(done)) as (b & s'' & F' & Hg & ? & ? & ?).
  cbn in Hs. rewrite Hg in Hs. injection Hs as <- <-. by exists F'.
Qed.

Lemma control_set (c : nat → control) (F F' : nat → frag) t k :
  (∀ u, control_ok u (c u) (F u)) → (∀ u, u ≠ t → F' u = F u) → control_ok t k (F' t) →
  ∀ u, control_ok u ((<[t := k]> c) u) (F' u).
Proof.
  intros Hc HF Hk u. destruct (decide (u = t)) as [->|Hu]; [by rewrite fn_lookup_insert|].
  rewrite fn_lookup_insert_ne, HF by done. apply Hc.
Qed.

Lemma items_set m m' l l' c t k (L L' : list Item) :
  t < activeThreads → L ≡ₚ l ++ in_flight (mkConfig m l c) →
  (∀ r, L ≡ₚ l ++ taken (c t) ++ r → L' ≡ₚ l' ++ taken k ++ r) →
  L' ≡ₚ l' ++ in_flight (mkConfig m' l' (<[t := k]> c)).
Proof.
  intros Ht HL Hr. destruct (in_flight_set m l c t k Ht) as (r & E1 & E2). rewrite E1 in HL.
  change (in_flight (mkConfig m' l' (<[t := k]> c))) with (in_flight (mkConfig m l (<[t := k]> c))). rewrite E2. auto.
Qed.

(** The operator has returned: this is where the visit takes place in the serial order. *)
Lemma commit_step items σ0 m l c σ F L t v ps :
  t < activeThreads → inv items σ0 (mkConfig m l c) σ F L → c t = Operating v (Ret (Some ps)) →
  ∃ σ' L', inv items σ0 (mkConfig m (l ++ ps) (<[t := Releasing v true (commit_round ctx t)]> c))
    σ' (<[t := settle (F t)]> F) L'.
Proof.
  intros Ht [Hw Hc Hs Hi Hg] E. cbn [mem ctl pending] in *. pose proof (Hc t) as Hct. rewrite E in Hct.
  destruct Hct as (N & Hn & Hr & Hps). assert (agrees (F t) σ) as Ha.
  { intros x d Hx. by apply (w_cell _ _ _ Hw) in Hx as (_ & _ & ? & _). }
  specialize (Hr σ (view (F t) σ) (λ x, proj2 (w_stable _ _ _ Hw x)) (world_view _ _ _ t Hw) Ha (λ x, eq_refl)).
  destruct (run_op stable (operator v) σ) as [[ps' σ']|] eqn:Er; [|done]. destruct Hr as [-> H2].
  assert (v ∈ L) as HvL.
  { destruct (in_flight_set m l c t Idle Ht) as (r & E1 & _). rewrite Hi, E1, E. set_solver. }
  apply list_elem_of_split in HvL as (l1 & l2 & ->). exists σ', (l1 ++ l2 ++ ps). split; cbn.
  - by apply (world_settle m σ).
  - apply (control_set c F); [done|intros u Hu; by rewrite fn_lookup_insert_ne|]. rewrite fn_lookup_insert.
    eapply commit_ok; [by apply settle_nhood|apply settle_clean].
  - eapply rtc_r; [exact Hs|]. by constructor.
  - eapply items_set; [done|exact Hi|]. intros r Hp. rewrite E in Hp. cbn in Hp |- *.
    rewrite <-!Permutation_middle in Hp. apply Permutation_cons_inv in Hp. rewrite app_assoc, Hp. solve_Permutation.
  - apply Forall_app in Hg as [? [_ ?]%list.Forall_cons]. by rewrite !Forall_app.
Qed.

Lemma inv_step items σ0 c c' σ F l t :
  t < activeThreads → inv items σ0 c σ F l → step ctx stable operator t c c' →
  ∃ σ' F' l', inv items σ0 c' σ' F' l'.
Proof.
  intros Ht [Hw Hc Hs Hi Hg] Hst. pose proof (Hc t) as Hct.
  destruct Hst as [m l1 v l2 c E|m p c v q q' m' E Hq|m p c v ps E|m p c v E|m p c v d q q' m' E Hq|m p c v d E|m p c v d E];
    cbn [mem ctl pending] in *; rewrite E in Hct; cbn [control_ok] in Hct.
  - exists σ, F, l. split; cbn; [done| |done| |done].
    + apply (control_set c F); [done..|]. rewrite Hct. apply process_wp.
      rewrite Hi in Hg. rewrite !Forall_app, list.Forall_cons in Hg. naive_solver.
    + eapply items_set; [done|exact Hi|]. intros r ->. rewrite E. cbn. solve_Permutation.
  - destruct (action_ok t q q' _ m m' σ F Hw Hct Hq) as (F' & Hw' & HF & Hq'). exists σ, F', l. split; cbn; [done| |done| |done].
    + by apply (control_set c F).
    + eapply items_set; [done|exact Hi|]. intros r ->. rewrite E. done.
  - destruct (commit_step items σ0 m p c σ F l t v ps) as (σ' & l' & Hinv); [done|done|done|]. eauto.
  - exists σ, F, l. destruct Hct as (L & Hn & Hcl & _). split; cbn; [done| |done| |done].
    + apply (control_set c F); [done..|]. by eapply commit_ok.
    + eapply items_set; [done|exact Hi|]. intros r ->. rewrite E. done.
  - destruct (action_ok t q q' _ m m' σ F Hw Hct Hq) as (F' & Hw' & HF & Hq'). exists σ, F', l. split; cbn; [done| |done| |done].
    + by apply (control_set c F).
    + eapply items_set; [done|exact Hi|]. intros r ->. rewrite E. done.
  - exists σ, F, l. destruct Hct as (L & Hn & Hcl & _). split; cbn; [done| |done| |done].
    + apply (control_set c F); [done..|]. by eapply commit_ok.
    + eapply items_set; [done|exact Hi|]. intros r ->. rewrite E. done.
  - exists σ, F, l. destruct Hct as (L & Hn & Hcl & HL). rewrite (HL eq_refl) in Hn. apply nhood_nil in Hn.
    split; cbn; [done| |done| |done].
    + by apply (control_set c F).
    + eapply items_set; [done|exact Hi|]. intros r ->. rewrite E. cbn. destruct d; cbn; solve_Permutation.
Qed.

Lemma reachable_inv items σ0 c :
  steady σ0 → Forall good items →
  rtc (any_step ctx stable activeThreads operator) (start items σ0) c → ∃ σ F l, inv items σ0 c σ F l.
Proof.
  intros Hσ Hg. revert c. apply rtc_ind_r.
  - do 3 eexists. by apply start_inv.
  - intros c c' _ (t & Ht & Hst) (σ & F & l & Hi). by eapply inv_step.
Qed.

(** A thread that is in a visit has a step. *)
Lemma cwp_step {A} t (p : P A) Q s σ F :
  world s σ F → cwp False t p Q (F t) → (∃ a, p = Ret a) ∨ ∃ p' s', prog_step p s = Some (Ok (p', s')).
Proof.
  intros Hw Hp. destruct p as [a|B g k]; [left; by eexists|right].
  destruct (Hp s σ F Hw eq_refl ltac:(done)) as (b & s' & F' & Hg & _). cbn. rewrite Hg. by do 2 eexists.
Qed.
Lemma busy_step c σ F t :
  world (mem c) σ F → control_ok t (ctl c t) (F t) → ctl c t ≠ Idle → ∃ c', step ctx stable operator t c c'.
Proof.
  destruct c as [m l c]. cbn. intros Hw Hc Hb. destruct (c t) as [|v p|v d p] eqn:E; [done|..].
  - destruct (cwp_step t p _ m σ F Hw Hc) as [[[ps|] ->]|(p' & m' & Hp)]; eexists.
    + by eapply commit.
    + by eapply abort.
    + by eapply operate_action.
  - destruct (cwp_step t p _ m σ F Hw Hc) as [[[] ->]|(p' & m' & Hp)]; eexists.
    + by eapply release_round.
    + by eapply release_done.
    + by eapply release_action.
Qed.

(** Between visits. *)
Lemma idle_free items σ0 c σ F l :
  inv items σ0 c σ F l → (∀ t, ctl c t = Idle) → ∀ x, lockables (mem c) x = mkLockable 0 None ∧ data (mem c) x = σ x.
Proof.
  intros [Hw Hc _ _ _] Hidle x. apply (w_free _ _ _ Hw). intros t. specialize (Hc t). rewrite Hidle in Hc. cbn in Hc.
  rewrite Hc. apply lookup_empty.
Qed.
Lemma idle_in_flight c : (∀ t, ctl c t = Idle) → in_flight c = [].
Proof.
  intros Hidle. unfold in_flight. generalize (seq 0 activeThreads) as ts.
  induction ts as [|t ts IH]; [done|]. cbn. by rewrite Hidle.
Qed.

(** C7: visits that run at the same time, interleaved access by access, have the effect of
    the same visits one after the other, for every operator that is cautious on items that are
    [good] and does not change the [stable] part of the data.  In every
    state that the threads reach: a thread that is in a visit has a next step, no
    assertion of the locks fails and none waits for another; there is an order of visits,
    one at a time, that leads to the same items (those in the lists and those of visits that
    have not ended) and to the data of all lockables that are free; and when no visit
    is going on all of them are free and out of every list. *)
Theorem visits_serializable items σ0 c :
  steady σ0 → Forall good items →
  rtc (any_step ctx stable activeThreads operator) (start items σ0) c →
  (∀ t, ctl c t ≠ Idle → ∃ c', step ctx stable operator t c c') ∧
  ∃ l σ, rtc (serial_step stable operator) (items, σ0) (l, σ) ∧ l ≡ₚ pending c ++ in_flight c ∧
    (∀ x, owner (lockables (mem c) x) = 0%Z → data (mem c) x = σ x) ∧
    ((∀ t, ctl c t = Idle) → ∀ x, lockables (mem c) x = mkLockable 0 None).
Proof.
  intros Hσ Hg Hr. destruct (reachable_inv items σ0 c Hσ Hg Hr) as (σ & F & l & [Hw Hc Hs Hi Hg']). split.
  - intros t Ht. by eapply busy_step.
  - exists l, σ. split_and!; [done..| |].
    + intros x Hx. destruct (w_owned _ _ _ Hw x) as [[t [d Hd]]|Hn]; [|by apply (w_free _ _ _ Hw)].
      apply (w_cell _ _ _ Hw) in Hd as (Hl & _ & _ & Hwo). rewrite Hl in Hx. cbn in Hx. pose proof (ctx_pos t). lia.
    + intros Hidle x. by apply (idle_free items σ0 c σ F l (Build_inv _ _ _ _ _ _ Hw Hc Hs Hi Hg') Hidle x).
Qed.

(** ** A thread alone *)

(** [c'] is reached from [c] by steps of [t], which leave the others and what they own. *)
Record runs (t : nat) (c : config) (F : nat → frag) (c' : config) (σ' : nat → V) (F' : nat → frag) : Prop := {
  r_steps : rtc (step ctx stable operator t) c c';
  r_world : world (mem c') σ' F';
  r_others u : u ≠ t → F' u = F u ∧ ctl c' u = ctl c u;
}.
Lemma runs_trans t c F c1 σ1 F1 c2 σ2 F2 : runs t c F c1 σ1 F1 → runs t c1 F1 c2 σ2 F2 → runs t c F c2 σ2 F2.
Proof.
  intros [H1 _ O1] [H2 W2 O2]. split; [by etrans|done|]. intros u Hu.
  destruct (O1 u Hu) as [<- <-]. by apply O2.
Qed.
Lemma runs_step t c F m l k σ' F' :
  step ctx stable operator t c (mkConfig m l (<[t := k]> (ctl c))) → world m σ' F' → (∀ u, u ≠ t → F' u = F u) →
  runs t c F (mkConfig m l (<[t := k]> (ctl c))) σ' F'.
Proof.
  intros Hs Hw HF. split; [by apply rtc_once|done|]. intros u Hu. cbn. rewrite fn_lookup_insert_ne by done. auto.
Qed.

Lemma run_actions {A} alone t (K : P A → control) (p : P A) Q c σ F :
  (∀ m l c p p' m', c t = K p → prog_step p m = Some (Ok (p', m')) →
    step ctx stable operator t (mkConfig m l c) (mkConfig m' l (<[t := K p']> c))) →
  world (mem c) σ F → ctl c t = K p → cwp alone t p Q (F t) → (alone → ∀ u, u ≠ t → cells (F u) = ∅) →
  ∃ c' F' a, runs t c F c' σ F' ∧ ctl c' t = K (Ret a) ∧ pending c' = pending c ∧ Q a (F' t).
Proof.
  intros HK. revert c F. induction p as [a|B g k IH]; intros c F Hw Hk Hp Ha.
  { exists c, F, a. split_and!; [split; auto; done|done..]. }
  destruct (Hp (mem c) σ F Hw eq_refl Ha) as (b & m' & F' & Hg & Hw' & HF & Hp').
  destruct (IH b (mkConfig m' (pending c) (<[t := K (k b)]> (ctl c))) F') as (c' & F'' & a & Hr & ?);
    [done|apply fn_lookup_insert|done|intros Hal u Hu; rewrite HF by done; by apply Ha|].
  exists c', F'', a. split; [|done]. eapply runs_trans; [|exact Hr]. apply runs_step; [|done..].
  destruct c as [m l c]. eapply HK; [exact Hk|]. cbn in *. by rewrite Hg.
Qed.

(** The loop of [commitIteration]. *)
Lemma release_ends t v (d : bool) L c σ F :
  world (mem c) σ F → ctl c t = Releasing v d (commit_round ctx t) → nhood t (F t) L → clean (F t) →
  ∃ c' F', runs t c F c' σ F' ∧ ctl c' t = Idle ∧ F' t = mkFrag None ∅ ∧ pending c' = pending c ++ if d then [] else [v].
Proof.
  revert c F. induction L as [|x L IH]; intros c F Hw Hk Hn Hcl.
  all: destruct (run_actions False t (Releasing v d) _ _ c σ F (λ m l c p p' m', release_action _ _ _ _ m l c v d p p' m') Hw Hk
    (commit_wp False t _ _ Hn Hcl) ltac:(done)) as ([m l k] & F' & b & Hr & Hk' & Hl & Hb); cbn in Hk', Hl; subst l.
  - destruct Hb as [-> Hf]. apply nhood_nil in Hn. rewrite <-Hf in Hn.
    exists (mkConfig m (pending c ++ if d then [] else [v]) (<[t := Idle]> k)), F'. split_and!; [|apply fn_lookup_insert|done..].
    eapply runs_trans; [exact Hr|]. apply (runs_step t (mkConfig m (pending c) k)); [by eapply release_done|apply Hr|done].
  - destruct Hb as (-> & Hn' & Hcl').
    destruct (IH (mkConfig m (pending c) (<[t := Releasing v d (commit_round ctx t)]> k)) F') as (c' & F'' & Hr' & ?);
      [apply Hr|apply fn_lookup_insert|done..|].
    exists c', F''. split; [|done]. eapply runs_trans; [exact Hr|]. eapply runs_trans; [|exact Hr'].
    apply (runs_step t (mkConfig m (pending c) k)); [by eapply release_round|apply Hr|done].
Qed.

(** The end of a visit whose operator has returned. *)
Lemma commit_ends t v ps L c σ F :
  world (mem c) σ F → ctl c t = Operating v (Ret (Some ps)) → nhood t (F t) L →
  ∃ c' F', runs t c F c' (view (F t) σ) F' ∧ ctl c' t = Idle ∧ F' t = mkFrag None ∅ ∧ pending c' = pending c ++ ps.
Proof.
  intros Hw Hk Hn. destruct c as [m l c]. cbn in *.
  destruct (release_ends t v true L (mkConfig m (l ++ ps) (<[t := Releasing v true (commit_round ctx t)]> c))
    (view (F t) σ) (<[t := settle (F t)]> F)) as (c' & F' & Hr & ? & ? & Hp).
  - by apply (world_settle m σ).
  - apply fn_lookup_insert.
  - rewrite fn_lookup_insert. by apply settle_nhood.
  - rewrite fn_lookup_insert. apply settle_clean.
  - exists c', F'. cbn in Hp. rewrite app_nil_r in Hp. split_and!; [|done..]. eapply runs_trans; [|exact Hr].
    apply (runs_step t (mkConfig m l c)); [by eapply commit|by apply (world_settle m σ)|].
    intros u Hu. by rewrite fn_lookup_insert_ne.
Qed.

Lemma thread_ends items σ0 c σ F l t :
  inv items σ0 c σ F l → ∃ c' σ' F', runs t c F c' σ' F' ∧ ctl c' t = Idle.
Proof.
  intros [Hw Hc _ _ _]. specialize (Hc t).
  destruct (ctl c t) as [|v p|v d p] eqn:E; [exists c, σ, F; split; [split; auto; done|done]|..]; cbn [control_ok] in Hc.
  - destruct (run_actions False t (Operating v) p _ c σ F (λ m l c p p' m', operate_action _ _ _ _ m l c v p p' m') Hw E Hc ltac:(done))
      as ([m1 l1 k1] & F1 & r & Hr1 & E1 & _ & L & Hn & Hr). destruct r as [ps|].
    + destruct (commit_ends t v ps L (mkConfig m1 l1 k1) σ F1) as (c' & F' & Hr' & ? & _); [apply Hr1|done..|].
      exists c', (view (F1 t) σ), F'. split; [by eapply runs_trans|done].
    + destruct (release_ends t v false L (mkConfig m1 l1 (<[t := Releasing v false (commit_round ctx t)]> k1)) σ F1)
        as (c' & F' & Hr' & ? & _); [apply Hr1|apply fn_lookup_insert|done|apply Hr|].
      exists c', σ, F'. split; [|done]. eapply runs_trans; [exact Hr1|]. eapply runs_trans; [|exact Hr'].
      apply (runs_step t (mkConfig m1 l1 k1)); [by eapply abort|apply Hr1|done].
  - destruct (run_actions False t (Releasing v d) p _ c σ F (λ m l c p p' m', release_action _ _ _ _ m l c v d p p' m') Hw E Hc ltac:(done))
      as ([m1 l1 k1] & F1 & b & Hr1 & E1 & _ & L & Hn & Hcl & Hb). cbn in E1. destruct b.
    + destruct (release_ends t v d L (mkConfig m1 l1 (<[t := Releasing v d (commit_round ctx t)]> k1)) σ F1)
        as (c' & F' & Hr' & ? & _); [apply Hr1|apply fn_lookup_insert|done..|].
      exists c', σ, F'. split; [|done]. eapply runs_trans; [exact Hr1|]. eapply runs_trans; [|exact Hr'].
      apply (runs_step t (mkConfig m1 l1 k1)); [by eapply release_round|apply Hr1|done].
    + exists (mkConfig m1 (l1 ++ if d then [] else [v]) (<[t := Idle]> k1)), σ, F1. split; [|apply fn_lookup_insert].
      eapply runs_trans; [exact Hr1|]. apply (runs_step t (mkConfig m1 l1 k1)); [by eapply release_done|apply Hr1|done].
Qed.

(** When nothing is going on, a thread visits an item at the first try. *)
Lemma visit_commits items σ0 c σ F l t l1 v l2 :
  inv items σ0 c σ F l → (∀ u, ctl c u = Idle) → pending c = l1 ++ v :: l2 →
  ∃ c' ps σ', rtc (step ctx stable operator t) c c' ∧ (∀ u, ctl c' u = Idle) ∧ pending c' = (l1 ++ l2) ++ ps ∧
    run_op stable (operator v) σ = Ok (ps, σ') ∧ ∀ x, data (mem c') x = σ' x.
Proof.
  intros [Hw Hc _ Hi Hg] Hidle Hp. destruct c as [m p c]. cbn in *. subst p.
  assert (∀ u, F u = mkFrag None ∅) as HF by (intros u; specialize (Hc u); by rewrite Hidle in Hc).
  assert (good v) as Hv by (rewrite Hi in Hg; rewrite !Forall_app, list.Forall_cons in Hg; naive_solver).
  set (c1 := mkConfig m (l1 ++ l2) (<[t := Operating v (process ctx stable operator t v)]> c)).
  destruct (run_actions True t (Operating v) (process ctx stable operator t v) (visited True t v) c1 σ F
    (λ m l c p p' m', operate_action _ _ _ _ m l c v p p' m')) as (c2 & F2 & r & Hr2 & E2 & Hp2 & L & Hn & Hr).
  { done. } { apply fn_lookup_insert. } { rewrite HF. by apply process_wp. } { intros _ u _. by rewrite HF. }
  destruct r as [ps|]; [|by destruct Hr as [_ []]]. destruct Hr as [Hr _].
  assert (agrees (F2 t) σ) as Ha by (intros x d Hx; by apply (w_cell _ _ _ (r_world _ _ _ _ _ _ Hr2)) in Hx as (_ & _ & ? & _)).
  specialize (Hr σ (view (F2 t) σ) (λ x, proj2 (w_stable _ _ _ Hw x)) (world_view _ _ _ t (r_world _ _ _ _ _ _ Hr2)) Ha (λ x, eq_refl)).
  destruct (run_op stable (operator v) σ) as [[ps' σ']|]; [|done]. destruct Hr as [-> Hσ'].
  destruct (commit_ends t v ps L c2 σ F2) as (c3 & F3 & Hr3 & E3 & HF3 & Hp3); [apply Hr2|done..|].
  exists c3, ps, σ'. assert (∀ u, F3 u = mkFrag None ∅) as HF3'.
  { intros u. destruct (decide (u = t)) as [->|Hu]; [done|].
    rewrite (proj1 (r_others _ _ _ _ _ _ Hr3 u Hu)), (proj1 (r_others _ _ _ _ _ _ Hr2 u Hu)). apply HF. }
  split_and!; [| |by rewrite Hp3, Hp2|done|].
  - eapply rtc_l; [by eapply take|]. etrans; [apply Hr2|apply Hr3].
  - intros u. destruct (decide (u = t)) as [->|Hu]; [done|].
    rewrite (proj2 (r_others _ _ _ _ _ _ Hr3 u Hu)), (proj2 (r_others _ _ _ _ _ _ Hr2 u Hu)). cbn.
    by rewrite fn_lookup_insert_ne.
  - intros x. rewrite Hσ'. apply (w_free _ _ _ (r_world _ _ _ _ _ _ Hr3)). intros u. rewrite HF3'. apply lookup_empty.
Qed.

(** ** All visits can be brought to an end *)

Abbreviation asteps := (rtc (any_step ctx stable activeThreads operator)).

Lemma steps_any t c c' : t < activeThreads → rtc (step ctx stable operator t) c c' → asteps c c'.
Proof. intros Ht. apply rtc_subrel. intros x y Hs. by exists t. Qed.

Lemma inactive_idle items σ0 c u : asteps (start items σ0) c → activeThreads <= u → ctl c u = Idle.
Proof.
  intros Hr Hu. revert c Hr. apply rtc_ind_r; [done|]. intros c c' _ (t & Ht & Hs) IH.
  assert (u ≠ t) by lia. by destruct Hs; cbn in *; rewrite fn_lookup_insert_ne.
Qed.
Lemma quiesce items σ0 c :
  steady σ0 → Forall good items → asteps (start items σ0) c → ∃ c', asteps c c' ∧ ∀ u, ctl c' u = Idle.
Proof.
  intros Hσ Hg Hr.
  assert (∀ n, n <= activeThreads → ∃ c', asteps c c' ∧ ∀ u, u < n → ctl c' u = Idle) as Hn.
  { induction n as [|n IH]; intros Hn; [exists c; split; [done|lia]|]. destruct IH as (c1 & H1 & Hidle); [lia|].
    destruct (reachable_inv items σ0 c1 Hσ Hg) as (σ & F & l & Hi); [by etrans|].
    destruct (thread_ends items σ0 c1 σ F l n Hi) as (c2 & σ2 & F2 & H2 & E2). exists c2. split.
    - etrans; [exact H1|]. eapply (steps_any n); [lia|apply H2].
    - intros u Hu. destruct (decide (u = n)) as [->|Hne]; [done|].
      rewrite (proj2 (r_others _ _ _ _ _ _ H2 u Hne)). apply Hidle. lia. }
  destruct (Hn activeThreads ltac:(lia)) as (c' & H1 & Hidle). exists c'. split; [done|]. intros u.
  destruct (decide (u < activeThreads)) as [|Hu]; [by apply Hidle|]. eapply inactive_idle; [by etrans|lia].
Qed.

End Facts.

(** ** Runs *)

Section Runs.
Context {Item V : Type} (ctx : nat → Z) (stable : V → V) (operator : Item → op (Item := Item) (V := V)).

(** The next step of the thread [t]; it takes the first pending item. *)
Definition next_step (t : nat) (c : config) : option config :=
  match c with
  | mkConfig m l k =>
      match k t with
      | Idle =>
          match l with
          | [] => None
          | v :: l' => Some (mkConfig m l' (<[t := Operating v (process ctx stable operator t v)]> k))
          end
      | Operating v (Ret (Some ps)) => Some (mkConfig m (l ++ ps) (<[t := Releasing v true (commit_round ctx t)]> k))
      | Operating v (Ret None) => Some (mkConfig m l (<[t := Releasing v false (commit_round ctx t)]> k))
      | Operating v p =>
          match prog_step p m with
          | Some (Ok (p', m')) => Some (mkConfig m' l (<[t := Operating v p']> k))
          | _ => None
          end
      | Releasing v d (Ret true) => Some (mkConfig m l (<[t := Releasing v d (commit_round ctx t)]> k))
      | Releasing v d (Ret false) => Some (mkConfig m (l ++ if d then [] else [v]) (<[t := Idle]> k))
      | Releasing v d p =>
          match prog_step p m with
          | Some (Ok (p', m')) => Some (mkConfig m' l (<[t := Releasing v d p']> k))
          | _ => None
          end
      end
  end.
(** Threads that have no step are passed over. *)
Fixpoint schedule (ts : list nat) (c : config) : config :=
  match ts with [] => c | t :: ts' => schedule ts' (default c (next_step t c)) end.

Lemma next_step_sound t c c' : next_step t c = Some c' → step ctx stable operator t c c'.
Proof.
  destruct c as [m l k]. cbn [next_step]. destruct (k t) as [|v [[ps|]|B g p]|v d [[]|B g p]] eqn:E.
  - destruct l as [|v l]; [done|]. intros [= <-]. by apply (take ctx stable operator t m [] v l k).
  - intros [= <-]. by eapply commit.
  - intros [= <-]. by eapply abort.
  - destruct (prog_step (Act g p) m) as [[[p' m']|]|] eqn:Ep; try done. intros [= <-]. by eapply operate_action.
  - intros [= <-]. by eapply release_round.
  - intros [= <-]. by eapply release_done.
  - destruct (prog_step (Act g p) m) as [[[p' m']|]|] eqn:Ep; try done. intros [= <-]. by eapply release_action.
Qed.
Lemma schedule_sound n ts c : Forall (λ t, t < n) ts → rtc (any_step ctx stable n operator) c (schedule ts c).
Proof.
  intros Ht. revert c. induction Ht as [|t ts Ht _ IH]; intros c; cbn; [done|].
  destruct (next_step t c) as [c'|] eqn:E; cbn; [|done].
  eapply rtc_l; [exists t; split; [done|by apply next_step_sound]|done].
Qed.
End Runs.

(** ** Two threads *)

Definition sample_ctx (t : nat) : Z := 16 * (Z.of_nat t + 1).
Lemma sample_ctx_pos t : (0 < sample_ctx t)%Z.
Proof. unfold sample_ctx. lia. Qed.
Lemma sample_ctx_even t : Z.even (sample_ctx t) = true.
Proof. unfold sample_ctx. by rewrite Z.even_mul. Qed.
Lemma sample_ctx_inj t u : sample_ctx t = sample_ctx u → t = u.
Proof. unfold sample_ctx. lia. Qed.

(** Data of which visits may change every part. *)
Definition no_part (x : nat) : nat := 0.

(** Two items whose visits acquire the same lockables in different orders. *)
Definition crossing (v : bool) : op (Item := bool) (V := nat) :=
  if v then Acquire 0 1 (Acquire 1 1 (Load 0 (λ x, Store 1 (x + 1) (Finish []))))
  else Acquire 1 1 (Acquire 0 1 (Load 1 (λ x, Store 0 (x + 1) (Finish [])))).
Lemma crossing_cautious v : True → cautious no_part (λ _, 0) (λ _, True) [] false (crossing v).
Proof.
  intros _. destruct v; cbn; split_and!; try done; try (intros w _); split_and!; try done; try constructor; set_solver.
Qed.
Lemma crossing_items : Forall (λ _ : bool, True) [true; false].
Proof. by repeat constructor. Qed.
Definition crossing_run (a b c : nat) : config :=
  schedule sample_ctx no_part crossing (replicate a 0 ++ replicate b 1 ++ replicate c 0) (start [true; false] (λ _, 0)).
Lemma crossing_reachable a b c :
  rtc (any_step sample_ctx no_part 2 crossing) (start [true; false] (λ _, 0)) (crossing_run a b c).
Proof. apply schedule_sound. apply Forall_app; split; [|apply Forall_app; split]; apply Forall_replicate; lia. Qed.

(** The second visit finds the first lockable taken and is tried again; the result is that
    of the first visit before the second. *)
Lemma visits_serializable_witness :
  pending (crossing_run 16 34 200) = [] ∧ data (mem (crossing_run 16 34 200)) 0 = 2 ∧ data (mem (crossing_run 16 34 200)) 1 = 1 ∧
  ∃ l σ, rtc (serial_step no_part crossing) ([true; false], λ _, 0) (l, σ) ∧ l ≡ₚ [] ∧ σ 0 = 2 ∧ σ 1 = 1.
Proof.
  destruct (visits_serializable sample_ctx no_part (λ _, 0) (λ _, True) sample_ctx_pos sample_ctx_even sample_ctx_inj crossing crossing_cautious 2
    [true; false] (λ _, 0) (crossing_run 16 34 200) (λ x, eq_refl) crossing_items (crossing_reachable 16 34 200)) as (_ & l & σ & Hs & Hl & Hd & _).
  split_and!; [vm_compute; reflexivity..|]. exists l, σ. split_and!; [exact Hs|exact Hl| |].
  - rewrite <-(Hd 0) by (vm_compute; reflexivity). vm_compute. reflexivity.
  - rewrite <-(Hd 1) by (vm_compute; reflexivity). vm_compute. reflexivity.
Defined.


(** A visit that acquires after it has written, as one that ends in a walk over the graph. *)
Definition late (v : bool) : op (Item := bool) (V := nat) :=
  if v then Acquire 0 1 (Load 0 (λ x, Store 0 (x + 1) (Acquire 1 1 (Finish [])))) else Acquire 1 1 (Finish []).
Definition late_run : config :=
  schedule sample_ctx no_part late ([0] ++ replicate 16 1 ++ replicate 35 0 ++ replicate 200 1) (start [true; false] (λ _, 0)).

Lemma late_serial l σ :
  rtc (serial_step no_part late) ([true; false], λ _, 0) (l, σ) → σ 0 + length (filter (λ v : bool, v = true) l) = 1.
Proof.
  intros Hr. change (σ 0) with ((l, σ).2 0). change (filter (λ v : bool, v = true) l) with (filter (λ v : bool, v = true) (l, σ).1).
  revert Hr. generalize (l, σ). clear l σ. apply rtc_ind_r; [done|]. intros p p' _ [l1 [] l2 σ ps σ' [= <- <-]]; cbn.
  - rewrite app_nil_r, !list.filter_app, !length_app, filter_cons_True, fn_lookup_insert by done. cbn. lia.
  - by rewrite app_nil_r, !list.filter_app, filter_cons_False by done.
Qed.

(** C39: what a visit has written stays when it is aborted.  When an operator acquires a
    lockable after it has written, its visit can be left by an exception and done
    again; there is a run of two threads, which ends with all visits done, whose result no order
    of visits one at a time has. *)
Theorem abort_keeps_writes :
  ∃ c, rtc (any_step sample_ctx no_part 2 late) (start [true; false] (λ _, 0)) c ∧ pending c = [] ∧ (∀ t, ctl c t = Idle) ∧
    ∀ l σ, rtc (serial_step no_part late) ([true; false], λ _, 0) (l, σ) → data (mem c) 0 ≠ σ 0.
Proof.
  exists late_run. split_and!.
  - apply schedule_sound. repeat (apply Forall_app; split); try (apply Forall_replicate; lia). repeat constructor.
  - vm_compute. reflexivity.
  - intros [|[|t]]; vm_compute; reflexivity.
  - intros l σ Hr. apply late_serial in Hr. assert (data (mem late_run) 0 = 2) as -> by (vm_compute; reflexivity). lia.
Qed.
