(* ===== verification/MarkingParallel.v ===== *)
(** * The marking loop by several threads

    The operator of the first loop of a step of [main] with its acquisitions of nodes and
    its reads and writes one by one, and all interleavings of its visits: how the loop of
    [Driver] comes out of the runtime of [Conflicts].

    The terrain is looked up between the reads and the write of a visit.  A conversion of
    coordinates is taken as indivisible: it does not depend on what other conversions left in
    the variables of the projection, but the code does not keep two of them apart. *)
From Stdlib Require Import Ascii String.
From stdpp Require Import gmap list functions relations.
From S2P Require Import Prelude Double Libm TranMerc Utm NumUtils Model TerrainMap.
From S2P Require Import MorphGraph GraphFacts GraphSpec Connectivity ConnFacts Conditions Mesh.
From S2P Require Import Refine Conformity Invariant Config Driver Marking Worklist Conflicts.

Local Abbreviation mark := (updData (setToRefine true)).

(** The data of a lockable is the node. *)
Local Abbreviation GOp := (op (Item := GNode) (V := gNode)).

Definition WRITE : Z := 1.

(** ** [MorphGraph] *)

Definition containsNode_op (n : GNode) (k : bool → GOp) : GOp :=
  Acquire n WRITE (Load n (λ nd, k (nd_active nd))).

(** [node->getData()] *)
Definition getData_op (n : GNode) (k : NodeData → GOp) : GOp := Load n (λ nd, k (nd_data nd)).

(** The loop of [edge_begin] over the entries. *)
Fixpoint acquire_dsts (l : list EdgeInfo) (k : GOp) : GOp :=
  match l with
  | [] => k
  | e :: l' =>
      Peek (first e) (λ p,
        if nd_active p && negb (isInEdge e) then Acquire (first e) WRITE (acquire_dsts l' k) else acquire_dsts l' k)
  end.
Definition edge_begin_op (n : GNode) (k : GOp) : GOp :=
  Acquire n WRITE (Load n (λ nd, acquire_dsts (nd_edges nd) k)).

Definition getEdgeDst_op (e : EdgeInfo) (k : GNode → GOp) : GOp :=
  Peek (first e) (λ p, if nd_active p then k (first e) else Fail AssertFail).

(** ** [ConnectivityManager] *)

(** The loop of [getNeighbours]; the iterator passes over the entries that are no out-edges. *)
Fixpoint neighbours_loop (l : list EdgeInfo) (vertices : list GNode) (k : list GNode → GOp) : GOp :=
  match l with
  | [] => k vertices
  | e :: l' =>
      Peek (first e) (λ p,
        if nd_active p && negb (isInEdge e)
        then getEdgeDst_op e (λ x, neighbours_loop l' (vertices ++ [x]) k)
        else neighbours_loop l' vertices k)
  end.
Definition getNeighbours_op (node : GNode) (k : list GNode → GOp) : GOp :=
  edge_begin_op node (Load node (λ nd, neighbours_loop (nd_edges nd) [] k)).

Fixpoint coords_loop (l : list GNode) (result : list Coordinates) (k : list Coordinates → GOp) : GOp :=
  match l with
  | [] => k result
  | x :: l' => getData_op x (λ d, coords_loop l' (result ++ [getCoords d]) k)
  end.
Definition getVerticesCoords_op (node : GNode) (k : list Coordinates → GOp) : GOp :=
  getNeighbours_op node (λ l, coords_loop l [] k).

(** ** The operator *)

Definition basicCondition_op (node : GNode) (k : bool → GOp) : GOp :=
  containsNode_op node (λ b, if b then getData_op node (λ d, k (isHyperEdge d)) else k false).

(** [nodeData.setToRefine(true)] *)
Definition mark_node (nd : gNode) : gNode := mkGNode (setToRefine true (nd_data nd)) (nd_edges nd) (nd_active nd).

Section Operator.
Context `{Libm}.
(** What the variables of the projection contain when a node is judged. *)
Context (fuel : nat) (cfg : Config) (m : Map) (u : GNode → Utm).

Definition Terrain_execute_op (node : GNode) : GOp :=
  getData_op node (λ nodeData,
    if negb (isHyperEdge nodeData) then Finish []
    else getVerticesCoords_op node (λ verticesCoords,
      match inside_condition fuel (tolerance cfg) m verticesCoords (u node) with
      | Ok (inside, _) => if negb inside then Finish [] else Load node (λ nd, Store node (mark_node nd) (Finish []))
      | Err e => Fail e
      end)).

Definition check_op (node : GNode) : GOp :=
  basicCondition_op node (λ b, if b then Terrain_execute_op node else Finish []).
End Operator.

(** ** What no visit of the loop changes *)

(** All but the flag. *)
Definition unmarked (nd : gNode) : gNode := mkGNode (setToRefine false (nd_data nd)) (nd_edges nd) (nd_active nd).

Lemma unmarked_eq nd nd' :
  unmarked nd = unmarked nd' →
  nd_edges nd = nd_edges nd' ∧ nd_active nd = nd_active nd' ∧ isHyperEdge (nd_data nd) = isHyperEdge (nd_data nd') ∧
  getCoords (nd_data nd) = getCoords (nd_data nd').
Proof. destruct nd as [[] ? ?], nd' as [[] ? ?]. cbn. by intros [= -> -> -> -> ->]. Qed.
Lemma unmarked_mark nd : unmarked (mark_node nd) = unmarked nd.
Proof. done. Qed.

Section Loop.
Context (g : Graph) (good : GNode → Prop).
Local Abbreviation fixed := (λ x, unmarked (node_at g x)).
Local Abbreviation careful := (cautious unmarked fixed good).

(** ** The reads of the operator *)

Lemma acquire_dsts_cautious held l k :
  (∀ held', (∀ x, x ∈ held → x ∈ held') → (∀ e, e ∈ l → is_out_edge g e = true → first e ∈ held') → careful held' false k) →
  careful held false (acquire_dsts l k).
Proof.
  revert held. induction l as [|e l IH]; intros held Hk; cbn [acquire_dsts cautious].
  { apply Hk; [done|]. by intros e ?%elem_of_nil. }
  change (nd_active _) with (active g (first e)). destruct (active g (first e) && negb (isInEdge e)) eqn:E.
  - cbn [cautious]. change (shouldLock WRITE) with (Ok true). cbn iota. split; [done|]. apply IH. intros held' Hh Hl. apply Hk.
    + intros x Hx. apply Hh. by right.
    + intros e' [->|He']%elem_of_cons; [|by apply Hl]. intros _. apply Hh. by left.
  - apply IH. intros held' Hh Hl. apply Hk; [done|]. intros e' [->|He']%elem_of_cons; [|by apply Hl].
    unfold is_out_edge. by rewrite E.
Qed.

Lemma neighbours_loop_cautious held l acc k :
  careful held false (k (acc ++ (first <$> filter (λ e, is_out_edge g e = true) l))) →
  careful held false (neighbours_loop l acc k).
Proof.
  revert acc. induction l as [|e l IH]; intros acc Hk; cbn [neighbours_loop cautious].
  { cbn in Hk. by rewrite app_nil_r in Hk. }
  change (nd_active _ && _) with (is_out_edge g e). rewrite filter_cons in Hk.
  destruct (decide (is_out_edge g e = true)) as [E|E%not_true_is_false]; rewrite E; [|by apply IH].
  apply andb_true_iff in E as [E _]. unfold getEdgeDst_op. cbn [cautious]. change (nd_active _) with (active g (first e)).
  rewrite E. apply IH. by rewrite <-app_assoc.
Qed.

Lemma coords_loop_cautious held l acc k :
  (∀ x, x ∈ l → x ∈ held) → careful held false (k (acc ++ ((λ x, getCoords (getData g x)) <$> l))) →
  careful held false (coords_loop l acc k).
Proof.
  revert acc. induction l as [|x l IH]; intros acc Hl Hk; cbn [coords_loop getData_op cautious].
  { cbn in Hk. by rewrite app_nil_r in Hk. }
  split; [apply Hl; by left|]. intros v (_ & _ & _ & Ev)%unmarked_eq. rewrite Ev.
  apply IH; [intros y Hy; apply Hl; by right|]. by rewrite <-app_assoc.
Qed.

Lemma getVerticesCoords_cautious held n k :
  n ∈ held → (∀ held', n ∈ held' → careful held' false (k (getVerticesCoords g n))) →
  careful held false (getVerticesCoords_op n k).
Proof.
  intros Hn Hk. unfold getVerticesCoords_op, getNeighbours_op, edge_begin_op. cbn [cautious].
  change (shouldLock WRITE) with (Ok true). cbn iota. split; [done|]. split; [by left|].
  intros v (Ev & _)%unmarked_eq. rewrite Ev. apply acquire_dsts_cautious. intros held' Hh Hl. cbn [cautious].
  split; [apply Hh; by left|]. intros w (Ew & _)%unmarked_eq. rewrite Ew. apply neighbours_loop_cautious, coords_loop_cautious.
  - intros x Hx. cbn in Hx. apply list_elem_of_fmap in Hx as (e & -> & [He1 He2]%list_elem_of_filter). by apply Hl.
  - apply Hk, Hh. by left.
Qed.

(** ** The operator alone *)

Section Alone.
Context (σ : nat → gNode).
Hypothesis Hσ : ∀ x, unmarked (σ x) = unmarked (node_at g x).

Lemma acquire_dsts_run l k : run_op unmarked (acquire_dsts l k) σ = run_op unmarked k σ.
Proof.
  induction l as [|e l IH]; [done|]. cbn [acquire_dsts run_op]. by destruct (nd_active _ && _).
Qed.
Lemma neighbours_loop_run l acc k :
  run_op unmarked (neighbours_loop l acc k) σ =
  run_op unmarked (k (acc ++ (first <$> filter (λ e, is_out_edge g e = true) l))) σ.
Proof.
  revert acc. induction l as [|e l IH]; intros acc; cbn [neighbours_loop run_op]; [by rewrite app_nil_r|].
  rewrite Hσ. change (nd_active _ && _) with (is_out_edge g e). rewrite filter_cons.
  destruct (decide (is_out_edge g e = true)) as [E|E%not_true_is_false]; rewrite E; [|by apply IH].
  apply andb_true_iff in E as [E _]. unfold getEdgeDst_op. cbn [run_op]. rewrite Hσ.
  change (nd_active _) with (active g (first e)). rewrite E, IH. by rewrite <-app_assoc.
Qed.
Lemma coords_loop_run l acc k :
  run_op unmarked (coords_loop l acc k) σ =
  run_op unmarked (k (acc ++ ((λ x, getCoords (getData g x)) <$> l))) σ.
Proof.
  revert acc. induction l as [|x l IH]; intros acc; cbn [coords_loop getData_op run_op]; [by rewrite app_nil_r|].
  destruct (unmarked_eq _ _ (Hσ x)) as (_ & _ & _ & E). rewrite E, IH. by rewrite <-app_assoc.
Qed.
Lemma getVerticesCoords_run n k :
  run_op unmarked (getVerticesCoords_op n k) σ = run_op unmarked (k (getVerticesCoords g n)) σ.
Proof.
  unfold getVerticesCoords_op, getNeighbours_op, edge_begin_op. cbn [run_op]. rewrite acquire_dsts_run. cbn [run_op].
  destruct (unmarked_eq _ _ (Hσ n)) as (E & _). rewrite E, neighbours_loop_run, coords_loop_run. done.
Qed.
End Alone.
End Loop.

Section Check.
Context `{Libm}.
Context (fuel : nat) (cfg : Config) (m : Map) (r : Run) (u : GNode → Utm).
Hypothesis same_u : ∀ n, same_ellipsoid (run_utm r) (u n).
Local Abbreviation g := (run_graph r).
Local Abbreviation fixed := (λ x, unmarked (node_at g x)).
Local Abbreviation tells := (can_tell fuel cfg m r).
Local Abbreviation operator := (check_op fuel cfg m u).

(** It does not matter what others have left in the variables. *)
Lemma judged_same n vs b u' :
  inside_condition fuel (tolerance cfg) m vs (run_utm r) = Ok (b, u') →
  ∃ u'', inside_condition fuel (tolerance cfg) m vs (u n) = Ok (b, u'').
Proof.
  intros E. pose proof (inside_condition_stateless fuel (tolerance cfg) m vs _ _ (same_u n)) as Hs. rewrite E in Hs.
  destruct (inside_condition fuel _ m vs (u n)) as [[b' u'']|]; [|done]. destruct Hs as [-> _]. eauto.
Qed.

Lemma check_op_cautious n : tells n → cautious unmarked fixed tells [] false (operator n).
Proof.
  intros Ht. unfold check_op, basicCondition_op, containsNode_op, Terrain_execute_op, getData_op. cbn [cautious].
  change (shouldLock WRITE) with (Ok true). cbn iota. split; [done|]. split; [by left|].
  intros v (_ & Ea & _)%unmarked_eq. rewrite Ea. destruct (nd_active (node_at g n)) eqn:Hb; [|by cbn].
  cbn [cautious]. split; [by left|]. intros w (_ & _ & Eh & _)%unmarked_eq. rewrite Eh.
  destruct (isHyperEdge (nd_data (node_at g n))) eqn:Hh; [|by cbn]. cbn [cautious]. split; [by left|].
  intros w' (_ & _ & Eh' & _)%unmarked_eq. rewrite Eh', Hh. cbn [negb].
  apply getVerticesCoords_cautious; [by left|]. intros held' Hn.
  destruct Ht as [[b u'] Ht]; [by unfold basicCondition, containsNode, active, getData; rewrite Hb, Hh|].
  destruct (judged_same n _ _ _ Ht) as [u'' ->].
  destruct b; cbn; [|done]. split; [done|]. intros nd Hnd. by rewrite unmarked_mark.
Qed.

Lemma check_op_run σ n :
  (∀ x, unmarked (σ x) = unmarked (node_at g x)) → tells n →
  run_op unmarked (operator n) σ = Ok ([], if to_mark fuel cfg m r n then <[n := mark_node (σ n)]> σ else σ).
Proof.
  intros Hσ Ht. unfold check_op, basicCondition_op, containsNode_op, Terrain_execute_op, getData_op. cbn [run_op].
  destruct (unmarked_eq _ _ (Hσ n)) as (_ & -> & Eh & _). unfold tells, to_mark, basicCondition, containsNode, getData in *.
  change (nd_active (node_at g n)) with (active g n) in *. destruct (active g n) eqn:Hb; [|done].
  cbn [run_op andb] in *. rewrite Eh. destruct (isHyperEdge (nd_data (node_at g n))) eqn:Hh; [|done].
  cbn [run_op negb andb]. rewrite Eh. cbn [negb]. rewrite (getVerticesCoords_run g) by done.
  destruct Ht as [[b u'] Ht]; [done|]. rewrite Ht. destruct (judged_same n _ _ _ Ht) as [u'' ->]. by destruct b.
Qed.

(** The data of the lockables is a graph. *)
Definition represents (g' : Graph) (σ : nat → gNode) : Prop := ∀ x, σ x = node_at g' x.

Lemma represents_mark g' σ n :
  active g' n = true → represents g' σ → represents (mark n g') (<[n := mark_node (σ n)]> σ).
Proof.
  intros Hn%active_lt Hr x. unfold updData. rewrite node_at_upd by done. case_decide as E.
  - subst x. by rewrite fn_lookup_insert, Hr.
  - by rewrite fn_lookup_insert_ne.
Qed.

Lemma serial_marks l σ g' σ' :
  represents g' σ → (∀ x, unmarked (σ x) = unmarked (node_at g x)) → (∀ n, n ∈ l → tells n) →
  rtc (serial_step unmarked operator) (l, σ) ([], σ') →
  represents (foldr mark g' (filter (λ n, to_mark fuel cfg m r n = true) l)) σ'.
Proof.
  intros Hg Hσ Hl Hr. remember (l, σ) as a. remember ([], σ') as b. revert l σ g' Hg Hσ Hl Heqa Heqb.
  induction Hr as [|a b c Hs _ IH]; intros l σ g' Hg Hσ Hl -> E; [by injection E as -> ->|].
  inversion Hs as [l1 n l2 τ ps τ' Ho]; subst. rewrite check_op_run in Ho; [|done|apply Hl; set_solver].
  injection Ho as <- <-. rewrite app_nil_r in IH.
  rewrite (foldr_permutation (=) mark g' _ (filter (λ n, to_mark fuel cfg m r n = true) (n :: l1 ++ l2)))
    by (intros; apply mark_comm || by rewrite <-Permutation_middle).
  assert (∀ k, k ∈ l1 ++ l2 → tells k) as Hl' by (intros k Hk; apply Hl; set_solver).
  rewrite filter_cons. destruct (decide (to_mark fuel cfg m r n = true)) as [E|E%not_true_is_false]; rewrite E in IH.
  2:{ by eapply IH. }
  cbn [foldr]. rewrite <-marks_comm. eapply IH; [|intros x|exact Hl'|done|done].
  - apply represents_mark; [|done]. unfold active. rewrite <-(Hg n).
    destruct (unmarked_eq _ _ (Hσ n)) as (_ & -> & _). by apply andb_true_iff in E as [[E _]%andb_true_iff _].
  - destruct (decide (x = n)) as [->|Hx]; [rewrite fn_lookup_insert; apply Hσ|by rewrite fn_lookup_insert_ne].
Qed.

Lemma marking_completes l ctx threads c :
  0 < threads → (∀ t, 0 < ctx t)%Z → (∀ t, Z.even (ctx t) = true) → (∀ t u, ctx t = ctx u → t = u) →
  (∀ n, n ∈ l → tells n) → rtc (any_step ctx unmarked threads operator) (start l (node_at g)) c →
  ∃ c', rtc (any_step ctx unmarked threads operator) c c' ∧ pending c' = [] ∧ ∀ t, ctl c' t = Idle.
Proof.
  intros Hth Hpos Heven Hinj Hl Hr.
  assert (Forall tells l) as Hg by (by apply list.Forall_forall).
  assert (∀ c, rtc (any_step ctx unmarked threads operator) (start l (node_at g)) c → (∀ t, ctl c t = Idle) →
    ∃ c', rtc (any_step ctx unmarked threads operator) c c' ∧ pending c' = [] ∧ ∀ t, ctl c' t = Idle) as Hidle.
  { clear c Hr. intros c. remember (length (pending c)) as n eqn:En. revert c En.
    induction n as [|n IH]; intros c En Hr Hi.
    { exists c. split_and!; [done| |done]. by apply nil_length_inv. }
    destruct (pending c) as [|v ps] eqn:Ep; [done|].
    destruct (reachable_inv ctx unmarked fixed tells Hpos Heven Hinj operator check_op_cautious threads l (node_at g) c)
      as (σ & F & l' & Hinv); [done..|].
    destruct (visit_commits ctx unmarked fixed tells Hpos Heven Hinj operator check_op_cautious threads _ _ c σ F l' 0 [] v ps Hinv Hi Ep)
      as (c1 & qs & σ1 & H1 & H2 & H3 & H4 & _).
    assert (qs = []) as ->.
    { rewrite check_op_run in H4; [by injection H4 as -> _| |].
      - intros x. apply (w_stable _ _ _ _ _ _ (i_world _ _ _ _ _ _ _ _ _ _ _ _ Hinv)).
      - pose proof (i_good _ _ _ _ _ _ _ _ _ _ _ _ Hinv) as Hgl. rewrite (i_items _ _ _ _ _ _ _ _ _ _ _ _ Hinv), Ep in Hgl.
        by apply list.Forall_cons in Hgl as [? _]. }
    apply (steps_any ctx unmarked operator threads 0 c c1) in H1; [|done].
    destruct (IH c1) as (c' & ? & ?); [|by etrans|done|].
    - rewrite H3. cbn in En |- *. rewrite app_nil_r. lia.
    - exists c'. split; [by etrans|done]. }
  destruct (quiesce ctx unmarked fixed tells Hpos Heven Hinj operator check_op_cautious threads l (node_at g) c)
    as (c1 & H1 & H2); [done..|].
  destruct (Hidle c1) as (c' & ? & ?); [by etrans|done|]. exists c'. split; [by etrans|done].
Qed.
End Check.


(** The triangle above the flat terrain; the second thread comes when the first has the nodes. *)
Definition marking_sample (a b c : nat) : config :=
  schedule sample_ctx unmarked (@check_op Libm_zero 5 above_config flat_map (λ _, Utm_init))
    (replicate a 0 ++ replicate b 1 ++ replicate c 0 ++ replicate c 1) (start [3; 0; 1; 2] (node_at above_ground)).
Lemma marking_sample_reachable a b c :
  rtc (any_step sample_ctx unmarked 2 (@check_op Libm_zero 5 above_config flat_map (λ _, Utm_init)))
    (start [3; 0; 1; 2] (node_at above_ground)) (marking_sample a b c).
Proof. apply schedule_sound. repeat (apply Forall_app; split); apply Forall_replicate; lia. Qed.

