(* ===== verification/SpinLock.v ===== *)
(** * [substrate/PtrLock.h], [libgalois/src/PtrLock.cpp]: critical sections

    A [PtrLock] is a spin lock and a pointer in one word, with the lock in the lowest bit.
    Threads run critical sections: each locks the word, reads and writes the pointer and the
    data that the lock protects, and unlocks it in one of three ways.  They are interleaved
    access by access.  The sections are arbitrary; that they are atomic is what [Worklist]
    takes for granted when it has one action for what a thread does under a lock. *)
From stdpp Require Import list functions relations.
From S2P Require Import Prelude FixedSizeRing Worklist Conflicts.

(** ** [lock] *)

(** The next access of [lock] and of [ptr_slow_lock], in the order of the code. *)
Inductive locking :=
  | LLoad
  | LCas (oldval : Z)
  | LAssert
  | SlowLoad
  | SlowFetch
  | SlowAssert.

Definition bit (w : Z) : bool := negb (Z.even w).

(** What an access can do to the word, and where it leads; [None] is the end.  There is
    no outcome while the thread spins. *)
Definition ptr_slow_lock (k : locking) (w : Z) : result (list (option locking * Z)) :=
  match k with
  | SlowLoad => Ok (if bit w then [] else [(Some SlowFetch, w)])
  | SlowFetch => Ok [(Some (if bit w then SlowLoad else SlowAssert), Z.lor w 1)]
  | SlowAssert => assert (negb (w =? 0)%Z);; Ok [(None, w)]
  | _ => Ok []
  end.
(** A weak exchange may fail although the word is the expected one. *)
Definition lock (k : locking) (w : Z) : result (list (option locking * Z)) :=
  match k with
  | LLoad => Ok [(Some (if bit w then SlowLoad else LCas w), w)]
  | LCas oldval => Ok ((if (w =? oldval)%Z then [(Some LAssert, Z.lor oldval 1)] else []) ++ [(Some SlowLoad, w)])
  | LAssert => assert (bit w);; Ok [(None, w)]
  | _ => ptr_slow_lock k w
  end.

(** ** [unlock], [unlock_and_clear], [unlock_and_set] *)

Inductive release := Unlock | UnlockAndClear | UnlockAndSet (val : Z).

Inductive unlocking :=
  | UAssert (r : release)
  | UAssertVal (val : Z)
  | ULoad
  | UStore (w : Z).

Definition unlock (k : unlocking) (w : Z) : result (option unlocking * Z) :=
  match k with
  | UAssert r =>
      assert (bit w);;
      Ok (Some (match r with Unlock => ULoad | UnlockAndClear => UStore 0 | UnlockAndSet val => UAssertVal val end), w)
  | UAssertVal val => assert (negb (bit val));; Ok (Some (UStore val), w)
  | ULoad => Ok (Some (UStore (Z.ldiff w 1)), w)
  | UStore w' => Ok (None, w')
  end.

(** ** Critical sections *)

(** Accesses to the protected data, [getValue] and [setValue]. *)
Inductive crit (D : Type) : Type :=
  | Done (r : release)
  | Access {B : Type} (f : D → result (B * D)) (k : B → crit D)
  | GetValue (k : Z → crit D)
  | SetValue (val : Z) (k : crit D).
Arguments Done {D} r.
Arguments Access {D B} f k.
Arguments GetValue {D} k.
Arguments SetValue {D} val k.

(** A section as one action on the pointer and the data. *)
Fixpoint run_crit {D} (p : crit D) (v : Z) (d : D) : result (Z * D) :=
  match p with
  | Done Unlock => Ok (v, d)
  | Done UnlockAndClear => Ok (0%Z, d)
  | Done (UnlockAndSet val) => Ok (val, d)
  | Access f k => x ← f d; run_crit (k x.1) v x.2
  | GetValue k => run_crit (k v) v d
  | SetValue val k => run_crit k val d
  end.

(** Pointers are even. *)
Fixpoint aligned {D} (p : crit D) : Prop :=
  match p with
  | Done (UnlockAndSet val) => Z.even val = true
  | Done _ => True
  | Access f k => ∀ b, aligned (k b)
  | GetValue k => ∀ v, Z.even v = true → aligned (k v)
  | SetValue val k => Z.even val = true ∧ aligned k
  end.

Section SpinLock.
Context {D Op : Type} (body : Op → crit D).

Inductive control :=
  | Outside
  | Locking (o : Op) (k : locking)
  | InSection (o : Op) (p : crit D)
  | Storing (o : Op) (nval : Z) (p : crit D)
  | Unlocking (o : Op) (k : unlocking).

(** [history] has the sections that have ended; it is not in the code. *)
Record config := mkConfig { word : Z; prot : D; ctl : nat → control; history : list Op }.

Inductive step (t : nat) : config → config → Prop :=
  | enter w d c h o : c t = Outside → step t (mkConfig w d c h) (mkConfig w d (<[t := Locking o LLoad]> c) h)
  | lock_access w d c h o k l k' w' :
      c t = Locking o k → lock k w = Ok l → (Some k', w') ∈ l →
      step t (mkConfig w d c h) (mkConfig w' d (<[t := Locking o k']> c) h)
  | lock_return w d c h o k l w' :
      c t = Locking o k → lock k w = Ok l → (None, w') ∈ l →
      step t (mkConfig w d c h) (mkConfig w' d (<[t := InSection o (body o)]> c) h)
  | data_access w d c h o B (f : D → result (B * D)) k b d' :
      c t = InSection o (Access f k) → f d = Ok (b, d') →
      step t (mkConfig w d c h) (mkConfig w d' (<[t := InSection o (k b)]> c) h)
  | get_value w d c h o k :
      c t = InSection o (GetValue k) →
      step t (mkConfig w d c h) (mkConfig w d (<[t := InSection o (k (Z.ldiff w 1))]> c) h)
  | set_value_load w d c h o val k :
      c t = InSection o (SetValue val k) →
      step t (mkConfig w d c h) (mkConfig w d (<[t := Storing o (Z.lor val (Z.land w 1)) k]> c) h)
  | set_value_store w d c h o nval k :
      c t = Storing o nval k → step t (mkConfig w d c h) (mkConfig nval d (<[t := InSection o k]> c) h)
  | section_end w d c h o r :
      c t = InSection o (Done r) → step t (mkConfig w d c h) (mkConfig w d (<[t := Unlocking o (UAssert r)]> c) h)
  | unlock_access w d c h o k k' w' :
      c t = Unlocking o k → unlock k w = Ok (Some k', w') →
      step t (mkConfig w d c h) (mkConfig w' d (<[t := Unlocking o k']> c) h)
  | unlock_return w d c h o k w' :
      c t = Unlocking o k → unlock k w = Ok (None, w') →
      step t (mkConfig w d c h) (mkConfig w' d (<[t := Outside]> c) (h ++ [o])).

Definition any_step (c c' : config) : Prop := ∃ t, step t c c'.

Definition start (v : Z) (d : D) : config := mkConfig v d (λ _, Outside) [].

(** Sections one after the other. *)
Fixpoint run_all (os : list Op) (v : Z) (d : D) : result (Z * D) :=
  match os with
  | [] => Ok (v, d)
  | o :: os' => x ← run_crit (body o) v d; run_all os' x.1 x.2
  end.

(** The section for which a thread has the lock. *)
Definition held (k : control) : option Op :=
  match k with
  | Locking o LAssert | Locking o SlowAssert | InSection o _ | Storing o _ _ | Unlocking o _ => Some o
  | _ => None
  end.
End SpinLock.

Section Facts.
Context {D Op : Type} (body : Op → crit D) (v0 : Z) (d0 : D).
Hypothesis body_aligned : ∀ o, aligned (body o).
Hypothesis v0_even : Z.even v0 = true.

Abbreviation control := (control (D := D) (Op := Op)).
Abbreviation config := (config (D := D) (Op := Op)).

(** What is left to do of the section that a thread is in, on the word and the data. *)
Definition target (k : unlocking) (w : Z) : Z :=
  match k with
  | UAssert Unlock | ULoad => Z.ldiff w 1
  | UAssert UnlockAndClear => 0
  | UAssert (UnlockAndSet val) | UAssertVal val => val
  | UStore w' => w'
  end.
Definition remaining (k : control) (w : Z) (d : D) : result (Z * D) :=
  match k with
  | Outside => Err UB
  | Locking o _ => run_crit (body o) (Z.ldiff w 1) d
  | InSection _ p => run_crit p (Z.ldiff w 1) d
  | Storing _ nval p => run_crit p (Z.ldiff nval 1) d
  | Unlocking _ k => Ok (target k w, d)
  end.
Definition tidy (k : control) : Prop :=
  match k with
  | Locking _ (LCas oldval) => Z.even oldval = true
  | InSection _ p => aligned p
  | Storing _ nval p => Z.even nval = false ∧ aligned p
  | Unlocking _ (UAssert (UnlockAndSet val)) | Unlocking _ (UAssertVal val) | Unlocking _ (UStore val) => Z.even val = true
  | _ => True
  end.

(** [v] and [d] are the pointer and the data as the sections that have ended left them. *)
Record inv (c : config) (v : Z) (d : D) : Prop := {
  i_history : run_all body (history c) v0 d0 = Ok (v, d);
  i_even : Z.even v = true;
  i_tidy t : tidy (ctl c t);
  i_mutex t u : is_Some (held (ctl c t)) → is_Some (held (ctl c u)) → t = u;
  i_state :
    (∃ t o, held (ctl c t) = Some o ∧ Z.even (word c) = false ∧
      remaining (ctl c t) (word c) (prot c) = run_crit (body o) v d) ∨
    ((∀ t, held (ctl c t) = None) ∧ word c = v ∧ prot c = d);
}.

Lemma ldiff_even w : Z.even (Z.ldiff w 1) = true.
Proof.
  destruct (Z.even w) eqn:E.
  - replace (Z.ldiff w 1) with w; [done|]. symmetry. apply Z.bits_inj'. intros n Hn. rewrite Z.ldiff_spec.
    destruct (Z.eq_dec n 0%Z) as [->|Hn0].
    + rewrite Z.bit0_odd, <-Z.negb_even, E. done.
    + replace (Z.testbit 1 n) with false; [by rewrite andb_true_r|]. symmetry. apply Z.bits_above_log2; cbn; lia.
  - replace w with (w - 1 + 1)%Z by lia. assert (Z.even (w - 1) = true) as E' by (by rewrite Z.even_sub, E).
    by rewrite ldiff_succ.
Qed.
Lemma ldiff_lor v : Z.even v = true → Z.ldiff (Z.lor v 1) 1 = v.
Proof. intros Hv. rewrite lor_even by done. by apply ldiff_succ. Qed.
Lemma even_lor v : Z.even (Z.lor v 1) = false.
Proof.
  destruct (Z.even v) eqn:E; [rewrite lor_even by done|by rewrite lor_odd]. by rewrite Z.even_add, E.
Qed.
Lemma land_bit w : Z.even w = false → Z.land w 1 = 1%Z.
Proof.
  intros Hw. change 1%Z with (Z.ones 1) at 1. rewrite Z.land_ones by lia. change (2 ^ 1)%Z with 2%Z. by rewrite Zmod_even, Hw.
Qed.

Lemma run_all_snoc os o v d v' d' :
  run_all body os v d = Ok (v', d') → run_all body (os ++ [o]) v d = run_crit (body o) v' d'.
Proof.
  revert v d. induction os as [|o' os IH]; intros v d; cbn.
  - intros [= <- <-]. by destruct (run_crit (body o) v d) as [[]|].
  - destruct (run_crit (body o') v d) as [[v1 d1]|]; [|done]. apply IH.
Qed.

Section Steps.
Context (w : Z) (d : D) (c : nat → control) (h : list Op) (v : Z) (d1 : D) (t : nat).
Hypothesis Hi : inv (mkConfig w d c h) v d1.

Lemma tidy_set k : tidy k → ∀ u, tidy ((<[t := k]> c) u).
Proof.
  intros Hk u. destruct (decide (u = t)) as [->|Hu]; [by rewrite fn_lookup_insert|].
  rewrite fn_lookup_insert_ne by done. apply (i_tidy _ _ _ Hi).
Qed.
(** Before a thread has the lock. *)
Lemma inv_wait k : held (c t) = None → held k = None → tidy k → inv (mkConfig w d (<[t := k]> c) h) v d1.
Proof.
  intros Ht Hk Htk. assert (∀ u, held ((<[t := k]> c) u) = held (c u)) as E.
  { intros u. destruct (decide (u = t)) as [->|Hu]; [by rewrite fn_lookup_insert, Hk, Ht|by rewrite fn_lookup_insert_ne]. }
  split; cbn; [apply Hi|apply Hi|by apply tidy_set| |].
  - intros u u'. rewrite !E. apply (i_mutex _ _ _ Hi).
  - destruct (i_state _ _ _ Hi) as [(u & o & Hu & Hw)|[Hn Hw]]; cbn in *; [left|right].
    + exists u, o. rewrite E, fn_lookup_insert_ne; [done|]. intros ->. by rewrite Ht in Hu.
    + split; [|done]. intros u. by rewrite E.
Qed.
(** It gets the lock. *)
Lemma inv_acquire k o :
  Z.even w = true → held k = Some o → tidy k → (∀ w' d', remaining k w' d' = run_crit (body o) (Z.ldiff w' 1) d') →
  inv (mkConfig (Z.lor w 1) d (<[t := k]> c) h) v d1.
Proof.
  intros Hw Hk Htk Hr. destruct (i_state _ _ _ Hi) as [(u & ? & _ & Hw' & _)|(Hn & Ev & Ed)]; cbn in *; [congruence|].
  split; cbn; [apply Hi|apply Hi|by apply tidy_set| |].
  - intros u u' Hu Hu'. assert (∀ x, is_Some (held ((<[t := k]> c) x)) → x = t) as E.
    { intros x Hx. destruct (decide (x = t)) as [|Hne]; [done|]. rewrite fn_lookup_insert_ne, Hn in Hx by done. by destruct Hx. }
    by rewrite (E u Hu), (E u' Hu').
  - left. exists t, o. rewrite fn_lookup_insert, Hr, even_lor, ldiff_lor, Ev, Ed by done. done.
Qed.
(** It has the lock. *)
Lemma inv_hold k o w' d' :
  held (c t) = Some o → held k = Some o → tidy k → Z.even w' = false → remaining k w' d' = remaining (c t) w d →
  inv (mkConfig w' d' (<[t := k]> c) h) v d1.
Proof.
  intros Ht Hk Htk Hw Hr. assert (∀ u, held ((<[t := k]> c) u) = held (c u)) as E.
  { intros u. destruct (decide (u = t)) as [->|Hu]; [by rewrite fn_lookup_insert, Hk, Ht|by rewrite fn_lookup_insert_ne]. }
  split; cbn; [apply Hi|apply Hi|by apply tidy_set| |].
  - intros u u'. rewrite !E. apply (i_mutex _ _ _ Hi).
  - left. exists t, o. rewrite fn_lookup_insert, Hr. split_and!; [done..|].
    destruct (i_state _ _ _ Hi) as [(u & o' & Hu & _ & Hru)|[Hn _]]; cbn in *; [|by rewrite Hn in Ht].
    assert (u = t) as -> by (apply (i_mutex _ _ _ Hi); cbn; rewrite ?Hu, ?Ht; by eexists). congruence.
Qed.
Lemma holder_odd o : held (c t) = Some o → Z.even w = false ∧ remaining (c t) w d = run_crit (body o) v d1.
Proof.
  intros Ht. destruct (i_state _ _ _ Hi) as [(u & o' & Hu & Hw & Hru)|[Hn _]]; cbn in *; [|by rewrite Hn in Ht].
  assert (u = t) as -> by (apply (i_mutex _ _ _ Hi); cbn; rewrite ?Hu, ?Ht; by eexists). split; [done|congruence].
Qed.
(** It gives the lock back. *)
Lemma inv_release o w' :
  held (c t) = Some o → remaining (c t) w d = Ok (w', d) → Z.even w' = true →
  inv (mkConfig w' d (<[t := Outside]> c) (h ++ [o])) w' d.
Proof.
  intros Ht Hr Hw. destruct (holder_odd o Ht) as [_ Hru].
  assert (∀ u, held ((<[t := Outside]> c) u) = None) as E.
  { intros u. destruct (decide (u = t)) as [->|Hu]; [by rewrite fn_lookup_insert|]. rewrite fn_lookup_insert_ne by done.
    destruct (held (c u)) eqn:Eu; [|done]. destruct Hu. apply (i_mutex _ _ _ Hi); cbn; rewrite ?Eu, ?Ht; by eexists. }
  split; cbn; [|done|by apply tidy_set| |by right].
  - rewrite (run_all_snoc _ _ _ _ _ _ (i_history _ _ _ Hi)). by rewrite <-Hru, Hr.
  - intros u u'. rewrite E. by intros [].
Qed.
End Steps.

Lemma lock_inv w d c h v d1 t o k l k' w' :
  inv (mkConfig w d c h) v d1 → c t = Locking o k → lock k w = Ok l → (Some k', w') ∈ l →
  inv (mkConfig w' d (<[t := Locking o k']> c) h) v d1.
Proof.
  intros Hi Hc Hl Hin. pose proof (i_tidy _ _ _ Hi t) as Ht. cbn in Ht. rewrite Hc in Ht.
  assert (∀ k', held (Locking (D := D) o k) = None → held (Locking (D := D) o k') = None → tidy (Locking o k') →
    inv (mkConfig w d (<[t := Locking o k']> c) h) v d1) as Hwait.
  { intros k1 H1 H2 H3. eapply inv_wait; [done|by rewrite Hc|done|done]. }
  destruct k as [|old| | | |]; cbn in Hl.
  - injection Hl as <-. apply list_elem_of_singleton in Hin as [= -> ->]. apply Hwait; [done|by destruct (bit w)|].
    unfold bit. destruct (Z.even w) eqn:E; cbn; [done|exact I].
  - injection Hl as <-. apply elem_of_app in Hin as [Hin|Hin].
    + destruct (Z.eqb_spec w old) as [<-|]; [|by apply elem_of_nil in Hin].
      apply list_elem_of_singleton in Hin as [= -> ->]. by eapply (inv_acquire _ _ _ _ _ _ _ Hi _ o).
    + apply list_elem_of_singleton in Hin as [= -> ->]. by apply Hwait.
  - unfold assert in Hl. destruct (bit w); [|done]. injection Hl as <-. by apply list_elem_of_singleton in Hin.
  - injection Hl as <-. destruct (bit w); [by apply elem_of_nil in Hin|].
    apply list_elem_of_singleton in Hin as [= -> ->]. by apply Hwait.
  - injection Hl as <-. apply list_elem_of_singleton in Hin as [= -> ->]. unfold bit. destruct (Z.even w) eqn:E; cbn [negb].
    + by eapply (inv_acquire _ _ _ _ _ _ _ Hi _ o).
    + rewrite lor_odd by done. by apply Hwait.
  - unfold assert in Hl. destruct (negb _); [|done]. injection Hl as <-. by apply list_elem_of_singleton in Hin.
Qed.

Lemma unlock_inv w d c h v d1 t o k k' w' :
  inv (mkConfig w d c h) v d1 → c t = Unlocking o k → unlock k w = Ok (Some k', w') →
  inv (mkConfig w' d (<[t := Unlocking o k']> c) h) v d1.
Proof.
  intros Hi Hc Hu. pose proof (i_tidy _ _ _ Hi t) as Ht. cbn in Ht. rewrite Hc in Ht.
  assert (held (c t) = Some o) as Hh by (by rewrite Hc). destruct (holder_odd _ _ _ _ _ _ _ Hi o Hh) as [Hw _].
  assert (w' = w ∧ tidy (Unlocking o k') ∧ target k' w = target k w) as (-> & Hk & He).
  { destruct k as [[]| | |]; cbn in Hu; unfold assert in Hu; cbn in Ht;
      repeat (case_match; try done); simplify_eq/=; split_and!; try done; apply ldiff_even. }
  eapply (inv_hold _ _ _ _ _ _ _ Hi _ o); [done|done|done|done|]. rewrite Hc. cbn. by rewrite He.
Qed.

Lemma sections_inv_step t c c' v d : inv c v d → step body t c c' → ∃ v' d', inv c' v' d'.
Proof.
  intros Hi Hs. pose proof (i_tidy _ _ _ Hi t) as Ht.
  assert (∀ o, held (ctl c t) = Some o → Z.even (word c) = false) as Hodd.
  { intros o Ho. destruct c as [w e k h]. by apply (holder_odd _ _ _ _ _ _ _ Hi o Ho). }
  destruct Hs as [w e c h o E|w e c h o k l k' w' E Hl Hin|w e c h o k l w' E Hl Hin|w e c h o B f k b e' E Hf|w e c h o k E|
    w e c h o val k E|w e c h o nval k E|w e c h o r E|w e c h o k k' w' E Hu|w e c h o k w' E Hu]; cbn in *; rewrite E in *; cbn in Ht.
  - exists v, d. eapply inv_wait; [done|by rewrite E|done|done].
  - exists v, d. by eapply lock_inv.
  - assert (w' = w ∧ (k = LAssert ∨ k = SlowAssert)) as [-> Hk].
    { destruct k; cbn in Hl; unfold assert in Hl; repeat (case_match; try done); simplify_eq/=; set_solver. }
    exists v, d. destruct Hk as [-> | ->].
    all: eapply (inv_hold _ _ _ _ _ _ _ Hi _ o); [by rewrite E|done|by apply body_aligned|by eapply Hodd|by rewrite E].
  - exists v, d. eapply (inv_hold _ _ _ _ _ _ _ Hi _ o); [by rewrite E|done|by apply Ht|by eapply Hodd|]. rewrite E. cbn. by rewrite Hf.
  - exists v, d. eapply (inv_hold _ _ _ _ _ _ _ Hi _ o); [by rewrite E|done|apply Ht, ldiff_even|by eapply Hodd|by rewrite E].
  - exists v, d. rewrite land_bit by (by eapply Hodd). eapply (inv_hold _ _ _ _ _ _ _ Hi _ o); [by rewrite E|done| |by eapply Hodd|].
    + split; [apply even_lor|apply Ht].
    + rewrite E. cbn. by rewrite ldiff_lor by apply Ht.
  - exists v, d. eapply (inv_hold _ _ _ _ _ _ _ Hi _ o); [by rewrite E|done|apply Ht|apply Ht|by rewrite E].
  - exists v, d. eapply (inv_hold _ _ _ _ _ _ _ Hi _ o); [by rewrite E|done| |by eapply Hodd|rewrite E].
    + by destruct r.
    + by destruct r.
  - exists v, d. by eapply unlock_inv.
  - exists w', e. eapply (inv_release _ _ _ _ _ _ _ Hi); [by rewrite E|rewrite E|].
    + destruct k; cbn in Hu |- *; unfold assert in Hu; repeat (case_match; try done); by simplify_eq/=.
    + destruct k; cbn in Hu; unfold assert in Hu; repeat (case_match; try done); by simplify_eq/=.
Qed.

Lemma sections_inv c : rtc (any_step body) (start v0 d0) c → ∃ v d, inv c v d.
Proof.
  revert c. apply rtc_ind_r.
  - exists v0, d0. split; cbn; try done. by right.
  - intros c c' _ [t Hs] (v & d & Hi). by eapply sections_inv_step.
Qed.

(** ** A thread that has the lock gives it back *)

Definition leaves (t : nat) (c : config) : Prop := ∃ c', rtc (step body t) c c' ∧ ctl c' t = Outside.

Lemma leaves_step t c c' : step body t c c' → leaves t c' → leaves t c.
Proof. intros Hs (c'' & Hr & ?). exists c''. split; [by eapply rtc_l|done]. Qed.

Lemma unlock_leaves t w d c h o k :
  c t = Unlocking o k → Z.even w = false → tidy (Unlocking o k) → leaves t (mkConfig w d c h).
Proof.
  intros Hc Hw Ht.
  assert (∀ c w' h, c t = Unlocking o (UStore w') → leaves t (mkConfig w d c h)) as Hst.
  { intros c1 w1 h1 H1. eapply leaves_step; [by eapply unlock_return|]. eexists. split; [apply rtc_refl|]. cbn. apply fn_lookup_insert. }
  assert (∀ c h, c t = Unlocking o ULoad → leaves t (mkConfig w d c h)) as Hld.
  { intros c1 h1 H1. eapply leaves_step; [by eapply unlock_access|]. eapply Hst, fn_lookup_insert. }
  assert (∀ c val h, Z.even val = true → c t = Unlocking o (UAssertVal val) → leaves t (mkConfig w d c h)) as Hval.
  { intros c1 val h1 Hv H1. eapply leaves_step; [eapply unlock_access; [done|]; cbn; unfold bit; by rewrite Hv|].
    eapply Hst, fn_lookup_insert. }
  destruct k as [r| | |]; [|by eapply Hval|by eapply Hld|by eapply Hst].
  eapply leaves_step; [eapply unlock_access; [done|]; cbn; unfold bit; by rewrite Hw|].
  destruct r; [eapply Hld|eapply Hst|eapply Hval; [exact Ht|]]; apply fn_lookup_insert.
Qed.

Lemma section_leaves t w d c h o p :
  c t = InSection o p → Z.even w = false → aligned p →
  leaves t (mkConfig w d c h) ∨ ∃ e, run_crit p (Z.ldiff w 1) d = Err e.
Proof.
  revert w d c. induction p as [r|B f k IH|k IH|val k IH]; intros w d c Hc Hw Ha; cbn in Ha |- *.
  - left. eapply leaves_step; [by eapply section_end|]. eapply unlock_leaves; [apply fn_lookup_insert|done|by destruct r].
  - destruct (f d) as [[b d']|e] eqn:Ef; [|right; by exists e]. cbn.
    destruct (IH b w d' (<[t := InSection o (k b)]> c)) as [Hl|He]; [apply fn_lookup_insert|done..| |by right].
    left. eapply leaves_step; [by eapply data_access|done].
  - destruct (IH (Z.ldiff w 1) w d (<[t := InSection o (k (Z.ldiff w 1))]> c)) as [Hl|He]; [apply fn_lookup_insert|done|apply Ha, ldiff_even| |by right].
    left. eapply leaves_step; [by eapply get_value|done].
  - destruct (IH (Z.lor val 1) d (<[t := InSection o k]> (<[t := Storing o (Z.lor val 1) k]> c))) as [Hl|He].
    + apply fn_lookup_insert.
    + apply even_lor.
    + apply Ha.
    + left. eapply leaves_step; [by eapply set_value_load|]. rewrite land_bit by done.
      eapply leaves_step; [eapply set_value_store, fn_lookup_insert|done].
    + right. by rewrite ldiff_lor in He by apply Ha.
Qed.

Lemma holder_leaves t c v d o :
  inv c v d → held (ctl c t) = Some o → leaves t c ∨ ∃ e, run_crit (body o) v d = Err e.
Proof.
  destruct c as [w e c h]. cbn. intros Hi Ho. destruct (holder_odd _ _ _ _ _ _ _ Hi o Ho) as [Hw Hr].
  pose proof (i_tidy _ _ _ Hi t) as Ht. cbn in Ht.
  assert (∀ k, k = LAssert ∨ k = SlowAssert → lock k w = Ok [(None, w)]) as Hl.
  { intros k [-> | ->]; cbn; unfold bit; [by rewrite Hw|by destruct w]. }
  destruct (c t) as [|o' k|o' p|o' nval p|o' k] eqn:E; cbn in Ho, Hr; [done|..].
  - destruct (section_leaves t w e (<[t := InSection o' (body o')]> c) h o' (body o')) as [H|H];
      [apply fn_lookup_insert|done|done| |destruct k; try done; injection Ho as ->; right; by rewrite <-Hr].
    left. eapply leaves_step; [|exact H]. eapply lock_return; [exact E|apply Hl; destruct k; auto; done|by left].
  - injection Ho as ->. rewrite <-Hr. by eapply section_leaves.
  - injection Ho as ->. destruct Ht as [Hn Ha].
    destruct (section_leaves t nval e (<[t := InSection o p]> c) h o p) as [H|H]; [apply fn_lookup_insert|done..| |].
    + left. eapply leaves_step; [by eapply set_value_store|done].
    + right. by rewrite <-Hr.
  - left. by eapply unlock_leaves.
Qed.

(** C11: critical sections under a [PtrLock] are atomic.  However the accesses of the threads
    are interleaved: at most one thread has the lock; the sections that have ended, one after
    the other in the order in which they ended, lead to the pointer and the data that are in
    memory when the lock is free; a thread that has the lock gives it back after some steps of
    its own, with no failed assertion, unless its section fails when it is run alone; and when
    the lock is free a thread that wants it does not spin. *)
Theorem sections_atomic c :
  rtc (any_step body) (start v0 d0) c →
  (∀ t u, is_Some (held (ctl c t)) → is_Some (held (ctl c u)) → t = u) ∧
  ∃ v d, run_all body (history c) v0 d0 = Ok (v, d) ∧
    ((∀ t, held (ctl c t) = None) → word c = v ∧ prot c = d) ∧
    (∀ t o, held (ctl c t) = Some o →
      (∃ c', rtc (step body t) c c' ∧ ctl c' t = Outside) ∨ ∃ e, run_crit (body o) v d = Err e) ∧
    ((∀ t, held (ctl c t) = None) → ∀ t o k, ctl c t = Locking o k → ∃ c', step body t c c').
Proof.
  intros Hr. destruct (sections_inv c Hr) as (v & d & Hi). split; [apply Hi|]. exists v, d. split; [apply Hi|].
  assert ((∀ t, held (ctl c t) = None) → word c = v ∧ prot c = d) as Hfree.
  { intros Hn. destruct (i_state _ _ _ Hi) as [(t & o & Ho & _)|[_ ?]]; [by rewrite Hn in Ho|done]. }
  split_and!; [done| |].
  - intros t o Ho. by eapply holder_leaves.
  - intros Hn t o k Ht. destruct (Hfree Hn) as [Hv _]. pose proof (Hn t) as Hk. rewrite Ht in Hk.
    destruct c as [w e c h]. cbn in *. pose proof (i_even _ _ _ Hi) as He.
    destruct k; cbn in Hk; try done; eexists; (eapply lock_access; [exact Ht|reflexivity|]); cbn.
    + by left.
    + apply elem_of_app. right. by left.
    + unfold bit. rewrite Hv, He. by left.
    + by left.
Qed.
End Facts.

(** ** Runs *)

Section Runs.
Context {D Op : Type} (body : Op → crit D) (op_of : nat → Op).

(** The next step of a thread, which runs one section again and again; an exchange fails only
    when it must. *)
Definition next_step (t : nat) (c : config (D := D) (Op := Op)) : option config :=
  let '(mkConfig w d k h) := c in
  match k t with
  | Outside => Some (mkConfig w d (<[t := Locking (op_of t) LLoad]> k) h)
  | Locking o l =>
      match lock l w with
      | Ok ((Some l', w') :: _) => Some (mkConfig w' d (<[t := Locking o l']> k) h)
      | Ok ((None, w') :: _) => Some (mkConfig w' d (<[t := InSection o (body o)]> k) h)
      | _ => None
      end
  | InSection o (Access f p) =>
      match f d with Ok (b, d') => Some (mkConfig w d' (<[t := InSection o (p b)]> k) h) | Err _ => None end
  | InSection o (GetValue p) => Some (mkConfig w d (<[t := InSection o (p (Z.ldiff w 1))]> k) h)
  | InSection o (SetValue val p) => Some (mkConfig w d (<[t := Storing o (Z.lor val (Z.land w 1)) p]> k) h)
  | Storing o nval p => Some (mkConfig nval d (<[t := InSection o p]> k) h)
  | InSection o (Done r) => Some (mkConfig w d (<[t := Unlocking o (UAssert r)]> k) h)
  | Unlocking o u =>
      match unlock u w with
      | Ok (Some u', w') => Some (mkConfig w' d (<[t := Unlocking o u']> k) h)
      | Ok (None, w') => Some (mkConfig w' d (<[t := Outside]> k) (h ++ [o]))
      | Err _ => None
      end
  end.
Fixpoint run_threads (ts : list nat) (c : config) : config :=
  match ts with [] => c | t :: ts' => run_threads ts' (default c (next_step t c)) end.

Lemma section_step_sound t c c' : next_step t c = Some c' → step body t c c'.
Proof.
  destruct c as [w d k h]. cbn [next_step]. destruct (k t) as [|o l|o [r|B f p|p|val p]|o nval p|o u] eqn:E.
  - intros [= <-]. by eapply enter.
  - destruct (lock l w) as [[|[[l'|] w'] r]|] eqn:El; try done; intros [= <-].
    + eapply lock_access; [done|done|by left].
    + eapply lock_return; [done|done|by left].
  - intros [= <-]. by eapply section_end.
  - destruct (f d) as [[b d']|] eqn:Ef; [|done]. intros [= <-]. by eapply data_access.
  - intros [= <-]. by eapply get_value.
  - intros [= <-]. by eapply set_value_load.
  - intros [= <-]. by eapply set_value_store.
  - destruct (unlock u w) as [[[u'|] w']|] eqn:Eu; try done; intros [= <-]; [by eapply unlock_access|by eapply unlock_return].
Qed.
Lemma run_threads_sound ts c : rtc (any_step body) c (run_threads ts c).
Proof.
  revert c. induction ts as [|t ts IH]; intros c; cbn; [done|]. destruct (next_step t c) as [c'|] eqn:E; cbn; [|done].
  eapply rtc_l; [exists t; by apply section_step_sound|done].
Qed.
End Runs.

(** The pointer counts the sections; one adds to the data, the other doubles it. *)
Definition sample_body (o : bool) : crit nat :=
  GetValue (λ v, Access (λ d, Ok (d, d)) (λ d, Access (λ _, Ok (tt, if o then d + 1 else d * 2)) (λ _ : unit,
    if o then SetValue (v + 2) (Done Unlock) else Done (UnlockAndSet (v + 2))))).
Lemma sample_body_aligned o : aligned (sample_body o).
Proof.
  intros v Hv d []. destruct o; cbn; rewrite Z.even_add, Hv; done.
Qed.
Definition sample_sections (a b c d : nat) : config :=
  run_threads sample_body (λ t, t =? 0) (replicate a 0 ++ replicate b 1 ++ replicate c 0 ++ replicate d 1) (start 0 3).

(** The second thread spins while the first is in its section. *)
Lemma sections_atomic_witness :
  ctl (sample_sections 6 3 0 0) 1 = Locking false SlowLoad ∧
  history (sample_sections 6 3 7 10) = [true; false] ∧
  ∃ v d, run_all sample_body [true; false] 0 3 = Ok (v, d) ∧ word (sample_sections 6 3 7 10) = v ∧ prot (sample_sections 6 3 7 10) = d.
Proof.
  destruct (sections_atomic sample_body 0 3 sample_body_aligned eq_refl (sample_sections 6 3 7 10)) as (_ & v & d & Hh & Hf & _).
  - apply run_threads_sound.
  - split_and!; [vm_compute; reflexivity..|]. exists v, d. split; [exact Hh|]. apply Hf. intros [|[|t]]; vm_compute; reflexivity.
Defined.
