(* ===== verification/TopoBarrier.v ===== *)
(** * [libgalois/src/Barrier_Topo.cpp]: [TopoBarrier]

    The barrier at which the threads of a loop meet.  The first thread of a socket, its
    leader, waits until the other threads of the socket and the leaders of the sockets
    below have arrived, and tells the socket above; when all have arrived the leaders
    wake each other along a second tree.

    The threads are interleaved access by access: [wait_step] is the next access of a
    thread to a shared variable, [None] while it spins.  The sockets and leaders of the
    threads are parameters; [TopoLaws] says what the barrier needs of them. *)
From stdpp Require Import list functions relations.
From S2P Require Import Prelude.

(** What the machine promises to the barrier: the [P] threads are on the sockets from 0 to
    [pkgs - 1], each of them with its leader, and thread 0 is the leader of socket 0. *)
Class TopoLaws (P pkgs : nat) (socket leader : nat → nat) : Prop := {
  tl_size : (Z.of_nat P < 2 ^ 31)%Z;
  tl_socket t : t < P → socket t < pkgs;
  tl_leader i : i < pkgs → leader i < P ∧ socket (leader i) = i;
  tl_first : 0 < pkgs ∧ leader 0 = 0;
}.

Section TopoBarrier.
Context (P pkgs : nat) (socket leader : nat → nat).

Definition u32 (x : Z) : Z := (x mod 2 ^ 32)%Z.

Record treenode := mkTreenode {
  parentpointer : option nat;
  childpointers : option nat * option nat;
  havechild : Z;
  childnotready : Z;
  parentsense : Z;
}.

Definition isLeader (t : nat) : bool := leader (socket t) =? t.

(** [if (cond(j)) ++n], for all [j] of a range *)
Definition count_up (cond : nat → bool) (l : list nat) (n : Z) : Z :=
  foldl (λ n j, if cond j then u32 (n + 1) else n) n l.

Definition new_node (i : nat) : treenode :=
  let n := count_up (λ j, 4 * i + j + 1 <? pkgs) (seq 0 4) 0 in
  let n := count_up (λ j, (socket j =? i) && negb (isLeader j)) (seq 0 P) n in
  mkTreenode (if i =? 0 then None else Some ((i - 1) / 4))
    (if pkgs <=? 2 * i + 1 then None else Some (2 * i + 1), if pkgs <=? 2 * i + 2 then None else Some (2 * i + 2))
    n n 0.

(** Where a thread is: not in [wait]; before the accesses of the code in their order. *)
Inductive place :=
  | Outside
  | Collect    (* while (n.childnotready) *)
  | Reset      (* n.childnotready = n.havechild *)
  | Notify     (* --n.parentpointer->childnotready *)
  | Arrive     (* --n.childnotready *)
  | Sleep      (* while (n.parentsense != s) *)
  | Wake0      (* n.childpointers[0]->parentsense = s *)
  | Wake1      (* n.childpointers[1]->parentsense = s *)
  | WakeSelf   (* n.parentsense = s *)
  | Leave.     (* ++s *)

#[export] Instance place_eq_dec : EqDecision place.
Proof. solve_decision. Defined.

(** [returned] counts the calls of [wait] that have returned; it is not in the code. *)
Record barrier := mkBarrier {
  nodes : nat → treenode;
  sense : nat → Z;
  places : nat → place;
  returned : nat → nat;
}.

Definition new_TopoBarrier : barrier := mkBarrier new_node (λ _, 1%Z) (λ _, Outside) (λ _, 0).

Definition goto (t : nat) (p : place) (b : barrier) : barrier :=
  mkBarrier (nodes b) (sense b) (<[t := p]> (places b)) (returned b).
Definition put_node (i : nat) (n : treenode) (b : barrier) : barrier :=
  mkBarrier (<[i := n]> (nodes b)) (sense b) (places b) (returned b).
Definition set_notready (i : nat) (x : Z) (b : barrier) : barrier :=
  let n := nodes b i in
  put_node i (mkTreenode (parentpointer n) (childpointers n) (havechild n) x (parentsense n)) b.
Definition set_parentsense (i : nat) (x : Z) (b : barrier) : barrier :=
  let n := nodes b i in
  put_node i (mkTreenode (parentpointer n) (childpointers n) (havechild n) (childnotready n) x) b.

(** The part of [wait] after the completion tree, and after the wait for the signal. *)
Definition signal (t : nat) : place := if isLeader t then Wake0 else Leave.
Definition await (t : nat) : place := if t =? 0 then signal t else Sleep.

Definition wait_step (t : nat) (b : barrier) : option barrier :=
  let i := socket t in
  let n := nodes b i in
  match places b t with
  | Outside => Some (goto t (if isLeader t then Collect else Arrive) b)
  | Collect => if (childnotready n =? 0)%Z then Some (goto t Reset b) else None
  | Reset =>
      Some (goto t (match parentpointer n with Some _ => Notify | None => await t end) (set_notready i (havechild n) b))
  | Notify =>
      match parentpointer n with
      | Some p => Some (goto t (await t) (set_notready p (u32 (childnotready (nodes b p) - 1)) b))
      | None => None
      end
  | Arrive => Some (goto t (await t) (set_notready i (u32 (childnotready n - 1)) b))
  | Sleep => if (parentsense n =? sense b t)%Z then Some (goto t (signal t) b) else None
  | Wake0 =>
      Some (goto t Wake1 (match (childpointers n).1 with Some c => set_parentsense c (sense b t) b | None => b end))
  | Wake1 =>
      Some (goto t (if t =? 0 then WakeSelf else Leave)
        (match (childpointers n).2 with Some c => set_parentsense c (sense b t) b | None => b end))
  | WakeSelf => Some (goto t Leave (set_parentsense i (sense b t) b))
  | Leave =>
      Some (mkBarrier (nodes b) (<[t := u32 (sense b t + 1)]> (sense b)) (<[t := Outside]> (places b))
        (<[t := S (returned b t)]> (returned b)))
  end.

Definition barrier_step (b b' : barrier) : Prop := ∃ t, t < P ∧ wait_step t b = Some b'.

(** The calls of [wait] that a thread has begun. *)
Definition entered (b : barrier) (t : nat) : nat :=
  match places b t with Outside => returned b t | _ => S (returned b t) end.

(** Threads in the given order, those that spin passed over. *)
Fixpoint run_barrier (ts : list nat) (b : barrier) : barrier :=
  match ts with [] => b | t :: ts' => run_barrier ts' (default b (wait_step t b)) end.

Lemma run_barrier_steps ts b : Forall (λ t, t < P) ts → rtc barrier_step b (run_barrier ts b).
Proof.
  intros Ht. revert b. induction Ht as [|t ts Ht _ IH]; intros b; cbn; [done|].
  destruct (wait_step t b) as [b'|] eqn:E; cbn; [|done]. eapply rtc_l; [by exists t|done].
Qed.
End TopoBarrier.

(** ** Counting *)

Lemma filter_same {A} (p q : A → Prop) `{!∀ x, Decision (p x), !∀ x, Decision (q x)} (l : list A) :
  (∀ x, x ∈ l → p x ↔ q x) → filter p l = filter q l.
Proof.
  induction l as [|x l IH]; intros E; [done|]. rewrite !filter_cons, IH by (intros y Hy; apply E; by right).
  assert (p x ↔ q x) by (apply E; by left). destruct (decide (p x)), (decide (q x)); tauto.
Qed.
Lemma filter_one `{EqDecision A} (p q : A → Prop) `{!∀ x, Decision (p x), !∀ x, Decision (q x)} (l : list A) (a : A) :
  NoDup l → a ∈ l → p a → ¬ q a → (∀ x, x ∈ l → x ≠ a → p x ↔ q x) →
  length (filter p l) = S (length (filter q l)).
Proof.
  intros Hn Ha Hp Hq Hpq. induction Hn as [|x l Hx Hn IH]; [by apply elem_of_nil in Ha|].
  rewrite !filter_cons. destruct (decide (x = a)) as [->|Hxa].
  - rewrite decide_True, decide_False by done. cbn. f_equal. f_equal. apply filter_same.
    intros y Hy. apply Hpq; [by right|]. by intros ->.
  - apply elem_of_cons in Ha as [Ha|Ha]; [done|]. assert (p x ↔ q x) as E by (apply Hpq; [by left|done]).
    destruct (decide (p x)), (decide (q x)); try tauto; cbn; [f_equal|]; apply IH; auto;
      intros y Hy; apply Hpq; by right.
Qed.
Lemma filter_nil_iff {A} (p : A → Prop) `{!∀ x, Decision (p x)} (l : list A) :
  length (filter p l) = 0 ↔ ∀ x, x ∈ l → ¬ p x.
Proof.
  rewrite length_zero_iff_nil. split.
  - intros E x Hx Hp. assert (x ∈ filter p l) as Hin by (by apply list_elem_of_filter). rewrite E in Hin. by apply elem_of_nil in Hin.
  - intros Hp. rewrite (filter_same p (λ _, False)) by (intros x Hx; specialize (Hp x Hx); tauto).
    clear. induction l as [|x l IH]; [done|]. by rewrite filter_cons_False by tauto.
Qed.

Lemma u32_small x : (0 <= x < 2 ^ 32)%Z → u32 x = x.
Proof. apply Z.mod_small. Qed.
(** Two numbers that differ by at most one are equal when their low bits are. *)
Lemma u32_next a b : a <= b <= S a → u32 (Z.of_nat b) = u32 (Z.of_nat (S a)) → b = S a.
Proof.
  unfold u32. intros Hab E. destruct (decide (b = S a)) as [|Hn]; [done|]. assert (b = a) as -> by lia. exfalso.
  assert ((Z.of_nat (S a) - Z.of_nat a) mod 2 ^ 32 = 0)%Z as H by (by rewrite Zminus_mod, <-E, Z.sub_diag).
  replace (Z.of_nat (S a) - Z.of_nat a)%Z with 1%Z in H by lia. done.
Qed.

(** ** The trees *)

Section Facts.
Context (P pkgs : nat) (socket leader : nat → nat) {L : TopoLaws P pkgs socket leader}.

Abbreviation isLeader := (isLeader socket leader).
Abbreviation wstep := (wait_step socket leader).
Abbreviation node0 := (new_node P pkgs socket leader).

Lemma leader_spec t : isLeader t = true ↔ leader (socket t) = t.
Proof. apply Nat.eqb_eq. Qed.
Lemma leader_is i : i < pkgs → isLeader (leader i) = true.
Proof. intros Hi. apply leader_spec. by rewrite (proj2 (tl_leader i Hi)). Qed.
Lemma leader_0 : leader 0 = 0.
Proof. apply tl_first. Qed.
Lemma socket_0 : socket 0 = 0.
Proof. rewrite <-leader_0 at 1. apply tl_leader, tl_first. Qed.
Lemma root_leader : isLeader 0 = true.
Proof. apply leader_spec. rewrite socket_0. apply leader_0. Qed.
Lemma leader_ne_0 t : isLeader t = true → t ≠ 0 → socket t ≠ 0.
Proof. rewrite leader_spec. intros E Ht Hs. rewrite Hs, leader_0 in E. done. Qed.

(** The node at which a thread other than 0 arrives, and the threads that arrive at a node. *)
Definition up (t : nat) : nat := if isLeader t then (socket t - 1) / 4 else socket t.
Definition children (i : nat) : list nat := filter (λ t, t ≠ 0 ∧ up t = i) (seq 0 P).

Lemma elem_children i t : t ∈ children i ↔ t < P ∧ t ≠ 0 ∧ up t = i.
Proof. unfold children. rewrite list_elem_of_filter, elem_of_seq. split; intros; split_and!; naive_solver lia. Qed.
Lemma children_nodup i : NoDup (children i).
Proof. apply list.NoDup_filter, NoDup_seq. Qed.
Lemma up_lt t : t < P → t ≠ 0 → up t < pkgs.
Proof.
  intros Ht Hn. unfold up. pose proof (tl_socket t Ht). destruct (isLeader t) eqn:E; [|done].
  pose proof (leader_ne_0 t E Hn). assert ((socket t - 1) / 4 <= socket t - 1) by (apply Nat.Div0.div_le_upper_bound; lia). lia.
Qed.
Lemma children_length i : length (children i) <= P.
Proof. unfold children. etrans; [apply length_filter|]. by rewrite length_seq. Qed.

Lemma count_up_filter cond (l : list nat) n :
  (0 <= n)%Z → (n + Z.of_nat (length l) < 2 ^ 32)%Z →
  count_up cond l n = (n + Z.of_nat (length (filter (λ j, cond j = true) l)))%Z.
Proof.
  revert n. induction l as [|j l IH]; intros n Hn Hl; [cbn; lia|]. cbn [length] in Hl.
  unfold count_up. cbn [foldl]. rewrite filter_cons.
  destruct (cond j) eqn:E.
  - rewrite u32_small by lia. rewrite decide_True by done. fold (count_up cond l (n + 1)). rewrite IH by lia. cbn [length]. lia.
  - rewrite decide_False by done. fold (count_up cond l n). rewrite IH by lia. lia.
Qed.

Lemma children_split i :
  i < pkgs →
  children i ≡ₚ ((λ j, leader (4 * i + j + 1)) <$> filter (λ j, (4 * i + j + 1 <? pkgs) = true) (seq 0 4)) ++
    filter (λ j, (socket j =? i) && negb (isLeader j) = true) (seq 0 P).
Proof.
  intros Hi. assert (∀ j, (4 * i + j + 1 <? pkgs) = true → leader (4 * i + j + 1) < P ∧
    socket (leader (4 * i + j + 1)) = 4 * i + j + 1 ∧ isLeader (leader (4 * i + j + 1)) = true) as Hl.
  { intros j Hj. apply Nat.ltb_lt in Hj. split_and!; [by apply tl_leader..|by apply leader_is]. }
  apply list.NoDup_Permutation; [apply children_nodup| |].
  - apply list.NoDup_app. split_and!; [| |apply list.NoDup_filter, NoDup_seq].
    + apply NoDup_fmap_2_strong; [|apply list.NoDup_filter, NoDup_seq]. intros j k [Hj _]%list_elem_of_filter [Hk _]%list_elem_of_filter E.
      apply Hl in Hj as (_ & Hj & _), Hk as (_ & Hk & _). rewrite E in Hj. lia.
    + intros t (j & -> & [Hj _]%list_elem_of_filter)%list_elem_of_fmap [Ht _]%list_elem_of_filter.
      apply Hl in Hj as (_ & _ & Hj). rewrite Hj, andb_false_r in Ht. done.
  - intros t. rewrite elem_children, elem_of_app, list_elem_of_fmap. setoid_rewrite list_elem_of_filter.
    setoid_rewrite elem_of_seq. split.
    + intros (Ht & Hn & Hu). unfold up in Hu. destruct (isLeader t) eqn:E.
      * left. pose proof (leader_ne_0 t E Hn). pose proof (tl_socket t Ht). pose proof (Nat.div_mod (socket t - 1) 4 ltac:(lia)).
        pose proof (Nat.mod_upper_bound (socket t - 1) 4 ltac:(lia)).
        exists ((socket t - 1) mod 4). replace (4 * i + (socket t - 1) mod 4 + 1) with (socket t) by lia.
        apply leader_spec in E. rewrite Nat.ltb_lt. split_and!; [done..|lia|lia].
      * right. rewrite Hu, Nat.eqb_refl. split; [done|lia].
    + intros [(j & -> & Hj & Hj4)|[[Hs Hnl]%andb_prop Ht]].
      * apply Hl in Hj as (H1 & H2 & H3). split_and!; [done| |].
        -- intros E. rewrite E, socket_0 in H2. lia.
        -- unfold up. rewrite H3, H2. symmetry. apply (Nat.div_unique _ 4 _ j); lia.
      * apply Nat.eqb_eq in Hs. apply negb_true_iff in Hnl. split_and!; [lia| |].
        -- intros ->. by rewrite root_leader in Hnl.
        -- unfold up. by rewrite Hnl.
Qed.
Lemma havechild_new i : i < pkgs → havechild (node0 i) = Z.of_nat (length (children i)).
Proof.
  intros Hi. pose proof (tl_size (leader := leader)) as Hsz. rewrite (children_split i Hi), length_app, length_fmap.
  set (l4 := filter _ (seq 0 4)). assert (length l4 <= 4) by (etrans; [apply length_filter|by rewrite length_seq]).
  unfold new_node. cbn [havechild]. rewrite (count_up_filter _ (seq 0 4)) by (rewrite ?length_seq; lia).
  fold l4. rewrite count_up_filter by (rewrite ?length_seq; lia). lia.
Qed.

(** ** What the places of the threads say of the variables *)

(** In its current call, a thread has arrived; a leader has collected; a thread is awake; a
    leader has woken its first, its second child, itself. *)
Definition has_arrived (p : place) : nat := match p with Sleep | Wake0 | Wake1 | WakeSelf | Leave => 1 | _ => 0 end.
Definition has_collected (p : place) : nat := match p with Notify => 1 | _ => has_arrived p end.
Definition is_awake (p : place) : nat := match p with Wake0 | Wake1 | WakeSelf | Leave => 1 | _ => 0 end.
Definition has_woken0 (p : place) : nat := match p with Wake1 | WakeSelf | Leave => 1 | _ => 0 end.
Definition has_woken1 (p : place) : nat := match p with WakeSelf | Leave => 1 | _ => 0 end.
Definition has_woken_self (p : place) : nat := match p with Leave => 1 | _ => 0 end.

(** How often a thread has arrived, a leader has collected, and a node was woken. *)
Definition arrivals (b : barrier) (t : nat) : nat := returned b t + has_arrived (places b t).
Definition collections (b : barrier) (i : nat) : nat := returned b (leader i) + has_collected (places b (leader i)).
Definition wakes (b : barrier) (i : nat) : nat :=
  if i =? 0 then returned b 0 + has_woken_self (places b 0)
  else
    let l := leader ((i - 1) / 2) in
    returned b l + (if Nat.odd i then has_woken0 else has_woken1) (places b l).

Definition place_ok (t : nat) (p : place) : Prop :=
  match p with
  | Outside | Leave => True
  | Arrive => isLeader t = false
  | Collect | Reset | Wake0 | Wake1 => isLeader t = true
  | Notify => isLeader t = true ∧ t ≠ 0
  | Sleep => t ≠ 0
  | WakeSelf => t = 0
  end.

Record inv (b : barrier) : Prop := {
  i_static i : i < pkgs → parentpointer (nodes b i) = parentpointer (node0 i) ∧
    childpointers (nodes b i) = childpointers (node0 i) ∧ havechild (nodes b i) = havechild (node0 i);
  i_count i : i < pkgs →
    childnotready (nodes b i) = Z.of_nat (length (filter (λ t, arrivals b t <= collections b i) (children i)));
  i_below t : t < P → t ≠ 0 → collections b (up t) <= arrivals b t;
  i_psense i : i < pkgs → parentsense (nodes b i) = u32 (Z.of_nat (wakes b i));
  i_sense t : t < P → sense b t = u32 (Z.of_nat (S (returned b t)));
  i_awake t : t < P → t ≠ 0 → returned b t + is_awake (places b t) <= wakes b (socket t);
  i_place t : t < P → place_ok t (places b t);
  i_reset t c : t < P → places b t = Reset → c ∈ children (socket t) → collections b (socket t) < arrivals b c;
}.

Section Reachable.
Context (b : barrier) (Hb : inv b).

Lemma collected_root i : i < pkgs → collections b 0 <= collections b i.
Proof.
  induction i as [i IH] using lt_wf_ind. intros Hi. destruct (decide (i = 0)) as [->|Hn]; [done|].
  destruct (tl_leader i Hi) as [Hl Hs]. assert (leader i ≠ 0) as Hl0 by (intros E; rewrite E, socket_0 in Hs; lia).
  pose proof (i_below _ Hb _ Hl Hl0) as Hbl. unfold up in Hbl. rewrite leader_is, Hs in Hbl by done.
  assert ((i - 1) / 4 <= i - 1) by (apply Nat.Div0.div_le_upper_bound; lia).
  specialize (IH ((i - 1) / 4) ltac:(lia) ltac:(lia)).
  unfold arrivals in Hbl. unfold collections at 2. assert (has_arrived (places b (leader i)) <= has_collected (places b (leader i)))
    by (by destruct (places b (leader i)); cbn; lia). lia.
Qed.
Lemma arrived_root t : t < P → t ≠ 0 → collections b 0 <= arrivals b t.
Proof. intros Ht Hn. etrans; [apply collected_root, up_lt, Hn; done|by apply (i_below _ Hb)]. Qed.
Lemma wakes_root i : i < pkgs → wakes b i <= collections b 0.
Proof.
  induction i as [i IH] using lt_wf_ind. intros Hi. unfold wakes. destruct (Nat.eqb_spec i 0) as [->|Hn].
  - unfold collections. rewrite leader_0. by destruct (places b 0); cbn; lia.
  - assert ((i - 1) / 2 <= i - 1) by (apply Nat.Div0.div_le_upper_bound; lia).
    destruct (tl_leader ((i - 1) / 2) ltac:(lia)) as [Hl Hs]. set (l := leader ((i - 1) / 2)) in *.
    assert ((if Nat.odd i then has_woken0 else has_woken1) (places b l) <= is_awake (places b l))
      by (destruct (Nat.odd i), (places b l); cbn; lia).
    destruct (decide (l = 0)) as [E|Hl0].
    + unfold collections. rewrite leader_0. rewrite E in *. by destruct (places b 0); cbn in *; lia.
    + pose proof (i_awake _ Hb l Hl Hl0) as Ha. rewrite Hs in Ha. specialize (IH ((i - 1) / 2) ltac:(lia) ltac:(lia)). lia.
Qed.
Lemma returned_root t : t < P → returned b t <= collections b 0.
Proof.
  intros Ht. destruct (decide (t = 0)) as [->|Hn]; [unfold collections; rewrite leader_0; lia|].
  pose proof (i_awake _ Hb t Ht Hn). pose proof (wakes_root (socket t) (tl_socket t Ht)). lia.
Qed.
Lemma arrivals_bound t : t < P → t ≠ 0 → arrivals b t <= S (collections b (up t)).
Proof.
  intros Ht Hn. pose proof (returned_root t Ht). pose proof (collected_root (up t) (up_lt t Ht Hn)).
  unfold arrivals. assert (has_arrived (places b t) <= 1) by (destruct (places b t); cbn; lia). lia.
Qed.
Lemma wakes_bound t : t < P → t ≠ 0 → returned b t <= wakes b (socket t) <= S (returned b t).
Proof.
  intros Ht Hn. pose proof (i_awake _ Hb t Ht Hn). pose proof (wakes_root (socket t) (tl_socket t Ht)).
  pose proof (arrived_root t Ht Hn). unfold arrivals in *.
  assert (has_arrived (places b t) <= 1) by (destruct (places b t); cbn; lia). lia.
Qed.
End Reachable.

Lemma barrier_start_inv : inv (new_TopoBarrier P pkgs socket leader).
Proof.
  split; cbn [nodes sense places returned new_TopoBarrier]; try done.
  - intros i Hi. transitivity (havechild (node0 i)); [done|]. rewrite havechild_new by done. do 2 f_equal.
    rewrite (filter_same _ (λ _, True)) by (intros; unfold arrivals, collections; cbn; split; [done|lia]).
    induction (children i) as [|x l IH]; [done|]. rewrite filter_cons_True by done. by rewrite <-IH.
  - intros i _. unfold wakes. cbn. by destruct (i =? 0), (Nat.odd i).
  - intros t _ _. cbn. lia.
Qed.

(** A step that changes none of the counters. *)
Lemma inv_same t b b' :
  inv b → nodes b' = nodes b →
  (∀ u, arrivals b' u = arrivals b u) → (∀ i, i < pkgs → collections b' i = collections b i) →
  (∀ i, i < pkgs → wakes b' i = wakes b i) →
  (∀ u, u ≠ t → sense b' u = sense b u ∧ places b' u = places b u ∧ returned b' u = returned b u) →
  sense b' t = u32 (Z.of_nat (S (returned b' t))) →
  (t ≠ 0 → returned b' t + is_awake (places b' t) <= wakes b (socket t)) → place_ok t (places b' t) →
  (places b' t = Reset → ∀ c, c ∈ children (socket t) → collections b (socket t) < arrivals b c) →
  inv b'.
Proof.
  intros Hb En Ea Ec Ew Eo Es Haw Hp Hr. split.
  - intros i. rewrite En. apply (i_static _ Hb).
  - intros i Hi. rewrite En, (i_count _ Hb i Hi). do 2 f_equal. apply filter_same. intros u _. by rewrite Ea, Ec.
  - intros u Hu Hu0. rewrite Ea, Ec by (by apply up_lt). by apply (i_below _ Hb).
  - intros i Hi. rewrite En, Ew by done. by apply (i_psense _ Hb).
  - intros u Hu. destruct (decide (u = t)) as [->|Hut]; [done|]. destruct (Eo u Hut) as (-> & _ & ->). by apply (i_sense _ Hb).
  - intros u Hu Hu0. rewrite Ew by (by apply tl_socket). destruct (decide (u = t)) as [->|Hut]; [by apply Haw|].
    destruct (Eo u Hut) as (_ & -> & ->). by apply (i_awake _ Hb).
  - intros u Hu. destruct (decide (u = t)) as [->|Hut]; [done|]. destruct (Eo u Hut) as (_ & -> & _). by apply (i_place _ Hb).
  - intros u c Hu. rewrite Ea, Ec by (by apply tl_socket). destruct (decide (u = t)) as [->|Hut]; [auto|].
    destruct (Eo u Hut) as (_ & -> & _). by apply (i_reset _ Hb).
Qed.

Definition counts_up (p p' : place) : Prop :=
  has_arrived p <= has_arrived p' ∧ has_collected p <= has_collected p' ∧ has_woken0 p <= has_woken0 p' ∧
  has_woken1 p <= has_woken1 p' ∧ has_woken_self p <= has_woken_self p'.

Section Moves.
Context (b : barrier) (t : nat) (p : place) (ns : nat → treenode).
Hypothesis Hb : inv b.
Hypothesis Hup : counts_up (places b t) p.

Definition moved : barrier := mkBarrier ns (sense b) (<[t := p]> (places b)) (returned b).

Lemma moved_arrivals u :
  (u ≠ t → arrivals moved u = arrivals b u) ∧ arrivals b u <= arrivals moved u.
Proof.
  unfold arrivals, moved. cbn. destruct (decide (u = t)) as [->|Hu]; [rewrite fn_lookup_insert|rewrite fn_lookup_insert_ne by done].
  - split; [done|]. destruct Hup. lia.
  - done.
Qed.
Lemma moved_collections i :
  (leader i ≠ t → collections moved i = collections b i) ∧ collections b i <= collections moved i.
Proof.
  unfold collections, moved. cbn. destruct (decide (leader i = t)) as [->|Hu]; [rewrite fn_lookup_insert|rewrite fn_lookup_insert_ne by done].
  - split; [done|]. destruct Hup as (_ & ? & _). lia.
  - done.
Qed.
Lemma moved_wakes i : wakes b i <= wakes moved i.
Proof.
  unfold wakes, moved. cbn [places returned]. destruct Hup as (_ & _ & H0 & H1 & H2). destruct (i =? 0).
  - destruct (decide (0 = t)) as [<-|Hu]; [rewrite fn_lookup_insert|rewrite fn_lookup_insert_ne by done]; lia.
  - destruct (decide (leader ((i - 1) / 2) = t)) as [->|Hu]; [rewrite fn_lookup_insert|rewrite fn_lookup_insert_ne by done]; [|lia].
    destruct (Nat.odd i); lia.
Qed.

(** A step that changes counters and nodes. *)
Lemma inv_moved :
  (∀ i, i < pkgs → parentpointer (ns i) = parentpointer (nodes b i) ∧ childpointers (ns i) = childpointers (nodes b i) ∧
    havechild (ns i) = havechild (nodes b i)) →
  (∀ i, i < pkgs →
    childnotready (ns i) = Z.of_nat (length (filter (λ u, arrivals moved u <= collections moved i) (children i)))) →
  (∀ u, u < P → u ≠ 0 → collections moved (up u) <= arrivals moved u) →
  (∀ i, i < pkgs → parentsense (ns i) = u32 (Z.of_nat (wakes moved i))) →
  (t ≠ 0 → returned b t + is_awake p <= wakes moved (socket t)) → place_ok t p → p ≠ Reset → inv moved.
Proof.
  intros Hst Hcn Hbl Hps Haw Hp Hr. split.
  - intros i Hi. cbn [nodes moved]. destruct (Hst i Hi) as (-> & -> & ->). by apply (i_static _ Hb).
  - done.
  - done.
  - done.
  - intros u Hu. by apply (i_sense _ Hb).
  - intros u Hu Hu0. cbn [places returned moved]. destruct (decide (u = t)) as [->|Hut]; [rewrite fn_lookup_insert; auto|].
    rewrite fn_lookup_insert_ne by done. pose proof (i_awake _ Hb u Hu Hu0). pose proof (moved_wakes (socket u)). lia.
  - intros u Hu. cbn [places moved]. destruct (decide (u = t)) as [->|Hut]; [by rewrite fn_lookup_insert|].
    rewrite fn_lookup_insert_ne by done. by apply (i_place _ Hb).
  - intros u c Hu. cbn [places moved]. destruct (decide (u = t)) as [->|Hut]; [by rewrite fn_lookup_insert|].
    rewrite fn_lookup_insert_ne by done. intros Hur Hc. pose proof (i_reset _ Hb u c Hu Hur Hc).
    pose proof (i_place _ Hb u Hu) as Hl. rewrite Hur in Hl. apply leader_spec in Hl.
    rewrite (proj1 (moved_collections _)) by congruence. pose proof (proj2 (moved_arrivals c)). lia.
Qed.
End Moves.

(** ** Every step keeps the invariant *)

Ltac other_fields := intros ?i ?Hi; cbn;
  match goal with |- context [<[?x := _]> _ ?i] => destruct (decide (i = x)) as [->|?]; [rewrite fn_lookup_insert|rewrite fn_lookup_insert_ne by done] end;
  done.

Section Steps.
Context (b : barrier) (t : nat).
Hypothesis Hb : inv b.
Hypothesis Ht : t < P.

Lemma barrier_quiet_step p :
  has_arrived p = has_arrived (places b t) → has_collected p = has_collected (places b t) →
  (isLeader t = true → has_woken0 p = has_woken0 (places b t) ∧ has_woken1 p = has_woken1 (places b t) ∧
    has_woken_self p = has_woken_self (places b t)) →
  (t ≠ 0 → returned b t + is_awake p <= wakes b (socket t)) → place_ok t p →
  (p = Reset → ∀ c, c ∈ children (socket t) → collections b (socket t) < arrivals b c) → inv (goto t p b).
Proof.
  intros Ea Ec Hwk Haw Hp Hr.
  assert (∀ f : place → nat, f p = f (places b t) → ∀ u, f ((<[t := p]> (places b)) u) = f (places b u)) as E.
  { intros f Ef u. destruct (decide (u = t)) as [->|Hu]; [by rewrite fn_lookup_insert|by rewrite fn_lookup_insert_ne]. }
  apply (inv_same t b); [done|done|..].
  - intros u. unfold arrivals. cbn. by rewrite (E has_arrived Ea).
  - intros i _. unfold collections. cbn. by rewrite (E has_collected Ec).
  - intros i Hi. destruct (isLeader t) eqn:Hl.
    + destruct (Hwk eq_refl) as (E0 & E1 & Es). unfold wakes. cbn [places returned goto].
      destruct (i =? 0); [by rewrite (E has_woken_self Es)|].
      destruct (Nat.odd i); [by rewrite (E has_woken0 E0)|by rewrite (E has_woken1 E1)].
    + assert (∀ j, j < pkgs → leader j ≠ t) as Hne by (intros j Hj <-; by rewrite leader_is in Hl).
      unfold wakes. cbn [places returned goto]. destruct (i =? 0) eqn:Ei.
      * rewrite fn_lookup_insert_ne; [done|]. rewrite <-leader_0. intros Et. by apply (Hne 0); [apply tl_first|].
      * apply Nat.eqb_neq in Ei. assert ((i - 1) / 2 <= i - 1) by (apply Nat.Div0.div_le_upper_bound; lia).
        rewrite fn_lookup_insert_ne; [done|]. intros Et. by apply (Hne ((i - 1) / 2)); [lia|].
  - intros u Hu. cbn. by rewrite fn_lookup_insert_ne.
  - by apply (i_sense _ Hb).
  - cbn. by rewrite fn_lookup_insert.
  - cbn. by rewrite fn_lookup_insert.
  - cbn. by rewrite fn_lookup_insert.
Qed.

Lemma leave_step :
  places b t = Leave →
  inv (mkBarrier (nodes b) (<[t := u32 (sense b t + 1)]> (sense b)) (<[t := Outside]> (places b))
        (<[t := S (returned b t)]> (returned b))).
Proof.
  intros E. set (b' := mkBarrier _ _ _ _).
  assert (∀ f : place → nat, f Outside = 0 → f Leave = 1 → ∀ u,
    returned b' u + f (places b' u) = returned b u + f (places b u)) as Ef.
  { intros f F0 F1 u. cbn. destruct (decide (u = t)) as [->|Hu]; [rewrite !fn_lookup_insert, E; lia|by rewrite !fn_lookup_insert_ne]. }
  apply (inv_same t b); [done|done|..].
  - intros u. by apply Ef.
  - intros i _. by apply Ef.
  - intros i _. unfold wakes. destruct (i =? 0); [by apply Ef|]. destruct (Nat.odd i); by apply Ef.
  - intros u Hu. cbn. by rewrite !fn_lookup_insert_ne.
  - cbn. rewrite !fn_lookup_insert, (i_sense _ Hb) by done. unfold u32. rewrite Zplus_mod_idemp_l. f_equal. lia.
  - intros Hn. cbn. rewrite !fn_lookup_insert. pose proof (i_awake _ Hb t Ht Hn) as Ha. rewrite E in Ha. cbn in *. lia.
  - cbn. by rewrite fn_lookup_insert.
  - cbn. by rewrite fn_lookup_insert.
Qed.

Lemma set_notready_eq p i x :
  goto t p (set_notready i x b) =
  moved b t p (<[i := mkTreenode (parentpointer (nodes b i)) (childpointers (nodes b i)) (havechild (nodes b i)) x
    (parentsense (nodes b i))]> (nodes b)).
Proof. done. Qed.

(** The last one has arrived: the leader starts to count anew. *)
Lemma reset_step p :
  places b t = Reset → p = match parentpointer (nodes b (socket t)) with Some _ => Notify | None => await socket leader t end →
  inv (goto t p (set_notready (socket t) (havechild (nodes b (socket t))) b)).
Proof.
  intros E Hp. pose proof (i_place _ Hb t Ht) as Hl. rewrite E in Hl. cbn in Hl. pose proof (tl_socket t Ht) as Hs.
  destruct (i_static _ Hb _ Hs) as (Epp & _ & Eh).
  assert (p = if t =? 0 then Wake0 else Notify) as Ep.
  { rewrite Hp, Epp. unfold new_node. cbn. destruct (Nat.eqb_spec t 0) as [->|Hn].
    - rewrite socket_0. cbn. unfold await, signal. cbn. by rewrite root_leader.
    - by rewrite (proj2 (Nat.eqb_neq _ _) (leader_ne_0 t Hl Hn)). }
  clear Hp. rewrite set_notready_eq. apply leader_spec in Hl.
  assert (counts_up (places b t) p) as Hup by (rewrite E, Ep; destruct (t =? 0); unfold counts_up; cbn; lia).
  assert (∀ ns u, u ≠ 0 → arrivals (moved b t p ns) u = arrivals b u) as Ea.
  { intros ns u Hu. destruct (decide (u = t)) as [->|Hut]; [|by apply (moved_arrivals b t p ns Hup u)].
    unfold arrivals. cbn. rewrite fn_lookup_insert, E, Ep, (proj2 (Nat.eqb_neq _ _) Hu). done. }
  assert (∀ ns, collections (moved b t p ns) (socket t) = S (collections b (socket t))) as Ecs.
  { intros ns. unfold collections. cbn. rewrite Hl, fn_lookup_insert, E, Ep. destruct (t =? 0); cbn; lia. }
  assert (∀ ns i, i < pkgs → i ≠ socket t → collections (moved b t p ns) i = collections b i) as Eco.
  { intros ns i Hi Hn. apply (moved_collections b t p ns Hup i). intros El. apply Hn. by rewrite <-El, (proj2 (tl_leader i Hi)). }
  apply (inv_moved b t p _ Hb Hup).
  - other_fields.
  - intros i Hi. destruct (decide (i = socket t)) as [->|Hn].
    + rewrite fn_lookup_insert. cbn [childnotready]. rewrite Eh, havechild_new by done. do 2 f_equal. symmetry.
      rewrite (filter_same _ (λ _, True)).
      * induction (children (socket t)) as [|x l IH]; [done|]. rewrite filter_cons_True by done. by rewrite IH.
      * intros u Hu. pose proof (i_reset _ Hb t u Ht E Hu). apply elem_children in Hu as (Hu & Hu0 & Eu).
        rewrite Ea, Ecs by done. pose proof (arrivals_bound b Hb u Hu Hu0). rewrite Eu in *. split; [done|lia].
    + rewrite fn_lookup_insert_ne, (i_count _ Hb i Hi) by done. do 2 f_equal. apply filter_same.
      intros u Hu. apply elem_children in Hu as (Hu & Hu0 & Eu). by rewrite Ea, Eco.
  - intros u Hu Hu0. rewrite Ea by done. destruct (decide (up u = socket t)) as [Eu|Eu].
    + rewrite Eu, Ecs. apply (i_reset _ Hb t u Ht E). by apply elem_children.
    + rewrite Eco by (done || by apply up_lt). by apply (i_below _ Hb).
  - intros i Hi. transitivity (parentsense (nodes b i)); [by revert i Hi; other_fields|]. rewrite (i_psense _ Hb i Hi). do 2 f_equal.
    unfold wakes. cbn [places returned moved]. destruct (Nat.eqb_spec i 0) as [->|Hi0].
    + destruct (decide (0 = t)) as [<-|Hu]; [|by rewrite fn_lookup_insert_ne]. by rewrite fn_lookup_insert, E, Ep.
    + destruct (decide (leader ((i - 1) / 2) = t)) as [El|Hu]; [|by rewrite fn_lookup_insert_ne].
      rewrite El, fn_lookup_insert, E, Ep. by destruct (t =? 0), (Nat.odd i).
  - intros Hn. pose proof (i_awake _ Hb t Ht Hn) as Ha. rewrite E in Ha. rewrite Ep at 1. rewrite (proj2 (Nat.eqb_neq _ _) Hn).
    etrans; [exact Ha|]. by apply (moved_wakes b t p).
  - rewrite Ep. destruct (Nat.eqb_spec t 0) as [->|Hn]; [apply root_leader|]. split; [by apply leader_spec|done].
  - rewrite Ep. by destruct (t =? 0).
Qed.

(** A thread arrives at its node. *)
Lemma arrive_step :
  t ≠ 0 → places b t = (if isLeader t then Notify else Arrive) →
  inv (goto t Sleep (set_notready (up t) (u32 (childnotready (nodes b (up t)) - 1)) b)).
Proof.
  intros Hn E. rewrite set_notready_eq. pose proof (up_lt t Ht Hn) as Hup.
  assert (counts_up (places b t) Sleep) as Hc by (rewrite E; destruct (isLeader t); unfold counts_up; cbn; lia).
  assert (arrivals b t = returned b t) as Eat by (unfold arrivals; rewrite E; destruct (isLeader t); cbn; lia).
  assert (∀ ns, arrivals (moved b t Sleep ns) t = S (returned b t)) as Eat'.
  { intros ns. unfold arrivals, moved. cbn [places returned]. rewrite fn_lookup_insert. cbn. lia. }
  assert (∀ ns u, u ≠ t → arrivals (moved b t Sleep ns) u = arrivals b u) as Ea by (intros ns u; apply (moved_arrivals b t _ ns Hc)).
  assert (∀ ns i, i < pkgs → collections (moved b t Sleep ns) i = collections b i) as Ec.
  { intros ns i Hi. destruct (decide (leader i = t)) as [El|Hl]; [|by apply (moved_collections b t _ ns Hc)].
    unfold collections, moved. cbn [places returned]. pose proof (leader_is i Hi) as Hlt. rewrite El in *. rewrite fn_lookup_insert, E, Hlt. done. }
  pose proof (arrived_root b Hb t Ht Hn) as Hroot. pose proof (i_below _ Hb t Ht Hn) as Hbl.
  pose proof (returned_root b Hb t Ht) as Hret. pose proof (collected_root b Hb _ Hup) as Hcr.
  match goal with |- inv (moved _ _ _ ?n) => set (ns := n) end. apply (inv_moved b t Sleep ns Hb Hc).
  - unfold ns. other_fields.
  - intros i Hi. destruct (decide (i = up t)) as [->|Hi'].
    + unfold ns at 1. rewrite fn_lookup_insert. cbn [childnotready]. rewrite (i_count _ Hb _ Hi).
      pose proof (length_filter (λ u, arrivals b u <= collections b (up t)) (children (up t))).
      pose proof (children_length (up t)). pose proof (tl_size (leader := leader)).
      pose proof (filter_one (λ u, arrivals b u <= collections b (up t))
        (λ u, arrivals (moved b t Sleep ns) u <= collections (moved b t Sleep ns) (up t)) (children (up t)) t) as Hone.
      assert (length (filter (λ u, arrivals b u <= collections b (up t)) (children (up t))) =
        S (length (filter (λ u, arrivals (moved b t Sleep ns) u <= collections (moved b t Sleep ns) (up t)) (children (up t)))))
        as Ef; [|rewrite Ef in *; rewrite u32_small; lia].
      apply Hone; [apply children_nodup|by apply elem_children|lia|rewrite Eat', Ec by done; lia|].
      intros u Hu Hut. by rewrite Ea, Ec.
    + unfold ns at 1. rewrite fn_lookup_insert_ne, (i_count _ Hb i Hi) by done. do 2 f_equal. apply filter_same.
      intros u Hu. apply elem_children in Hu as (Hu & Hu0 & Eu). rewrite Ec, Ea; [done| |done]. intros ->. done.
  - intros u Hu Hu0. rewrite Ec by (by apply up_lt). pose proof (i_below _ Hb u Hu Hu0).
    pose proof (proj2 (moved_arrivals b t Sleep ns Hc u)). lia.
  - intros i Hi. transitivity (parentsense (nodes b i)); [by unfold ns; revert i Hi; other_fields|]. rewrite (i_psense _ Hb i Hi). do 2 f_equal.
    unfold wakes, moved. cbn [places returned]. destruct (Nat.eqb_spec i 0) as [->|Hi0].
    + by rewrite fn_lookup_insert_ne.
    + destruct (decide (leader ((i - 1) / 2) = t)) as [El|Hu]; [|by rewrite fn_lookup_insert_ne].
      rewrite El, fn_lookup_insert, E. by destruct (isLeader t), (Nat.odd i).
  - intros _. pose proof (i_awake _ Hb t Ht Hn) as Ha. etrans; [|by apply (moved_wakes b t Sleep _ Hc)].
    change (is_awake Sleep) with 0. lia.
  - done.
  - done.
Qed.

(** A leader that is awake wakes a node. *)
Lemma wake_step p tgt b' :
  is_awake (places b t) = 1 → is_awake p = 1 → counts_up (places b t) p → isLeader t = true →
  place_ok t p →
  (∀ ns i, i < pkgs → wakes (moved b t p ns) i = if decide (i = tgt) then S (returned b t) else wakes b i) →
  (tgt < pkgs ∧ b' = set_parentsense tgt (sense b t) b ∨ pkgs <= tgt ∧ b' = b) →
  inv (goto t p b').
Proof.
  intros Haw Haw' Hc Hl Hp Hwk Hb'.
  assert (∀ q, is_awake q = 1 → has_arrived q = 1 ∧ has_collected q = 1 ∧ q ≠ Reset) as Hq by (by intros []).
  destruct (Hq _ Haw) as (A1 & A2 & _), (Hq _ Haw') as (B1 & B2 & B3).
  assert (∀ ns u, arrivals (moved b t p ns) u = arrivals b u) as Ea.
  { intros ns u. destruct (decide (u = t)) as [->|Hut]; [|by apply (moved_arrivals b t p ns Hc)].
    unfold arrivals, moved. cbn [places returned]. rewrite fn_lookup_insert. lia. }
  assert (∀ ns i, collections (moved b t p ns) i = collections b i) as Ec.
  { intros ns i. destruct (decide (leader i = t)) as [El|Hn]; [|by apply (moved_collections b t p ns Hc)].
    unfold collections, moved. cbn [places returned]. rewrite El, fn_lookup_insert. lia. }
  assert (goto t p b' = moved b t p (nodes b')) as ->.
  { destruct Hb' as [[_ ->]|[_ ->]]; done. }
  assert (∀ i, parentpointer (nodes b' i) = parentpointer (nodes b i) ∧ childpointers (nodes b' i) = childpointers (nodes b i) ∧
    havechild (nodes b' i) = havechild (nodes b i) ∧ childnotready (nodes b' i) = childnotready (nodes b i)) as Hf.
  { destruct Hb' as [[_ ->]|[_ ->]]; [|done]. intros i. cbn [nodes set_parentsense put_node].
    destruct (decide (i = tgt)) as [->|?]; [by rewrite fn_lookup_insert|by rewrite fn_lookup_insert_ne]. }
  apply (inv_moved b t p _ Hb Hc).
  - intros i _. destruct (Hf i) as (? & ? & ? & _). done.
  - intros i Hi. rewrite (proj2 (proj2 (proj2 (Hf i)))), (i_count _ Hb i Hi). do 2 f_equal. apply filter_same. intros u _. by rewrite Ea, Ec.
  - intros u Hu Hu0. rewrite Ea, Ec. by apply (i_below _ Hb).
  - intros i Hi. rewrite Hwk by done. destruct Hb' as [[Htg ->]|[Htg ->]].
    + cbn [nodes set_parentsense put_node]. case_decide as Ei.
      * subst i. rewrite fn_lookup_insert. cbn [parentsense]. by apply (i_sense _ Hb).
      * rewrite fn_lookup_insert_ne by done. by apply (i_psense _ Hb).
    + rewrite decide_False by lia. by apply (i_psense _ Hb).
  - intros Hn. pose proof (i_awake _ Hb t Ht Hn) as Ha. etrans; [|by apply (moved_wakes b t p _ Hc)]. lia.
  - done.
  - done.
Qed.

Lemma wakes_moved p ns i :
  isLeader t = true → i < pkgs →
  wakes (moved b t p ns) i =
    if decide (i = 0) then (if decide (t = 0) then returned b t + has_woken_self p else wakes b i)
    else if decide ((i - 1) / 2 = socket t) then returned b t + (if Nat.odd i then has_woken0 else has_woken1) p
    else wakes b i.
Proof.
  intros Hl Hi. apply leader_spec in Hl. unfold wakes, moved. cbn [places returned].
  destruct (Nat.eqb_spec i 0) as [->|Hi0]; [rewrite (decide_True (P := 0 = 0)) by done|rewrite (decide_False (P := i = 0)) by done].
  - case_decide as E; [rewrite E, fn_lookup_insert; done|by rewrite fn_lookup_insert_ne].
  - assert ((i - 1) / 2 <= i - 1) by (apply Nat.Div0.div_le_upper_bound; lia).
    destruct (tl_leader ((i - 1) / 2) ltac:(lia)) as [_ Hs]. case_decide as E.
    + rewrite E, Hl, fn_lookup_insert. done.
    + rewrite fn_lookup_insert_ne; [done|]. intros El. apply E. by rewrite El, Hs.
Qed.

Lemma half_odd i s : i ≠ 0 → (i - 1) / 2 = s → i = if Nat.odd i then 2 * s + 1 else 2 * s + 2.
Proof.
  intros Hi Hs. pose proof (Nat.div_mod (i - 1) 2 ltac:(lia)) as Hd. rewrite Hs in Hd.
  pose proof (Nat.mod_upper_bound (i - 1) 2 ltac:(lia)). destruct (Nat.odd i) eqn:E.
  - apply Nat.odd_spec in E as [k Hk]. lia.
  - assert (Nat.even i = true) as [k Hk]%Nat.even_spec by (by rewrite <-Nat.negb_odd, E). lia.
Qed.
Lemma half_of i s : (i = 2 * s + 1 ∨ i = 2 * s + 2) → (i - 1) / 2 = s.
Proof.
  intros [->| ->]; symmetry; [apply (Nat.div_unique _ 2 _ 0)|apply (Nat.div_unique _ 2 _ 1)]; lia.
Qed.

Lemma wake0_step : 
  places b t = Wake0 →
  inv (goto t Wake1 (match (childpointers (nodes b (socket t))).1 with Some c => set_parentsense c (sense b t) b | None => b end)).
Proof.
  intros E. pose proof (i_place _ Hb t Ht) as Hl. rewrite E in Hl. pose proof (tl_socket t Ht) as Hs.
  apply (wake_step Wake1 (2 * socket t + 1)); [by rewrite E|done|rewrite E; unfold counts_up; cbn; lia|done|done| |].
  - intros ns i Hi. rewrite wakes_moved by done. destruct (decide (i = 0)) as [->|Hi0].
    + rewrite (decide_False (P := 0 = 2 * socket t + 1)) by lia. case_decide as Et; [|done]. unfold wakes. cbn [Nat.eqb]. rewrite Et in *. by rewrite E.
    + case_decide as Eh.
      * pose proof (half_odd i _ Hi0 Eh). unfold wakes. rewrite (proj2 (Nat.eqb_neq _ _) Hi0), Eh.
        apply leader_spec in Hl. rewrite Hl, E. destruct (Nat.odd i); case_decide; cbn; lia.
      * rewrite decide_False; [done|]. intros ->. apply Eh, half_of. by left.
  - destruct (i_static _ Hb _ Hs) as (_ & -> & _). unfold new_node. cbn [childpointers fst].
    destruct (Nat.leb_spec pkgs (2 * socket t + 1)); [by right|by left].
Qed.
Lemma wake1_step :
  places b t = Wake1 →
  inv (goto t (if t =? 0 then WakeSelf else Leave)
    (match (childpointers (nodes b (socket t))).2 with Some c => set_parentsense c (sense b t) b | None => b end)).
Proof.
  intros E. pose proof (i_place _ Hb t Ht) as Hl. rewrite E in Hl. pose proof (tl_socket t Ht) as Hs.
  apply (wake_step _ (2 * socket t + 2)).
  - by rewrite E.
  - by destruct (t =? 0).
  - rewrite E. destruct (t =? 0); unfold counts_up; cbn; lia.
  - done.
  - by destruct (Nat.eqb_spec t 0).
  - intros ns i Hi. rewrite wakes_moved by done. destruct (decide (i = 0)) as [->|Hi0].
    + rewrite (decide_False (P := 0 = 2 * socket t + 2)) by lia. case_decide as Et; [|done]. unfold wakes. cbn [Nat.eqb]. rewrite Et in *. by rewrite E.
    + case_decide as Eh.
      * pose proof (half_odd i _ Hi0 Eh). unfold wakes. rewrite (proj2 (Nat.eqb_neq _ _) Hi0), Eh.
        apply leader_spec in Hl. rewrite Hl, E. destruct (Nat.odd i), (t =? 0); case_decide; cbn; lia.
      * rewrite decide_False; [done|]. intros ->. apply Eh, half_of. by right.
  - destruct (i_static _ Hb _ Hs) as (_ & -> & _). unfold new_node. cbn [childpointers snd].
    destruct (Nat.leb_spec pkgs (2 * socket t + 2)); [by right|by left].
Qed.
Lemma wake_self_step : places b t = WakeSelf → inv (goto t Leave (set_parentsense (socket t) (sense b t) b)).
Proof.
  intros E. pose proof (i_place _ Hb t Ht) as Ht0. rewrite E in Ht0. cbn in Ht0. pose proof (tl_socket t Ht) as Hs.
  assert (isLeader t = true) as Hl by (rewrite Ht0; apply root_leader).
  apply (wake_step _ 0); [by rewrite E|done|rewrite E; unfold counts_up; cbn; lia|done|done| |].
  - intros ns i Hi. rewrite wakes_moved by done. destruct (decide (i = 0)) as [->|Hi0].
    + rewrite decide_True by done. cbn. lia.
    + case_decide as Eh; [|done]. unfold wakes. rewrite (proj2 (Nat.eqb_neq _ _) Hi0), Eh.
      apply leader_spec in Hl. rewrite Hl, E. by destruct (Nat.odd i).
  - left. rewrite Ht0 at 1 2. rewrite socket_0. split; [apply (tl_first (leader := leader))|]. by rewrite <-Ht0.
Qed.
End Steps.

Lemma place_await t : t ≠ 0 → await socket leader t = Sleep.
Proof. intros Hn. unfold await. by rewrite (proj2 (Nat.eqb_neq _ _) Hn). Qed.

Lemma step_inv t b b' : t < P → inv b → wstep t b = Some b' → inv b'.
Proof.
  intros Ht Hb. pose proof (i_place _ Hb t Ht) as Hp. pose proof (i_awake _ Hb t Ht) as Haw. unfold wait_step.
  destruct (places b t) eqn:E; cbn [place_ok] in Hp.
  - intros [= <-]. destruct (isLeader t) eqn:El; apply barrier_quiet_step; rewrite ?E; done.
  - destruct (Z.eqb_spec (childnotready (nodes b (socket t))) 0) as [H0|]; [|done]. intros [= <-].
    apply barrier_quiet_step; rewrite ?E; try done. intros _ c Hc. rewrite (i_count _ Hb _ (tl_socket t Ht)) in H0.
    assert (¬ arrivals b c <= collections b (socket t)); [|lia].
    apply (proj1 (filter_nil_iff (λ c, arrivals b c <= collections b (socket t)) (children (socket t)))); [lia|done].
  - intros [= <-]. by apply reset_step.
  - destruct Hp as [Hl Hn]. pose proof (tl_socket t Ht) as Hs.
    rewrite (proj1 (i_static _ Hb _ Hs)). cbn [parentpointer new_node].
    rewrite (proj2 (Nat.eqb_neq _ _) (leader_ne_0 t Hl Hn)). intros [= <-]. rewrite place_await by done.
    pose proof (arrive_step b t Hb Ht Hn) as Ha. unfold up in Ha. rewrite Hl in Ha. by apply Ha.
  - intros [= <-]. assert (t ≠ 0) as Hn by (intros ->; by rewrite root_leader in Hp). rewrite place_await by done.
    pose proof (arrive_step b t Hb Ht Hn) as Ha. unfold up in Ha. rewrite Hp in Ha. by apply Ha.
  - destruct (Z.eqb_spec (parentsense (nodes b (socket t))) (sense b t)) as [Es|]; [|done]. intros [= <-].
    rewrite (i_psense _ Hb _ (tl_socket t Ht)), (i_sense _ Hb t Ht) in Es.
    apply u32_next in Es; [|by apply wakes_bound].
    unfold signal. destruct (isLeader t) eqn:El; apply barrier_quiet_step; rewrite ?E, ?Es; try done; cbn; try lia; by rewrite El.
  - intros [= <-]. by apply wake0_step.
  - intros [= <-]. by apply wake1_step.
  - intros [= <-]. by apply wake_self_step.
  - intros [= <-]. by apply leave_step.
Qed.

Abbreviation barrier_step := (barrier_step P socket leader).
Abbreviation initial := (new_TopoBarrier P pkgs socket leader).

Lemma steps_inv b b' : inv b → rtc barrier_step b b' → inv b'.
Proof. intros Hb Hr. induction Hr as [|x y z (t & Ht & Hst) _ IH]; [done|]. apply IH. by eapply step_inv. Qed.
Lemma barrier_reachable_inv b : rtc barrier_step initial b → inv b.
Proof. apply steps_inv, barrier_start_inv. Qed.

Lemma entered_arrivals b t : arrivals b t <= entered b t.
Proof. unfold arrivals, entered. destruct (places b t); cbn; lia. Qed.

(** ** The barrier opens *)

Section Opens.
Context (b : barrier) (k : nat).
Hypothesis Hb : inv b.
Hypothesis all_in : ∀ t, t < P → k <= entered b t.

(** A thread that spins in the call [k]. *)
Lemma spinning t :
  t < P → returned b t < k → wstep t b = None →
  S (returned b t) = k ∧
  (places b t = Collect ∧ (∃ c, c ∈ children (socket t) ∧ arrivals b c <= returned b t) ∨
   places b t = Sleep ∧ wakes b (socket t) = returned b t).
Proof.
  intros Ht Hk. pose proof (all_in t Ht) as Hin. pose proof (i_place _ Hb t Ht) as Hp. pose proof (tl_socket t Ht) as Hs.
  unfold wait_step, entered in *. destruct (places b t) eqn:E; try done; cbn [place_ok] in Hp.
  - destruct (Z.eqb_spec (childnotready (nodes b (socket t))) 0) as [|H0]; [done|]. intros _. split; [lia|]. left. split; [done|].
    rewrite (i_count _ Hb _ Hs) in H0.
    destruct (filter (λ c, arrivals b c <= collections b (socket t)) (children (socket t))) as [|c l] eqn:Ef; [cbn in H0; lia|].
    exists c. assert (c ∈ c :: l) as Hc by (apply elem_of_cons; by left). rewrite <-Ef in Hc. apply list_elem_of_filter in Hc as [Hc Hch].
    split; [done|]. apply leader_spec in Hp. unfold collections in Hc. rewrite Hp, E in Hc. cbn in Hc. lia.
  - destruct Hp as [Hl Hn]. rewrite (proj1 (i_static _ Hb _ Hs)). cbn [parentpointer new_node].
    by rewrite (proj2 (Nat.eqb_neq _ _) (leader_ne_0 t Hl Hn)).
  - destruct (Z.eqb_spec (parentsense (nodes b (socket t))) (sense b t)) as [|Hne]; [done|]. intros _. split; [lia|]. right.
    split; [done|]. rewrite (i_psense _ Hb _ Hs), (i_sense _ Hb t Ht) in Hne. pose proof (wakes_bound b Hb t Ht Hp).
    destruct (decide (wakes b (socket t) = S (returned b t))) as [Ew|]; [by rewrite Ew in Hne|lia].
Qed.

Lemma some_step : (∃ t, t < P ∧ returned b t < k) → ∃ t, t < P ∧ returned b t < k ∧ is_Some (wstep t b).
Proof.
  intros (t0 & Ht0 & Hk0).
  destruct (decide (Exists (λ t, returned b t < k ∧ is_Some (wstep t b)) (seq 0 P))) as [Hex|Hno].
  { apply list.Exists_exists in Hex as (t & Ht & ? & ?). exists t. apply elem_of_seq in Ht. split; [lia|done]. }
  exfalso. assert (∀ t, t < P → returned b t < k → wstep t b = None) as Hstuck.
  { intros t Ht Hk. apply eq_None_not_Some. intros Hs. apply Hno, list.Exists_exists. exists t. rewrite elem_of_seq. split; [lia|done]. }
  assert (∀ n i, i < pkgs → pkgs - i <= n → returned b (leader i) < k → places b (leader i) ≠ Collect) as Hcol.
  { induction n as [|n IH]; intros i Hi Hn Hk Ec; [lia|]. destruct (tl_leader i Hi) as [Hl Hs].
    destruct (spinning _ Hl Hk (Hstuck _ Hl Hk)) as [Ek [[_ (c & Hc & Ha)]|[Es _]]]; [|congruence]. rewrite Hs in Hc.
    apply elem_children in Hc as (Hc & Hc0 & Hu). unfold arrivals in Ha.
    destruct (spinning c Hc ltac:(lia) ltac:(apply Hstuck; lia)) as [Ekc [[Ecc _]|[Es _]]]; [|rewrite Es in Ha; cbn in Ha; lia].
    pose proof (i_place _ Hb c Hc) as Hlc. rewrite Ecc in Hlc. cbn in Hlc. unfold up in Hu. rewrite Hlc in Hu.
    pose proof (leader_ne_0 c Hlc Hc0). pose proof (tl_socket c Hc). apply leader_spec in Hlc.
    assert ((socket c - 1) / 4 <= socket c - 1) by (apply Nat.Div0.div_le_upper_bound; lia).
    apply (IH (socket c)); rewrite ?Hlc; [done|lia|lia|done]. }
  assert (∀ t, t < P → returned b t < k → places b t = Sleep ∧ wakes b (socket t) < k) as Hsl.
  { intros t Ht Hk. destruct (spinning t Ht Hk (Hstuck t Ht Hk)) as [Ek [[Ec _]|[Es Ew]]]; [|split; [done|lia]].
    pose proof (i_place _ Hb t Ht) as Hl. rewrite Ec in Hl. apply leader_spec in Hl.
    destruct (Hcol pkgs (socket t)); rewrite ?Hl; [by apply tl_socket|lia|done|done]. }
  assert (∀ i, i < pkgs → k <= wakes b i) as Hwk.
  { induction i as [i IH] using lt_wf_ind. intros Hi. unfold wakes. destruct (Nat.eqb_spec i 0) as [->|Hi0].
    - destruct (decide (returned b 0 < k)) as [Hk|]; [|lia]. pose proof (proj1 (tl_leader 0 Hi)) as H0. rewrite leader_0 in H0.
      destruct (Hsl 0 H0 Hk) as [Es _]. pose proof (i_place _ Hb 0 H0) as Hp. by rewrite Es in Hp.
    - assert ((i - 1) / 2 <= i - 1) by (apply Nat.Div0.div_le_upper_bound; lia).
      destruct (tl_leader ((i - 1) / 2) ltac:(lia)) as [Hl Hs]. cbv zeta.
      destruct (decide (returned b (leader ((i - 1) / 2)) < k)) as [Hk|]; [|lia].
      destruct (Hsl _ Hl Hk) as [_ Hw]. rewrite Hs in Hw. specialize (IH ((i - 1) / 2) ltac:(lia) ltac:(lia)). lia. }
  destruct (Hsl t0 Ht0 Hk0) as [_ Hw]. specialize (Hwk (socket t0) (tl_socket t0 Ht0)). lia.
Qed.
End Opens.

(** The accesses left to the threads whose call [k] has not returned. *)
Definition left_at (p : place) : nat :=
  match p with
  | Outside => 10 | Collect => 9 | Arrive => 9 | Reset => 8 | Notify => 7 | Sleep => 6
  | Wake0 => 5 | Wake1 => 4 | WakeSelf => 3 | Leave => 2
  end.
Definition remaining (k : nat) (b : barrier) : nat :=
  sum_list_with (λ t, if decide (returned b t < k) then left_at (places b t) else 0) (seq 0 P).

Lemma step_other t b b' : wstep t b = Some b' →
  (∀ u, u ≠ t → places b' u = places b u ∧ returned b' u = returned b u) ∧
  if decide (places b t = Leave) then returned b' t = S (returned b t) ∧ places b' t = Outside
  else returned b' t = returned b t ∧ left_at (places b' t) < left_at (places b t) ∧ places b' t ≠ Outside.
Proof.
  assert (∀ p b1, places b1 = places b → returned b1 = returned b → p ≠ Outside → left_at p < left_at (places b t) → places b t ≠ Leave →
    (∀ u, u ≠ t → places (goto t p b1) u = places b u ∧ returned (goto t p b1) u = returned b u) ∧
    if decide (places b t = Leave) then returned (goto t p b1) t = S (returned b t) ∧ places (goto t p b1) t = Outside
    else returned (goto t p b1) t = returned b t ∧ left_at (places (goto t p b1) t) < left_at (places b t) ∧
      places (goto t p b1) t ≠ Outside) as Hgo.
  { intros p b1 E1 E2 Hp Hlt Hl. cbn. rewrite E1, E2. split; [intros u Hu; by rewrite fn_lookup_insert_ne|].
    rewrite decide_False, fn_lookup_insert by done. done. }
  assert (left_at (await socket leader t) <= 6 ∧ await socket leader t ≠ Outside ∧
    left_at (signal socket leader t) <= 5 ∧ signal socket leader t ≠ Outside) as (Ha & Ha' & Hs & Hs').
  { unfold await, signal. destruct (t =? 0), (isLeader t); cbn; split_and!; lia || done. }
  unfold wait_step. destruct (places b t) eqn:E; cbn [left_at] in Hgo.
  - intros [= <-]. apply Hgo; destruct (isLeader t); done || cbn; lia.
  - destruct (_ =? 0)%Z; [|done]. intros [= <-]. apply Hgo; done || cbn; lia.
  - intros [= <-]. destruct (parentpointer _); apply Hgo; done || cbn; lia.
  - destruct (parentpointer _); [|done]. intros [= <-]. apply Hgo; done || cbn; lia.
  - intros [= <-]. apply Hgo; done || cbn; lia.
  - destruct (_ =? _)%Z; [|done]. intros [= <-]. apply Hgo; done || cbn; lia.
  - intros [= <-]. apply Hgo; destruct (childpointers (nodes b (socket t))).1; done || cbn; lia.
  - intros [= <-]. apply Hgo; destruct (childpointers (nodes b (socket t))).2, (t =? 0); done || cbn; lia.
  - intros [= <-]. apply Hgo; done || cbn; lia.
  - intros [= <-]. cbn. rewrite decide_True, !fn_lookup_insert by done. split; [|done].
    intros u Hu. by rewrite !fn_lookup_insert_ne.
Qed.

Lemma remaining_step k t b b' :
  t < P → returned b t < k → k <= entered b t → wstep t b = Some b' →
  remaining k b' < remaining k b ∧ ∀ u, entered b u <= entered b' u.
Proof.
  intros Ht Hk Hin Hst. destruct (step_other t b b' Hst) as [Ho Hme]. split.
  - unfold remaining. replace P with (t + S (P - S t)) by lia. rewrite seq_app. cbn [seq Nat.add].
    rewrite !sum_list_with_app. cbn [sum_list_with].
    assert (∀ l, t ∉ l → sum_list_with (λ u, if decide (returned b' u < k) then left_at (places b' u) else 0) l =
      sum_list_with (λ u, if decide (returned b u < k) then left_at (places b u) else 0) l) as E.
    { induction l as [|u l IH]; intros Hl; [done|]. rewrite elem_of_cons in Hl. cbn [sum_list_with].
      destruct (Ho u ltac:(intros ->; tauto)) as [-> ->]. by rewrite IH by tauto. }
    rewrite !E by (rewrite elem_of_seq; lia). rewrite (decide_True (P := returned b t < k)) by done. unfold entered in Hin.
    destruct (decide (places b t = Leave)) as [El|_].
    + destruct Hme as [-> _]. rewrite El in *. rewrite decide_False by lia. cbn. lia.
    + destruct Hme as (-> & Hlt & _). rewrite decide_True by done. lia.
  - intros u. destruct (decide (u = t)) as [->|Hu]; [|unfold entered; by destruct (Ho u Hu) as [-> ->]].
    unfold entered in *. destruct (decide (places b t = Leave)) as [El|_].
    + destruct Hme as [-> ->]. by rewrite El.
    + destruct Hme as (-> & _ & Hout). destruct (places b' t); try done; destruct (places b t); lia.
Qed.

Lemma opens n b k :
  inv b → (∀ t, t < P → k <= entered b t) → remaining k b <= n →
  ∃ b', rtc barrier_step b b' ∧ ∀ t, t < P → k <= returned b' t.
Proof.
  revert b. induction n as [|n IH]; intros b Hb Hin Hn.
  all: destruct (decide (Forall (λ t, k <= returned b t) (seq 0 P))) as [Hall|Hex];
    [exists b; split; [done|]; intros t Ht; rewrite list.Forall_forall in Hall; apply Hall, elem_of_seq; lia|].
  all: apply not_Forall_Exists, list.Exists_exists in Hex as (t0 & Ht0 & Hk0); [|apply _]; apply elem_of_seq in Ht0; cbn [compose] in Hk0.
  all: destruct (some_step b k Hb Hin) as (t & Ht & Hk & b1 & Hst); [exists t0; split; lia|].
  all: destruct (remaining_step k t b b1 Ht Hk (Hin t Ht) Hst) as [Hlt Hen].
  { lia. }
  destruct (IH b1) as (b' & Hr & Hall); [by eapply step_inv| |lia|].
  - intros u Hu. specialize (Hin u Hu). specialize (Hen u). lia.
  - exists b'. split; [|done]. eapply rtc_l; [by exists t|done].
Qed.

Lemma returned_entered b t u :
  rtc barrier_step initial b → t < P → u < P → returned b t <= entered b u.
Proof.
  intros Hr Ht Hu. pose proof (barrier_reachable_inv b Hr) as Hb. pose proof (returned_root b Hb t Ht) as Hret.
  destruct (decide (u = 0)) as [->|Hu0].
  - unfold collections in Hret. rewrite leader_0 in Hret. unfold entered. destruct (places b 0); cbn in Hret; lia.
  - pose proof (arrived_root b Hb u Hu Hu0). pose proof (entered_arrivals b u). lia.
Qed.


End Facts.

(** ** Three threads on two sockets *)

Definition sample_socket (t : nat) : nat := t mod 2.
#[export] Instance sample_laws : TopoLaws 3 2 sample_socket (λ i, i).
Proof.
  split; [done| | |split; [lia|done]].
  - intros t _. apply Nat.mod_upper_bound. lia.
  - intros [|[|i]] Hi; [split; [lia|done]..|lia].
Qed.
(** The threads 1 and 2 wait for thread 0. *)
Definition sample_run : barrier :=
  run_barrier sample_socket (λ i, i) (replicate 9 1 ++ replicate 9 2) (new_TopoBarrier 3 2 sample_socket (λ i, i)).
Lemma sample_run_steps :
  rtc (barrier_step 3 sample_socket (λ i, i)) (new_TopoBarrier 3 2 sample_socket (λ i, i)) sample_run.
Proof. apply run_barrier_steps. apply Forall_app. split; apply Forall_replicate; lia. Qed.


Definition sample_full : barrier := run_barrier sample_socket (λ i, i) [0] sample_run.
