(* ===== verification/HwTopo.v ===== *)
(** * [libgalois/src/HWTopoLinux.cpp], [substrate/HWTopo.h], [substrate/ThreadPool.h]: sockets

    How the threads are numbered and put on the sockets of the machine.  The lines of
    [/proc/cpuinfo] and the set of processors that the process may use are parameters;
    [getHWTopo] sorts the processors so that the first hardware thread of every core comes
    before the others, and numbers threads and sockets in that order.  This is where
    the laws come from that [TopoBarrier] needs, and where they can fail. *)
From stdpp Require Import list sorting relations functions.
From S2P Require Import Prelude TopoBarrier.

(** The fields [sib] and [cpucores] are filled in and never used. *)
Record cpuinfo := mkCpu {
  proc : nat;
  physid : nat;
  coreid : nat;
  numaNode : nat;
  valid : bool;
  smt : bool;
}.

Definition cpu_lt (lhs rhs : cpuinfo) : bool :=
  if negb (Bool.eqb (smt lhs) (smt rhs)) then negb (smt lhs) && smt rhs
  else if negb (physid lhs =? physid rhs) then physid lhs <? physid rhs
  else if negb (coreid lhs =? coreid rhs) then coreid lhs <? coreid rhs
  else proc lhs <? proc rhs.
(** [std::sort] *)
Definition cpu_le (a b : cpuinfo) : Prop := cpu_lt b a = false.
#[export] Instance cpu_le_dec a b : Decision (cpu_le a b).
Proof. unfold cpu_le. apply _. Defined.
Definition sort_cpus (l : list cpuinfo) : list cpuinfo := merge_sort cpu_le l.

Definition set_smt (b : bool) (c : cpuinfo) : cpuinfo :=
  mkCpu (proc c) (physid c) (coreid c) (numaNode c) (valid c) b.
Definition set_valid (b : bool) (c : cpuinfo) : cpuinfo :=
  mkCpu (proc c) (physid c) (coreid c) (numaNode c) b (smt c).

Fixpoint mark_after (prev : cpuinfo) (l : list cpuinfo) : list cpuinfo :=
  match l with
  | [] => []
  | c :: l' => set_smt ((physid prev =? physid c) && (coreid prev =? coreid c)) c :: mark_after c l'
  end.
Definition markSMT (info : list cpuinfo) : list cpuinfo :=
  match info with [] => [] | c :: l => c :: mark_after c l end.

Definition markValid (cpuset : list nat) (info : list cpuinfo) : list cpuinfo :=
  match cpuset with
  | [] => set_valid true <$> info
  | _ => (λ c, set_valid (bool_decide (proc c ∈ cpuset)) c) <$> info
  end.

Definition countSockets (info : list cpuinfo) : nat := length (remove_dups (physid <$> info)).
Definition countCores (info : list cpuinfo) : nat := length (remove_dups ((λ c, (physid c, coreid c)) <$> info)).
Definition countNumaNodes (info : list cpuinfo) : nat := length (remove_dups (numaNode <$> info)).

Record threadTopoInfo := mkThread {
  tid : nat;
  socketLeader : nat;
  socket : nat;
  thread_numaNode : nat;
  cumulativeMaxSocket : nat;
  osContext : nat;
  osNumaNode : nat;
}.
Record machineTopoInfo := mkMachine { maxThreads : nat; maxCores : nat; maxSockets : nat; maxNumaNodes : nat }.

(** [std::distance(s.begin(), s.find(x))] for the [std::set] [s] of the elements of a list *)
Definition rank (x : nat) (l : list nat) : nat := length (filter (λ y, y < x) (remove_dups l)).
(** [std::distance(l.begin(), std::find_if(l.begin(), l.end(), ...))] *)
Fixpoint find_pos {A} (p : A → bool) (l : list A) : nat :=
  match l with [] => 0 | x :: l' => if p x then 0 else S (find_pos p l') end.

(** The loop over [info]; [i] and [mid] are its variables. *)
Fixpoint threads_from (all : list cpuinfo) (i mid : nat) (info : list cpuinfo) : list threadTopoInfo :=
  match info with
  | [] => []
  | c :: l =>
      let repid := rank (physid c) (physid <$> all) in
      let mid := Nat.max mid repid in
      let leader := find_pos (λ c', physid c' =? physid c) all in
      mkThread i leader repid (rank (numaNode c) (numaNode <$> all)) mid (proc c) (numaNode c) ::
      threads_from all (S i) mid l
  end.

(** [rawInfo] is the result of [parseCPUInfo] and [cpuset] that of [parseCPUSet]. *)
Definition processors (rawInfo : list cpuinfo) (cpuset : list nat) : list cpuinfo :=
  let rawInfo := markValid cpuset (markSMT (sort_cpus rawInfo)) in
  sort_cpus (filter (λ c, valid c = true) rawInfo).
Definition getHWTopo (rawInfo : list cpuinfo) (cpuset : list nat) : machineTopoInfo * list threadTopoInfo :=
  let info := markSMT (processors rawInfo cpuset) in
  (mkMachine (length info) (countCores info) (countSockets info) (countNumaNodes info), threads_from info 0 0 info).

(** ** [ThreadPool] *)

Section ThreadPool.
Context (signals : list threadTopoInfo).

Definition topo (t : nat) : option threadTopoInfo := signals !! t.
Definition getSocket (t : nat) : nat := from_option socket 0 (topo t).
Definition tp_isLeader (t : nat) : bool := from_option (λ i, socketLeader i =? t) false (topo t).
Definition getCumulativeMaxSocket (t : nat) : nat := from_option cumulativeMaxSocket 0 (topo t).
Definition getLeaderForSocket (pid : nat) : option nat :=
  let i := find_pos (λ i, (getSocket i =? pid) && tp_isLeader i) (seq 0 (length signals)) in
  if i <? length signals then Some i else None.
End ThreadPool.

(** ** Ranks *)

Lemma max_of (l : list nat) : l ≠ [] → ∃ y, y ∈ l ∧ ∀ z, z ∈ l → z <= y.
Proof.
  induction l as [|x l IH]; [done|]. intros _. destruct (decide (l = [])) as [->|Hl].
  - exists x. split; [apply elem_of_cons; by left|]. intros z Hz. apply list_elem_of_singleton in Hz. lia.
  - destruct (IH Hl) as (y & Hy & Hmax). destruct (decide (x <= y)).
    + exists y. split; [apply elem_of_cons; by right|]. intros z [->|Hz]%elem_of_cons; auto.
    + exists x. split; [apply elem_of_cons; by left|]. intros z [->|Hz]%elem_of_cons; [lia|]. specialize (Hmax z Hz). lia.
Qed.

Lemma rank_mono x y l : x ∈ l → x < y → rank x l < rank y l.
Proof.
  intros Hx Hxy. unfold rank. apply elem_of_remove_dups in Hx. pose proof (NoDup_remove_dups l) as Hn. revert Hx Hn.
  generalize (remove_dups l) as k. intros k Hx Hn.
  assert (length (filter (λ z, z < x ∨ z = x) k) = S (length (filter (λ z, z < x) k))) as E.
  { apply (filter_one _ _ k x Hn Hx); [by right|lia|]. intros z _ Hz. tauto. }
  assert (length (filter (λ z, z < x ∨ z = x) k) <= length (filter (λ z, z < y) k)); [|lia].
  clear -Hxy. induction k as [|z k IH]; [done|]. rewrite !filter_cons.
  repeat case_decide; cbn; lia.
Qed.
Lemma rank_inj x y l : x ∈ l → y ∈ l → rank x l = rank y l → x = y.
Proof.
  intros Hx Hy E. destruct (lt_eq_lt_dec x y) as [[H|H]|H]; [|done|]; apply (rank_mono _ _ l) in H; done || lia.
Qed.
(** Every smaller rank is the rank of an element. *)
Lemma rank_pred x l n : x ∈ l → rank x l = S n → ∃ y, y ∈ l ∧ y < x ∧ rank y l = n.
Proof.
  intros Hx. unfold rank. pose proof (NoDup_remove_dups l) as Hn. setoid_rewrite <-(elem_of_remove_dups l). revert Hn.
  generalize (remove_dups l) as k. intros k Hn E.
  destruct (max_of (filter (λ y, y < x) k)) as (y & Hy & Hmax); [intros E'; by rewrite E' in E|].
  apply list_elem_of_filter in Hy as [Hyx Hy]. exists y. split_and!; [done..|].
  assert (length (filter (λ z, z < x) k) = S (length (filter (λ z, z < y) k))); [|lia].
  apply (filter_one _ _ k y Hn Hy); [done|lia|]. intros z Hz Hzy. split; [|lia]. intros Hzx.
  assert (z <= y) by (apply Hmax; by apply list_elem_of_filter). lia.
Qed.
Lemma rank_below x l i : x ∈ l → i <= rank x l → ∃ y, y ∈ l ∧ y <= x ∧ rank y l = i.
Proof.
  remember (rank x l - i) as n eqn:En. revert x En. induction n as [|n IH]; intros x En Hx Hi.
  - exists x. split_and!; [done|done|lia].
  - destruct (rank_pred x l (rank x l - 1) Hx ltac:(lia)) as (y & Hy & Hyx & Er).
    destruct (IH y) as (z & Hz & Hzy & Ez); [lia|done|lia|]. exists z. split_and!; [done|lia|done].
Qed.

(** ** The order of the processors *)

Lemma cpu_le_iff a b :
  cpu_le a b ↔ smt a = false ∧ smt b = true ∨ smt a = smt b ∧ (physid a < physid b ∨ physid a = physid b ∧
    (coreid a < coreid b ∨ coreid a = coreid b ∧ proc a <= proc b)).
Proof.
  unfold cpu_le, cpu_lt. destruct (smt a), (smt b); cbn [negb andb Bool.eqb].
  2,3: intuition congruence.
  all: destruct (Nat.eqb_spec (physid b) (physid a)); cbn [negb]; [destruct (Nat.eqb_spec (coreid b) (coreid a)); cbn [negb]|].
  all: rewrite Nat.ltb_ge; intuition (lia || congruence).
Qed.
#[local] Instance cpu_le_total : Total cpu_le.
Proof. intros a b. rewrite !cpu_le_iff. destruct (smt a), (smt b); intuition (lia || congruence). Qed.
#[local] Instance cpu_le_trans : Transitive cpu_le.
Proof. intros a b c. rewrite !cpu_le_iff. destruct (smt a), (smt b), (smt c); intuition (lia || congruence). Qed.

(** What decides about the order. *)
Lemma cpu_le_spec a b : cpu_le a b → smt a = false → smt b = false → physid a <= physid b.
Proof.
  unfold cpu_le, cpu_lt. intros H Ha Hb. rewrite Ha, Hb in H. cbn [negb Bool.eqb] in H. destruct (Nat.eqb_spec (physid b) (physid a)); [lia|].
  cbn [negb] in H. apply Nat.ltb_ge in H. lia.
Qed.
Lemma cpu_le_smt a b : cpu_le a b → smt a = true → smt b = true.
Proof. unfold cpu_le, cpu_lt. intros H Ha. rewrite Ha in H. by destruct (smt b). Qed.

(** Every socket has a processor that is the first of its core. *)
Definition has_first (l : list cpuinfo) : Prop := ∀ c, c ∈ l → ∃ c', c' ∈ l ∧ physid c' = physid c ∧ smt c' = false.

Lemma mark_after_first prev l c :
  c ∈ mark_after prev l → physid c = physid prev ∨ ∃ c', c' ∈ mark_after prev l ∧ physid c' = physid c ∧ smt c' = false.
Proof.
  revert prev. induction l as [|x l IH]; intros prev; [by intros ?%elem_of_nil|]. cbn [mark_after].
  assert (∀ c, physid c = physid x → physid c = physid prev ∨
    ∃ c', c' ∈ set_smt ((physid prev =? physid x) && (coreid prev =? coreid x)) x :: mark_after x l ∧ physid c' = physid c ∧ smt c' = false) as Hx.
  { intros d Ed. destruct (Nat.eqb_spec (physid prev) (physid x)) as [E|E]; [left; congruence|right].
    eexists. split; [apply elem_of_cons; by left|]. cbn. done. }
  intros [->|Hc]%elem_of_cons; [by apply Hx|]. destruct (IH x Hc) as [E|(c' & Hc' & ?)]; [by apply Hx|].
  right. exists c'. split; [apply elem_of_cons; by right|done].
Qed.
Lemma markSMT_first l : Forall (λ c, smt c = false) l → has_first (markSMT l).
Proof.
  destruct l as [|x l]; [by intros _ c ?%elem_of_nil|]. intros [Hx _]%Forall_cons_1 c. cbn [markSMT].
  intros [->|Hc]%elem_of_cons; [exists x; split; [apply elem_of_cons; by left|done]|].
  destruct (mark_after_first x l c Hc) as [E|(c' & Hc' & ?)].
  - exists x. split; [apply elem_of_cons; by left|done].
  - exists c'. split; [apply elem_of_cons; by right|done].
Qed.

Lemma sorted_lookup {A} (R : relation A) l i j x y :
  StronglySorted R l → i < j → l !! i = Some x → l !! j = Some y → R x y.
Proof.
  intros Hs. revert i j. induction Hs as [|z l Hs IH Hz]; intros [|i] [|j] Hij Hx Hy; try lia; try done; cbn in *.
  - injection Hx as ->. rewrite list.Forall_forall in Hz. apply Hz. by eapply list_elem_of_lookup_2.
  - apply (IH i j); [lia|done..].
Qed.

Lemma processors_sorted raw cs : StronglySorted cpu_le (processors raw cs).
Proof. apply StronglySorted_merge_sort; apply _. Qed.
Lemma elem_processors raw cs c :
  c ∈ processors raw cs ↔ valid c = true ∧ c ∈ markValid cs (markSMT (sort_cpus raw)).
Proof. unfold processors, sort_cpus at 1. by rewrite merge_sort_Permutation, list_elem_of_filter. Qed.

(** The first hardware threads of the cores may be used, or at least one of every socket
    that is used at all. *)
Definition first_allowed (raw : list cpuinfo) (cs : list nat) : Prop :=
  cs = [] ∨ has_first (processors raw cs).

Lemma processors_first raw cs :
  Forall (λ c, smt c = false) raw → first_allowed raw cs → has_first (processors raw cs).
Proof.
  intros Hraw [->|]; [|done]. intros c. rewrite elem_processors. intros [_ Hc]. cbn in Hc.
  apply list_elem_of_fmap in Hc as (d & -> & Hd).
  destruct (markSMT_first (sort_cpus raw)) with d as (c' & Hc' & Hp & Hs); [|done|].
  { rewrite list.Forall_forall in *. intros x Hx. apply Hraw. unfold sort_cpus in Hx. by rewrite merge_sort_Permutation in Hx. }
  exists (set_valid true c'). rewrite elem_processors. cbn. split_and!; [done| |done..].
  apply list_elem_of_fmap. by exists c'.
Qed.

(** A socket that comes before in number comes before in the list of threads. *)
Lemma processors_down raw cs t d c :
  has_first (processors raw cs) → processors raw cs !! t = Some d → c ∈ processors raw cs → physid c < physid d →
  ∃ u d', u < t ∧ processors raw cs !! u = Some d' ∧ physid d' = physid c.
Proof.
  intros Hf Hd Hc Hlt. destruct (Hf c Hc) as (c' & Hc' & Hp & Hs). apply list_elem_of_lookup in Hc' as [u Hu].
  exists u, c'. split_and!; [|done..]. destruct (lt_eq_lt_dec u t) as [[?|Eut]|Htu]; [done| |].
  - subst u. rewrite Hd in Hu. injection Hu as ->. lia.
  - pose proof (sorted_lookup cpu_le _ _ _ _ _ (processors_sorted raw cs) Htu Hd Hu) as Hle.
    destruct (smt d) eqn:Ed; [by rewrite (cpu_le_smt _ _ Hle Ed) in Hs|]. pose proof (cpu_le_spec _ _ Hle Ed Hs). lia.
Qed.

Lemma mark_after_physid prev l : physid <$> mark_after prev l = physid <$> l.
Proof. revert prev. induction l as [|c l IH]; intros prev; [done|]. cbn. by rewrite IH. Qed.
Lemma markSMT_physid l : physid <$> markSMT l = physid <$> l.
Proof. destruct l as [|c l]; [done|]. cbn. by rewrite mark_after_physid. Qed.

(** ** The threads *)

Lemma find_pos_spec {A} (p : A → bool) l u x :
  l !! u = Some x → p x = true → find_pos p l <= u ∧ ∃ y, l !! find_pos p l = Some y ∧ p y = true.
Proof.
  revert u. induction l as [|z l IH]; intros u Hx Hp; [done|]. cbn. destruct (p z) eqn:E; [split; [lia|by exists z]|].
  destruct u as [|u]; [cbn in Hx; congruence|]. cbn in Hx. destruct (IH u Hx Hp) as [? ?]. split; [lia|done].
Qed.
Lemma find_pos_ext {A B} (p : A → bool) (q : B → bool) (l : list A) (k : list B) :
  p <$> l = q <$> k → find_pos p l = find_pos q k.
Proof.
  revert k. induction l as [|x l IH]; intros [|y k] E; try done. cbn in E. injection E as E1 E2. cbn. rewrite E1.
  destruct (q y); [done|]. f_equal. by apply IH.
Qed.

Lemma threads_lookup all i mid l t c :
  l !! t = Some c →
  ∃ th, threads_from all i mid l !! t = Some th ∧ socket th = rank (physid c) (physid <$> all) ∧
    socketLeader th = find_pos (λ c', physid c' =? physid c) all ∧
    (∀ u d, u <= t → l !! u = Some d → rank (physid d) (physid <$> all) <= cumulativeMaxSocket th) ∧
    mid <= cumulativeMaxSocket th ∧
    (cumulativeMaxSocket th = mid ∨
     ∃ u d, u <= t ∧ l !! u = Some d ∧ cumulativeMaxSocket th = rank (physid d) (physid <$> all)).
Proof.
  revert i mid t. induction l as [|x l IH]; intros i mid t Hc; [done|]. cbn [threads_from].
  set (r := rank (physid x) (physid <$> all)). destruct t as [|t].
  - injection Hc as ->. eexists. split; [done|]. cbn. split_and!; [done..| |lia|].
    + intros u d Hu Hd. assert (u = 0) as -> by lia. injection Hd as ->. fold r. lia.
    + destruct (Nat.max_spec mid r) as [[_ ->]|[_ ->]]; [right|by left]. exists 0, c. done.
  - cbn in Hc. destruct (IH (S i) (Nat.max mid r) t Hc) as (th & Hth & Hs & Hl & Hmax & Hmid & Hcum). exists th.
    split_and!; [done..| |lia|].
    + intros [|u] d Hu Hd; [injection Hd as <-; fold r; lia|]. cbn in Hd. apply (Hmax u d); [lia|done].
    + destruct Hcum as [E|(u & d & Hu & Hd & E)]; [|right; exists (S u), d; split_and!; [lia|done..]].
      destruct (Nat.max_spec mid r) as [[_ Em]|[_ Em]]; rewrite Em in E; [right; exists 0, x; split_and!; [lia|done..]|by left].
Qed.

Section Laws.
Context (raw : list cpuinfo) (cs : list nat).
Hypothesis raw_smt : Forall (λ c, smt c = false) raw.
Hypothesis first_ok : first_allowed raw cs.

Abbreviation threads := ((getHWTopo raw cs).2).
Definition ps : list nat := physid <$> processors raw cs.
Definition hw_leader (i : nat) : nat := default 0 (getLeaderForSocket threads i).

Lemma threads_ps t x :
  ps !! t = Some x →
  ∃ th, threads !! t = Some th ∧ socket th = rank x ps ∧ socketLeader th = find_pos (λ y, y =? x) ps ∧
    (∀ u y, u <= t → ps !! u = Some y → rank y ps <= cumulativeMaxSocket th) ∧
    ∃ u y, u <= t ∧ ps !! u = Some y ∧ cumulativeMaxSocket th = rank y ps.
Proof.
  unfold ps. rewrite <-markSMT_physid. rewrite list_lookup_fmap. set (l := markSMT (processors raw cs)).
  intros (c & Hc & ->)%fmap_Some. destruct (threads_lookup l 0 0 l t c Hc) as (th & Hth & Hs & Hl & Hmax & _ & Hcum).
  exists th. split_and!; [done|done| | |].
  - rewrite Hl. apply find_pos_ext. rewrite <-list_fmap_compose. done.
  - intros u y Hu. rewrite list_lookup_fmap. intros (d & Hd & ->)%fmap_Some. by apply (Hmax u).
  - destruct Hcum as [E|(u & d & Hu & Hd & E)].
    + destruct (lookup_lt_is_Some_2 l 0) as [d Hd]; [apply lookup_lt_Some in Hc; lia|]. exists 0, (physid d).
      rewrite list_lookup_fmap, Hd. split_and!; [lia|done|]. specialize (Hmax 0 d ltac:(lia) Hd). lia.
    + exists u, (physid d). by rewrite list_lookup_fmap, Hd.
Qed.
Lemma threads_length : length threads = length ps.
Proof.
  unfold ps. rewrite <-markSMT_physid, length_fmap. cbn [snd getHWTopo].
  assert (∀ all i mid l, length (threads_from all i mid l) = length l) as E; [|apply E].
  intros all i mid l. revert i mid. induction l as [|c l IH]; intros i mid; [done|]. cbn. by rewrite IH.
Qed.
Lemma ps_lookup t : t < length threads → ∃ x, ps !! t = Some x.
Proof. rewrite threads_length. intros Ht. by apply lookup_lt_is_Some_2. Qed.

Lemma socket_ps t x : ps !! t = Some x → getSocket threads t = rank x ps.
Proof. intros Hx. destruct (threads_ps t x Hx) as (th & Hth & Hs & _). unfold getSocket, topo. by rewrite Hth. Qed.
Lemma leader_ps t x : ps !! t = Some x → tp_isLeader threads t = (find_pos (λ y, y =? x) ps =? t).
Proof. intros Hx. destruct (threads_ps t x Hx) as (th & Hth & _ & Hl & _). unfold tp_isLeader, topo. rewrite Hth. cbn. by rewrite Hl. Qed.

(** The first thread of a socket. *)
Lemma hw_leader_spec t x :
  ps !! t = Some x → hw_leader (rank x ps) = find_pos (λ y, y =? x) ps ∧ find_pos (λ y, y =? x) ps <= t ∧
    ps !! find_pos (λ y, y =? x) ps = Some x.
Proof.
  intros Hx. destruct (find_pos_spec (λ y, y =? x) ps t x Hx (Nat.eqb_refl x)) as [Hle (y & Hy & Eyx)].
  apply Nat.eqb_eq in Eyx. subst y. split_and!; [|done..]. set (f := find_pos (λ y, y =? x) ps) in *.
  assert (f < length threads) as Hf by (rewrite threads_length; by eapply lookup_lt_Some).
  unfold hw_leader, getLeaderForSocket.
  destruct (find_pos_spec (λ i, (getSocket threads i =? rank x ps) && tp_isLeader threads i) (seq 0 (length threads)) f f) as [Hj (j & Hsj & Ej)].
  { by rewrite lookup_seq_lt by done. }
  { rewrite (socket_ps f x Hy), (leader_ps f x Hy). fold f. by rewrite !Nat.eqb_refl. }
  set (p := find_pos _ (seq 0 (length threads))) in *. rewrite (proj2 (Nat.ltb_lt p (length threads))) by lia. cbn.
  rewrite lookup_seq_lt in Hsj by lia. injection Hsj as <-. apply andb_prop in Ej as [Es El]. apply Nat.eqb_eq in Es. cbn [Nat.add] in Es, El.
  destruct (ps_lookup p ltac:(lia)) as [z Hz]. rewrite (socket_ps p z Hz) in Es. rewrite (leader_ps p z Hz) in El. apply Nat.eqb_eq in El.
  assert (z = x) as -> by (apply (rank_inj _ _ ps); [by eapply list_elem_of_lookup_2|by eapply list_elem_of_lookup_2|done]).
  exact (eq_sym El).
Qed.

(** [isLeader] of the barrier is that of the thread pool. *)
Lemma isLeader_agrees t : t < length threads → isLeader (getSocket threads) hw_leader t = tp_isLeader threads t.
Proof.
  intros Ht. destruct (ps_lookup t Ht) as [x Hx]. unfold isLeader. rewrite (socket_ps t x Hx), (leader_ps t x Hx).
  by rewrite (proj1 (hw_leader_spec t x Hx)).
Qed.

Lemma ps_down t x y : ps !! t = Some x → y ∈ ps → y < x → ∃ u, u < t ∧ ps !! u = Some y.
Proof.
  unfold ps. rewrite list_lookup_fmap. intros (d & Hd & ->)%fmap_Some (c & -> & Hc)%list_elem_of_fmap Hlt.
  destruct (processors_down raw cs t d c (processors_first raw cs raw_smt first_ok) Hd Hc Hlt) as (u & d' & Hu & Hd' & E).
  exists u. split; [done|]. by rewrite list_lookup_fmap, Hd', <-E.
Qed.

Lemma hw_laws P :
  0 < P <= length threads → (Z.of_nat P < 2 ^ 31)%Z →
  TopoLaws P (S (getCumulativeMaxSocket threads (P - 1))) (getSocket threads) hw_leader.
Proof.
  intros HP Hsz. destruct (ps_lookup (P - 1) ltac:(lia)) as [x Hx].
  destruct (threads_ps _ x Hx) as (th & Hth & _ & _ & Hmax & (v & y & Hv & Hy & Ey)).
  unfold getCumulativeMaxSocket, topo. rewrite Hth. cbn [from_option]. split.
  - done.
  - intros t Ht. destruct (ps_lookup t ltac:(lia)) as [z Hz]. rewrite (socket_ps t z Hz).
    specialize (Hmax t z ltac:(lia) Hz). lia.
  - intros i Hi. destruct (rank_below y ps i) as (z & Hz & Hzy & <-); [by eapply list_elem_of_lookup_2|lia|].
    assert (∃ u, u <= v ∧ ps !! u = Some z) as (u & Hu & Hzu).
    { destruct (decide (z = y)) as [->|Hne]; [by exists v|]. destruct (ps_down v y z Hy Hz ltac:(lia)) as (u & ? & ?).
      exists u. split; [lia|done]. }
    destruct (hw_leader_spec u z Hzu) as (-> & Hle & Hfz). split; [lia|]. by apply socket_ps.
  - split; [lia|]. destruct (ps_lookup 0 ltac:(lia)) as [z Hz].
    assert (rank z ps = 0) as E0.
    { destruct (rank z ps) as [|n] eqn:E; [done|].
      destruct (rank_pred z ps n) as (w & Hw & Hwz & _); [by eapply list_elem_of_lookup_2|done|].
      destruct (ps_down 0 z w Hz Hw Hwz) as (u & ? & _). lia. }
    destruct (hw_leader_spec 0 z Hz) as (El & Hle & _). rewrite E0 in El. lia.
Qed.
End Laws.

(** C16: [getHWTopo] numbers threads and sockets as the barrier needs it.  When every socket
    that is used has a processor in use that is the first of its core, in particular
    when the process may use all processors, then for every number [P] of threads: the
    sockets of the first [P] threads are 0 to [getCumulativeMaxSocket(P - 1)], the
    leader of each of them is among these threads, thread 0 leads socket 0; so the threads
    cannot pass the barrier before all have come to it, and it opens when they have. *)
Theorem machine_barrier raw cs P :
  let threads := (getHWTopo raw cs).2 in
  let pkgs := S (getCumulativeMaxSocket threads (P - 1)) in
  let barrier0 := new_TopoBarrier P pkgs (getSocket threads) (hw_leader raw cs) in
  let step := barrier_step P (getSocket threads) (hw_leader raw cs) in
  Forall (λ c, smt c = false) raw → first_allowed raw cs →
  0 < P <= length threads → (Z.of_nat P < 2 ^ 31)%Z →
  TopoLaws P pkgs (getSocket threads) (hw_leader raw cs) ∧
  (∀ t, t < P → isLeader (getSocket threads) (hw_leader raw cs) t = tp_isLeader threads t) ∧
  (∀ b t u, rtc step barrier0 b → t < P → u < P → returned b t <= entered b u) ∧
  ∀ b k, rtc step barrier0 b → (∀ t, t < P → k <= entered b t) →
    ∃ b', rtc step b b' ∧ ∀ t, t < P → k <= returned b' t.
Proof.
  intros threads pkgs barrier0 step Hraw Hf HP Hsz. pose proof (hw_laws raw cs Hraw Hf P HP Hsz) as HL.
  split_and!; [done| | |].
  - intros t Ht. apply isLeader_agrees. apply (Nat.lt_le_trans _ P); [done|apply HP].
  - intros b t u Hr Ht Hu. by eapply returned_entered.
  - intros b k Hr Hin. eapply (opens _ _ _ _ (L := HL)); [|done|done]. eapply (barrier_reachable_inv _ _ _ _ (L := HL)). exact Hr.
Qed.

(** ** Two sockets with one core of two hardware threads each *)

Definition sample_machine : list cpuinfo :=
  [mkCpu 0 0 0 0 false false; mkCpu 1 1 0 1 false false; mkCpu 2 0 0 0 false false; mkCpu 3 1 0 1 false false].

Lemma machine_barrier_witness :
  let threads := (getHWTopo sample_machine []).2 in
  getSocket threads <$> [0; 1; 2; 3] = [0; 1; 0; 1] ∧
  TopoLaws 4 2 (getSocket threads) (hw_leader sample_machine []).
Proof.
  intros threads. split; [vm_compute; reflexivity|].
  assert (Forall (λ c, smt c = false) sample_machine) as Hs by (repeat constructor).
  assert (0 < 4 <= length (getHWTopo sample_machine []).2) as Hl by (vm_compute; lia).
  exact (proj1 (machine_barrier sample_machine [] 4 Hs (or_introl eq_refl) Hl eq_refl)).
Defined.

(** The processors 1 and 2 only: the first hardware thread of socket 0 may not be used, so the
    thread on socket 1 comes first. *)
Definition restricted : list threadTopoInfo := (getHWTopo sample_machine [1; 2]).2.
Definition restricted_socket (t : nat) : nat := getSocket restricted t.
Definition restricted_leader (i : nat) : nat := hw_leader sample_machine [1; 2] i.
Abbreviation restricted_step := (barrier_step 2 restricted_socket restricted_leader).
Abbreviation restricted_barrier := (new_TopoBarrier 2 2 restricted_socket restricted_leader).

(** Thread 1 cannot leave the barrier. *)
Record asleep (b : barrier) : Prop := {
  as_sense : parentsense (nodes b 0) = 0%Z ∧ sense b 1 = 1%Z ∧ returned b 1 = 0;
  as_static : parentpointer (nodes b 0) = None ∧ childpointers (nodes b 1) = (None, None);
  as_place : places b 1 = Outside ∨ places b 1 = Collect ∨ places b 1 = Reset ∨ places b 1 = Sleep;
}.
Lemma asleep_step b b' : asleep b → restricted_step b b' → asleep b'.
Proof.
  assert (restricted_socket 0 = 1 ∧ restricted_socket 1 = 0 ∧ isLeader restricted_socket restricted_leader 0 = true ∧
    isLeader restricted_socket restricted_leader 1 = true) as (S0 & S1 & L0 & L1) by (vm_compute; done).
  intros [(Hps & Hse & Hr) (Hpp & Hcp) Hp] (t & Ht & Hst). assert (t = 0 ∨ t = 1) as [->| ->] by lia; clear Ht;
    unfold wait_step in Hst; rewrite ?S0, ?S1, ?L0, ?L1 in Hst.
  - destruct (places b 0); rewrite ?Hcp in Hst; cbn [fst snd] in Hst.
    all: repeat match type of Hst with context [match ?x with _ => _ end] => destruct x end; try discriminate Hst.
    all: injection Hst as <-; split; cbn.
    all: rewrite ?fn_lookup_insert_ne by done.
    all: try (split_and!; congruence || done); try done.
    all: unfold insert, fn_insert; repeat case_decide; subst; done.
  - destruct Hp as [Hp|[Hp|[Hp|Hp]]]; rewrite Hp in Hst.
    + injection Hst as <-. split; cbn; rewrite ?fn_lookup_insert; auto.
    + destruct (_ =? _)%Z; [|done]. injection Hst as <-. split; cbn; rewrite ?fn_lookup_insert; auto.
    + rewrite Hpp in Hst. injection Hst as <-. split; cbn; rewrite ?fn_lookup_insert, ?fn_lookup_insert_ne by done; auto.
    + rewrite Hps, Hse in Hst. done.
Qed.

